(* ===== verification/_CoqProject ===== *)
-Q . S2P
Prelude.v
Effects.v
Net.v
Auth.v
ConnectionPool.v
LineReader.v
ReadLines.v
MsgKeySet.v
MimeUtils.v
MimeEncoder.v
MimeHeaders.v
MimeParser.v
MimeText.v
MimeFuel.v
MimeTree.v
MimeStream.v
MimeFaults.v
HeaderTokens.v
DateTime.v
DateHeaders.v
HeaderEmitter.v
Utf8.v
EmitterLines.v
EmitterWords.v
AddressHeaders.v
EmitterLexing.v
AddressRoundtrip.v
MimeAddresses.v
DisplayAddresses.v
StructuredHeaders.v
HeaderFaults.v
SmtpParser.v
SmtpClient.v
SmtpWire.v
SmtpSafety.v
SmtpAuth.v
Pop3State.v
Pop3Client.v
Pop3Safety.v
Pop3Mail.v
NntpNewsGroup.v
NntpFetch.v
NntpClient.v
NntpSessions.v
NntpArticles.v
ImapUtils.v
ImapResponse.v
ImapFetch.v
ImapLines.v
ImapText.v
ImapClient.v
ImapSafety.v
ImapRequests.v
ImapSync.v
ImapFaults.v
SuffixTree.v
SuffixTreeInv.v
SuffixTreeWalk.v
SuffixTreeSteps.v
SuffixTreeBuild.v
SuffixTreeConstruct.v
SuffixTreeMatch.v
SuffixTreeSearch.v
SuffixTreeFind.v
