(* ===== verification/Prelude.v ===== *)
(** * The mail transports of Thunderbird: a verification development

    The repository is the comm tree: Thunderbird's mail, news, calendar and
    chat.  This development is about the part of mailnews that moves messages
    and is written in JavaScript: the SMTP, POP3, NNTP and IMAP clients, the pools of
    connections of the first and third, the line protocol they share, the encoding of
    a message body, the parser of MIME messages (jsmime), the small stores these
    keep (popstate.dat, the set of article numbers), and the suffix tree by which
    the names of contacts and tags are completed.

    ** The parts and how they meet

    An outgoing body is analysed and encoded (MimeEncoder.sys.mjs), its lines
    are handed to the SMTP client's [send] in chunks, which stuffs dots and
    writes them to the socket (SmtpClient.sys.mjs).  The receiving side reads
    the server's bytes: the SMTP client parses replies of its own, the POP3
    client (Pop3Client.sys.mjs) and the NNTP client (NntpClient.sys.mjs) status
    lines and, through LineReader.sys.mjs, dot-stuffed lines, which they give to a
    message sink and to a group (NntpNewsGroup.sys.mjs).  What POP3 has done
    with each message is the uidl map, saved in popstate.dat; what NNTP has
    fetched is a MsgKeySet, saved with the group.  The services keep a bounded
    number of SMTP and NNTP connections and queue the requests beyond.  The IMAP
    client (ImapClient.sys.mjs) gives each chunk to its parser
    (ImapResponse.sys.mjs), which turns it into nested tokens and messages; the
    messages go to the folder's sinks at once, the whole response to the function
    that awaits it.  A message that arrived is given in buffers to the MIME parser
    (jsmime.mjs), which gives an emitter the headers and the data of its parts.
    The headers are decoded into values (addresses, dates, texts) by the header
    parser of jsmime, which the objects of MimeJSComponents.sys.mjs hold for the
    rest of the program, and written back by its header emitter.

    - Prelude.v: strings as lists of UTF-16 code units, maps in insertion order,
      numbers that may be NaN; the operations of the language on them; lemmas,
      tactics and hint databases.
    - Effects.v: methods of an object as a state, event and exception monad,
      [eff]; its laws; invariants of methods ([safe_from], [safe_to]), relations
      between the state before and after ([respects]) and the tactics that prove
      them by the structure of the method; record updates.
    - Net.v: socket types, authentication methods, ready states, arrays.
    - Auth.v: the authenticators, as an interface ([Authenticator]).
    - ConnectionPool.v: the pools of compose/src/SmtpServer.sys.mjs and
      news/src/NntpIncomingServer.sys.mjs.
    - LineReader.v: base/src/LineReader.sys.mjs, [read] with its callbacks;
      ReadLines.v: the same reader within a client's monad, with callbacks that
      are methods.
    - MsgKeySet.v: base/src/MsgKeySet.sys.mjs, every method.
    - MimeUtils.v: the decoders and array helpers of mime/jsmime/jsmime.mjs and
      of base/src/MailStringUtils.sys.mjs.
    - MimeEncoder.v: compose/src/MimeEncoder.sys.mjs, every method.
    - MimeHeaders.v, MimeParser.v: of mime/jsmime/jsmime.mjs, the tokens of
      headers, encoded words, parameters and [StructuredHeaders], over an abstract
      [TextDecoder], and [MimeParser], every method.  MimeText.v (where a text is
      cut), MimeFuel.v, MimeTree.v (the tree of a message, by which the parser is
      specified), MimeStream.v and MimeFaults.v: the theorems on it.
    - HeaderTokens.v (the tokenizer of headers as a lexer over single characters,
      by which the readers are reasoned about), DateTime.v (the language's Date as
      numbers of milliseconds), DateHeaders.v, AddressHeaders.v: the parsers of
      dates and addresses of jsmime.mjs.  HeaderEmitter.v: its [HeaderEmitter],
      every method, over an abstract [TextEncoder] and [TimeZone]; Utf8.v: the
      encoder of the platform, an instance.  MimeAddresses.v: the address parser
      and the converter of mime/src/MimeJSComponents.sys.mjs.  StructuredHeaders.v:
      the decoders of known headers, [StructuredHeaders] with its cache, and the
      header objects of MimeJSComponents.sys.mjs over an interface [HeaderMap] of
      which the headers that were read and those that are written are instances.
      EmitterLines.v, EmitterWords.v, EmitterLexing.v, AddressRoundtrip.v,
      DisplayAddresses.v, HeaderFaults.v: the theorems on them.
    - SmtpParser.v, SmtpClient.v: compose/src/SmtpClient.sys.mjs, every method;
      the parser over an abstract command handler, the client over an abstract
      [Authenticator].
    - Pop3State.v, Pop3Client.v: local/src/Pop3Client.sys.mjs, every method; the
      state file apart, the client over an abstract [Pop3Auth] and [Pop3Sink].
    - NntpNewsGroup.v, NntpClient.v: news/src/NntpNewsGroup.sys.mjs over an
      abstract [MsgDatabase], and news/src/NntpClient.sys.mjs over an abstract
      group whose laws the first satisfies.
    - ImapUtils.v, ImapResponse.v: the flags of imap/src/ImapUtils.sys.mjs and
      the whole of imap/src/ImapResponse.sys.mjs.
    - ImapClient.v: imap/src/ImapClient.sys.mjs, every method, over an abstract
      [Authenticator] and [ImapFolders]; what the source keeps in _nextAction as
      functions are the constructors of [nextAction], with what they close over.
    - SuffixTree.v: db/gloda/modules/SuffixTree.sys.mjs, the construction on a
      heap of states and the search.
    - SmtpWire.v, SmtpSafety.v, SmtpAuth.v, Pop3Safety.v, Pop3Mail.v, NntpFetch.v,
      NntpSessions.v, NntpArticles.v, ImapFetch.v, ImapLines.v,
      ImapText.v (responses in chunks), ImapSafety.v, ImapRequests.v, ImapSync.v,
      ImapFaults.v: the theorems on the clients; SuffixTreeInv.v, SuffixTreeWalk.v, SuffixTreeSteps.v,
      SuffixTreeBuild.v, SuffixTreeConstruct.v (the construction),
      SuffixTreeMatch.v, SuffixTreeSearch.v, SuffixTreeFind.v (the search): the
      correctness of the suffix tree.

    A client's fields are a record with the names of the source, a method is a
    definition of the method's name, and everything it calls outside (the
    socket, callbacks, timers, prompts) is an event of its trace.  The inputs of
    a client (the caller's calls, the socket's events, the answers to what it
    awaits) are a type [input], [handle] dispatches them, and [run] is a
    sequence of them; an [await] whose answer comes at a time of its own ends
    the handler, and its continuation is an input.

    ** What the theorems show

    - Confidentiality: [nothing_in_clear] (SmtpSafety.v) and
      [pop3_nothing_in_clear] (Pop3Safety.v) and [imap_nothing_in_clear]
      (ImapSafety.v) are invariants over every session:
      where STARTTLS is required, only the commands that lead to it go out on an
      insecure connection.  [late_oauth_token_in_clear] and
      [late_password_in_clear], [imap_late_password_in_clear] show that the hypothesis
      on late credentials, which each of the three has, is needed: the code lets them out.  [capabilities_kept] and [methods_kept]
      are about what is learnt in clear and never forgotten.
    - What is on the wire and in the sink: [message_wire] (the client's stream
      is the dot-stuffed encoding of the message's lines) and [read_roundtrip]
      (the reader inverts that encoding under any chunking) meet at the same
      definition, [LineReader.encode]; [message_wire] leaves the client as the next
      message wants it, and [next_message_dot_lost] is what a message does that does
      not end its last line.  [retr_delivers] carries the reader to the POP3
      sink, while no NOOP falls due, [article_delivered] to the listener of an article, and
      [fetch_delivered] is its counterpart for the literals of IMAP.
      [two_char_chunk_ends_message], [split_status_delivered] and
      [fetch_cut_in_close] are the chunkings for which they fail.
      [recipients_flow] is the envelope.
    - Parsing: [parse_chunks] (chunking does not matter), [parse_reply];
      [parseLine_total] and [parseLine_roundtrip] for the nested tokens of IMAP,
      [flags_roundtrip] for its flags.
    - IMAP requests: a response in any chunks reaches what awaits it
      ([response_chunks], ImapRequests.v), and on this stand [request_from_idle],
      [delete_leaves_first], [flags_synced].  [messages_coherent] is the invariant
      of the numbers and UIDs kept.  Where the client fails: [number_without_uid],
      [failed_select_keeps_folder], [messages_outlive_folder], [idle_push_lost],
      [idle_survives_close], [subscribe_never_frees], [cleartext_capabilities_used].
    - MIME: [parse_message_tree] (MimeStream.v), that the streaming parser, whose
      buffers end anywhere, gives the events of the recursive [tree] of the whole
      message that has one (its comment says which have none); it stands on the relation [yields] between a parser, the text it has
      yet to get and the events it has yet to give.  [parse_message_chunks] and
      [multipart_roundtrip] follow from it.  Where the parser loses data, depends on
      the buffers or throws: [unterminated_loses_line], [lone_CR_delivered],
      [base64_depends_on_buffers], [inherited_decoder], [encoded_word_throws],
      [word_behind_other_text] (MimeFaults.v).
    - Headers: what is written is read, [address_header_roundtrip] (for lists of
      addresses and groups, wherever the emitter breaks lines; the invariant [lexed]
      of EmitterLexing.v says what a reader has seen of the text so far),
      [date_roundtrip] and [stored_date], [encoded_phrase_written] (the encoded
      words of a text, which is always written), [display_roundtrip] (for names and addresses without the characters that
      [display_name_split] and [display_semicolon_replaced] have).  Every line
      is within the margin: [header_lines_bounded], an invariant of all the
      methods.  [removeDuplicateAddresses_once], [references_normalized], and
      [header_cache_transparent].  HeaderFaults.v has the headers that are written
      wrong ([blank_line_in_header], [empty_encoded_word], [backslash_lost],
      [line_end_in_address]) or read otherwise than the comments say.
    - The uidl map: [listing_keeps_known] (what is known and listed would be saved
      again by an end with an error; [kept] is the invariant of the methods),
      [session_end_saves], [popstate_roundtrip], and [close_forgets_current], where
      a session that ends as a success loses an entry.
    - News: [range_is_missing], [old_articles_fetched] (a reader who keeps asking
      gets all, from the sets and with the limits it names), [completion_once] and [failed_response_ends] (a request ends at
      most once, and does end on a failure), [auth_resumes] (the command that was
      refused is sent again), and where they end: [post_auth_hangs],
      [lost_connection_sticks], [head_headers_twice].
    - Pools: [pool_bounded], [waiting_served], and [smtp_waiters_left].
    - The suffix tree: [findMatches_refines], that construction and search end
      and find what they should by a specification without trees, with its
      consequences [unique_end_finds_all] and [last_string_lost], the strings
      the search misses.  The invariant is [tree_inv] (SuffixTreeInv.v): the
      words of the states, what edges there are, that no edge passes a branching;
      [phase] and [before] (SuffixTreeConstruct.v) are what holds between two
      characters and within one.
    - Encodings: [base64_roundtrip], [qp_roundtrip], [encodeQP_lines],
      [encode_line_length], [typed_array_roundtrip].
    - Termination: [authentication_terminates], [parse_message_ends] (MimeFuel.v).
    - Article numbers: [addRange_correct], [add_new],
      [getLastMissingRange_correct], [toString_roundtrip]; and
      [add_inside_truncates], where the set loses members.

    ** Bounds

    Loops of the source on the text they consume are structural, or have as
    fuel the length of the text, which every iteration shortens
    ([LineReader.read_loop], whose lemma [read_loop_body] shows that it is
    enough; the loops of the decoders skip instead of using fuel).  The parser
    of IMAP calls itself after each line: [parse_unfold] is its equation, and
    [tokenize_step] that of the loop over tokens.  The loops of the suffix tree
    have as fuel a bound on what is left (characters, suffixes, depth), and give
    [None] without it: that they return is part of [findMatches_refines].  The
    three mutually recursive methods of the SMTP authentication share one fuel;
    running out is an event of its own, [OutOfFuel], which
    [authentication_terminates] excludes for (retries + 1) * (methods + 1)
    rounds.  The methods of the MIME parser share one fuel in the same way:
    [parse_message_ends] shows that the data the parsers hold, their depth and the
    length of the buffer bound it.  The loop over the bytes of a text to encode has
    a fuel quadratic in them ([encode_fuel]; [loop_words_ok] shows that it is enough,
    as every word has a character), the one over displayed addresses the length of
    the text ([display_loop_fuel]).  [parseInt] and [Number] read decimal integers, and
    [toUpperCase]/[toLowerCase] are exact up to U+00FF, which is what the
    protocols send.  The bit operators are those of 32 bits ([to_int32]).

    ** Not modelled

    The close event of a socket that a client has replaced meanwhile: the clients'
    close event is that of their current socket.  Changes of the preference for the
    number of connections while a pool is used.  Logging, progress bars and the texts of string bundles; the converters of
    the platform (UTF-8, IDN, MD5) and what a failed write leaves of popstate.dat,
    which are fields of the environments; the
    login manager and OAuth2 behind the authenticators; the sink's folders,
    which are C++; the event loop that LineReader spins every hundred lines,
    during which another input could come.  In ImapResponse.v a response code
    that overwrites a field or method of the object ends the model.  A client's
    onReady and onFree only tell its caller, whose calls are further inputs; the
    pool of IMAP connections is not modelled: its connections are the threads and
    objects of nsImapIncomingServer in C++.  Dates whose sums leave 2^53
    milliseconds are not modelled, and the decoders and encoders that callers
    register with jsmime are not.  Message composition, MailAuthenticator,
    Pop3Service and the incoming servers drive the compose window, the login
    manager and the folders of the platform, with little of their own that could
    be stated without those.  The calendar, chat, the address book and LDAP, OpenPGP,
    the rest of Gloda and the front end are programs of their own, which share no
    state with what is modelled here; they are listed in the manifest and not
    begun. *)

(** * Prelude: the JavaScript base the components share

    Strings are lists of UTF-16 code units ([jsstr]); most of the strings of
    the modelled code are "byte strings" (code units below 256), and the
    predicate [bytes] says so.  The file gives the String, Map and Number
    operations the sources use, with the argument conventions of the language
    (negative and out-of-range indices, [-1] for "not found"), the generic
    lemmas about them, and the development's tactics and hint databases. *)

From stdpp Require Export base list strings numbers option sets gmap.
From Stdlib Require Export ZArith.
From Stdlib Require Export Lia.

#[export] Set Default Goal Selector "!".
Open Scope Z_scope.

(** ** Strings *)

Abbreviation jsstr := (list Z).

(** A string literal, as the code units of its characters. *)
Fixpoint lit (s : string) : jsstr :=
  match s with
  | EmptyString => []
  | String a s' => Z.of_N (Ascii.N_of_ascii a) :: lit s'
  end.

(** [js "abc"] is evaluated when the definition that uses it is declared. *)
Notation "'js' s" :=
  (ltac:(let x := eval vm_compute in (lit s%string) in exact x))
  (at level 10, s at level 0, only parsing).

Definition CR : Z := 13.
Definition LF : Z := 10.
Definition CRLF : jsstr := [13; 10].
Definition DOT : Z := 46.
Definition QUOTE : Z := 34.
Definition BACKSLASH : Z := 92.
Definition SP : Z := 32.

(** String equality, as the [==] of the sources on two strings. *)
Definition jseq (s t : jsstr) : bool := bool_decide (s = t).
Infix "==s" := jseq (at level 70, no associativity).

Definition bytes (s : jsstr) : Prop := Forall (fun c => 0 <= c < 256) s.

Definition slen (s : jsstr) : Z := Z.of_nat (length s).

(** [s.charCodeAt(i)] on an index in range; [s[i]] is [undefined] outside. *)
Definition charAt (s : jsstr) (i : Z) : option Z :=
  if i <? 0 then None else s !! Z.to_nat i.

(** [s.slice(i, j)]: negative indices count from the end. *)
Definition slice (s : jsstr) (i j : Z) : jsstr :=
  let norm k := if k <? 0 then Z.max 0 (slen s + k) else Z.min k (slen s) in
  take (Z.to_nat (norm j - norm i)) (drop (Z.to_nat (norm i)) s).

Definition slice_from (s : jsstr) (i : Z) : jsstr := slice s i (slen s).

(** [s.substring(i, j)]: indices are clamped to the string and swapped. *)
Definition substring (s : jsstr) (i j : Z) : jsstr :=
  let norm k := Z.max 0 (Z.min k (slen s)) in
  let a := Z.min (norm i) (norm j) in
  let b := Z.max (norm i) (norm j) in
  take (Z.to_nat (b - a)) (drop (Z.to_nat a) s).

Definition startsWith (s p : jsstr) : bool := bool_decide (p `prefix_of` s).
Definition endsWith (s p : jsstr) : bool := bool_decide (p `suffix_of` s).

(** The first occurrence of [p] in [s]. *)
Fixpoint find_sub (p s : jsstr) : option nat :=
  if bool_decide (p `prefix_of` s) then Some 0%nat
  else match s with
       | [] => None
       | _ :: s' => S <$> find_sub p s'
       end.

Definition indexOf (s p : jsstr) : Z :=
  match find_sub p s with Some n => Z.of_nat n | None => -1 end.

Definition includes (s p : jsstr) : bool :=
  match find_sub p s with Some _ => true | None => false end.

(** [s.split(sep)] for a one-character separator. *)
Fixpoint split_on (sep : Z) (s : jsstr) : list jsstr :=
  match s with
  | [] => [[]]
  | c :: s' =>
      if c =? sep then [] :: split_on sep s'
      else match split_on sep s' with
           | [] => [[c]]
           | w :: ws => (c :: w) :: ws
           end
  end.

Fixpoint join (sep : jsstr) (l : list jsstr) : jsstr :=
  match l with
  | [] => []
  | [w] => w
  | w :: ws => w ++ sep ++ join sep ws
  end.

(** [s.replaceAll(p, r)] for a non-empty pattern [p]; the fuel is a bound on
    the number of characters left. *)
Fixpoint replaceAll_fuel (n : nat) (s p r : jsstr) : jsstr :=
  match n with
  | O => s
  | S n' =>
      match s with
      | [] => []
      | c :: s' =>
          if startsWith s p then r ++ replaceAll_fuel n' (drop (length p) s) p r
          else c :: replaceAll_fuel n' s' p r
      end
  end.
Definition replaceAll (s p r : jsstr) : jsstr := replaceAll_fuel (length s) s p r.

(** White space as [String.prototype.trim] and the class [\s] define it. *)
Definition is_space (c : Z) : bool :=
  ((9 <=? c) && (c <=? 13)) || (c =? 32) || (c =? 160) || (c =? 5760)
  || ((8192 <=? c) && (c <=? 8202)) || (c =? 8232) || (c =? 8233)
  || (c =? 8239) || (c =? 8287) || (c =? 12288) || (c =? 65279).

Fixpoint trimStart (s : jsstr) : jsstr :=
  match s with
  | c :: s' => if is_space c then trimStart s' else s
  | [] => []
  end.
Definition trimEnd (s : jsstr) : jsstr := rev (trimStart (rev s)).
Definition trim (s : jsstr) : jsstr := trimEnd (trimStart s).

(** Case mapping on byte strings (Latin-1), where it is total: the sharp s
    maps to two letters, the micro sign and y-diaeresis leave Latin-1. *)
Definition upper_char (c : Z) : jsstr :=
  if (97 <=? c) && (c <=? 122) then [c - 32]
  else if c =? 181 then [924]
  else if c =? 223 then [83; 83]
  else if (224 <=? c) && (c <=? 254) && negb (c =? 247) then [c - 32]
  else if c =? 255 then [376]
  else [c].
Definition toUpperCase (s : jsstr) : jsstr := flat_map upper_char s.

Definition lower_char (c : Z) : Z :=
  if (65 <=? c) && (c <=? 90) then c + 32
  else if (192 <=? c) && (c <=? 222) && negb (c =? 215) then c + 32
  else c.
Definition toLowerCase (s : jsstr) : jsstr := map lower_char s.

(** ** Numbers *)

Definition is_digit (c : Z) : bool := (48 <=? c) && (c <=? 57).

(** The value of a run of decimal digits. *)
Definition digits_val (s : jsstr) : Z :=
  fold_left (fun acc c => 10 * acc + (c - 48)) s 0.

Fixpoint take_digits (s : jsstr) : jsstr :=
  match s with
  | c :: s' => if is_digit c then c :: take_digits s' else []
  | [] => []
  end.

(** Strips an optional sign. *)
Definition sign_of (s : jsstr) : Z * jsstr :=
  match s with
  | c :: s' => if c =? 45 then (-1, s') else if c =? 43 then (1, s') else (1, s)
  | [] => (1, [])
  end.

(** [Number(s)] and [+s] restricted to decimal integers: the empty string is
    0, a run of digits with an optional sign is its value, anything else is
    [NaN] ([None]). *)
Definition toNumber (s : jsstr) : option Z :=
  let t := trim s in
  match t with
  | [] => Some 0
  | _ =>
      let '(sg, ds) := sign_of t in
      match ds with
      | [] => None
      | _ => if forallb is_digit ds then Some (sg * digits_val ds) else None
      end
  end.

(** [Number.parseInt(s)] on decimal input: the longest run of digits after
    white space and a sign, [NaN] when there is none. *)
Definition parseInt (s : jsstr) : option Z :=
  let '(sg, t) := sign_of (trimStart s) in
  match take_digits t with
  | [] => None
  | ds => Some (sg * digits_val ds)
  end.

(** The decimal notation of an integer. *)
Fixpoint nat_dec_fuel (fuel : nat) (n : Z) (acc : jsstr) : jsstr :=
  match fuel with
  | O => acc
  | S f =>
      let acc' := (48 + n mod 10) :: acc in
      if n / 10 =? 0 then acc' else nat_dec_fuel f (n / 10) acc'
  end.
Definition num_str (n : Z) : jsstr :=
  if n <? 0 then 45 :: nat_dec_fuel (S (Z.to_nat (Z.log2 (- n)))) (- n) []
  else nat_dec_fuel (S (Z.to_nat (Z.log2 n))) n [].

(** Truthiness of a string and of a possibly-[NaN] number. *)
Definition str_truthy (s : jsstr) : bool :=
  match s with [] => false | _ => true end.
Definition num_truthy (n : option Z) : bool :=
  match n with Some 0 => false | Some _ => true | None => false end.

(** ** Maps

    A JavaScript [Map] iterates in insertion order, and setting an existing
    key keeps its position. *)
Section JMap.
Context {K V : Type} `{EqDecision K}.

Fixpoint mget (m : list (K * V)) (k : K) : option V :=
  match m with
  | [] => None
  | (k', v) :: m' => if decide (k' = k) then Some v else mget m' k
  end.

Definition mhas (m : list (K * V)) (k : K) : bool :=
  match mget m k with Some _ => true | None => false end.

Fixpoint mset (m : list (K * V)) (k : K) (v : V) : list (K * V) :=
  match m with
  | [] => [(k, v)]
  | (k', v') :: m' =>
      if decide (k' = k) then (k', v) :: m' else (k', v') :: mset m' k v
  end.

Lemma mget_mset m k v k' :
  mget (mset m k v) k' = if decide (k = k') then Some v else mget m k'.
Proof.
  induction m as [|[k1 v1] m IH]; simpl; [done|].
  destruct (decide (k1 = k)) as [->|Hne]; simpl; [by case_decide|].
  rewrite IH. do 2 case_decide; congruence.
Qed.

Lemma mget_mset_eq m k v : mget (mset m k v) k = Some v.
Proof. rewrite mget_mset. by case_decide. Qed.

Lemma mget_mset_ne m k v k' : k ≠ k' → mget (mset m k v) k' = mget m k'.
Proof. intros. rewrite mget_mset. by case_decide. Qed.

Lemma mget_elem m k v : mget m k = Some v → (k, v) ∈ m.
Proof.
  induction m as [|[k1 v1] m IH]; simpl; [done|].
  case_decide; intros; simplify_eq; [left|right; auto].
Qed.

Lemma mget_fst m k v : mget m k = Some v → k ∈ m.*1.
Proof. intros H%mget_elem. apply list_elem_of_fmap. by exists (k, v). Qed.

Lemma mget_None m k : mget m k = None ↔ k ∉ m.*1.
Proof.
  induction m as [|[k1 v1] m IH]; csimpl.
  - split; [intros _ H; by apply elem_of_nil in H|done].
  - rewrite not_elem_of_cons, <- IH.
    case_decide; [split; [done|by intros [? ?]]|intuition congruence].
Qed.

Lemma mset_fst m k v :
  (mset m k v).*1 = if mhas m k then m.*1 else m.*1 ++ [k].
Proof.
  unfold mhas. induction m as [|[k1 v1] m IH]; csimpl; [done|].
  case_decide; csimpl; [done|]. rewrite IH. by destruct (mget m k).
Qed.

Lemma mset_NoDup m k v : NoDup m.*1 → NoDup (mset m k v).*1.
Proof.
  rewrite mset_fst. unfold mhas.
  destruct (mget m k) eqn:E; [done|]. apply mget_None in E.
  intros H. apply NoDup_app.
  split_and!; [done| |apply NoDup_singleton].
  by intros x Hx ->%list_elem_of_singleton.
Qed.

Lemma mget_NoDup m k v : NoDup m.*1 → (k, v) ∈ m → mget m k = Some v.
Proof.
  induction m as [|[k1 v1] m IH]; csimpl; [by intros _ H%elem_of_nil|].
  rewrite NoDup_cons, elem_of_cons. intros [Hni Hnd] [Heq|Hin].
  - simplify_eq. by case_decide.
  - case_decide as Heq; [subst|by auto].
    destruct Hni. apply list_elem_of_fmap. by exists (k, v).
Qed.
End JMap.

(** ** Automation *)

Create HintDb jsdb.
Create Rewrite HintDb jsdb.
#[export] Hint Rewrite @mget_mset_eq : jsdb.
#[export] Hint Resolve @mset_NoDup : jsdb.

(** Turns the boolean tests of the model into propositions. *)
Ltac js_bool :=
  repeat match goal with
  | H : context [jseq _ _] |- _ => unfold jseq in H
  | |- context [jseq _ _] => unfold jseq
  | H : bool_decide _ = true |- _ => apply bool_decide_eq_true in H
  | H : bool_decide _ = false |- _ => apply bool_decide_eq_false in H
  | H : (_ && _) = true |- _ => apply andb_true_iff in H; destruct H
  | H : (_ || _) = false |- _ => apply orb_false_iff in H; destruct H
  | H : negb _ = true |- _ => apply negb_true_iff in H
  | H : negb _ = false |- _ => apply negb_false_iff in H
  | H : (_ =? _) = true |- _ => apply Z.eqb_eq in H
  | H : (_ =? _) = false |- _ => apply Z.eqb_neq in H
  | H : (_ <? _) = true |- _ => apply Z.ltb_lt in H
  | H : (_ <? _) = false |- _ => apply Z.ltb_ge in H
  | H : (_ <=? _) = true |- _ => apply Z.leb_le in H
  | H : (_ <=? _) = false |- _ => apply Z.leb_gt in H
  end.

(** Splits every conditional of the goal, keeping the tests as hypotheses. *)
Ltac js_case :=
  repeat match goal with
  | |- context [if ?b then _ else _] => destruct b eqn:?
  end.

(** Splits the outermost conditional of the goal, naming the test. *)
Ltac js_if E :=
  match goal with |- context [if ?b then _ else _] => destruct b eqn:E end.

(** Destructs the scrutinee of the first conditional of a hypothesis. *)
Ltac js_case_in H :=
  repeat match type of H with
  | context [if ?b then _ else _] => destruct b eqn:?
  end.

Ltac js_solve := js_bool; simplify_eq/=; try done; try lia.

(** Decides a closed [bytes] fact. *)
Ltac bytes_solve :=
  unfold bytes; apply (bool_decide_unpack _); vm_compute; exact I.

(** ** Lemmas on strings *)

Lemma jseq_true s t : (s ==s t) = true ↔ s = t.
Proof. apply bool_decide_eq_true. Qed.

Lemma jseq_refl s : (s ==s s) = true.
Proof. by apply jseq_true. Qed.

Lemma jseq_false s t : (s ==s t) = false ↔ s ≠ t.
Proof. apply bool_decide_eq_false. Qed.

#[export] Hint Rewrite jseq_refl : jsdb.

Lemma startsWith_true s p : startsWith s p = true ↔ ∃ r, s = p ++ r.
Proof. unfold startsWith. by rewrite bool_decide_eq_true. Qed.

Lemma endsWith_true s p : endsWith s p = true ↔ ∃ r, s = r ++ p.
Proof. unfold endsWith. by rewrite bool_decide_eq_true. Qed.

Lemma startsWith_app p s : startsWith (p ++ s) p = true.
Proof. apply startsWith_true. eauto. Qed.

Lemma endsWith_app p s : endsWith (s ++ p) p = true.
Proof. apply endsWith_true. eauto. Qed.

Lemma slen_app s t : slen (s ++ t) = slen s + slen t.
Proof. unfold slen. rewrite length_app. lia. Qed.

Lemma slice_nonneg s (i j : Z) :
  0 <= i → 0 <= j → slice s i j = take (Z.to_nat (j - i)) (drop (Z.to_nat i) s).
Proof.
  intros Hi Hj. unfold slice, slen.
  destruct (Z.ltb_spec i 0), (Z.ltb_spec j 0); try lia.
  destruct (decide (i <= Z.of_nat (length s))).
  - rewrite (Z.min_l i) by lia. destruct (decide (j <= Z.of_nat (length s))).
    + by rewrite Z.min_l by lia.
    + rewrite Z.min_r by lia. rewrite !take_ge; [done|rewrite length_drop; lia..].
  - rewrite (Z.min_r i) by lia. rewrite !drop_ge by lia. by rewrite !take_nil.
Qed.

Lemma slice_from_drop s (n : nat) : slice_from s (Z.of_nat n) = drop n s.
Proof.
  unfold slice_from, slen. rewrite slice_nonneg, Nat2Z.id by lia.
  apply take_ge. rewrite length_drop. lia.
Qed.

Lemma slice_0_take s (n : nat) : slice s 0 (Z.of_nat n) = take n s.
Proof. rewrite slice_nonneg by lia. rewrite drop_0. f_equal. lia. Qed.

(** [s.slice(0, -n)] drops the last [n] characters. *)
Lemma slice_0_neg s t (n : nat) :
  length t = n → (0 < n)%nat → slice (s ++ t) 0 (- Z.of_nat n) = s.
Proof.
  intros <- Hn. unfold slice, slen. rewrite length_app.
  destruct (Z.ltb_spec 0 0), (Z.ltb_spec (- Z.of_nat (length t)) 0); try lia.
  rewrite Z.min_l, drop_0 by lia.
  replace (Z.to_nat _) with (length s) by lia. apply take_app_length.
Qed.

Lemma substring_nonneg s i j :
  0 <= i <= j →
  substring s i j = take (Z.to_nat (j - i)) (drop (Z.to_nat i) s).
Proof.
  intros [Hi Hj]. unfold substring, slen.
  destruct (Z.le_gt_cases i (Z.of_nat (length s))) as [Hl|Hl].
  - replace (Z.min _ (Z.max 0 (Z.min j _))) with i by lia.
    destruct (Z.le_gt_cases j (Z.of_nat (length s))) as [Hl2|Hl2].
    + by replace (Z.max _ _) with j by lia.
    + rewrite !take_ge; [done|rewrite length_drop; lia..].
  - rewrite !drop_ge by lia. by rewrite !take_nil.
Qed.

Lemma substring_full s : substring s 0 (slen s) = s.
Proof.
  unfold slen. rewrite substring_nonneg by lia. rewrite drop_0.
  apply take_ge. lia.
Qed.

Lemma find_sub_prefix p s : find_sub p (p ++ s) = Some 0%nat.
Proof.
  destruct (p ++ s) eqn:E; simpl; rewrite bool_decide_eq_true_2; try done.
  - rewrite <- E. by exists s.
  - rewrite <- E. by exists s.
Qed.

Lemma find_sub_Some p s n :
  find_sub p s = Some n →
  ∃ a b, s = a ++ p ++ b ∧ length a = n.
Proof.
  revert n. induction s as [|c s IH]; intros n; simpl; case_bool_decide as Hp.
  - intros [= <-]. destruct Hp as [b Hb]. by exists [], b.
  - done.
  - intros [= <-]. destruct Hp as [b Hb]. by exists [], b.
  - destruct (find_sub p s) as [m|] eqn:E; simpl; [|done].
    intros [= <-]. destruct (IH m eq_refl) as (a & b & -> & <-).
    by exists (c :: a), b.
Qed.

Lemma find_sub_None p s : find_sub p s = None ↔ ∀ a b, s ≠ a ++ p ++ b.
Proof.
  split.
  - induction s as [|c s IH]; simpl; case_bool_decide as Hp; try done.
    + intros _ a b Hs. destruct Hp. destruct a; simplify_eq/=. eauto.
      by exists b.
    + destruct (find_sub p s) eqn:E; simpl; [done|]. intros _ a b Hs.
      destruct a as [|x a]; simplify_eq/=.
      * destruct Hp. rewrite Hs. by exists b.
      * by apply (IH eq_refl a b).
  - intros H. destruct (find_sub p s) as [n|] eqn:E; [|done].
    apply find_sub_Some in E as (a & b & -> & _). by destruct (H a b).
Qed.

(** ** Lines ended by CRLF *)

(** A line as the protocols see it: no CRLF inside (lone CRs or LFs may occur). *)
Definition crlf_free (l : jsstr) : Prop := find_sub CRLF l = None.

Lemma crlf_free_cons c l :
  crlf_free (c :: l) → crlf_free l ∧ ¬ CRLF `prefix_of` c :: l.
Proof.
  unfold crlf_free. simpl. case_bool_decide; [done|].
  by destruct (find_sub CRLF l).
Qed.

Lemma find_CRLF l r :
  crlf_free l → find_sub CRLF (l ++ CRLF ++ r) = Some (length l).
Proof.
  induction l as [|c l IH]; intros Hl; [by apply (find_sub_prefix CRLF r)|].
  apply crlf_free_cons in Hl as [Hl Hp]. specialize (IH Hl).
  change ((c :: l) ++ CRLF ++ r) with (c :: (l ++ CRLF ++ r)).
  cbn [find_sub length]. rewrite IH, bool_decide_eq_false_2; [done|].
  intros [k Hk]. apply Hp. destruct l as [|x l]; simplify_eq/=.
  by exists l.
Qed.

Lemma crlf_free_app_inv l r : crlf_free (l ++ r) → crlf_free l ∧ crlf_free r.
Proof.
  unfold crlf_free. rewrite !find_sub_None. intros H. split.
  - intros a b ->. apply (H a (b ++ r)). by rewrite <- !(assoc_L (++)).
  - intros a b ->. apply (H (l ++ a) b). by rewrite <- !(assoc_L (++)).
Qed.

Lemma no_CR_crlf_free l : CR ∉ l → crlf_free l.
Proof.
  intros Hl. apply find_sub_None. intros a b ->. apply Hl. apply elem_of_app. right.
  apply elem_of_app. left. by left.
Qed.

(** The text made of some lines, each ended by CRLF. *)
Definition body (lines : list jsstr) : jsstr :=
  concat (map (λ l, l ++ CRLF) lines).

Lemma body_app ls ls' : body (ls ++ ls') = body ls ++ body ls'.
Proof. unfold body. by rewrite map_app, concat_app. Qed.

Lemma body_snoc ls l : body (ls ++ [l]) = body ls ++ l ++ CRLF.
Proof. rewrite body_app. f_equal. unfold body. simpl. by rewrite app_nil_r. Qed.

(** A text split after its first CRLF in two ways is split the same way, or
    the later split point lies beyond the first line. *)
Lemma crlf_split l r x y :
  crlf_free l → l ++ CRLF ++ r = x ++ CRLF ++ y →
  (x = l ∧ y = r) ∨ (∃ x', x = l ++ CRLF ++ x' ∧ r = x' ++ CRLF ++ y).
Proof.
  revert x. induction l as [|c l IH]; intros x Hl Heq.
  - destruct x as [|a [|b x]]; simplify_eq/=; [by left|by right; exists x].
  - apply crlf_free_cons in Hl as [Hl Hp]. destruct x as [|a x]; simplify_eq/=.
    + destruct Hp. destruct l; simplify_eq/=. by exists l.
    + destruct (IH x Hl) as [[-> ->]|(x' & -> & ->)]; [done|by left|].
      right. by exists x'.
Qed.

(** ** Lemmas on split, join and decimal notation *)

Lemma split_on_not_nil sep s : split_on sep s ≠ [].
Proof.
  destruct s as [|c s]; simpl; [done|].
  destruct (c =? sep); [done|]. by destruct (split_on sep s).
Qed.

Lemma split_on_none sep w : sep ∉ w → split_on sep w = [w].
Proof.
  induction w as [|c w IH]; simpl; [done|].
  rewrite not_elem_of_cons. intros [Hc Hw].
  destruct (Z.eqb_spec c sep); [by subst|]. by rewrite IH.
Qed.

Lemma split_on_app sep w s :
  sep ∉ w → split_on sep (w ++ sep :: s) = w :: split_on sep s.
Proof.
  induction w as [|c w IH]; simpl.
  - by rewrite Z.eqb_refl.
  - rewrite not_elem_of_cons. intros [Hc Hw].
    destruct (Z.eqb_spec c sep); [by subst|]. by rewrite IH.
Qed.

Lemma split_join sep ws :
  ws ≠ [] → Forall (λ w, sep ∉ w) ws → split_on sep (join [sep] ws) = ws.
Proof.
  induction ws as [|w ws IH]; [done|]. intros _ [Hw Hws]%Forall_cons.
  destruct ws as [|w' ws]; simpl; [by apply split_on_none|].
  rewrite split_on_app by done. f_equal. by apply IH.
Qed.

Lemma digits_val_snoc ds c : digits_val (ds ++ [c]) = 10 * digits_val ds + (c - 48).
Proof. unfold digits_val. by rewrite fold_left_app. Qed.

Lemma nat_dec_step f n acc :
  nat_dec_fuel (S f) n acc =
  if n / 10 =? 0 then (48 + n mod 10) :: acc
  else nat_dec_fuel f (n / 10) ((48 + n mod 10) :: acc).
Proof. done. Qed.

Lemma nat_dec_fuel_spec f n acc :
  0 <= n < 2 ^ Z.of_nat (S f) →
  ∃ ds, nat_dec_fuel (S f) n acc = ds ++ acc ∧ ds ≠ [] ∧
        Forall (λ c, is_digit c = true) ds ∧ digits_val ds = n.
Proof.
  revert n acc. induction f as [|f IH]; intros n acc Hn.
  all: assert (Hd : is_digit (48 + n mod 10) = true)
    by (unfold is_digit; apply andb_true_iff; pose proof (Z.mod_pos_bound n 10); lia).
  all: pose proof (Z.div_mod n 10 ltac:(lia)) as Hdm.
  all: rewrite nat_dec_step; destruct (Z.eqb_spec (n / 10) 0) as [E|E].
  - exists [48 + n mod 10]. repeat split; [done|by repeat constructor|].
    unfold digits_val. simpl. lia.
  - change (2 ^ Z.of_nat 1) with 2 in Hn. rewrite Z.div_small in E; lia.
  - exists [48 + n mod 10]. repeat split; [done|by repeat constructor|].
    unfold digits_val. simpl. lia.
  - rewrite Nat2Z.inj_succ, Z.pow_succ_r in Hn by lia.
    destruct (IH (n / 10) ((48 + n mod 10) :: acc)) as (ds & -> & Hne & Hds & Hv).
    { split; [apply Z.div_pos; lia|]. apply Z.div_lt_upper_bound; lia. }
    exists (ds ++ [48 + n mod 10]). rewrite <- (assoc_L (++)). repeat split.
    + by destruct ds.
    + apply Forall_app. split; [done|by repeat constructor].
    + rewrite digits_val_snoc, Hv. lia.
Qed.

Lemma num_str_spec n :
  0 <= n →
  num_str n ≠ [] ∧ Forall (λ c, is_digit c = true) (num_str n) ∧ digits_val (num_str n) = n.
Proof.
  intros Hn. unfold num_str. destruct (Z.ltb_spec n 0); [lia|].
  destruct (nat_dec_fuel_spec (Z.to_nat (Z.log2 n)) n []) as (ds & -> & H1 & H2 & H3).
  { split; [done|]. rewrite Nat2Z.inj_succ, Z2Nat.id by apply Z.log2_nonneg.
    destruct (Z.eq_dec n 0) as [->|]; [done|]. apply Z.log2_spec. lia. }
  by rewrite app_nil_r.
Qed.

Lemma digit_range c : is_digit c = true ↔ 48 <= c <= 57.
Proof. unfold is_digit. rewrite andb_true_iff. lia. Qed.

Lemma digit_not_space c : is_digit c = true → is_space c = false.
Proof.
  rewrite digit_range. intros Hc. unfold is_space.
  repeat (apply orb_false_iff; split); try apply andb_false_iff; lia.
Qed.

Lemma trimStart_id s : Forall (λ c, is_space c = false) s → trimStart s = s.
Proof. destruct 1 as [|c s Hc _]; simpl; [done|]. by rewrite Hc. Qed.

Lemma trim_id s : Forall (λ c, is_space c = false) s → trim s = s.
Proof.
  intros H. unfold trim, trimEnd. rewrite (trimStart_id s) by done.
  rewrite trimStart_id by (by apply Forall_rev). apply rev_involutive.
Qed.

Lemma toNumber_digits ds :
  ds ≠ [] → Forall (λ c, is_digit c = true) ds → toNumber ds = Some (digits_val ds).
Proof.
  intros Hne Hd. unfold toNumber.
  rewrite trim_id by (eapply Forall_impl; [done|apply digit_not_space]).
  destruct ds as [|c ds]; [done|]. apply Forall_cons_1 in Hd as Hc.
  unfold sign_of. pose proof (proj1 (digit_range c) (proj1 Hc)).
  destruct (Z.eqb_spec c 45), (Z.eqb_spec c 43); try lia.
  rewrite (proj2 (forallb_forall _ _)).
  - f_equal. lia.
  - intros x Hx. apply list_elem_of_In in Hx. by eapply Forall_forall in Hd.
Qed.

Lemma toNumber_num_str n : 0 <= n → toNumber (num_str n) = Some n.
Proof.
  intros Hn. destruct (num_str_spec n Hn) as (H1 & H2 & H3).
  rewrite toNumber_digits; congruence.
Qed.

Lemma num_str_not_elem n c : 0 <= n → is_digit c = false → c ∉ num_str n.
Proof.
  intros Hn Hc Hin. destruct (num_str_spec n Hn) as (_ & H2 & _).
  rewrite Forall_forall in H2. apply H2 in Hin. congruence.
Qed.

(** How undefined prints. *)
Definition undefined_str : jsstr := js "undefined".

(** ** Lines

    What [.*] matches in a regex: up to a line terminator. *)
Fixpoint until_eol (s : jsstr) : jsstr :=
  match s with
  | [] => []
  | c :: s' =>
      if (c =? LF) || (c =? CR) || (c =? 8232) || (c =? 8233) then [] else c :: until_eol s'
  end.

(** A text within a line. *)
Definition one_line (s : jsstr) : Prop := Forall (λ c, c ∉ [LF; CR; 8232; 8233]) s.

#[export] Instance one_line_dec s : Decision (one_line s).
Proof. unfold one_line. apply _. Defined.

(** Decides [one_line] of a given text. *)
Ltac decide_line := apply (bool_decide_unpack (one_line _)); vm_compute; exact Logic.I.

Lemma until_eol_line s t : one_line s → until_eol (s ++ CRLF ++ t) = s.
Proof.
  induction 1 as [|c s Hc _ IH]; [done|]. cbn [until_eol app].
  assert (((c =? LF) || (c =? CR) || (c =? 8232) || (c =? 8233)) = false) as ->.
  { rewrite !elem_of_cons in Hc. rewrite !orb_false_iff, !Z.eqb_neq. tauto. }
  by rewrite IH.
Qed.

(** ** Possibly-[NaN] numbers: comparisons with [NaN] are false *)

Abbreviation num := (option Z).

Definition nlt (a b : num) : bool :=
  match a, b with Some x, Some y => x <? y | _, _ => false end.
Definition nle (a b : num) : bool :=
  match a, b with Some x, Some y => x <=? y | _, _ => false end.
Definition neq (a b : num) : bool :=
  match a, b with Some x, Some y => x =? y | _, _ => false end.
Definition nadd (a b : num) : num :=
  match a, b with Some x, Some y => Some (x + y) | _, _ => None end.
Definition nsub (a b : num) : num :=
  match a, b with Some x, Some y => Some (x - y) | _, _ => None end.
Definition nmax (a b : num) : num :=
  match a, b with Some x, Some y => Some (Z.max x y) | _, _ => None end.
Definition nstr (a : num) : jsstr :=
  match a with Some x => num_str x | None => js "NaN" end.
