(* ===== verification/Effects.v ===== *)
(** * Effects: stateful code that talks to its environment and may throw

    The clients of the mail protocols are objects whose methods change fields,
    call the outside (sockets, timers, callbacks of the caller) and may throw.
    [eff S E X] is a method of an object of state [S]: it returns the new state,
    the calls it made to the outside, in order, as a list of events [E], and its
    result, or [None] when it throws.  The state and the events up to the throw
    are kept, as they are in the program.

    The second part gives updates of a record field, [r <| f := v |>]. *)

From S2P Require Import Prelude.

(** ** The monad *)

Definition eff (S E X : Type) : Type := S → S * list E * option X.

Section Eff.
Context {S E : Type}.

Definition ret {X} (x : X) : eff S E X := λ s, (s, [], Some x).

Definition bind {X Y} (m : eff S E X) (k : X → eff S E Y) : eff S E Y := λ s,
  let '(s1, o1, r) := m s in
  match r with
  | Some x => let '(s2, o2, r2) := k x s1 in (s2, o1 ++ o2, r2)
  | None => (s1, o1, None)
  end.

Definition throw {X} : eff S E X := λ s, (s, [], None).

Definition gets {X} (f : S → X) : eff S E X := λ s, (s, [], Some (f s)).

Definition modify (f : S → S) : eff S E unit := λ s, (f s, [], Some tt).

Definition emit (e : E) : eff S E unit := λ s, (s, [e], Some tt).

Definition skip : eff S E unit := ret tt.

Definition when (b : bool) (m : eff S E unit) : eff S E unit := if b then m else skip.

(** [try { m } catch { h }]. *)
Definition catch {X} (m h : eff S E X) : eff S E X := λ s,
  match m s with
  | (s1, o1, Some x) => (s1, o1, Some x)
  | (s1, o1, None) => let '(s2, o2, r) := h s1 in (s2, o1 ++ o2, r)
  end.

(** The call of an async method whose promise is not looked at: what it throws
    is a rejection, and the caller goes on. *)
Definition async (m : eff S E unit) : eff S E unit := catch m skip.

(** A loop over a list; a throw ends it. *)
Fixpoint for_each {X} (l : list X) (f : X → eff S E unit) : eff S E unit :=
  match l with
  | [] => skip
  | x :: l' => bind (f x) (λ _, for_each l' f)
  end.

(** ** Laws *)

Lemma bind_ret_l {X Y} (x : X) (k : X → eff S E Y) s : bind (ret x) k s = k x s.
Proof. unfold bind, ret. by destruct (k x s) as [[? ?] ?]. Qed.

Lemma bind_ret_r {X} (m : eff S E X) s : bind m ret s = m s.
Proof.
  unfold bind, ret. destruct (m s) as [[s1 o1] [x|]]; [|done]. by rewrite app_nil_r.
Qed.

Lemma bind_assoc {X Y Z} (m : eff S E X) (k : X → eff S E Y) (h : Y → eff S E Z) s :
  bind (bind m k) h s = bind m (λ x, bind (k x) h) s.
Proof.
  unfold bind. destruct (m s) as [[s1 o1] [x|]]; [|done].
  destruct (k x s1) as [[s2 o2] [y|]]; [|done].
  destruct (h y s2) as [[s3 o3] r]. by rewrite (assoc_L (++)).
Qed.

Lemma bind_ext {X Y} (m : eff S E X) (k k' : X → eff S E Y) s :
  (∀ x s', k x s' = k' x s') → bind m k s = bind m k' s.
Proof.
  intros H. unfold bind. destruct (m s) as [[s1 o1] [x|]]; [|done]. by rewrite H.
Qed.

Lemma bind_ext_l {X Y} (m m' : eff S E X) (k : X → eff S E Y) s :
  m s = m' s → bind m k s = bind m' k s.
Proof. unfold bind. by intros ->. Qed.

Lemma for_each_app {X} (l l' : list X) (f : X → eff S E unit) s :
  for_each (l ++ l') f s = bind (for_each l f) (λ _, for_each l' f) s.
Proof.
  revert s. induction l as [|x l IH]; intros s; simpl; [symmetry; apply (bind_ret_l tt)|].
  rewrite bind_assoc. apply bind_ext. intros _ s'. apply IH.
Qed.

Lemma modify_run f s : modify f s = (f s, [], Some tt).
Proof. done. Qed.

(** ** Pre- and postconditions

    [triple P m Q] says that from a state satisfying [P] the method ends, by
    returning or throwing, in a state and with events satisfying [Q]. *)
Definition triple {X} (P : S → Prop) (m : eff S E X) (Q : S → list E → Prop) : Prop :=
  ∀ s, P s → let '(s', o, _) := m s in Q s' o.

(** An invariant on the state and a property of every event: [P] holds after
    [m] if before, and each event satisfies [A]. *)
Definition safe_from {X} (P : S → Prop) (A : E → Prop) (m : eff S E X) : Prop :=
  triple P m (λ s o, P s ∧ Forall A o).

Lemma safe_ret {X} P A (x : X) : safe_from P A (ret x).
Proof. by intros s Hs. Qed.

Lemma safe_throw {X} P A : safe_from P A (throw : eff S E X).
Proof. by intros s Hs. Qed.

Lemma safe_gets {X} P A (f : S → X) : safe_from P A (gets f).
Proof. by intros s Hs. Qed.

Lemma safe_skip P A : safe_from P A skip.
Proof. by intros s Hs. Qed.

Lemma safe_emit P (A : E → Prop) e : A e → safe_from P A (emit e).
Proof. intros He s Hs. simpl. by repeat constructor. Qed.

Lemma safe_modify (P : S → Prop) A f : (∀ s, P s → P (f s)) → safe_from P A (modify f).
Proof. intros Hf s Hs. simpl. auto. Qed.

Lemma safe_bind {X Y} P A (m : eff S E X) (k : X → eff S E Y) :
  safe_from P A m → (∀ x, safe_from P A (k x)) → safe_from P A (bind m k).
Proof.
  intros Hm Hk s Hs. specialize (Hm s Hs). unfold bind.
  destruct (m s) as [[s1 o1] [x|]]; [|done]. destruct Hm as [H1 H2].
  specialize (Hk x s1 H1). destruct (k x s1) as [[s2 o2] r]. destruct Hk as [H3 H4].
  split; [done|]. by apply Forall_app.
Qed.

(** After reading the state, its invariant is known of the value read. *)
Lemma safe_bind_gets {X Y} P A (f : S → X) (k : X → eff S E Y) :
  (∀ s, P s → let '(s', o, _) := k (f s) s in P s' ∧ Forall A o) →
  safe_from P A (bind (gets f) k).
Proof.
  intros Hk s Hs. unfold bind, gets. specialize (Hk s Hs).
  by destruct (k (f s) s) as [[s' o] r].
Qed.

Lemma safe_when P A b m : (b = true → safe_from P A m) → safe_from P A (when b m).
Proof. destruct b; simpl; [by intros H; apply H|]. intros _. apply safe_skip. Qed.

Lemma safe_catch {X} P A (m h : eff S E X) :
  safe_from P A m → safe_from P A h → safe_from P A (catch m h).
Proof.
  intros Hm Hh s Hs. specialize (Hm s Hs). unfold catch.
  destruct (m s) as [[s1 o1] [x|]]; [done|]. destruct Hm as [H1 H2].
  specialize (Hh s1 H1). destruct (h s1) as [[s2 o2] r]. destruct Hh as [H3 H4].
  split; [done|]. by apply Forall_app.
Qed.

Lemma safe_async P A m : safe_from P A m → safe_from P A (async m).
Proof. intros H. apply safe_catch; [done|apply safe_skip]. Qed.

Lemma safe_for_each {X} P A (l : list X) f :
  (∀ x, x ∈ l → safe_from P A (f x)) → safe_from P A (for_each l f).
Proof.
  induction l as [|x l IH]; intros H; simpl; [apply safe_skip|].
  apply safe_bind; [apply H; left|]. intros _. apply IH. intros y Hy. apply H. by right.
Qed.
End Eff.

Create HintDb effdb.
#[export] Hint Resolve safe_ret safe_throw safe_gets safe_skip safe_emit safe_modify
  safe_when safe_catch safe_async : effdb.

Declare Scope eff_scope.
Delimit Scope eff_scope with eff.
Notation "'let!' x := m 'in' k" := (bind m (λ x, k))
  (at level 10, x name, m at level 200, k at level 200) : eff_scope.
Notation "m >> k" := (bind m (λ _, k)) (at level 60, right associativity) : eff_scope.
Open Scope eff_scope.

(** Evaluates the monad's operations on a known state. *)
Ltac eff_run :=
  unfold bind, ret, throw, gets, modify, emit, skip, when, catch, async; cbn.

(** ** Updates of a record field *)

(** [eta r] rebuilds [r] from its fields. *)
Class Settable (R : Type) := eta : R → R.

Class Setter {R T : Type} (proj : R → T) := update : (T → T) → R → R.

Ltac build_setter :=
  lazymatch goal with
  | |- @Setter ?R ?T ?proj =>
      let f := fresh "f" in let r := fresh "r" in
      change ((T → T) → R → R); intros f r;
      let b := eval hnf in (eta r) in
      let p := eval pattern (proj r) in b in
      lazymatch p with
      | ?h _ => let t := eval cbv beta in (h (f (proj r))) in exact t
      end
  end.

#[export] Hint Extern 1 (Setter _) => build_setter : typeclass_instances.

Notation "r <| f := v |>" := (update (proj := f) (λ _, v) r)
  (at level 1, f at level 9, left associativity, format "r  <| f  :=  v |>").
Notation "r <| f ::= g |>" := (update (proj := f) g r)
  (at level 1, f at level 9, left associativity).

(** Assigns a field of the state. *)
Notation "'this,' f ':=' v" := (modify (λ s, s <| f := v |>)) (at level 55, f at level 9).
Notation "'this,' f '::=' g" := (modify (λ s, s <| f ::= g |>)) (at level 55, f at level 9).

Lemma bind_modify {S E X} (f : S → S) (k : unit → eff S E X) s : bind (modify f) k s = k tt (f s).
Proof. unfold bind, modify. by destruct (k tt (f s)) as [[? ?] ?]. Qed.

Lemma bind_gets {S E X Y} (f : S → X) (k : X → eff S E Y) s : bind (gets f) k s = k (f s) s.
Proof. unfold bind, gets. by destruct (k (f s) s) as [[? ?] ?]. Qed.

Lemma emit_run {S E} (e : E) (s : S) : emit e s = (s, [e], Some tt).
Proof. done. Qed.

Lemma bind_emit {S E X} e (k : unit → eff S E X) s :
  bind (emit e) k s = let '(s', o, r) := k tt s in (s', e :: o, r).
Proof. done. Qed.

(** A method whose start and end satisfy different invariants. *)
Definition safe_to {S E X} (P : S → Prop) (A : E → Prop) (Q : S → Prop) (m : eff S E X) : Prop :=
  triple P m (λ s o, Q s ∧ Forall A o).

Lemma safe_to_weaken {S E X} (P P' Q Q' : S → Prop) A (m : eff S E X) :
  (∀ s, P' s → P s) → (∀ s, Q s → Q' s) → safe_to P A Q m → safe_to P' A Q' m.
Proof.
  intros HP HQ Hm s Hs. specialize (Hm s (HP s Hs)). destruct (m s) as [[s1 o1] r].
  destruct Hm; auto.
Qed.

Lemma safe_to_bind {S E X Y} (P R Q : S → Prop) A (m : eff S E X) (k : X → eff S E Y) :
  safe_to P A R m → (∀ s, R s → Q s) → (∀ x, safe_to R A Q (k x)) → safe_to P A Q (bind m k).
Proof.
  intros Hm HR Hk s Hs. specialize (Hm s Hs). unfold bind.
  destruct (m s) as [[s1 o1] [x|]]; [|destruct Hm; auto]. destruct Hm as [H1 H2].
  specialize (Hk x s1 H1). destruct (k x s1) as [[s2 o2] r]. destruct Hk as [H3 H4].
  split; [done|]. by apply Forall_app.
Qed.

Lemma safe_to_bind_gets {S E X Y} (P Q : S → Prop) A (f : S → X) (k : X → eff S E Y) :
  (∀ s0, P s0 → safe_to (λ s, P s ∧ s = s0) A Q (k (f s0))) → safe_to P A Q (bind (gets f) k).
Proof.
  intros Hk s Hs. rewrite bind_gets. exact (Hk s Hs s (conj Hs eq_refl)).
Qed.

Lemma safe_to_bind_modify {S E Y} (P R Q : S → Prop) A (f : S → S) (k : unit → eff S E Y) :
  (∀ s, P s → R (f s)) → safe_to R A Q (k tt) → safe_to P A Q (bind (modify f) k).
Proof. intros Hf Hk s Hs. rewrite bind_modify. exact (Hk (f s) (Hf s Hs)). Qed.

Lemma safe_to_from {S E X} (P : S → Prop) A (m : eff S E X) : safe_from P A m → safe_to P A P m.
Proof. done. Qed.

(** A method's invariant by cases on a property of the start. *)
Lemma safe_to_case {S E X} (P Q D : S → Prop) A (m : eff S E X) `{∀ s, Decision (D s)} :
  safe_to (λ s, P s ∧ D s) A Q m → safe_to (λ s, P s ∧ ¬ D s) A Q m → safe_to P A Q m.
Proof. intros H1 H2 s Hs. destruct (decide (D s)); [apply H1|apply H2]; done. Qed.

(** Proves [safe_from] of a method by its structure, with the lemmas [tac]
    applies to the calls it makes. *)
Ltac safe_walk tac :=
  repeat first
    [ progress intros
    | tac
    | apply safe_bind | apply safe_when | apply safe_async | apply safe_catch
    | apply safe_ret | apply safe_throw | apply safe_gets | apply safe_skip
    | apply safe_for_each
    | apply safe_emit; exact Logic.I
    | solve [apply safe_modify; intros ? Hs; exact Hs]
    | match goal with
      | |- safe_from _ _ (if ?b then _ else _) => destruct b
      | |- safe_from _ _ (match ?x with _ => _ end) => destruct x
      | |- safe_from _ _ (let '(_, _) := ?x in _) => destruct x
      end ].

Ltac head_of t := lazymatch t with ?f _ => head_of f | _ => t end.

(** The same, which also unfolds the methods [tac] knows nothing about. *)
Ltac safe_unfold tac :=
  safe_walk ltac:(first
    [ tac
    | apply safe_bind | apply safe_when | apply safe_async | apply safe_catch
    | apply safe_ret | apply safe_throw | apply safe_gets | apply safe_skip
    | apply safe_for_each
    | apply safe_emit; exact Logic.I
    | solve [apply safe_modify; intros ? Hs; exact Hs]
    | match goal with
      | |- safe_from _ _ (if ?b then _ else _) => destruct b
      | |- safe_from _ _ (match ?x with _ => _ end) => destruct x
      | |- safe_from _ _ (let x := _ in _) => cbv zeta
      | |- safe_from _ _ ?m => let h := head_of m in unfold h
      end ]).

(** ** Relations between the start, the events and the end

    [respects R m] says that [m] leads from any state, by returning or throwing,
    to one that [R] relates it to.  For an [R] that runs compose to
    ([TraceRel]), methods respect it when their parts do. *)
Definition respects {S E X} (R : S → list E → S → Prop) (m : eff S E X) : Prop :=
  ∀ s, let '(s', o, _) := m s in R s o s'.

Class TraceRel {S E} (R : S → list E → S → Prop) : Prop := {
  trace_refl s : R s [] s;
  trace_trans s1 o1 s2 o2 s3 : R s1 o1 s2 → R s2 o2 s3 → R s1 (o1 ++ o2) s3
}.

Section Respects.
Context {S E : Type} (R : S → list E → S → Prop) `{!TraceRel R}.

Lemma respects_ret {X} (x : X) : respects R (ret x).
Proof. intros s. apply trace_refl. Qed.

Lemma respects_skip : respects R skip.
Proof. apply respects_ret. Qed.

Lemma respects_throw {X} : respects R (throw : eff S E X).
Proof. intros s. apply trace_refl. Qed.

Lemma respects_gets {X} (f : S → X) : respects R (gets f).
Proof. intros s. apply trace_refl. Qed.

Lemma respects_bind {X Y} (m : eff S E X) (k : X → eff S E Y) :
  respects R m → (∀ x, respects R (k x)) → respects R (bind m k).
Proof.
  intros Hm Hk s. specialize (Hm s). unfold bind. destruct (m s) as [[s1 o1] [x|]]; [|done].
  specialize (Hk x s1). destruct (k x s1) as [[s2 o2] r]. by eapply trace_trans.
Qed.

Lemma respects_when b m : (b = true → respects R m) → respects R (when b m).
Proof. destruct b; simpl; [by intros H; apply H|]. intros _. apply respects_skip. Qed.

Lemma respects_catch {X} (m h : eff S E X) :
  respects R m → respects R h → respects R (catch m h).
Proof.
  intros Hm Hh s. specialize (Hm s). unfold catch. destruct (m s) as [[s1 o1] [x|]]; [done|].
  specialize (Hh s1). destruct (h s1) as [[s2 o2] r]. by eapply trace_trans.
Qed.

Lemma respects_async m : respects R m → respects R (async m).
Proof. intros H. apply respects_catch; [done|apply respects_skip]. Qed.

Lemma respects_for_each {X} (l : list X) f :
  (∀ x, x ∈ l → respects R (f x)) → respects R (for_each l f).
Proof.
  induction l as [|x l IH]; intros H; simpl; [apply respects_skip|].
  apply respects_bind; [apply H; left|]. intros _. apply IH. intros y Hy. apply H. by right.
Qed.
End Respects.

(** Proves [respects] of a method by its structure; [tac] is tried first, and
    methods it knows nothing about are unfolded. *)
Ltac respects_walk tac :=
  repeat first
    [ progress intros
    | tac
    | apply respects_bind; [typeclasses eauto| |]
    | apply respects_when; [typeclasses eauto|]
    | apply respects_async; [typeclasses eauto|]
    | apply respects_catch; [typeclasses eauto| |]
    | apply respects_ret; typeclasses eauto | apply respects_throw; typeclasses eauto
    | apply respects_gets; typeclasses eauto | apply respects_skip; typeclasses eauto
    | apply respects_for_each; [typeclasses eauto|]
    | match goal with
      | |- respects _ (if ?b then _ else _) => destruct b
      | |- respects _ (match ?x with _ => _ end) => destruct x
      | |- respects _ (let x := _ in _) => cbv zeta
      | |- respects _ ?m => let h := head_of m in unfold h
      end ].
