(* ===== verification/Net.v ===== *)
(** * Net: what the mail clients share of the network and the accounts

    The enumerations of nsMsgSocketType and nsMsgAuthMethod (mailnews/base/
    public), the attributes of a TCPSocket the clients read, and the array
    operations on the lists of authentication methods. *)

From S2P Require Import Prelude.

Inductive nsMsgSocketType := plain | trySTARTTLS | alwaysSTARTTLS_ | SSL.

Inductive nsMsgAuthMethod :=
  | auth_none | auth_old | passwordCleartext | passwordEncrypted | auth_GSSAPI
  | auth_NTLM | auth_External | secure | auth_anything | auth_OAuth2.

#[export] Instance nsMsgSocketType_eq : EqDecision nsMsgSocketType.
Proof. solve_decision. Defined.
#[export] Instance nsMsgAuthMethod_eq : EqDecision nsMsgAuthMethod.
Proof. solve_decision. Defined.

Inductive readyState_t := Connecting | Open | Closing | Closed.
#[export] Instance readyState_t_eq : EqDecision readyState_t.
Proof. solve_decision. Defined.

(** The attributes of a TCPSocket. *)
Record TCPSocket := mkTCPSocket { readyState : readyState_t; ssl : bool }.

(** ** Arrays of names *)

Definition list_has (l : list jsstr) (x : jsstr) : bool := bool_decide (x ∈ l).

(** [l.indexOf(x)]. *)
Fixpoint index_of (l : list jsstr) (x : jsstr) : Z :=
  match l with
  | [] => -1
  | y :: l' => if y ==s x then 0
               else let i := index_of l' x in if i =? -1 then -1 else i + 1
  end.

Lemma index_of_elem l x : x ∈ l → 0 <= index_of l x < Z.of_nat (length l) ∧
  l !! Z.to_nat (index_of l x) = Some x.
Proof.
  induction l as [|y l IH]; intros Hx; [by apply elem_of_nil in Hx|]. cbn [index_of].
  destruct (y ==s x) eqn:E; [apply jseq_true in E as ->; split; [simpl; lia|done]|].
  apply jseq_false in E. apply elem_of_cons in Hx as [->|Hx]; [done|].
  destruct (IH Hx) as [H1 H2]. destruct (Z.eqb_spec (index_of l x) (-1)); [lia|].
  split; [simpl length; lia|].
  by replace (Z.to_nat (index_of l x + 1)) with (S (Z.to_nat (index_of l x))) by lia.
Qed.
