(* ===== verification/Auth.v ===== *)
(** * Auth: the authenticators of the mail clients

    What the SMTP and IMAP clients use of base/src/MailAuthenticator.sys.mjs, as
    an interface: the implementations ask the login manager, the user and the
    platform's security modules. *)

From S2P Require Import Prelude.

Inductive password := Password (s : jsstr) | PasswordAborted | PasswordThrew.

(** SmtpAuthenticator and ImapAuthenticator; [None] is a throw. *)
Class Authenticator (A : Type) := {
  username : A → jsstr;
  getPlainToken : A → A * option jsstr;
  getPassword : A → A * password;
  getCramMd5Token : option jsstr → jsstr → A → A * option jsstr;
  initGssapiAuth : A → A * option unit;
  initNtlmAuth : A → A * option unit;
  getNextGssapiToken : jsstr → A → A * option jsstr;
  getNextNtlmToken : jsstr → A → A * option jsstr;
  promptAuthFailed : A → A * Z;
  forgetPassword : A → A
}.

(** ** Instances, for examples *)

(** An authenticator with a fixed account; the user cancels every prompt. *)
#[export] Instance fixedAuthenticator : Authenticator unit := {|
  username := λ _, js "user";
  getPlainToken := λ a, (a, Some (js "AHVzZXIAcHc="));
  getPassword := λ a, (a, Password (js "pw"));
  getCramMd5Token := λ _ _ a, (a, Some (js "dXNlciAx"));
  initGssapiAuth := λ a, (a, Some tt);
  initNtlmAuth := λ a, (a, Some tt);
  getNextGssapiToken := λ _ a, (a, Some []);
  getNextNtlmToken := λ _ a, (a, Some []);
  promptAuthFailed := λ a, (a, 1);
  forgetPassword := λ a, a
|}.

(** One whose user retries every time. *)
#[export] Instance retryingAuthenticator : Authenticator bool := {|
  username := λ _, js "user";
  getPlainToken := λ a, (a, Some (js "AHVzZXIAcHc="));
  getPassword := λ a, (a, Password (js "pw"));
  getCramMd5Token := λ _ _ a, (a, Some (js "dXNlciAx"));
  initGssapiAuth := λ a, (a, Some tt);
  initNtlmAuth := λ a, (a, Some tt);
  getNextGssapiToken := λ _ a, (a, Some []);
  getNextNtlmToken := λ _ a, (a, Some []);
  promptAuthFailed := λ a, (a, 0);
  forgetPassword := λ a, a
|}.
