(* ===== verification/ConnectionPool.v ===== *)
(** * ConnectionPool: the connections of a server and those who wait for one

    The pools of compose/src/SmtpServer.sys.mjs and
    news/src/NntpIncomingServer.sys.mjs: [_getNextClient], [withClient], the
    onFree/onIdle callback each request gives its client, and
    [closeCachedConnections].  A wait is a promise whose resolve function is
    queued; what follows the wait runs later, in a step of its own, so requests
    and completions can come in between.  Clients, requests and promises are
    numbers.  [out] are the clients that have begun a request and have not
    reported its end: the reports of the clients are steps of the environment,
    and only those clients make one. *)

From S2P Require Import Prelude Effects.

Inductive poolEvent :=
  | Served (request client : nat)         (* the request's handler gets the client *)
  | Quit (client : nat).
#[export] Instance poolEvent_eq : EqDecision poolEvent.
Proof. solve_decision. Defined.

Record pool := mkPool {
  free : list nat;                        (* _freeConnections, _idleConnections *)
  busy : list nat;                        (* _busyConnections *)
  queue : list nat;                       (* _connectionWaitingQueue: promises *)
  waiting : list (nat * nat);             (* the promises not resolved, with their requests *)
  resumed : list nat;                     (* the requests whose promise was resolved *)
  out : list nat;
  clients : nat;                          (* how many were made *)
  promises : nat
}.
#[export] Instance eta_pool : Settable pool := λ p,
  mkPool (free p) (busy p) (queue p) (waiting p) (resumed p) (out p) (clients p) (promises p).

Definition newPool : pool := mkPool [] [] [] [] [] [] 0 0.

(** [l.filter(c => c != client)]. *)
Definition without (c : nat) (l : list nat) : list nat := filter (λ x, x ≠ c) l.

(** [l] without its first [x]. *)
Fixpoint remove_first (x : nat) (l : list nat) : list nat :=
  match l with y :: l' => if (y =? x)%nat then l' else y :: remove_first x l' | [] => [] end.

(** The preference max_cached_connections: NntpIncomingServer's getter, and
    SmtpServer's, which reads it and does not use it. *)
Definition nntp_maximumConnectionsNumber (setting : Z) : nat :=
  Z.to_nat (if 0 <? setting then setting else if setting =? 0 then 2 else 1).
Definition smtp_maximumConnectionsNumber (setting : Z) : nat := 1.

Section Pool.
(** The code reads the preference at each call; here it does not change meanwhile. *)
Variable maximumConnectionsNumber : nat.
Abbreviation act := (eff pool poolEvent).

(** [resolve] of a promise; a second call does nothing. *)
Definition resolve (t : nat) : act unit :=
  let! w := gets waiting in
  match list_find (λ x, x.1 = t) w with
  | Some (_, (_, r)) =>
      (this, waiting := filter (λ x, x.1 ≠ t) w) >> (this, resumed ::= λ l, l ++ [r])
  | None => skip
  end.

(** [this._connectionWaitingQueue.shift()?.()]. *)
Definition wake_first : act unit :=
  let! q := gets queue in
  match q with t :: q' => (this, queue := q') >> resolve t | [] => skip end.

(** [_getNextClient], for a request: up to the wait, or the client. *)
Definition _getNextClient (r : nat) : act unit :=
  let! p := gets (λ p, p) in
  match last (free p) with
  | Some c =>
      (this, free := removelast (free p)) >> (this, busy := (busy p ++ [c])) >>
      (this, out := (out p ++ [c])) >> emit (Served r c)
  | None =>
      if (length (free p) + length (busy p) <? maximumConnectionsNumber)%nat then
        (this, clients := S (clients p)) >> (this, busy := (busy p ++ [clients p])) >>
        (this, out := (out p ++ [clients p])) >> emit (Served r (clients p))
      else
        (this, promises := S (promises p)) >> (this, waiting := (waiting p ++ [(promises p, r)])) >>
        (this, queue := (queue p ++ [promises p]))
  end.

(** What follows the wait, for a request whose promise was resolved. *)
Definition resume (r : nat) : act unit :=
  (this, resumed ::= remove_first r) >> _getNextClient r.

(** ** The news server *)

Definition onIdle (c : nat) : act unit :=
  (this, out ::= without c) >> (this, busy ::= without c) >> (this, free ::= λ l, l ++ [c]) >>
  wake_first.

(** [client.quit()] of a client that is in the middle of a request reports its
    end. *)
Definition nntp_quit (c : nat) : act unit :=
  let! p := gets (λ p, p) in
  emit (Quit c) >> when (bool_decide (c ∈ out p)) (onIdle c).

Definition nntp_closeCachedConnections : act unit :=
  let! p := gets (λ p, p) in
  for_each (free p ++ busy p) nntp_quit >> (this, free := []) >> (this, busy := []).

(** ** The SMTP server *)

(** [reuse] is the client's [reuseConnection]. *)
Definition onFree (c : nat) (reuse : bool) : act unit :=
  (this, out ::= without c) >> (this, busy ::= without c) >>
  if reuse then (this, free ::= λ l, l ++ [c]) >> wake_first else emit (Quit c).

(** Here [client.quit()] only sends QUIT: the end is reported when the socket
    is closed. *)
Definition smtp_closeCachedConnections : act unit :=
  let! p := gets (λ p, p) in
  for_each (free p ++ busy p) (λ c, emit (Quit c)) >> for_each (queue p) resolve >>
  (this, free := []) >> (this, busy := []).

(** ** Steps *)

Inductive label :=
  | Request (r : nat) | Resume (r : nat) | Idle (c : nat) (reuse : bool) | CloseAll.

Definition nntp_do (l : label) : act unit :=
  match l with
  | Request r => _getNextClient r
  | Resume r => resume r
  | Idle c _ => onIdle c
  | CloseAll => nntp_closeCachedConnections
  end.

Definition smtp_do (l : label) : act unit :=
  match l with
  | Request r => _getNextClient r
  | Resume r => resume r
  | Idle c reuse => onFree c reuse
  | CloseAll => smtp_closeCachedConnections
  end.

(** When a step can come. *)
Definition enabled (l : label) (p : pool) : Prop :=
  match l with
  | Resume r => r ∈ resumed p
  | Idle c _ => c ∈ out p
  | _ => True
  end.

Inductive nntp_step : pool → list poolEvent → pool → Prop :=
  | NntpStep l p p' o x : enabled l p → nntp_do l p = (p', o, x) → nntp_step p o p'.

Inductive smtp_step : pool → list poolEvent → pool → Prop :=
  | SmtpStep l p p' o x : enabled l p → smtp_do l p = (p', o, x) → smtp_step p o p'.
End Pool.

(** ** The invariant of the news server's pool *)

Lemma without_notin c l : c ∉ l → without c l = l.
Proof.
  unfold without. induction l as [|x l IH]; intros Hc; [done|].
  rewrite not_elem_of_cons in Hc. destruct Hc as [Hx Hl].
  rewrite filter_cons_True by congruence. by rewrite IH.
Qed.

Lemma length_without c l : NoDup l → c ∈ l → S (length (without c l)) = length l.
Proof.
  unfold without. induction 1 as [|x l Hx Hl IH]; intros Hc; [by apply elem_of_nil in Hc|].
  destruct (decide (x = c)) as [->|Hn].
  - rewrite filter_cons_False by tauto. pose proof (without_notin c l Hx) as He. unfold without in He.
    by rewrite He.
  - rewrite filter_cons_True by done. simpl. rewrite IH; [done|]. set_solver.
Qed.

Lemma length_remove_first x l : x ∈ l → S (length (remove_first x l)) = length l.
Proof.
  induction l as [|y l IH]; intros Hx; [by apply elem_of_nil in Hx|]. cbn [remove_first].
  destruct (Nat.eqb_spec y x); [done|]. simpl. rewrite IH; [done|]. set_solver.
Qed.

Lemma last_removelast (l : list nat) c : last l = Some c → l = removelast l ++ [c].
Proof.
  intros Hl. destruct l as [|x l] using rev_ind; [done|]. clear IHl.
  rewrite last_snoc in Hl. injection Hl as ->. by rewrite removelast_last.
Qed.

Section Nntp.
Variable max : nat.

(** No connection is held twice, there are not too many, and exactly the busy
    ones work; [k] requests more than there are connections for may have been
    woken, as long as somebody waits. *)
Record pool_ok (k : nat) (p : pool) : Prop := mkPoolOk {
  ok_nodup : NoDup (free p ++ busy p);
  ok_fresh : Forall (λ c, (c < clients p)%nat) (free p ++ busy p);
  ok_size : (length (free p) + length (busy p) <= max)%nat;
  ok_out : out p = busy p;
  ok_queue : queue p = map fst (waiting p);
  ok_promises : NoDup (queue p) ∧ Forall (λ t, (t < promises p)%nat) (queue p);
  ok_awake : queue p ≠ [] → (max <= length (busy p) + length (resumed p) + k)%nat
}.

(** The requests that wait, or that were woken and have not gone on. *)
Definition outstanding (p : pool) : list nat := map snd (waiting p) ++ resumed p.

Lemma getNextClient_ok r p :
  pool_ok 1 p →
  ∃ p' o, _getNextClient max r p = (p', o, Some tt) ∧ pool_ok 0 p' ∧ resumed p' = resumed p ∧
    (length (queue p') + length (busy p') = S (length (queue p) + length (busy p)))%nat ∧
    ((∃ c, o = [Served r c]) ∧ outstanding p' = outstanding p ∨
     outstanding p' ≡ₚ r :: outstanding p).
Proof.
  intros [H1 H2 H3 H4 H5 [H6 H7] H8]. destruct p as [fr bu qu wa re ou cl pr].
  cbn in H1, H2, H3, H4, H5, H6, H7, H8. subst ou.
  unfold _getNextClient. rewrite bind_gets. cbn [free busy queue waiting resumed out clients promises].
  destruct (last fr) as [c|] eqn:El.
  - apply last_removelast in El. set (fr' := removelast fr) in *. clearbody fr'. subst fr.
    eexists _, _. split; [reflexivity|].
    rewrite <- (assoc_L (++)) in H1, H2. rewrite length_app in H3. cbn in H3.
    split; [constructor|]; cbn; rewrite ?length_app; cbn; try done.
    + by rewrite (comm (++) bu [c]).
    + by rewrite (comm (++) bu [c]).
    + lia.
    + intros Hq. specialize (H8 Hq). lia.
    + split_and!; [done|lia|left; by split; [eexists|]].
  - apply last_None in El. subst fr. cbn in H1, H2, H3. cbn [length Nat.add].
    destruct (Nat.ltb_spec (length bu) max) as [Hlt|Hge].
    + eexists _, _. split; [reflexivity|].
      split; [constructor|]; cbn; rewrite ?length_app; cbn; try done.
      * apply NoDup_app. split_and!; [done| |apply NoDup_singleton].
        intros c Hc ->%list_elem_of_singleton. rewrite Forall_forall in H2. specialize (H2 _ Hc). lia.
      * apply Forall_app. split; [eapply Forall_impl; [done|]; cbn; lia|repeat constructor; lia].
      * lia.
      * intros Hq. specialize (H8 Hq). lia.
      * split_and!; [done|lia|left; by split; [eexists|]].
    + eexists _, _. split; [reflexivity|].
      split; [constructor|]; cbn; rewrite ?length_app; cbn; try done.
      * by rewrite map_app, H5.
      * split.
        -- apply NoDup_app. split_and!; [done| |apply NoDup_singleton].
           intros c Hc ->%list_elem_of_singleton. rewrite Forall_forall in H7. specialize (H7 _ Hc). lia.
        -- apply Forall_app. split; [eapply Forall_impl; [done|]; cbn; lia|repeat constructor; lia].
      * intros _. lia.
      * split_and!; [done|lia|right]. unfold outstanding. cbn [waiting resumed].
        rewrite map_app. cbn [map snd]. by rewrite (comm (++) (map snd wa) [r]).
Qed.

Lemma resolve_first t r wa (p : pool) :
  waiting p = (t, r) :: wa → t ∉ map fst wa →
  resolve t p = (mkPool (free p) (busy p) (queue p) wa (resumed p ++ [r]) (out p) (clients p)
                        (promises p), [], Some tt).
Proof.
  intros Hw Ht. unfold resolve. rewrite bind_gets, Hw. cbn [list_find].
  rewrite decide_True by done. rewrite bind_modify. rewrite filter_cons_False by tauto.
  assert (filter (λ x : nat * nat, x.1 ≠ t) wa = wa) as ->.
  { clear Hw. induction wa as [|[u s] wa IH]; [done|]. cbn in Ht.
    apply not_elem_of_cons in Ht as [Hu Ht]. rewrite filter_cons_True by (cbn; congruence).
    by rewrite IH. }
  by destruct p.
Qed.

Lemma onIdle_ok k c p :
  pool_ok k p → c ∈ out p →
  ∃ p', onIdle c p = (p', [], Some tt) ∧ pool_ok k p' ∧ busy p' = without c (busy p) ∧
    outstanding p' ≡ₚ outstanding p ∧
    (length (queue p') + length (resumed p') = length (queue p) + length (resumed p))%nat.
Proof.
  intros [H1 H2 H3 H4 H5 [H6 H7] H8] Hc. destruct p as [fr bu qu wa re ou cl pr].
  cbn in H1, H2, H3, H4, H5, H6, H7, H8, Hc. subst ou.
  apply NoDup_app in H1 as (N1 & N2 & N3). pose proof (length_without c bu N3 Hc) as Hlen.
  apply Forall_app in H2 as [F1 F2].
  assert (Hok : ∀ qu' wa' re', qu' = map fst wa' → NoDup qu' → Forall (λ t, (t < pr)%nat) qu' →
    (qu' ≠ [] → qu ≠ [] ∧ length re' = S (length re)) →
    pool_ok k (mkPool (fr ++ [c]) (without c bu) qu' wa' re' (without c bu) cl pr)).
  { intros qu' wa' re' Hq Hn Hp Hl. constructor; cbn [free busy queue waiting resumed out clients promises];
      rewrite ?length_app; cbn [length].
    - rewrite <- (assoc_L (++)). apply NoDup_app. split_and!; [done| |].
      + intros x Hx [->|Hin]%elem_of_cons; [by apply (N2 c)|].
        apply (N2 x Hx). unfold without in Hin. by apply list_elem_of_filter in Hin as [_ ?].
      + apply NoDup_cons. split; [unfold without; rewrite list_elem_of_filter; tauto|].
        by apply NoDup_filter.
    - rewrite <- (assoc_L (++)). rewrite !Forall_app. rewrite Forall_forall in F1, F2.
      split_and!; [by apply Forall_forall|repeat constructor; by apply F2|].
      apply Forall_forall. unfold without. intros x [_ Hx]%list_elem_of_filter. by apply F2.
    - lia.
    - done.
    - done.
    - done.
    - intros Hne. destruct (Hl Hne) as [Hq1 Hl2]. specialize (H8 Hq1). lia. }
  unfold onIdle. rewrite !bind_modify. unfold wake_first. rewrite bind_gets.
  cbn [queue update free busy waiting resumed out clients promises].
  destruct wa as [|[t r] wa]; cbn [map fst] in H5; subst qu.
  - eexists. split; [reflexivity|]. split; [by apply Hok|]. done.
  - rewrite bind_modify. apply NoDup_cons in H6 as [Ht H6]. apply Forall_cons in H7 as [_ H7].
    rewrite (resolve_first t r wa) by done.
    eexists. split; [reflexivity|]. cbn [update free busy queue waiting resumed out clients promises].
    split; [apply Hok; try done|split; [done|split]].
    + intros _. split; [done|]. rewrite length_app. cbn. lia.
    + unfold outstanding. cbn [waiting resumed map snd]. rewrite (comm (++) re [r]).
      rewrite (assoc_L (++)), (comm (++) (map snd wa) [r]). done.
    + cbn. rewrite length_app. cbn. lia.
Qed.

Lemma remove_first_perm x l : x ∈ l → l ≡ₚ x :: remove_first x l.
Proof.
  induction l as [|y l IH]; intros Hx; [by apply elem_of_nil in Hx|]. cbn [remove_first].
  destruct (Nat.eqb_spec y x) as [->|Hn]; [done|].
  rewrite Permutation_swap, <- IH; [done|]. set_solver.
Qed.

Lemma resume_ok r p :
  pool_ok 0 p → r ∈ resumed p →
  ∃ p' o, resume max r p = (p', o, Some tt) ∧ pool_ok 0 p' ∧
    (length (resumed p') < length (resumed p))%nat ∧
    (length (queue p') + length (busy p') + length (resumed p')
     = length (queue p) + length (busy p) + length (resumed p))%nat ∧
    (∀ r', r' ∈ outstanding p → r' ∈ outstanding p' ∨ ∃ c, Served r' c ∈ o).
Proof.
  intros Hok Hr. pose proof (length_remove_first r _ Hr) as Hl.
  pose proof (remove_first_perm r _ Hr) as Hperm.
  unfold resume. rewrite bind_modify. set (p1 := p <| resumed ::= remove_first r |>).
  assert (Hok1 : pool_ok 1 p1).
  { destruct Hok as [H1 H2 H3 H4 H5 H6 H8]. constructor; try assumption. intros Hq.
    specialize (H8 Hq). change (busy p1) with (busy p).
    change (resumed p1) with (remove_first r (resumed p)). lia. }
  destruct (getNextClient_ok r p1 Hok1) as (p' & o & Hg & Hok' & H1 & H2 & H3).
  change (resumed p1) with (remove_first r (resumed p)) in H1.
  change (queue p1) with (queue p) in H2. change (busy p1) with (busy p) in H2.
  exists p', o. split_and!; [done|done|rewrite H1; lia|rewrite H1; lia|].
  assert (Ho : outstanding p ≡ₚ r :: outstanding p1).
  { unfold outstanding at 1. rewrite Hperm. change (waiting p) with (waiting p1).
    change (resumed p1) with (remove_first r (resumed p)). symmetry. apply Permutation_middle. }
  intros r'. rewrite Ho. intros [->|Hin]%elem_of_cons.
  - destruct H3 as [[[c ->] _]| ->]; [right; exists c; left|left; left].
  - destruct H3 as [[_ ->]| ->]; left; [done|by right].
Qed.

Lemma quit_loop l p :
  pool_ok 0 p → NoDup l → (∀ c, c ∈ l → c ∈ busy p) →
  ∃ p' o, for_each l nntp_quit p = (p', o, Some tt) ∧ pool_ok 0 p' ∧
    (∀ c, c ∈ busy p' ↔ c ∈ busy p ∧ c ∉ l).
Proof.
  intros Hok Hn. revert p Hok. induction Hn as [|c l Hc Hn IH]; intros p Hok Hl.
  - exists p, []. split_and!; [done|done|]. set_solver.
  - assert (Hco : c ∈ out p) by (rewrite (ok_out _ _ Hok); apply Hl; left).
    destruct (onIdle_ok 0 c p Hok Hco) as (p1 & Hr & Hok1 & Hb & _).
    assert (Hq : nntp_quit c p = (p1, [Quit c], Some tt)).
    { unfold nntp_quit. rewrite bind_gets, bind_emit, bool_decide_eq_true_2 by done. cbn [when].
      by rewrite Hr. }
    cbn [for_each]. unfold bind. rewrite Hq.
    destruct (IH p1 Hok1) as (p2 & o & Hl2 & Hok2 & Hb2).
    { intros x Hx. rewrite Hb. unfold without. apply list_elem_of_filter.
      split; [by intros ->|]. apply Hl. by right. }
    exists p2, (Quit c :: o). cbv beta iota zeta. rewrite Hl2. split_and!; [done|done|].
    intros x. rewrite Hb2, Hb. unfold without. rewrite list_elem_of_filter, not_elem_of_cons. tauto.
Qed.

Lemma quit_free l p :
  pool_ok 0 p → (∀ c, c ∈ l → c ∉ out p) → for_each l nntp_quit p = (p, map Quit l, Some tt).
Proof.
  intros Hok. induction l as [|c l IH]; intros Hl; [done|]. cbn [for_each].
  assert (Hq : nntp_quit c p = (p, [Quit c], Some tt)).
  { unfold nntp_quit. rewrite bind_gets, bind_emit, bool_decide_eq_false_2 by (apply Hl; left). done. }
  unfold bind. rewrite Hq, IH; [done|]. intros x Hx. apply Hl. by right.
Qed.

Lemma pool_close_ok p :
  pool_ok 0 p → ∃ p' o, nntp_closeCachedConnections p = (p', o, Some tt) ∧ pool_ok 0 p'.
Proof.
  intros Hok. unfold nntp_closeCachedConnections. rewrite bind_gets.
  pose proof (ok_nodup _ _ Hok) as Hn. apply NoDup_app in Hn as (N1 & N2 & N3).
  unfold bind at 1. rewrite for_each_app. unfold bind at 1. rewrite quit_free; [|done|].
  2: { intros c Hc. rewrite (ok_out _ _ Hok). by apply N2. }
  destruct (quit_loop (busy p) p Hok N3) as (p1 & o & Hr & Hok1 & Hb); [done|]. rewrite Hr.
  assert (Hb1 : busy p1 = []).
  { apply elem_of_nil_inv. intros c. rewrite Hb. tauto. }
  rewrite bind_modify, modify_run. eexists _, _. split; [reflexivity|].
  destruct Hok1 as [H1 H2 H3 H4 H5 H6 H8]. rewrite Hb1 in *.
  destruct p1 as [fr bu qu wa re ou cl pr]. cbn in Hb1, H4, H5, H6, H8. subst.
  constructor; cbn; try done; try apply NoDup_nil_2; try apply Forall_nil_2; lia.
Qed.

Lemma do_ok l p :
  pool_ok 0 p → enabled l p → ∃ p' o, nntp_do max l p = (p', o, Some tt) ∧ pool_ok 0 p'.
Proof.
  intros Hok He. destruct l as [r|r|c reuse|]; cbn [nntp_do enabled] in *.
  - destruct (getNextClient_ok r p) as (p' & o & Hr & Hok' & _); [|by exists p', o].
    destruct Hok as [H1 H2 H3 H4 H5 H6 H8]. constructor; try assumption.
    intros Hq. specialize (H8 Hq). lia.
  - destruct (resume_ok r p Hok He) as (p' & o & Hr & Hok' & _). by exists p', o.
  - destruct (onIdle_ok 0 c p Hok He) as (p' & Hr & Hok' & _). by exists p', [].
  - by apply pool_close_ok.
Qed.

Lemma new_ok : pool_ok 0 newPool.
Proof.
  constructor; cbn; try done; try apply NoDup_nil_2; try apply Forall_nil_2; try lia.
  split; [apply NoDup_nil_2|apply Forall_nil_2].
Qed.

(** The pools the server can come to, whatever is requested and closed and in
    whatever order the clients finish. *)
Definition reachable (p : pool) : Prop := rtc (λ p p', ∃ o, nntp_step max p o p') newPool p.

Lemma reachable_step l p :
  reachable p → enabled l p → reachable (nntp_do max l p).1.1.
Proof.
  intros Hr He. eapply rtc_r; [exact Hr|]. exists (nntp_do max l p).1.2.
  destruct (nntp_do max l p) as [[p' o] x] eqn:Ed. by eapply NntpStep.
Qed.

Lemma step_ok p o p' : pool_ok 0 p → nntp_step max p o p' → pool_ok 0 p'.
Proof.
  intros Hok Hs. destruct Hs as [l p p' o x He Hd].
  destruct (do_ok l p Hok He) as (p1 & o1 & Hd1 & Hok1). congruence.
Qed.

Lemma reachable_ok p : reachable p → pool_ok 0 p.
Proof.
  unfold reachable. intros Hr. pose proof new_ok as Hok. revert Hok.
  induction Hr as [p|p p1 p2 [o Hs] _ IH]; [done|]. intros Hok. apply IH. by eapply step_ok.
Qed.

(** C29. The news server never holds a connection twice or more connections than
    allowed, and never leaves one unused: while a request waits, every
    connection that is allowed either works or is kept for a request that has
    been woken. *)
Theorem pool_bounded p :
  reachable p →
  NoDup (free p ++ busy p) ∧ (length (free p ++ busy p) <= max)%nat ∧
  (waiting p ≠ [] → (max <= length (busy p) + length (resumed p))%nat).
Proof.
  intros Hr. destruct (reachable_ok p Hr) as [H1 H2 H3 H4 H5 H6 H8].
  split_and!; [done|by rewrite length_app|]. intros Hw. rewrite H5 in H8.
  destruct (waiting p); [done|]. cbn in H8. specialize (H8 ltac:(done)). lia.
Qed.

(** The steps that serve what has been requested: a woken request goes on, a
    client reports the end of its request. *)
Inductive serving : pool → list poolEvent → pool → Prop :=
  | ServingStep l p p' o x :
      (match l with Resume _ | Idle _ _ => True | _ => False end) →
      enabled l p → nntp_do max l p = (p', o, x) → serving p o p'.

Inductive servings : pool → list poolEvent → pool → Prop :=
  | ServingsNil p : servings p [] p
  | ServingsCons p o p1 o' p2 : serving p o p1 → servings p1 o' p2 → servings p (o ++ o') p2.

(** The requests not yet finished, and the ones about to go on. *)
Definition work (p : pool) : nat := length (queue p) + length (resumed p) + length (busy p).

Lemma serving_ok p o p' :
  pool_ok 0 p → serving p o p' →
  pool_ok 0 p' ∧ ((work p' < work p)%nat ∨ work p' = work p ∧ (length (resumed p') < length (resumed p))%nat) ∧
  (∀ r, r ∈ outstanding p → r ∈ outstanding p' ∨ ∃ c, Served r c ∈ o).
Proof.
  intros Hok Hs. revert Hok. destruct Hs as [l p0 p1 o1 x Hl He Hd]. intros Hok. unfold work.
  destruct l as [r|r|c reuse|]; try done; cbn [nntp_do enabled] in Hd, He.
  - destruct (resume_ok r p0 Hok He) as (p2 & o2 & Hr & Hok2 & H1 & H2 & H3).
    rewrite Hr in Hd. injection Hd as -> -> _. split_and!; [done|right; split; lia|done].
  - destruct (onIdle_ok 0 c p0 Hok He) as (p2 & Hr & Hok2 & Hb & Ho & H1).
    rewrite Hr in Hd. injection Hd as -> <- _. split; [done|split].
    + left. rewrite Hb. rewrite (ok_out _ _ Hok) in He.
      pose proof (ok_nodup _ _ Hok) as Hn. apply NoDup_app in Hn as (_ & _ & Hn).
      pose proof (length_without c _ Hn He). lia.
    + intros r Hr'. left. by rewrite Ho.
Qed.

Lemma servings_ok p o p' :
  servings p o p' → pool_ok 0 p →
  pool_ok 0 p' ∧ ∀ r, r ∈ outstanding p → r ∈ outstanding p' ∨ ∃ c, Served r c ∈ o.
Proof.
  induction 1 as [p|p o p1 o' p2 Hs _ IH]; intros Hok; [by split; [|left]|].
  destruct (serving_ok p o p1 Hok Hs) as (Hok1 & _ & H1). destruct (IH Hok1) as [Hok2 H2].
  split; [done|]. intros r Hr. destruct (H1 r Hr) as [Hr1|[c Hc]].
  - destruct (H2 r Hr1) as [?|[c Hc]]; [by left|right; exists c; apply elem_of_app; by right].
  - right. exists c. apply elem_of_app. by left.
Qed.

Lemma serving_terminates p : pool_ok 0 p → Acc (λ p' p, ∃ o, serving p o p') p.
Proof.
  remember (work p) as w eqn:Hw. revert p Hw.
  induction (lt_wf w) as [w _ IHw]. intros p Hw.
  remember (length (resumed p)) as n eqn:Hn. revert p Hw Hn.
  induction (lt_wf n) as [n _ IHn]. intros p Hw Hn Hok. constructor. intros p' [o Hs].
  destruct (serving_ok p o p' Hok Hs) as (Hok' & [Hlt|[Heq Hlt]] & _).
  - eapply (IHw (work p')); [lia|done|done].
  - eapply (IHn (length (resumed p'))); [lia|lia|done|done].
Qed.

(** C15. As long as the clients report the ends of their requests, nobody waits
    for ever: the steps that serve the requests come to an end in any order, and
    then each request that was waiting has got a client. *)
Theorem waiting_served p :
  reachable p → (0 < max)%nat →
  Acc (λ p' p, ∃ o, serving p o p') p ∧
  ∀ o p', servings p o p' → (∀ o' p'', ¬ serving p' o' p'') →
  ∀ r, r ∈ outstanding p → ∃ c, Served r c ∈ o.
Proof.
  intros Hr Hmax. pose proof (reachable_ok p Hr) as Hok. split; [by apply serving_terminates|].
  intros o p' Hs Hend r Hin. destruct (servings_ok p o p' Hs Hok) as [Hok' Hserved].
  destruct (Hserved r Hin) as [Hin'|?]; [exfalso|done].
  assert (Hno : ∀ l, match l with Resume _ | Idle _ _ => True | _ => False end → ¬ enabled l p').
  { intros l Hl He. destruct (nntp_do max l p') as [[p'' o''] x] eqn:Ed.
    by apply (Hend o'' p''), (ServingStep l p' p'' o'' x). }
  assert (Hre : resumed p' = []).
  { apply elem_of_nil_inv. intros r'. exact (Hno (Resume r') Logic.I). }
  assert (Hbu : busy p' = []).
  { rewrite <- (ok_out _ _ Hok'). apply elem_of_nil_inv. intros c. exact (Hno (Idle c true) Logic.I). }
  pose proof (ok_awake _ _ Hok') as Ha. rewrite (ok_queue _ _ Hok'), Hre, Hbu in Ha.
  unfold outstanding in Hin'. rewrite Hre, app_nil_r in Hin'.
  destruct (waiting p'); [by apply elem_of_nil in Hin'|]. specialize (Ha ltac:(done)). cbn in Ha. lia.
Qed.
End Nntp.

Lemma nntp_maximum_positive s : (0 < nntp_maximumConnectionsNumber s)%nat.
Proof.
  unfold nntp_maximumConnectionsNumber. destruct (Z.ltb_spec 0 s); [lia|].
  destruct (s =? 0); lia.
Qed.

(** ** The SMTP server's pool *)

Section Smtp.
Variable setting : Z.
Abbreviation max := (smtp_maximumConnectionsNumber setting).

Definition smtp_reachable (p : pool) : Prop := rtc (λ p p', ∃ o, smtp_step max p o p') newPool p.

Lemma smtp_reachable_step l p :
  smtp_reachable p → enabled l p → smtp_reachable (smtp_do max l p).1.1.
Proof.
  intros Hr He. eapply rtc_r; [exact Hr|]. exists (smtp_do max l p).1.2.
  destruct (smtp_do max l p) as [[p' o] x] eqn:Ed. by eapply SmtpStep.
Qed.

(** One client that works, and requests that wait. *)
Definition one_busy (rs : list nat) : pool :=
  mkPool [] [0%nat] (seq 0 (length rs)) (zip (seq 0 (length rs)) rs) [] [0%nat] 1 (length rs).

Lemma one_busy_reachable rs : smtp_reachable (one_busy rs).
Proof.
  induction rs as [|r rs IH] using rev_ind.
  - exact (smtp_reachable_step (Request 0) newPool (rtc_refl _ _) Logic.I).
  - pose proof (smtp_reachable_step (Request r) _ IH Logic.I) as Hr.
    replace (one_busy (rs ++ [r])) with (smtp_do max (Request r) (one_busy rs)).1.1; [done|].
    unfold one_busy. rewrite length_app. cbn [length]. rewrite Nat.add_1_r, seq_S, zip_with_app.
    + reflexivity.
    + by rewrite length_seq.
Qed.

(** When the last message a connection may carry was sent, the SMTP client
    is told to quit, and nobody is woken: requests that waited for the
    connection are left waiting, though no connection is in use, and nothing but
    another request or a shutdown can happen. *)
Theorem smtp_waiters_left (rs : list nat) :
  ∃ p, smtp_reachable p ∧ map snd (waiting p) = rs ∧ free p = [] ∧ busy p = [] ∧
    ∀ l, enabled l p → match l with Request _ | CloseAll => True | _ => False end.
Proof.
  exists (smtp_do max (Idle 0 false) (one_busy rs)).1.1. split_and!.
  - apply smtp_reachable_step; [by apply one_busy_reachable|]. cbn. left.
  - cbn. assert (length rs = length (seq 0 (length rs))) as Hl by (by rewrite length_seq).
    revert Hl. generalize (seq 0 (length rs)) as ts. induction rs as [|r rs IH]; intros [|t ts] Hl; try done.
    cbn. f_equal. apply IH. by injection Hl.
  - reflexivity.
  - reflexivity.
  - intros [r|r|c reuse|]; cbn; try done; intros Hin; by apply elem_of_nil in Hin.
Qed.

(** A shutdown does not cancel the requests that wait: they get new
    connections; and the connections it closes come back as free ones when their
    sockets are closed, which makes more than are allowed. *)
Lemma shutdown_keeps_waiting :
  (for_each [Request 1; Request 2; CloseAll; Resume 2] (smtp_do max) newPool).1.2
  = [Served 1 0; Quit 0; Served 2 1].
Proof. reflexivity. Qed.

Lemma shutdown_exceeds_maximum :
  ∃ p, smtp_reachable p ∧ (max < length (free p) + length (busy p))%nat.
Proof.
  exists (mkPool [0%nat] [1%nat] [] [] [] [1%nat] 2 0). split; [|vm_compute; repeat constructor].
  assert (H1 : smtp_reachable (mkPool [] [0%nat] [] [] [] [0%nat] 1 0))
    by exact (smtp_reachable_step (Request 1) newPool (rtc_refl _ _) Logic.I).
  assert (H2 : smtp_reachable (mkPool [] [] [] [] [] [0%nat] 1 0))
    by exact (smtp_reachable_step CloseAll _ H1 Logic.I).
  assert (H3 : smtp_reachable (mkPool [] [1%nat] [] [] [] [0%nat; 1%nat] 2 0))
    by exact (smtp_reachable_step (Request 2) _ H2 Logic.I).
  refine (smtp_reachable_step (Idle 0 true) _ H3 _). cbn. left.
Qed.
End Smtp.

(** ** Witnesses *)

(** Two connections, both in use, and one request that waits. *)
Definition fullPool : pool :=
  mkPool [] [0%nat; 1%nat] [0%nat] [(0%nat, 3%nat)] [] [0%nat; 1%nat] 2 1.

Lemma fullPool_reachable : reachable (nntp_maximumConnectionsNumber 0) fullPool.
Proof.
  assert (H1 : reachable (nntp_maximumConnectionsNumber 0) (mkPool [] [0%nat] [] [] [] [0%nat] 1 0))
    by exact (reachable_step _ (Request 1) newPool (rtc_refl _ _) Logic.I).
  assert (H2 : reachable (nntp_maximumConnectionsNumber 0)
      (mkPool [] [0%nat; 1%nat] [] [] [] [0%nat; 1%nat] 2 0))
    by exact (reachable_step _ (Request 2) _ H1 Logic.I).
  exact (reachable_step _ (Request 3) _ H2 Logic.I).
Qed.

Lemma pool_bounded_witness :
  NoDup (free fullPool ++ busy fullPool) ∧ (length (free fullPool ++ busy fullPool) <= 2)%nat ∧
  (waiting fullPool ≠ [] → (2 <= length (busy fullPool) + length (resumed fullPool))%nat).
Proof. apply (pool_bounded (nntp_maximumConnectionsNumber 0)). exact fullPool_reachable. Defined.

Lemma waiting_served_witness :
  Acc (λ p' p, ∃ o, serving 2 p o p') fullPool ∧
  ∀ o p', servings 2 fullPool o p' → (∀ o' p'', ¬ serving 2 p' o' p'') →
  ∀ r, r ∈ outstanding fullPool → ∃ c, Served r c ∈ o.
Proof.
  apply (waiting_served (nntp_maximumConnectionsNumber 0)).
  - exact fullPool_reachable.
  - apply nntp_maximum_positive.
Defined.
