(* ===== verification/LineReader.v ===== *)
(** * LineReader: multi-line responses (mailnews/base/src/LineReader.sys.mjs)

    The accumulator POP3 and NNTP use for dot-terminated, dot-stuffed
    multi-line responses.  [read] is the method of the same name: it is given
    the state the two callbacks act on, and the line callback may throw, which
    stops the loop with the unread text left in [_data].  The call that spins
    the event loop every hundred lines is left out: no other call of [read] is
    taken to come in the middle of one. *)

From S2P Require Import Prelude.

(** How a call of a callback ends: with the state it leaves. *)
Inductive outcome (A : Type) : Type :=
  | Returned (s : A)
  | Threw (s : A).
Arguments Returned {A} s.
Arguments Threw {A} s.

Record LineReader := mkLineReader {
  receivingMultiLineResponse : bool;
  _data : jsstr
}.

Definition newLineReader : LineReader := mkLineReader false [].

(** "\r\n.\r\n" and ".\r\n". *)
Definition DOT_CRLF : jsstr := DOT :: CRLF.
Definition TERMINATOR : jsstr := CRLF ++ DOT_CRLF.

(** The test of [read] for a complete response. *)
Definition complete (d : jsstr) : bool := (d ==s DOT_CRLF) || endsWith d TERMINATOR.

(** Removes a stuffed dot. *)
Definition unstuff (line : jsstr) : jsstr :=
  if startsWith line [DOT; DOT] then slice_from line 1 else line.

Section Read.
Context {A : Type}.
Variable lineCallback : jsstr → A → outcome A.
Variable doneCallback : A → A.

(** The [while (this._data)] loop; one unit of fuel per iteration. *)
Fixpoint read_loop (fuel : nat) (d : jsstr) (s : A) : jsstr * outcome A :=
  match fuel with
  | O => (d, Returned s)
  | S f =>
      match d with
      | [] => (d, Returned s)
      | _ =>
          let index := indexOf d CRLF in
          match lineCallback (unstuff (slice d 0 (index + 2))) s with
          | Threw s' => (d, Threw s')
          | Returned s' => read_loop f (slice_from d (index + 2)) s'
          end
      end
  end.

Definition read (lr : LineReader) (data : jsstr) (s : A) : LineReader * outcome A :=
  let d := _data lr ++ data in
  if complete d then
    let d := slice d 0 (-3) in
    match read_loop (length d) d s with
    | (d', Threw s') => (mkLineReader false d', Threw s')
    | (d', Returned s') => (mkLineReader false d', Returned (doneCallback s'))
    end
  else (mkLineReader true d, Returned s).
End Read.

(** ** The wire format the reader expects *)

Definition stuff (line : jsstr) : jsstr :=
  if startsWith line [DOT] then DOT :: line else line.

Definition encode (lines : list jsstr) : jsstr := body (map stuff lines) ++ DOT_CRLF.

Lemma stuff_crlf_free l : crlf_free l → crlf_free (stuff l).
Proof.
  unfold stuff, crlf_free. destruct (startsWith l [DOT]); [|done].
  intros H. cbn [find_sub]. rewrite H, bool_decide_eq_false_2; [done|].
  intros [k Hk]. discriminate Hk.
Qed.

Lemma stuff_not_dot l : stuff l ≠ [DOT].
Proof.
  unfold stuff. destruct (startsWith l [DOT]) eqn:E.
  - apply startsWith_true in E as [r ->]. done.
  - intros ->. by vm_compute in E.
Qed.

Lemma unstuff_stuff l : unstuff (stuff l ++ CRLF) = l ++ CRLF.
Proof.
  unfold unstuff, stuff. destruct (startsWith l [DOT]) eqn:E.
  - apply startsWith_true in E as [r ->].
    change ((DOT :: [DOT] ++ r) ++ CRLF) with ([DOT; DOT] ++ (r ++ CRLF)).
    rewrite startsWith_app. exact (slice_from_drop _ 1).
  - destruct (startsWith (l ++ CRLF) [DOT; DOT]) eqn:E2; [|done].
    apply startsWith_true in E2 as [r Hr].
    destruct l as [|x l]; simplify_eq/=.
Qed.

Lemma crlf_body x y ls t :
  Forall crlf_free ls → x ++ CRLF ++ y = body ls ++ t →
  (∃ k, y = body (drop k ls) ++ t) ∨
  (∃ x', x = body ls ++ x' ∧ t = x' ++ CRLF ++ y).
Proof.
  revert x. induction ls as [|l ls IH]; intros x Hf Heq.
  - right. exists x. by split.
  - apply Forall_cons in Hf as [Hl Hf].
    change (body (l :: ls)) with ((l ++ CRLF) ++ body ls) in Heq |- *.
    rewrite <- !(assoc_L (++)) in Heq.
    symmetry in Heq. apply crlf_split in Heq; [|done].
    destruct Heq as [[-> ->]|(x' & -> & Heq)].
    + left. by exists 1%nat.
    + symmetry in Heq. destruct (IH x' Hf Heq) as [[k ->]|(x'' & -> & ->)].
      * left. by exists (S k).
      * right. exists x''. by rewrite <- !(assoc_L (++)).
Qed.

(** No proper prefix of an encoded response looks complete. *)
Lemma encode_prefix_incomplete ls p r :
  Forall crlf_free ls → p ++ r = encode ls → r ≠ [] → complete p = false.
Proof.
  intros Hf Heq Hr. destruct (complete p) eqn:Hc; [exfalso|done].
  assert (Hst : Forall crlf_free (map stuff ls)).
  { apply Forall_map. eapply Forall_impl; [done|]. apply stuff_crlf_free. }
  assert (Hy : ∀ k, DOT_CRLF ++ r = body (drop k (map stuff ls)) ++ DOT_CRLF → False).
  { intros k Hk. destruct (drop k (map stuff ls)) as [|l ls'] eqn:Ed.
    - destruct r; [done|]. apply (f_equal length) in Hk. simpl in Hk. lia.
    - assert (Hl : l ∈ map stuff ls).
      { apply (subseteq_drop k). rewrite Ed. left. }
      apply list_elem_of_In, in_map_iff in Hl as (l0 & <- & Hl0%list_elem_of_In).
      rewrite Forall_forall in Hf. specialize (Hf _ Hl0).
      change (body (stuff l0 :: ls')) with ((stuff l0 ++ CRLF) ++ body ls') in Hk.
      rewrite <- !(assoc_L (++)) in Hk. symmetry in Hk.
      apply (crlf_split _ _ [DOT] r) in Hk; [|by apply stuff_crlf_free].
      destruct Hk as [[Hk _]|(x' & Hk & _)].
      + by apply (stuff_not_dot l0).
      + apply (f_equal length) in Hk. rewrite length_app in Hk. simpl in Hk. lia. }
  unfold complete in Hc. apply orb_true_iff in Hc as [Hc|Hc].
  - apply jseq_true in Hc as ->. by apply (Hy 0%nat).
  - apply endsWith_true in Hc as [q ->]. unfold encode in Heq.
    unfold TERMINATOR in Heq. rewrite <- !(assoc_L (++)) in Heq.
    destruct (crlf_body _ _ _ _ Hst Heq) as [[k Hk]|(x' & _ & Hk)];
      [by apply (Hy k)|].
    apply (f_equal length) in Hk. rewrite !length_app in Hk. simpl in Hk. lia.
Qed.

Lemma encode_complete ls : complete (encode ls) = true.
Proof.
  unfold complete, encode. apply orb_true_iff.
  destruct ls as [|l ls _] using rev_ind; [left; by apply jseq_true|right].
  rewrite map_app, body_app.
  assert (E : (body (map stuff ls) ++ body (map stuff [l])) ++ DOT_CRLF
              = (body (map stuff ls) ++ stuff l) ++ TERMINATOR).
  { unfold body, TERMINATOR. simpl. by rewrite app_nil_r, <- !(assoc_L (++)). }
  rewrite E. apply endsWith_app.
Qed.

Section Loop.
Context {A : Type} (cb : jsstr → A → outcome A).

(** What the callbacks see: the lines in order, up to the first throw. *)
Fixpoint run_lines (ls : list jsstr) (s : A) : outcome A :=
  match ls with
  | [] => Returned s
  | l :: ls' =>
      match cb (l ++ CRLF) s with
      | Threw s' => Threw s'
      | Returned s' => run_lines ls' s'
      end
  end.

Lemma read_loop_line fuel l d s :
  crlf_free l →
  read_loop cb (S fuel) (l ++ CRLF ++ d) s =
  match cb (unstuff (l ++ CRLF)) s with
  | Threw s' => (l ++ CRLF ++ d, Threw s')
  | Returned s' => read_loop cb fuel d s'
  end.
Proof.
  intros Hl. cbn [read_loop].
  assert (Hi : indexOf (l ++ CRLF ++ d) CRLF + 2 = Z.of_nat (length (l ++ CRLF))).
  { unfold indexOf. rewrite find_CRLF by done. rewrite length_app. simpl. lia. }
  destruct (l ++ CRLF ++ d) eqn:E; [by destruct l|].
  rewrite Hi, slice_0_take, slice_from_drop, <- E, (assoc_L (++)).
  by rewrite take_app_length, drop_app_length.
Qed.

(** The loop on a stuffed body: enough fuel delivers every line. *)
Lemma read_loop_body fuel ls s :
  Forall crlf_free ls → (length ls ≤ fuel)%nat →
  (read_loop cb fuel (body (map stuff ls)) s).2 = run_lines ls s ∧
  (∀ s', run_lines ls s = Returned s' →
         (read_loop cb fuel (body (map stuff ls)) s).1 = []).
Proof.
  revert fuel s. induction ls as [|l ls IH]; intros fuel s Hf Hn.
  - by destruct fuel.
  - apply Forall_cons in Hf as [Hl Hf]. destruct fuel as [|fuel]; simpl in Hn; [lia|].
    change (body (map stuff (l :: ls)))
      with ((stuff l ++ CRLF) ++ body (map stuff ls)).
    rewrite <- (assoc_L (++)), read_loop_line by (by apply stuff_crlf_free).
    rewrite unstuff_stuff. simpl. destruct (cb (l ++ CRLF) s); [|done].
    apply IH; [done|lia].
Qed.
End Loop.

Lemma length_body ls : (length ls ≤ length (body ls))%nat.
Proof.
  induction ls as [|l ls IH]; [done|].
  change (body (l :: ls)) with ((l ++ CRLF) ++ body ls).
  rewrite !length_app. simpl. lia.
Qed.

Section Properties.
Context {A : Type} (cb : jsstr → A → outcome A) (done : A → A).

(** Feeding the chunks of a response one after the other. *)
Fixpoint feed (chunks : list jsstr) (lr : LineReader) (s : A) : LineReader * outcome A :=
  match chunks with
  | [] => (lr, Returned s)
  | c :: cs =>
      match read cb done lr c s with
      | (lr', Returned s') => feed cs lr' s'
      | (lr', Threw s') => (lr', Threw s')
      end
  end.

Lemma read_complete ls d c s :
  Forall crlf_free ls → d ++ c = encode ls →
  ∀ b, (∃ rest, read cb done (mkLineReader b d) c s
       = (mkLineReader false rest,
          match run_lines cb ls s with
          | Returned s' => Returned (done s')
          | Threw s' => Threw s'
          end) ∧ (∀ s', run_lines cb ls s = Returned s' → rest = [])).
Proof.
  intros Hf Hd b. unfold read. simpl. rewrite Hd, encode_complete.
  unfold encode. rewrite (slice_0_neg _ DOT_CRLF 3) by (done || lia).
  destruct (read_loop_body cb (length (body (map stuff ls))) ls s Hf) as [H2 H1].
  { etrans; [|apply length_body]. by rewrite length_map. }
  destruct (read_loop _ _ _ _) as [d' o]. simpl in H2, H1. subst o.
  destruct (run_lines cb ls s); eauto.
Qed.

Lemma feed_incomplete chunks ls p r s b :
  Forall crlf_free ls → r ≠ [] → p ++ concat chunks ++ r = encode ls →
  feed chunks (mkLineReader b p) s
  = (mkLineReader (match chunks with [] => b | _ => true end) (p ++ concat chunks),
     Returned s).
Proof.
  intros Hf Hr. revert p b. induction chunks as [|c chunks IH]; intros p b Heq.
  - by rewrite app_nil_r.
  - simpl in Heq. cbn [feed concat]. unfold read. cbn [_data].
    rewrite (encode_prefix_incomplete ls _ (concat chunks ++ r)); [|done|..].
    + rewrite IH by (by rewrite <- Heq, <- !(assoc_L (++))).
      rewrite <- (assoc_L (++)). by destruct chunks.
    + by rewrite <- Heq, <- !(assoc_L (++)).
    + by intros [_ ?]%app_nil.
Qed.

Lemma feed_app c1 c2 lr s lr' s' :
  feed c1 lr s = (lr', Returned s') → feed (c1 ++ c2) lr s = feed c2 lr' s'.
Proof.
  revert lr s. induction c1 as [|c c1 IH]; intros lr s; simpl; [by intros [= -> ->]|].
  destruct (read _ _ _ _ _) as [lr1 [s1|s1]]; [apply IH|done].
Qed.

(** C20. However the network cuts an encoded response into chunks, the reader
    stays silent until the last one; then every line is delivered, once and
    in order, with its stuffed dot removed, and the completion callback runs
    after the last line with the reader empty.  If a line callback throws,
    the lines after it are not delivered and completion is not signalled. *)
Theorem read_roundtrip ls chunks c s :
  Forall crlf_free ls → c ≠ [] → concat chunks ++ c = encode ls →
  feed chunks newLineReader s
    = (mkLineReader (negb (bool_decide (chunks = []))) (concat chunks), Returned s) ∧
  match run_lines cb ls s with
  | Returned s' =>
      feed (chunks ++ [c]) newLineReader s = (newLineReader, Returned (done s'))
  | Threw s' =>
      ∃ rest, feed (chunks ++ [c]) newLineReader s = (mkLineReader false rest, Threw s')
  end.
Proof.
  intros Hf Hc Heq.
  pose proof (feed_incomplete chunks ls [] c s false Hf Hc Heq) as Hi.
  split; [unfold newLineReader; rewrite Hi; by destruct chunks|].
  unfold newLineReader. rewrite (feed_app _ _ _ _ _ _ Hi). cbn [feed].
  destruct (read_complete ls (concat chunks) c s Hf Heq
              (match chunks with [] => false | _ => true end)) as (rest & Hr & Hn).
  rewrite app_nil_l, Hr. destruct (run_lines cb ls s) as [s'|s']; [|eauto].
  by rewrite (Hn _ eq_refl).
Qed.
End Properties.

(** ** Invariants of the state the callbacks act on *)

Definition outcome_state {A} (o : outcome A) : A :=
  match o with Returned s | Threw s => s end.

Lemma read_loop_invariant {A} (P : A → Prop) (cb : jsstr → A → outcome A) fuel d s :
  (∀ l s, P s → P (outcome_state (cb l s))) → P s → P (outcome_state (read_loop cb fuel d s).2).
Proof.
  intros Hcb. revert d s. induction fuel as [|fuel IH]; intros d s Hs; [done|].
  cbn [read_loop]. destruct d as [|x d]; [done|].
  match goal with |- context [cb ?l s] => pose proof (Hcb l s Hs) as H; destruct (cb l s) end;
    [by apply IH|done].
Qed.

(** The lines keep [P]; completion leads from [P] to [Q]. *)
Lemma read_invariant {A} (P Q : A → Prop) (cb : jsstr → A → outcome A) done lr d s :
  (∀ s, P s → Q s) → (∀ l s, P s → P (outcome_state (cb l s))) → (∀ s, P s → Q (done s)) →
  P s → Q (outcome_state (read cb done lr d s).2).
Proof.
  intros HPQ Hcb Hdone Hs. unfold read. destruct (complete _); [|by apply HPQ].
  match goal with |- context [read_loop cb ?n ?x s] =>
    pose proof (read_loop_invariant P cb n x s Hcb Hs) as H;
    destruct (read_loop cb n x s) as [d' [s'|s']] end; [by apply Hdone|by apply HPQ].
Qed.

(** The client of a whole response: collects the lines. *)
Definition collect (l : jsstr) (acc : list jsstr) : outcome (list jsstr) :=
  Returned (acc ++ [l]).

Lemma read_roundtrip_witness :
  let ls := [js ".a"; js "b"; js ".."] in
  feed collect (λ x, x) [js "..a"; CRLF ++ js "b"; CRLF ++ js "..." ++ CRLF ++ js ".";
                         CRLF] newLineReader []
  = (newLineReader, Returned (map (λ l, l ++ CRLF) ls)).
Proof.
  apply (read_roundtrip collect (λ x, x) [js ".a"; js "b"; js ".."]
           [js "..a"; CRLF ++ js "b"; CRLF ++ js "..." ++ CRLF ++ js "."] CRLF []).
  - repeat constructor.
  - done.
  - reflexivity.
Defined.
