(* ===== verification/ReadLines.v ===== *)
(** * ReadLines: a client's use of its LineReader

    [this._lineReader.read(data, lineCallback, doneCallback)], as a method of
    any object that holds a reader: what it does with a whole response, with a
    part of one, and the invariants it keeps.  The POP3 and the NNTP client are
    instances of [HasReader]. *)

From S2P Require Import Prelude Effects LineReader.

(** An object with a reader. *)
Class HasReader (S : Type) := {
  reader : S → LineReader;
  with_reader : LineReader → S → S
}.

Definition crlf_lines (ls : list jsstr) : list jsstr := map (λ l, l ++ CRLF) ls.

Section ReadLines.
Context {S E : Type} `{HasReader S}.
Abbreviation act := (eff S E).

(** The call; the callbacks do not look at the reader. *)
Definition read_lines (data : jsstr) (line_cb : jsstr → act unit) (done_cb : act unit) : act unit :=
  λ c,
    let cb := λ l '(c, o, t),
      let '(c', o', r) := line_cb l c in
      match r with
      | Some _ => Returned (c', o ++ o', t)
      | None => Threw (c', o ++ o', true)
      end in
    let done := λ '(c, o, t),
      let '(c', o', r) := done_cb c in
      (c', o ++ o', t || negb (bool_decide (r = Some tt))) in
    match read cb done (reader c) data (with_reader newLineReader c, [], false) with
    | (lr, Returned (c', o, t)) | (lr, Threw (c', o, t)) =>
        (with_reader lr c', o, if t : bool then None else Some tt)
    end.

(** ** Invariants *)

(** The lines keep [P], completion leads from [P] to [Q]. *)
Lemma read_lines_safe_to (P Q : S → Prop) (Ev : E → Prop) d
    (line_cb : jsstr → act unit) (done_cb : act unit) :
  (∀ c lr, P c → P (with_reader lr c)) → (∀ c lr, Q c → Q (with_reader lr c)) →
  (∀ c, P c → Q c) → (∀ l, safe_from P Ev (line_cb l)) → safe_to P Ev Q done_cb →
  safe_to P Ev Q (read_lines d line_cb done_cb).
Proof.
  intros HlrP Hlr HPQ Hline Hdone c Hc. unfold read_lines.
  match goal with |- context [read ?f ?g _ _ _] => set (cb := f); set (dn := g) end.
  pose proof (read_invariant (λ '(c, o, _), P c ∧ Forall Ev o) (λ '(c, o, _), Q c ∧ Forall Ev o)
    cb dn (reader c) d (with_reader newLineReader c, [], false)) as Hr.
  destruct (read cb dn (reader c) d (with_reader newLineReader c, [], false)) as [lr o].
  cbn [snd] in Hr.
  assert (Ho : let '(c', o, _) := outcome_state o in Q c' ∧ Forall Ev o).
  { apply Hr.
    - intros [[c1 o1] t] [H1 H2]. auto.
    - intros l [[c1 o1] t] [H1 H2]. subst cb. cbn. specialize (Hline l c1 H1).
      destruct (line_cb l c1) as [[c2 o2] [u|]]; cbn; destruct Hline;
        (split; [done|by apply Forall_app]).
    - intros [[c1 o1] t] [H1 H2]. subst dn. cbn. specialize (Hdone c1 H1).
      destruct (done_cb c1) as [[c2 o2] r]. destruct Hdone. split; [done|by apply Forall_app].
    - split; [by apply HlrP|done]. }
  destruct o as [[[c' o'] t]|[[c' o'] t]]; cbn in Ho; destruct Ho as [H1 H2];
    (split; [by apply Hlr|done]).
Qed.

Lemma read_lines_safe (P : S → Prop) (Ev : E → Prop) d
    (line_cb : jsstr → act unit) (done_cb : act unit) :
  (∀ c lr, P c → P (with_reader lr c)) →
  (∀ l, safe_from P Ev (line_cb l)) → safe_from P Ev done_cb →
  safe_from P Ev (read_lines d line_cb done_cb).
Proof. intros Hlr Hline Hdone. by apply read_lines_safe_to. Qed.

(** A relation that the callbacks respect. *)
Lemma read_lines_respects (R : S → list E → S → Prop) `{!TraceRel R} d
    (line_cb : jsstr → act unit) (done_cb : act unit) :
  (∀ c lr, R c [] (with_reader lr c)) →
  (∀ l, respects R (line_cb l)) → respects R done_cb →
  respects R (read_lines d line_cb done_cb).
Proof.
  intros Hlr Hline Hdone c. unfold read_lines.
  match goal with |- context [read ?f ?g _ _ _] => set (cb := f); set (dn := g) end.
  set (I := λ x : S * list E * bool, R c x.1.2 x.1.1).
  pose proof (read_invariant I I cb dn (reader c) d (with_reader newLineReader c, [], false)) as Hr.
  destruct (read cb dn (reader c) d (with_reader newLineReader c, [], false)) as [lr o].
  cbn [snd] in Hr.
  assert (Ho : I (outcome_state o)).
  { apply Hr.
    - done.
    - intros l [[c1 o1] t] H1. subst cb. cbn. specialize (Hline l c1).
      destruct (line_cb l c1) as [[c2 o2] [u|]]; cbn; exact (trace_trans c o1 c1 o2 c2 H1 Hline).
    - intros [[c1 o1] t] H1. subst dn. cbn. specialize (Hdone c1).
      destruct (done_cb c1) as [[c2 o2] r]. exact (trace_trans c o1 c1 o2 c2 H1 Hdone).
    - apply Hlr. }
  destruct o as [[[c' o'] t]|[[c' o'] t]]; cbn in Ho;
    rewrite <- (app_nil_r o'); exact (trace_trans c o' c' [] _ Ho (Hlr _ _)).
Qed.

(** ** Whole and partial responses *)

(** The line callback, as a loop. *)
Lemma run_lines_for_each (line_cb : jsstr → act unit) ls c o :
  run_lines (λ l '(c, o, t),
      let '(c', o', r) := line_cb l c in
      match r with
      | Some _ => Returned (c', o ++ o', t)
      | None => Threw (c', o ++ o', true)
      end) ls (c, o, false)
  = let '(c', o', r) := for_each (crlf_lines ls) line_cb c in
    match r with
    | Some _ => Returned (c', o ++ o', false)
    | None => Threw (c', o ++ o', true)
    end.
Proof.
  revert c o. induction ls as [|l ls IH]; intros c o; [by cbn; rewrite app_nil_r|].
  cbn [run_lines crlf_lines map for_each]. unfold bind.
  destruct (line_cb (l ++ CRLF) c) as [[c1 o1] [u|]]; [|done]. rewrite IH. unfold crlf_lines.
  destruct (for_each _ line_cb c1) as [[c2 o2] [v|]]; by rewrite (assoc_L (++)).
Qed.

(** The last chunk of a response in lines: every line, then the end. *)
Lemma read_lines_complete (line_cb : jsstr → act unit) (done_cb : act unit) ls d c c1 o1 :
  Forall crlf_free ls → _data (reader c) ++ d = encode ls →
  for_each (crlf_lines ls) line_cb (with_reader newLineReader c) = (c1, o1, Some tt) →
  read_lines d line_cb done_cb c
  = let '(c2, o2, r) := done_cb c1 in (with_reader newLineReader c2, o1 ++ o2, r).
Proof.
  intros Hf Hd Hl. unfold read_lines.
  match goal with |- context [read ?f ?g _ _ _] => set (cb := f); set (dn := g) end.
  destruct (read_complete cb dn ls (_data (reader c)) d (with_reader newLineReader c, [], false)
    Hf Hd (receivingMultiLineResponse (reader c))) as (rest & Hr & Hn).
  assert (Hrun : run_lines cb ls (with_reader newLineReader c, [], false) = Returned (c1, o1, false)).
  { subst cb. by rewrite run_lines_for_each, Hl. }
  rewrite (Hn _ Hrun), Hrun in Hr.
  replace (mkLineReader _ (_data (reader c))) with (reader c) in Hr by (by destruct (reader c)).
  rewrite Hr. subst dn. cbn. destruct (done_cb c1) as [[c2 o2] r]. by destruct r as [[]|].
Qed.

(** An earlier chunk only fills the reader. *)
Lemma read_lines_incomplete (line_cb : jsstr → act unit) (done_cb : act unit) ls d rest c :
  (∀ lr lr' c', with_reader lr (with_reader lr' c') = with_reader lr c') →
  Forall crlf_free ls → rest ≠ [] → _data (reader c) ++ d ++ rest = encode ls →
  read_lines d line_cb done_cb c
  = (with_reader (mkLineReader true (_data (reader c) ++ d)) c, [], Some tt).
Proof.
  intros Hww Hf Hr Hd. unfold read_lines, read.
  rewrite (encode_prefix_incomplete ls _ rest); [by rewrite Hww|done|by rewrite <- (assoc_L (++))|done].
Qed.
End ReadLines.
