(* ===== verification/MsgKeySet.v ===== *)
(** * MsgKeySet: sets of article numbers (mailnews/base/src/MsgKeySet.sys.mjs)

    The newsrc-style set of article numbers as a list of ranges.  Range ends
    are possibly-[NaN] numbers as the constructor can produce them; the
    theorems are about the well-formed sets ([wf]: positive, increasing,
    disjoint and not adjacent), which [addRange] preserves when the new range
    and the old ones do not nest. *)

From S2P Require Import Prelude.

Definition range : Type := num * num.

(** ** The operations *)

(** One part of the constructor's string. *)
Definition parse_part (part : jsstr) : range :=
  let toks := split_on 45 part in
  let start := match toks !! 0%nat with Some t => toNumber t | None => None end in
  let e := match toks !! 1%nat with Some t => toNumber t | None => None end in
  (start, if num_truthy e then e else start).

Definition MsgKeySet (str : jsstr) : list range :=
  if str_truthy str then map parse_part (split_on 44 str) else [].

(** The merging loop of [_rebuild], from the range at the cursor. *)
Fixpoint rebuild_loop (cursor : range) (rest : list range) : list range :=
  match rest with
  | [] => [cursor]
  | (start, e) :: rest' =>
      if nlt (snd cursor) (nsub start (Some 1))
      then cursor :: rebuild_loop (start, e) rest'
      else rebuild_loop (fst cursor, e) rest'
  end.

Definition _rebuild (ranges : list range) : list range :=
  match ranges with
  | cursor :: ((_ :: _) as rest) => rebuild_loop cursor rest
  | _ => ranges
  end.

(** The [for] loop of [addRange] that looks for the insertion point. *)
Fixpoint insert_index (ranges : list range) (low : num) : nat :=
  match ranges with
  | [] => 0
  | (start, _) :: rest => if nlt low start then 0 else S (insert_index rest low)
  end.

Definition addRange (ranges : list range) (low high : num) : list range :=
  let index := insert_index ranges low in
  _rebuild (take index ranges ++ (low, high) :: drop index ranges).

Definition add (ranges : list range) (value : num) : list range :=
  addRange ranges value value.

Definition has (ranges : list range) (value : num) : bool :=
  existsb (λ '(start, e),
    if num_truthy e then nle start value && nle value e else neq start value) ranges.

(** The loop of [getLastMissingRange], on the ranges from the last to the first. *)
Fixpoint missing_loop (rranges : list range) (low high : num) : option range :=
  match rranges with
  | [] => Some (low, high)
  | (start, e) :: rest =>
      if nlt e high then Some (nmax low (nadd e (Some 1)), high)
      else if nlt low start && nlt start high
      then missing_loop rest low (nsub start (Some 1))
      else None
  end.

Definition getLastMissingRange (ranges : list range) (low high : num) : option range :=
  missing_loop (rev ranges) low high.

Definition toString (ranges : list range) : jsstr :=
  join [44] (map (λ '(start, e),
    if neq start e then nstr start else nstr start ++ [45] ++ nstr e) ranges).

(** ** Well-formed sets *)

Definition inj (rs : list (Z * Z)) : list range := map (λ '(s, e), (Some s, Some e)) rs.

Fixpoint wf (b : Z) (rs : list (Z * Z)) : Prop :=
  match rs with
  | [] => True
  | (s, e) :: rs' => b < s ∧ s <= e ∧ wf (e + 1) rs'
  end.

Definition mem (rs : list (Z * Z)) (v : Z) : Prop :=
  Exists (λ '(s, e), s <= v <= e) rs.

(** Sorted by start with non-decreasing ends, from a current range. *)
Fixpoint mono (s e : Z) (rs : list (Z * Z)) : Prop :=
  match rs with
  | [] => True
  | (s', e') :: rs' => s <= s' ∧ e <= e' ∧ s' <= e' ∧ mono s' e' rs'
  end.

Fixpoint zrebuild (s e : Z) (rest : list (Z * Z)) : list (Z * Z) :=
  match rest with
  | [] => [(s, e)]
  | (s', e') :: rest' =>
      if e <? s' - 1 then (s, e) :: zrebuild s' e' rest' else zrebuild s e' rest'
  end.

Lemma rebuild_loop_inj s e rest :
  rebuild_loop (Some s, Some e) (inj rest) = inj (zrebuild s e rest).
Proof.
  revert s e. induction rest as [|[s' e'] rest IH]; intros s e; simpl; [done|].
  destruct (e <? s' - 1); simpl; by rewrite IH.
Qed.

Lemma mono_weaken s s0 e rs : s0 <= s → mono s e rs → mono s0 e rs.
Proof. destruct rs as [|[s' e'] rs]; simpl; [done|]. intuition lia. Qed.

Lemma zrebuild_spec b s e rest :
  b < s → s <= e → mono s e rest →
  wf b (zrebuild s e rest) ∧
  ∀ v, mem (zrebuild s e rest) v ↔ (s <= v <= e ∨ mem rest v).
Proof.
  revert b s e. induction rest as [|[s' e'] rest IH]; intros b s e Hb Hse Hm; simpl.
  - split; [done|]. intros v. unfold mem. by rewrite Exists_cons.
  - destruct Hm as (H1 & H2 & H3 & H4). destruct (Z.ltb_spec e (s' - 1)) as [Hlt|Hge].
    + destruct (IH (e + 1) s' e') as [Hw Hv]; [lia..|done|]. split; [done|].
      intros v. unfold mem. rewrite !Exists_cons. fold (mem (zrebuild s' e' rest) v).
      rewrite Hv. unfold mem. intuition lia.
    + destruct (IH b s e') as [Hw Hv]; [lia..|by eapply mono_weaken|]. split; [done|].
      intros v. rewrite Hv. unfold mem. rewrite Exists_cons. intuition lia.
Qed.

Lemma wf_weaken b b' rs : b' <= b → wf b rs → wf b' rs.
Proof. destruct rs as [|[s e] rs]; simpl; [done|]. intuition lia. Qed.

Lemma wf_mono b rs s e : wf b rs → s <= b → e <= b → mono s e rs.
Proof.
  revert b s e. induction rs as [|[s' e'] rs IH]; intros b s e; simpl; [done|].
  intros (H1 & H2 & H3) ??. repeat split; try lia. eapply IH; [done|lia..].
Qed.

Lemma wf_elem b rs s e : wf b rs → (s, e) ∈ rs → b < s ∧ s <= e.
Proof.
  revert b. induction rs as [|[s' e'] rs IH]; intros b; [by intros _ ?%elem_of_nil|].
  simpl. intros (H1 & H2 & H3) [[= <- <-]|Hin]%elem_of_cons; [done|].
  destruct (IH _ H3 Hin). lia.
Qed.

Lemma mem_cons s e rs v : mem ((s, e) :: rs) v ↔ s <= v <= e ∨ mem rs v.
Proof. unfold mem. by rewrite Exists_cons. Qed.

Lemma mem_elem rs v : mem rs v ↔ ∃ s e, (s, e) ∈ rs ∧ s <= v <= e.
Proof.
  unfold mem. rewrite Exists_exists. split.
  - intros ([s e] & ? & ?). eauto.
  - intros (s & e & ? & ?). by exists (s, e).
Qed.

Lemma has_inj b rs v :
  0 <= b → wf b rs → has (inj rs) (Some v) = true ↔ mem rs v.
Proof.
  revert b. induction rs as [|[s e] rs IH]; intros b Hb; simpl.
  - intros _. by rewrite mem_elem; split; [|intros (?&?&?%elem_of_nil&?)].
  - intros (H1 & H2 & H3). rewrite mem_cons, orb_true_iff, (IH (e + 1)) by (done || lia).
    destruct e as [|p|p]; try lia. simpl.
    rewrite andb_true_iff. intuition lia.
Qed.

#[export] Hint Rewrite mem_cons : jsdb.

(** ** Adding a range *)

(** The new range and the old ones do not nest strictly. *)
Definition no_nesting (low high : Z) (rs : list (Z * Z)) : Prop :=
  Forall (λ '(s, e), ¬ (s <= low ∧ high < e) ∧ ¬ (low < s ∧ e < high)) rs.

Fixpoint zinsert (low high : Z) (rs : list (Z * Z)) : list (Z * Z) :=
  match rs with
  | [] => [(low, high)]
  | (s, e) :: rs' => if low <? s then (low, high) :: rs else (s, e) :: zinsert low high rs'
  end.

Lemma insert_inj low high rs :
  let index := insert_index (inj rs) (Some low) in
  take index (inj rs) ++ (Some low, Some high) :: drop index (inj rs)
  = inj (zinsert low high rs).
Proof.
  induction rs as [|[s e] rs IH]; [done|]. cbn [inj map insert_index zinsert nlt].
  destruct (low <? s); [done|]. by apply (f_equal (cons (Some s, Some e))).
Qed.

Lemma zinsert_mono low high rs b s e :
  wf b rs → no_nesting low high rs → low <= high →
  s <= b → e <= b → s <= low → e <= high → mono s e (zinsert low high rs).
Proof.
  revert b s e. induction rs as [|[s' e'] rs IH];
    intros b s e Hw Hn Hlh ????; [simpl; lia|].
  apply Forall_cons in Hn as [Hn1 Hn2]. simpl in Hw. destruct Hw as (Hb & Hse & Hw').
  simpl. destruct (Z.ltb_spec low s'); simpl.
  - repeat split; try lia. eapply wf_mono; [done|lia..].
  - repeat split; try lia. eapply IH; [done..|lia|lia|lia|lia].
Qed.

Lemma zinsert_mem low high rs v :
  mem (zinsert low high rs) v ↔ low <= v <= high ∨ mem rs v.
Proof.
  induction rs as [|[s e] rs IH]; simpl.
  - by rewrite mem_cons.
  - destruct (low <? s); rewrite !mem_cons; [done|]. rewrite IH. tauto.
Qed.

Lemma _rebuild_inj s e rest : _rebuild (inj ((s, e) :: rest)) = inj (zrebuild s e rest).
Proof. destruct rest as [|[s' e'] rest]; [done|]. apply (rebuild_loop_inj s e (_ :: _)). Qed.

Lemma addRange_inj rs low high :
  0 < low → low <= high → wf 0 rs → no_nesting low high rs →
  ∃ rs', addRange (inj rs) (Some low) (Some high) = inj rs' ∧ wf 0 rs' ∧
         ∀ v, mem rs' v ↔ low <= v <= high ∨ mem rs v.
Proof.
  intros Hl Hlh Hw Hn. unfold addRange. rewrite insert_inj.
  pose proof (zinsert_mono low high rs 0 0 0 Hw Hn Hlh) as Hm.
  pose proof (zinsert_mem low high rs) as Hv.
  destruct (zinsert low high rs) as [|[s e] rest] eqn:Ez.
  - destruct rs as [|[s e] rs]; simpl in Ez; [done|]. by destruct (low <? s).
  - destruct Hm as (_ & _ & Hse & Hm); [lia..|].
    assert (Hs : 0 < s).
    { destruct rs as [|[s0 e0] rs]; simpl in Ez, Hw; [by simplify_eq|].
      destruct (low <? s0); simplify_eq; lia. }
    exists (zrebuild s e rest). rewrite _rebuild_inj.
    destruct (zrebuild_spec 0 s e rest Hs Hse Hm) as [? Hv']. split_and!; [done..|].
    intros v. by rewrite Hv', <- Hv, mem_cons.
Qed.

(** C38. Adding a range that neither strictly contains nor is strictly contained
    in a range of the set keeps the set well formed and adds exactly the
    numbers of the range. *)
Theorem addRange_correct rs low high :
  0 < low → low <= high → wf 0 rs → no_nesting low high rs →
  ∃ rs', addRange (inj rs) (Some low) (Some high) = inj rs' ∧ wf 0 rs' ∧
         ∀ v, has (inj rs') (Some v) = (low <=? v) && (v <=? high) || has (inj rs) (Some v).
Proof.
  intros H1 H2 H3 H4.
  destruct (addRange_inj rs low high H1 H2 H3 H4) as (rs' & Ha & Hw & Hv).
  exists rs'. split_and!; [done..|]. intros v. apply eq_true_iff_eq.
  rewrite orb_true_iff, andb_true_iff, !Z.leb_le, !(has_inj 0) by done. apply Hv.
Qed.

Lemma addRange_correct_witness :
  let rs := [(2, 9); (12, 29)] in
  ∃ rs', addRange (inj rs) (Some 8) (Some 13) = inj rs' ∧ wf 0 rs' ∧
  ∀ v, has (inj rs') (Some v) = (8 <=? v) && (v <=? 13) || has (inj rs) (Some v).
Proof.
  apply (addRange_correct [(2, 9); (12, 29)] 8 13); [lia|lia|simpl; lia|].
  repeat constructor; lia.
Defined.

(** Adding an article number that is not in the set adds that number and
    nothing else, and keeps the set well formed. *)
Theorem add_new rs v :
  0 < v → wf 0 rs → has (inj rs) (Some v) = false →
  ∃ rs', add (inj rs) (Some v) = inj rs' ∧ wf 0 rs' ∧
         ∀ w, has (inj rs') (Some w) = (v =? w) || has (inj rs) (Some w).
Proof.
  intros Hv Hw Hh. unfold add.
  assert (Hm : ¬ mem rs v) by (intros Hm; apply (has_inj 0) in Hm; [congruence|done..]).
  assert (Hn : no_nesting v v rs).
  { apply Forall_forall. intros [s e] Hin.
    destruct (wf_elem _ _ _ _ Hw Hin). split; [|lia]. intros ?. apply Hm, mem_elem. exists s, e. split; [done|lia]. }
  destruct (addRange_inj rs v v Hv (Z.le_refl v) Hw Hn) as (rs' & Ha & Hw' & Hm').
  exists rs'. split_and!; [done..|]. intros w. apply eq_true_iff_eq.
  rewrite orb_true_iff, !(has_inj 0), Hm', Z.eqb_eq by done. intuition lia.
Qed.

Lemma add_new_witness :
  ∃ rs', add (inj [(2, 9); (12, 29)]) (Some 10) = inj rs' ∧ wf 0 rs' ∧
  ∀ w, has (inj rs') (Some w) = (10 =? w) || has (inj [(2, 9); (12, 29)]) (Some w).
Proof. apply (add_new [(2, 9); (12, 29)] 10); [lia|simpl; lia|reflexivity]. Defined.

Definition zrebuild_list (rs : list (Z * Z)) : list (Z * Z) :=
  match rs with [] => [] | (s, e) :: rest => zrebuild s e rest end.

Lemma _rebuild_inj_list rs : _rebuild (inj rs) = inj (zrebuild_list rs).
Proof. destruct rs as [|[s e] rest]; [done|]. apply _rebuild_inj. Qed.

Lemma zrebuild_disjoint b rs s e t :
  wf b (rs ++ [(s, e)]) →
  zrebuild_list (rs ++ (s, e) :: t) = rs ++ zrebuild s e t.
Proof.
  revert b. induction rs as [|[s0 e0] rs IH]; intros b; [done|].
  simpl. intros (_ & _ & Hw). rewrite <- (IH _ Hw).
  destruct rs as [|[s1 e1] rs]; simpl in Hw |- *.
  - destruct (Z.ltb_spec e0 (s - 1)); [done|lia].
  - destruct (Z.ltb_spec e0 (s1 - 1)); [done|lia].
Qed.

Lemma zrebuild_wf s e rs : wf (e + 1) rs → zrebuild s e rs = (s, e) :: rs.
Proof.
  revert s e. induction rs as [|[s' e'] rs IH]; intros s e; simpl; [done|].
  intros (H1 & H2 & H3). destruct (Z.ltb_spec e (s' - 1)); [|lia]. by rewrite IH.
Qed.

Lemma wf_app b rs1 s e rs2 :
  wf b (rs1 ++ (s, e) :: rs2) →
  wf b (rs1 ++ [(s, e)]) ∧ wf (e + 1) rs2 ∧ Forall (λ '(s', e'), s' <= e' < s - 1) rs1.
Proof.
  revert b. induction rs1 as [|[s0 e0] rs1 IH]; intros b; simpl.
  { intros (H1 & H2 & H3). by split_and!. }
  intros (H1 & H2 & H3). destruct (IH _ H3) as (H4 & H5 & H6). split_and!; try done.
  apply Forall_cons. split; [|done].
  destruct rs1 as [|[s1 e1] rs1]; simpl in H3; [lia|].
  apply Forall_cons in H6 as [? _]. lia.
Qed.

Lemma wf_truncate b rs1 rs2 s e v :
  wf b (rs1 ++ (s, e) :: rs2) → s <= v < e → wf b (rs1 ++ (s, v) :: rs2).
Proof.
  intros Hw Hv. revert b Hw. induction rs1 as [|[s0 e0] rs1 IH]; simpl; intros b.
  - intros (H1 & H2 & H3). split_and!; [lia..|]. eapply wf_weaken; [|done]. lia.
  - intros (H1 & H2 & H3). split_and!; [lia..|]. by apply IH.
Qed.

Lemma zinsert_after v rs1 s e rs2 :
  Forall (λ '(s', e'), s' <= e' < s - 1) rs1 → s <= v < e → wf (e + 1) rs2 →
  zinsert v v (rs1 ++ (s, e) :: rs2) = rs1 ++ (s, e) :: (v, v) :: rs2.
Proof.
  intros H1 H2 H3. induction H1 as [|[s0 e0] rs1 H0 H1 IH]; simpl.
  - destruct (Z.ltb_spec v s); [lia|]. destruct rs2 as [|[s1 e1] rs2]; simpl in *; [done|].
    destruct (Z.ltb_spec v s1); [done|lia].
  - destruct (Z.ltb_spec v s0); [lia|]. by rewrite IH.
Qed.

Lemma add_inside rs1 rs2 s e v :
  wf 0 (rs1 ++ (s, e) :: rs2) → s <= v < e →
  add (inj (rs1 ++ (s, e) :: rs2)) (Some v) = inj (rs1 ++ (s, v) :: rs2).
Proof.
  intros Hw Hv. destruct (wf_app _ _ _ _ _ Hw) as (H1 & H2 & H3).
  unfold add, addRange. rewrite insert_inj, zinsert_after by done.
  assert (Hr : zrebuild_list (rs1 ++ (s, e) :: (v, v) :: rs2) = rs1 ++ (s, v) :: rs2).
  { rewrite (zrebuild_disjoint 0) by done. simpl.
    destruct (Z.ltb_spec e (v - 1)); [lia|].
    rewrite zrebuild_wf; [done|]. eapply wf_weaken; [|done]. lia. }
  rewrite <- Hr. apply _rebuild_inj_list.
Qed.

(** Adding a number that lies inside a range, before its end, loses the end
    of that range: [_rebuild] overwrites the end of the merged range with the
    end of the later one without taking the larger of the two. *)
Theorem add_inside_truncates rs1 rs2 s e v :
  wf 0 (rs1 ++ (s, e) :: rs2) → s <= v < e →
  has (inj (rs1 ++ (s, e) :: rs2)) (Some e) = true ∧
  has (add (inj (rs1 ++ (s, e) :: rs2)) (Some v)) (Some e) = false.
Proof.
  intros Hw Hv. rewrite add_inside by done.
  destruct (wf_app _ _ _ _ _ Hw) as (H1 & H2 & H3). split.
  - apply (has_inj 0); [done..|]. apply mem_elem. exists s, e.
    split; [apply elem_of_app; right; left|lia].
  - apply not_true_iff_false. intros Hh. apply (has_inj 0) in Hh; [|done|].
    + apply mem_elem in Hh as (s' & e' & Hin & ?). apply elem_of_app in Hin as [Hin|Hin].
      * rewrite Forall_forall in H3. specialize (H3 _ Hin). simpl in H3. lia.
      * apply elem_of_cons in Hin as [[= -> ->]|Hin]; [lia|].
        destruct (wf_elem _ _ _ _ H2 Hin). lia.
    + by apply (wf_truncate 0 rs1 rs2 s e v).
Qed.

Lemma add_inside_truncates_witness :
  has (inj ([] ++ [(1, 10)])) (Some 10) = true ∧
  has (add (inj ([] ++ [(1, 10)])) (Some 5)) (Some 10) = false.
Proof. apply (add_inside_truncates [] [] 1 10 5); simpl; lia. Defined.

(** ** The last missing range *)

Lemma wf_snoc b rs s e :
  wf b (rs ++ [(s, e)]) →
  wf b rs ∧ b < s ∧ s <= e ∧ Forall (λ '(s', e'), s' <= e' < s - 1) rs.
Proof.
  revert b. induction rs as [|[s0 e0] rs IH]; intros b; simpl.
  - intros (H1 & H2 & _). by split_and!.
  - intros (H1 & H2 & H3). destruct (IH _ H3) as (H4 & H5 & H6 & H7).
    split_and!; try done; [lia|]. apply Forall_cons. split; [lia|done].
Qed.

Lemma getLastMissingRange_snoc rs s e low high :
  getLastMissingRange (inj (rs ++ [(s, e)])) (Some low) (Some high) =
  if e <? high then Some (Some (Z.max low (e + 1)), Some high)
  else if (low <? s) && (s <? high)
  then getLastMissingRange (inj rs) (Some low) (Some (s - 1))
  else None.
Proof. unfold getLastMissingRange, inj. by rewrite map_app, rev_app_distr. Qed.

Definition missing_ok (rs : list (Z * Z)) (low high a b : Z) : Prop :=
  low <= a ∧ a <= b ∧ b <= high ∧
  (∀ v, a <= v <= b → ¬ mem rs v) ∧ (∀ v, b < v <= high → mem rs v) ∧
  (a = low ∨ mem rs (a - 1)).

Lemma mem_snoc rs s e v : mem (rs ++ [(s, e)]) v ↔ mem rs v ∨ s <= v <= e.
Proof. unfold mem. by rewrite Exists_app, Exists_cons, Exists_nil, (right_id False or). Qed.

Lemma mem_below rs s v :
  Forall (λ '(s', e'), s' <= e' < s - 1) rs → mem rs v → v < s - 1.
Proof.
  intros Hf (s' & e' & Hin & ?)%mem_elem. rewrite Forall_forall in Hf.
  specialize (Hf _ Hin). simpl in Hf. lia.
Qed.

(** The gap before [high] when every range ends before it. *)
Lemma missing_tail rs s high low :
  wf 0 rs → Forall (λ '(s', e'), s' <= e' < s - 1) rs → low <= high → s - 1 = high →
  ∃ a, getLastMissingRange (inj rs) (Some low) (Some high) = Some (Some a, Some high) ∧
       missing_ok rs low high a high.
Proof.
  intros Hw Hf Hlh Hs. destruct rs as [|[s0 e0] rs _] using rev_ind.
  - exists low. split; [done|]. split_and!; try lia; try (by left).
    by intros v _ (?&?&?%elem_of_nil&?)%mem_elem.
  - rewrite getLastMissingRange_snoc. apply Forall_app in Hf as [Hf1 Hf2].
    apply Forall_cons_1 in Hf2 as [Hf2 _].
    apply wf_snoc in Hw as (Hw1 & Hw2 & Hw3 & Hw4).
    destruct (Z.ltb_spec e0 high); [|lia]. exists (Z.max low (e0 + 1)).
    split; [done|]. split_and!; try lia.
    + intros v Hv [Hm|?]%mem_snoc; [|lia]. apply (mem_below _ _ _ Hw4) in Hm. lia.
    + destruct (Z.le_gt_cases (e0 + 1) low); [left; lia|right].
      apply mem_snoc. lia.
Qed.

Lemma getLastMissingRange_spec rs low high :
  wf 0 rs → low <= high →
  match getLastMissingRange (inj rs) (Some low) (Some high) with
  | Some (a, b) => ∃ x y, a = Some x ∧ b = Some y ∧ missing_ok rs low high x y
  | None => (∀ v, low <= v <= high → mem rs v) ∨
            ∃ rs' s e, rs = rs' ++ [(s, e)] ∧ low < s ∧ high <= s
  end.
Proof.
  intros Hw Hlh. destruct rs as [|[s e] rs _] using rev_ind.
  - simpl. exists low, high. do 2 (split; [done|]). split_and!; try lia; try (by left).
    by intros v _ (?&?&?%elem_of_nil&?)%mem_elem.
  - rewrite getLastMissingRange_snoc. pose proof Hw as (Hw1 & Hw2 & Hw3 & Hw4)%wf_snoc.
    destruct (Z.ltb_spec e high) as [He|He].
    { exists (Z.max low (e + 1)), high. do 2 (split; [done|]). split_and!; try lia.
      - intros v Hv [Hm|?]%mem_snoc; [|lia]. apply (mem_below _ _ _ Hw4) in Hm. lia.
      - destruct (Z.le_gt_cases (e + 1) low); [left; lia|right]. apply mem_snoc. lia. }
    destruct (Z.ltb_spec low s) as [Hl|Hl], (Z.ltb_spec s high) as [Hs|Hs]; simpl.
    + destruct (missing_tail rs s (s - 1) low Hw1 Hw4) as (a & -> & H1 & H2 & H3 & H4 & H5 & H6);
        [lia..|]. exists a, (s - 1). do 2 (split; [done|]). split_and!; try lia.
      * intros v Hv [Hm|?]%mem_snoc; [by apply (H4 v)|lia].
      * intros v Hv. apply mem_snoc. lia.
      * destruct H6 as [->|H6]; [by left|right]. apply mem_snoc. by left.
    + right. by exists rs, s, e.
    + left. intros v Hv. apply mem_snoc. lia.
    + left. intros v Hv. apply mem_snoc. lia.
Qed.

(** On a well-formed set, [getLastMissingRange] answers with the highest
    maximal range of [low..high] that is missing from the set, unless the last
    range of the set starts at or above [high] while [low] is below it; in that
    case, and when nothing is missing, it answers with the empty array. *)
Theorem getLastMissingRange_correct rs low high :
  wf 0 rs → low <= high →
  match getLastMissingRange (inj rs) (Some low) (Some high) with
  | Some (a, b) => ∃ x y, a = Some x ∧ b = Some y ∧ missing_ok rs low high x y
  | None => (∀ v, low <= v <= high → mem rs v) ∨
            ∃ rs' s e, rs = rs' ++ [(s, e)] ∧ low < s ∧ high <= s
  end.
Proof. apply getLastMissingRange_spec. Qed.

Lemma getLastMissingRange_correct_witness :
  match getLastMissingRange (inj [(2, 9); (12, 29)]) (Some 1) (Some 28) with
  | Some (a, b) => ∃ x y, a = Some x ∧ b = Some y ∧ missing_ok [(2, 9); (12, 29)] 1 28 x y
  | None => (∀ v, 1 <= v <= 28 → mem [(2, 9); (12, 29)] v) ∨
            ∃ rs' s e, [(2, 9); (12, 29)] = rs' ++ [(s, e)] ∧ 1 < s ∧ 28 <= s
  end.
Proof. apply (getLastMissingRange_correct [(2, 9); (12, 29)] 1 28); simpl; lia. Defined.

(** ** The string representation *)

Lemma toString_part s e :
  0 < s → s <= e →
  parse_part (if neq (Some s) (Some e) then nstr (Some s)
              else nstr (Some s) ++ [45] ++ nstr (Some e)) = (Some s, Some e).
Proof.
  intros Hs He. unfold parse_part, neq, nstr.
  assert (Hn : ∀ n, 0 <= n → 45 ∉ num_str n) by (intros; by apply num_str_not_elem).
  destruct (Z.eqb_spec s e) as [<-|Hne].
  - rewrite split_on_none by (apply Hn; lia). simpl. by rewrite toNumber_num_str by lia.
  - change (num_str s ++ [45] ++ num_str e) with (num_str s ++ 45 :: num_str e).
    rewrite split_on_app by (apply Hn; lia). rewrite split_on_none by (apply Hn; lia).
    simpl. rewrite !toNumber_num_str by lia.
    destruct e; [lia|done|lia].
Qed.

Lemma num_str_cons n : 0 <= n → ∃ c t, num_str n = c :: t.
Proof. intros H%num_str_spec. destruct (num_str n); naive_solver. Qed.

Lemma join_truthy sep c t ws : str_truthy (join sep ((c :: t) :: ws)) = true.
Proof. by destruct ws. Qed.

Lemma toString_parse rs :
  wf 0 rs → MsgKeySet (toString (inj rs)) = inj rs.
Proof.
  intros Hw. destruct rs as [|[s0 e0] rs0]; [done|].
  set (rs := (s0, e0) :: rs0) in *.
  assert (Hp : Forall (λ '(s, e), 0 < s ∧ s <= e) rs).
  { apply Forall_forall. intros [s e] Hin. by apply (wf_elem 0 rs). }
  assert (Ht : str_truthy (toString (inj rs)) = true).
  { apply Forall_cons_1 in Hp as [[Hs He] _].
    unfold toString, rs. cbn [inj map neq nstr].
    destruct (num_str_cons s0) as (c & t & ->); [lia|].
    destruct (s0 =? e0); apply join_truthy. }
  unfold MsgKeySet. rewrite Ht. unfold toString. rewrite split_join.
  - rewrite map_map. clear Ht Hw. unfold inj. rewrite !map_map.
    apply map_ext_in. intros [s e] Hin%list_elem_of_In.
    rewrite Forall_forall in Hp. apply toString_part; by apply (Hp (s, e)).
  - done.
  - apply Forall_map, Forall_map. eapply Forall_impl; [exact Hp|].
    intros [s e] [Hs He]. simpl.
    assert (Hn : ∀ n, 0 <= n → 44 ∉ num_str n) by (intros; by apply num_str_not_elem).
    destruct (s =? e); [apply Hn; lia|].
    rewrite elem_of_app, elem_of_cons. intros [H|[H|H]]; [|done|].
    + apply (Hn s); [lia|done].
    + apply (Hn e); [lia|done].
Qed.

(** C39. The newsrc string of a well-formed set parses back to the same set. *)
Theorem toString_roundtrip rs :
  wf 0 rs → MsgKeySet (toString (inj rs)) = inj rs.
Proof. apply toString_parse. Qed.

Lemma toString_roundtrip_witness :
  MsgKeySet (toString (inj [(1, 29627); (29635, 29635)])) = inj [(1, 29627); (29635, 29635)].
Proof. apply (toString_roundtrip [(1, 29627); (29635, 29635)]); simpl; lia. Defined.
