(* ===== verification/MimeUtils.v ===== *)
(** * MimeUtils: binary strings and transfer decoders

    [decode_qp], [decode_base64] and the typed-array conversions of
    mailnews/mime/jsmime/jsmime.mjs ([JsMIMEmimeutils]) and the byte-string
    helpers of mailnews/base/src/MailStringUtils.sys.mjs.  [btoa] and [atob]
    are the platform's functions of those names on byte strings, [atob] being
    the forgiving decoder without the white space step (its argument here never
    contains white space).  A regular-expression replacement is a left-to-right
    scan whose [skip] argument counts the characters the last match consumed. *)

From S2P Require Import Prelude.

(** ** Typed arrays *)

(** [arr[i] = n] on a [Uint8Array] keeps the low eight bits. *)
Definition to_uint8 (c : Z) : Z := c mod 256.

Definition stringToTypedArray (buffer : jsstr) : list Z := map to_uint8 buffer.

(** The loop that converts [step] elements per round. *)
Fixpoint chunk_loop (fuel step : nat) (buffer : list Z) : jsstr :=
  match fuel with
  | O => []
  | S f =>
      match buffer with
      | [] => []
      | _ => take step buffer ++ chunk_loop f step (drop step buffer)
      end
  end.

Definition typedArrayToString (buffer : list Z) : jsstr :=
  chunk_loop (length buffer) 100 buffer.

Definition byteStringToUint8Array (str : jsstr) : list Z := map to_uint8 str.
Definition uint8ArrayToByteString (arr : list Z) : jsstr :=
  chunk_loop (length arr) (Z.to_nat 65536) arr.

(** The byte-order-mark part of [detectCharset]; [detect] is the external
    detector used when there is none. *)
Definition detectCharset (detect : jsstr → jsstr) (str : jsstr) : jsstr :=
  let charset :=
    if (2 <=? slen str) then
      let at_is (i : nat) b := bool_decide (str !! i = Some b) in
      if at_is 0%nat 254 && at_is 1%nat 255 then js "UTF-16BE"
      else if at_is 0%nat 255 && at_is 1%nat 254 then js "UTF-16LE"
      else if at_is 0%nat 239 && at_is 1%nat 187 && at_is 2%nat 191 then js "UTF-8"
      else []
    else [] in
  if str_truthy charset then charset else detect str.

(** ** Quoted-printable *)

(** The value of a hexadecimal digit, in either case. *)
Definition hex_val (c : Z) : option Z :=
  if (48 <=? c) && (c <=? 57) then Some (c - 48)
  else if (65 <=? c) && (c <=? 70) then Some (c - 55)
  else if (97 <=? c) && (c <=? 102) then Some (c - 87)
  else None.

(** [[ \t]*(\r\n|[\r\n]|$)] at the start of the string: the length matched. *)
Fixpoint soft_break (s : jsstr) : option nat :=
  match s with
  | [] => Some 0%nat
  | c :: s' =>
      if (c =? 32) || (c =? 9) then S <$> soft_break s'
      else if c =? CR then
        Some (match s' with d :: _ => if d =? LF then 2%nat else 1%nat | [] => 1%nat end)
      else if c =? LF then Some 1%nat
      else None
  end.

(** What follows an [=]: the replacement and the number of characters consumed. *)
Definition match_eq (s : jsstr) : option (jsstr * nat) :=
  match s with
  | a :: b :: _ =>
      match hex_val a, hex_val b with
      | Some x, Some y => Some ([16 * x + y], 2%nat)
      | _, _ => (λ n, ([], n)) <$> soft_break s
      end
  | _ => (λ n, ([], n)) <$> soft_break s
  end.

Fixpoint decode_qp_scan (skip : nat) (s : jsstr) : jsstr :=
  match s with
  | [] => []
  | c :: s' =>
      match skip with
      | S k => decode_qp_scan k s'
      | O =>
          if c =? 61 then
            match match_eq s' with
            | Some (r, n) => r ++ decode_qp_scan n s'
            | None => c :: decode_qp_scan 0 s'
            end
          else c :: decode_qp_scan 0 s'
      end
  end.

Definition decode_qp (buffer : jsstr) : jsstr * jsstr := (decode_qp_scan 0 buffer, []).

(** ** Base64 *)

Definition B64_ALPHABET : jsstr :=
  js "ABCDEFGHIJKLMNOPQRSTUVWXYZabcdefghijklmnopqrstuvwxyz0123456789+/".

Definition b64_char (n : Z) : Z := nth (Z.to_nat n) B64_ALPHABET 0.

Definition b64_val (c : Z) : option Z :=
  if (65 <=? c) && (c <=? 90) then Some (c - 65)
  else if (97 <=? c) && (c <=? 122) then Some (c - 71)
  else if (48 <=? c) && (c <=? 57) then Some (c + 4)
  else if c =? 43 then Some 62
  else if c =? 47 then Some 63
  else None.

Definition is_b64 (c : Z) : bool := match b64_val c with Some _ => true | None => false end.

(** [btoa] on byte strings. *)
Fixpoint btoa (s : jsstr) : jsstr :=
  match s with
  | a :: b :: c :: s' =>
      [b64_char (a / 4); b64_char (a mod 4 * 16 + b / 16);
       b64_char (b mod 16 * 4 + c / 64); b64_char (c mod 64)] ++ btoa s'
  | [a; b] => [b64_char (a / 4); b64_char (a mod 4 * 16 + b / 16);
               b64_char (b mod 16 * 4); 61]
  | [a] => [b64_char (a / 4); b64_char (a mod 4 * 16); 61; 61]
  | [] => []
  end.

(** The groups of four of [atob], after its padding has been removed; [None] is
    the [InvalidCharacterError] it throws. *)
Fixpoint atob_groups (s : jsstr) : option jsstr :=
  match s with
  | p :: q :: r :: t :: s' =>
      match b64_val p, b64_val q, b64_val r, b64_val t, atob_groups s' with
      | Some w, Some x, Some y, Some z, Some rest =>
          Some ([w * 4 + x / 16; x mod 16 * 16 + y / 4; y mod 4 * 64 + z] ++ rest)
      | _, _, _, _, _ => None
      end
  | [p; q; r] =>
      match b64_val p, b64_val q, b64_val r with
      | Some w, Some x, Some y => Some [w * 4 + x / 16; x mod 16 * 16 + y / 4]
      | _, _, _ => None
      end
  | [p; q] =>
      match b64_val p, b64_val q with
      | Some w, Some x => Some [w * 4 + x / 16]
      | _, _ => None
      end
  | [_] => None
  | [] => Some []
  end.

Definition atob (s : jsstr) : option jsstr :=
  let s :=
    if (slen s mod 4 =? 0) then
      if endsWith s [61; 61] then slice s 0 (-2)
      else if endsWith s [61] then slice s 0 (-1) else s
    else s in
  atob_groups s.

(** [replace(/=+([A-Za-z0-9+\/])/g, "$1")]: drops the runs of [=] that a
    base64 character follows. *)
Fixpoint drop_inner_pad (s : jsstr) : jsstr :=
  match s with
  | [] => []
  | c :: s' =>
      if (c =? 61) && negb (forallb (λ d, d =? 61) s') then drop_inner_pad s'
      else c :: drop_inner_pad s'
  end.

(** [replace(/(====)+$/g, "")]: drops whole groups of padding from the end. *)
Fixpoint drop_pad_groups (rs : jsstr) : jsstr :=
  match rs with
  | 61 :: 61 :: 61 :: 61 :: rs' => drop_pad_groups rs'
  | _ => rs
  end.

Definition decode_base64 (buffer : jsstr) (more : bool) : option (jsstr * jsstr) :=
  let sanitize := filter (λ c, is_b64 c || (c =? 61) = true) buffer in
  let sanitize := drop_inner_pad sanitize in
  let excess := slen sanitize mod 4 in
  let buffer := if negb (excess =? 0) && more then slice_from sanitize (- excess) else [] in
  let sanitize := substring sanitize 0 (slen sanitize - excess) in
  let sanitize := rev (drop_pad_groups (rev sanitize)) in
  (λ d, (d, buffer)) <$> atob sanitize.

(** ** Typed-array lemmas *)

Lemma chunk_loop_id fuel step (l : list Z) :
  (0 < step)%nat → (length l ≤ fuel)%nat → chunk_loop fuel step l = l.
Proof.
  intros Hs. revert l. induction fuel as [|f IH]; intros l Hl.
  - by destruct l; simpl in Hl; [|lia].
  - destruct l as [|x l]; [done|]. cbn [chunk_loop]. rewrite IH.
    + apply take_drop.
    + rewrite length_drop. simpl in *. lia.
Qed.

Lemma to_uint8_bytes s : bytes s → map to_uint8 s = s.
Proof.
  unfold bytes. induction 1 as [|c s Hc Hs IH]; simpl; [done|].
  unfold to_uint8 at 1. rewrite Z.mod_small by done. by rewrite IH.
Qed.

(** A byte string survives the conversion to a typed array and back, with
    the chunked loops of jsmime (100 elements) and of MailStringUtils (65536). *)
Theorem typed_array_roundtrip s :
  bytes s →
  typedArrayToString (stringToTypedArray s) = s ∧
  uint8ArrayToByteString (byteStringToUint8Array s) = s.
Proof.
  intros Hs. unfold typedArrayToString, stringToTypedArray,
    uint8ArrayToByteString, byteStringToUint8Array.
  rewrite to_uint8_bytes by done. split; apply chunk_loop_id; lia.
Qed.

Lemma typed_array_roundtrip_witness :
  typedArrayToString (stringToTypedArray [0; 255; 65]) = [0; 255; 65] ∧
  uint8ArrayToByteString (byteStringToUint8Array [0; 255; 65]) = [0; 255; 65].
Proof. apply (typed_array_roundtrip [0; 255; 65]). repeat constructor; lia. Defined.

(** ** Base64 lemmas *)

(** A decidable fact about the numbers below [n] is checked by evaluation. *)
Lemma below_forall (P : Z → bool) (n : nat) :
  forallb P (map Z.of_nat (seq 0 n)) = true →
  ∀ c, 0 <= c < Z.of_nat n → P c = true.
Proof.
  rewrite forallb_forall. intros H c Hc. apply H. apply in_map_iff.
  exists (Z.to_nat c). split; [lia|]. apply in_seq. lia.
Qed.

Lemma b64_val_char n : 0 <= n < 64 → b64_val (b64_char n) = Some n.
Proof.
  intros Hn.
  apply (below_forall (λ n, bool_decide (b64_val (b64_char n) = Some n)) 64) in Hn;
    [by apply bool_decide_eq_true in Hn|by vm_compute].
Qed.

Lemma is_b64_char n : 0 <= n < 64 → is_b64 (b64_char n) = true.
Proof. intros Hn. unfold is_b64. by rewrite b64_val_char. Qed.

Lemma three_ind (P : jsstr → Prop) :
  P [] → (∀ a, P [a]) → (∀ a b, P [a; b]) →
  (∀ a b c s, P s → P (a :: b :: c :: s)) → ∀ s, P s.
Proof.
  intros H0 H1 H2 H3. fix IH 1.
  intros [|a [|b [|c s]]]; [exact H0|apply H1|apply H2|apply H3, IH].
Qed.

Ltac div_lia := Z.to_euclidean_division_equations; lia.

(** The shape of the encoder's output. *)
Lemma btoa_shape s :
  bytes s →
  ∃ core pad, btoa s = core ++ pad ∧ Forall (λ c, is_b64 c = true) core ∧
    (pad = [] ∨ pad = [61] ∨ pad = [61; 61]) ∧
    (∃ k, length (btoa s) = (4 * k)%nat) ∧ atob_groups core = Some s.
Proof.
  unfold bytes. induction s as [|a|a b|a b c s IH] using three_ind; intros Hs.
  - exists [], []. split_and!; [done|done|by left|by exists 0%nat|done].
  - decompose_Forall. exists [b64_char (a / 4); b64_char (a mod 4 * 16)], [61; 61].
    split_and!; [done| |by right; right|by exists 1%nat|].
    + repeat constructor; apply is_b64_char; div_lia.
    + simpl. rewrite !b64_val_char by div_lia. do 2 f_equal. div_lia.
  - decompose_Forall.
    exists [b64_char (a / 4); b64_char (a mod 4 * 16 + b / 16); b64_char (b mod 16 * 4)], [61].
    split_and!; [done| |by right; left|by exists 1%nat|].
    + repeat constructor; apply is_b64_char; div_lia.
    + simpl. rewrite !b64_val_char by div_lia. repeat f_equal; div_lia.
  - decompose_Forall. destruct IH as (core & pad & E & Hc & Hp & [k Hk] & Ha); [done|].
    exists ([b64_char (a / 4); b64_char (a mod 4 * 16 + b / 16);
             b64_char (b mod 16 * 4 + c / 64); b64_char (c mod 64)] ++ core), pad.
    split_and!; [by cbn [btoa]; rewrite E| |done| |].
    + repeat constructor; try done; apply is_b64_char; div_lia.
    + exists (S k). cbn [btoa length app]. lia.
    + cbn [app atob_groups]. rewrite !b64_val_char, Ha by div_lia.
      cbn [app]. repeat f_equal; div_lia.
Qed.

Lemma b64_not_pad c : is_b64 c = true → c ≠ 61.
Proof. intros H ->. discriminate H. Qed.

Lemma core_no_pad_end core p :
  Forall (λ c, is_b64 c = true) core → endsWith core (p ++ [61]) = false.
Proof.
  intros Hc. destruct (endsWith core (p ++ [61])) eqn:E; [|done].
  apply endsWith_true in E as [r ->]. rewrite !Forall_app in Hc.
  destruct Hc as (_ & _ & Hc). apply Forall_cons_1 in Hc as [Hc _]. discriminate Hc.
Qed.

Lemma atob_core core pad s :
  Forall (λ c, is_b64 c = true) core →
  pad = [] ∨ pad = [61] ∨ pad = [61; 61] →
  (∃ k, length (core ++ pad) = (4 * k)%nat) →
  atob_groups core = Some s → atob (core ++ pad) = Some s.
Proof.
  intros Hc Hp [k Hk] Ha. unfold atob.
  assert (E : (slen (core ++ pad) mod 4 =? 0) = true).
  { unfold slen. rewrite Hk. apply Z.eqb_eq. div_lia. }
  rewrite E. destruct Hp as [->|[->| ->]].
  - rewrite app_nil_r. pose proof (core_no_pad_end core [61] Hc) as H2.
    pose proof (core_no_pad_end core [] Hc) as H1. cbn [app] in H1, H2. by rewrite H1, H2.
  - destruct (endsWith (core ++ [61]) [61; 61]) eqn:E2.
    + apply endsWith_true in E2 as [r Hr]. exfalso.
      assert (Hcr : core = r ++ [61]).
      { change [61; 61] with ([61] ++ [61]) in Hr. rewrite (assoc_L (++)) in Hr.
        by apply app_inj_tail in Hr as [-> _]. }
      pose proof (core_no_pad_end core [] Hc) as Hn. rewrite Hcr in Hn.
      by rewrite endsWith_app in Hn.
    + rewrite endsWith_app. by rewrite (slice_0_neg _ [61] 1) by (done || lia).
  - rewrite endsWith_app. by rewrite (slice_0_neg _ [61; 61] 2) by (done || lia).
Qed.

Lemma drop_inner_pad_core core pad :
  Forall (λ c, is_b64 c = true) core → Forall (eq 61) pad →
  drop_inner_pad (core ++ pad) = core ++ pad.
Proof.
  intros Hc Hp. induction Hc as [|c core Hc _ IH]; simpl.
  - induction Hp as [|p pad <- Hp IH]; [done|]. simpl.
    rewrite (proj2 (forallb_forall _ _)); [by rewrite IH|].
    intros d Hd%list_elem_of_In. rewrite Forall_forall in Hp.
    by rewrite <- (Hp d).
  - rewrite IH. by rewrite (proj2 (Z.eqb_neq c 61)) by by apply b64_not_pad.
Qed.

Lemma drop_pad_groups_core core pad :
  Forall (λ c, is_b64 c = true) core →
  pad = [] ∨ pad = [61] ∨ pad = [61; 61] →
  drop_pad_groups (rev (core ++ pad)) = rev (core ++ pad).
Proof.
  intros Hc Hp. rewrite rev_app_distr.
  assert (Hr : Forall (λ c, is_b64 c = true) (rev core)) by by apply Forall_rev.
  assert (Hno : ∀ l, Forall (λ c, is_b64 c = true) l → drop_pad_groups l = l ∧
            drop_pad_groups (61 :: l) = 61 :: l ∧ drop_pad_groups (61 :: 61 :: l) = 61 :: 61 :: l).
  { intros l Hl. destruct l as [|x l]; [done|]. apply Forall_cons_1 in Hl as [Hx _].
    apply b64_not_pad in Hx.
    destruct x as [|p|p]; try done. do 6 (destruct p as [p|p|]; try done). }
  destruct (Hno _ Hr) as (H1 & H2 & H3). by destruct Hp as [->|[->| ->]].
Qed.

(** Whatever is mixed in that is neither a base64 character nor padding is
    ignored. *)
Lemma decode_base64_btoa t s :
  bytes s → filter (λ c, is_b64 c || (c =? 61) = true) t = btoa s →
  decode_base64 t false = Some (s, []).
Proof.
  intros Hs Ht. destruct (btoa_shape s Hs) as (core & pad & E & Hc & Hp & Hk & Ha).
  unfold decode_base64. rewrite Ht, E, drop_inner_pad_core.
  2: done.
  2: { destruct Hp as [->|[->| ->]]; repeat constructor. }
  rewrite E in Hk. pose proof Hk as [k Hk'].
  assert (Hx : slen (core ++ pad) mod 4 = 0) by (unfold slen; rewrite Hk'; div_lia).
  rewrite Hx, Z.sub_0_r, andb_false_r.
  assert (Hsub : substring (core ++ pad) 0 (slen (core ++ pad)) = core ++ pad).
  { apply substring_full. }
  rewrite Hsub, drop_pad_groups_core by done.
  rewrite rev_involutive. by erewrite atob_core.
Qed.

(** ** Quoted-printable lemmas *)

Lemma decode_qp_cons c s : c ≠ 61 → decode_qp_scan 0 (c :: s) = c :: decode_qp_scan 0 s.
Proof. intros Hc. simpl. by destruct (Z.eqb_spec c 61). Qed.

Lemma decode_qp_hex a b x y s :
  hex_val a = Some x → hex_val b = Some y →
  decode_qp_scan 0 (61 :: a :: b :: s) = (16 * x + y) :: decode_qp_scan 0 s.
Proof.
  intros Ha Hb. cbn [decode_qp_scan]. rewrite Z.eqb_refl. cbn [match_eq].
  by rewrite Ha, Hb.
Qed.

Lemma decode_qp_soft s : decode_qp_scan 0 (61 :: CRLF ++ s) = decode_qp_scan 0 s.
Proof. by destruct s. Qed.
