(* ===== verification/MimeEncoder.v ===== *)
(** * MimeEncoder: choosing and applying a transfer encoding

    mailnews/compose/src/MimeEncoder.sys.mjs.  The constructor's fields are a
    record, [_analyzeBody] a fold over the body, [pickEncoding] the choice of
    encoding and [encode] its application.  The preferences and the charset
    manager, which are not part of the repository's JavaScript, are the fields
    of [prefs].  The quoted-printable loop walks the suffix of the body from
    its index. *)

From S2P Require Import Prelude MimeUtils.

Definition LINELENGTH_ENCODING_THRESHOLD : Z := 990.
Definition MESSAGE_RFC822 : jsstr := js "message/rfc822".

Record prefs := mkPrefs {
  strictly_mime : bool;            (* mail.strictly_mime *)
  file_attach_binary : bool;       (* mail.file_attach_binary *)
  send_plaintext_flowed : bool;    (* mailnews.send_plaintext_flowed *)
  isMultibyte : jsstr → bool       (* getCharsetData(charset, ".isMultibyte") == "true";
                                      false when it throws *)
}.

Record MimeEncoder := mkMimeEncoder {
  _charset : jsstr;
  _contentType : jsstr;
  _forceMsgEncoding : bool;
  _isMainBody : bool;
  _body : jsstr
}.

(** The constructor, without the result fields. *)
Definition newMimeEncoder (charset contentType : jsstr)
    (forceMsgEncoding isMainBody : bool) (content : jsstr) : MimeEncoder :=
  mkMimeEncoder charset (toLowerCase contentType) forceMsgEncoding isMainBody content.

Definition _bodySize (m : MimeEncoder) : Z := slen (_body m).

(** ** Analysis of the body *)

(** The flags used to pick an encoding, and the two locals of the loop. *)
Record analysis := mkAnalysis {
  _highBitCount : Z;
  _unPrintableCount : Z;
  _ctrlCount : Z;
  _nullCount : Z;
  _hasCr : Z;
  _hasLf : Z;
  _hasCrLf : Z;
  _maxColumn : Z;
  currentColumn : Z;
  prevCharWasCr : bool
}.

Definition analysis0 : analysis := mkAnalysis 0 0 0 0 0 0 0 0 0 false.

(** The first conditional of the loop: the counters. *)
Definition count_char (a : analysis) (c : Z) : analysis :=
  if 126 <? c then
    mkAnalysis (_highBitCount a + 1) (_unPrintableCount a + 1) (_ctrlCount a) (_nullCount a)
      (_hasCr a) (_hasLf a) (_hasCrLf a) (_maxColumn a) (currentColumn a) (prevCharWasCr a)
  else if (c <? 32) && negb ((c =? 9) || (c =? CR) || (c =? LF)) then
    mkAnalysis (_highBitCount a) (_unPrintableCount a + 1) (_ctrlCount a + 1)
      (if c =? 0 then _nullCount a + 1 else _nullCount a)
      (_hasCr a) (_hasLf a) (_hasCrLf a) (_maxColumn a) (currentColumn a) (prevCharWasCr a)
  else a.

(** The second conditional: line ends and columns. *)
Definition track_line (a : analysis) (c : Z) : analysis :=
  if (c =? CR) || (c =? LF) then
    let '(cr, lf, crlf, prev) :=
      if c =? CR then
        if prevCharWasCr a then (1, _hasLf a, _hasCrLf a, true)
        else (_hasCr a, _hasLf a, _hasCrLf a, true)
      else if prevCharWasCr a then
        if currentColumn a =? 0 then (_hasCr a, _hasLf a, 1, false)
        else (1, 1, _hasCrLf a, false)
      else (_hasCr a, 1, _hasCrLf a, false) in
    mkAnalysis (_highBitCount a) (_unPrintableCount a) (_ctrlCount a) (_nullCount a)
      cr lf crlf
      (if _maxColumn a <? currentColumn a then currentColumn a else _maxColumn a) 0 prev
  else
    mkAnalysis (_highBitCount a) (_unPrintableCount a) (_ctrlCount a) (_nullCount a)
      (_hasCr a) (_hasLf a) (_hasCrLf a) (_maxColumn a) (currentColumn a + 1) (prevCharWasCr a).

Definition analyze_step (a : analysis) (c : Z) : analysis := track_line (count_char a c) c.

Definition _analyzeBody (m : MimeEncoder) : analysis :=
  let a := fold_left analyze_step (_body m) analysis0 in
  if _maxColumn a <? currentColumn a then
    mkAnalysis (_highBitCount a) (_unPrintableCount a) (_ctrlCount a) (_nullCount a)
      (_hasCr a) (_hasLf a) (_hasCrLf a) (currentColumn a) (currentColumn a) (prevCharWasCr a)
  else a.

(** ** Content types *)

Definition typesWhichAreReallyText : list jsstr :=
  [js "application/mac-binhex40"; js "application/pgp"; js "application/pgp-keys";
   js "application/x-pgp-message"; js "application/postscript"; js "application/x-uuencode";
   js "application/x-uue"; js "application/uue"; js "application/uuencode";
   js "application/sgml"; js "application/x-csh"; js "application/javascript";
   js "application/ecmascript"; js "application/x-javascript"; js "application/x-latex";
   js "application/x-macbinhex40"; js "application/x-ns-proxy-autoconfig";
   js "application/x-www-form-urlencoded"; js "application/x-perl"; js "application/x-sh";
   js "application/x-shar"; js "application/x-tcl"; js "application/x-tex";
   js "application/x-texinfo"; js "application/x-troff"; js "application/x-troff-man";
   js "application/x-troff-me"; js "application/x-troff-ms"; js "application/x-troff-ms";
   js "application/x-wais-source"; js "image/x-bitmap"; js "image/x-pbm"; js "image/x-pgm";
   js "image/x-portable-anymap"; js "image/x-portable-bitmap"; js "image/x-portable-graymap";
   js "image/x-portable-pixmap"; js "image/x-ppm"; js "image/x-xbitmap"; js "image/x-xbm";
   js "image/xbm"; js "image/x-xpixmap"; js "image/x-xpm"].

Definition list_includes (l : list jsstr) (s : jsstr) : bool := existsb (jseq s) l.

Definition _requiresB64 (m : MimeEncoder) : bool :=
  if _contentType m ==s js "application/x-unknown-content-type" then false
  else if startsWith (_contentType m) (js "image/") || startsWith (_contentType m) (js "audio/")
          || startsWith (_contentType m) (js "video/")
          || startsWith (_contentType m) (js "application/")
  then negb (list_includes typesWhichAreReallyText (_contentType m))
  else false.

(** ** Picking the encoding *)

Definition ENC_7BIT : jsstr := js "7bit".
Definition ENC_8BIT : jsstr := js "8bit".
Definition ENC_QP : jsstr := js "quoted-printable".
Definition ENC_B64 : jsstr := js "base64".

(** The [else] branch of the first conditional: [needsB64], [isUsingQP] and the
    encoding. *)
Definition pick_by_content (p : prefs) (m : MimeEncoder) (a : analysis) : bool * bool * jsstr :=
  let forced :=
    _forceMsgEncoding m || (LINELENGTH_ENCODING_THRESHOLD <? _maxColumn a)
    || (strictly_mime p && negb (_unPrintableCount a =? 0)) || negb (_nullCount a =? 0) in
  let flowed :=
    _isMainBody m && (_contentType m ==s js "text/plain") && send_plaintext_flowed p in
  let needsB64 := forced && flowed in
  let encodeP :=
    forced && negb flowed
    && negb (startsWith (_contentType m) (js "message")
             || startsWith (_contentType m) (js "multipart")) in
  if negb (_isMainBody m) && str_truthy (_charset m) && isMultibyte p (_charset m)
     && (startsWith (_contentType m) (js "text")
         || (_contentType m ==s js "application/directory"))
  then (true, false, [])
  else if _charset m ==s js "ISO-2022-JP" then (needsB64, false, ENC_7BIT)
  else if encodeP && (_bodySize m <? 10 * _unPrintableCount a) then (true, false, [])
  else if encodeP then (needsB64, true, ENC_QP)
  else if 0 <? _highBitCount a then (needsB64, false, ENC_8BIT)
  else (needsB64, false, ENC_7BIT).

Definition pickEncoding (p : prefs) (m : MimeEncoder) : jsstr :=
  let a := _analyzeBody m in
  let '(needsB64, isUsingQP, encoding) :=
    if negb (_isMainBody m)
       && (file_attach_binary p || _requiresB64 m
           || negb (_hasCr a + _hasLf a + _hasCrLf a =? 1))
       && negb (_contentType m ==s MESSAGE_RFC822)
    then (true, false, [])
    else pick_by_content p m a in
  let encoding := if needsB64 : bool then ENC_B64 else encoding in
  if negb (_contentType m ==s MESSAGE_RFC822)
     && (LINELENGTH_ENCODING_THRESHOLD <? _maxColumn a) && negb isUsingQP
  then ENC_B64 else encoding.

(** ** Base64 *)

(** The [while (true)] loop, from index [i]. *)
Fixpoint b64_lines (fuel : nat) (encoded : jsstr) (i : Z) : jsstr :=
  match fuel with
  | O => []
  | S f =>
      if slen encoded <? i * 72 then []
      else slice encoded (i * 72) (i * 72 + 72) ++ CRLF ++ b64_lines f encoded (i + 1)
  end.

Definition _encodeBase64 (m : MimeEncoder) : jsstr :=
  let encoded := btoa (_body m) in
  b64_lines (S (S (length encoded))) encoded 0.

(** ** Quoted-printable *)

Definition hexdigits : jsstr := js "0123456789ABCDEF".

(** [hexdigits[n]], [undefined] when out of range. *)
Definition hexdigit (n : Z) : jsstr :=
  match charAt hexdigits n with Some c => [c] | None => js "undefined" end.

Definition encodeChar (c : Z) : jsstr :=
  [61] ++ hexdigit (Z.shiftr c 4) ++ hexdigit (Z.land c 15).

(** [i >= bodySize - k || body[i + k] == c], on what follows index [i]. *)
Definition may_be (s : jsstr) (k : nat) (c : Z) : bool :=
  match s !! k with None => true | Some d => d =? c end.

(** What the loop writes for a character [c] that does not end a line, [s']
    following it: the text, the columns it takes and the new [white]. *)
Definition qp_piece (c : Z) (s' : jsstr) (col : Z) : jsstr * Z * bool :=
  if (col =? 0)
     && ((c =? DOT)
         || ((c =? 70) && may_be s' 0 114 && may_be s' 1 111
             && may_be s' 2 109 && may_be s' 3 32))
  then (encodeChar c, 3, false)
  else if ((33 <=? c) && (c <=? 60)) || ((62 <=? c) && (c <=? 126)) then ([c], 1, false)
  else if (c =? 32) || (c =? 9) then ([c], 1, true)
  else (encodeChar c, 3, false).

(** Backs up over white space before a line end. *)
Definition qp_fix_white (white : bool) (out : jsstr) : jsstr :=
  if white then
    match last out with
    | Some w => slice out 0 (-1) ++ encodeChar w
    | None => out
    end
  else out.

(** The loop of [_encodeQP] on the rest of the body; [col] is [currentColumn]. *)
Fixpoint qp_loop (s : jsstr) (col : Z) (white : bool) (out : jsstr) : jsstr :=
  match s with
  | [] => out
  | c :: s' =>
      if (c =? CR) || (c =? LF) then
        let out := qp_fix_white white out ++ CRLF in
        match s' with
        | d :: s'' =>
            if (c =? CR) && (d =? LF) then qp_loop s'' 0 false out
            else qp_loop s' 0 false out
        | [] => out
        end
      else
        let '(piece, n, white) := qp_piece c s' col in
        if 73 <=? col + n then qp_loop s' 0 false (out ++ piece ++ [61] ++ CRLF)
        else qp_loop s' (col + n) white (out ++ piece)
  end.

Definition _encodeQP (m : MimeEncoder) : jsstr := qp_loop (_body m) 0 false [].

(** ** encode *)

Definition encode (m : MimeEncoder) (encoding : jsstr) : jsstr :=
  let output :=
    if encoding ==s ENC_B64 then _encodeBase64 m
    else if encoding ==s ENC_QP then _encodeQP m
    else replaceAll (replaceAll (_body m) CRLF [LF]) [LF] CRLF in
  if endsWith output CRLF then output else output ++ CRLF.

(** ** Base64: lines and round trip *)

Lemma b64_lines_spec fuel enc i :
  0 <= i → slen enc < (i + Z.of_nat fuel - 1) * 72 →
  ∃ ls, b64_lines fuel enc i = body ls ∧ Forall (λ l, (length l ≤ 72)%nat) ls ∧
        concat ls = drop (Z.to_nat (i * 72)) enc.
Proof.
  revert i. induction fuel as [|f IH]; intros i Hi Hf; cbn [b64_lines].
  - exists []. split_and!; [done..|]. unfold slen in Hf. rewrite drop_ge; [done|lia].
  - destruct (Z.ltb_spec (slen enc) (i * 72)) as [Hl|Hl].
    + exists []. split_and!; [done..|]. unfold slen in Hl. rewrite drop_ge; [done|lia].
    + destruct (IH (i + 1)) as (ls & -> & Hls & Hc); [lia..|].
      rewrite slice_nonneg by lia.
      replace (i * 72 + 72 - i * 72) with 72 by lia.
      exists (take (Z.to_nat 72) (drop (Z.to_nat (i * 72)) enc) :: ls).
      split_and!.
      * unfold body. simpl. by rewrite <- (assoc_L (++)).
      * apply Forall_cons. split; [|done]. rewrite length_take. lia.
      * simpl. rewrite Hc.
        replace (Z.to_nat ((i + 1) * 72)) with (Z.to_nat (i * 72) + Z.to_nat 72)%nat by lia.
        rewrite <- drop_drop. apply take_drop.
Qed.

Lemma encodeBase64_lines m :
  ∃ ls, _encodeBase64 m = body ls ∧ Forall (λ l, (length l ≤ 72)%nat) ls ∧
        concat ls = btoa (_body m).
Proof.
  unfold _encodeBase64.
  destruct (b64_lines_spec (S (S (length (btoa (_body m))))) (btoa (_body m)) 0)
    as (ls & -> & H1 & H2); [lia|unfold slen; lia|].
  by exists ls.
Qed.

Lemma filter_b64_body ls :
  filter (λ c, is_b64 c || (c =? 61) = true) (body ls)
  = filter (λ c, is_b64 c || (c =? 61) = true) (concat ls).
Proof.
  induction ls as [|l ls IH]; [done|].
  change (body (l :: ls)) with ((l ++ CRLF) ++ body ls). simpl.
  rewrite !filter_app, IH. change (filter _ CRLF) with ([] : jsstr). by rewrite app_nil_r.
Qed.

Lemma filter_b64_btoa s :
  bytes s → filter (λ c, is_b64 c || (c =? 61) = true) (btoa s) = btoa s.
Proof.
  intros Hs. destruct (btoa_shape s Hs) as (core & pad & -> & Hc & Hp & _).
  rewrite filter_app. f_equal.
  - clear Hp. induction Hc as [|c core Hc _ IH]; [done|].
    rewrite filter_cons_True; [by rewrite IH|]. by rewrite Hc.
  - by destruct Hp as [->|[->| ->]].
Qed.

(** The base64 text of a body is in lines of at most 72 characters and
    jsmime's decoder gives the body back, with nothing left over. *)
Theorem base64_roundtrip m :
  bytes (_body m) →
  decode_base64 (_encodeBase64 m) false = Some (_body m, []) ∧
  ∃ ls, _encodeBase64 m = body ls ∧ Forall (λ l, (length l ≤ 72)%nat) ls.
Proof.
  intros Hb. destruct (encodeBase64_lines m) as (ls & E & Hl & Hc). split; [|by eauto].
  apply decode_base64_btoa; [done|].
  rewrite E, filter_b64_body, Hc. by apply filter_b64_btoa.
Qed.

Lemma base64_roundtrip_witness :
  let m := newMimeEncoder [] (js "image/png") false false [137; 80; 78; 71; 0; 255] in
  decode_base64 (_encodeBase64 m) false = Some (_body m, []) ∧
  ∃ ls, _encodeBase64 m = body ls ∧ Forall (λ l, (length l ≤ 72)%nat) ls.
Proof.
  apply (base64_roundtrip
    (newMimeEncoder [] (js "image/png") false false [137; 80; 78; 71; 0; 255])).
  repeat constructor; lia.
Defined.

(** ** Quoted-printable: the invariant of the loop *)

(** A text and what it decodes to, built piece by piece. *)
Inductive QPText : jsstr → jsstr → Prop :=
  | qp_nil : QPText [] []
  | qp_raw out dec c : QPText out dec → c ≠ 61 → QPText (out ++ [c]) (dec ++ [c])
  | qp_hex out dec a b x y :
      QPText out dec → hex_val a = Some x → hex_val b = Some y →
      QPText (out ++ [61; a; b]) (dec ++ [16 * x + y])
  | qp_soft out dec : QPText out dec → QPText (out ++ [61] ++ CRLF) dec.

Lemma QPText_decode out dec rest :
  QPText out dec → decode_qp_scan 0 (out ++ rest) = dec ++ decode_qp_scan 0 rest.
Proof.
  intros H. revert rest.
  induction H as [|out dec c _ IH Hc|out dec a b x y _ IH Ha Hb|out dec _ IH];
    intros rest; [done|..]; rewrite <- !(assoc_L (++)), IH.
  - f_equal. by apply decode_qp_cons.
  - f_equal. by apply decode_qp_hex.
  - done.
Qed.

(** The line ends the encoder writes: CRLF for CRLF, CR and LF. *)
Fixpoint canon (s : jsstr) : jsstr :=
  match s with
  | [] => []
  | c :: s' =>
      if (c =? CR) || (c =? LF) then
        CRLF ++ match s' with
                | d :: s'' => if (c =? CR) && (d =? LF) then canon s'' else canon s'
                | [] => []
                end
      else c :: canon s'
  end.

Definition FROM_ : jsstr := js "From ".

(** The characters of an encoded line. *)
Definition safe (c : Z) : Prop := 32 <= c <= 126 ∨ c = 9.
Definition wsp (c : Z) : Prop := c = 32 ∨ c = 9.

Definition line_start_ok (l : jsstr) : Prop :=
  Forall safe l ∧ head l ≠ Some DOT ∧ ¬ FROM_ `prefix_of` l.

Definition line_ok (l : jsstr) : Prop :=
  line_start_ok l ∧ (length l ≤ 76)%nat ∧ ∀ w, last l = Some w → ¬ wsp w.

Record qp_inv (s : jsstr) (col : Z) (white : bool) (out dec : jsstr)
    (ls : list jsstr) (cur : jsstr) : Prop := {
  inv_text : QPText out dec;
  inv_out : out = body ls ++ cur;
  inv_lines : Forall line_ok ls;
  inv_col : Z.of_nat (length cur) = col;
  inv_max : col <= 72;
  inv_safe : Forall safe cur;
  inv_dot : head cur ≠ Some DOT;
  inv_from : cur ≠ [] → ¬ FROM_ `prefix_of` cur ++ s;
  inv_white :
    if white then
      ∃ out0 dec0 cur0 w, out = out0 ++ [w] ∧ dec = dec0 ++ [w] ∧ cur = cur0 ++ [w] ∧
        wsp w ∧ QPText out0 dec0
    else ∀ w, last cur = Some w → ¬ wsp w
}.

Lemma encodeChar_spec c :
  0 <= c < 256 →
  ∃ a b, encodeChar c = [61; a; b] ∧ hex_val a = Some (c / 16) ∧
         hex_val b = Some (c mod 16) ∧ safe a ∧ safe b ∧ ¬ wsp b.
Proof.
  intros Hc.
  apply (below_forall (λ c, match encodeChar c with
    | [x; a; b] => (x =? 61) && bool_decide (hex_val a = Some (c / 16))
        && bool_decide (hex_val b = Some (c mod 16))
        && (33 <=? a) && (a <=? 126) && (33 <=? b) && (b <=? 126)
    | _ => false end) 256) in Hc; [|by vm_compute].
  destruct (encodeChar c) as [|x [|a [|b [|? ?]]]]; try done. js_bool. subst x.
  exists a, b. unfold safe, wsp. split_and!; try done; lia.
Qed.

Lemma QPText_encodeChar out dec c :
  0 <= c < 256 → QPText out dec → QPText (out ++ encodeChar c) (dec ++ [c]).
Proof.
  intros Hc Ho. destruct (encodeChar_spec c Hc) as (a & b & -> & Ha & Hb & _).
  replace c with (16 * (c / 16) + c mod 16) at 1 by (pose proof (Z.div_mod c 16); lia).
  by apply qp_hex.
Qed.

Lemma QPText_crlf out dec : QPText out dec → QPText (out ++ CRLF) (dec ++ CRLF).
Proof.
  intros H. change CRLF with ([CR] ++ [LF]). rewrite !(assoc_L (++)).
  apply qp_raw; [apply qp_raw|]; done.
Qed.

Lemma from_prefix cur x : FROM_ `prefix_of` cur ++ 61 :: x → FROM_ `prefix_of` cur.
Proof.
  intros [k Hk]. do 5 (destruct cur as [|? cur]; simplify_eq/=). by exists cur.
Qed.

Lemma last_app_cons (l : jsstr) c t : last (l ++ c :: t) = last (c :: t).
Proof.
  induction l as [|x l IH]; [done|]. simpl. rewrite <- IH.
  by destruct (l ++ c :: t) eqn:E; [destruct l|].
Qed.

(** What a piece adds to the text. *)
Lemma qp_piece_text c s' col out dec :
  0 <= c < 256 → QPText out dec →
  let '(piece, n, _) := qp_piece c s' col in
  QPText (out ++ piece) (dec ++ [c]) ∧ Z.of_nat (length piece) = n ∧ 1 <= n <= 3.
Proof.
  intros Hc Ho. unfold qp_piece.
  pose proof (QPText_encodeChar out dec c Hc Ho) as He.
  destruct (encodeChar_spec c Hc) as (a & b & E & _).
  js_case; (split_and!; [|by rewrite ?E|lia|lia]); try done; apply qp_raw; try done; js_solve.
Qed.

Lemma may_be_from s' :
  FROM_ `prefix_of` 70 :: s' →
  may_be s' 0 114 && may_be s' 1 111 && may_be s' 2 109 && may_be s' 3 32 = true.
Proof. intros [k Hk]. unfold FROM_ in Hk. simplify_eq/=. done. Qed.

(** The three kinds of pieces. *)
Lemma qp_piece_cases c s' col :
  0 <= c < 256 → c ≠ CR → c ≠ LF →
  (∃ a b, qp_piece c s' col = ([61; a; b], 3, false) ∧ safe a ∧ safe b ∧ ¬ wsp b) ∨
  (qp_piece c s' col = ([c], 1, false) ∧ safe c ∧ ¬ wsp c ∧ c ≠ 61 ∧
   (col = 0 → c ≠ DOT ∧ ¬ FROM_ `prefix_of` c :: s')) ∨
  (qp_piece c s' col = ([c], 1, true) ∧ wsp c).
Proof.
  intros Hc Hcr Hlf. unfold qp_piece.
  destruct (encodeChar_spec c Hc) as (a & b & -> & _ & _ & Ha & Hb & Hw).
  js_if E1; [left; eauto 10|].
  js_if E2.
  - right; left. apply orb_true_iff in E2.
    assert (33 <= c <= 60 ∨ 62 <= c <= 126) by (destruct E2; js_bool; lia).
    split_and!; [done|unfold safe; lia|unfold wsp; lia|lia|].
    intros ->. apply andb_false_iff in E1 as [E1|E1]; [done|]. js_bool.
    split; [done|]. intros Hp. assert (Hc70 : c = 70).
    { destruct Hp as [k Hk]. unfold FROM_ in Hk. by simplify_eq/=. }
    subst c. apply may_be_from in Hp. simpl in *. congruence.
  - js_if E3; [|left; eauto 10].
    right; right. split; [done|]. apply orb_true_iff in E3. unfold wsp.
    destruct E3; js_bool; lia.
Qed.

Lemma safe_eq : safe 61.
Proof. unfold safe. lia. Qed.

Lemma safe_hex a b : safe a → safe b → Forall safe [61; a; b].
Proof. intros Ha Hb. repeat apply Forall_cons_2; auto using safe_eq. Qed.

Lemma wsp_safe c : wsp c → safe c.
Proof. unfold wsp, safe. lia. Qed.

(** The invariant after a piece, before the check for a soft line break. *)
Lemma qp_inv_piece c s' col white out dec ls cur :
  0 <= c < 256 → c ≠ CR → c ≠ LF → qp_inv (c :: s') col white out dec ls cur →
  let '(piece, n, w) := qp_piece c s' col in
  1 <= n <= 3 ∧ Z.of_nat (length (cur ++ piece)) = col + n ∧ Forall safe (cur ++ piece) ∧
  head (cur ++ piece) ≠ Some DOT ∧ ¬ FROM_ `prefix_of` (cur ++ piece) ++ s' ∧
  QPText (out ++ piece) (dec ++ [c]) ∧
  (if w : bool then piece = [c] ∧ wsp c else ∀ x, last (cur ++ piece) = Some x → ¬ wsp x).
Proof.
  intros Hc Hcr Hlf [Ht Ho Hl Hcol Hm Hs Hd Hf Hw].
  pose proof (qp_piece_text c s' col out dec Hc Ht) as Hpt.
  assert (Hcur : col = 0 → cur = []) by (destruct cur; [done|simpl in *; lia]).
  destruct (qp_piece_cases c s' col Hc Hcr Hlf)
    as [(a & b & E & Ha & Hb & Hwb)|[(E & Hsc & Hwc & _ & Hz)|[E Hwc]]];
    rewrite E in *; destruct Hpt as (Hpt & Hn & Hn3);
    (split_and!; [lia|lia|rewrite length_app; lia|..]).
  - apply Forall_app. split; [done|]. by apply safe_hex.
  - by destruct cur.
  - rewrite <- (assoc_L (++)). intros Hp. pose proof (from_prefix _ _ Hp) as Hp'.
    destruct cur as [|x cur]; [by destruct Hp' as [k Hk]|].
    apply (Hf ltac:(done)). etrans; [exact Hp'|]. by exists (c :: s').
  - done.
  - intros x. rewrite last_app_cons. simpl. by intros [= <-].
  - apply Forall_app. split; [done|]. by apply Forall_singleton.
  - destruct cur as [|x cur]; [|done]. simpl. intros [= ->]. by destruct Hz.
  - rewrite <- (assoc_L (++)). destruct cur as [|x cur]; [by destruct Hz|].
    by apply Hf.
  - done.
  - intros x. rewrite last_app_cons. by intros [= <-].
  - apply Forall_app. split; [done|]. by apply Forall_singleton, wsp_safe.
  - destruct cur as [|x cur]; [|done]. simpl. intros [= ->]. by destruct Hwc.
  - rewrite <- (assoc_L (++)). destruct cur as [|x cur]; [|by apply Hf].
    intros [k Hk]. unfold FROM_ in Hk. destruct Hwc; simplify_eq/=.
  - done.
  - done.
  - done.
Qed.

Lemma qp_inv_app c s' col white out dec ls cur :
  0 <= c < 256 → c ≠ CR → c ≠ LF → qp_inv (c :: s') col white out dec ls cur →
  let '(piece, n, w) := qp_piece c s' col in
  if 73 <=? col + n
  then qp_inv s' 0 false (out ++ piece ++ [61] ++ CRLF) (dec ++ [c])
         (ls ++ [cur ++ piece ++ [61]]) []
  else qp_inv s' (col + n) w (out ++ piece) (dec ++ [c]) ls (cur ++ piece).
Proof.
  intros Hc Hcr Hlf Hi. pose proof (qp_inv_piece c s' col white out dec ls cur Hc Hcr Hlf Hi) as Hp.
  destruct (qp_piece c s' col) as [[piece n] w].
  destruct Hp as (Hn & Hlen & Hs & Hd & Hf & Ht & Hw). destruct Hi as [Ht0 Ho Hl Hcol Hm _ _ _ _].
  destruct (Z.leb_spec 73 (col + n)).
  - constructor; try done.
    + rewrite (assoc_L (++)). by apply qp_soft.
    + rewrite Ho, body_snoc. by rewrite app_nil_r, <- !(assoc_L (++)).
    + apply Forall_app. split; [done|]. apply Forall_singleton. rewrite (assoc_L (++)).
      split; [split_and!|split].
      * apply Forall_app. split; [done|]. apply Forall_singleton, safe_eq.
      * destruct (cur ++ piece) eqn:E; [simpl in Hlen; lia|done].
      * intros Hp%from_prefix. apply Hf. etrans; [exact Hp|]. by exists s'.
      * rewrite length_app. simpl. lia.
      * intros x. rewrite last_app_cons. intros [= <-]. unfold wsp. lia.
  - constructor; try done; [by rewrite Ho, <- (assoc_L (++))|lia|].
    destruct w; [|done]. destruct Hw as [-> Hw]. by exists out, dec, cur, c.
Qed.

(** The invariant after a line end. *)
Lemma qp_inv_newline c s' s'' col white out dec ls cur :
  qp_inv (c :: s') col white out dec ls cur →
  ∃ ls', qp_inv s'' 0 false (qp_fix_white white out ++ CRLF) (dec ++ CRLF) ls' [].
Proof.
  intros [Ht Ho Hl Hcol Hm Hs Hd Hf Hw].
  assert (Hline : ∃ cur', QPText (qp_fix_white white out) dec ∧
            qp_fix_white white out = body ls ++ cur' ∧ line_ok cur').
  { destruct white; simpl.
    - destruct Hw as (out0 & dec0 & cur0 & w & -> & -> & -> & Hw & Ht0).
      assert (Hwb : 0 <= w < 256) by (destruct Hw as [->| ->]; lia).
      rewrite last_snoc, (slice_0_neg _ [w] 1) by (done || lia).
      destruct (encodeChar_spec w Hwb) as (a & b & E & _ & _ & Ha & Hb2 & Hwb2).
      exists (cur0 ++ encodeChar w). split_and!; [by apply QPText_encodeChar| |].
      + rewrite !(assoc_L (++)) in Ho. apply app_inj_tail in Ho as [-> _].
        by rewrite <- (assoc_L (++)).
      + rewrite E. apply Forall_app in Hs as [Hs _]. rewrite length_app in Hcol. simpl in Hcol.
        split; [split_and!|split].
        * apply Forall_app. split; [done|]. by apply safe_hex.
        * by destruct cur0.
        * intros Hp%from_prefix. apply Hf; [by destruct cur0|].
          etrans; [exact Hp|]. rewrite <- (assoc_L (++)). by eexists.
        * rewrite length_app. simpl. lia.
        * intros x. rewrite last_app_cons. simpl. by intros [= <-].
    - exists cur. split_and!; [done..|]. split; [split_and!|split]; try done; [|lia].
      intros Hp. destruct cur as [|x cur]; [by destruct Hp as [k Hk]|].
      apply (Hf ltac:(done)). etrans; [exact Hp|]. by exists (c :: s'). }
  destruct Hline as (cur' & Ht' & E & Hok). rewrite E in *. exists (ls ++ [cur']).
  constructor; try done.
  - by apply QPText_crlf.
  - rewrite body_snoc. by rewrite app_nil_r, <- !(assoc_L (++)).
  - apply Forall_app. split; [done|]. by apply Forall_singleton.
Qed.

Lemma qp_loop_inv n s col white out dec ls cur :
  (length s ≤ n)%nat → bytes s → qp_inv s col white out dec ls cur →
  ∃ col' white' ls' cur',
    qp_inv [] col' white' (qp_loop s col white out) (dec ++ canon s) ls' cur'.
Proof.
  revert s col white out dec ls cur.
  induction n as [|n IH]; intros [|c s] col white out dec ls cur Hn Hb Hi;
    try (simpl in Hn; lia).
  1,2: rewrite app_nil_r; eauto.
  apply Forall_cons in Hb as [Hc Hb]. simpl in Hn.
  cbn [qp_loop canon]. destruct ((c =? CR) || (c =? LF)) eqn:Ecr.
  - destruct (qp_inv_newline c s [] _ _ _ _ _ _ Hi) as [l0 H0].
    destruct s as [|d s]; [rewrite app_nil_r; eauto|].
    rewrite (assoc_L (++)). apply Forall_cons in Hb as [Hd Hb]. simpl in Hn.
    destruct ((c =? CR) && (d =? LF)).
    + destruct (qp_inv_newline c (d :: s) s _ _ _ _ _ _ Hi) as [l1 H1].
      eapply IH; [lia|done|exact H1].
    + destruct (qp_inv_newline c (d :: s) (d :: s) _ _ _ _ _ _ Hi) as [l1 H1].
      eapply IH; [simpl; lia|by constructor|exact H1].
  - js_bool. pose proof (qp_inv_app c s col white out dec ls cur) as Hp.
    destruct (qp_piece c s col) as [[piece k] w]. specialize (Hp Hc).
    change (c :: canon s) with ([c] ++ canon s). rewrite (assoc_L (++) dec).
    destruct (73 <=? col + k); (eapply IH; [lia|done|by apply Hp]).
Qed.

Lemma encodeQP_inv m :
  bytes (_body m) →
  ∃ col white ls cur, qp_inv [] col white (_encodeQP m) (canon (_body m)) ls cur.
Proof.
  intros Hb. apply (qp_loop_inv (length (_body m)) (_body m) 0 false [] [] [] []); [done..|].
  constructor; try done. constructor.
Qed.

(** C32. jsmime's quoted-printable decoder gives back the body that was encoded,
    every line end as CRLF. *)
Theorem qp_roundtrip m :
  bytes (_body m) → decode_qp (_encodeQP m) = (canon (_body m), []).
Proof.
  intros Hb. destruct (encodeQP_inv m Hb) as (col & w & ls & cur & H).
  unfold decode_qp. f_equal. apply inv_text in H.
  by rewrite <- (app_nil_r (_encodeQP m)), (QPText_decode _ _ [] H), app_nil_r.
Qed.

Definition qp_sample : MimeEncoder :=
  newMimeEncoder [] (js "text/plain") false true
    (js "From me=" ++ [233; 32; CR; LF; DOT; LF; 32]).

Lemma qp_roundtrip_witness :
  decode_qp (_encodeQP qp_sample) = (js "From me=" ++ [233; 32] ++ CRLF ++ [DOT] ++ CRLF ++ [32], []).
Proof. apply (qp_roundtrip qp_sample). bytes_solve. Defined.

(** C33. The quoted-printable text is made of lines of at most 76 printable
    characters that begin neither with a dot nor with "From " and, when a line
    end follows them, do not end in white space. *)
Theorem encodeQP_lines m :
  bytes (_body m) →
  ∃ ls cur, _encodeQP m = body ls ++ cur ∧ Forall line_ok ls ∧
            line_start_ok cur ∧ (length cur ≤ 72)%nat.
Proof.
  intros Hb. destruct (encodeQP_inv m Hb) as (col & w & ls & cur & [_ Ho Hl Hc Hm Hs Hd Hf _]).
  exists ls, cur. split_and!; [done..| |lia]. split_and!; [done..|]. intros Hp.
  destruct cur as [|x cur]; [by destruct Hp as [k Hk]|].
  apply (Hf ltac:(done)). by rewrite app_nil_r.
Qed.

Lemma encodeQP_lines_witness :
  ∃ ls cur, _encodeQP qp_sample = body ls ++ cur ∧ Forall line_ok ls ∧
            line_start_ok cur ∧ (length cur ≤ 72)%nat.
Proof. apply encodeQP_lines. bytes_solve. Defined.

(** ** Line lengths of the encoded text *)

(** Every run of characters without CR and LF has at most [n] characters, when
    [col] characters of the first run have been seen. *)
Fixpoint runs_ok (n col : Z) (s : jsstr) : bool :=
  match s with
  | [] => true
  | c :: s' =>
      if (c =? CR) || (c =? LF) then runs_ok n 0 s'
      else (col + 1 <=? n) && runs_ok n (col + 1) s'
  end.

Definition no_eol (x : jsstr) : Prop := Forall (λ c, c ≠ CR ∧ c ≠ LF) x.

Lemma runs_ok_mono n col col' s :
  col' <= col → runs_ok n col s = true → runs_ok n col' s = true.
Proof.
  revert col col'. induction s as [|c s IH]; intros col col' Hc; [done|]. cbn [runs_ok].
  js_if E; [done|]. intros [H1 H2]%andb_true_iff. js_bool.
  apply andb_true_iff. split; [apply Z.leb_le; lia|]. apply (IH (col + 1)); [lia|done].
Qed.

Lemma runs_ok_run n col x s :
  no_eol x → runs_ok n col (x ++ s) = true → x = [] ∨ col + slen x <= n.
Proof.
  revert col. induction x as [|c x IH]; intros col Hx H; [by left|right].
  apply Forall_cons in Hx as [[H1 H2] Hx]. simpl in H.
  destruct (Z.eqb_spec c CR), (Z.eqb_spec c LF); try done. simpl in H.
  apply andb_true_iff in H as [H H']. js_bool. unfold slen in *. simpl length.
  destruct (IH _ Hx H') as [-> |]; simpl length; lia.
Qed.

Lemma runs_ok_spec n s a x b :
  runs_ok n 0 s = true → s = a ++ x ++ b → no_eol x → x = [] ∨ slen x <= n.
Proof.
  intros H -> Hx. assert (Ha : ∀ col, 0 <= col → runs_ok n col (a ++ x ++ b) = true →
                            runs_ok n 0 (x ++ b) = true).
  { clear H. induction a as [|c a IH]; intros col Hc H.
    - by apply (runs_ok_mono n col).
    - simpl in H. js_case_in H; [by apply (IH 0)|].
      apply andb_true_iff in H as [_ H]. apply (IH (col + 1)); [lia|done]. }
  apply (runs_ok_run n 0 x b); [done|]. by apply (Ha 0).
Qed.

Lemma runs_ok_line n col l r :
  0 <= col → col + slen l <= n → runs_ok n 0 r = true → runs_ok n col (l ++ CRLF ++ r) = true.
Proof.
  unfold slen. revert col. induction l as [|c l IH]; intros col Hc Hn Hr; [done|].
  simpl length in Hn. cbn [runs_ok app]. js_if E; [by apply IH; [lia..|]|].
  apply andb_true_iff. split; [apply Z.leb_le; lia|]. by apply IH; [lia..|].
Qed.

Lemma runs_ok_short n col l : 0 <= col → col + slen l <= n → runs_ok n col l = true.
Proof.
  unfold slen. revert col. induction l as [|c l IH]; intros col Hc Hn; [done|].
  simpl length in Hn. cbn [runs_ok]. js_if E; [by apply IH; lia|].
  apply andb_true_iff. split; [apply Z.leb_le; lia|]. by apply IH; lia.
Qed.

Lemma runs_ok_body n ls cur :
  Forall (λ l, slen l <= n) ls → slen cur <= n → runs_ok n 0 (body ls ++ cur) = true.
Proof.
  intros Hl Hc. induction Hl as [|l ls Hl _ IH]; [by apply runs_ok_short; [lia|]|].
  change (body (l :: ls)) with ((l ++ CRLF) ++ body ls). rewrite <- !(assoc_L (++)).
  by apply runs_ok_line; [lia|lia|].
Qed.

Lemma runs_ok_snoc_crlf n col s : runs_ok n col s = true → runs_ok n col (s ++ CRLF) = true.
Proof.
  revert col. induction s as [|c s IH]; intros col H; [done|]. cbn [runs_ok app] in *.
  js_if E; [by apply IH|]. apply andb_true_iff in H as [H1 H2].
  apply andb_true_iff. split; [done|]. by apply IH.
Qed.

(** Replacing one line end by another keeps the runs. *)
Lemma runs_ok_replaceAll n col s p r :
  p ≠ [] → r ≠ [] → Forall (λ c, c = CR ∨ c = LF) p → Forall (λ c, c = CR ∨ c = LF) r →
  runs_ok n col s = true → runs_ok n col (replaceAll s p r) = true.
Proof.
  intros Hp0 Hr0 Hp Hr. unfold replaceAll.
  assert (Heol : ∀ q t col, q ≠ [] → Forall (λ c, c = CR ∨ c = LF) q →
            runs_ok n col (q ++ t) = runs_ok n 0 t).
  { clear. intros q t col Hq H. revert col. induction H as [|c q Hc H IH]; intros col; [done|].
    simpl. replace ((c =? CR) || (c =? LF)) with true by (by destruct Hc; subst).
    destruct q; [done|]. by apply IH. }
  generalize (length s) as k. intros k. revert s col.
  induction k as [|k IH]; intros [|c s] col H; [done..|].
  cbn [replaceAll_fuel]. destruct (startsWith (c :: s) p) eqn:E.
  - apply startsWith_true in E as [t E]. rewrite E in *. rewrite drop_app_length.
    rewrite Heol in * by done. by apply IH.
  - cbn [runs_ok] in *. js_if E'; [by apply IH|]. apply andb_true_iff in H as [H1 H2].
    apply andb_true_iff. split; [done|]. by apply IH.
Qed.

Lemma analyze_step_columns a c :
  let a' := analyze_step a c in
  if (c =? CR) || (c =? LF)
  then currentColumn a' = 0 ∧ _maxColumn a' = Z.max (_maxColumn a) (currentColumn a)
  else currentColumn a' = currentColumn a + 1 ∧ _maxColumn a' = _maxColumn a.
Proof.
  cbn zeta. unfold analyze_step, track_line, count_char.
  destruct ((c =? CR) || (c =? LF)); js_case; simpl in *; js_bool; lia.
Qed.

Lemma analyze_bound s a :
  let a' := fold_left analyze_step s a in
  currentColumn a <= Z.max (_maxColumn a') (currentColumn a') ∧ _maxColumn a <= _maxColumn a'.
Proof.
  cbn zeta. revert a. induction s as [|c s IH]; intros a; simpl; [lia|].
  specialize (IH (analyze_step a c)). pose proof (analyze_step_columns a c) as H.
  cbn zeta in H. js_case_in H; lia.
Qed.

Lemma analyze_runs s a n :
  0 <= currentColumn a →
  let a' := fold_left analyze_step s a in
  _maxColumn a' <= n → currentColumn a' <= n → runs_ok n (currentColumn a) s = true.
Proof.
  cbn zeta. revert a. induction s as [|c s IH]; intros a H0 Hm Hc; [done|]. simpl in Hm, Hc.
  pose proof (analyze_step_columns a c) as H. cbn zeta in H.
  pose proof (analyze_bound s (analyze_step a c)) as [Hb _].
  specialize (IH (analyze_step a c)). cbn [runs_ok]. js_case_in H; destruct H as [H H'].
  - rewrite H in IH. by apply IH.
  - rewrite H in *. apply andb_true_iff. split; [apply Z.leb_le; lia|]. apply IH; lia.
Qed.

Lemma analyzeBody_runs m : runs_ok (_maxColumn (_analyzeBody m)) 0 (_body m) = true.
Proof.
  unfold _analyzeBody. set (a := fold_left analyze_step (_body m) analysis0).
  apply (analyze_runs _ analysis0); [done|..]; fold a; js_case; simpl; js_solve.
Qed.

(** Without a CR or LF limit, only base64 and quoted-printable are picked. *)
Lemma pickEncoding_long p m :
  LINELENGTH_ENCODING_THRESHOLD < _maxColumn (_analyzeBody m) →
  _contentType m ≠ MESSAGE_RFC822 →
  pickEncoding p m = ENC_B64 ∨ pickEncoding p m = ENC_QP.
Proof.
  intros Hm Ht. unfold pickEncoding. apply jseq_false in Ht. rewrite Ht. cbn zeta.
  apply Z.ltb_lt in Hm. rewrite Hm. unfold pick_by_content. js_case; simpl in *; simplify_eq; auto.
Qed.

Lemma encode_crlf m enc : ∃ t, encode m enc = t ++ CRLF.
Proof.
  unfold encode. cbn zeta. js_if E; [|by eexists]. by apply endsWith_true in E.
Qed.

Lemma encode_runs p m :
  bytes (_body m) → _contentType m ≠ MESSAGE_RFC822 →
  runs_ok LINELENGTH_ENCODING_THRESHOLD 0 (encode m (pickEncoding p m)) = true.
Proof.
  intros Hb Ht. unfold encode. set (enc := pickEncoding p m). cbn zeta.
  match goal with |- context [endsWith ?o CRLF] =>
    assert (Ho : runs_ok LINELENGTH_ENCODING_THRESHOLD 0 o = true);
      [|js_if E; [done|by apply runs_ok_snoc_crlf]] end.
  unfold LINELENGTH_ENCODING_THRESHOLD.
  destruct (enc ==s ENC_B64) eqn:E1; [|destruct (enc ==s ENC_QP) eqn:E2].
  - destruct (encodeBase64_lines m) as (ls & -> & Hl & _).
    rewrite <- (app_nil_r (body ls)). apply runs_ok_body; [|done].
    eapply Forall_impl; [exact Hl|]. unfold slen. simpl. lia.
  - destruct (encodeQP_inv m Hb) as (col & w & ls & cur & H). rewrite (inv_out _ _ _ _ _ _ _ H).
    apply runs_ok_body; [|unfold slen; rewrite (inv_col _ _ _ _ _ _ _ H);
      pose proof (inv_max _ _ _ _ _ _ _ H); lia].
    eapply Forall_impl; [exact (inv_lines _ _ _ _ _ _ _ H)|].
    intros l (_ & Hl & _). unfold slen. lia.
  - destruct (Z.lt_ge_cases LINELENGTH_ENCODING_THRESHOLD (_maxColumn (_analyzeBody m))) as [Hm|Hm].
    { by destruct (pickEncoding_long p m Hm Ht) as [E|E]; unfold enc in *; rewrite E in *. }
    assert (Hr : runs_ok 990 0 (_body m) = true).
    { pose proof (analyzeBody_runs m) as Hr. revert Hr Hm. clear.
      unfold LINELENGTH_ENCODING_THRESHOLD. generalize 0.
      induction (_body m) as [|c s IH]; intros col Hr Hm; [done|]. cbn [runs_ok] in *.
      js_if E; [by apply IH|]. apply andb_true_iff in Hr as [H1 H2]. js_bool.
      apply andb_true_iff. split; [apply Z.leb_le; lia|by apply IH]. }
    apply runs_ok_replaceAll; [done|done| | |apply runs_ok_replaceAll]; try done;
      apply (bool_decide_unpack _); exact I.
Qed.

(** Whatever encoding is picked for a part that is not a message/rfc822
    one, no line of the encoded text is longer than 990 characters, and the
    text ends with CRLF. *)
Theorem encode_line_length p m a x b :
  bytes (_body m) → _contentType m ≠ MESSAGE_RFC822 →
  encode m (pickEncoding p m) = a ++ x ++ b → no_eol x →
  slen x <= 990 ∧ ∃ t, encode m (pickEncoding p m) = t ++ CRLF.
Proof.
  intros Hb Ht E Hx. split; [|apply encode_crlf].
  destruct (runs_ok_spec _ _ a x b (encode_runs p m Hb Ht) E Hx) as [->|]; [done|done].
Qed.

Lemma encode_line_length_witness :
  slen (js "rom me=3D=E9=20") <= 990 ∧
  ∃ t, encode qp_sample (pickEncoding (mkPrefs true false false (λ _, false)) qp_sample) = t ++ CRLF.
Proof.
  apply (encode_line_length (mkPrefs true false false (λ _, false)) qp_sample
    (js "=46") (js "rom me=3D=E9=20") (drop 18 (encode qp_sample ENC_QP)));
    [bytes_solve|done|by vm_compute|].
  unfold no_eol. apply (bool_decide_unpack _). exact I.
Defined.
