(* ===== verification/MimeHeaders.v ===== *)
(** * MimeHeaders: the structured headers of jsmime

    Of mailnews/mime/jsmime/jsmime.mjs: the tokens of a header, the words of RFC
    2047, parameters with RFC 2231, Content-Type, and the block of headers of a
    part ([StructuredHeaders]).  The decoders of character sets, which are the
    platform's TextDecoder, are an interface.  A function that may throw gives an
    option.  A regular-expression search is a scan from left to right; a loop over
    the indices of a string that jumps ahead has the number of characters to skip
    as an argument. *)

From S2P Require Import Prelude Effects MimeUtils.

(** TextDecoder: [new TextDecoder(charset, {fatal})], which throws for a charset it
    does not know, and [decode(bytes, {stream})], which throws when it is fatal and
    the bytes are malformed. *)
Class TextDecoder (D : Type) := {
  new_decoder : jsstr → bool → option D;
  decode : D → list Z → bool → option (jsstr * D)
}.

(** ** Characters *)

Definition in_class (ranges : list (Z * Z)) (c : Z) : bool :=
  existsb (λ r, (r.1 <=? c) && (c <=? r.2)) ranges.

Definition TAB : Z := 9.

(** [" \t\r\n"]. *)
Definition wsp (c : Z) : bool := bool_decide (c ∈ [SP; TAB; CR; LF]).

(** What [.] does not match. *)
Definition line_terminator (c : Z) : bool := bool_decide (c ∈ [LF; CR; 8232; 8233]).

(** The first characters that are in a class, and the rest. *)
Fixpoint span (p : Z → bool) (s : jsstr) : jsstr * jsstr :=
  match s with
  | c :: s' => if p c then (c :: (span p s').1, (span p s').2) else ([], s)
  | [] => ([], [])
  end.

(** [replace(/X/g, r)] of the surrogate pairs of a set. *)
Fixpoint replace_pairs (p : Z → Z → bool) (r : jsstr) (s : jsstr) : jsstr :=
  match s with
  | a :: (b :: s') as s1 => if p a b then r ++ replace_pairs p r s' else a :: replace_pairs p r s1
  | _ => s
  end.

Definition spaces_Zs : list (Z * Z) :=
  [(0xA0, 0xA0); (0x1680, 0x1680); (0x2000, 0x200A); (0x202F, 0x202F); (0x205F, 0x205F); (0x3000, 0x3000)].
Definition blanks_Mn : list (Z * Z) :=
  [(0x34F, 0x34F); (0x17B4, 0x17B5); (0x180B, 0x180D); (0xFE00, 0xFE0F)].
Definition controls_Cc (c : Z) : bool :=
  negb (bool_decide (c ∈ [TAB; LF; CR])) && in_class [(0, 0x1F); (0x7F, 0x9F)] c.
Definition formats_Cf : list (Z * Z) :=
  [(0xAD, 0xAD); (0x61C, 0x61C); (0x6DD, 0x6DD); (0x70F, 0x70F); (0x8E2, 0x8E2); (0x180E, 0x180E);
   (0x200B, 0x200F); (0x202A, 0x202E); (0x2060, 0x2064); (0x2066, 0x206F); (0xFEFF, 0xFEFF);
   (0xFFF9, 0xFFFB)].
Definition format_pair (a b : Z) : bool :=
  ((a =? 0xD804) && in_class [(0xDCBD, 0xDCBD); (0xDCCD, 0xDCCD)] b)
  || ((a =? 0xD80D) && in_class [(0xDC30, 0xDC38)] b)
  || ((a =? 0xD82F) && in_class [(0xDCA0, 0xDCA3)] b)
  || ((a =? 0xD834) && in_class [(0xDD73, 0xDD7A)] b)
  || ((a =? 0xDB40) && in_class [(0xDC01, 0xDC01); (0xDC20, 0xDC7F)] b).

(** The alternatives of the class D match single units and pairs, in one pass. *)
Fixpoint replace_formats (s : jsstr) : jsstr :=
  match s with
  | a :: s1 =>
      if in_class formats_Cf a then SP :: replace_formats s1
      else match s1 with
           | b :: s' => if format_pair a b then SP :: replace_formats s' else a :: replace_formats s1
           | [] => [a]
           end
  | [] => []
  end.

Definition cleanToken (token : jsstr) : jsstr :=
  let token := map (λ c, if in_class spaces_Zs c then SP else c) token in
  let token := List.filter (λ c, negb (in_class blanks_Mn c)) token in
  let token := replace_pairs (λ a b, (a =? 0xDB40) && in_class [(0xDD00, 0xDDEF)] b) [] token in
  let token := List.filter (λ c, negb (controls_Cc c)) token in
  let token := replace_formats token in
  map (λ c, if c =? 0x2800 then SP else c) token.

(** ** Encoded words *)

(** [=\?[^?]*\?[BbQq]\?[^?]*\?=] at the start: the length matched. *)
Definition encoded_word (s : jsstr) : option nat :=
  match s with
  | 61 :: 63 :: s1 =>
      let '(cs, s2) := span (λ c, negb (c =? 63)) s1 in
      match s2 with
      | 63 :: e :: 63 :: s3 =>
          let '(text, s4) := span (λ c, negb (c =? 63)) s3 in
          if bool_decide (e ∈ js "BbQq") && startsWith s4 (js "?=")
          then Some (2 + length cs + 3 + length text + 2)%nat else None
      | _ => None
      end
  | _ => None
  end.

(** [split(/(=\?[^?]*\?[BQbq]\?[^?]*\?=)/)]: the texts and, between them, the words. *)
Fixpoint split_words (skip : nat) (s : jsstr) : list jsstr :=
  match s with
  | [] => [[]]
  | c :: s' =>
      match skip with
      | S k => split_words k s'
      | O =>
          match encoded_word s with
          | Some n => [] :: take n s :: split_words (pred n) s'
          | None => match split_words 0 s' with
                    | w :: ws => (c :: w) :: ws
                    | [] => [[c]]
                    end
          end
      end
  end.

(** [([ \t\r\n]*=\?[^?]*\?[BbQq]\?[^?]*\?=)+] at the start. *)
Fixpoint words_here (fuel : nat) (s : jsstr) : nat :=
  match fuel with
  | O => 0
  | S fuel' =>
      let '(ws, s1) := span wsp s in
      match encoded_word s1 with
      | Some n => let k := (length ws + n)%nat in (k + words_here fuel' (drop k s))%nat
      | None => 0
      end
  end.

(** That expression anywhere: the length of its first match. *)
Fixpoint encodedWordsRE (s : jsstr) : option nat :=
  match words_here (length s) s, s with
  | S k, _ => Some (S k)
  | O, _ :: s' => encodedWordsRE s'
  | O, [] => None
  end.

Section Decoders.
Context {D : Type} `{TextDecoder D}.

Definition is_latin1_8bit (c : Z) : bool := in_class [(0x80, 0xff)] c.

(** The two decoders of [convert8BitHeader]: UTF-8, and the fallback. *)
Definition decode_once (charset : jsstr) (fatal : bool) (b : list Z) : option jsstr :=
  match new_decoder charset fatal with Some d => fst <$> decode d b false | None => None end.

Definition convert8BitHeader (headerValue fallbackCharset : jsstr) : jsstr :=
  let headerValue :=
    if existsb is_latin1_8bit headerValue then
      let typedarray := stringToTypedArray headerValue in
      let hasFallback := str_truthy fallbackCharset
                         && negb (startsWith (toLowerCase fallbackCharset) (js "utf")) in
      match decode_once (js "utf-8") hasFallback typedarray with
      | Some s => s
      | None => default headerValue (decode_once fallbackCharset false typedarray)
      end
    else headerValue in
  cleanToken headerValue.

(** The variables [decode2047Token] closes over. *)
Record words_state := mkWords { lastCharset : jsstr; currentDecoder : option D }.

Definition b64_text (text : jsstr) : bool :=
  forallb (λ c, is_b64 c || bool_decide (c ∈ [SP; 61])) text.

(** The bytes of a word: [None] when it is no word, [Some None] when it throws. *)
Definition word_bytes (encoding text : jsstr) : option (option jsstr) :=
  if (encoding ==s js "B") || (encoding ==s js "b") then
    if b64_text text then Some (fst <$> decode_base64 text false) else None
  else if (encoding ==s js "Q") || (encoding ==s js "q") then
    Some (Some (decode_qp (map (λ c, if c =? 95 then SP else c) text)).1)
  else None.

(** The result is [None] when it throws; [None] in it is the [false] of the source. *)
Definition decode2047Token (token : jsstr) (isLastToken : bool) (st : words_state) :
    option (option jsstr * words_state) :=
  match split_on 63 token with
  | [_; p1; encoding; text; p4] =>
      if negb (p4 ==s [61]) then Some (None, st)
      else
        let charset := default [] (head (split_on 42 p1)) in
        match word_bytes encoding text with
        | None => Some (None, st)
        | Some None => None
        | Some (Some stringBuffer) =>
            let buffer := stringToTypedArray stringBuffer in
            (* what the last decoder holds back *)
            match (if negb (charset ==s lastCharset st) then
                     match currentDecoder st with
                     | Some d => (λ r, (fst r, None)) <$> decode d [] false
                     | None => Some ([], None)
                     end
                   else Some ([], currentDecoder st)) with
            | None => None
            | Some (output, dec) =>
                match (match dec with Some d => Some d | None => new_decoder charset false end) with
                | None => Some (None, mkWords charset dec)
                | Some d =>
                    let stream := negb (isLastToken
                      || ((toUpperCase charset ==s js "ISO-2022-JP")
                          && endsWith stringBuffer (27 :: js "(B"))) in
                    match decode d buffer stream with
                    | Some (s, d') => Some (Some (output ++ s), mkWords charset (Some d'))
                    | None => None
                    end
                end
            end
        end
  | _ => Some (None, st)
  end.

(** A component that stays: what the decoder holds back comes before it. *)
Definition flush_words (x : jsstr) (st : words_state) : option (jsstr * words_state) :=
  match currentDecoder st with
  | Some d => (λ r, (fst r ++ x, mkWords [] None)) <$> decode d [] false
  | None => Some (x, mkWords [] None)
  end.

Definition is_word_like (x : jsstr) : bool := substring x 0 2 ==s js "=?".

(** The loop; [rest_words] tells whether no component after this one is a word. *)
Fixpoint words_loop (components : list jsstr) (st : words_state) : option (list jsstr) :=
  match components with
  | [] => Some []
  | x :: rest =>
      if is_word_like x then
        match decode2047Token x (negb (existsb is_word_like rest)) st with
        | None => None
        | Some (Some d, st') => cons d <$> words_loop rest st'
        | Some (None, st') =>
            match flush_words x st' with
            | Some (x', st'') => cons x' <$> words_loop rest st''
            | None => None
            end
        end
      else if forallb wsp x then cons [] <$> words_loop rest st
      else match flush_words x st with
           | Some (x', st'') => cons x' <$> words_loop rest st''
           | None => None
           end
  end.

Definition decodeRFC2047Words (headerValue : jsstr) : option jsstr :=
  (λ l, cleanToken (concat l)) <$> words_loop (split_words 0 headerValue) (mkWords [] None).

(** ** Tokens *)

Inductive token := Delim (c : Z) | Token (s : jsstr).

(** [replace(/\\(.?)/g, "$1")]. *)
Fixpoint unescape (s : jsstr) : jsstr :=
  match s with
  | [] => []
  | c :: s' =>
      if c =? BACKSLASH then
        match s' with
        | d :: s'' => if line_terminator d then unescape s' else d :: unescape s''
        | [] => []
        end
      else c :: unescape s'
  end.

Definition newToken (s : jsstr) : token := Token (unescape s).

Record token_opts := mkTokenOpts { qstring : bool; dliteral : bool; comments : bool; rfc2047 : bool }.

Record tokenizer := mkTokenizer {
  tokenStart : option Z;
  endQuote : option Z;
  commentDepth : Z;
  tokenList : list token
}.
#[export] Instance eta_tokenizer : Settable tokenizer := λ t,
  mkTokenizer (tokenStart t) (endQuote t) (commentDepth t) (tokenList t).

Section Tokens.
Variable value : jsstr.
Variable delimiters : jsstr.
Variable opts : token_opts.

Definition push (t : token) (st : tokenizer) : tokenizer := st <| tokenList ::= (λ l, l ++ [t]) |>.

(** Ends the open token, if there is one. *)
Definition end_token (i : Z) (st : tokenizer) : tokenizer :=
  match tokenStart st with
  | Some a => push (newToken (slice value a i)) st <| tokenStart := None |>
  | None => st
  end.

(** A character within a quoted string or a domain literal. *)
Definition quoted_char (i ch q : Z) (st : tokenizer) : option tokenizer :=
  let a := default 0 (tokenStart st) in
  if (ch =? q) && (ch =? QUOTE) then
    let text := slice value (a + 1) i in
    (λ text, push (newToken text) st <| endQuote := None |> <| tokenStart := None |>)
      <$> (if rfc2047 opts then decodeRFC2047Words text else Some text)
  else if (ch =? q) && (ch =? 93) then
    Some (push (newToken (slice value a (i + 1))) st <| endQuote := None |> <| tokenStart := None |>)
  else Some st.

(** The three flags of a character: a token ends, a token starts, a delimiter; and
    the quote and depth after it. *)
Definition classify_char (ch : Z) (st : tokenizer) : bool * bool * bool * tokenizer :=
  if wsp ch then (true, false, false, st)
  else if (commentDepth st =? 0) && bool_decide (ch ∈ delimiters) then (true, false, true, st)
  else if qstring opts && (ch =? QUOTE) then (true, true, false, st <| endQuote := Some ch |>)
  else if dliteral opts && (ch =? 91) then (true, true, false, st <| endQuote := Some 93 |>)
  else if comments opts && (ch =? 40) then
    let st := st <| commentDepth ::= Z.succ |> in
    if commentDepth st =? 1 then (true, false, true, st) else (false, true, false, st)
  else if comments opts && (ch =? 41) then
    let st := if 0 <? commentDepth st then st <| commentDepth ::= Z.pred |> else st in
    if commentDepth st =? 0 then (true, false, true, st) else (false, true, false, st)
  else (false, true, false, st).

Definition plain_char (i ch : Z) (st : tokenizer) : tokenizer :=
  let '(ending, starting, special, st) := classify_char ch st in
  let st := if ending : bool then end_token i st else st in
  let st := if special : bool then push (Delim ch) st else st in
  if starting : bool then st <| tokenStart ::= (λ a, Some (default i a)) |> else st.

(** The words at [i]: the token before them ends, and they are decoded. *)
Definition words_at (i : Z) (n : nat) (st : tokenizer) : option tokenizer :=
  (λ s, push (Token s) (end_token i st)) <$> decodeRFC2047Words (slice value i (i + Z.of_nat n)).

Fixpoint token_loop (skip : nat) (i : Z) (s : jsstr) (st : tokenizer) : option tokenizer :=
  match s with
  | [] => Some st
  | ch :: s' =>
      match skip with
      | S k => token_loop k (i + 1) s' st
      | O =>
          if ch =? BACKSLASH then token_loop 1 (i + 1) s' st
          else match endQuote st with
               | Some q =>
                   match quoted_char i ch q st with
                   | Some st' => token_loop 0 (i + 1) s' st'
                   | None => None
                   end
               | None =>
                   match (if rfc2047 opts && startsWith s (js "=?") then encodedWordsRE s else None) with
                   | Some n =>
                       match words_at i n st with
                       | Some st' => token_loop (pred n) (i + 1) s' st'
                       | None => None
                       end
                   | None => token_loop 0 (i + 1) s' (plain_char i ch st)
                   end
               end
      end
  end.

Definition getHeaderTokens : option (list token) :=
  (λ st, match tokenStart st with
         | Some a =>
             tokenList st ++ [newToken (slice_from value (if bool_decide (endQuote st = Some QUOTE) then a + 1 else a))]
         | None => tokenList st
         end) <$> token_loop 0 0 value (mkTokenizer None None 0 []).
End Tokens.

(** ** Parameters *)

(** The [name, value] pairs of the tokens after the first semicolon: the state of
    the loop is the name, whether a name is expected, and the pairs. *)
Definition percent_decode_step (s : jsstr) : option (Z * jsstr) :=
  match s with
  | 37 :: a :: b :: s' =>
      match hex_val a, hex_val b with
      | Some x, Some y => Some (16 * x + y, s')
      | _, _ => None
      end
  | _ => None
  end.

(** [replace(/%([0-9A-Fa-f]{2})/g, ...)]. *)
Fixpoint percent_decode (skip : nat) (s : jsstr) : jsstr :=
  match s with
  | [] => []
  | c :: s' =>
      match skip with
      | S k => percent_decode k s'
      | O => match percent_decode_step s with
             | Some (x, _) => x :: percent_decode 2 s'
             | None => c :: percent_decode 0 s'
             end
      end
  end.

Record param_state := mkParam { tokenName : jsstr; inName : bool; matches : list (jsstr * jsstr) }.

Definition param_token (doRFC2231 : bool) (st : param_state) (t : token) : param_state :=
  let '(mkParam name inn ms) := st in
  match t with
  | Delim 59 =>
      mkParam [] true (if str_truthy name && negb inn then ms ++ [(name, [])] else ms)
  | Delim 61 => mkParam name false ms
  | Delim c =>
      if inn && negb (str_truthy name) then mkParam [c] inn ms
      else if negb inn && str_truthy name then mkParam [] inn (ms ++ [(name, [c])])
      else if inn then mkParam [] inn ms else st
  | Token s =>
      if inn && negb (str_truthy name) then mkParam s inn ms
      else if negb inn && str_truthy name then
        mkParam [] inn (ms ++ [(name, if doRFC2231 && endsWith name [42] then percent_decode 0 s else s)])
      else if inn then mkParam [] inn ms else st
  end.

Definition param_matches (doRFC2231 : bool) (l : list token) : list (jsstr * jsstr) :=
  let '(mkParam name inn ms) := fold_left (param_token doRFC2231) l (mkParam [] true []) in
  if str_truthy name && negb inn then ms ++ [(name, [])] else ms.

(** An entry of [continuationValues]: an array with two properties. *)
Record continuation := mkContinuation {
  valid : bool; hasCharset : option bool; parts : gmap Z jsstr
}.

Record param_maps := mkMaps {
  simpleValues : list (jsstr * jsstr);
  charsetValues : list (jsstr * jsstr);
  continuationValues : list (jsstr * continuation)
}.

(** A number of param*n=: its text, and whether a star follows it. *)
Definition continuation_number (paramName : jsstr) (star : Z) : jsstr * bool :=
  let lastStar := endsWith paramName [42] in
  (substring paramName (star + 1) (slen paramName - (if lastStar then 1 else 0)), lastStar).

Definition legal_number (n : jsstr) : bool :=
  str_truthy n && negb (startsWith n [48] && negb (n ==s [48])) && forallb is_digit n.

(** Puts a part into the entry; numbers are exact, which those of the language are
    below 2^53. *)
Definition add_part (number : jsstr) (lastStar : bool) (value : jsstr) (e : continuation) : continuation :=
  let zero := number ==s [48] in
  let e := if zero then mkContinuation (valid e) (Some lastStar) (parts e) else e in
  if negb zero && negb (legal_number number) then mkContinuation false (hasCharset e) (parts e)
  else
    let n := digits_val number in
    match parts e !! n with
    | Some _ => mkContinuation false (hasCharset e) (parts e)
    | None => mkContinuation (valid e) (hasCharset e) (<[n := value]> (parts e))
    end.

Definition add_match (m : param_maps) (p : jsstr * jsstr) : param_maps :=
  let '(paramName, value) := p in
  let star := indexOf paramName [42] in
  if star =? -1 then
    if mhas (simpleValues m) paramName then m
    else mkMaps (mset (simpleValues m) paramName value) (charsetValues m) (continuationValues m)
  else if star =? slen paramName - 1 then
    let name := substring paramName 0 star in
    if mhas (charsetValues m) name then m
    else mkMaps (simpleValues m) (mset (charsetValues m) name value) (continuationValues m)
  else
    let param := substring paramName 0 star in
    match mget (continuationValues m) param with
    | Some e =>
        if negb (valid e) then m
        else let '(number, lastStar) := continuation_number paramName star in
             mkMaps (simpleValues m) (charsetValues m)
               (mset (continuationValues m) param (add_part number lastStar value e))
    | None =>
        let '(number, lastStar) := continuation_number paramName star in
        mkMaps (simpleValues m) (charsetValues m)
          (mset (continuationValues m) param (add_part number lastStar value (mkContinuation true None ∅)))
    end.

Definition sort_matches (l : list (jsstr * jsstr)) : param_maps := fold_left add_match l (mkMaps [] [] []).

(** The parts from 0 on, up to the first that is missing. *)
Fixpoint joined_parts (fuel : nat) (i : Z) (m : gmap Z jsstr) : jsstr :=
  match fuel, m !! i with
  | S fuel', Some s => s ++ joined_parts fuel' (i + 1) m
  | _, _ => []
  end.

(** [None] when it throws. *)
Definition decode2231Value (value : jsstr) : option jsstr :=
  let quote1 := indexOf value [39] in
  let quote2 :=
    if 0 <=? quote1 then
      let k := indexOf (slice_from value (quote1 + 1)) [39] in
      if k =? -1 then -1 else quote1 + 1 + k
    else -1 in
  let charset := if 0 <=? quote1 then substring value 0 quote1 else [] in
  decode_once charset true (stringToTypedArray (substring value (Z.max quote1 quote2 + 1) (slen value))).

Definition add_continuation (values : list (jsstr * jsstr)) (p : jsstr * continuation) :
    list (jsstr * jsstr) :=
  let value := joined_parts (size (parts p.2)) 0 (parts p.2) in
  match hasCharset p.2 with
  | None => values
  | Some false => mset values p.1 value
  | Some true => match decode2231Value value with Some v => mset values p.1 v | None => values end
  end.

Definition add_charset (values : list (jsstr * jsstr)) (p : jsstr * jsstr) : list (jsstr * jsstr) :=
  match decode2231Value p.2 with Some v => mset values p.1 v | None => values end.

Definition param_values (doRFC2231 : bool) (m : param_maps) : list (jsstr * jsstr) :=
  let values :=
    if doRFC2231
    then fold_left add_charset (charsetValues m) (fold_left add_continuation (continuationValues m) (simpleValues m))
    else simpleValues m in
  map (λ p, (p.1, cleanToken p.2)) values.

(** The values, and [preSemi]. *)
Definition parseParameterHeader (headerValue : jsstr) (doRFC2047 doRFC2231 : bool) :
    option (list (jsstr * jsstr) * jsstr) :=
  let semi := indexOf headerValue [59] in
  let start := if semi <? 0 then headerValue else substring headerValue 0 semi in
  let rest := if semi <? 0 then [] else substring headerValue semi (slen headerValue) in
  let start := (span (λ c, negb (wsp c)) (trim start)).1 in
  (λ l, (param_values doRFC2231 (sort_matches (param_matches doRFC2231 l)), start))
    <$> getHeaderTokens rest (js ";=") (mkTokenOpts true false false doRFC2047).

(** ** Content-Type *)

Record ContentType := mkContentType {
  mediatype : jsstr;
  subtype : jsstr;
  type_ : jsstr;
  params : list (jsstr * jsstr)
}.

Definition newContentType (a b : jsstr) (l : list (jsstr * jsstr)) : ContentType :=
  let a := toLowerCase a in
  let b := toLowerCase b in
  mkContentType a b (a ++ js "/" ++ b) (fold_left (λ m p, mset m (toLowerCase p.1) p.2) l []).

Definition parseContentType (value : list jsstr) : option ContentType :=
  match head value with
  | Some v =>
      (λ r, match split_on 47 r.2 with
            | [a; b] => newContentType a b r.1
            | _ => newContentType (js "text") (js "plain") []
            end) <$> parseParameterHeader v false false
  | None => None
  end.

(** The decoder of Content-Transfer-Encoding. *)
Definition parseTransferEncoding (values : list jsstr) : option jsstr := toLowerCase <$> head values.

(** ** A block of headers *)

(** [split(/(?:\r\n|\n)(?![ \t])|\r(?![ \t\n])/)]. *)
Definition continues (s : jsstr) : bool :=
  match s with c :: _ => (c =? SP) || (c =? TAB) | [] => false end.

Fixpoint split_headers (s : jsstr) : list jsstr :=
  match s with
  | [] => [[]]
  | c :: s' =>
      let here :=
        if c =? CR then
          match s' with
          | d :: s'' => if d =? LF then if continues s'' then None else Some true
                        else if continues s' then None else Some false
          | [] => Some false
          end
        else if (c =? LF) && negb (continues s') then Some false else None in
      match here, s' with
      | Some true, _ :: s'' => [] :: split_headers s''
      | Some _, _ => [] :: split_headers s'
      | None, _ => match split_headers s' with
                   | w :: ws => (c :: w) :: ws
                   | [] => [[c]]
                   end
      end
  end.

Record MimeOptions := mkMimeOptions {
  pruneat : jsstr;
  bodyformat : jsstr;
  strformat : jsstr;
  stripcontinuations : bool;
  charset_opt : jsstr;
  force_charset : bool;
  decodeSubMessages : bool
}.

Definition defaultMimeOptions : MimeOptions :=
  mkMimeOptions [] (js "nodecode") (js "binarystring") true [] false true.

Record StructuredHeaders := mkHeaders {
  _rawHeaders : list (jsstr * list jsstr);
  rawHeaderText : jsstr;
  charset_ : jsstr;
  fixedContentType : option ContentType     (* of a part without the header *)
}.

Definition header_of (strip : bool) (v : jsstr) : jsstr * jsstr :=
  let colon := indexOf v [58] in
  let '(header, val) :=
    if 0 <=? colon then
      let val := trim (substring v (colon + 1) (slen v)) in
      (substring v 0 colon, if strip then List.filter (λ c, negb ((c =? CR) || (c =? LF))) val else val)
    else (v, []) in
  (toLowerCase (trim header), val).

Definition add_header (strip : bool) (m : list (jsstr * list jsstr)) (v : jsstr) : list (jsstr * list jsstr) :=
  let '(header, val) := header_of strip v in
  if str_truthy header then mset m header (default [] (mget m header) ++ [val]) else m.

Definition newStructuredHeaders (text : jsstr) (o : MimeOptions) : StructuredHeaders :=
  let values := split_headers text in
  let '(values, text) :=
    match values with
    | v :: rest =>
        if substring v 0 5 ==s js "From " then
          (rest, match rest with
                 | [] => []
                 | w :: _ => substring text (indexOf text w) (slen text)
                 end)
        else (values, text)
    | [] => (values, text)
    end in
  mkHeaders (fold_left (add_header (stripcontinuations o)) values []) text (charset_opt o) None.

Definition getRawHeader (h : StructuredHeaders) (name : jsstr) : option (list jsstr) :=
  mget (_rawHeaders h) (toLowerCase name).

Definition has_header (h : StructuredHeaders) (name : jsstr) : bool := mhas (_rawHeaders h) (toLowerCase name).

(** [get] of a header with a decoder that does not throw; the cache is not
    modelled, as it is emptied when the character set changes. *)
Definition get_header {X} (decoder : list jsstr → option X) (h : StructuredHeaders) (name : jsstr) : option X :=
  match getRawHeader h name with
  | Some l => decoder (map (λ v, convert8BitHeader v (charset_ h)) l)
  | None => None
  end.

Definition get_contentType (h : StructuredHeaders) : option ContentType :=
  match fixedContentType h with
  | Some t => Some t
  | None => get_header parseContentType h (js "Content-Type")
  end.
End Decoders.
