(* ===== verification/MimeParser.v ===== *)
(** * MimeParser: the streaming MIME parser of jsmime

    [MimeParser] of mailnews/mime/jsmime/jsmime.mjs: what a message gives its
    emitter, buffer by buffer.  A parser holds the parser of its current part in
    [_subparser]; the calls of the emitter are the events.  Every emitter has the
    four callbacks and none throws: one that has not, or that throws with an
    [onerror] that returns, sees a part of the same events.

    The methods call each other on shorter data or on a parser that is nested
    less deep, within a fuel whose end is an event, [OutOfFuel]; MimeFuel.v shows
    that [measure] is enough. *)

From S2P Require Import Prelude Effects MimeUtils MimeHeaders.

(** ** The data model *)

Inductive parser_state := PARSING_HEADERS | SEND_TO_BLACK_HOLE | SEND_TO_EMITTER | SEND_TO_SUBPARSER.

(** [_convertData]: the function of a multipart, a decoder of [ContentDecoders], or
    what the latter inherits under a lower-case name: the function [Object] as
    [constructor], and [__proto__], which is no function. *)
Inductive converter := CMultipart | CQuotedPrintable | CBase64 | CObject | CProto.

(** The data an emitter is given. *)
Inductive data := Str (s : jsstr) | Typed (l : list Z).

(** [_decoder]: of a character set, or the one that takes the bytes as they are. *)
Inductive body_decoder (D : Type) := DCharset (d : D) | DIdentity.
Arguments DCharset {D}. Arguments DIdentity {D}.

Inductive event :=
  | StartMessage
  | EndMessage
  | StartPart (partNum : jsstr) (headers : StructuredHeaders)
  | EndPart (partNum : jsstr)
  | DeliverPartData (partNum : jsstr) (d : data)
  | OutOfFuel.

Inductive MimeParser (D : Type) := mkMimeParser {
  _state : parser_state;
  _holdData : jsstr;
  _headerData : jsstr;
  _triggeredCall : bool;
  _splitRegex : option jsstr;              (* the boundary; _handleSplit is _whenMultipart *)
  _subparser : option (MimeParser D);
  _subPartNum : option jsstr;
  _savedBuffer : jsstr;
  _convertData : option converter;
  _decoder : option (body_decoder D);
  _defaultContentType : option jsstr;
  _headers : option StructuredHeaders;
  _charset : jsstr;
  _count : Z
}.
Arguments mkMimeParser {D}.
Arguments _state {D}. Arguments _holdData {D}. Arguments _headerData {D}. Arguments _triggeredCall {D}.
Arguments _splitRegex {D}. Arguments _subparser {D}. Arguments _subPartNum {D}. Arguments _savedBuffer {D}.
Arguments _convertData {D}. Arguments _decoder {D}. Arguments _defaultContentType {D}. Arguments _headers {D}.
Arguments _charset {D}. Arguments _count {D}.
#[export] Instance eta_MimeParser D : Settable (MimeParser D) := λ p,
  mkMimeParser (_state p) (_holdData p) (_headerData p) (_triggeredCall p) (_splitRegex p) (_subparser p)
    (_subPartNum p) (_savedBuffer p) (_convertData p) (_decoder p) (_defaultContentType p) (_headers p)
    (_charset p) (_count p).

(** [resetParser]: the fields it does not name stay. *)
Definition resetParser {D} (p : MimeParser D) : MimeParser D :=
  mkMimeParser PARSING_HEADERS [] [] false None None None [] None None
    (_defaultContentType p) (_headers p) (_charset p) (_count p).

(** The constructor; the options and the emitter are the parameters of the methods. *)
Definition newMimeParser {D} : MimeParser D :=
  mkMimeParser PARSING_HEADERS [] [] false None None None [] None None None None [] 0.

(** ** Lines *)

(** [s.lastIndexOf(c, from)] for one character: a negative [from] is taken as 0. *)
Fixpoint last_index_upto (c : Z) (n : nat) (s : jsstr) : Z :=
  match s, n with
  | [], _ => -1
  | d :: _, O => if d =? c then 0 else -1
  | d :: s', S n' =>
      let r := last_index_upto c n' s' in
      if 0 <=? r then r + 1 else if d =? c then 0 else -1
  end.

Definition lastIndexOf (s : jsstr) (c from : Z) : Z := last_index_upto c (Z.to_nat (Z.max 0 from)) s.

Definition conditionToEndOnCRLF (buffer : jsstr) : jsstr * jsstr :=
  let lastCR := lastIndexOf buffer CR (slen buffer - 2) in
  let lastLF := lastIndexOf buffer LF (slen buffer) in
  let end_ := if lastCR <? lastLF then lastLF else lastCR in
  (substring buffer 0 (end_ + 1), substring buffer (end_ + 1) (slen buffer)).

(** [\r\n|[\r\n]] at the start: the length matched. *)
Definition eol_here (s : jsstr) : option nat :=
  match s with
  | c :: d :: _ => if (c =? CR) && (d =? LF) then Some 2%nat
                   else if (c =? CR) || (c =? LF) then Some 1%nat else None
  | [c] => if (c =? CR) || (c =? LF) then Some 1%nat else None
  | [] => None
  end.

(** [(\r\n|[\r\n])\1] at the start. *)
Definition double_eol_here (s : jsstr) : option nat :=
  if startsWith s (CRLF ++ CRLF) then Some 4%nat
  else match s with
       | c :: d :: _ => if ((c =? CR) || (c =? LF)) && (d =? c) then Some 2%nat else None
       | _ => None
       end.

(** Its first match: the text before, and what follows it. *)
Fixpoint find_double_eol (s : jsstr) : option (jsstr * jsstr) :=
  match double_eol_here s, s with
  | Some n, _ => Some ([], drop n s)
  | None, c :: s' => (λ r, (c :: r.1, r.2)) <$> find_double_eol s'
  | None, [] => None
  end.

(** [(?:^(?:\r\n|[\r\n]))|(\r\n|[\r\n])\1]. *)
Definition end_of_headers (s : jsstr) : option (jsstr * jsstr) :=
  match eol_here s with
  | Some n => Some ([], drop n s)
  | None => find_double_eol s
  end.

(** The delimiter line of a boundary after its line break:
    [--BOUNDARY(--)?[ \t]*(?:\r\n|[\r\n]|$)]. It gives whether it closes, and the rest. *)
Definition blank (c : Z) : bool := (c =? SP) || (c =? TAB).

Definition after_boundary (s : jsstr) : option jsstr :=
  let rest := (span blank s).2 in
  match eol_here rest, rest with
  | Some n, _ => Some (drop n rest)
  | None, [] => Some []
  | None, _ => None
  end.

Definition delimiter_here (boundary s : jsstr) : option (bool * jsstr) :=
  let dashes := js "--" ++ boundary in
  if startsWith s dashes then
    let s1 := drop (length dashes) s in
    match (if startsWith s1 (js "--") then after_boundary (drop 2 s1) else None) with
    | Some rest => Some (true, rest)
    | None => (λ rest, (false, rest)) <$> after_boundary s1
    end
  else None.

(** The result of [_splitRegex]: the text before, whether the first group is empty,
    whether the delimiter closes, and the text after. *)
Record split_result := mkSplit { before : jsstr; at_start : bool; closes : bool; after : jsstr }.

Fixpoint find_delimiter (boundary s : jsstr) : option split_result :=
  match (match eol_here s with Some n => delimiter_here boundary (drop n s) | None => None end) with
  | Some (b, rest) => Some (mkSplit [] false b rest)
  | None =>
      match s with
      | c :: s' => (λ r, mkSplit (c :: before r) false (closes r) (after r)) <$> find_delimiter boundary s'
      | [] => None
      end
  end.

(** [(\r\n|[\r\n]|^)--BOUNDARY(--)?[ \t]*(?:\r\n|[\r\n]|$)]. *)
Definition split_at (boundary s : jsstr) : option split_result :=
  match (match eol_here s with Some n => delimiter_here boundary (drop n s) | None => None end) with
  | Some (b, rest) => Some (mkSplit [] false b rest)
  | None =>
      match delimiter_here boundary s with
      | Some (b, rest) => Some (mkSplit [] true b rest)
      | None => find_delimiter boundary s
      end
  end.

(** The [_convertData] of a multipart: the last line is held back, and the line
    break before it. *)
Definition hold_last_line (buffer : jsstr) (more : bool) : jsstr * jsstr :=
  let n := slen buffer in
  let splitPoint := if more && bool_decide (charAt buffer (n - 1) = Some LF) then n - 1 else n in
  let splitPoint := if more && bool_decide (charAt buffer (splitPoint - 1) = Some CR) then splitPoint - 1
                    else splitPoint in
  let '(preLF, rest) := conditionToEndOnCRLF (substring buffer 0 splitPoint) in
  (preLF, rest ++ substring buffer splitPoint n).

(** The end of a saved line without its line break. *)
Definition strip_line_break (s : jsstr) : jsstr :=
  let useEnd := slen s - 1 in
  let useEnd := if bool_decide (charAt s useEnd = Some LF) then useEnd - 1 else useEnd in
  let useEnd := if (0 <=? useEnd) && bool_decide (charAt s useEnd = Some CR) then useEnd - 1 else useEnd in
  substring s 0 (useEnd + 1).

(** ** Methods *)

Section Methods.
Context {D : Type} `{TextDecoder D}.
Variable o : MimeOptions.
Abbreviation parser := (MimeParser D).
Abbreviation act := (eff parser event).

Definition _willIgnorePart (part : jsstr) : bool :=
  let match_ := pruneat o in
  str_truthy match_ &&
  (negb (substring part 0 (slen match_) ==s match_)
   || ((slen match_ <? slen part)
       && negb (bool_decide (default 0 (charAt part (slen match_)) ∈ js "$.")))).

(** [_callEmitter] with a part number. *)
Definition _callEmitter (partNum : jsstr) (e : event) : act unit :=
  when (negb (_willIgnorePart partNum)) (emit e).

(** The default, which is parsed like a header. *)
Definition default_content_type (dflt : option jsstr) : option ContentType :=
  parseContentType [match dflt with
                    | Some t => if str_truthy t then t else js "text/plain"
                    | None => js "text/plain"
                    end].

(** A loop of the source over what may be missing, which it never is. *)
Definition or_throw {X} (x : option X) : act X := match x with Some x => ret x | None => throw end.

Definition _parseHeaders : act unit :=
  let! p := gets id in
  let headers := newStructuredHeaders (_headerData p) o in
  (let! headers :=
     match get_contentType headers with
     | Some _ => ret headers
     | None =>
         let! t := or_throw (default_content_type (_defaultContentType p)) in
         ret (mkHeaders (_rawHeaders headers) (rawHeaderText headers) (charset_ headers) (Some t))
     end in
   let! contentType := or_throw (get_contentType headers) in
   let charset :=
     if force_charset o then charset_opt o
     else match mget (params contentType) (js "charset") with
          | Some c => c
          | None => charset_opt o
          end in
   (this, _headers := Some (mkHeaders (_rawHeaders headers) (rawHeaderText headers) charset
                              (fixedContentType headers))) >>
   (this, _charset := charset)).

(** [_extractHeader("content-transfer-encoding", "")]. *)
Definition transfer_encoding (h : StructuredHeaders) : jsstr :=
  default [] (get_header parseTransferEncoding h (js "content-transfer-encoding")).

(** [cte in ContentDecoders ? ContentDecoders[cte]]; names the object inherits are
    in it too. *)
Definition content_decoder (cte : jsstr) : option converter :=
  if cte ==s js "quoted-printable" then Some CQuotedPrintable
  else if cte ==s js "base64" then Some CBase64
  else if cte ==s js "constructor" then Some CObject
  else if cte ==s js "__proto__" then Some CProto
  else None.

Definition is_message (t : jsstr) : bool :=
  bool_decide (t ∈ [js "message/rfc822"; js "message/global"; js "message/news"]).

Definition _startBody (partNum : jsstr) : act unit :=
  let! p := gets id in
  let! headers := or_throw (_headers p) in
  let! contentType := or_throw (get_contentType headers) in
  if (bodyformat o ==s js "raw") && (partNum ==s pruneat o) then this, _state := SEND_TO_EMITTER
  else
    let decodeSub :=
      if negb (decodeSubMessages o) && str_truthy (pruneat o)
      then (slen partNum <? slen (pruneat o)) && startsWith (pruneat o) partNum
      else decodeSubMessages o in
    let decoder_of :=
      let! p := gets id in
      this, _decoder :=
        if (strformat o ==s js "unicode") && (mediatype contentType ==s js "text") then
          Some (match (if negb (_charset p ==s []) then new_decoder (_charset p) false else None) with
                | Some d => DCharset d
                | None => DIdentity
                end)
        else None in
    if mediatype contentType ==s js "multipart" then
      match mget (params contentType) (js "boundary") with
      | None => this, _state := SEND_TO_BLACK_HOLE
      | Some boundary =>
          (this, _splitRegex := Some boundary) >>
          (this, _subparser := Some (if subtype contentType ==s js "digest"
                                     then newMimeParser <| _defaultContentType := Some (js "message/rfc822") |>
                                     else newMimeParser)) >>
          (this, _state := SEND_TO_BLACK_HOLE) >>
          (this, _convertData := Some CMultipart) >> decoder_of
      end
    else if (decodeSub || _willIgnorePart partNum) && is_message (type_ contentType) then
      (this, _state := SEND_TO_SUBPARSER) >>
      (this, _subPartNum := Some (partNum ++ js "$")) >>
      (this, _subparser := Some newMimeParser) >>
      (match content_decoder (transfer_encoding headers) with
       | Some c => this, _convertData := Some c
       | None => skip
       end) >> decoder_of
    else
      (this, _state := SEND_TO_EMITTER) >>
      (if bodyformat o ==s js "decode" then
         match content_decoder (transfer_encoding headers) with
         | Some c => this, _convertData := Some c
         | None => skip
         end
       else skip) >> decoder_of.

(** [_convertData(buf, more)].  [Object(buf)] is a string object, of which the
    destructuring takes the first two characters; the second is missing only at the
    end of a body of one character. *)
Definition convert (c : converter) (buf : jsstr) (more : bool) : option (jsstr * jsstr) :=
  match c with
  | CMultipart => Some (hold_last_line buf more)
  | CQuotedPrintable => Some (decode_qp buf)
  | CBase64 => decode_base64 buf more
  | CObject => match buf with
               | a :: b :: _ => Some ([a], [b])
               | [a] => Some ([a], [])
               | [] => None
               end
  | CProto => None
  end.

(** [_coerceData] of a string; the decoder never streams, since [more] is always
    false when it gets there. *)
Definition _coerceData (p : parser) (buffer : jsstr) (type : jsstr) : option data :=
  if type ==s js "binarystring" then Some (Str buffer)
  else
    let typedarray := stringToTypedArray buffer in
    if type ==s js "unicode" then
      match _decoder p with
      | Some (DCharset d) => (λ r, Str (fst r)) <$> decode d typedarray false
      | Some DIdentity => Some (Str (typedArrayToString typedarray))
      | None => Some (Typed typedarray)
      end
    else Some (Typed typedarray).

Definition data_length (d : data) : Z := match d with Str s => slen s | Typed l => Z.of_nat (length l) end.

Definition _applyDataConversion (buf : jsstr) : act jsstr :=
  let! p := gets id in
  match _convertData p with
  | Some c =>
      let! r := or_throw (convert c (_savedBuffer p ++ buf) true) in
      (this, _savedBuffer := r.2) >> ret r.1
  | None => ret buf
  end.

(** To the emitter, if there is something. *)
Definition deliver (partNum buffer : jsstr) : act unit :=
  let! p := gets id in
  let! d := or_throw (_coerceData p buffer (strformat o)) in
  when (0 <? data_length d) (_callEmitter partNum (DeliverPartData partNum d)).

(** A method of the subparser. *)
Definition on_subparser (m : act unit) : act unit := λ p,
  match _subparser p with
  | Some s => let '(s', o, r) := m s in (p <| _subparser := Some s' |>, o, r)
  | None => (p, [], None)
  end.

Definition subPartNum (p : parser) : jsstr := default undefined_str (_subPartNum p).

(** The rest of [_dispatchEOF] of the methods below, which are its subparser's. *)
Fixpoint dispatchEOF (dispatchData : jsstr → jsstr → act unit) (fuel : nat) (partNum : jsstr) : act unit :=
  match fuel with
  | O => emit OutOfFuel
  | S fuel' =>
      (let! p := gets id in
       match _state p with
       | PARSING_HEADERS =>
           _parseHeaders >>
           (let! p := gets id in
            let! h := or_throw (_headers p) in
            _callEmitter partNum (StartPart partNum h))
       | SEND_TO_SUBPARSER =>
           (match _convertData p with
            | Some c =>
                if str_truthy (_savedBuffer p) then
                  let! r := or_throw (convert c (_savedBuffer p) false) in
                  on_subparser (dispatchData (subPartNum p) r.1)
                else skip
            | None => skip
            end) >>
           on_subparser (dispatchEOF dispatchData fuel' (subPartNum p)) >>
           (this, _subparser := None)
       | _ =>
           match _convertData p with
           | Some c =>
               if str_truthy (_savedBuffer p) then
                 let! r := or_throw (convert c (_savedBuffer p) false) in
                 deliver partNum r.1
               else skip
           | None => skip
           end
       end) >>
      _callEmitter partNum (EndPart partNum)
  end.

(** [_whenMultipart], given the two methods of the subparser: the end of the part
    before the delimiter, *)
Definition end_subpart (dispatchData : jsstr → jsstr → act unit) (eof : jsstr → act unit)
    (r : split_result) : act unit :=
  (let! p := gets id in
   when (negb (_savedBuffer p ==s []) && at_start r)
     (this, _savedBuffer := strip_line_break (_savedBuffer p))) >>
  (let! p := gets id in
   when (negb (_savedBuffer p ==s []))
     (on_subparser (dispatchData (subPartNum p) (_savedBuffer p)))) >>
  (let! p := gets id in on_subparser (eof (subPartNum p))).

(** and the start of the part behind it. *)
Definition next_subpart (partNum : jsstr) (r : split_result) : act unit :=
  let prefix := if partNum ==s [] then partNum else partNum ++ js "." in
  (this, _savedBuffer := []) >>
  (if closes r then (this, _splitRegex := None) >> (this, _state := SEND_TO_BLACK_HOLE)
   else
     on_subparser (modify resetParser) >>
     (this, _state := SEND_TO_SUBPARSER) >>
     (let! p := gets id in
      this, _subPartNum := Some (prefix ++ num_str (_count p))) >>
     (this, _count ::= Z.succ)).

Definition whenMultipart (dispatchData : jsstr → jsstr → act unit) (eof : jsstr → act unit)
    (partNum : jsstr) (r : split_result) : act unit :=
  (let! p := gets id in
   if negb (str_truthy (default [] (_subPartNum p))) then this, _count := 1
   else end_subpart dispatchData eof r) >>
  next_subpart partNum r.

(** Where data goes that holds no delimiter. *)
Definition send_data (dispatchData : jsstr → jsstr → act unit) (partNum buffer : jsstr) : act unit :=
  let! p := gets id in
  match _state p with
  | SEND_TO_EMITTER =>
      if (bodyformat o ==s js "none") || _willIgnorePart partNum then skip
      else let! b := _applyDataConversion buffer in deliver partNum b
  | SEND_TO_SUBPARSER =>
      let! b := _applyDataConversion buffer in
      when (0 <? slen b) (on_subparser (dispatchData (subPartNum p) b))
  | _ => skip
  end.

(** The part of [_dispatchData(partNum, buffer, true)] behind the headers; the calls
    with [false] are [send_data]. *)
Definition dispatchBody (dispatchData : jsstr → jsstr → act unit) (eof : jsstr → act unit)
    (partNum buffer : jsstr) : act unit :=
  let! p := gets id in
  match _splitRegex p with
  | Some boundary =>
      match split_at boundary buffer with
      | Some r =>
          when (0 <? slen (before r)) (send_data dispatchData partNum (before r)) >>
          whenMultipart dispatchData eof partNum r >>
          when (0 <? slen (after r)) (dispatchData partNum (after r))
      | None => send_data dispatchData partNum buffer
      end
  | None => send_data dispatchData partNum buffer
  end.

Fixpoint dispatchData (fuel : nat) (partNum buffer : jsstr) : act unit :=
  match fuel with
  | O => emit OutOfFuel
  | S fuel' =>
      let body := dispatchBody (dispatchData fuel') (dispatchEOF (dispatchData fuel') fuel') partNum in
      let! p := gets id in
      match _state p with
      | PARSING_HEADERS =>
          (this, _headerData := (_headerData p ++ buffer)) >>
          match end_of_headers (_headerData p ++ buffer) with
          | Some (headers, rest) =>
              (this, _headerData := headers) >>
              _parseHeaders >>
              (let! p := gets id in
               let! h := or_throw (_headers p) in
               _callEmitter partNum (StartPart partNum h)) >>
              _startBody partNum >>
              body rest
          | None => skip
          end
      | _ => body buffer
      end
  end.

(** The data a parser holds, twice, and how deep it is. *)
Fixpoint measure (p : parser) : nat :=
  (2 * length (_headerData p) + 2 * length (_savedBuffer p)
   + match _subparser p with Some s => S (measure s) | None => 0 end)%nat.

(** Enough fuel for a buffer. *)
Definition fuel_for (p : parser) (buffer : jsstr) : nat := (measure p + 2 * length buffer + 2)%nat.

Definition _dispatchData (partNum buffer : jsstr) : act unit := λ p,
  dispatchData (fuel_for p buffer) partNum buffer p.

Definition _dispatchEOF (partNum : jsstr) : act unit := λ p,
  dispatchEOF (dispatchData (fuel_for p [])) (fuel_for p []) partNum p.

Definition start_message : act unit :=
  let! p := gets id in
  when (negb (_triggeredCall p)) (emit StartMessage >> (this, _triggeredCall := true)).

(** The empty string is conditioned to two empty ones. *)
Definition deliverData (buffer : jsstr) : act unit :=
  let! p := gets id in
  let '(buffer, hold) := conditionToEndOnCRLF (_holdData p ++ buffer) in
  (this, _holdData := hold) >>
  when (str_truthy buffer) (start_message >> _dispatchData [] buffer).

Definition deliverEOF : act unit :=
  start_message >>
  (let! p := gets id in
   when (str_truthy (_holdData p)) (_dispatchData [] (_holdData p))) >>
  _dispatchEOF [] >>
  emit EndMessage.

(** A whole message. *)
Definition parse_message (buffers : list jsstr) : act unit :=
  for_each buffers deliverData >> deliverEOF.
End Methods.
