(* ===== verification/MimeText.v ===== *)
(** * MimeText: the texts the MIME parser cuts

    What the searches of MimeParser.v find: the last line break, the end of the
    headers, the next delimiter; and that a text cut behind a line break is searched
    like the whole.  A text is [paired] when each CR in it is followed by LF. *)

From S2P Require Import Prelude Effects MimeUtils MimeHeaders MimeParser.

(** ** Lines *)

(** Nothing, or a text that ends with LF. *)
Definition aligned (s : jsstr) : Prop := s = [] ∨ last s = Some LF.

(** The text up to its last LF, and the rest. *)
Fixpoint cut_line (s : jsstr) : jsstr * jsstr :=
  match s with
  | [] => ([], [])
  | c :: s' =>
      let '(a, b) := cut_line s' in
      match a with
      | [] => if c =? LF then ([c], b) else ([], c :: b)
      | _ => (c :: a, b)
      end
  end.

Lemma cut_line_spec s : s = (cut_line s).1 ++ (cut_line s).2 ∧ aligned (cut_line s).1 ∧ LF ∉ (cut_line s).2.
Proof.
  induction s as [|c s (IH1 & IH2 & IH3)]; [split; [|split]; [done|by left|by intros ?%elem_of_nil]|].
  cbn [cut_line]. destruct (cut_line s) as [a b]. cbn [fst snd] in *. subst s. destruct a as [|x a].
  - destruct (Z.eqb_spec c LF) as [->|Hne]; cbn [fst snd]; (split; [done|split]).
    + by right.
    + done.
    + by left.
    + by intros [?|?]%elem_of_cons.
  - split_and!; [done| |done]. right. destruct IH2 as [|IH2]; [done|]. exact IH2.
Qed.

Lemma aligned_app a b : aligned a → aligned b → aligned (a ++ b).
Proof.
  intros Ha [->|Hb]; [by rewrite app_nil_r|]. right. by rewrite last_app, Hb.
Qed.

Lemma aligned_app_r a b : aligned (a ++ b) → aligned b.
Proof.
  intros [[-> ->]%app_eq_nil|Hl]; [by left|]. rewrite last_app in Hl.
  destruct b as [|x b]; [by left|]. right. destruct (last (x :: b)) eqn:E; [done|].
  by apply last_None in E.
Qed.

Lemma aligned_LF a b : aligned a → LF ∉ b → aligned (a ++ b) → b = [].
Proof.
  intros Ha Hb Hab%aligned_app_r. destruct Hab as [|Hl]; [done|]. exfalso. apply Hb.
  by apply last_Some_elem_of.
Qed.

Lemma cut_line_unique s a b : s = a ++ b → aligned a → LF ∉ b → cut_line s = (a, b).
Proof.
  intros -> Ha Hb. revert Ha. induction a as [|c a IH]; intros Ha.
  - cbn [app]. clear Ha. induction b as [|c b IH]; [done|]. apply not_elem_of_cons in Hb as [Hc Hb].
    cbn [cut_line]. rewrite IH by done. destruct (Z.eqb_spec c LF); [congruence|done].
  - cbn [app cut_line]. destruct Ha as [?|Hl]; [done|].
    destruct a as [|d a].
    + injection Hl as ->. rewrite IH by (by left). done.
    + rewrite IH by (by right). done.
Qed.

Lemma cut_line_aligned s : aligned s → cut_line s = (s, []).
Proof. intros Hs. apply cut_line_unique; [by rewrite app_nil_r|done|by intros ?%elem_of_nil]. Qed.

(** Every CR is followed by LF. *)
Fixpoint paired (s : jsstr) : bool :=
  match s with
  | [] => true
  | c :: s' => negb ((c =? CR) && negb (bool_decide (head s' = Some LF))) && paired s'
  end.

Lemma paired_app_r a b : paired (a ++ b) = true → paired b = true.
Proof. induction a as [|c a IH]; [done|]. cbn [app paired]. intros [_ ?]%andb_true_iff. auto. Qed.

Lemma paired_cons c s : paired (c :: s) = true ↔ (c = CR → head s = Some LF) ∧ paired s = true.
Proof.
  cbn [paired]. rewrite andb_true_iff, negb_true_iff, andb_false_iff, Z.eqb_neq, negb_false_iff,
    bool_decide_eq_true. destruct (decide (c = CR)); naive_solver.
Qed.

Lemma paired_lookup s i : paired s = true → s !! i = Some CR → s !! S i = Some LF.
Proof.
  revert i. induction s as [|c s IH]; intros i Hp Hi; [done|]. apply paired_cons in Hp as [Hc Hp].
  destruct i as [|i].
  - injection Hi as ->. cbn. specialize (Hc eq_refl). by destruct s.
  - cbn in *. by apply IH.
Qed.

(** A part of a paired text, which may be cut between CR and LF. *)
Definition prefix_paired (s : jsstr) : Prop := ∀ i, s !! i = Some CR → S i = length s ∨ s !! S i = Some LF.

Lemma paired_prefix a b : paired (a ++ b) = true → prefix_paired a.
Proof.
  intros Hp i Hi. pose proof (lookup_lt_Some _ _ _ Hi) as Hlt.
  pose proof (paired_lookup (a ++ b) i Hp) as Hl. rewrite lookup_app_l in Hl by done. specialize (Hl Hi).
  destruct (decide (S i = length a)); [by left|right]. rewrite lookup_app_l in Hl by lia. done.
Qed.

Lemma paired_aligned_app a b : aligned a → paired a = true → paired b = true → paired (a ++ b) = true.
Proof.
  induction a as [|c a IH]; intros Ha Hpa Hpb; [done|]. apply paired_cons in Hpa as [Hc Hpa].
  cbn [app]. apply paired_cons. destruct a as [|d a].
  - split; [|done]. intros ->. by specialize (Hc eq_refl).
  - split; [done|]. apply IH; [|done..]. destruct Ha as [|Hl]; [done|]. by right.
Qed.

Lemma paired_aligned_l a b : aligned a → paired (a ++ b) = true → paired a = true.
Proof.
  induction a as [|c a IH]; intros Ha Hp; [done|]. cbn [app] in Hp. apply paired_cons in Hp as [Hc Hp].
  apply paired_cons. destruct a as [|d a].
  - split; [|done]. intros ->. destruct Ha as [|[=]]; done.
  - split; [done|]. apply IH; [|done]. destruct Ha as [|Hl]; [done|]. by right.
Qed.

(** ** [conditionToEndOnCRLF] *)

Lemma last_index_spec c n s :
  (last_index_upto c n s = -1 ∧ ∀ i, (i <= n)%nat → s !! i ≠ Some c) ∨
  (∃ k, last_index_upto c n s = Z.of_nat k ∧ (k <= n)%nat ∧ s !! k = Some c ∧
        ∀ i, (k < i <= n)%nat → s !! i ≠ Some c).
Proof.
  revert n. induction s as [|d s IH]; intros n; [left; destruct n; by split|].
  destruct n as [|n]; cbn [last_index_upto].
  - destruct (Z.eqb_spec d c) as [->|Hne].
    + right. exists 0%nat. split_and!; [done|lia|done|lia].
    + left. split; [done|]. intros i Hi. assert (i = 0%nat) as -> by lia. cbn. congruence.
  - destruct (IH n) as [[-> Hn]|(k & -> & Hk & Hl & Hn)].
    + cbn. destruct (Z.eqb_spec d c) as [->|Hne].
      * right. exists 0%nat. split_and!; [done|lia|done|]. intros [|i] Hi; [lia|]. cbn. apply Hn. lia.
      * left. split; [done|]. intros [|i] Hi; cbn; [congruence|]. apply Hn. lia.
    + rewrite (proj2 (Z.leb_le _ _)) by lia. right. exists (S k). split_and!; [lia|lia|done|].
      intros [|i] Hi; [lia|]. cbn. apply Hn. lia.
Qed.

Lemma lookup_aligned_last a b : a ≠ [] → aligned a → (a ++ b) !! pred (length a) = Some LF.
Proof.
  intros Hne [?|Hl]; [done|]. rewrite last_lookup in Hl. rewrite lookup_app_l; [done|].
  destruct a; [done|cbn; lia].
Qed.

(** The data that is dispatched ends with its last line break, unless a CR is all
    there is. *)
Lemma condition_cut s : prefix_paired s → s ≠ [CR] → conditionToEndOnCRLF s = cut_line s.
Proof.
  intros Hp Hne. destruct (cut_line_spec s) as (Hs & Ha & Hb). set (a := (cut_line s).1) in *.
  set (b := (cut_line s).2) in *. rewrite (cut_line_unique s a b Hs Ha Hb).
  unfold conditionToEndOnCRLF, lastIndexOf.
  assert (Hlf : last_index_upto LF (Z.to_nat (Z.max 0 (slen s))) s = Z.of_nat (length a) - 1).
  { destruct (last_index_spec LF (Z.to_nat (Z.max 0 (slen s))) s) as [[-> Hn]|(k & -> & Hk & Hl & Hn)].
    - destruct (decide (a = [])) as [->|Hna]; [done|]. exfalso.
      apply (Hn (pred (length a))); [|rewrite Hs; by apply lookup_aligned_last].
      unfold slen. rewrite Hs, length_app. lia.
    - assert (k < length a)%nat.
      { destruct (decide (k < length a)%nat); [done|]. exfalso. apply Hb. rewrite Hs in Hl.
        rewrite lookup_app_r in Hl by lia. by eapply list_elem_of_lookup_2. }
      destruct (decide (k = pred (length a))) as [->|Hkn]; [lia|]. exfalso.
      apply (Hn (pred (length a))); [unfold slen; rewrite Hs, length_app; lia|].
      rewrite Hs. apply lookup_aligned_last; [|done]. intros Hnil. rewrite Hnil in *. cbn in *. lia. }
  rewrite Hlf.
  assert (Hcr : last_index_upto CR (Z.to_nat (Z.max 0 (slen s - 2))) s <= Z.of_nat (length a) - 1).
  { destruct (last_index_spec CR (Z.to_nat (Z.max 0 (slen s - 2))) s) as [[-> _]|(k & -> & Hk & Hl & _)]; [lia|].
    destruct (Hp k Hl) as [Hend|Hnext].
    - unfold slen in Hk. assert (length s = 1%nat) by lia. destruct s as [|x [|]]; try done.
      assert (k = 0%nat) as -> by (cbn in *; lia). injection Hl as ->. done.
    - assert (S k < length a)%nat; [|lia]. destruct (decide (S k < length a)%nat); [done|]. exfalso.
      apply Hb. rewrite Hs in Hnext. rewrite lookup_app_r in Hnext by lia. by eapply list_elem_of_lookup_2. }
  assert ((if last_index_upto CR (Z.to_nat (Z.max 0 (slen s - 2))) s <? Z.of_nat (length a) - 1
           then Z.of_nat (length a) - 1 else last_index_upto CR (Z.to_nat (Z.max 0 (slen s - 2))) s)
          = Z.of_nat (length a) - 1) as ->.
  { destruct (Z.ltb_spec (last_index_upto CR (Z.to_nat (Z.max 0 (slen s - 2))) s) (Z.of_nat (length a) - 1)); lia. }
  replace (Z.of_nat (length a) - 1 + 1) with (Z.of_nat (length a)) by lia.
  assert (Hlen : slen s = Z.of_nat (length a) + Z.of_nat (length b)) by (unfold slen; rewrite Hs, length_app; lia).
  clearbody a b. clear Hlf Hcr. subst s. f_equal.
  - rewrite substring_nonneg, Z.sub_0_r, Nat2Z.id by lia. apply take_app_length.
  - rewrite substring_nonneg, Nat2Z.id, drop_app_length by lia. apply take_ge. lia.
Qed.

(** ** The last line of a part, held back *)

Lemma charAt_last s : charAt s (slen s - 1) = last s.
Proof.
  unfold charAt, slen. destruct (Z.ltb_spec (Z.of_nat (length s) - 1) 0).
  - by destruct s; [|cbn in *; lia].
  - rewrite last_lookup. f_equal. lia.
Qed.

Lemma charAt_app_l s t i : i < slen s → charAt (s ++ t) i = charAt s i.
Proof.
  unfold charAt, slen. intros Hi. destruct (Z.ltb_spec i 0); [done|]. apply lookup_app_l. lia.
Qed.

Lemma substring_app_l s t : substring (s ++ t) 0 (slen s) = s.
Proof.
  rewrite substring_nonneg by (unfold slen; lia). unfold slen.
  rewrite Z.sub_0_r, Nat2Z.id. apply take_app_length.
Qed.

Lemma substring_app_r s t : substring (s ++ t) (slen s) (slen (s ++ t)) = t.
Proof.
  unfold slen. rewrite substring_nonneg by (rewrite length_app; lia).
  rewrite Nat2Z.id, drop_app_length. apply take_ge. rewrite length_app. lia.
Qed.

(** The line break a text ends with, and what is before it. *)
Definition line_break (t e : jsstr) : Prop := e = CRLF ∨ (e = [LF] ∧ last t ≠ Some CR).

Lemma aligned_break s : aligned s → s ≠ [] → ∃ t e, s = t ++ e ∧ line_break t e.
Proof.
  intros [->|Hl] Hne; [done|]. apply last_Some in Hl as [t ->].
  destruct (decide (last t = Some CR)) as [Hc|Hc].
  - apply last_Some in Hc as [u ->]. exists u, CRLF. by rewrite <- (assoc_L (++)); split; [|left].
  - exists t, [LF]. by split; [|right].
Qed.

Lemma strip_break t e : line_break t e → strip_line_break (t ++ e) = t.
Proof.
  intros He. unfold strip_line_break. rewrite charAt_last, last_app.
  assert (last e = Some LF) as -> by (destruct He as [-> |[-> _]]; done).
  rewrite bool_decide_eq_true_2 by done.
  assert (Hlen : slen (t ++ e) = slen t + slen e) by (unfold slen; rewrite length_app; lia).
  destruct He as [-> | [-> Hc]].
  - change (slen CRLF) with 2 in Hlen. rewrite Hlen.
    replace (slen t + 2 - 1 - 1) with (slen t) by lia.
    rewrite (proj2 (Z.leb_le 0 (slen t))) by (unfold slen; lia).
    assert (charAt (t ++ CRLF) (slen t) = Some CR) as ->.
    { unfold charAt, slen. rewrite (proj2 (Z.ltb_ge _ _)) by lia. rewrite Nat2Z.id.
      rewrite lookup_app_r by lia. by rewrite Nat.sub_diag. }
    rewrite bool_decide_eq_true_2 by done. cbn [andb]. replace (slen t - 1 + 1) with (slen t) by lia.
    apply substring_app_l.
  - change (slen [LF]) with 1 in Hlen. rewrite Hlen.
    replace (slen t + 1 - 1 - 1) with (slen t - 1) by lia.
    rewrite charAt_app_l by lia. rewrite charAt_last, (bool_decide_eq_false_2 (last t = Some CR)) by done.
    rewrite andb_false_r. replace (slen t - 1 + 1) with (slen t) by lia. apply substring_app_l.
Qed.

Lemma hold_break t e : line_break t e →
  hold_last_line (t ++ e) true
  = ((conditionToEndOnCRLF t).1, (conditionToEndOnCRLF t).2 ++ e).
Proof.
  intros He. unfold hold_last_line. rewrite charAt_last, last_app.
  assert (last e = Some LF) as -> by (destruct He as [-> |[-> _]]; done).
  rewrite (bool_decide_eq_true_2 (Some LF = Some LF)) by done. cbn [andb].
  assert (Hlen : slen (t ++ e) = slen t + slen e) by (unfold slen; rewrite length_app; lia).
  assert (Hsp : (if bool_decide (charAt (t ++ e) (slen (t ++ e) - 1 - 1) = Some CR)
                 then slen (t ++ e) - 1 - 1 else slen (t ++ e) - 1) = slen t).
  { destruct He as [-> | [-> Hc]].
    - change (slen CRLF) with 2 in Hlen. rewrite Hlen. replace (slen t + 2 - 1 - 1) with (slen t) by lia.
      assert (charAt (t ++ CRLF) (slen t) = Some CR) as ->; [|by rewrite bool_decide_eq_true_2].
      unfold charAt, slen. rewrite (proj2 (Z.ltb_ge _ _)) by lia. rewrite Nat2Z.id.
      rewrite lookup_app_r by lia. by rewrite Nat.sub_diag.
    - change (slen [LF]) with 1 in Hlen. rewrite Hlen. replace (slen t + 1 - 1 - 1) with (slen t - 1) by lia.
      rewrite charAt_app_l, charAt_last, bool_decide_eq_false_2 by (done || lia). lia. }
  rewrite Hsp, substring_app_l, substring_app_r. by destruct (conditionToEndOnCRLF t).
Qed.

Lemma paired_app_l a b : paired (a ++ b) = true → last a ≠ Some CR → paired a = true.
Proof.
  induction a as [|c a IH]; intros Hp Hl; [done|]. cbn [app] in Hp. apply paired_cons in Hp as [Hc Hp].
  apply paired_cons. destruct a as [|d a].
  - split; [|done]. intros ->. by destruct Hl.
  - split; [done|]. by apply IH.
Qed.

Lemma paired_last s : paired s = true → last s ≠ Some CR.
Proof.
  induction s as [|c s IH]; [done|]. intros [Hc Hp]%paired_cons. destruct s as [|d s].
  - intros [= ->]. by specialize (Hc eq_refl).
  - by apply IH.
Qed.

Lemma paired_no_CR_end t e : paired (t ++ e) = true → line_break t e → last t ≠ Some CR.
Proof.
  intros Hp [-> |[_ Hc]]; [|done]. intros [u ->]%last_Some. rewrite <- (assoc_L (++)) in Hp.
  apply paired_app_r, paired_cons in Hp as [Hc _]. by specialize (Hc eq_refl).
Qed.

Lemma condition_paired s : paired s = true → conditionToEndOnCRLF s = cut_line s.
Proof.
  intros Hp. apply condition_cut; [|by intros ->]. apply (paired_prefix s []). by rewrite app_nil_r.
Qed.

Lemma substring_end X : substring X (slen X) (slen X) = [].
Proof. rewrite <- (app_nil_r X) at 1 3. apply substring_app_r. Qed.

Lemma hold_last_line_unaligned X : paired X = true → ¬ aligned X → hold_last_line X true = cut_line X.
Proof.
  intros Hp Hna. assert (Hl : last X ≠ Some LF) by (intros Hl; apply Hna; by right).
  unfold hold_last_line. rewrite charAt_last, (bool_decide_eq_false_2 (last X = Some LF)) by done.
  cbn [andb]. rewrite charAt_last, (bool_decide_eq_false_2 (last X = Some CR)) by (by apply paired_last).
  rewrite substring_full, condition_paired by done. destruct (cut_line X) as [a b].
  by rewrite substring_end, app_nil_r.
Qed.

Lemma hold_last_line_spec X : paired X = true →
  X = (hold_last_line X true).1 ++ (hold_last_line X true).2 ∧ aligned (hold_last_line X true).1 ∧
  (aligned X → aligned (hold_last_line X true).2 ∧ (X ≠ [] → (hold_last_line X true).2 ≠ [])).
Proof.
  intros Hp. destruct (decide (aligned X ∧ X ≠ [])) as [[Ha Hne]|Hna].
  - destruct (aligned_break X Ha Hne) as (t & e & -> & He). rewrite (hold_break t e He).
    assert (Ht : last t ≠ Some CR) by by eapply paired_no_CR_end.
    assert (Hpt : paired t = true) by by eapply paired_app_l.
    rewrite condition_paired by done. destruct (cut_line_spec t) as (Ht1 & Ht2 & Ht3). cbn [fst snd].
    split; [|split; [done|]].
    + rewrite (assoc_L (++)). by rewrite <- Ht1.
    + intros _. split.
      * right. rewrite last_app. by destruct He as [-> |[-> _]].
      * intros _ [_ ->]%app_eq_nil. by destruct He as [|[? _]].
  - destruct (decide (X = [])) as [->|HX].
    { split; [done|]. split; [by left|]. intros _. by split; [left|]. }
    assert (HnX : ¬ aligned X) by (by intros HaX; apply Hna).
    rewrite hold_last_line_unaligned by done. by destruct (cut_line_spec X) as (H1 & H2 & H3).
Qed.

Lemma hold_last_line_end X : paired X = true → hold_last_line X false = cut_line X.
Proof.
  intros Hp. unfold hold_last_line. cbn [andb]. rewrite substring_full, condition_paired by done.
  destruct (cut_line X) as [a b]. by rewrite substring_end, app_nil_r.
Qed.

(** ** The end of the headers *)

Lemma eol_here_app s t : aligned s → s ≠ [] → eol_here (s ++ t) = eol_here s.
Proof.
  intros [?|Hl] Hne; [done|]. destruct s as [|c [|d s]]; [done| |done]. injection Hl as ->.
  by destruct t.
Qed.

Lemma eol_here_length s n : eol_here s = Some n → (0 < n <= length s)%nat.
Proof.
  unfold eol_here. destruct s as [|c [|d s]]; [done|..]; repeat case_match; intros [= <-]; cbn; lia.
Qed.

Lemma double_eol_length s n : double_eol_here s = Some n → (0 < n <= length s)%nat.
Proof.
  unfold double_eol_here. destruct (startsWith s (CRLF ++ CRLF)) eqn:E.
  - intros [= <-]. apply startsWith_true in E as [r ->]. cbn. lia.
  - destruct s as [|c [|d s]]; try done. case_match; intros [= <-]. cbn. lia.
Qed.

Lemma drop_app_le {X} n (s t : list X) : (n <= length s)%nat → drop n (s ++ t) = drop n s ++ t.
Proof. intros Hn. by rewrite drop_app_le. Qed.

Lemma double_eol_app s t n : double_eol_here s = Some n → double_eol_here (s ++ t) = Some n.
Proof.
  unfold double_eol_here. destruct (startsWith s (CRLF ++ CRLF)) eqn:E.
  - intros [= <-]. apply startsWith_true in E as [r ->]. by rewrite <- (assoc_L (++)), startsWith_app.
  - destruct s as [|c [|d s]]; try done.
    destruct (startsWith ((c :: d :: s) ++ t) (CRLF ++ CRLF)) eqn:E2; [|done].
    apply startsWith_true in E2 as [r Hr]. injection Hr as -> -> _. done.
Qed.

Lemma startsWith_short s p : (length s < length p)%nat → startsWith s p = false.
Proof.
  intros Hl. destruct (startsWith s p) eqn:E; [|done]. apply startsWith_true in E as [r ->].
  rewrite length_app in Hl. lia.
Qed.

(** A double line break that only the text behind [s] completes leaves none in [s]. *)
Lemma find_double_short s t n :
  double_eol_here s = None → double_eol_here (s ++ t) = Some n → find_double_eol (tail s) = None.
Proof.
  intros H1 H2. destruct s as [|a [|b [|c [|d s]]]]; cbn [tail]; try done.
  - cbn [find_double_eol]. unfold double_eol_here. by rewrite startsWith_short by (cbn; lia).
  - revert H1 H2. unfold double_eol_here at 1 2. cbn [app]. rewrite startsWith_short by (cbn; lia).
    destruct (startsWith (a :: b :: c :: t) (CRLF ++ CRLF)) eqn:E2; [|by intros ->].
    apply startsWith_true in E2 as [r Hr]. injection Hr as -> -> -> _. by intros _ _.
  - exfalso. revert H1 H2. unfold double_eol_here. cbn [app].
    assert (startsWith (a :: b :: c :: d :: s ++ t) (CRLF ++ CRLF)
            = startsWith (a :: b :: c :: d :: s) (CRLF ++ CRLF)) as ->.
    { apply eq_bool_prop_intro. rewrite !Is_true_true, !startsWith_true. split.
      - intros [r Hr]. injection Hr as -> -> -> -> _. by exists s.
      - intros [r Hr]. injection Hr as -> -> -> -> _. by exists (s ++ t). }
    destruct (startsWith _ _); [done|]. by intros ->.
Qed.

Lemma find_double_app s t h r :
  find_double_eol s = Some (h, r) → find_double_eol (s ++ t) = Some (h, r ++ t).
Proof.
  revert h r. induction s as [|c s IH]; intros h r; [done|]. cbn [find_double_eol app].
  destruct (double_eol_here (c :: s)) as [n|] eqn:E.
  - intros [= <- <-]. change (c :: s ++ t) with ((c :: s) ++ t).
    rewrite (double_eol_app _ t n E), drop_app_le by (apply double_eol_length in E; lia). done.
  - destruct (find_double_eol s) as [[h' r']|] eqn:Ef; [|done]. cbn. intros [= <- <-].
    change (c :: s ++ t) with ((c :: s) ++ t). destruct (double_eol_here ((c :: s) ++ t)) as [n|] eqn:E2.
    + pose proof (find_double_short _ _ _ E E2) as Hn. cbn in Hn. congruence.
    + cbn [app]. by rewrite (IH h' r').
Qed.

(** Headers that end within the lines received end there in the whole. *)
Lemma end_of_headers_app X Y h r :
  aligned X → end_of_headers X = Some (h, r) → end_of_headers (X ++ Y) = Some (h, r ++ Y).
Proof.
  intros Ha. unfold end_of_headers. destruct (decide (X = [])) as [->|Hne]; [done|].
  rewrite eol_here_app by done. destruct (eol_here X) as [n|] eqn:E.
  - intros [= <- <-]. by rewrite drop_app_le by (apply eol_here_length in E; lia).
  - apply find_double_app.
Qed.

Lemma find_double_split s h r : find_double_eol s = Some (h, r) → ∃ e, e ≠ [] ∧ s = h ++ e ++ r.
Proof.
  revert h r. induction s as [|c s IH]; intros h r; [done|]. cbn [find_double_eol].
  destruct (double_eol_here (c :: s)) as [n|] eqn:E.
  - intros [= <- <-]. apply double_eol_length in E as [H1 H2]. exists (take n (c :: s)).
    split; [|by rewrite <- (take_drop n (c :: s)) at 1]. by destruct n; [lia|].
  - destruct (find_double_eol s) as [[h' r']|] eqn:Ef; [|done]. cbn. intros [= <- <-].
    destruct (IH h' r' eq_refl) as (e & He & ->). by exists e.
Qed.

Lemma end_of_headers_split s h r : end_of_headers s = Some (h, r) → ∃ e, e ≠ [] ∧ s = h ++ e ++ r.
Proof.
  unfold end_of_headers. destruct (eol_here s) as [n|] eqn:E; [|apply find_double_split].
  intros [= <- <-]. apply eol_here_length in E as [H1 H2]. exists (take n s).
  split; [|by rewrite <- (take_drop n s) at 1]. destruct s; [cbn in *; lia|]. by destruct n; [lia|].
Qed.

Lemma end_of_headers_length s h r : end_of_headers s = Some (h, r) → (length h + length r < length s)%nat.
Proof.
  intros (e & He & ->)%end_of_headers_split. rewrite !length_app. destruct e; [done|cbn; lia].
Qed.

(** ** Delimiters *)

Lemma span_app p s t :
  (span p s).2 ≠ [] → span p (s ++ t) = ((span p s).1, (span p s).2 ++ t).
Proof.
  induction s as [|c s IH]; [done|]. cbn [span app]. destruct (p c); [|done]. cbn. intros Hne. by rewrite IH.
Qed.

Lemma span_join p s : (span p s).1 ++ (span p s).2 = s.
Proof. induction s as [|c s IH]; [done|]. cbn [span]. destruct (p c); [|done]. cbn. by rewrite IH. Qed.

Lemma span_class p s : Forall (λ c, p c = true) (span p s).1.
Proof. induction s as [|c s IH]; [constructor|]. cbn [span]. destruct (p c) eqn:E; [|constructor]. by constructor. Qed.

Lemma aligned_LF_in s : aligned s → s ≠ [] → LF ∈ s.
Proof. intros [?|Hl] Hne; [done|]. by apply last_Some_elem_of. Qed.

Lemma aligned_suffix a b : aligned (a ++ b) → LF ∉ a → a ++ b ≠ [] → aligned b ∧ b ≠ [].
Proof.
  intros Ha Hl Hne. split; [by eapply aligned_app_r|]. intros ->. rewrite app_nil_r in *.
  by apply Hl, aligned_LF_in.
Qed.

Lemma after_boundary_app s t :
  aligned s → s ≠ [] → after_boundary (s ++ t) = (λ r, r ++ t) <$> after_boundary s.
Proof.
  intros Ha Hne. unfold after_boundary.
  assert (aligned (span blank s).2 ∧ (span blank s).2 ≠ []) as [H1 H2].
  { apply (aligned_suffix (span blank s).1); rewrite ?span_join; try done. intros Hin.
    pose proof (span_class blank s) as Hc. rewrite Forall_forall in Hc. by apply Hc in Hin. }
  rewrite span_app by done. cbn [snd]. rewrite eol_here_app by done.
  destruct (eol_here (span blank s).2) as [n|] eqn:E.
  - rewrite drop_app_le by (apply eol_here_length in E; lia). done.
  - by destruct (span blank s).2.
Qed.

Lemma startsWith_aligned p s t :
  LF ∉ p → aligned s → s ≠ [] → startsWith (s ++ t) p = startsWith s p.
Proof.
  intros Hp Ha Hne. apply eq_bool_prop_intro. rewrite !Is_true_true, !startsWith_true. split.
  - intros [r Hr]. destruct (app_eq_inv _ _ _ _ Hr) as [(k & -> & _)|(k & -> & _)]; [by exists k|].
    exfalso. apply Hp. apply elem_of_app. left. by apply aligned_LF_in.
  - intros [r ->]. exists (r ++ t). by rewrite <- (assoc_L (++)).
Qed.

Lemma startsWith_rest p s :
  LF ∉ p → aligned s → s ≠ [] → startsWith s p = true →
  aligned (drop (length p) s) ∧ drop (length p) s ≠ [] ∧ s = p ++ drop (length p) s.
Proof.
  intros Hp Ha Hne [r ->]%startsWith_true. rewrite drop_app_length.
  destruct (aligned_suffix p r Ha Hp Hne). by split_and!.
Qed.

Lemma dashes_no_LF : LF ∉ js "--".
Proof. apply (bool_decide_unpack _). by vm_compute. Qed.

Lemma delimiter_app bd s t :
  LF ∉ bd → aligned s → s ≠ [] →
  delimiter_here bd (s ++ t) = (λ r, (r.1, r.2 ++ t)) <$> delimiter_here bd s.
Proof.
  intros Hbd Ha Hne. unfold delimiter_here.
  assert (Hd : LF ∉ js "--" ++ bd) by (rewrite elem_of_app; intros [?|?]; [by apply dashes_no_LF|done]).
  rewrite startsWith_aligned by done. destruct (startsWith s (js "--" ++ bd)) eqn:E; [|done].
  destruct (startsWith_rest _ s Hd Ha Hne E) as (Ha1 & Hne1 & Hs). set (s1 := drop _ s) in *.
  assert (drop (length (js "--" ++ bd)) (s ++ t) = s1 ++ t) as ->.
  { rewrite Hs at 1. rewrite <- (assoc_L (++)). apply drop_app_length. }
  rewrite startsWith_aligned by (done || apply dashes_no_LF).
  rewrite after_boundary_app by done.
  destruct (startsWith s1 (js "--")) eqn:E2; [|by destruct (after_boundary s1)].
  destruct (startsWith_rest _ s1 dashes_no_LF Ha1 Hne1 E2) as (Ha2 & Hne2 & Hs2).
  change (length (js "--")) with 2%nat in *.
  assert (drop 2 (s1 ++ t) = drop 2 s1 ++ t) as ->.
  { rewrite Hs2 at 1. done. }
  rewrite after_boundary_app by done. destruct (after_boundary (drop 2 s1)); [done|].
  by destruct (after_boundary s1).
Qed.

(** A delimiter that is not behind a line break is at the very start. *)
Lemma split_at_eq bd s :
  split_at bd s = match delimiter_here bd s with
                  | Some (b, rest) => Some (mkSplit [] true b rest)
                  | None => find_delimiter bd s
                  end.
Proof.
  unfold split_at. destruct (eol_here s) as [n|] eqn:E.
  - assert (delimiter_here bd s = None) as Hn.
    { unfold delimiter_here. destruct (startsWith s (js "--" ++ bd)) eqn:Es; [|done].
      apply startsWith_true in Es as [r ->]. done. }
    rewrite Hn. destruct (delimiter_here bd (drop n s)) as [[b rest]|] eqn:Ed; [|done].
    destruct s as [|c s]; [done|]. cbn [find_delimiter]. by rewrite E, Ed.
  - by destruct (delimiter_here bd s) as [[b rest]|].
Qed.

Definition extend (r : split_result) (t : jsstr) : split_result :=
  mkSplit (before r) (at_start r) (closes r) (after r ++ t).
Definition prepend (s : jsstr) (r : split_result) : split_result :=
  mkSplit (s ++ before r) false (closes r) (after r).

Lemma find_delimiter_unfold bd c s :
  find_delimiter bd (c :: s)
  = match (match eol_here (c :: s) with Some n => delimiter_here bd (drop n (c :: s)) | None => None end) with
    | Some (b, rest) => Some (mkSplit [] false b rest)
    | None => prepend [c] <$> find_delimiter bd s
    end.
Proof. done. Qed.

Lemma find_delimiter_break bd t e Y :
  LF ∉ bd → line_break t e →
  find_delimiter bd ((t ++ e) ++ Y)
  = match find_delimiter bd (t ++ e) with
    | Some r => Some (extend r Y)
    | None => match delimiter_here bd Y with
              | Some (b, rest) => Some (mkSplit t false b rest)
              | None => prepend (t ++ e) <$> find_delimiter bd Y
              end
    end.
Proof.
  intros Hbd. induction t as [|c t IH]; intros He.
  - assert (He' : e = CRLF ∨ e = [LF]) by (by destruct He as [|[? _]]; [left|right]). clear He.
    assert (Hnil : delimiter_here bd [] = None) by done.
    cbn [app]. destruct He' as [-> | ->].
    + change (CRLF ++ Y) with (CR :: LF :: Y). change CRLF with [CR; LF].
      rewrite !find_delimiter_unfold. change (eol_here (CR :: LF :: Y)) with (Some 2%nat).
      change (eol_here [CR; LF]) with (Some 2%nat). cbn [drop]. rewrite Hnil.
      assert (eol_here (LF :: Y) = Some 1%nat) as -> by (by destruct Y). change (eol_here [LF]) with (Some 1%nat).
      cbn [drop]. rewrite Hnil, !drop_0. cbn.
      destruct (delimiter_here bd Y) as [[b rest]|]; [done|]. by destruct (find_delimiter bd Y).
    + change ([LF] ++ Y) with (LF :: Y). rewrite !find_delimiter_unfold.
      assert (eol_here (LF :: Y) = Some 1%nat) as -> by (by destruct Y). change (eol_here [LF]) with (Some 1%nat).
      cbn [drop]. rewrite Hnil, !drop_0. cbn. by destruct (delimiter_here bd Y) as [[b rest]|].
  - assert (He' : line_break t e).
    { destruct He as [|[-> Hc]]; [by left|right]. split; [done|]. by destruct t. }
    specialize (IH He'). cbn [app]. rewrite !find_delimiter_unfold.
    assert (Ha : aligned (c :: t ++ e)).
    { right. change (c :: t ++ e) with ((c :: t) ++ e). rewrite last_app.
      by destruct He as [-> |[-> _]]. }
    change (c :: (t ++ e) ++ Y) with ((c :: t ++ e) ++ Y). rewrite eol_here_app by done.
    assert (Hstep : match eol_here (c :: t ++ e) with
                    | Some n => delimiter_here bd (drop n ((c :: t ++ e) ++ Y)) | None => None end
      = (λ r, (r.1, r.2 ++ Y)) <$> match eol_here (c :: t ++ e) with
                    | Some n => delimiter_here bd (drop n (c :: t ++ e)) | None => None end).
    { destruct (eol_here (c :: t ++ e)) as [n|] eqn:E; [|done].
      rewrite drop_app_le by (apply eol_here_length in E; lia). apply delimiter_app; [done|..].
      - rewrite <- (take_drop n) in Ha. by apply aligned_app_r in Ha.
      - intros Hd. apply (f_equal length) in Hd. rewrite length_drop in Hd. cbn [length] in Hd.
        pose proof (eol_here_length _ _ E) as Hn. cbn [length] in Hn.
        assert (n <= 2)%nat.
        { revert E. unfold eol_here. repeat case_match; intros [= <-]; lia. }
        rewrite length_app in *. destruct He as [-> |[-> Hc]]; cbn in *; [lia|].
        assert (t = []) as -> by (destruct t; [done|cbn in *; lia]).
        assert (n = 2%nat) as -> by (cbn in *; lia). revert E. unfold eol_here. cbn.
        destruct (Z.eqb_spec c CR) as [->|]; [by destruct Hc|]. cbn. destruct (_ =? _); done. }
    rewrite Hstep. clear Hstep.
    destruct (match eol_here (c :: t ++ e) with
              | Some n => delimiter_here bd (drop n (c :: t ++ e)) | None => None end) as [[b rest]|]; [done|].
    cbn. rewrite IH. destruct (find_delimiter bd (t ++ e)) as [r|]; [done|].
    destruct (delimiter_here bd Y) as [[b rest]|]; [done|]. by destruct (find_delimiter bd Y).
Qed.

(** The delimiter of a text that is cut behind a line break. *)
Lemma split_at_app bd t e Y :
  LF ∉ bd → line_break t e →
  split_at bd ((t ++ e) ++ Y)
  = match split_at bd (t ++ e) with
    | Some r => Some (extend r Y)
    | None => match split_at bd Y with
              | Some r => Some (if at_start r then mkSplit t false (closes r) (after r)
                                else prepend (t ++ e) r)
              | None => None
              end
    end.
Proof.
  intros Hbd He. rewrite !split_at_eq.
  assert (aligned (t ++ e) ∧ t ++ e ≠ []) as [Ha Hne].
  { split; [right; rewrite last_app; by destruct He as [-> |[-> _]]|].
    intros [_ ->]%app_eq_nil. by destruct He as [|[? _]]. }
  rewrite delimiter_app by done. destruct (delimiter_here bd (t ++ e)) as [[b rest]|]; [done|].
  cbn. rewrite find_delimiter_break by done. destruct (find_delimiter bd (t ++ e)) as [r|]; [done|].
  destruct (delimiter_here bd Y) as [[b rest]|]; [done|].
  destruct (find_delimiter bd Y) as [r|] eqn:E; [|done]. cbn.
  assert (at_start r = false) as ->; [|done]. clear -E.
  destruct Y as [|c Y]; [done|]. rewrite find_delimiter_unfold in E.
  destruct (match eol_here (c :: Y) with
            | Some n => delimiter_here bd (drop n (c :: Y)) | None => None end) as [[b rest]|]; [by injection E as <-|].
  destruct (find_delimiter bd Y); [|done]. by injection E as <-.
Qed.

(** What a split takes from the text. *)
Lemma after_boundary_suffix s r : after_boundary s = Some r → ∃ k, s = k ++ r.
Proof.
  unfold after_boundary. pose proof (span_join blank s) as Hs. set (a := (span blank s).1) in *.
  set (b := (span blank s).2) in *. clearbody a b. subst s. destruct (eol_here b) as [n|].
  - intros [= <-]. exists (a ++ take n b). by rewrite <- (assoc_L (++)), take_drop.
  - destruct b; intros [= <-]. by exists a.
Qed.

Lemma delimiter_suffix bd s b r : delimiter_here bd s = Some (b, r) → ∃ k, k ≠ [] ∧ s = k ++ r.
Proof.
  unfold delimiter_here. destruct (startsWith s (js "--" ++ bd)) eqn:E; [|done].
  apply startsWith_true in E as [s1 ->]. rewrite drop_app_length.
  assert (Hk : ∀ k, s1 = k ++ r → ∃ k', k' ≠ [] ∧ (js "--" ++ bd) ++ s1 = k' ++ r).
  { intros k ->. exists ((js "--" ++ bd) ++ k). by rewrite (assoc_L (++)). }
  destruct (startsWith s1 (js "--")) eqn:E2.
  - destruct (after_boundary (drop 2 s1)) as [rest|] eqn:Ea.
    + intros [= <- <-]. apply after_boundary_suffix in Ea as [k Hd]. apply (Hk (take 2 s1 ++ k)).
      by rewrite <- (assoc_L (++)), <- Hd, take_drop.
    + destruct (after_boundary s1) as [rest|] eqn:Ea2; [|done]. intros [= <- <-].
      apply after_boundary_suffix in Ea2 as [k ->]. by apply (Hk k).
  - destruct (after_boundary s1) as [rest|] eqn:Ea2; [|done]. intros [= <- <-].
    apply after_boundary_suffix in Ea2 as [k ->]. by apply (Hk k).
Qed.

(** The delimiter, with the line break before it. *)
Definition here_at (bd s : jsstr) : option (bool * jsstr) :=
  match eol_here s with Some n => delimiter_here bd (drop n s) | None => None end.

Lemma find_delimiter_here bd c s :
  find_delimiter bd (c :: s)
  = match here_at bd (c :: s) with
    | Some (b, rest) => Some (mkSplit [] false b rest)
    | None => prepend [c] <$> find_delimiter bd s
    end.
Proof. done. Qed.

Lemma here_at_suffix bd s b r : here_at bd s = Some (b, r) → ∃ k, k ≠ [] ∧ s = k ++ r.
Proof.
  unfold here_at. destruct (eol_here s) as [n|]; [|done]. intros (k & Hk & Hd)%delimiter_suffix.
  exists (take n s ++ k). split; [by intros [_ ?]%app_eq_nil|]. by rewrite <- (assoc_L (++)), <- Hd, take_drop.
Qed.

Lemma find_delimiter_parts bd s r :
  find_delimiter bd s = Some r →
  (∃ d, d ≠ [] ∧ s = before r ++ d ++ after r) ∧ (paired s = true → paired (before r) = true).
Proof.
  revert r. induction s as [|c s IH]; intros r; [done|]. rewrite find_delimiter_here.
  destruct (here_at bd (c :: s)) as [[b rest]|] eqn:E.
  - intros [= <-]. cbn [before after app]. split; [|done]. by eapply here_at_suffix.
  - destruct (find_delimiter bd s) as [r'|] eqn:Ef; [|done]. cbn. intros [= <-].
    destruct (IH r' eq_refl) as [(d & Hd & Hs) Hp]. cbn [prepend before after app]. split.
    { exists d. split; [done|]. by rewrite Hs at 1. }
    intros [Hc Hps]%paired_cons. apply paired_cons. split; [|by apply Hp]. intros ->. specialize (Hc eq_refl).
    destruct (before r') as [|x u] eqn:Eb.
    + exfalso. destruct s as [|y s]; [done|]. injection Hc as ->. rewrite find_delimiter_here in Ef.
      unfold here_at in *. change (eol_here (CR :: LF :: s)) with (Some 2%nat) in E.
      assert (eol_here (LF :: s) = Some 1%nat) as Hl by (by destruct s). rewrite Hl in Ef. cbn [drop] in *.
      rewrite E in Ef. destruct (find_delimiter bd s); [|done]. injection Ef as <-. done.
    + rewrite Hs in Hc. exact Hc.
Qed.

Lemma split_at_parts bd s r :
  split_at bd s = Some r →
  (∃ d, d ≠ [] ∧ s = before r ++ d ++ after r) ∧ (paired s = true → paired (before r) = true) ∧
  (at_start r = true → before r = []).
Proof.
  rewrite split_at_eq. destruct (delimiter_here bd s) as [[b rest]|] eqn:E.
  - intros [= <-]. cbn [before after app]. split; [by eapply delimiter_suffix|done].
  - intros Hf. destruct (find_delimiter_parts bd s r Hf) as [H1 H2]. split; [done|]. split; [done|].
    intros Hs. exfalso. destruct s as [|c s]; [done|]. rewrite find_delimiter_here in Hf.
    destruct (here_at bd (c :: s)) as [[b rest]|]; [by injection Hf as <-|].
    destruct (find_delimiter bd s); [|done]. by injection Hf as <-.
Qed.

Lemma split_at_length bd s r :
  split_at bd s = Some r → (length (before r) + length (after r) < length s)%nat.
Proof.
  intros [(d & Hd & Hs) _]%split_at_parts. rewrite Hs, !length_app. destruct d; [done|cbn; lia].
Qed.

(** No delimiter in a text of lines is none in the first of them. *)
Lemma split_at_None_l bd D S :
  LF ∉ bd → aligned D → split_at bd (D ++ S) = None → split_at bd D = None.
Proof.
  intros Hbd Ha Hn. destruct (decide (D = [])) as [->|Hne]; [by vm_compute|].
  destruct (aligned_break D Ha Hne) as (t & e & -> & He). rewrite split_at_app in Hn by done.
  by destruct (split_at bd (t ++ e)).
Qed.

Lemma split_at_aligned bd D T :
  LF ∉ bd → aligned D → D ≠ [] → split_at bd D = None →
  split_at bd (D ++ T)
  = match split_at bd T with
    | Some r => Some (if at_start r then mkSplit (strip_line_break D) false (closes r) (after r) else prepend D r)
    | None => None
    end.
Proof.
  intros Hbd Ha Hne Hn. destruct (aligned_break D Ha Hne) as (t & e & -> & He).
  by rewrite split_at_app, Hn, strip_break.
Qed.

Lemma split_at_extend bd b Z r :
  LF ∉ bd → aligned b ∨ Z = [] → split_at bd b = Some r → split_at bd (b ++ Z) = Some (extend r Z).
Proof.
  intros Hbd Ha Hs. destruct (decide (b = [])) as [->|Hne]; [by vm_compute in Hs|]. destruct Ha as [Ha| ->].
  - destruct (aligned_break b Ha Hne) as (t & e & -> & He). by rewrite split_at_app, Hs by done.
  - rewrite app_nil_r, Hs. unfold extend. rewrite app_nil_r. by destruct r.
Qed.

(** ** The contents of a multipart *)

(** The texts before, between and after the delimiters, the last up to its last line
    break when no delimiter closes it. *)
Fixpoint contents_loop (fuel : nat) (bd s : jsstr) : list jsstr :=
  match fuel with
  | O => []
  | S fuel' =>
      match split_at bd s with
      | Some r => before r :: (if closes r then [] else contents_loop fuel' bd (after r))
      | None => [(cut_line s).1]
      end
  end.

Definition contents (bd s : jsstr) : list jsstr := contents_loop (S (length s)) bd s.

Lemma contents_enough bd f f' s :
  (length s < f)%nat → (length s < f')%nat → contents_loop f bd s = contents_loop f' bd s.
Proof.
  revert f' s. induction f as [|f IH]; intros f' s Hf Hf'; [lia|]. destruct f' as [|f']; [lia|].
  cbn [contents_loop]. destruct (split_at bd s) as [r|] eqn:E; [|done].
  apply split_at_length in E. destruct (closes r); [done|]. f_equal. apply IH; lia.
Qed.

Lemma contents_unfold bd s :
  contents bd s = match split_at bd s with
                  | Some r => before r :: (if closes r then [] else contents bd (after r))
                  | None => [(cut_line s).1]
                  end.
Proof.
  unfold contents at 1. cbn [contents_loop]. destruct (split_at bd s) as [r|] eqn:E; [|done].
  apply split_at_length in E. destruct (closes r); [done|]. f_equal. apply contents_enough; lia.
Qed.

Lemma cut_line_app D T : aligned D → (cut_line (D ++ T)).1 = D ++ (cut_line T).1.
Proof.
  intros Ha. destruct (cut_line_spec T) as (H1 & H2 & H3). set (a := (cut_line T).1) in *.
  set (b := (cut_line T).2) in *. clearbody a b. subst T.
  by rewrite (cut_line_unique (D ++ a ++ b) (D ++ a) b) by (done || by rewrite (assoc_L (++)) || by apply aligned_app).
Qed.

(** Lines without a delimiter belong to the first of the contents. *)
Lemma contents_prepend bd D T c L :
  LF ∉ bd → aligned D → split_at bd D = None →
  match split_at bd T with Some r => at_start r = false | None => True end →
  contents bd T = c :: L → contents bd (D ++ T) = (D ++ c) :: L.
Proof.
  intros Hbd Ha Hn Hs. destruct (decide (D = [])) as [->|Hne]; [done|].
  rewrite !contents_unfold, split_at_aligned by done.
  destruct (split_at bd T) as [r|].
  - rewrite Hs. cbn. by intros [= -> ->].
  - intros [= <- <-]. by rewrite cut_line_app.
Qed.

Lemma contents_lengths bd s : Forall (λ c, (length c <= length s)%nat) (contents bd s).
Proof.
  remember (length s) as n eqn:Hn. revert s Hn. induction (lt_wf n) as [n _ IH]. intros s ->.
  rewrite contents_unfold. destruct (split_at bd s) as [r|] eqn:E.
  - pose proof (split_at_length _ _ _ E) as Hl. constructor; [lia|].
    destruct (closes r); [constructor|]. eapply Forall_impl; [apply (IH (length (after r))); [lia|done]|].
    cbn. intros c Hc. lia.
  - constructor; [|constructor]. destruct (cut_line_spec s) as (H1 & _). rewrite H1 at 2.
    rewrite length_app. lia.
Qed.

Lemma contents_cons bd s : ∃ c L, contents bd s = c :: L.
Proof. rewrite contents_unfold. destruct (split_at bd s); eauto. Qed.

Lemma contents_paired bd s : paired s = true → Forall (λ c, paired c = true) (contents bd s).
Proof.
  remember (length s) as n eqn:Hn. revert s Hn. induction (lt_wf n) as [n _ IH]. intros s -> Hp.
  rewrite contents_unfold. destruct (split_at bd s) as [r|] eqn:E.
  - pose proof (split_at_length _ _ _ E) as Hl. apply split_at_parts in E as [(d & _ & Hs) [Hb _]].
    constructor; [by apply Hb|]. destruct (closes r); [constructor|]. eapply IH; [|done|]; [lia|].
    rewrite Hs in Hp. by do 2 apply paired_app_r in Hp.
  - constructor; [|constructor]. destruct (cut_line_spec s) as (H1 & H2 & _). rewrite H1 in Hp.
    by eapply paired_aligned_l.
Qed.

(** What is behind the first of the contents does not depend on it. *)
Lemma contents_skip bd b Z :
  LF ∉ bd → aligned b ∨ Z = [] → split_at bd b = None → tail (contents bd (b ++ Z)) = tail (contents bd Z).
Proof.
  intros Hbd Ha Hn. destruct (decide (b = [])) as [->|Hne]; [done|]. rewrite !contents_unfold.
  destruct Ha as [Ha| ->].
  - rewrite split_at_aligned by done. destruct (split_at bd Z) as [r|]; [|done]. by destruct (at_start r).
  - by rewrite app_nil_r, Hn.
Qed.

Lemma contents_split bd b Z r :
  LF ∉ bd → aligned b ∨ Z = [] → split_at bd b = Some r →
  contents bd (b ++ Z) = before r :: (if closes r then [] else contents bd (after r ++ Z)).
Proof. intros Hbd Ha Hs. by rewrite contents_unfold, (split_at_extend bd b Z r). Qed.

(** A delimiter behind what is held back. *)
Lemma contents_split_held bd S b Z r :
  LF ∉ bd → aligned S → split_at bd S = None → aligned b ∨ Z = [] → split_at bd b = Some r →
  contents bd (S ++ b ++ Z)
  = (if at_start r then strip_line_break S else S ++ before r)
    :: (if closes r then [] else contents bd (after r ++ Z)).
Proof.
  intros Hbd HS Hn Ha Hs. destruct (decide (S = [])) as [->|Hne].
  - cbn [app]. rewrite (contents_split bd b Z r) by done. f_equal. destruct (at_start r) eqn:Ea; [|done].
    apply split_at_parts in Hs as (_ & _ & Hb). by rewrite Hb.
  - rewrite contents_unfold, split_at_aligned, (split_at_extend bd b Z r) by done. cbn [extend at_start].
    by destruct (at_start r).
Qed.

Lemma split_at_held bd S b :
  LF ∉ bd → aligned S ∨ b = [] → split_at bd S = None → split_at bd b = None → split_at bd (S ++ b) = None.
Proof.
  intros Hbd [Ha| ->] HS Hb; [|by rewrite app_nil_r]. destruct (decide (S = [])) as [->|Hne]; [done|].
  by rewrite split_at_aligned, Hb.
Qed.

(** Lines without a delimiter of which the last is held back. *)
Lemma contents_held bd X Z c texts D S :
  LF ∉ bd → paired X = true → aligned X ∨ Z = [] → split_at bd X = None →
  contents bd (X ++ Z) = c :: texts → hold_last_line X true = (D, S) →
  X = D ++ S ∧ aligned D ∧ split_at bd S = None ∧ (aligned S ∨ Z = []) ∧
  ∃ c', c = D ++ c' ∧ contents bd (S ++ Z) = c' :: texts.
Proof.
  intros Hbd Hp Ha Hn Hc Hh. destruct (hold_last_line_spec X Hp) as (H1 & H2 & H3). rewrite Hh in *.
  cbn [fst snd] in *.
  assert (HS : split_at bd S = None).
  { destruct (decide (D = [])) as [->|Hne]; [by rewrite H1 in Hn|].
    assert (HD : split_at bd D = None) by (apply (split_at_None_l bd D S); [done..|by rewrite <- H1]).
    rewrite H1, split_at_aligned in Hn by done. by destruct (split_at bd S). }
  split; [done|]. split; [done|]. split; [done|]. destruct (decide (aligned X)) as [HX|HX].
  - destruct (H3 HX) as [HaS HneS]. split; [by left|].
    destruct (decide (X = [])) as [->|HXne].
    { symmetry in H1. apply app_eq_nil in H1 as [-> ->]. by exists c. }
    assert (HDn : split_at bd D = None) by (apply (split_at_None_l bd D S); [done..|by rewrite <- H1]).
    destruct (contents_cons bd (S ++ Z)) as (c' & L & HL). exists c'.
    assert (Hpre : contents bd (D ++ S ++ Z) = (D ++ c') :: L).
    { apply contents_prepend; [done..| |done]. rewrite split_at_aligned by (done || by apply HneS).
      destruct (split_at bd Z) as [r|]; [|done]. by destruct (at_start r). }
    rewrite (assoc_L (++)), <- H1, Hc in Hpre. injection Hpre as -> ->. done.
  - destruct Ha as [?| ->]; [done|]. split; [by right|].
    rewrite (hold_last_line_unaligned X Hp HX) in Hh. rewrite app_nil_r in *.
    rewrite contents_unfold, Hn, Hh in Hc. injection Hc as <- <-. exists []. rewrite app_nil_r. split; [done|].
    rewrite contents_unfold, HS. destruct (cut_line_spec X) as (_ & _ & HLF). rewrite Hh in HLF.
    by rewrite (cut_line_unique S [] S) by (done || by left).
Qed.

(** ** Writing a multipart *)

Definition delimiter (bd : jsstr) : jsstr := CRLF ++ js "--" ++ bd.

Definition write_multipart (bd prologue : jsstr) (texts : list jsstr) (epilogue : jsstr) : jsstr :=
  prologue ++ concat (map (λ t, delimiter bd ++ CRLF ++ t) texts) ++ delimiter bd ++ js "--" ++ CRLF ++ epilogue.

Lemma startsWith_prefix p s : startsWith (p ++ s) p = true.
Proof. apply startsWith_true. by exists s. Qed.

Lemma delimiter_here_open bd s : delimiter_here bd (js "--" ++ bd ++ CRLF ++ s) = Some (false, s).
Proof.
  unfold delimiter_here. rewrite (assoc_L (++)), startsWith_prefix, drop_app_length. by destruct s.
Qed.

Lemma delimiter_here_close bd s : delimiter_here bd (js "--" ++ bd ++ js "--" ++ CRLF ++ s) = Some (true, s).
Proof.
  unfold delimiter_here. rewrite (assoc_L (++)), startsWith_prefix, drop_app_length. by destruct s.
Qed.

(** A text before a delimiter. *)
Lemma split_at_delimiter bd t s b r :
  LF ∉ bd → split_at bd (t ++ CRLF) = None → delimiter_here bd s = Some (b, r) →
  split_at bd (t ++ CRLF ++ s) = Some (mkSplit t false b r).
Proof.
  intros Hbd Hn Hd. rewrite (assoc_L (++)), split_at_app, Hn by (done || by left).
  by rewrite split_at_eq, Hd.
Qed.

(** What is written into a multipart is read from it, when it holds no delimiter. *)
Lemma contents_write bd prologue texts epilogue :
  LF ∉ bd → Forall (λ t, split_at bd (t ++ CRLF) = None) (prologue :: texts) →
  contents bd (write_multipart bd prologue texts epilogue) = prologue :: texts.
Proof.
  intros Hbd. unfold write_multipart, delimiter. revert prologue. induction texts as [|t texts IH]; intros pro Hall.
  - apply Forall_cons_1 in Hall as [Hp _]. cbn [map concat]. rewrite app_nil_l, <- !(assoc_L (++)).
    by rewrite contents_unfold, (split_at_delimiter bd pro _ true epilogue) by (done || apply delimiter_here_close).
  - apply Forall_cons_1 in Hall as [Hp Hall]. cbn [map concat]. rewrite <- !(assoc_L (++)).
    rewrite contents_unfold, (split_at_delimiter bd pro _ false _) by (done || apply delimiter_here_open).
    cbn [closes before after]. rewrite <- (IH t Hall) at 1. by rewrite <- ?(assoc_L (++)).
Qed.
