(* ===== verification/MimeFuel.v ===== *)
(** * MimeFuel: the MIME parser ends

    The methods of MimeParser.v call each other within a fuel.  Here: a call that
    has more of it than the [measure] of the parser and twice the length of the
    buffer never runs out, so that the parser, which takes [fuel_for] at each buffer,
    handles every message to its end. *)

From S2P Require Import Prelude Effects MimeUtils MimeHeaders MimeParser MimeText.

(** ** Weakest preconditions

    [wp A m Q s]: run from [s], the method [m] has only events that satisfy [A], and
    when it returns, [Q] holds of the result and the new state. *)
Section Wp.
Context {S E : Type} (A : E → Prop).

Definition wp {X} (m : eff S E X) (Q : X → S → Prop) (s : S) : Prop :=
  let '(s', o, r) := m s in Forall A o ∧ match r with Some x => Q x s' | None => True end.

Lemma wp_mono {X} (m : eff S E X) (Q Q' : X → S → Prop) s :
  wp m Q s → (∀ x s', Q x s' → Q' x s') → wp m Q' s.
Proof. unfold wp. destruct (m s) as [[s' o] [x|]]; naive_solver. Qed.

Lemma wp_bind {X Y} (m : eff S E X) (k : X → eff S E Y) Q s :
  wp m (λ x, wp (k x) Q) s → wp (bind m k) Q s.
Proof.
  unfold wp, bind. destruct (m s) as [[s1 o1] [x|]]; [|done]. intros [H1 H2].
  destruct (k x s1) as [[s2 o2] r]. destruct H2. split; [by apply Forall_app|done].
Qed.

Lemma wp_ret {X} (x : X) Q s : Q x s → wp (ret x) Q s.
Proof. by split. Qed.
Lemma wp_skip Q s : Q tt s → wp skip Q s.
Proof. by split. Qed.
Lemma wp_self Q s : Q s s → wp (gets id) Q s.
Proof. by split. Qed.
Lemma wp_modify f Q s : Q tt (f s) → wp (modify f) Q s.
Proof. by split. Qed.
Lemma wp_emit e Q s : A e → Q tt s → wp (emit e) Q s.
Proof. split; [by constructor|done]. Qed.
Lemma wp_when b m Q s : (b = true → wp m Q s) → (b = false → Q tt s) → wp (when b m) Q s.
Proof. destruct b; [by eauto|]. intros _ H. apply wp_skip. by apply H. Qed.
End Wp.

(** ** Lengths *)

Lemma slice_from_neg_length s k : 0 < k → (length (slice_from s (- k)) <= Z.to_nat k)%nat.
Proof.
  intros Hk. unfold slice_from, slice, slen. rewrite length_take, length_drop.
  destruct (Z.ltb_spec (- k) 0); destruct (Z.ltb_spec (Z.of_nat (length s)) 0); lia.
Qed.

Lemma slice_length s i j : (length (slice s i j) <= length s)%nat.
Proof. unfold slice. rewrite length_take, length_drop. lia. Qed.

Lemma drop_inner_pad_length s : (length (drop_inner_pad s) <= length s)%nat.
Proof. induction s as [|c s IH]; [done|]. cbn. destruct (_ && _); cbn; lia. Qed.

Lemma drop_pad_groups_unfold a b c d s :
  drop_pad_groups (a :: b :: c :: d :: s)
  = if bool_decide ([a; b; c; d] = [61; 61; 61; 61]) then drop_pad_groups s else a :: b :: c :: d :: s.
Proof.
  assert (Hne : ∀ (x : Z) (X Y : jsstr), x ≠ 61 → match x with 61 => X | _ => Y end = Y).
  { intros x X Y Hx. destruct x as [|p|p]; try done. do 6 (destruct p as [p|p|]; try done). }
  case_bool_decide as E; [by injection E as -> -> -> ->|]. cbn.
  destruct (decide (a = 61)) as [->|]; [|by apply Hne]. destruct (decide (b = 61)) as [->|]; [|by apply Hne].
  destruct (decide (c = 61)) as [->|]; [|by apply Hne]. apply Hne. by intros ->.
Qed.

Lemma drop_pad_groups_length s : (length (drop_pad_groups s) <= length s)%nat.
Proof.
  remember (length s) as n eqn:Hn. revert s Hn. induction (lt_wf n) as [n _ IH]. intros s ->.
  destruct s as [|a [|b [|c [|d s]]]].
  5: { rewrite drop_pad_groups_unfold. case_bool_decide; [|done].
       specialize (IH (length s) ltac:(cbn; lia) s eq_refl). cbn. lia. }
  all: cbn; repeat case_match; cbn; lia.
Qed.

Lemma atob_groups_length s r : atob_groups s = Some r → (length r <= length s)%nat.
Proof.
  remember (length s) as n eqn:Hn. revert s r Hn. induction (lt_wf n) as [n _ IH]. intros s r ->.
  destruct s as [|a [|b [|c [|d s]]]]; cbn; repeat case_match; intros; simplify_eq; cbn; try lia.
  specialize (IH (length s) ltac:(cbn; lia) s _ eq_refl ltac:(eassumption)). lia.
Qed.

Lemma atob_length s r : atob s = Some r → (length r <= length s)%nat.
Proof.
  unfold atob. intros Ha%atob_groups_length. etrans; [exact Ha|].
  repeat case_match; try done; apply slice_length.
Qed.

Lemma decode_base64_length s more r :
  decode_base64 s more = Some r → (length r.1 + length r.2 <= length s)%nat.
Proof.
  unfold decode_base64. set (u := drop_inner_pad _). assert (Hu : (length u <= length s)%nat).
  { etrans; [apply drop_inner_pad_length|apply length_filter]. }
  clearbody u. set (k := slen u mod 4). assert (Hk : 0 <= k <= Z.of_nat (length u)).
  { unfold k, slen. split; [apply Z.mod_pos_bound; lia|]. apply Z.mod_le; lia. }
  clearbody k. destruct (atob _) as [d|] eqn:E; [|done]. cbn. intros [= <-]. cbn [fst snd]. apply atob_length in E.
  rewrite length_rev in E. rewrite substring_nonneg in E by (unfold slen; lia).
  set (v := take _ _) in *. assert (Hv : (length v <= length u - Z.to_nat k)%nat).
  { unfold v, slen. rewrite length_take, length_drop. lia. }
  clearbody v. pose proof (drop_pad_groups_length (rev v)) as Hd. rewrite length_rev in Hd.
  assert ((length (if negb (k =? 0)%Z && more then slice_from u (- k) else []) <= Z.to_nat k)%nat); [|lia].
  destruct (Z.eqb_spec k 0); [apply Nat.le_0_l|]. destruct more; [cbn [negb andb]|apply Nat.le_0_l]. apply slice_from_neg_length. lia.
Qed.

Lemma decode_qp_length k s : (length (decode_qp_scan k s) <= length s)%nat.
Proof.
  revert k. induction s as [|c s IH]; intros k; [done|]. cbn [decode_qp_scan].
  destruct k as [|k]; [|cbn; specialize (IH k); lia].
  destruct (c =? 61); [|cbn; specialize (IH 0%nat); lia].
  destruct (match_eq s) as [[r n]|] eqn:E; [|cbn; specialize (IH 0%nat); lia].
  rewrite length_app. assert (length r <= 1)%nat; [|specialize (IH n); cbn; lia].
  revert E. unfold match_eq. repeat case_match; intros E; simplify_option_eq; cbn; lia.
Qed.

Lemma condition_join s : (conditionToEndOnCRLF s).1 ++ (conditionToEndOnCRLF s).2 = s.
Proof.
  unfold conditionToEndOnCRLF. cbn [fst snd].
  set (e := if _ <? _ then _ else _). assert (-1 <= e < slen s ∨ s = []) as [He| ->].
  { destruct (decide (s = [])) as [->|Hne]; [by right|left].
    assert (Hb : ∀ c n, -1 <= last_index_upto c n s < slen s).
    { intros c n. destruct (last_index_spec c n s) as [[-> _]|(k & -> & _ & Hl & _)].
      - unfold slen. destruct s; [done|cbn; lia].
      - apply lookup_lt_Some in Hl. unfold slen. lia. }
    unfold e, lastIndexOf. destruct (_ <? _); apply Hb. }
  - clearbody e. rewrite !substring_nonneg by lia. rewrite drop_0, Z.sub_0_r. unfold slen in *.
    rewrite (take_ge (drop _ s)) by (rewrite length_drop; lia). apply take_drop.
  - unfold substring. by rewrite !drop_nil, !take_nil.
Qed.

Lemma hold_last_line_length s more :
  (length (hold_last_line s more).1 + length (hold_last_line s more).2 <= length s)%nat.
Proof.
  unfold hold_last_line. set (n := if more && _ then slen s - 1 else slen s).
  set (k := if more && bool_decide (charAt s (n - 1) = Some CR) then n - 1 else n).
  pose proof (condition_join (substring s 0 k)) as Hj. destruct (conditionToEndOnCRLF _) as [a b]. cbn [fst snd] in *.
  apply (f_equal length) in Hj. rewrite length_app in *.
  assert (Hk : 0 <= k <= slen s ∨ s = []).
  { destruct (decide (s = [])) as [->|Hne]; [by right|left]. assert (0 < slen s) by (unfold slen; destruct s; [done|cbn [length]; lia]).
    assert (Hn : 0 <= n <= slen s) by (unfold n; destruct (_ && _); lia). clearbody n. unfold k.
    destruct more; [|done]. cbn [andb]. case_bool_decide as Hc; [|lia]. unfold charAt in Hc.
    destruct (Z.ltb_spec (n - 1) 0); [done|lia]. }
  destruct Hk as [Hk| ->].
  - clearbody n k. rewrite !substring_nonneg in * by lia. rewrite !length_take, !length_drop in *.
    unfold slen in *. lia.
  - clearbody n k. unfold substring in *. rewrite !drop_nil, !take_nil in *. cbn in *. lia.
Qed.

Lemma convert_length c s more r :
  convert c s more = Some r → (length r.1 + length r.2 <= length s)%nat.
Proof.
  destruct c; cbn; [| |apply decode_base64_length|destruct s as [|a [|b s]]; [done|..]|done]; intros [= <-].
  - apply hold_last_line_length.
  - cbn. pose proof (decode_qp_length 0 s). lia.
  - cbn. lia.
  - cbn. lia.
Qed.

(** ** Methods *)

Section Fuel.
Context {D : Type} `{TextDecoder D}.
Variable o : MimeOptions.
Abbreviation parser := (MimeParser D).
Abbreviation act := (eff parser event).

Definition fine (e : event) : Prop := e ≠ OutOfFuel.
Abbreviation runs := (wp fine).

Lemma measure_unfold (p : parser) :
  measure p = (2 * length (_headerData p) + 2 * length (_savedBuffer p)
               + match _subparser p with Some s => S (measure s) | None => 0 end)%nat.
Proof. by destruct p. Qed.

Definition smaller (n : nat) (_ : unit) (p : parser) : Prop := (measure p <= n)%nat.

Lemma runs_callEmitter n e Q (p : parser) : fine e → Q tt p → runs (_callEmitter o n e) Q p.
Proof. intros He Hq. unfold _callEmitter. apply wp_when; [|done]. intros _. by apply wp_emit. Qed.

Lemma runs_or_throw {X} (x : option X) (Q : X → parser → Prop) p :
  (∀ y, x = Some y → Q y p) → runs (or_throw x) Q p.
Proof. destruct x as [y|]; [|by split]. intros Hq. apply wp_ret. by apply Hq. Qed.

(** The parts of [p] that [measure] looks at. *)
Definition same_size (p p' : parser) : Prop :=
  _headerData p' = _headerData p ∧ _savedBuffer p' = _savedBuffer p ∧ _subparser p' = _subparser p.

Lemma same_size_measure p p' : same_size p p' → measure p' = measure p.
Proof. intros (H1 & H2 & H3). by rewrite !measure_unfold, H1, H2, H3. Qed.

Lemma runs_parseHeaders Q (p : parser) : (∀ p', same_size p p' → Q tt p') → runs (_parseHeaders o) Q p.
Proof.
  intros Hq. unfold _parseHeaders. apply wp_bind, wp_self. cbv zeta. apply wp_bind.
  assert (Hk : ∀ h, runs (let! contentType := or_throw (get_contentType h) in
     let charset :=
       if force_charset o then charset_opt o
       else match mget (params contentType) (js "charset") with Some c => c | None => charset_opt o end in
     (this, _headers := Some (mkHeaders (_rawHeaders h) (rawHeaderText h) charset (fixedContentType h)))
     >> (this, _charset := charset)) Q p).
  { intros h. apply wp_bind, runs_or_throw. intros ct _. apply wp_bind, wp_modify, wp_modify. by apply Hq. }
  destruct (get_contentType _); [by apply wp_ret, Hk|]. apply wp_bind, runs_or_throw. intros t _.
  apply wp_ret, Hk.
Qed.

Lemma runs_deliver n b Q (p : parser) : Q tt p → runs (deliver o n b) Q p.
Proof.
  intros Hq. unfold deliver. apply wp_bind, wp_self, wp_bind, runs_or_throw. intros d _.
  apply wp_when; [|done]. intros _. by apply runs_callEmitter.
Qed.

(** A body that starts adds a subparser at most. *)
Lemma runs_startBody n k (p : parser) : (S (measure p) <= k)%nat → runs (_startBody o n) (smaller k) p.
Proof.
  intros Hk. rewrite measure_unfold in Hk. destruct (_subparser p) as [sp|] eqn:Es.
  all: unfold _startBody.
  all: apply wp_bind, wp_self, wp_bind, runs_or_throw; intros h _; apply wp_bind, runs_or_throw; intros ct _.
  all: unfold smaller; repeat case_match; repeat first [apply wp_bind|apply wp_modify|apply wp_self|apply wp_skip].
  all: rewrite measure_unfold; cbn; rewrite ?Es; lia.
Qed.

Lemma runs_applyDataConversion b (Q : jsstr → parser → Prop) p :
  (∀ r p', _headerData p' = _headerData p → _subparser p' = _subparser p →
     (length r + length (_savedBuffer p') <= length (_savedBuffer p) + length b)%nat → Q r p') →
  runs (_applyDataConversion b) Q p.
Proof.
  intros Hq. unfold _applyDataConversion. apply wp_bind, wp_self. destruct (_convertData p) as [c|].
  - apply wp_bind, runs_or_throw. intros r Hr%convert_length. apply wp_bind, wp_modify, wp_ret.
    apply Hq; [done..|]. rewrite length_app in Hr. cbn. lia.
  - apply wp_ret, Hq; [done..|]. lia.
Qed.

Lemma runs_on_subparser m Q (p : parser) :
  (∀ s, _subparser p = Some s → runs m (λ _ s', Q tt (p <| _subparser := Some s' |>)) s) →
  runs (on_subparser m) Q p.
Proof.
  intros Hm. unfold wp, on_subparser. destruct (_subparser p) as [s|]; [|done].
  specialize (Hm s eq_refl). unfold wp in Hm. by destruct (m s) as [[s' e] [[]|]].
Qed.

(** The method of a subparser keeps to what its parser has. *)
Section Calls.
Variable f : nat.
Variable dd : jsstr → jsstr → act unit.
Hypothesis Hdd : ∀ n b p, (measure p + 2 * length b < f)%nat →
  runs (dd n b) (smaller (measure p + 2 * length b)) p.

Lemma runs_sub n b p Q :
  (∀ s, _subparser p = Some s → (measure s + 2 * length b < f)%nat) →
  (∀ s s', _subparser p = Some s → (measure s' <= measure s + 2 * length b)%nat →
     Q tt (p <| _subparser := Some s' |>)) →
  runs (on_subparser (dd n b)) Q p.
Proof.
  intros Hf Hq. apply runs_on_subparser. intros s Hs.
  eapply wp_mono; [by apply Hdd, Hf|]. intros [] s' Hs'. by eapply Hq.
Qed.

Lemma runs_eof g n p : (measure p < f)%nat → (measure p < g)%nat →
  runs (dispatchEOF o dd g n) (smaller (measure p)) p.
Proof.
  revert n p. induction g as [|g IH]; intros n p Hf Hg; [lia|]. cbn [dispatchEOF].
  apply wp_bind, wp_bind, wp_self.
  assert (Hend : ∀ p' k, (measure p' <= k)%nat → runs (_callEmitter o n (EndPart n)) (smaller k) p').
  { intros p' k Hp'. by apply runs_callEmitter. }
  assert (Htail : ∀ p', same_size p p' →
    runs match _convertData p with
         | Some c => if str_truthy (_savedBuffer p)
                     then let! r := or_throw (convert c (_savedBuffer p) false) in deliver o n r.1 else skip
         | None => skip
         end (λ _, runs (_callEmitter o n (EndPart n)) (smaller (measure p))) p').
  { intros p' Hs. assert (Hm : (measure p' <= measure p)%nat) by by rewrite (same_size_measure _ _ Hs).
    repeat case_match; try (apply wp_skip; by apply Hend). apply wp_bind, runs_or_throw. intros r _.
    apply runs_deliver. by apply Hend. }
  destruct (_state p); [|by apply Htail..|].
  - apply wp_bind, runs_parseHeaders. intros p' Hs. apply wp_bind, wp_self, wp_bind, runs_or_throw.
    intros h _. apply runs_callEmitter; [done|]. apply Hend. by rewrite (same_size_measure _ _ Hs).
  - rewrite measure_unfold in Hf, Hg.
    assert (Hsub : ∀ s p', _headerData p' = _headerData p → _savedBuffer p' = _savedBuffer p →
        _subparser p' = Some s → (measure s <= match _subparser p with Some s => measure s | None => 0 end
                                   + 2 * length (_savedBuffer p))%nat → _subparser p ≠ None →
        runs (on_subparser (dispatchEOF o dd g (subPartNum p)))
          (λ _, wp fine (this, _subparser := None) (λ _, runs (_callEmitter o n (EndPart n)) (smaller (measure p)))) p').
    { intros s p' Hh Hb Hs Hm Hne. apply runs_on_subparser. intros s0 Hs0. rewrite Hs0 in Hs. injection Hs as ->.
      destruct (_subparser p) as [sp|] eqn:Esp; [|done].
      eapply wp_mono; [apply IH; lia|]. intros [] s' _. apply wp_modify, Hend.
      rewrite !(measure_unfold p), measure_unfold. cbn. rewrite Hh, Hb. lia. }
    apply wp_bind.
    assert (Hskip : wp fine skip (λ _, runs (on_subparser (dispatchEOF o dd g (subPartNum p)) >> (this, _subparser := None))
         (λ _, runs (_callEmitter o n (EndPart n)) (smaller (measure p)))) p).
    { apply wp_skip, wp_bind. destruct (_subparser p) as [s|] eqn:Es.
      - apply (Hsub s p); [done..|lia|done].
      - apply runs_on_subparser. by rewrite Es. }
    destruct (_convertData p) as [c|]; [|done]. destruct (str_truthy (_savedBuffer p)); [|done].
    apply wp_bind, runs_or_throw. intros r Hr%convert_length. apply runs_sub.
    + intros s Es. rewrite Es in *. lia.
    + intros s s' Hs Hm. apply wp_bind. rewrite Hs in Hsub. apply (Hsub s'); try done. lia.
Qed.

Lemma runs_send n b p k :
  (measure p + 2 * length b <= f)%nat → (measure p + 2 * length b <= k)%nat →
  runs (send_data o dd n b) (smaller k) p.
Proof.
  intros Hf Hk. rewrite measure_unfold in Hf, Hk. unfold send_data. apply wp_bind, wp_self.
  destruct (_state p); try (apply wp_skip; unfold smaller; rewrite measure_unfold; lia).
  - destruct (_ || _); [apply wp_skip; unfold smaller; rewrite measure_unfold; lia|].
    apply wp_bind, runs_applyDataConversion. intros r p' Hh Hs Hl. apply runs_deliver.
    unfold smaller. rewrite measure_unfold, Hh, Hs. lia.
  - apply wp_bind, runs_applyDataConversion. intros r p' Hh Hs Hl. apply wp_when; intros _.
    + apply runs_sub; rewrite Hs; [intros s Es; rewrite Es in *; lia|]. intros s s' Es Hm.
      unfold smaller. rewrite measure_unfold. rewrite Es in Hk. cbn. rewrite Hh. lia.
    + unfold smaller. rewrite measure_unfold, Hh, Hs. lia.
Qed.

Definition sub_size (p : parser) : nat := match _subparser p with Some s => S (measure s) | None => 0 end.

Lemma runs_end_subpart eof r p Q :
  (∀ n p, (measure p < f)%nat → runs (eof n) (smaller (measure p)) p) →
  (2 * length (_savedBuffer p) + sub_size p <= f)%nat →
  (∀ p', _headerData p' = _headerData p →
     (sub_size p' <= sub_size p + 2 * length (_savedBuffer p))%nat → Q tt p') →
  runs (end_subpart dd eof r) Q p.
Proof.
  intros Heof Hf Hq. unfold end_subpart. apply wp_bind, wp_bind, wp_self.
  assert (Heof' : ∀ p', _headerData p' = _headerData p →
     (sub_size p' <= sub_size p + 2 * length (_savedBuffer p))%nat →
     runs (let! p := gets id in on_subparser (eof (subPartNum p))) Q p').
  { intros p' Hh Hs. apply wp_bind, wp_self, runs_on_subparser. intros s Es.
    unfold sub_size at 1 in Hs. rewrite Es in Hs.
    eapply wp_mono; [apply Heof; lia|]. intros [] s' Hs'. unfold smaller in Hs'. apply Hq; [done|].
    unfold sub_size at 1. cbn. lia. }
  assert (Hdata : ∀ p', _headerData p' = _headerData p → _subparser p' = _subparser p →
     (length (_savedBuffer p') <= length (_savedBuffer p))%nat →
     runs ((let! p := gets id in
            when (negb (_savedBuffer p ==s [])) (on_subparser (dd (subPartNum p) (_savedBuffer p)))) >>
           (let! p := gets id in on_subparser (eof (subPartNum p)))) Q p').
  { intros p' Hh Hs Hb. assert (Hss : sub_size p' = sub_size p) by (unfold sub_size; by rewrite Hs).
    apply wp_bind, wp_bind, wp_self, wp_when; intros _; [|apply Heof'; [done|lia]].
    rewrite <- Hss in Hf. unfold sub_size in Hf. apply runs_sub; [intros s Es; rewrite Es in *; lia|].
    intros s s' Es Hm. apply Heof'; [done|]. rewrite <- Hss. unfold sub_size. rewrite Es. cbn. lia. }
  apply wp_when; intros _; [apply wp_modify, Hdata; [done..|]|by apply Hdata].
  cbn. unfold strip_line_break, substring. rewrite length_take, length_drop. lia.
Qed.

Lemma runs_next_subpart n r p k :
  (2 * length (_headerData p) + sub_size p <= k)%nat → runs (next_subpart n r) (smaller k) p.
Proof.
  intros Hk. unfold sub_size in Hk. unfold next_subpart. apply wp_bind, wp_modify. destruct (closes r).
  - apply wp_bind, wp_modify, wp_modify. unfold smaller. rewrite measure_unfold. cbn. lia.
  - apply wp_bind, runs_on_subparser. intros s Es. cbn in Es. rewrite Es in Hk. apply wp_modify.
    apply wp_bind, wp_modify, wp_bind, wp_bind, wp_self, wp_modify. apply wp_modify.
    unfold smaller. rewrite measure_unfold. cbn. lia.
Qed.

Lemma runs_whenMultipart eof n r p :
  (∀ n p, (measure p < f)%nat → runs (eof n) (smaller (measure p)) p) →
  (measure p < f)%nat → runs (whenMultipart dd eof n r) (smaller (measure p)) p.
Proof.
  intros Heof Hf. rewrite measure_unfold in *. fold (sub_size p) in *. apply wp_bind, wp_bind, wp_self.
  destruct (negb _).
  - apply wp_modify, runs_next_subpart. unfold sub_size. cbn. lia.
  - apply runs_end_subpart; [done|lia|]. intros p' Hh Hs. apply runs_next_subpart. rewrite Hh. lia.
Qed.
Lemma runs_dispatchBody eof n b p k :
  (∀ n p, (measure p < f)%nat → runs (eof n) (smaller (measure p)) p) →
  (measure p + 2 * length b <= f)%nat → (measure p + 2 * length b <= k)%nat →
  runs (dispatchBody o dd eof n b) (smaller k) p.
Proof.
  intros Heof Hf Hk. apply wp_bind, wp_self.
  assert (Hsend : runs (send_data o dd n b) (smaller k) p) by by apply runs_send.
  destruct (_splitRegex p) as [bd|]; [|done]. destruct (split_at bd b) as [r|] eqn:Er; [|done].
  apply split_at_length in Er.
  assert (Hafter : ∀ p', (measure p' <= measure p + 2 * length (before r))%nat →
    runs (when (0 <? slen (after r)) (dd n (after r))) (smaller k) p').
  { intros p' Hp'. apply wp_when; intros _; [|unfold smaller; lia].
    eapply wp_mono; [apply Hdd; lia|]. unfold smaller. intros []; lia. }
  assert (Hsplit : ∀ p', (measure p' <= measure p + 2 * length (before r))%nat →
    runs (whenMultipart dd eof n r >> when (0 <? slen (after r)) (dd n (after r))) (smaller k) p').
  { intros p' Hp'. apply wp_bind. eapply wp_mono; [apply runs_whenMultipart; [done|lia]|].
    intros [] p2 Hp2. unfold smaller in Hp2. apply Hafter. lia. }
  apply wp_bind, wp_when; intros _; [|apply Hsplit; lia].
  eapply wp_mono; [apply runs_send with (k := (measure p + 2 * length (before r))%nat); lia|].
  intros [] p' Hp'. by apply Hsplit.
Qed.
End Calls.

(** ** All of them *)

Lemma runs_dispatchData f n b p :
  (measure p + 2 * length b < f)%nat →
  runs (dispatchData o f n b) (smaller (measure p + 2 * length b)) p.
Proof.
  revert n b p. induction f as [|f IH]; intros n b p Hf; [lia|]. cbn [dispatchData].
  apply wp_bind, wp_self.
  assert (Hbody : ∀ b p k, (measure p + 2 * length b <= f)%nat → (measure p + 2 * length b <= k)%nat →
    runs (dispatchBody o (dispatchData o f) (dispatchEOF o (dispatchData o f) f) n b) (smaller k) p).
  { intros. apply (runs_dispatchBody f); [done|intros; by apply (runs_eof f)|done..]. }
  destruct (_state p); try by (apply Hbody; lia).
  apply wp_bind, wp_modify. rewrite measure_unfold in *.
  destruct (end_of_headers (_headerData p ++ b)) as [[hd rest]|] eqn:Ee.
  - apply end_of_headers_length in Ee. rewrite length_app in Ee.
    apply wp_bind, wp_modify. apply wp_bind, runs_parseHeaders. intros p1 (H1 & H2 & H3).
    cbn in H1, H2, H3.
    apply wp_bind, wp_bind, wp_self, wp_bind, runs_or_throw. intros h _.
    apply runs_callEmitter; [done|]. apply wp_bind.
    eapply wp_mono; [apply (runs_startBody n (S (measure p1))); lia|]. intros [] p2 Hp2.
    unfold smaller in Hp2. rewrite (measure_unfold p1), H1, H2, H3 in Hp2. apply Hbody; lia.
  - apply wp_skip. unfold smaller. rewrite measure_unfold. cbn. rewrite length_app. lia.
Qed.

(** A method that handles all it is given. *)
Definition never_out (m : act unit) : Prop := ∀ p, Forall fine (m p).1.2.

Lemma never_out_runs m : (∀ p, runs m (λ _ _, True) p) → never_out m.
Proof.
  intros Hm p. specialize (Hm p). unfold wp in Hm. destruct (m p) as [[p' e] r]. by destruct Hm.
Qed.

Lemma runs_deliverData b p : runs (deliverData o b) (λ _ _, True) p.
Proof.
  unfold deliverData. apply wp_bind, wp_self. destruct (conditionToEndOnCRLF _) as [x h].
  apply wp_bind, wp_modify, wp_when; [|done]. intros _. apply wp_bind, wp_bind, wp_self.
  assert (Hd : ∀ p', runs (_dispatchData o [] x) (λ _ _, True) p').
  { intros p'. eapply wp_mono; [apply (runs_dispatchData (fuel_for p' x)); unfold fuel_for; lia|done]. }
  apply wp_when; intros _; [|done]. apply wp_bind, wp_emit; [done|]. apply wp_modify, Hd.
Qed.

Lemma runs_deliverEOF p : runs (deliverEOF o) (λ _ _, True) p.
Proof.
  unfold deliverEOF. apply wp_bind, wp_bind, wp_self.
  assert (Hd : ∀ p', runs ((let! p := gets id in
     when (str_truthy (_holdData p)) (_dispatchData o [] (_holdData p))) >> _dispatchEOF o [] >> emit EndMessage)
     (λ _ _, True) p').
  { intros p'. apply wp_bind, wp_bind, wp_self.
    assert (He : ∀ p', runs (_dispatchEOF o [] >> emit EndMessage) (λ _ _, True) p').
    { intros p2. apply wp_bind.
      eapply wp_mono; [apply (runs_eof (fuel_for p2 [])); unfold fuel_for; cbn; try lia|].
      - intros n b p3. apply runs_dispatchData.
      - intros [] p3 _. by apply wp_emit. }
    apply wp_when; intros _; [|apply He].
    eapply wp_mono; [apply (runs_dispatchData (fuel_for p' (_holdData p'))); unfold fuel_for; lia|].
    intros [] p2 _. apply He. }
  apply wp_when; intros _; [|apply Hd]. apply wp_bind, wp_emit; [done|]. apply wp_modify, Hd.
Qed.

(** C35. However a message is cut into buffers, and whatever state the parser is in, the
    parser handles it to the end: its methods never run out of fuel. *)
Theorem parse_message_ends buffers : never_out (parse_message o buffers).
Proof.
  apply never_out_runs. unfold parse_message. intros p. apply wp_bind.
  assert (Hall : ∀ p, runs (for_each buffers (deliverData o)) (λ _, runs (deliverEOF o) (λ _ _, True)) p); [|done].
  clear p. induction buffers as [|b bs IH]; intros p; [apply wp_skip, runs_deliverEOF|].
  apply wp_bind. eapply wp_mono; [apply runs_deliverData|]. intros [] p' _. apply IH.
Qed.
End Fuel.
