(* ===== verification/MimeTree.v ===== *)
(** * MimeTree: the MIME parser against the tree of a message

    [tree] is what a message means to the emitter when all of it is there: a part is
    its headers and its body, and the body of a multipart or of a message is cut into
    parts again.  Here: however the message arrives, the streaming parser of
    MimeParser.v gives its emitter the events of the tree, up to how the data of a
    part is cut. *)

From S2P Require Import Prelude Effects MimeUtils MimeHeaders MimeParser MimeText MimeFuel.

Section Tree.
Context {D : Type} `{TextDecoder D}.
Variable o : MimeOptions.
Abbreviation parser := (MimeParser D).
Abbreviation act := (eff parser event).

(** ** The tree *)

(** The headers of a part, as [_parseHeaders] gives them. *)
Definition part_headers (dflt : option jsstr) (text : jsstr) : option StructuredHeaders :=
  let headers := newStructuredHeaders text o in
  headers ← match get_contentType headers with
            | Some _ => Some headers
            | None =>
                t ← default_content_type dflt;
                Some (mkHeaders (_rawHeaders headers) (rawHeaderText headers) (charset_ headers) (Some t))
            end;
  contentType ← get_contentType headers;
  let charset :=
    if force_charset o then charset_opt o
    else match mget (params contentType) (js "charset") with
         | Some c => c
         | None => charset_opt o
         end in
  Some (mkHeaders (_rawHeaders headers) (rawHeaderText headers) charset (fixedContentType headers)).

(** What becomes of a body. *)
Inductive body :=
  | Discard
  | Deliver (decoder : option converter)
  | Submessage (decoder : option converter)
  | Multipart (boundary : jsstr) (dflt : option jsstr).

Definition wants_submessages (n : jsstr) : bool :=
  if negb (decodeSubMessages o) && str_truthy (pruneat o)
  then (slen n <? slen (pruneat o)) && startsWith (pruneat o) n
  else decodeSubMessages o.

Definition body_of (n : jsstr) (h : StructuredHeaders) : option body :=
  contentType ← get_contentType h;
  Some
    (if (bodyformat o ==s js "raw") && (n ==s pruneat o) then Deliver None
     else if mediatype contentType ==s js "multipart" then
       match mget (params contentType) (js "boundary") with
       | None => Discard
       | Some bd => Multipart bd (if subtype contentType ==s js "digest" then Some (js "message/rfc822") else None)
       end
     else if (wants_submessages n || _willIgnorePart o n) && is_message (type_ contentType) then
       Submessage (content_decoder (transfer_encoding h))
     else Deliver (if bodyformat o ==s js "decode" then content_decoder (transfer_encoding h) else None)).

Definition visible (n : jsstr) (e : event) : list event := if _willIgnorePart o n then [] else [e].

(** Data without a decoder, or with the one for quoted-printable. *)
Definition streams (c : option converter) : bool :=
  match c with None | Some CQuotedPrintable => true | Some _ => false end.

Definition decoded (c : option converter) (s : jsstr) : jsstr :=
  match c with Some CQuotedPrintable => decode_qp_scan 0 s | _ => s end.

Definition coerced (s : jsstr) : data :=
  if strformat o ==s js "binarystring" then Str s else Typed (stringToTypedArray s).

Definition delivered (c : option converter) (n s : jsstr) : list event :=
  if bodyformat o ==s js "none" then [] else visible n (DeliverPartData n (coerced (decoded c s))).

Definition part_number (n : jsstr) (k : Z) : jsstr := (if n ==s [] then n else n ++ js ".") ++ num_str k.

(** The parts of a multipart, numbered from [k] on. *)
Fixpoint parts (tree : jsstr → jsstr → option (list event)) (n : jsstr) (k : Z) (texts : list jsstr)
    : option (list event) :=
  match texts with
  | [] => Some []
  | t :: texts' =>
      e ← tree (part_number n k) t;
      es ← parts tree n (k + 1) texts';
      Some (e ++ es)
  end.

(** The events of a body.  There are none known where a decoder depends on how its
    data is cut (base64), where a message is encoded, and for a boundary with a line
    break in it. *)
Definition body_events (tree : option jsstr → jsstr → jsstr → option (list event)) (n : jsstr) (b : body)
    (text : jsstr) : option (list event) :=
  match b with
  | Discard => Some []
  | Deliver c => if streams c then Some (delivered c n text) else None
  | Submessage (Some _) => None
  | Submessage None => tree None (n ++ js "$") text
  | Multipart bd dflt => if bool_decide (LF ∈ bd) then None else parts (tree dflt) n 1 (tail (contents bd text))
  end.

Fixpoint tree_of (fuel : nat) (dflt : option jsstr) (n text : jsstr) : option (list event) :=
  match fuel with
  | O => None
  | S fuel' =>
      let '(headers, rest) := match end_of_headers text with
                              | Some (h, r) => (h, Some r)
                              | None => (text, None)
                              end in
      h ← part_headers dflt headers;
      es ← match rest with
           | Some text' => b ← body_of n h; body_events (tree_of fuel') n b text'
           | None => Some []
           end;
      Some (visible n (StartPart n h) ++ es ++ visible n (EndPart n))
  end.

(** A part is longer than what is in it. *)
Definition tree (dflt : option jsstr) (n text : jsstr) : option (list event) :=
  tree_of (S (length text)) dflt n text.

Lemma parts_ext (f g : jsstr → jsstr → option (list event)) n k l :
  Forall (λ t, ∀ m, f m t = g m t) l → parts f n k l = parts g n k l.
Proof. intros Hl. revert k. induction Hl as [|t l Ht Hl IH]; intros k; [done|]. cbn. by rewrite Ht, IH. Qed.

Lemma body_events_ext f g n b text :
  (∀ d m t, (length t <= length text)%nat → f d m t = g d m t) → body_events f n b text = body_events g n b text.
Proof.
  intros Hf. destruct b as [|c|[c|]|bd d]; cbn [body_events]; [done..|by apply Hf|]. case_bool_decide; [done|].
  apply parts_ext. pose proof (contents_lengths bd text) as Hl. destruct (contents bd text) as [|x l]; cbn [tail]; [constructor|].
  apply Forall_cons_1 in Hl as [_ Hl]. eapply Forall_impl; [exact Hl|]. cbn. intros t Ht m. by apply Hf.
Qed.

Lemma tree_enough f f' d n text :
  (length text < f)%nat → (length text < f')%nat → tree_of f d n text = tree_of f' d n text.
Proof.
  revert f' d n text. induction f as [|f IH]; intros f' d n text Hf Hf'; [lia|]. destruct f' as [|f']; [lia|].
  cbn [tree_of]. destruct (end_of_headers text) as [[h r]|] eqn:E; [|done].
  apply end_of_headers_length in E. destruct (part_headers d h) as [hs|]; [|done]. cbn.
  destruct (body_of n hs) as [b|]; [|done]. cbn.
  rewrite (body_events_ext (tree_of f) (tree_of f')); [done|]. intros d' m t Ht. apply IH; lia.
Qed.

Lemma tree_unfold d n text :
  tree d n text
  = (let '(headers, rest) := match end_of_headers text with
                             | Some (h, r) => (h, Some r)
                             | None => (text, None)
                             end in
     h ← part_headers d headers;
     es ← match rest with
          | Some text' => b ← body_of n h; body_events tree n b text'
          | None => Some []
          end;
     Some (visible n (StartPart n h) ++ es ++ visible n (EndPart n))).
Proof.
  unfold tree at 1. cbn [tree_of]. destruct (end_of_headers text) as [[h r]|] eqn:E; [|done].
  apply end_of_headers_length in E. destruct (part_headers d h) as [hs|]; [|done]. cbn.
  destruct (body_of n hs) as [b|]; [|done]. cbn.
  rewrite (body_events_ext (tree_of (length text)) tree); [done|]. intros d' m t Ht. apply tree_enough; lia.
Qed.

(** ** Events, up to how data is cut *)

Definition pieces (d : data) : list data :=
  match d with Str s => map (λ c, Str [c]) s | Typed l => map (λ c, Typed [c]) l end.

Definition unpack (e : event) : list event :=
  match e with DeliverPartData n d => map (DeliverPartData n) (pieces d) | _ => [e] end.

Definition unpacked (es : list event) : list event := flat_map unpack es.

Lemma unpacked_app a b : unpacked (a ++ b) = unpacked a ++ unpacked b.
Proof. apply flat_map_app. Qed.

Lemma pieces_coerced a b : pieces (coerced (a ++ b)) = pieces (coerced a) ++ pieces (coerced b).
Proof. unfold coerced. destruct (_ ==s _); cbn; unfold stringToTypedArray; by rewrite ?map_app. Qed.
End Tree.

(** ** For examples *)

(** A decoder that takes every character set as Latin-1. *)
Definition latin1 : TextDecoder unit :=
  {| new_decoder _ _ := Some tt; decode _ b _ := Some (b, tt) |}.

Definition lines (l : list jsstr) : jsstr := concat (map (λ x, x ++ CRLF) l).

(** A multipart with a plain part, and a message in a digest in it. *)
Definition example_message : jsstr :=
  lines [js "Subject: x"; js "Content-Type: multipart/mixed; boundary=b"; [];
         js "prologue"; js "--b"; []; js "hello"; js "world"; js "--b";
         js "Content-Type: multipart/digest; boundary=c"; []; js "--c"; []; js "Subject: y"; []; js "inner";
         js "--c--"; js "--b--"; js "epilogue"].
