(* ===== verification/MimeStream.v ===== *)
(** * MimeStream: the streaming parser yields the tree

    [yields d n p Y ev]: the parser [p] of the part [n], which is still to receive
    the text [Y], gives the events [ev] for it and for its end.  Buffers that are cut
    behind line breaks move it along ([dispatchData]), and the end of the part ends it
    ([dispatchEOF]).  From these, the theorem on whole messages.

    That the methods have enough fuel is left to MimeFuel.v: here, what they do when
    they do not run out. *)

From S2P Require Import Prelude Effects MimeUtils MimeHeaders MimeParser MimeText MimeFuel MimeTree.

Section Stream.
Context {D : Type} `{TextDecoder D}.
Variable o : MimeOptions.
Hypothesis not_unicode : (strformat o ==s js "unicode") = false.
Abbreviation parser := (MimeParser D).
Abbreviation act := (eff parser event).

(** ** Events to come

    [gives m Q p ev]: [m] gives the first of the events [ev], as they are unpacked,
    and [Q] holds of its result, its new state and the events to come after it. *)
Definition gives {X} (m : act X) (Q : X → parser → list event → Prop) (p : parser) (ev : list event) : Prop :=
  let '(p', e, r) := m p in
  Forall fine e → ∃ x ev', r = Some x ∧ ev = unpacked e ++ ev' ∧ Q x p' ev'.

Lemma gives_mono {X} (m : act X) (Q Q' : X → parser → list event → Prop) p ev :
  gives m Q p ev → (∀ x p' ev', Q x p' ev' → Q' x p' ev') → gives m Q' p ev.
Proof.
  unfold gives. destruct (m p) as [[p' e] r]. intros Hm HQ He. destruct (Hm He) as (x & ev' & -> & -> & Hq).
  exists x, ev'. auto.
Qed.

Lemma gives_bind {X Y} (m : act X) (k : X → act Y) Q p ev :
  gives m (λ x, gives (k x) Q) p ev → gives (bind m k) Q p ev.
Proof.
  unfold gives, bind. destruct (m p) as [[p1 e1] [x|]].
  - intros Hm. destruct (k x p1) as [[p2 e2] r] eqn:Ek. intros [He1 He2]%Forall_app.
    destruct (Hm He1) as (? & ev1 & [= <-] & -> & Hk). rewrite Ek in Hk.
    destruct (Hk He2) as (y & ev2 & -> & -> & Hq). exists y, ev2.
    by rewrite unpacked_app, (assoc_L (++)).
  - intros Hm He. by destruct (Hm He) as (x & ev1 & ? & _).
Qed.

Lemma gives_ret {X} (x : X) Q p ev : Q x p ev → gives (ret x) Q p ev.
Proof. intros Hq _. by exists x, ev. Qed.
Lemma gives_skip Q p ev : Q tt p ev → gives skip Q p ev.
Proof. apply gives_ret. Qed.
Lemma gives_self Q p ev : Q p p ev → gives (gets id) Q p ev.
Proof. intros Hq _. by exists p, ev. Qed.
Lemma gives_modify f Q p ev : Q tt (f p) ev → gives (modify f) Q p ev.
Proof. intros Hq _. by exists tt, ev. Qed.
Lemma gives_when (b : bool) m Q p ev : (b = true → gives m Q p ev) → (b = false → Q tt p ev) → gives (when b m) Q p ev.
Proof. destruct b; [by eauto|]. intros _ Hq. apply gives_skip. by apply Hq. Qed.
Lemma gives_or_throw {X} (x : option X) y Q p ev : x = Some y → Q y p ev → gives (or_throw x) Q p ev.
Proof. intros ->. apply gives_ret. Qed.
Lemma gives_out Q p ev : gives (emit OutOfFuel) Q p ev.
Proof. intros He. apply Forall_cons_1 in He as [He _]. by destruct He. Qed.

(** The call of the emitter is the next event. *)
Lemma gives_callEmitter n e Q p ev :
  Q tt p ev → gives (_callEmitter o n e) Q p (unpacked (visible o n e) ++ ev).
Proof.
  intros Hq. unfold _callEmitter, visible. destruct (_willIgnorePart o n); [by apply gives_skip|].
  intros _. exists tt, ev. done.
Qed.

(** The events behind those of a part. *)
Lemma gives_frame {X} (m : act X) Q p ev R :
  gives m Q p ev → gives m (λ x p' ev', ∃ ev1, ev' = ev1 ++ R ∧ Q x p' ev1) p (ev ++ R).
Proof.
  unfold gives. destruct (m p) as [[p' e] r]. intros Hm He. destruct (Hm He) as (x & ev' & -> & -> & Hq).
  exists x, (ev' ++ R). rewrite (assoc_L (++)). eauto.
Qed.

Lemma gives_on_subparser m Q (p : parser) s ev :
  _subparser p = Some s →
  gives m (λ x s', Q x (p <| _subparser := Some s' |>)) s ev → gives (on_subparser m) Q p ev.
Proof. unfold gives, on_subparser. intros ->. by destruct (m s) as [[s' e] r]. Qed.

Lemma gives_parseHeaders Q (p : parser) h ev :
  part_headers o (_defaultContentType p) (_headerData p) = Some h →
  Q tt (p <| _headers := Some h |> <| _charset := charset_ h |>) ev →
  gives (_parseHeaders o) Q p ev.
Proof.
  unfold part_headers, _parseHeaders. intros Hh Hq. apply gives_bind, gives_self. cbv zeta.
  set (hs := newStructuredHeaders (_headerData p) o) in *.
  destruct (match get_contentType hs with Some _ => Some hs | None => _ end) as [hs'|] eqn:E1; [|done].
  cbn in Hh. destruct (get_contentType hs') as [ct|] eqn:E2; [|done]. cbn in Hh. injection Hh as <-.
  apply gives_bind. assert (Hk : gives (let! contentType := or_throw (get_contentType hs') in
     let charset :=
       if force_charset o then charset_opt o
       else match mget (params contentType) (js "charset") with Some c => c | None => charset_opt o end in
     (this, _headers := Some (mkHeaders (_rawHeaders hs') (rawHeaderText hs') charset (fixedContentType hs')))
     >> (this, _charset := charset)) Q p ev).
  { apply gives_bind, (gives_or_throw _ ct); [done|]. by apply gives_bind, gives_modify, gives_modify. }
  destruct (get_contentType hs); [injection E1 as <-; by apply gives_ret|].
  apply gives_bind. destruct (default_content_type (_defaultContentType p)) as [t|] eqn:Et; [|done].
  cbn in E1. injection E1 as <-. by apply gives_ret, gives_ret.
Qed.

(** ** A body that starts *)

Definition begun (d : option jsstr) (n : jsstr) (b : body) (p : parser) : Prop :=
  _defaultContentType p = d ∧ _savedBuffer p = [] ∧
  match b with
  | Discard => _state p = SEND_TO_BLACK_HOLE ∧ _splitRegex p = None
  | Deliver c => _state p = SEND_TO_EMITTER ∧ _splitRegex p = None ∧ _convertData p = c
  | Submessage c =>
      _state p = SEND_TO_SUBPARSER ∧ _splitRegex p = None ∧ _convertData p = c ∧
      _subPartNum p = Some (n ++ js "$") ∧ _subparser p = Some newMimeParser
  | Multipart bd d' =>
      _state p = SEND_TO_BLACK_HOLE ∧ _splitRegex p = Some bd ∧ _convertData p = Some CMultipart ∧
      _subPartNum p = None ∧ _subparser p = Some (newMimeParser <| _defaultContentType := d' |>)
  end.

(** A parser that has read nothing but headers. *)
Definition fresh (d : option jsstr) (p : parser) : Prop :=
  _state p = PARSING_HEADERS ∧ _splitRegex p = None ∧ _subPartNum p = None ∧ _savedBuffer p = [] ∧
  _convertData p = None ∧ _defaultContentType p = d.

Lemma gives_startBody d n (p : parser) h b ev :
  fresh d p → _headers p = Some h → body_of o n h = Some b →
  gives (_startBody o n) (λ _ p' ev', begun d n b p' ∧ ev' = ev) p ev.
Proof.
  intros (Hst & Hsp & Hsn & Hsv & Hc & Hd) Hh. unfold body_of, _startBody.
  destruct (get_contentType h) as [ct|] eqn:Ect; [|done]. cbn. intros [= <-].
  apply gives_bind, gives_self, gives_bind, (gives_or_throw _ h); [done|].
  apply gives_bind, (gives_or_throw _ ct); [done|]. fold (wants_submessages o n).
  repeat (case_match; try done).
  all: unfold begun; repeat first [apply gives_bind|apply gives_modify|apply gives_self|apply gives_skip]; done.
Qed.

(** ** What is to come *)

Definition ending (n : jsstr) : list event := unpacked (visible o n (EndPart n)).

Inductive yields : option jsstr → jsstr → parser → jsstr → list event → Prop :=
  | y_headers d n p Y ev :
      fresh d p → aligned (_headerData p) ∨ Y = [] → end_of_headers (_headerData p) = None →
      paired (_headerData p ++ Y) = true → tree o d n (_headerData p ++ Y) = Some ev →
      yields d n p Y (unpacked ev)
  | y_discard d n p Y :
      _defaultContentType p = d → _savedBuffer p = [] → _state p = SEND_TO_BLACK_HOLE → _splitRegex p = None →
      yields d n p Y (ending n)
  | y_deliver d n p Y c :
      _defaultContentType p = d → _savedBuffer p = [] → _state p = SEND_TO_EMITTER → _splitRegex p = None →
      _convertData p = c → streams c = true →
      yields d n p Y (unpacked (delivered o c n Y) ++ ending n)
  | y_message d n p Y s ev :
      _defaultContentType p = d → _savedBuffer p = [] → _state p = SEND_TO_SUBPARSER → _splitRegex p = None →
      _convertData p = None → _subPartNum p = Some (n ++ js "$") → _subparser p = Some s →
      yields None (n ++ js "$") s Y ev →
      yields d n p Y (ev ++ ending n)
  | y_prologue d n p Y bd s d' ev :
      _defaultContentType p = d → _savedBuffer p = [] → _state p = SEND_TO_BLACK_HOLE →
      _splitRegex p = Some bd → LF ∉ bd → _convertData p = Some CMultipart → _subPartNum p = None →
      _subparser p = Some s → _defaultContentType s = d' → paired Y = true →
      parts (tree o d') n 1 (tail (contents bd Y)) = Some ev →
      yields d n p Y (unpacked ev ++ ending n)
  | y_part d n p Y bd s d' sn c texts ev evs :
      _defaultContentType p = d → _state p = SEND_TO_SUBPARSER →
      _splitRegex p = Some bd → LF ∉ bd → _convertData p = Some CMultipart →
      _subPartNum p = Some sn → sn ≠ [] → 0 <= _count p → _subparser p = Some s →
      aligned (_savedBuffer p) ∨ Y = [] → split_at bd (_savedBuffer p) = None →
      paired (_savedBuffer p ++ Y) = true → contents bd (_savedBuffer p ++ Y) = c :: texts →
      yields d' sn s c ev → parts (tree o d') n (_count p) texts = Some evs →
      yields d n p Y (ev ++ unpacked evs ++ ending n).

Lemma yields_new d n p Y ev :
  fresh d p → _headerData p = [] → paired Y = true → tree o d n Y = Some ev → yields d n p Y (unpacked ev).
Proof. intros Hf Hh Hp Ht. apply y_headers; rewrite ?Hh; [done|by left; left|done..]. Qed.

Lemma fresh_reset d (p : parser) : _defaultContentType p = d → fresh d (resetParser p).
Proof. by intros <-. Qed.

Lemma fresh_new d : fresh d (newMimeParser <| _defaultContentType := d |> : parser).
Proof. done. Qed.

Lemma begun_yields d n b p Y ev :
  begun d n b p → paired Y = true → body_events o (tree o) n b Y = Some ev →
  yields d n p Y (unpacked ev ++ ending n).
Proof.
  intros (Hd & Hs & Hb) Hp. destruct b as [|c|[c|]|bd d']; cbn [body_events].
  - intros [= <-]. destruct Hb. by apply y_discard.
  - destruct (streams c) eqn:Ec; [|done]. intros [= <-]. destruct Hb as (? & ? & ?). by apply y_deliver.
  - done.
  - intros Ht. destruct Hb as (? & ? & ? & ? & ?). eapply y_message; try done. by eapply yields_new.
  - case_bool_decide; [done|]. intros Ht. destruct Hb as (? & ? & ? & ? & ?). by eapply y_prologue.
Qed.

(** ** Quoted-printable, line by line *)

Lemma soft_break_app s t : aligned s → s ≠ [] → soft_break (s ++ t) = soft_break s.
Proof.
  induction s as [|c s IH]; intros Ha Hne; [done|]. cbn [app soft_break].
  assert (Hs : c ≠ LF → aligned s ∧ s ≠ []).
  { intros Hc. destruct Ha as [|Hl]; [done|]. destruct s as [|d s]; [by injection Hl as ->|]. split; [by right|done]. }
  destruct (_ || _) eqn:E1.
  { destruct Hs as [H1 H2]; [by intros ->|]. by rewrite IH. }
  destruct (Z.eqb_spec c CR) as [->|]; [|done]. destruct Hs as [H1 H2]; [done|]. by destruct s.
Qed.

Lemma soft_break_length s n : soft_break s = Some n → (n <= length s)%nat.
Proof.
  revert n. induction s as [|c s IH]; intros n; [by intros [= <-]|]. cbn. destruct (_ || _).
  - destruct (soft_break s) as [m|]; [|done]. cbn. intros [= <-]. specialize (IH m eq_refl). lia.
  - repeat case_match; intros [= <-]; cbn; lia.
Qed.

Lemma match_eq_app s t : aligned s → s ≠ [] → match_eq (s ++ t) = match_eq s.
Proof.
  intros Ha Hne. unfold match_eq. destruct s as [|a [|b s]]; [done| |].
  - destruct Ha as [|[= ->]]; [done|]. by destruct t.
  - pose proof (soft_break_app (a :: b :: s) t Ha Hne) as Hb. cbn [app] in *. rewrite Hb.
    destruct (hex_val a), (hex_val b); done.
Qed.

Lemma match_eq_length s r n : match_eq s = Some (r, n) → (n <= length s)%nat.
Proof.
  unfold match_eq. intros Hm. assert (Hs : ∀ m, (λ n, ([] : jsstr, n)) <$> soft_break s = Some (r, m) → (m <= length s)%nat).
  { intros m. destruct (soft_break s) as [k|] eqn:E; [|done]. cbn. intros [= <- <-]. by apply soft_break_length. }
  destruct s as [|a [|b s]]; [by apply Hs..|]. repeat (case_match; try by apply Hs).
  injection Hm as <- <-. cbn. lia.
Qed.

Lemma decode_qp_app k s t :
  (k <= length s)%nat → aligned s → decode_qp_scan k (s ++ t) = decode_qp_scan k s ++ decode_qp_scan 0 t.
Proof.
  revert k. induction s as [|c s IH]; intros k Hk Ha; [by destruct k; [|cbn in *; lia]|].
  assert (Has : aligned s) by by apply (aligned_app_r [c]).
  cbn [app decode_qp_scan]. destruct k as [|k]; [|apply IH; [cbn in *; lia|done]].
  destruct (Z.eqb_spec c 61) as [->|Hc]; [|rewrite IH by (done || lia); done].
  destruct (decide (s = [])) as [->|Hne]; [by destruct Ha|].
  rewrite match_eq_app by done. destruct (match_eq s) as [[r n]|] eqn:E.
  - rewrite IH by (done || by eapply match_eq_length). by rewrite (assoc_L (++)).
  - by rewrite IH by (done || lia).
Qed.

Lemma decoded_app c s t : aligned s ∨ t = [] → decoded c (s ++ t) = decoded c s ++ decoded c t.
Proof.
  intros [Hs| ->].
  - destruct c as [[]|]; try done. apply decode_qp_app; [lia|done].
  - rewrite app_nil_r. by destruct c as [[]|]; rewrite ?app_nil_r.
Qed.

Lemma delivered_app c n s t :
  aligned s ∨ t = [] → unpacked (delivered o c n (s ++ t)) = unpacked (delivered o c n s) ++ unpacked (delivered o c n t).
Proof.
  intros Hs. unfold delivered, visible. destruct (bodyformat o ==s js "none"); [done|]. destruct (_willIgnorePart o n); [done|].
  cbn. rewrite !app_nil_r, decoded_app by done. by rewrite pieces_coerced, map_app.
Qed.

Lemma delivered_nil c n : unpacked (delivered o c n []) = [].
Proof.
  unfold delivered, visible, coerced. destruct (bodyformat o ==s js "none"); [done|]. destruct (_willIgnorePart o n); [done|].
  destruct c as [[]|]; by destruct (strformat o ==s js "binarystring").
Qed.

(** ** Methods of the subparser *)

Lemma gives_sub m Q Q' (p : parser) s ev R :
  _subparser p = Some s → gives m Q' s ev →
  (∀ s' ev', Q' tt s' ev' → Q tt (p <| _subparser := Some s' |>) (ev' ++ R)) →
  gives (on_subparser m) Q p (ev ++ R).
Proof.
  intros Hs Hm HQ. apply (gives_on_subparser _ _ _ _ _ Hs). eapply gives_mono; [by apply gives_frame|].
  intros [] s' ev' (ev1 & -> & Hq). by apply HQ.
Qed.

Lemma set_subparser (p : parser) s : _subparser p = Some s → p <| _subparser := Some s |> = p.
Proof. destruct p. cbn. by intros ->. Qed.

Lemma str_truthy_false s : str_truthy s = false → s = [].
Proof. by destruct s. Qed.

Lemma jseq_nil_false s : negb (s ==s []) = false → s = [].
Proof. by destruct s. Qed.

Lemma slen_pos_false s : (0 <? slen s) = false → s = [].
Proof. destruct s; [done|]. unfold slen. cbn [length]. intros ?%Z.ltb_ge. lia. Qed.

Section Calls.
Variable dd : jsstr → jsstr → act unit.
Hypothesis gives_dd : ∀ d n p b Z ev,
  yields d n p (b ++ Z) ev → aligned b ∨ Z = [] → gives (dd n b) (λ _ p', yields d n p' Z) p ev.

Lemma gives_dd_end d n p b ev :
  yields d n p b ev → gives (dd n b) (λ _ p', yields d n p' []) p ev.
Proof. intros Hy. apply gives_dd; [by rewrite app_nil_r|by right]. Qed.

(** ** The end *)

Lemma subPartNum_eq (p : parser) n : _subPartNum p = Some n → subPartNum p = n.
Proof. unfold subPartNum. by intros ->. Qed.

Lemma gives_eof g d n p ev :
  yields d n p [] ev → gives (dispatchEOF o dd g n) (λ _ p' ev', ev' = [] ∧ _defaultContentType p' = d) p ev.
Proof.
  revert d n p ev. induction g as [|g IH]; intros d n p ev Hy; [apply gives_out|].
  cbn [dispatchEOF]. apply gives_bind, gives_bind, gives_self.
  assert (Hend : ∀ p', _defaultContentType p' = d →
     gives (_callEmitter o n (EndPart n)) (λ _ p' ev', ev' = [] ∧ _defaultContentType p' = d) p' (ending n)).
  { intros p' Hd. rewrite <- (app_nil_r (ending n)). by apply gives_callEmitter. }
  inversion Hy as [? ? ? ? ev0 (Hst & _ & _ & Hsv & Hc & Hd) Hal He Hp Ht|? ? ? ? Hd Hsv Hst Hr
                  |? ? ? ? c Hd Hsv Hst Hr Hc Hcs|? ? ? ? s ev0 Hd Hsv Hst Hr Hc Hsn Hs Hsub
                  |? ? ? ? bd s d' ev0 Hd Hsv Hst Hr Hbd Hc Hsn Hs Hds Hp Hps
                  |? ? ? ? bd s d' sn c texts ev0 evs Hd Hst Hr Hbd Hc Hsn Hnn Hk Hs Hal Hsp Hp Hco Hsub Hps];
    subst; rewrite Hst.
  - apply gives_bind. rewrite app_nil_r, tree_unfold, He in Ht.
    destruct (part_headers o (_defaultContentType p) (_headerData p)) as [h|] eqn:Eh; [|done].
    cbn in Ht. injection Ht as <-. eapply gives_parseHeaders; [done|].
    apply gives_bind, gives_self, gives_bind, (gives_or_throw _ h); [done|].
    rewrite unpacked_app. apply gives_callEmitter. by apply Hend.
  - rewrite Hsv. destruct (_convertData p); by apply gives_skip, Hend.
  - rewrite delivered_nil, Hsv. destruct (_convertData p); by apply gives_skip, Hend.
  - rewrite Hc. apply gives_bind, gives_skip. apply gives_bind. rewrite (subPartNum_eq p _ Hsn).
    eapply gives_sub; [done|by apply IH|]. intros s' ev' [-> _]. by apply gives_modify, Hend.
  - cbn in Hps. injection Hps as <-. rewrite Hc, Hsv. by apply gives_skip, Hend.
  - rewrite app_nil_r, contents_unfold, Hsp in Hco. injection Hco as <- <-.
    cbn in Hps. injection Hps as <-. rewrite app_nil_r in Hp. apply gives_bind. rewrite Hc.
    assert (Heof : ∀ s' ev', yields d' sn s' [] ev' →
       gives (on_subparser (dispatchEOF o dd g (subPartNum p)) >> (this, _subparser := None))
         (λ _, gives (_callEmitter o n (EndPart n)) (λ _ p' ev', ev' = [] ∧ _defaultContentType p' = _defaultContentType p))
         (p <| _subparser := Some s' |>) (ev' ++ ending n)).
    { intros s' ev' Hys. apply gives_bind. rewrite (subPartNum_eq p _ Hsn).
      eapply gives_sub; [done|by apply IH|]. intros s2 ev2 [-> _]. by apply gives_modify, Hend. }
    destruct (str_truthy (_savedBuffer p)) eqn:Es.
    + apply gives_bind. cbn [convert]. rewrite hold_last_line_end by done. eapply gives_or_throw; [done|].
      cbv beta. rewrite (subPartNum_eq p _ Hsn). eapply gives_sub; [done|by apply gives_dd_end|].
      intros s' ev' Hys. rewrite <- (subPartNum_eq p _ Hsn). by apply Heof.
    + apply gives_skip. apply str_truthy_false in Es. rewrite Es in Hsub. cbn in Hsub.
      rewrite <- (set_subparser p s Hs). by apply Heof.
Qed.

(** ** A delimiter *)

Section Delimiter.
Variable eof : jsstr → act unit.
Hypothesis gives_end : ∀ d n p ev,
  yields d n p [] ev → gives (eof n) (λ _ p' ev', ev' = [] ∧ _defaultContentType p' = d) p ev.

Lemma gives_end_subpart (p : parser) sn s d' r ev R :
  _subPartNum p = Some sn → _subparser p = Some s →
  yields d' sn s (if at_start r then strip_line_break (_savedBuffer p) else _savedBuffer p) ev →
  gives (end_subpart dd eof r)
    (λ _ p' ev', ev' = R ∧ ∃ s' S', p' = p <| _savedBuffer := S' |> <| _subparser := Some s' |> ∧
                                    _defaultContentType s' = d') p (ev ++ R).
Proof.
  intros Hsn Hs Hy. unfold end_subpart. set (Q := λ _ _ _, _).
  assert (Heof : ∀ s' S' ev', yields d' sn s' [] ev' →
     gives (let! p := gets id in on_subparser (eof (subPartNum p))) Q
       (p <| _savedBuffer := S' |> <| _subparser := Some s' |>) (ev' ++ R)).
  { intros s' S' ev' Hys. apply gives_bind, gives_self. rewrite (subPartNum_eq _ sn) by done.
    eapply gives_sub; [done|by apply gives_end|]. intros s2 ev2 [-> Hd2]. split; [done|].
    by exists s2, S'. }
  assert (Hdata : ∀ S', yields d' sn s S' ev →
     gives ((let! p := gets id in
             when (negb (_savedBuffer p ==s [])) (on_subparser (dd (subPartNum p) (_savedBuffer p)))) >>
            (let! p := gets id in on_subparser (eof (subPartNum p)))) Q
       (p <| _savedBuffer := S' |>) (ev ++ R)).
  { intros S' Hys. apply gives_bind, gives_bind, gives_self, gives_when; intros E.
    - rewrite (subPartNum_eq _ sn) by done. cbn [_savedBuffer]. eapply gives_sub; [done|by apply gives_dd_end|].
      intros s' ev' Hys'. by apply Heof.
    - apply jseq_nil_false in E. cbn in E. subst S'.
      rewrite <- (set_subparser (p <| _savedBuffer := [] |>) s) by done. by apply Heof. }
  assert (Hp : p = p <| _savedBuffer := _savedBuffer p |>) by by destruct p.
  apply gives_bind, gives_bind, gives_self, gives_when; intros E.
  - apply andb_true_iff in E as [_ E]. rewrite E in Hy. by apply gives_modify, Hdata.
  - rewrite Hp at 1. apply Hdata. destruct (at_start r); [|done]. rewrite andb_true_r in E.
    apply jseq_nil_false in E. by rewrite E in *.
Qed.

(** What a multipart gives behind a delimiter. *)
Definition after_delimiter (bd : jsstr) (r : split_result) (Z : jsstr) : list jsstr :=
  if closes r then [] else contents bd (after r ++ Z).

Lemma gives_next_subpart d n (p : parser) bd r Z s d' evs :
  _defaultContentType p = d → _splitRegex p = Some bd → LF ∉ bd → _convertData p = Some CMultipart →
  0 <= _count p → _subparser p = Some s → _defaultContentType s = d' → paired (after r ++ Z) = true →
  parts (tree o d') n (_count p) (after_delimiter bd r Z) = Some evs →
  gives (next_subpart n r) (λ _ p', yields d n p' (after r ++ Z)) p (unpacked evs ++ ending n).
Proof.
  intros Hd Hr Hbd Hc Hk Hs Hds Hp Hps. unfold next_subpart, after_delimiter in *.
  apply gives_bind, gives_modify. destruct (closes r).
  - cbn in Hps. injection Hps as <-. apply gives_bind, gives_modify, gives_modify. by apply y_discard.
  - destruct (contents_cons bd (after r ++ Z)) as (c & texts & Hco). rewrite Hco in Hps. cbn [parts] in Hps.
    destruct (tree o d' (part_number n (_count p)) c) as [e|] eqn:Et; [|done]. cbn in Hps.
    destruct (parts (tree o d') n (_count p + 1) texts) as [es|] eqn:Eps; [|done]. cbn in Hps. injection Hps as <-.
    apply gives_bind. eapply (gives_on_subparser _ _ _ s); [done|]. apply gives_modify.
    apply gives_bind, gives_modify, gives_bind, gives_bind, gives_self, gives_modify. apply gives_modify.
    rewrite unpacked_app, <- (assoc_L (++)).
    assert (Hpc : paired c = true).
    { pose proof (contents_paired bd _ Hp) as Hall. rewrite Hco in Hall. by apply Forall_cons_1 in Hall as [? _]. }
    eapply (y_part _ _ _ _ bd (resetParser s) d' (part_number n (_count p)) c texts _ es); cbn; try done.
    + unfold part_number. intros [_ Hnil]%app_eq_nil. by apply (num_str_spec (_count p)).
    + lia.
    + by left; left.
    + by apply yields_new; [apply fresh_reset|..].
Qed.

Lemma gives_first_delimiter d n (p : parser) bd r Z s d' evs :
  _defaultContentType p = d → _splitRegex p = Some bd → LF ∉ bd → _convertData p = Some CMultipart →
  _subPartNum p = None → _subparser p = Some s → _defaultContentType s = d' → paired (after r ++ Z) = true →
  parts (tree o d') n 1 (after_delimiter bd r Z) = Some evs →
  gives (whenMultipart dd eof n r) (λ _ p', yields d n p' (after r ++ Z)) p (unpacked evs ++ ending n).
Proof.
  intros. unfold whenMultipart. apply gives_bind, gives_bind, gives_self.
  assert (E : negb (str_truthy (default [] (_subPartNum p))) = true).
  { match goal with Hn : _subPartNum p = None |- _ => by rewrite Hn end. }
  rewrite E. apply gives_modify. by eapply gives_next_subpart.
Qed.

Lemma gives_next_delimiter d n (p : parser) bd r Z s d' sn ev evs :
  _defaultContentType p = d → _splitRegex p = Some bd → LF ∉ bd → _convertData p = Some CMultipart →
  _subPartNum p = Some sn → sn ≠ [] → 0 <= _count p → _subparser p = Some s → paired (after r ++ Z) = true →
  yields d' sn s (if at_start r then strip_line_break (_savedBuffer p) else _savedBuffer p) ev →
  parts (tree o d') n (_count p) (after_delimiter bd r Z) = Some evs →
  gives (whenMultipart dd eof n r) (λ _ p', yields d n p' (after r ++ Z)) p (ev ++ unpacked evs ++ ending n).
Proof.
  intros Hd Hr Hbd Hc Hsn Hne Hk Hs Hp Hy Hps. unfold whenMultipart. apply gives_bind, gives_bind, gives_self.
  assert (E : negb (str_truthy (default [] (_subPartNum p))) = false).
  { rewrite Hsn. by destruct sn. }
  rewrite E. eapply gives_mono; [by eapply gives_end_subpart|].
  intros [] p' ev' (-> & s' & S' & -> & Hds). by eapply gives_next_subpart.
Qed.
End Delimiter.

(** ** Data without a delimiter *)

(** Data goes to the subparser of a multipart but for what is held back. *)
Lemma gives_send_held n (p : parser) sn s d' b A S c ev R :
  _state p = SEND_TO_SUBPARSER → _convertData p = Some CMultipart → _subPartNum p = Some sn →
  _subparser p = Some s → hold_last_line (_savedBuffer p ++ b) true = (A, S) →
  yields d' sn s (A ++ c) ev → aligned A ∨ c = [] →
  gives (send_data o dd n b)
    (λ _ p' ev', ∃ s' ev1, p' = p <| _savedBuffer := S |> <| _subparser := Some s' |> ∧
                           yields d' sn s' c ev1 ∧ ev' = ev1 ++ R) p (ev ++ R).
Proof.
  intros Hst Hc Hsn Hs Hh Hy Ha. unfold send_data. apply gives_bind, gives_self. rewrite Hst.
  apply gives_bind. unfold _applyDataConversion. apply gives_bind, gives_self. rewrite Hc.
  apply gives_bind. cbn [convert]. rewrite Hh. eapply gives_or_throw; [done|].
  apply gives_bind, gives_modify, gives_ret. cbn [fst snd]. rewrite (subPartNum_eq p sn) by done.
  apply gives_when; intros E.
  - eapply gives_sub; [done|by apply gives_dd|]. intros s' ev' Hy'. by exists s', ev'.
  - apply slen_pos_false in E. subst A. exists s, ev. split; [|done].
    symmetry. by apply set_subparser.
Qed.

Lemma gives_send_part d n p b Z ev bd s d' sn c texts evs :
  _defaultContentType p = d → _state p = SEND_TO_SUBPARSER →
  _splitRegex p = Some bd → LF ∉ bd → _convertData p = Some CMultipart →
  _subPartNum p = Some sn → sn ≠ [] → 0 <= _count p → _subparser p = Some s →
  aligned (_savedBuffer p) ∨ b ++ Z = [] → split_at bd (_savedBuffer p) = None →
  paired (_savedBuffer p ++ b ++ Z) = true → contents bd (_savedBuffer p ++ b ++ Z) = c :: texts →
  yields d' sn s c ev → parts (tree o d') n (_count p) texts = Some evs →
  split_at bd b = None → aligned b ∨ Z = [] →
  gives (send_data o dd n b) (λ _ p', yields d n p' Z) p (ev ++ unpacked evs ++ ending n).
Proof.
  intros Hd Hst Hr Hbd Hc Hsn Hne Hk Hs Hal Hsp Hp Hco Hy Hps Hb Ha.
  set (X := _savedBuffer p ++ b). destruct (hold_last_line X true) as [A S] eqn:Eh.
  assert (HX : aligned X ∨ Z = []).
  { destruct Hal as [Hal|[-> ->]%app_eq_nil]; [|by right]. destruct Ha as [Ha| ->]; [|by right].
    left. by apply aligned_app. }
  assert (HnX : split_at bd X = None).
  { apply split_at_held; [done| |done..]. destruct Hal as [Hal|[-> _]%app_eq_nil]; [by left|by right]. }
  assert (HpX : paired X = true).
  { rewrite (assoc_L (++)) in Hp. fold X in Hp. destruct HX as [HX| ->]; [by eapply paired_aligned_l|].
    by rewrite app_nil_r in Hp. }
  rewrite (assoc_L (++)) in Hco. fold X in Hco.
  destruct (contents_held bd X Z c texts A S Hbd HpX HX HnX Hco Eh) as (HAS & HA & HS & HaS & c' & -> & Hco').
  eapply gives_mono; [eapply gives_send_held; [done..|by left]|].
  intros [] p' ev' (s' & ev1 & -> & Hy1 & ->).
  eapply (y_part _ _ _ _ bd s' d' sn c' texts); try done.
  cbn. rewrite (assoc_L (++)) in Hp. fold X in Hp. rewrite HAS, <- (assoc_L (++)) in Hp.
  by apply paired_app_r in Hp.
Qed.

(** Data to the emitter. *)
Lemma gives_deliver n c (p : parser) b Q ev :
  _convertData p = c → streams c = true → _savedBuffer p = [] →
  Q tt p ev →
  gives (let! x := _applyDataConversion b in deliver o n x)
    Q p (unpacked (visible o n (DeliverPartData n (coerced o (decoded c b)))) ++ ev).
Proof.
  intros Hc Hcs Hsv Hq. apply gives_bind. unfold _applyDataConversion. apply gives_bind, gives_self.
  assert (Hd : ∀ x p', _savedBuffer p' = [] → Q tt p' ev →
    gives (deliver o n x) Q p' (unpacked (visible o n (DeliverPartData n (coerced o x))) ++ ev)).
  { intros x p' _ Hq'. unfold deliver. apply gives_bind, gives_self, gives_bind.
    assert (Hco : _coerceData p' x (strformat o) = Some (coerced o x)).
    { unfold _coerceData, coerced. rewrite not_unicode. by destruct (strformat o ==s js "binarystring"). }
    eapply gives_or_throw; [exact Hco|]. apply gives_when; intros E; [by apply gives_callEmitter|].
    assert (Hx : pieces (coerced o x) = []).
    { revert E. unfold data_length. destruct (coerced o x) as [l|l]; cbn [pieces].
      - by intros ->%slen_pos_false.
      - intros ?%(slen_pos_false l). by subst l. }
    unfold visible. destruct (_willIgnorePart o n); [done|]. cbn. rewrite Hx. done. }
  rewrite Hc. destruct c as [[]|]; try done; cbn [decoded].
  - rewrite Hsv. cbn [app convert decode_qp]. apply gives_bind. eapply gives_or_throw; [done|].
    apply gives_bind, gives_modify, gives_ret. cbn [fst snd]. apply Hd; [done|].
    by replace (p <| _savedBuffer := [] |>) with p by (destruct p; cbn in *; by subst).
  - apply gives_ret. by apply Hd.
Qed.

(** ** Data with delimiters *)

Section Body.
Variable eof : jsstr → act unit.
Hypothesis gives_end : ∀ d n p ev,
  yields d n p [] ev → gives (eof n) (λ _ p' ev', ev' = [] ∧ _defaultContentType p' = d) p ev.

(** What follows a delimiter is handled like a buffer of its own. *)
Lemma gives_after d n p bd b r Z ev :
  split_at bd b = Some r → aligned b ∨ Z = [] → yields d n p (after r ++ Z) ev →
  gives (when (0 <? slen (after r)) (dd n (after r))) (λ _ p', yields d n p' Z) p ev.
Proof.
  intros Hs Ha Hy. apply gives_when; intros E.
  - apply gives_dd; [done|]. destruct Ha as [Ha| ->]; [left|by right].
    apply split_at_parts in Hs as [(k & _ & Hb) _]. rewrite Hb in Ha. by do 2 apply aligned_app_r in Ha.
  - apply slen_pos_false in E. by rewrite E in Hy.
Qed.

Lemma gives_prologue d n p b Z bd s d' ev :
  _defaultContentType p = d → _savedBuffer p = [] → _state p = SEND_TO_BLACK_HOLE →
  _splitRegex p = Some bd → LF ∉ bd → _convertData p = Some CMultipart → _subPartNum p = None →
  _subparser p = Some s → _defaultContentType s = d' → paired (b ++ Z) = true →
  parts (tree o d') n 1 (tail (contents bd (b ++ Z))) = Some ev → aligned b ∨ Z = [] →
  gives (dispatchBody o dd eof n b) (λ _ p', yields d n p' Z) p (unpacked ev ++ ending n).
Proof.
  intros Hd Hsv Hst Hr Hbd Hc Hsn Hs Hds Hp Hps Ha. unfold dispatchBody. apply gives_bind, gives_self.
  rewrite Hr. assert (Hsend : ∀ x Q ev', Q tt p ev' → gives (send_data o dd n x) Q p ev').
  { intros x Q ev' Hq. unfold send_data. apply gives_bind, gives_self. rewrite Hst. by apply gives_skip. }
  destruct (split_at bd b) as [r|] eqn:Er.
  - rewrite (contents_split bd b Z r) in Hps by done.
    assert (Hpr : paired (after r ++ Z) = true).
    { apply split_at_parts in Er as [(k & _ & Hb) _]. rewrite Hb, <- !(assoc_L (++)) in Hp.
      by do 2 apply paired_app_r in Hp. }
    apply gives_bind, gives_when; intros _; [apply Hsend|].
    all: apply gives_bind; eapply gives_mono; [by eapply gives_first_delimiter|].
    all: intros [] p' ev' Hy; by eapply gives_after.
  - apply Hsend. rewrite contents_skip in Hps by done. eapply y_prologue; try done. by apply paired_app_r in Hp.
Qed.

Lemma gives_part d n p b Z bd s d' sn c texts ev evs :
  _defaultContentType p = d → _state p = SEND_TO_SUBPARSER →
  _splitRegex p = Some bd → LF ∉ bd → _convertData p = Some CMultipart →
  _subPartNum p = Some sn → sn ≠ [] → 0 <= _count p → _subparser p = Some s →
  aligned (_savedBuffer p) ∨ b ++ Z = [] → split_at bd (_savedBuffer p) = None →
  paired (_savedBuffer p ++ b ++ Z) = true → contents bd (_savedBuffer p ++ b ++ Z) = c :: texts →
  yields d' sn s c ev → parts (tree o d') n (_count p) texts = Some evs → aligned b ∨ Z = [] →
  gives (dispatchBody o dd eof n b) (λ _ p', yields d n p' Z) p (ev ++ unpacked evs ++ ending n).
Proof.
  intros Hd Hst Hr Hbd Hc Hsn Hne Hk Hs Hal Hsp Hp Hco Hy Hps Ha. unfold dispatchBody. apply gives_bind, gives_self.
  rewrite Hr. destruct (split_at bd b) as [r|] eqn:Er; [|by eapply gives_send_part].
  assert (HaS : aligned (_savedBuffer p)).
  { destruct Hal as [?|[-> ->]%app_eq_nil]; [done|]. by vm_compute in Er. }
  rewrite (contents_split_held bd (_savedBuffer p) b Z r) in Hco by done. injection Hco as Hc' <-.
  pose proof (split_at_parts _ _ _ Er) as [(k & _ & Hb) [Hpb Hst0]].
  assert (HpS : paired (_savedBuffer p) = true) by by eapply paired_aligned_l.
  apply paired_app_r in Hp as Hp2.
  assert (Hpr : paired (after r ++ Z) = true).
  { rewrite Hb, <- !(assoc_L (++)) in Hp2. by do 2 apply paired_app_r in Hp2. }
  assert (Hpbe : paired (before r) = true).
  { destruct Ha as [Ha| ->]; [|rewrite app_nil_r in Hp2; by apply Hpb]. apply Hpb. by eapply paired_aligned_l. }
  apply gives_bind, gives_when; intros E.
  - assert (Has : at_start r = false).
    { destruct (at_start r); [|done]. rewrite Hst0 in E by done. done. }
    rewrite Has in Hc'. destruct (hold_last_line (_savedBuffer p ++ before r) true) as [A S] eqn:Eh.
    pose proof (hold_last_line_spec (_savedBuffer p ++ before r)
                  (paired_aligned_app _ _ HaS HpS Hpbe)) as (HAS & HA & _).
    rewrite Eh in HAS, HA. cbn [fst snd] in HAS, HA. rewrite HAS in Hc'. subst c.
    eapply gives_mono; [eapply gives_send_held; [done..|by left]|].
    intros [] p' ev' (s' & ev1 & -> & Hy1 & ->). apply gives_bind.
    eapply gives_mono; [eapply (gives_next_delimiter eof gives_end d n _ bd r Z); try done; cbn; by rewrite Has|].
    intros [] p2 ev2 Hy2. by eapply gives_after.
  - apply slen_pos_false in E. apply gives_bind.
    rewrite E, app_nil_r in Hc'. rewrite <- Hc' in Hy.
    eapply gives_mono; [by eapply (gives_next_delimiter eof gives_end d n p bd r Z)|].
    intros [] p2 ev2 Hy2. by eapply gives_after.
Qed.

Lemma gives_dispatchBody d n p b Z ev :
  _state p ≠ PARSING_HEADERS → yields d n p (b ++ Z) ev → aligned b ∨ Z = [] →
  gives (dispatchBody o dd eof n b) (λ _ p', yields d n p' Z) p ev.
Proof.
  intros Hnh Hy Ha. remember (b ++ Z) as Y eqn:HY.
  destruct Hy as [d n p Y ev Hf|d n p Y Hd Hsv Hst Hr|d n p Y c Hd Hsv Hst Hr Hc Hcs
                 |d n p Y s ev Hd Hsv Hst Hr Hc Hsn Hs Hsub|d n p Y bd s d' ev|d n p Y bd s d' sn c texts ev evs]; subst Y.
  - by destruct Hf.
  - apply gives_bind, gives_self. rewrite Hr. apply gives_bind, gives_self. rewrite Hst.
    by apply gives_skip, y_discard.
  - apply gives_bind, gives_self. rewrite Hr. apply gives_bind, gives_self. rewrite Hst.
    rewrite delivered_app, <- (assoc_L (++)) by done. unfold delivered at 1.
    assert (Hz : yields d n p Z (unpacked (delivered o c n Z) ++ ending n)) by by apply y_deliver.
    destruct (bodyformat o ==s js "none") eqn:Eb; cbn [orb]; [by apply gives_skip|].
    destruct (_willIgnorePart o n) eqn:Ei.
    + unfold visible at 1. rewrite Ei. by apply gives_skip.
    + by apply gives_deliver.
  - apply gives_bind, gives_self. rewrite Hr. apply gives_bind, gives_self. rewrite Hst.
    apply gives_bind. unfold _applyDataConversion. apply gives_bind, gives_self. rewrite Hc.
    apply gives_ret, gives_when; intros E; rewrite ?(subPartNum_eq p _ Hsn).
    + eapply gives_sub; [done|by apply gives_dd|]. intros s' ev' Hy'. by eapply y_message.
    + apply slen_pos_false in E. subst b. by eapply y_message.
  - by eapply gives_prologue.
  - by eapply gives_part.
Qed.
End Body.
End Calls.

(** ** All buffers of a part *)

Lemma gives_dispatchData f d n p b Z ev :
  yields d n p (b ++ Z) ev → aligned b ∨ Z = [] →
  gives (dispatchData o f n b) (λ _ p', yields d n p' Z) p ev.
Proof.
  revert d n p b Z ev. induction f as [|f IH]; intros d n p b Z ev Hy Ha; [apply gives_out|].
  cbn [dispatchData]. apply gives_bind, gives_self.
  assert (Hbody : ∀ p b ev, _state p ≠ PARSING_HEADERS → yields d n p (b ++ Z) ev → aligned b ∨ Z = [] →
    gives (dispatchBody o (dispatchData o f) (dispatchEOF o (dispatchData o f) f) n b)
      (λ _ p', yields d n p' Z) p ev).
  { intros. apply gives_dispatchBody; try done. intros. by apply gives_eof. }
  destruct (_state p) eqn:Est; try by (apply Hbody; rewrite ?Est).
  remember (b ++ Z) as Y eqn:HY.
  destruct Hy as [d n p Y ev (Hst & Hsp & Hsn & Hsv & Hc & Hd) Hal He Hp Ht| | | | | ]; try congruence. subst Y.
  rewrite (assoc_L (++)) in Ht, Hp. set (X := _headerData p ++ b) in *.
  assert (HX : aligned X ∨ Z = []).
  { destruct Ha as [Ha| ->]; [|by right]. destruct Hal as [Hal|[-> ->]%app_eq_nil]; [|by right].
    left. by apply aligned_app. }
  apply gives_bind, gives_modify. destruct (end_of_headers X) as [[h rest]|] eqn:Ex.
  - assert (Exz : end_of_headers (X ++ Z) = Some (h, rest ++ Z)).
    { destruct HX as [HX| ->]; [by apply end_of_headers_app|]. by rewrite !app_nil_r. }
    rewrite tree_unfold, Exz in Ht. destruct (part_headers o d h) as [hs|] eqn:Eh; [|done]. cbn in Ht.
    destruct (body_of o n hs) as [bo|] eqn:Ebo; [|done]. cbn in Ht.
    destruct (body_events o (tree o) n bo (rest ++ Z)) as [es|] eqn:Ees; [|done]. cbn in Ht. injection Ht as <-.
    apply gives_bind, gives_modify. apply gives_bind. eapply gives_parseHeaders; [by cbn; rewrite Hd|].
    apply gives_bind, gives_bind, gives_self, gives_bind, (gives_or_throw _ hs); [done|].
    rewrite !unpacked_app. apply gives_callEmitter. apply gives_bind.
    eapply gives_mono; [by eapply (gives_startBody d)|]. intros [] p2 ev2 [Hb ->].
    apply end_of_headers_split in Ex as (k & _ & Ex).
    apply Hbody.
    + destruct Hb as (_ & _ & Hb). destruct bo; destruct Hb as [-> _]; done.
    + eapply begun_yields; [done| |done]. rewrite Ex, <- !(assoc_L (++)) in Hp. by do 2 apply paired_app_r in Hp.
    + destruct HX as [HX| ->]; [left|by right]. rewrite Ex in HX. by do 2 apply aligned_app_r in HX.
  - apply gives_skip. by apply y_headers.
Qed.

(** ** Whole messages *)

(** The fields of the conditioning and of startMessage. *)
Definition same_outside (p : parser) (_ : list event) (p' : parser) : Prop :=
  _holdData p' = _holdData p ∧ _triggeredCall p' = _triggeredCall p.

Instance same_outside_trace : TraceRel same_outside.
Proof.
  split; [done|]. intros p1 o1 p2 o2 p3 [H1 H2] [H3 H4]. split; congruence.
Qed.

Lemma on_subparser_outside m : respects same_outside (on_subparser (D := D) m).
Proof. intros p. unfold on_subparser. destruct (_subparser p) as [s|]; [|done]. by destruct (m s) as [[s' e] r]. Qed.

Ltac outside tac :=
  respects_walk ltac:(first [ apply on_subparser_outside | tac | (intros ?; done) ]).

Lemma dispatchEOF_outside dd g n : respects same_outside (dispatchEOF o dd g n).
Proof. destruct g; cbn [dispatchEOF]; outside fail. Qed.

Lemma dispatchData_outside f n b : respects same_outside (dispatchData o f n b).
Proof. revert n b. induction f as [|f IH]; intros n b; cbn [dispatchData]; outside ltac:(apply IH). Qed.

Lemma _dispatchData_outside n b : respects same_outside (_dispatchData o n b).
Proof. intros p. apply dispatchData_outside. Qed.

Lemma gives__dispatchData d n p b Z ev :
  yields d n p (b ++ Z) ev → aligned b ∨ Z = [] → gives (_dispatchData o n b) (λ _ p', yields d n p' Z) p ev.
Proof. intros. by apply (gives_dispatchData (fuel_for p b)). Qed.

Lemma gives__dispatchEOF d n p ev :
  yields d n p [] ev → gives (_dispatchEOF o n) (λ _ p' ev', ev' = [] ∧ _defaultContentType p' = d) p ev.
Proof.
  intros Hy. apply (gives_eof (dispatchData o (fuel_for p []))) with (g := fuel_for p []); [|done].
  intros. by apply gives_dispatchData.
Qed.

(** No buffer leaves a CR as all there is of its last line: [hold] is what the
    buffers before leave. *)
Fixpoint no_lone_CR (hold : jsstr) (buffers : list jsstr) : bool :=
  match buffers with
  | [] => true
  | b :: bs => negb (bool_decide (hold ++ b = [CR])) && no_lone_CR (cut_line (hold ++ b)).2 bs
  end.

Lemma yields_hold d n p h Y ev : yields d n p Y ev → yields d n (p <| _holdData := h |>) Y ev.
Proof.
  destruct 1; [eapply y_headers|eapply y_discard|eapply y_deliver|eapply y_message|eapply y_prologue|eapply y_part];
    by eauto.
Qed.

Lemma yields_triggered d n p t Y ev : yields d n p Y ev → yields d n (p <| _triggeredCall := t |>) Y ev.
Proof.
  destruct 1; [eapply y_headers|eapply y_discard|eapply y_deliver|eapply y_message|eapply y_prologue|eapply y_part];
    by eauto.
Qed.

(** The call of startMessage, before anything else. *)
Definition opening (p : parser) : list event := if _triggeredCall p then [] else [StartMessage].

Lemma gives_start Q p ev :
  (∀ p', p' = p <| _triggeredCall := true |> → Q tt p' ev) → gives start_message Q p (opening p ++ ev).
Proof.
  intros Hq. unfold start_message, opening. apply gives_bind, gives_self, gives_when; intros E.
  - rewrite negb_true_iff in E. rewrite E. apply gives_bind. intros _. exists tt, ev. split; [done|].
    split; [done|]. by apply gives_modify, Hq.
  - rewrite negb_false_iff in E. rewrite E. apply Hq. destruct p; cbn in *. by subst.
Qed.

Lemma gives_respects (m : act unit) Q p ev :
  respects same_outside m → gives m Q p ev →
  gives m (λ _ p' ev', Q tt p' ev' ∧ _holdData p' = _holdData p ∧ _triggeredCall p' = _triggeredCall p) p ev.
Proof.
  intros Hr Hm. specialize (Hr p). unfold gives in *. destruct (m p) as [[p' e] r]. destruct Hr as [H1 H2].
  intros He. destruct (Hm He) as ([] & ev' & -> & -> & Hq). by exists tt, ev'.
Qed.

Lemma gives_buffers buffers p ev R :
  paired (_holdData p ++ concat buffers) = true → no_lone_CR (_holdData p) buffers = true →
  yields None [] p (_holdData p ++ concat buffers) ev →
  gives (for_each buffers (deliverData o))
    (λ _ p' ev', ∃ ev1, ev' = opening p' ++ ev1 ++ R ∧ yields None [] p' (_holdData p') ev1)
    p (opening p ++ ev ++ R).
Proof.
  revert p ev. induction buffers as [|b bs IH]; intros p ev Hp Hc Hy.
  - apply gives_skip. exists ev. rewrite app_nil_r in Hy. done.
  - cbn [concat for_each] in *. cbn [no_lone_CR] in Hc. apply andb_true_iff in Hc as [Hc1 Hc2].
    rewrite negb_true_iff, bool_decide_eq_false in Hc1. rewrite (assoc_L (++)) in Hp, Hy.
    apply gives_bind. unfold deliverData. apply gives_bind, gives_self.
    rewrite condition_cut by (done || by eapply paired_prefix).
    destruct (cut_line_spec (_holdData p ++ b)) as (Hx & Ha & _).
    destruct (cut_line (_holdData p ++ b)) as [x h]. cbn [fst snd] in *.
    rewrite Hx, <- (assoc_L (++)) in Hp, Hy. apply gives_bind, gives_modify. apply gives_when; intros E.
    + change (opening p) with (opening (p <| _holdData := h |>)).
      apply gives_bind, gives_start. intros p1 ->.
      eapply gives_mono; [apply gives_respects; [apply _dispatchData_outside|]; apply gives_frame;
                          apply gives__dispatchData; [by apply yields_triggered, yields_hold|by left]|].
      intros [] p2 ev2 ((ev1 & -> & Hy2) & Hh & Ht). cbn in Hh, Ht.
      assert (Hop : ev1 ++ R = opening p2 ++ ev1 ++ R) by (unfold opening; by rewrite Ht). rewrite Hop.
      rewrite <- Hh in *. apply IH; [by apply paired_app_r in Hp|done|done].
    + apply str_truthy_false in E. subst x. cbn [app] in *.
      change (opening p) with (opening (p <| _holdData := h |>)). apply IH; [done|done|]. by apply yields_hold.
Qed.

Lemma gives_deliverEOF p ev :
  yields None [] p (_holdData p) ev →
  gives (deliverEOF o) (λ _ _ ev', ev' = []) p (opening p ++ ev ++ [EndMessage]).
Proof.
  intros Hy. unfold deliverEOF. apply gives_bind, gives_start. intros p1 ->.
  assert (Hend : ∀ p' ev', yields None [] p' [] ev' →
    gives (_dispatchEOF o [] >> emit EndMessage) (λ _ _ ev', ev' = []) p' (ev' ++ [EndMessage])).
  { intros p' ev' Hy'. apply gives_bind. eapply gives_mono; [apply gives_frame, gives__dispatchEOF, Hy'|].
    intros [] p2 ev2 (ev1 & -> & -> & _) _. by exists tt, []. }
  apply gives_bind, gives_bind, gives_self, gives_when; intros E.
  - eapply gives_mono; [apply gives_frame, gives__dispatchData; [|by right]|].
    + rewrite app_nil_r. by apply yields_triggered.
    + intros [] p2 ev2 (ev1 & -> & Hy2). by apply Hend.
  - apply str_truthy_false in E. cbn in E. rewrite E in Hy. apply Hend. by apply yields_triggered.
Qed.
End Stream.

(** ** The theorems *)

Section Messages.
Context {D : Type} `{TextDecoder D}.
Variable o : MimeOptions.

(** The events of a whole message that arrives in [buffers], and whether its parser
    returns. *)
Definition parsed (buffers : list jsstr) : list event * option unit :=
  let '(_, e, r) := parse_message (D := D) o buffers newMimeParser in (unpacked e, r).

(** C6. The parser of a message that has a tree gives its emitter that tree: the
    headers and the data of each part, parts of multiparts and of messages in it
    included, in their order and between the calls for the whole message, and it does
    not throw.  How the message is cut into buffers does not matter, with CR before LF
    only, and no buffer that leaves nothing but a CR of a line.  The format of strings
    is not unicode, and a message has no tree where a body is decoded from base64 or
    uuencode, a message within it is encoded, a boundary has a line feed, or the
    Content-Type of a part is not read ([tree_of], [body_events] in MimeTree.v). *)
Theorem parse_message_tree buffers es :
  (strformat o ==s js "unicode") = false →
  paired (concat buffers) = true → no_lone_CR [] buffers = true →
  tree (D := D) o None [] (concat buffers) = Some es →
  parsed buffers = (StartMessage :: unpacked es ++ [EndMessage], Some tt).
Proof.
  intros Hu Hp Hc Ht. unfold parsed. pose proof (parse_message_ends (D := D) o buffers newMimeParser) as Hf.
  assert (Hm : gives (parse_message (D := D) o buffers) (λ _ _ ev', ev' = []) newMimeParser
                 (StartMessage :: unpacked es ++ [EndMessage])).
  { unfold parse_message. apply gives_bind. change (StartMessage :: unpacked es ++ [EndMessage])
      with (opening (D := D) newMimeParser ++ unpacked es ++ [EndMessage]).
    eapply gives_mono; [apply gives_buffers; [done..|by apply yields_new]|].
    intros [] p' ev' (ev1 & -> & Hy). by apply gives_deliverEOF. }
  unfold gives in Hm. destruct (parse_message o buffers newMimeParser) as [[p' e] r].
  destruct (Hm Hf) as ([] & ev' & -> & -> & ->). by rewrite app_nil_r.
Qed.

(** Two ways to cut a message give the same. *)
Theorem parse_message_chunks bs bs' es :
  (strformat o ==s js "unicode") = false → concat bs = concat bs' → paired (concat bs) = true →
  no_lone_CR [] bs = true → no_lone_CR [] bs' = true → tree (D := D) o None [] (concat bs) = Some es →
  parsed bs = parsed bs'.
Proof.
  intros Hu Heq Hp H1 H2 Ht. rewrite (parse_message_tree bs es) by done.
  rewrite Heq in *. by rewrite (parse_message_tree bs' es).
Qed.

(** C21. A multipart that is written with [write_multipart] behind its headers is read
    back: each text is parsed as the part of its number.  The conditions are those of
    [parse_message_tree] - CR before LF only, no buffer that leaves nothing but a CR of a
    line, a format of strings other than unicode, texts that have trees - with the
    boundary the headers declare, which has no LF and begins no line of the texts and of
    what is before them. *)
Theorem multipart_roundtrip buffers headers bd prologue texts epilogue h d es :
  (strformat o ==s js "unicode") = false →
  concat buffers = headers ++ CRLF ++ CRLF ++ write_multipart bd prologue texts epilogue →
  paired (concat buffers) = true → no_lone_CR [] buffers = true →
  end_of_headers (headers ++ CRLF ++ CRLF) = Some (headers, []) →
  part_headers (D := D) o None headers = Some h → body_of (D := D) o [] h = Some (Multipart bd d) →
  LF ∉ bd → Forall (λ t, split_at bd (t ++ CRLF) = None) (prologue :: texts) →
  parts (tree (D := D) o d) [] 1 texts = Some es →
  parsed buffers
  = (StartMessage :: unpacked (visible o [] (StartPart [] h) ++ es ++ visible o [] (EndPart [])) ++ [EndMessage],
     Some tt).
Proof.
  intros Hu Hm Hp Hc He Hh Hb Hbd Hall Hes. apply parse_message_tree; [done..|].
  set (W := write_multipart bd prologue texts epilogue) in *.
  assert (HW : headers ++ CRLF ++ CRLF ++ W = (headers ++ CRLF ++ CRLF) ++ W) by by rewrite <- !(assoc_L (++)).
  assert (Ha : aligned (headers ++ CRLF ++ CRLF)) by (right; by rewrite !last_app).
  rewrite Hm, tree_unfold, HW. clear HW.
  rewrite (end_of_headers_app _ _ _ _ Ha He), Hh. cbn [mbind option_bind]. rewrite Hb. cbn [mbind option_bind body_events].
  rewrite bool_decide_eq_false_2 by done. unfold W. rewrite app_nil_l, contents_write by done. cbn [tail]. by rewrite Hes.
Qed.
End Messages.

(** ** An example *)

(** The message in pieces of [n] characters. *)
Fixpoint cut_every (fuel n : nat) (s : jsstr) : list jsstr :=
  match fuel with
  | O => []
  | S fuel' => match s with [] => [] | _ => take n s :: cut_every fuel' n (drop n s) end
  end.

Definition pieces_of_example : list jsstr := cut_every 400 10 example_message.

Lemma parse_message_tree_witness : ∃ es,
  parsed (H := latin1) defaultMimeOptions pieces_of_example = (StartMessage :: unpacked es ++ [EndMessage], Some tt).
Proof. eexists. eapply (parse_message_tree (H := latin1)); [by vm_compute..|]. vm_compute. reflexivity. Defined.

Lemma parse_message_chunks_witness :
  parsed (H := latin1) defaultMimeOptions pieces_of_example
  = parsed (H := latin1) defaultMimeOptions [example_message].
Proof. eapply (parse_message_chunks (H := latin1)); [by vm_compute..|]. vm_compute. reflexivity. Defined.

Definition written_headers : jsstr := js "Subject: x" ++ CRLF ++ js "Content-Type: multipart/mixed; boundary=b".

Definition written_texts : list jsstr :=
  [CRLF ++ js "one"; js "A: b" ++ CRLF ++ CRLF ++ js "two" ++ CRLF ++ js "lines"].

Definition written : jsstr :=
  written_headers ++ CRLF ++ CRLF ++ write_multipart (js "b") [] written_texts [].

Lemma multipart_roundtrip_witness : ∃ es,
  parsed (H := latin1) defaultMimeOptions (cut_every 200 7 written)
  = (StartMessage :: unpacked es ++ [EndMessage], Some tt).
Proof.
  eexists. eapply (multipart_roundtrip (H := latin1) _ _ written_headers (js "b") [] written_texts []).
  - by vm_compute.
  - by vm_compute.
  - by vm_compute.
  - by vm_compute.
  - by vm_compute.
  - vm_compute. reflexivity.
  - vm_compute. reflexivity.
  - apply (bool_decide_unpack _). by vm_compute.
  - repeat constructor; by vm_compute.
  - vm_compute. reflexivity.
Defined.
