(* ===== verification/MimeFaults.v ===== *)
(** * MimeFaults: where the MIME parser loses data, depends on its buffers or throws

    Each theorem runs the definitions of MimeHeaders.v and MimeParser.v on a short
    message.  The parser of a message is used with a decoder of character sets that
    takes bytes as they are; none of the faults depends on it. *)

From S2P Require Import Prelude Effects MimeUtils MimeHeaders MimeParser MimeText MimeFuel MimeTree MimeStream.

(** The data a part gets, and whether the parser returns. *)
Definition delivered_to (o : MimeOptions) (n : jsstr) (buffers : list jsstr) : jsstr * bool :=
  let '(es, r) := parsed (H := latin1) o buffers in
  (flat_map (λ e, match e with DeliverPartData m (Str s) => if m ==s n then s else [] | _ => [] end) es,
   bool_decide (r = Some tt)).

Definition decoding : MimeOptions := mkMimeOptions [] (js "decode") (js "binarystring") true [] false true.

Definition unterminated : jsstr :=
  lines [js "Content-Type: multipart/mixed; boundary=b"; []; js "--b"; []; js "hello"] ++ js "world".

(** A multipart that ends without its closing delimiter in the middle of a line loses
    that line. *)
Theorem unterminated_loses_line :
  delivered_to defaultMimeOptions (js "1") [unterminated] = (js "hello" ++ CRLF, true) ∧
  delivered_to defaultMimeOptions (js "1") [unterminated ++ CRLF] = (js "hello" ++ CRLF ++ js "world" ++ CRLF, true).
Proof. by vm_compute. Qed.

Definition before_delimiter : jsstr :=
  lines [js "Content-Type: multipart/mixed; boundary=b"; []; js "--b"; []; js "hello"].

(** A buffer that is the CR of an empty line is not held back, and what the part gets
    depends on it. *)
Theorem lone_CR_delivered :
  delivered_to defaultMimeOptions (js "1") [before_delimiter; [CR]; [LF] ++ lines [js "--b--"]]
    = (js "hello" ++ CRLF ++ [CR], true) ∧
  delivered_to defaultMimeOptions (js "1") [before_delimiter; CRLF ++ lines [js "--b--"]] = (js "hello" ++ CRLF, true) ∧
  delivered_to defaultMimeOptions [] [[CR]; [LF] ++ js "text"] = ([LF] ++ js "text", true) ∧
  delivered_to defaultMimeOptions [] [CRLF ++ js "text"] = (js "text", true).
Proof. by vm_compute. Qed.

Definition base64_part : jsstr := lines [js "Content-Transfer-Encoding: base64"; []; js "QQ=="].

(** Base64 with padding inside is decoded otherwise when the buffers are cut behind
    the padding. *)
Theorem base64_depends_on_buffers :
  delivered_to decoding [] [base64_part; lines [js "QUJD"]] = (js "AABC", true) ∧
  delivered_to decoding [] [base64_part ++ lines [js "QUJD"]] ≠ (js "AABC", true).
Proof. split; by vm_compute. Qed.

(** A transfer encoding whose name every object has as a property is taken for a
    decoder: of the one two characters are left, and the call of the other throws. *)
Theorem inherited_decoder :
  let part name := [lines [js "Content-Transfer-Encoding: " ++ name; []; js "text"]] in
  delivered_to decoding [] (part (js "constructor")) = (js "te", true) ∧
  delivered_to decoding [] (part (js "__proto__")) = ([], false) ∧
  delivered_to decoding [] (part (js "other")) = (js "text" ++ CRLF, true).
Proof. by vm_compute. Qed.

(** An encoded word whose base64 is one character and padding throws. *)
Theorem encoded_word_throws :
  decodeRFC2047Words (H := latin1) (js "=?UTF-8?B?A===?=") = None ∧
  decodeRFC2047Words (H := latin1) (js "=?UTF-8?B?QQ==?=") = Some (js "A").
Proof. by vm_compute. Qed.

(** An encoded word behind [=?] is cut by the length of the word, not where it is. *)
Theorem word_behind_other_text :
  (map (λ t, match t with Token s => s | _ => [] end)) <$>
    getHeaderTokens (H := latin1) (js "=?x =?UTF-8?Q?abcdefg?= zz") [] (mkTokenOpts true true true true)
  = Some [js "=?x =?UTF-8?Q?abcdef"; js "g?="; js "zz"].
Proof. by vm_compute. Qed.
