(* ===== verification/HeaderTokens.v ===== *)
(** * HeaderTokens: the tokens of a header, character by character

    [getHeaderTokens] of MimeHeaders.v works with indices into the header.  Here is a
    [lexer] that keeps the text of the open token instead, and the theorem that it
    finds the same tokens, on headers without comments, domain literals and encoded
    words; and what it finds in words and quoted strings. *)

From S2P Require Import Prelude Effects MimeUtils MimeHeaders.

(** ** Texts without encoded words *)

(** Printable ASCII and white space. *)
Definition ascii_char (c : Z) : bool := ((32 <=? c) && (c <=? 126)) || wsp c.

Definition ascii_text (s : jsstr) : bool := forallb ascii_char s.

Lemma ascii_char_cases c : ascii_char c = true → 32 <= c <= 126 ∨ c = 9 ∨ c = 10 ∨ c = 13.
Proof.
  unfold ascii_char, wsp. rewrite orb_true_iff, andb_true_iff, !Z.leb_le, bool_decide_eq_true.
  intros [?|Hc]; [by left|]. unfold SP, TAB, CR, LF in Hc. set_solver by lia.
Qed.

Lemma ascii_char_below c : ascii_char c = true → 0 <= c < 127.
Proof. intros Hc%ascii_char_cases. lia. Qed.

(** A decidable property of the characters of a text. *)
Lemma ascii_forall (P : Z → bool) :
  forallb (λ c, negb (ascii_char c) || P c) (map Z.of_nat (seq 0 127)) = true →
  ∀ c, ascii_char c = true → P c = true.
Proof.
  intros Hall c Hc. pose proof (ascii_char_below c Hc) as Hb.
  pose proof (below_forall (λ c, negb (ascii_char c) || P c) 127 Hall c Hb) as Hp. cbn beta in Hp.
  by rewrite Hc in Hp.
Qed.

Lemma replace_pairs_id p r s :
  Forall (λ a, ∀ b, p a b = false) s → replace_pairs p r s = s.
Proof.
  induction s as [|a s IH]; intros Hs; [done|]. apply Forall_cons_1 in Hs as [Ha Hs]. cbn.
  destruct s as [|b s]; [done|]. by rewrite Ha, IH.
Qed.

Lemma replace_formats_id s :
  Forall (λ a, in_class formats_Cf a = false ∧ ∀ b, format_pair a b = false) s → replace_formats s = s.
Proof.
  induction s as [|a s IH]; intros Hs; [done|]. apply Forall_cons_1 in Hs as [[Ha1 Ha2] Hs].
  destruct s as [|b s]; [by cbn [replace_formats]; rewrite Ha1|].
  change (replace_formats (a :: b :: s)) with
    (if in_class formats_Cf a then SP :: replace_formats (b :: s)
     else if format_pair a b then SP :: replace_formats s else a :: replace_formats (b :: s)).
  by rewrite Ha1, Ha2, IH.
Qed.

Lemma map_id_class (p : Z → bool) x s : Forall (λ c, p c = false) s → map (λ c, if p c then x else c) s = s.
Proof. induction 1 as [|c s Hc Hs IH]; [done|]. cbn. by rewrite Hc, IH. Qed.

Lemma filter_id_class (p : Z → bool) s : Forall (λ c, p c = true) s → List.filter p s = s.
Proof. induction 1 as [|c s Hc Hs IH]; [done|]. cbn. by rewrite Hc, IH. Qed.

Lemma ascii_text_forall (P : Z → Prop) s :
  ascii_text s = true → (∀ c, ascii_char c = true → P c) → Forall P s.
Proof.
  intros Hs HP. apply Forall_forall. intros c Hc. apply HP. unfold ascii_text in Hs.
  rewrite forallb_forall in Hs. by apply Hs, list_elem_of_In.
Qed.

Lemma cleanToken_ascii s : ascii_text s = true → cleanToken s = s.
Proof.
  intros Hs. unfold cleanToken.
  rewrite (map_id_class (in_class spaces_Zs) SP s).
  2: { apply ascii_text_forall; [done|]. intros c Hc. apply negb_true_iff. revert c Hc. apply ascii_forall. by vm_compute. }
  rewrite (filter_id_class (λ c, negb (in_class blanks_Mn c)) s).
  2: { apply ascii_text_forall; [done|]. apply ascii_forall. by vm_compute. }
  rewrite (replace_pairs_id _ _ s).
  2: { apply ascii_text_forall; [done|]. intros c Hc%ascii_char_below b. by rewrite (proj2 (Z.eqb_neq c _)) by lia. }
  rewrite (filter_id_class (λ c, negb (controls_Cc c)) s).
  2: { apply ascii_text_forall; [done|]. apply ascii_forall. by vm_compute. }
  rewrite (replace_formats_id s).
  2: { apply ascii_text_forall; [done|]. intros c Hc. split.
       - apply negb_true_iff. revert c Hc. apply ascii_forall. by vm_compute.
       - intros b. apply ascii_char_below in Hc. unfold format_pair.
         by rewrite !(proj2 (Z.eqb_neq c _)) by lia. }
  apply (map_id_class (λ c, c =? 0x2800)). apply ascii_text_forall; [done|].
  intros c Hc%ascii_char_below. apply Z.eqb_neq. lia.
Qed.

Lemma encoded_word_eq s : head s ≠ Some 61 → encoded_word s = None.
Proof.
  destruct s as [|c s]; [done|]. intros Hc. unfold encoded_word.
  destruct c as [|p|p]; try done. do 6 (destruct p as [p|p|]; try done).
Qed.

Lemma split_words_none s : 61 ∉ s → split_words 0 s = [s].
Proof.
  induction s as [|c s IH]; intros Hs; [done|]. apply not_elem_of_cons in Hs as [Hc Hs].
  cbn [split_words]. rewrite encoded_word_eq by (cbn; congruence). by rewrite IH.
Qed.

(** Text without [=] has no encoded words; blanks alone are nothing. *)
Definition without_words (s : jsstr) : jsstr := if forallb wsp s then [] else s.

Lemma decode_without_words {D} `{TextDecoder D} s :
  61 ∉ s → ascii_text s = true → decodeRFC2047Words s = Some (without_words s).
Proof.
  intros Hs Ha. unfold decodeRFC2047Words, without_words. rewrite split_words_none by done. cbn [words_loop].
  assert (is_word_like s = false) as ->.
  { unfold is_word_like. apply jseq_false. intros E. apply Hs.
    rewrite substring_nonneg in E by lia. change (take 2 s = [61; 63]) in E.
    destruct s as [|c s]; [done|]. injection E as -> _. left. }
  destruct (forallb wsp s); [done|]. unfold flush_words.
  cbn [currentDecoder fmap option_fmap option_map concat]. by rewrite app_nil_r, cleanToken_ascii.
Qed.

(** ** The lexer *)

Record lexer := mkLexer {
  lx_tokens : list token;
  lx_open : option jsstr;       (* the text of the open token, with its quote *)
  lx_quoted : bool;
  lx_skip : bool                (* behind a backslash *)
}.

Definition new_lexer : lexer := mkLexer [] None false false.

Definition lex_close (s : lexer) : lexer :=
  match lx_open s with
  | Some w => mkLexer (lx_tokens s ++ [newToken w]) None (lx_quoted s) (lx_skip s)
  | None => s
  end.

Section Lexer.
Variable delimiters : jsstr.
Variable opts : token_opts.

(** A character that begins what the lexer does not handle. *)
Definition unsupported (c : Z) : bool :=
  (comments opts && bool_decide (c ∈ js "()")) || (dliteral opts && (c =? 91)).

Definition quoted_text (t : jsstr) : jsstr := if rfc2047 opts then without_words t else t.

Definition lex_step (c : Z) (s : lexer) : option lexer :=
  let '(mkLexer toks open quoted skip) := s in
  let more := (λ w, w ++ [c]) <$> open in
  if skip then Some (mkLexer toks more quoted false)
  else if c =? BACKSLASH then Some (mkLexer toks more quoted true)
  else if quoted then
    if c =? QUOTE then
      let t := drop 1 (default [] open) in
      if rfc2047 opts && negb (ascii_text t && bool_decide (61 ∉ t)) then None
      else Some (mkLexer (toks ++ [newToken (quoted_text t)]) None false false)
    else Some (mkLexer toks more true false)
  else if rfc2047 opts && (c =? 61) then None
  else if wsp c then Some (lex_close s)
  else if bool_decide (c ∈ delimiters) then
    Some (mkLexer (lx_tokens (lex_close s) ++ [Delim c]) None false false)
  else if qstring opts && (c =? QUOTE) then Some (mkLexer (lx_tokens (lex_close s)) (Some [c]) true false)
  else if unsupported c then None
  else Some (mkLexer toks (Some (default [] open ++ [c])) false false).

Fixpoint lex (s : jsstr) (st : lexer) : option lexer :=
  match s with
  | [] => Some st
  | c :: s' => st' ← lex_step c st; lex s' st'
  end.

(** The token that is open at the end is closed. *)
Definition lex_end (st : lexer) : list token :=
  match lx_open st with
  | Some w => lx_tokens st ++ [newToken (if lx_quoted st then drop 1 w else w)]
  | None => lx_tokens st
  end.

Lemma lex_app s t st : lex (s ++ t) st = st' ← lex s st; lex t st'.
Proof.
  revert st. induction s as [|c s IH]; intros st; [done|]. cbn [app lex].
  destruct (lex_step c st); [apply IH|done].
Qed.

(** ** The same tokens *)

Section Same.
Context {D : Type} `{TextDecoder D}.
Variable value : jsstr.

(** The tokenizer at the end of [pre], and the lexer. *)
Definition same_tokens (pre : jsstr) (t : tokenizer) (skip : nat) (s : lexer) : Prop :=
  tokenList t = lx_tokens s ∧ commentDepth t = 0 ∧
  endQuote t = (if lx_quoted s then Some QUOTE else None) ∧ skip = (if lx_skip s then 1 else 0)%nat ∧
  match lx_open s with
  | Some w => tokenStart t = Some (slen pre - slen w) ∧ (∃ p, pre = p ++ w) ∧ (lx_quoted s = true → w ≠ [])
  | None => tokenStart t = None ∧ lx_quoted s = false
  end.

Lemma slice_mid p w r : slice (p ++ w ++ r) (slen p) (slen p + slen w) = w.
Proof.
  unfold slen. rewrite slice_nonneg by lia.
  replace (Z.of_nat (length p) + Z.of_nat (length w) - Z.of_nat (length p)) with (Z.of_nat (length w)) by lia.
  by rewrite !Nat2Z.id, drop_app_length, take_app_length.
Qed.

Lemma slice_open pre p w rest :
  value = pre ++ rest → pre = p ++ w → slice value (slen pre - slen w) (slen pre) = w.
Proof.
  intros -> ->. rewrite <- (assoc_L (++)). unfold slen. rewrite length_app.
  replace (Z.of_nat (length p + length w) - Z.of_nat (length w)) with (slen p) by (unfold slen; lia).
  replace (Z.of_nat (length p + length w)) with (slen p + slen w) by (unfold slen; lia). apply slice_mid.
Qed.

Lemma slen_snoc s c : slen (s ++ [c]) = slen s + 1.
Proof. unfold slen. rewrite length_app. cbn. lia. Qed.

(** The character goes to the open token. *)
Lemma same_more pre t k s c skip' :
  same_tokens pre t k s →
  same_tokens (pre ++ [c]) t (if skip' : bool then 1 else 0)%nat
    (mkLexer (lx_tokens s) ((λ w, w ++ [c]) <$> lx_open s) (lx_quoted s) skip').
Proof.
  intros (H1 & H2 & H3 & _ & H4). split_and!; try done. cbn. destruct (lx_open s) as [w|]; [|done].
  destruct H4 as (H4 & [p ->] & H5). cbn. rewrite !slen_snoc. split; [rewrite H4; f_equal; lia|].
  split; [exists p; by rewrite (assoc_L (++))|]. intros _. by destruct w.
Qed.

(** The open token ends before the character. *)
Lemma same_close pre t s rest :
  value = pre ++ rest → same_tokens pre t 0 s → lx_quoted s = false → lx_skip s = false →
  tokenList (end_token value (slen pre) t) = lx_tokens (lex_close s) ∧
  commentDepth (end_token value (slen pre) t) = 0 ∧ endQuote (end_token value (slen pre) t) = None ∧
  tokenStart (end_token value (slen pre) t) = None.
Proof.
  intros Hv (H1 & H2 & H3 & _ & H4) Hq Hs. unfold end_token, lex_close. rewrite Hq in H3.
  destruct (lx_open s) as [w|].
  - destruct H4 as (-> & [p Hp] & _). rewrite (slice_open pre p w rest) by done. cbn. by rewrite H1.
  - destruct H4 as [H4 _]. by rewrite H4.
Qed.

(** One character, outside of quotes. *)
Lemma same_plain pre c rest t toks open s' :
  value = pre ++ c :: rest → same_tokens pre t 0 (mkLexer toks open false false) →
  (c =? BACKSLASH) = false → lex_step c (mkLexer toks open false false) = Some s' →
  same_tokens (pre ++ [c]) (plain_char value delimiters opts (slen pre) c t) 0 s'.
Proof.
  intros Hv Hsame Hb Hstep. pose proof (same_more _ _ _ _ c false Hsame) as Hmore.
  destruct (same_close pre t _ (c :: rest) Hv Hsame) as (Hc1 & Hc2 & Hc3 & Hc4); [done..|].
  destruct Hsame as (H1 & H2 & H3 & _ & H4). unfold lex_step in Hstep. rewrite Hb in Hstep.
  destruct (rfc2047 opts && (c =? 61)); [done|].
  unfold plain_char, classify_char. rewrite H2. cbn [andb Z.eqb].
  destruct (end_token value (slen pre) t) as [ts eq cd tl] eqn:Eend. cbn in Hc1, Hc2, Hc3, Hc4. subst ts eq cd tl.
  set (s0 := mkLexer toks open false false) in *.
  assert (Hs0 : lx_open (lex_close s0) = None ∧ lx_quoted (lex_close s0) = false ∧ lx_skip (lex_close s0) = false).
  { unfold lex_close, s0. cbn. by destruct open. }
  destruct Hs0 as (Ho & Hq & Hk).
  destruct (wsp c); [injection Hstep as <-; cbn beta iota; rewrite Eend; unfold same_tokens; by rewrite Ho, Hq, Hk|].
  destruct (bool_decide (c ∈ delimiters)); [injection Hstep as <-; cbn beta iota; by rewrite Eend|].
  destruct (qstring opts && (c =? QUOTE)) eqn:Eq.
  { injection Hstep as <-. cbn beta iota. apply andb_true_iff in Eq as [_ ->%Z.eqb_eq].
    assert (Hend : end_token value (slen pre) (t <| endQuote := Some QUOTE |>)
      = mkTokenizer None (Some QUOTE) 0 (lx_tokens (lex_close s0))).
    { revert Eend. unfold end_token. destruct t as [[a|] eq cd tl]; intros Eend; injection Eend as -> -> <-; done. }
    rewrite Hend. split_and!; try done.
    split_and!; [|by exists pre|done]. cbn. rewrite slen_snoc. f_equal. change (slen [QUOTE]) with 1. lia. }
  destruct (unsupported c) eqn:Eu; [done|]. unfold unsupported in Eu.
  apply orb_false_iff in Eu as [Ecom Edom]. injection Hstep as <-.
  assert (Hclass : ∀ X Y Z W : bool * bool * bool * tokenizer,
    (if dliteral opts && (c =? 91) then X
     else if comments opts && (c =? 40) then Y
     else if comments opts && (c =? 41) then Z else W) = W).
  { intros X Y Z W. rewrite Edom. destruct (comments opts); [|done].
    cbn [andb] in *. apply bool_decide_eq_false in Ecom.
    destruct (Z.eqb_spec c 40) as [->|]; [exfalso; apply Ecom; set_solver|].
    destruct (Z.eqb_spec c 41) as [->|]; [exfalso; apply Ecom; set_solver|]. done. }
  rewrite Hclass. cbn beta iota. destruct open as [w|].
  - destruct Hmore as (M1 & M2 & M3 & _ & M4). destruct t as [ts eq cd tl]. cbn in *.
    destruct H4 as (-> & _). by split_and!.
  - destruct t as [ts eq cd tl]. cbn in *. destruct H4 as [-> _]. split_and!; try done.
    split_and!; [|by exists pre|done]. cbn. rewrite slen_snoc. f_equal. change (slen [c]) with 1. lia.
Qed.

Lemma slice_quoted pre p w rest :
  value = pre ++ rest → pre = p ++ w → w ≠ [] → slice value (slen pre - slen w + 1) (slen pre) = drop 1 w.
Proof.
  intros Hv Hp Hw. destruct w as [|x w]; [done|].
  change (drop 1 (x :: w)) with w.
  transitivity (slice value (slen pre - slen w) (slen pre)); [f_equal; unfold slen; cbn [length]; lia|].
  apply (slice_open pre (p ++ [x]) w rest); [done|by rewrite <- (assoc_L (++))].
Qed.

(** One character of a quoted string. *)
Lemma same_quoted pre c rest t toks open s' :
  value = pre ++ c :: rest → same_tokens pre t 0 (mkLexer toks open true false) →
  (c =? BACKSLASH) = false → lex_step c (mkLexer toks open true false) = Some s' →
  ∃ t', quoted_char value opts (slen pre) c QUOTE t = Some t' ∧ same_tokens (pre ++ [c]) t' 0 s'.
Proof.
  intros Hv Hsame Hb Hstep. pose proof (same_more _ _ _ _ c false Hsame) as Hmore.
  destruct Hsame as (H1 & H2 & H3 & _ & H4). unfold lex_step in Hstep. rewrite Hb in Hstep.
  unfold quoted_char. destruct (Z.eqb_spec c QUOTE) as [->|Hc].
  - cbn [andb]. cbn in H4. destruct open as [w|]; [|by destruct H4].
    destruct H4 as (H4 & [p Hp] & Hne). specialize (Hne eq_refl). rewrite H4. cbn [from_option id] in *.
    rewrite (slice_quoted pre p w (QUOTE :: rest)) by done.
    destruct (rfc2047 opts) eqn:Er; cbn [andb] in Hstep.
    + destruct (ascii_text (drop 1 w)) eqn:Ea; [|done].
      destruct (bool_decide (61 ∉ drop 1 w)) eqn:Ew; [|done]. apply bool_decide_eq_true in Ew.
      injection Hstep as <-. rewrite decode_without_words by done. eexists. split; [done|].
      unfold quoted_text. rewrite Er. split_and!; try done. cbn. by rewrite H1.
    + injection Hstep as <-. eexists. split; [done|].
      unfold quoted_text. rewrite Er. split_and!; try done. cbn. by rewrite H1.
  - injection Hstep as <-. cbn [andb]. by eexists.
Qed.

Lemma same_lex rest : ∀ pre t k s s',
  value = pre ++ rest → same_tokens pre t k s → lex rest s = Some s' →
  ∃ t' k', token_loop value delimiters opts k (slen pre) rest t = Some t' ∧ same_tokens (pre ++ rest) t' k' s'.
Proof.
  induction rest as [|c rest IH]; intros pre t k s s' Hv Hsame Hlex.
  - injection Hlex as <-. exists t, k. by rewrite app_nil_r.
  - cbn [lex] in Hlex. destruct (lex_step c s) as [s1|] eqn:Estep; [|done]. cbn in Hlex.
    assert (Hnext : ∀ t1 k1, same_tokens (pre ++ [c]) t1 k1 s1 →
      ∃ t' k', token_loop value delimiters opts k1 (slen pre + 1) rest t1 = Some t' ∧
               same_tokens (pre ++ c :: rest) t' k' s').
    { intros t1 k1 H1. rewrite <- (slen_snoc pre c). replace (pre ++ c :: rest) with ((pre ++ [c]) ++ rest)
        by (by rewrite <- (assoc_L (++))). apply (IH _ _ _ s1); [|done..]. by rewrite <- (assoc_L (++)). }
    destruct s as [toks open quoted skip]. pose proof Hsame as (_ & _ & Hq & Hk & _). cbn in Hq, Hk.
    destruct skip.
    { subst k. cbn [token_loop]. apply Hnext. injection Estep as <-. by apply (same_more _ _ _ _ c false) in Hsame. }
    subst k. cbn [token_loop]. destruct (c =? BACKSLASH) eqn:Eb.
    { apply Hnext. unfold lex_step in Estep. rewrite Eb in Estep. injection Estep as <-.
      by apply (same_more _ _ _ _ c true) in Hsame. }
    rewrite Hq. destruct quoted.
    + destruct (same_quoted pre c rest t toks open s1) as (t1 & -> & H1); [done..|]. by apply Hnext.
    + assert ((if rfc2047 opts && startsWith (c :: rest) (js "=?") then encodedWordsRE (c :: rest) else None) = None) as ->.
      { unfold lex_step in Estep. rewrite Eb in Estep. destruct (rfc2047 opts); [|done]. cbn [andb] in *.
        destruct (Z.eqb_spec c 61) as [->|Hc]; [done|].
        destruct (startsWith (c :: rest) (js "=?")) eqn:Es; [|done].
        apply startsWith_true in Es as [r Hr]. by injection Hr as ->. }
      apply Hnext. by eapply same_plain.
Qed.
End Same.

(** [getHeaderTokens] finds the tokens of the lexer. *)
Theorem getHeaderTokens_lex {D} `{TextDecoder D} value s :
  lex value new_lexer = Some s → getHeaderTokens value delimiters opts = Some (lex_end s).
Proof.
  intros Hlex. unfold getHeaderTokens.
  destruct (same_lex value value [] (mkTokenizer None None 0 []) 0 new_lexer s) as (t & k & Ht & Hsame); [done..|].
  change (slen []) with 0 in Ht. rewrite Ht. cbn [fmap option_fmap option_map]. f_equal.
  destruct Hsame as (H1 & _ & H3 & _ & H4). unfold lex_end. destruct (lx_open s) as [w|].
  - destruct H4 as (H4 & [p Hp] & Hne). rewrite H4, H1, H3. do 3 f_equal.
    assert (Hs : slice_from value (slen value - slen w) = w).
    { unfold slice_from. apply (slice_open value value p w []); [by rewrite app_nil_r|done]. }
    destruct (lx_quoted s).
    + rewrite bool_decide_eq_true_2 by done. unfold slice_from.
      apply (slice_quoted value value p w []); [by rewrite app_nil_r|done|by apply Hne].
    + by rewrite bool_decide_eq_false_2.
  - destruct H4 as [-> _]. done.
Qed.

(** ** Words and quoted strings *)

Definition plain (c : Z) : bool :=
  negb (c =? BACKSLASH) && negb (rfc2047 opts && (c =? 61)) && negb (wsp c)
  && negb (bool_decide (c ∈ delimiters)) && negb (qstring opts && (c =? QUOTE)) && negb (unsupported c).

Lemma lex_step_plain c toks open :
  plain c = true →
  lex_step c (mkLexer toks open false false) = Some (mkLexer toks (Some (default [] open ++ [c])) false false).
Proof.
  unfold plain, lex_step. rewrite !andb_true_iff, !negb_true_iff. intros [[[[[-> ->] ->] ->] ->] ->]. done.
Qed.

Lemma lex_word w toks open :
  Forall (λ c, plain c = true) w → w ≠ [] →
  lex w (mkLexer toks open false false) = Some (mkLexer toks (Some (default [] open ++ w)) false false).
Proof.
  intros Hw. revert open. induction Hw as [|c w Hc Hw IH]; intros open Hne; [done|].
  cbn [lex]. rewrite lex_step_plain by done. cbn [mbind option_bind].
  destruct w as [|d w]; [done|]. rewrite IH by done. cbn [from_option id]. by rewrite <- (assoc_L (++)).
Qed.

(** Words, each with what ends it. *)
Lemma lex_word_blank w toks rest :
  Forall (λ c, plain c = true) w → w ≠ [] →
  lex (w ++ SP :: rest) (mkLexer toks None false false) = lex rest (mkLexer (toks ++ [newToken w]) None false false).
Proof.
  intros Hw Hne. rewrite lex_app, lex_word by done. cbn [mbind option_bind lex from_option app].
  unfold lex_step. by rewrite andb_false_r.
Qed.

Lemma lex_word_delimiter w c toks rest :
  Forall (λ c, plain c = true) w → w ≠ [] → c ≠ BACKSLASH → c ≠ 61 → wsp c = false → c ∈ delimiters →
  lex (w ++ c :: rest) (mkLexer toks None false false)
  = lex rest (mkLexer (toks ++ [newToken w; Delim c]) None false false).
Proof.
  intros Hw Hne Hb He Hs Hd. rewrite lex_app, lex_word by done. cbn [mbind option_bind lex from_option app].
  unfold lex_step. rewrite (proj2 (Z.eqb_neq c BACKSLASH)), (proj2 (Z.eqb_neq c 61)) by done.
  rewrite andb_false_r, Hs, bool_decide_eq_true_2 by done. cbn. by rewrite <- (assoc_L (++)).
Qed.

Lemma lex_gap toks rest :
  lex (SP :: rest) (mkLexer toks None false false) = lex rest (mkLexer toks None false false).
Proof. cbn [lex]. unfold lex_step. by rewrite andb_false_r. Qed.

Lemma lex_close_idle s : lx_open s = None → lex_close s = s.
Proof. unfold lex_close. by intros ->. Qed.

Lemma lex_close_open s : lx_open (lex_close s) = None.
Proof. unfold lex_close. by destruct (lx_open s) eqn:E. Qed.

Lemma lex_step_blank c toks open :
  wsp c = true → rfc2047 opts && (c =? 61) = false → lex_step c (mkLexer toks open false false) = Some (lex_close (mkLexer toks open false false)).
Proof.
  intros Hc He. unfold lex_step. rewrite He, Hc.
  assert ((c =? BACKSLASH) = false) as ->; [|done]. apply Z.eqb_neq. by intros ->.
Qed.

Lemma wsp_not_eq c : wsp c = true → rfc2047 opts && (c =? 61) = false.
Proof. intros Hc. apply andb_false_iff. right. apply Z.eqb_neq. by intros ->. Qed.

(** A state between two characters outside of quotes. *)
Definition outside (s : lexer) : Prop := lx_quoted s = false ∧ lx_skip s = false.

Lemma lex_blanks w s :
  Forall (λ c, wsp c = true) w → w ≠ [] → outside s → lex w s = Some (lex_close s).
Proof.
  intros Hw. revert s. induction Hw as [|c w Hc Hw IH]; intros [toks open quoted skip] Hne [Hq Hs]; [done|].
  cbn in Hq, Hs. subst. cbn [lex]. rewrite lex_step_blank by (done || by apply wsp_not_eq). cbn [mbind option_bind].
  destruct w as [|d w]; [done|]. rewrite IH; [|done|].
  - by rewrite lex_close_idle by apply lex_close_open.
  - unfold lex_close, outside. by destruct open.
Qed.

Lemma lex_delimiter c s :
  c ≠ BACKSLASH → rfc2047 opts && (c =? 61) = false → wsp c = false → c ∈ delimiters → outside s →
  lex_step c s = Some (mkLexer (lx_tokens (lex_close s) ++ [Delim c]) None false false).
Proof.
  intros Hb He Hw Hd [Hq Hs]. destruct s as [toks open quoted skip]. cbn in Hq, Hs. subst. unfold lex_step.
  rewrite (proj2 (Z.eqb_neq c BACKSLASH)), He, Hw, bool_decide_eq_true_2 by done. done.
Qed.

Lemma unescape_plain w : BACKSLASH ∉ w → unescape w = w.
Proof.
  induction w as [|c w IH]; [done|]. intros [Hc Hw]%not_elem_of_cons. cbn [unescape].
  rewrite (proj2 (Z.eqb_neq c BACKSLASH)) by congruence. by rewrite IH.
Qed.

(** Quotes and backslashes get a backslash before them. *)
Definition escape (s : jsstr) : jsstr :=
  flat_map (λ c, if (c =? QUOTE) || (c =? BACKSLASH) then [BACKSLASH; c] else [c]) s.

Lemma unescape_escape s : forallb (λ c, negb (line_terminator c)) s = true → unescape (escape s) = s.
Proof.
  induction s as [|c s IH]; [done|]. cbn [forallb]. rewrite andb_true_iff, negb_true_iff. intros [Hc Hs].
  cbn [escape flat_map]. destruct ((c =? QUOTE) || (c =? BACKSLASH)) eqn:E.
  - cbn [app unescape]. fold (escape s). by rewrite Z.eqb_refl, Hc, IH.
  - apply orb_false_iff in E as [_ E]. cbn [app unescape]. fold (escape s). by rewrite E, IH.
Qed.

Lemma lex_step_backslash toks w quoted :
  lex_step BACKSLASH (mkLexer toks (Some w) quoted false) = Some (mkLexer toks (Some (w ++ [BACKSLASH])) quoted true).
Proof. done. Qed.

Lemma lex_step_escaped c toks w quoted :
  lex_step c (mkLexer toks (Some w) quoted true) = Some (mkLexer toks (Some (w ++ [c])) quoted false).
Proof. done. Qed.

Lemma lex_step_quoted c toks w :
  (c =? QUOTE) || (c =? BACKSLASH) = false →
  lex_step c (mkLexer toks (Some w) true false) = Some (mkLexer toks (Some (w ++ [c])) true false).
Proof. intros [E1 E2]%orb_false_iff. unfold lex_step. by rewrite E1, E2. Qed.

Lemma lex_in_quotes s toks w rest :
  lex (escape s ++ rest) (mkLexer toks (Some w) true false)
  = lex rest (mkLexer toks (Some (w ++ escape s)) true false).
Proof.
  revert w. induction s as [|c s IH]; intros w; [by rewrite app_nil_r|].
  cbn [escape flat_map]. fold (escape s). destruct ((c =? QUOTE) || (c =? BACKSLASH)) eqn:E; cbn [app lex].
  - rewrite lex_step_backslash. cbn [mbind option_bind]. rewrite lex_step_escaped. cbn [mbind option_bind].
    rewrite IH. by rewrite <- !(assoc_L (++)).
  - rewrite lex_step_quoted by done. cbn [mbind option_bind]. rewrite IH. by rewrite <- (assoc_L (++)).
Qed.

(** What is in a quoted string. *)
Definition quotable (s : jsstr) : Prop :=
  forallb (λ c, negb (line_terminator c)) s = true ∧
  (rfc2047 opts = true → ascii_text s = true ∧ (61 ∉ s) ∧ forallb wsp s = false).

Lemma escape_forall (P : Z → Prop) s : P BACKSLASH → Forall P s → Forall P (escape s).
Proof.
  intros HP Hs. induction Hs as [|c s Hc Hs IH]; [done|]. cbn [escape flat_map]. fold (escape s).
  destruct ((c =? QUOTE) || (c =? BACKSLASH)); cbn [app]; by repeat constructor.
Qed.

Lemma escape_wsp s : forallb wsp s = false → forallb wsp (escape s) = false.
Proof.
  induction s as [|c s IH]; [done|]. cbn [forallb escape flat_map]. fold (escape s). intros Hw.
  destruct ((c =? QUOTE) || (c =? BACKSLASH)); [done|]. cbn [app forallb].
  destruct (wsp c); [by apply IH|done].
Qed.

Lemma quotable_escape s :
  quotable s → rfc2047 opts = true → ascii_text (escape s) = true ∧ (61 ∉ escape s) ∧ forallb wsp (escape s) = false.
Proof.
  intros [_ Hr] Er. destruct (Hr Er) as (Ha & Hw & Hb). split_and!; [| |by apply escape_wsp].
  - unfold ascii_text in *. rewrite forallb_forall in *. setoid_rewrite <- list_elem_of_In.
    setoid_rewrite <- list_elem_of_In in Ha. apply Forall_forall. apply escape_forall; [done|]. by apply Forall_forall.
  - intros Hin. assert (Forall (λ c, c ≠ 61) (escape s)) as Hf.
    { apply escape_forall; [done|]. apply Forall_forall. by intros c Hc ->. }
    rewrite Forall_forall in Hf. by apply (Hf 61).
Qed.

(** A quoted string is one token, its text. *)
Lemma lex_quoted_string s st rest :
  qstring opts = true → QUOTE ∉ delimiters → outside st → quotable s →
  lex (QUOTE :: escape s ++ QUOTE :: rest) st
  = lex rest (mkLexer (lx_tokens (lex_close st) ++ [Token s]) None false false).
Proof.
  intros Hqs Hd [Hq Hk] Hs. destruct st as [toks open quoted skip]. cbn in Hq, Hk. subst.
  pose proof (quotable_escape s Hs) as Hr. destruct Hs as [Hl _]. cbn [lex].
  assert (lex_step QUOTE (mkLexer toks open false false)
    = Some (mkLexer (lx_tokens (lex_close (mkLexer toks open false false))) (Some [QUOTE]) true false)) as ->.
  { unfold lex_step. rewrite andb_false_r. rewrite bool_decide_eq_false_2, Hqs by done. done. }
  cbn [mbind option_bind]. rewrite lex_in_quotes. cbn [lex].
  assert (∀ ts, lex_step QUOTE (mkLexer ts (Some ([QUOTE] ++ escape s)) true false)
    = Some (mkLexer (ts ++ [Token s]) None false false)) as ->; [|done].
  intros ts. unfold lex_step. change (QUOTE =? BACKSLASH) with false. rewrite Z.eqb_refl.
  cbn [from_option id app]. change (drop 1 (QUOTE :: escape s)) with (escape s).
  unfold quoted_text, without_words, newToken. destruct (rfc2047 opts); cbn [andb].
  - destruct (Hr eq_refl) as (-> & Hw & ->). rewrite bool_decide_eq_true_2 by done. cbn [negb andb].
    by rewrite unescape_escape.
  - by rewrite unescape_escape.
Qed.
End Lexer.
