(* ===== verification/DateTime.v ===== *)
(** * DateTime: the dates of the language

    The part of JavaScript's [Date] that the programs use, as its standard defines
    it: a time is a number of milliseconds, or [NaN] ([None]), days are numbered from
    1970-01-01, and the calendar is the Gregorian one for all times.  Sums are exact,
    as they are below 2^53. *)

From S2P Require Import Prelude.

#[local] Ltac Zify.zify_post_hook ::= Z.to_euclidean_division_equations.

Definition msPerDay : Z := 86400000.

(** ** The calendar *)

Definition day_from_year (y : Z) : Z :=
  365 * (y - 1970) + (y - 1969) / 4 - (y - 1901) / 100 + (y - 1601) / 400.

Definition leap_year (y : Z) : bool :=
  ((y mod 4 =? 0) && negb (y mod 100 =? 0)) || (y mod 400 =? 0).

Definition days_in_year (y : Z) : Z := if leap_year y then 366 else 365.

(** The year of a day: the mean year gives it but for one. *)
Definition year_of_day (day : Z) : Z :=
  let y := 1970 + 400 * day / 146097 in
  if day <? day_from_year y then y - 1 else if day_from_year (y + 1) <=? day then y + 1 else y.

(** The day of the year with which a month begins. *)
Definition month_start (leap : bool) (m : Z) : Z :=
  nth (Z.to_nat m) [0; 31; 59; 90; 120; 151; 181; 212; 243; 273; 304; 334] 365
  + (if leap && (2 <=? m) then 1 else 0).

Definition month_of_yday (leap : bool) (d : Z) : Z :=
  Z.of_nat (length (List.filter (λ m, month_start leap m <=? d) [1; 2; 3; 4; 5; 6; 7; 8; 9; 10; 11])).

(** ** The fields of a time *)

Definition time_day (t : Z) : Z := t / msPerDay.
Definition time_year (t : Z) : Z := year_of_day (time_day t).
Definition time_yday (t : Z) : Z := time_day t - day_from_year (time_year t).
Definition time_month (t : Z) : Z := month_of_yday (leap_year (time_year t)) (time_yday t).
Definition time_date (t : Z) : Z :=
  time_yday t - month_start (leap_year (time_year t)) (time_month t) + 1.
Definition time_weekday (t : Z) : Z := (time_day t + 4) mod 7.
Definition time_hours (t : Z) : Z := t / 3600000 mod 24.
Definition time_minutes (t : Z) : Z := t / 60000 mod 60.
Definition time_seconds (t : Z) : Z := t / 1000 mod 60.

(** ** The time of fields *)

Definition make_day (year month date : Z) : Z :=
  let y := year + month / 12 in
  day_from_year y + month_start (leap_year y) (month mod 12) + date - 1.

Definition time_clip (t : Z) : num := if Z.abs t <=? 8640000000000000 then Some t else None.

(** [Date.UTC] of six numbers. *)
Definition Date_UTC (year month date hours minutes seconds : num) : num :=
  y ← year; mo ← month; d ← date; h ← hours; mi ← minutes; s ← seconds;
  let y := if (0 <=? y) && (y <=? 99) then 1900 + y else y in
  time_clip (make_day y mo d * msPerDay + h * 3600000 + mi * 60000 + s * 1000).

(** [new Date(n)] of a number. *)
Definition new_Date (t : num) : num := t ← t; time_clip t.

(** ** The fields determine the time *)

Lemma days_in_year_next y : day_from_year (y + 1) = day_from_year y + days_in_year y.
Proof.
  unfold days_in_year, leap_year, day_from_year.
  destruct (Z.eqb_spec (y mod 4) 0), (Z.eqb_spec (y mod 100) 0), (Z.eqb_spec (y mod 400) 0); cbn; lia.
Qed.

Lemma year_of_day_spec day :
  day_from_year (year_of_day day) <= day < day_from_year (year_of_day day + 1).
Proof.
  unfold year_of_day. set (y := 1970 + 400 * day / 146097).
  destruct (Z.ltb_spec day (day_from_year y)).
  - replace (y - 1 + 1) with y by lia. unfold day_from_year, y in *. lia.
  - destruct (Z.leb_spec (day_from_year (y + 1)) day); [|lia].
    replace (y + 1 + 1) with (y + 2) by lia. unfold day_from_year, y in *. lia.
Qed.

Lemma yday_range t : 0 <= time_yday t < days_in_year (time_year t).
Proof.
  pose proof (year_of_day_spec (time_day t)) as H. rewrite days_in_year_next in H.
  unfold time_yday, time_year. lia.
Qed.

Lemma month_of_yday_range leap d : 0 <= month_of_yday leap d < 12.
Proof.
  unfold month_of_yday. pose proof (List.filter_length_le (λ m, month_start leap m <=? d)
    [1; 2; 3; 4; 5; 6; 7; 8; 9; 10; 11]) as H. cbn [length] in H. lia.
Qed.

Definition yday_ok (leap : bool) (d : Z) : bool :=
  let date := d - month_start leap (month_of_yday leap d) + 1 in (1 <=? date) && (date <=? 31).

(** A day of the year is in its month. *)
Lemma month_of_yday_spec (leap : bool) (d : Z) :
  0 <= d < (if leap then 366 else 365) →
  1 <= d - month_start leap (month_of_yday leap d) + 1 <= 31.
Proof.
  intros Hd. assert (forallb (yday_ok leap) (map Z.of_nat (seq 0 (if leap then 366 else 365)%nat)) = true) as HP.
  { destruct leap; by vm_compute. }
  rewrite forallb_forall in HP. assert (yday_ok leap d = true) as Hok.
  { apply HP, in_map_iff. exists (Z.to_nat d). split; [lia|]. apply in_seq. destruct leap; lia. }
  unfold yday_ok in Hok. lia.
Qed.

Lemma date_range t : 1 <= time_date t <= 31.
Proof.
  unfold time_date, time_month. apply month_of_yday_spec. pose proof (yday_range t) as H.
  unfold days_in_year in H. destruct (leap_year (time_year t)); lia.
Qed.

Lemma make_day_fields t : make_day (time_year t) (time_month t) (time_date t) = time_day t.
Proof.
  unfold make_day. pose proof (month_of_yday_range (leap_year (time_year t)) (time_yday t)) as H.
  change (month_of_yday _ _) with (time_month t) in H.
  rewrite (Z.div_small (time_month t) 12), (Z.mod_small (time_month t) 12), Z.add_0_r by done.
  unfold time_date, time_yday. lia.
Qed.

(** A time is its fields, but for the seconds and milliseconds. *)
Lemma make_time_fields t s :
  make_day (time_year t) (time_month t) (time_date t) * msPerDay
    + time_hours t * 3600000 + time_minutes t * 60000 + s * 1000
  = t - t mod 60000 + s * 1000.
Proof. rewrite make_day_fields. unfold time_day, time_hours, time_minutes, msPerDay. lia. Qed.

Lemma Date_UTC_fields t s :
  100 <= time_year t →
  Date_UTC (Some (time_year t)) (Some (time_month t)) (Some (time_date t))
    (Some (time_hours t)) (Some (time_minutes t)) (Some s)
  = time_clip (t - t mod 60000 + s * 1000).
Proof.
  intros Hy. unfold Date_UTC. cbn [mbind option_bind].
  rewrite (proj2 (Z.leb_gt (time_year t) 99)) by lia. rewrite andb_false_r. by rewrite make_time_fields.
Qed.
