(* ===== verification/DateHeaders.v ===== *)
(** * DateHeaders: the Date header of jsmime

    Of mailnews/mime/jsmime/jsmime.mjs: [parseDateHeader], and the text that
    [addDate] of the emitter writes.  A time zone is the offset of local time at a
    time, in whole minutes, as [getTimezoneOffset] gives it: it is of the platform. *)

From S2P Require Import Prelude Effects MimeUtils MimeHeaders MimeTree HeaderTokens DateTime.

#[local] Ltac Zify.zify_post_hook ::= Z.to_euclidean_division_equations.

(** ** parseDateHeader *)

Definition MONTH_NAMES : list jsstr :=
  [js "Jan"; js "Feb"; js "Mar"; js "Apr"; js "May"; js "Jun"; js "Jul"; js "Aug"; js "Sep"; js "Oct";
   js "Nov"; js "Dec"].

Definition KNOWN_TIMEZONES : list (jsstr * jsstr) :=
  [(js "UT", js "+0000"); (js "GMT", js "+0000"); (js "EST", js "-0500"); (js "EDT", js "-0400");
   (js "CST", js "-0600"); (js "CDT", js "-0500"); (js "MST", js "-0700"); (js "MDT", js "-0600");
   (js "PST", js "-0800"); (js "PDT", js "-0700"); (js "AST", js "-0400"); (js "NST", js "-0330");
   (js "BST", js "+0100"); (js "MET", js "+0100"); (js "EET", js "+0200"); (js "JST", js "+0900")].

Definition token_string (t : token) : jsstr := match t with Delim c => [c] | Token s => s end.

(** [indexOf] in a list of strings. *)
Fixpoint index_of (x : jsstr) (l : list jsstr) : option Z :=
  match l with
  | y :: l' => if x ==s y then Some 0 else Z.succ <$> index_of x l'
  | [] => None
  end.

(** [parseInt(s)] without a radix: [0x] begins a hexadecimal number. *)
Fixpoint hex_digits (s : jsstr) : list Z :=
  match s with
  | c :: s' => match hex_val c with Some d => d :: hex_digits s' | None => [] end
  | [] => []
  end.

Definition parse_int (s : jsstr) : num :=
  let '(sg, t) := sign_of (trimStart s) in
  match t with
  | a :: x :: t' =>
      if (a =? 48) && bool_decide (x ∈ js "xX") then
        match hex_digits t' with
        | [] => None
        | ds => Some (sg * fold_left (λ n d, 16 * n + d) ds 0)
        end
      else parseInt s
  | _ => parseInt s
  end.

Definition full_year (year : num) : num :=
  year ← year; Some (if year <? 100 then year + (if year <? 50 then 2000 else 1900) else year).

(** The sign and the digits of [([+-])(\d\d)(\d\d)], in minutes. *)
Definition zone_minutes (s : jsstr) : Z :=
  match s with
  | [sg; a; b; c; d] =>
      if bool_decide (sg ∈ js "+-") && forallb is_digit [a; b; c; d] then
        (if sg =? 45 then -1 else 1) * (digits_val [a; b] * 60 + digits_val [c; d])
      else 0
  | _ => 0
  end.

(** A name that [KNOWN_TIMEZONES] inherits gives a function, whose text is no
    offset; so does an absent token. *)
Definition tzOffsetInMin (tzoffset : option jsstr) : Z :=
  match tzoffset with
  | Some z => zone_minutes (default z (mget KNOWN_TIMEZONES z))
  | None => 0
  end.

Definition date_of_tokens (tokens : list jsstr) : num :=
  let tokens := match tokens with _ :: [44] :: tokens' => tokens' | _ => tokens end in
  match tokens with
  | t0 :: t1 :: t2 :: t3 :: _ :: t5 :: _ :: t7 :: rest =>
      let utc := Date_UTC (full_year (parse_int t2)) (index_of (slice t1 0 3) MONTH_NAMES) (parse_int t0)
                   (parse_int t3) (parse_int t5) (parse_int t7) in
      new_Date (nsub utc (Some (tzOffsetInMin (head rest) * 60 * 1000)))
  | _ => None
  end.

(** No options: [{}]. *)
Definition date_opts : token_opts := mkTokenOpts false false false false.

Section Date.
Context {D : Type} `{TextDecoder D}.

Definition parseDateHeader (header : jsstr) : option num :=
  (λ tokens, date_of_tokens (map token_string tokens))
    <$> getHeaderTokens header (js ",:") date_opts.
End Date.

(** ** addDate *)

Definition kDaysOfWeek : list jsstr :=
  [js "Sun"; js "Mon"; js "Tue"; js "Wed"; js "Thu"; js "Fri"; js "Sat"].

Definition padTo2Digits (n : Z) : jsstr := if n <? 10 then 48 :: num_str n else num_str n.

(** The platform's time zone: [getTimezoneOffset()] of a time. *)
Class TimeZone := getTimezoneOffset : Z → Z.

(** The text of a time [t] whose local time is [l], [tz] minutes behind UTC;
    [None] is the error for years that cannot be written. *)
Definition dayTime (l tz seconds : Z) : option jsstr :=
  if (time_year l <? 1900) || (9999 <? time_year l) then None
  else
    let tzOffHours := Z.abs (Z.quot tz 60) in
    let tzOffMinutes := Z.abs tz mod 60 in
    let tzOffsetStr := (if 0 <? tz then js "-" else js "+") ++ padTo2Digits tzOffHours ++ padTo2Digits tzOffMinutes in
    Some (join (js " ")
      [nth (Z.to_nat (time_weekday l)) kDaysOfWeek [] ++ js ","; num_str (time_date l);
       nth (Z.to_nat (time_month l)) MONTH_NAMES []; num_str (time_year l);
       padTo2Digits (time_hours l) ++ js ":" ++ padTo2Digits (time_minutes l) ++ js ":" ++ padTo2Digits seconds;
       tzOffsetStr]).

(** The local time of a time. *)
Definition local_time `{TimeZone} (t : Z) : Z := t - getTimezoneOffset t * 60000.

(** The text [addDate] adds; [None] is an error. *)
Definition date_text `{TimeZone} (sanitizeDate : bool) (date : num) : option jsstr :=
  t ← date;
  if sanitizeDate then dayTime t 0 0
  else dayTime (local_time t) (getTimezoneOffset t) (time_seconds (local_time t)).

(** The time a header holds: to the second, or to the minute when it is sanitized. *)
Definition written_time (sanitizeDate : bool) (t : Z) : Z :=
  if sanitizeDate then t - t mod 60000 else t - t mod 1000.

(** ** What is written is read *)

Lemma year_days t :
  1900 <= time_year t <= 9999 → day_from_year 1900 <= time_day t < day_from_year 10000.
Proof.
  unfold time_year. intros Hy. pose proof (year_of_day_spec (time_day t)) as [H1 H2].
  assert (Hmono : ∀ a b, a <= b → day_from_year a <= day_from_year b) by (unfold day_from_year; lia).
  split; [etransitivity; [|exact H1]|eapply Z.lt_le_trans; [exact H2|]]; apply Hmono; lia.
Qed.

(** The times of those years are not clipped. *)
Lemma year_clip t d : 1900 <= time_year t <= 9999 → Z.abs d <= 400000000 → time_clip (t + d) = Some (t + d).
Proof.
  intros Ht%year_days Hd. unfold time_clip. rewrite (proj2 (Z.leb_le _ _)); [done|].
  change (day_from_year 1900) with (-25567) in Ht. change (day_from_year 10000) with 2932897 in Ht.
  unfold time_day, msPerDay in Ht. lia.
Qed.

Lemma parse_int_digits ds : ds ≠ [] → Forall (λ c, is_digit c = true) ds → parse_int ds = Some (digits_val ds).
Proof.
  intros Hne Hd. assert (Hsp : trimStart ds = ds).
  { apply trimStart_id. eapply Forall_impl; [done|]. apply digit_not_space. }
  assert (Htd : take_digits ds = ds).
  { clear Hne Hsp. induction Hd as [|c ds Hc _ IH]; [done|]. cbn. by rewrite Hc, IH. }
  assert (Hsg : sign_of ds = (1, ds)).
  { destruct ds as [|c ds]; [done|]. apply Forall_cons_1 in Hd as [Hc%digit_range _]. unfold sign_of.
    by rewrite !(proj2 (Z.eqb_neq c _)) by lia. }
  assert (Hp : parseInt ds = Some (digits_val ds)).
  { unfold parseInt. rewrite Hsp, Hsg, Htd. destruct ds; [done|]. by rewrite Z.mul_1_l. }
  unfold parse_int. rewrite Hsp, Hsg. destruct ds as [|a [|x ds]]; [done..|].
  apply Forall_cons_1 in Hd as [_ [Hx%digit_range _]%Forall_cons_1].
  rewrite (bool_decide_eq_false_2 (x ∈ js "xX")), andb_false_r; [done|].
  change (js "xX") with [120; 88]. set_solver by lia.
Qed.

Lemma parse_int_num n : 0 <= n → parse_int (num_str n) = Some n.
Proof. intros Hn. destruct (num_str_spec n Hn) as (H1 & H2 & H3). rewrite parse_int_digits; congruence. Qed.

Lemma padTo2Digits_spec n : 0 <= n < 100 → padTo2Digits n = [48 + n / 10; 48 + n mod 10].
Proof.
  intros Hn. apply (below_forall (λ n, bool_decide (padTo2Digits n = [48 + n / 10; 48 + n mod 10])) 100) in Hn;
    [by apply bool_decide_eq_true in Hn|by vm_compute].
Qed.

Lemma padTo2Digits_digits n :
  0 <= n < 100 → padTo2Digits n ≠ [] ∧ Forall (λ c, is_digit c = true) (padTo2Digits n) ∧
                 digits_val (padTo2Digits n) = n.
Proof.
  intros Hn. rewrite padTo2Digits_spec by done. split; [done|]. split.
  - pose proof (Z.div_mod n 10). pose proof (Z.mod_pos_bound n 10). repeat constructor; apply digit_range; lia.
  - unfold digits_val. cbn. pose proof (Z.div_mod n 10). lia.
Qed.

Lemma parse_int_pad n : 0 <= n < 100 → parse_int (padTo2Digits n) = Some n.
Proof. intros Hn. destruct (padTo2Digits_digits n Hn) as (H1 & H2 & H3). rewrite parse_int_digits; congruence. Qed.

(** The offset as it is written. *)
Definition offset_text (tz : Z) : jsstr :=
  (if 0 <? tz then js "-" else js "+") ++ padTo2Digits (Z.abs (Z.quot tz 60)) ++ padTo2Digits (Z.abs tz mod 60).

Lemma zone_unnamed z : head z = Some 43 ∨ head z = Some 45 → mget KNOWN_TIMEZONES z = None.
Proof.
  intros Hz. apply mget_None. intros Hin.
  assert (Forall (λ z, head z ≠ Some 43 ∧ head z ≠ Some 45) KNOWN_TIMEZONES.*1) as Hall.
  { by apply (bool_decide_unpack (Forall _ _)); vm_compute. }
  rewrite Forall_forall in Hall. destruct (Hall z Hin), Hz; done.
Qed.

Lemma offset_read tz : Z.abs tz < 6000 → tzOffsetInMin (Some (offset_text tz)) = - tz.
Proof.
  intros Htz. unfold offset_text. assert (Hh : Z.abs (Z.quot tz 60) = Z.abs tz / 60).
  { lia. }
  pose proof (Z.mod_pos_bound (Z.abs tz) 60) as Hm. pose proof (Z.div_mod (Z.abs tz) 60) as Hdm.
  assert (0 <= Z.abs tz / 60 < 100) as Hh2 by (split; [apply Z.div_pos|apply Z.div_lt_upper_bound]; lia).
  rewrite Hh. destruct (padTo2Digits_digits (Z.abs tz / 60) Hh2) as (_ & Hd1 & Hv1).
  destruct (padTo2Digits_digits (Z.abs tz mod 60)) as (_ & Hd2 & Hv2); [lia|].
  rewrite (padTo2Digits_spec (Z.abs tz / 60)), (padTo2Digits_spec (Z.abs tz mod 60)) in * by lia.
  set (a := 48 + Z.abs tz / 60 / 10) in *. set (b := 48 + (Z.abs tz / 60) mod 10) in *.
  set (c := 48 + Z.abs tz mod 60 / 10) in *. set (d := 48 + (Z.abs tz mod 60) mod 10) in *. unfold tzOffsetInMin.
  assert (forallb is_digit [a; b; c; d] = true) as Hall.
  { rewrite !Forall_cons in Hd1, Hd2. destruct Hd1 as (Ea & Eb & _), Hd2 as (Ec & Ed & _).
    cbn [forallb]. by rewrite Ea, Eb, Ec, Ed. }
  destruct (Z.ltb_spec 0 tz).
  - change (js "-" ++ [a; b] ++ [c; d]) with [45; a; b; c; d].
    rewrite zone_unnamed by (cbn; auto). cbn [default from_option]. unfold zone_minutes.
    rewrite Hall, Hv1, Hv2, bool_decide_eq_true_2 by (cbn; set_solver). cbn -[Z.mul Z.add Z.abs Z.div Z.modulo Z.opp]. lia.
  - change (js "+" ++ [a; b] ++ [c; d]) with [43; a; b; c; d].
    rewrite zone_unnamed by (cbn; auto). cbn [default from_option]. unfold zone_minutes.
    rewrite Hall, Hv1, Hv2, bool_decide_eq_true_2 by (cbn; set_solver). cbn -[Z.mul Z.add Z.abs Z.div Z.modulo Z.opp]. lia.
Qed.

(** The names are words, and the month is found. *)
Definition date_plain (s : jsstr) : Prop := Forall (λ c, plain (js ",:") date_opts c = true) s ∧ s ≠ [] ∧ BACKSLASH ∉ s.

Lemma digits_plain s : s ≠ [] → Forall (λ c, is_digit c = true) s → date_plain s.
Proof.
  intros Hne Hs. assert (Hc : ∀ c, is_digit c = true → plain (js ",:") date_opts c = true ∧ c ≠ BACKSLASH).
  { intros c Hc%digit_range. assert (plain (js ",:") date_opts c = true) as H.
    { pose proof (below_forall (λ c, negb (is_digit c) || plain (js ",:") date_opts c) 58) as Hb.
      specialize (Hb ltac:(by vm_compute) c ltac:(lia)). cbn beta in Hb. by rewrite (proj2 (digit_range c)) in Hb by lia. }
    split; [done|]. unfold BACKSLASH. lia. }
  split_and!; [|done|]; [|intros Hin]; rewrite ?Forall_forall in *; [intros c Hin|]; apply Hs, Hc in Hin; by destruct Hin.
Qed.

Lemma month_name m :
  0 <= m < 12 → date_plain (nth (Z.to_nat m) MONTH_NAMES []) ∧
                index_of (slice (nth (Z.to_nat m) MONTH_NAMES []) 0 3) MONTH_NAMES = Some m.
Proof.
  intros Hm. apply (below_forall (λ m, bool_decide (date_plain (nth (Z.to_nat m) MONTH_NAMES []) ∧
    index_of (slice (nth (Z.to_nat m) MONTH_NAMES []) 0 3) MONTH_NAMES = Some m)) 12) in Hm;
    [by apply bool_decide_eq_true in Hm|by vm_compute].
Qed.

Lemma day_name d : 0 <= d < 7 → date_plain (nth (Z.to_nat d) kDaysOfWeek []).
Proof.
  intros Hd. apply (below_forall (λ d, bool_decide (date_plain (nth (Z.to_nat d) kDaysOfWeek []))) 7) in Hd;
    [by apply bool_decide_eq_true in Hd|by vm_compute].
Qed.

Lemma num_plain n : 0 <= n → date_plain (num_str n).
Proof. intros Hn. destruct (num_str_spec n Hn) as (? & ? & _). by apply digits_plain. Qed.

Lemma pad_plain n : 0 <= n < 100 → date_plain (padTo2Digits n).
Proof. intros Hn. destruct (padTo2Digits_digits n Hn) as (? & ? & _). by apply digits_plain. Qed.

Lemma date_plain_app s t : date_plain s → date_plain t → date_plain (s ++ t).
Proof.
  intros (? & ? & ?) (? & ? & ?). split_and!; [by apply Forall_app|by destruct s|set_solver].
Qed.

Lemma offset_plain tz : Z.abs tz < 6000 → date_plain (offset_text tz).
Proof.
  intros Hz. unfold offset_text. apply date_plain_app.
  - by destruct (0 <? tz); apply (bool_decide_unpack (date_plain _)); vm_compute.
  - apply date_plain_app; apply pad_plain; lia.
Qed.

Lemma newToken_plain s : date_plain s → newToken s = Token s.
Proof. intros (_ & _ & Hs). unfold newToken. by rewrite unescape_plain. Qed.

Section Roundtrip.
Context {D : Type} `{TextDecoder D}.

(** The tokens of the text. *)
Lemma date_tokens dow dom mon year h m s off :
  date_plain dow → date_plain dom → date_plain mon → date_plain year → date_plain h → date_plain m →
  date_plain s → date_plain off →
  getHeaderTokens (join (js " ") [dow ++ js ","; dom; mon; year; h ++ js ":" ++ m ++ js ":" ++ s; off])
    (js ",:") date_opts
  = Some [Token dow; Delim 44; Token dom; Token mon; Token year; Token h; Delim 58; Token m; Delim 58; Token s; Token off].
Proof.
  intros Hdow Hdom Hmon Hyear Hh Hm Hs Hoff.
  assert (Hword : ∀ w toks rest, date_plain w →
    lex (js ",:") date_opts (w ++ SP :: rest) (mkLexer toks None false false)
    = lex (js ",:") date_opts rest (mkLexer (toks ++ [Token w]) None false false)).
  { intros w toks rest Hw. rewrite lex_word_blank by apply Hw. by rewrite newToken_plain. }
  assert (Hdel : ∀ w c toks rest, date_plain w → c = 44 ∨ c = 58 →
    lex (js ",:") date_opts (w ++ c :: rest) (mkLexer toks None false false)
    = lex (js ",:") date_opts rest (mkLexer (toks ++ [Token w; Delim c]) None false false)).
  { intros w c toks rest Hw Hc. destruct Hc as [-> | ->]; rewrite lex_word_delimiter;
      try apply Hw; try done; try (by rewrite newToken_plain); cbn; set_solver. }
  rewrite (getHeaderTokens_lex _ _ _ (mkLexer [Token dow; Delim 44; Token dom; Token mon; Token year; Token h;
    Delim 58; Token m; Delim 58; Token s] (Some off) false false)).
  2: { cbn [join]. rewrite <- !(assoc_L (++)). cbn [app]. unfold new_lexer.
       rewrite Hdel, lex_gap, !Hword, !Hdel, Hword by auto.
       by rewrite lex_word by apply Hoff. }
  unfold lex_end. cbn. by rewrite newToken_plain.
Qed.

(** What [addDate] writes, [parseDateHeader] reads: the time, to the second, or to the
    minute for a sanitized date. *)
Theorem date_roundtrip `{TimeZone} sanitizeDate t text :
  Z.abs (getTimezoneOffset t) < 6000 →
  date_text sanitizeDate (Some t) = Some text →
  parseDateHeader text = Some (Some (written_time sanitizeDate t)).
Proof.
  intros Htz Htext.
  assert (∃ l tz s, dayTime l tz s = Some text ∧ Z.abs tz < 6000 ∧ 0 <= s < 60 ∧
    l - l mod 60000 + s * 1000 + tz * 60000 = written_time sanitizeDate t) as (l & tz & s & Hday & Hz & Hs & <-).
  { unfold date_text in Htext. cbn [mbind option_bind] in Htext. unfold written_time, local_time in *.
    destruct sanitizeDate; eexists _, _, _; (split; [exact Htext|]); unfold time_seconds; lia. }
  clear Htext Htz. unfold dayTime in Hday.
  destruct (Z.ltb_spec (time_year l) 1900), (Z.ltb_spec 9999 (time_year l)); cbn [orb] in Hday; try done.
  apply (inj Some) in Hday as <-.
  assert (Hh : 0 <= time_hours l < 100) by (unfold time_hours; lia).
  assert (Hmi : 0 <= time_minutes l < 100) by (unfold time_minutes; lia).
  pose proof (date_range l) as Hd. pose proof (month_of_yday_range (leap_year (time_year l)) (time_yday l)) as Hmo.
  change (month_of_yday _ _) with (time_month l) in Hmo. destruct (month_name _ Hmo) as [Hmo1 Hmo2].
  unfold parseDateHeader. fold (offset_text tz). rewrite date_tokens; try apply num_plain; try apply pad_plain; try done; try lia.
  2: { apply day_name. unfold time_weekday. lia. }
  2: { by apply offset_plain. }
  cbn [fmap option_fmap option_map map token_string date_of_tokens head].
  rewrite !parse_int_num, !parse_int_pad, Hmo2, offset_read by lia. f_equal.
  assert (full_year (Some (time_year l)) = Some (time_year l)) as ->.
  { unfold full_year. cbn [mbind option_bind]. by rewrite (proj2 (Z.ltb_ge (time_year l) 100)) by lia. }
  rewrite Date_UTC_fields by lia.
  replace (l - l mod 60000 + s * 1000) with (l + (s * 1000 - l mod 60000)) by lia.
  rewrite year_clip by lia. cbn [nsub new_Date mbind option_bind].
  replace (l + (s * 1000 - l mod 60000) - - tz * 60 * 1000)
    with (l + (s * 1000 - l mod 60000 + tz * 60000)) by lia.
  rewrite year_clip by lia. f_equal. lia.
Qed.
End Roundtrip.

Lemma date_roundtrip_witness :
  date_text (H := λ _, -120) false (Some 959868056789) = Some (js "Thu, 1 Jun 2000 16:00:56 +0200") ∧
  @parseDateHeader unit latin1 (js "Thu, 1 Jun 2000 16:00:56 +0200") = Some (Some 959868056000).
Proof.
  assert (date_text (H := λ _, -120) false (Some 959868056789) = Some (js "Thu, 1 Jun 2000 16:00:56 +0200")) as E.
  { by vm_compute. }
  split; [exact E|]. exact (@date_roundtrip unit latin1 (λ _, -120) false 959868056789 _ ltac:(done) E).
Defined.

(** ** Dates that are not read *)

(** The comment of [parseDateHeader] says that other dates are given to [Date.parse];
    they are invalid. *)
Lemma iso_date_invalid : @parseDateHeader unit latin1 (js "2012-09-06T08:08:21Z") = Some None.
Proof. by vm_compute. Qed.
