(* ===== verification/HeaderEmitter.v ===== *)
(** * HeaderEmitter: the header emitter of jsmime

    [JsMIMEheaderemitter] of mailnews/mime/jsmime/jsmime.mjs, and the encoders of
    the structured headers.  The emitter is a state with the line being built; what
    it delivers to its handler are events; a method that throws gives no result.
    The platform's TextEncoder is an interface: it gives UTF-8. *)

From S2P Require Import Prelude Effects MimeUtils MimeHeaders HeaderTokens DateTime DateHeaders.

(** ** The platform *)

(** [(b & 0xc0) == 0x80]: a byte in the middle of a character. *)
Definition continuation_byte (b : Z) : bool := Z.land b 0xc0 =? 0x80.

(** Bytes that are characters of at most four bytes, each one that begins a
    character and the ones in its middle. *)
Inductive utf8_chars : list (list Z) → Prop :=
  | utf8_nil : utf8_chars []
  | utf8_cons a l cs : (length l ≤ 3)%nat → continuation_byte a = false → Forall (λ b, continuation_byte b = true) l →
                       Forall (λ b, 0 <= b < 256) (a :: l) → utf8_chars cs → utf8_chars ((a :: l) :: cs).

Class TextEncoder := {
  encode : jsstr → list Z;
  encode_chars : ∀ s, ∃ cs, utf8_chars cs ∧ encode s = concat cs
}.

(** ** The emitter *)

Inductive output := DeliverData (data : jsstr) | DeliverEOF.

Record options := mkOptions {
  opt_softMargin : option Z;
  opt_hardMargin : option Z;
  opt_useASCII : option bool;
  opt_sanitizeDate : option bool
}.

Record emitter := mkEmitter {
  useASCII : bool;
  sanitizeDate : bool;
  currentLine : jsstr;
  softMargin : Z;
  hardMargin : Z;
  preferredBreakpoint : Z
}.
#[export] Instance eta_emitter : Settable emitter := λ s,
  mkEmitter (useASCII s) (sanitizeDate s) (currentLine s) (softMargin s) (hardMargin s) (preferredBreakpoint s).

Definition clamp (value : option Z) (min max def : Z) : Z :=
  match value with
  | None => def
  | Some value => if value <? min then min else if max <? value then max else value
  end.

Definition new_emitter (o : options) : emitter :=
  let soft := clamp (opt_softMargin o) 30 900 78 in
  mkEmitter (default true (opt_useASCII o)) (default false (opt_sanitizeDate o)) []
    soft (clamp (opt_hardMargin o) soft 998 998) 0.

Abbreviation em := (eff emitter output).

(** ** Lines *)

Definition _commitLine (count : option Z) : em unit :=
  let! line := gets currentLine in
  let '(firstN, lastN) :=
    match count with
    | Some n => (trimEnd (slice line 0 n), trimStart (slice_from line n))
    | None => (trimEnd line, [])
    end in
  emit (DeliverData (firstN ++ CRLF)) >>
  (this, currentLine := match count with Some _ => SP :: lastN | None => lastN end) >>
  this, preferredBreakpoint := 0.

Definition line_length : em Z := gets (λ s, slen (currentLine s)).

Definition _reserveTokenSpace (resLength : Z) : em bool :=
  let fits margin := gets (λ s, slen (currentLine s) + resLength <=? margin s) in
  let! soft := fits softMargin in
  if soft : bool then ret true
  else
    let! pb := gets preferredBreakpoint in
    let! soft := (if 0 <? pb then _commitLine (Some pb) >> fits softMargin else ret false) in
    if soft : bool then ret true
    else
      let! hard := fits hardMargin in
      if hard : bool then ret true
      else
        let! n := line_length in
        when (0 <? n) (_commitLine (Some n)) >>
        fits hardMargin.

(** ** Text *)

(** [text[text.length - 1]]. *)
Definition last_char (s : jsstr) : option Z := last s.

Definition addText (text : jsstr) (mayBreakAfter : bool) : em unit :=
  let! ok := _reserveTokenSpace (slen text) in
  if negb ok then throw
  else
    (this, currentLine ::= (λ l, l ++ text)) >>
    when mayBreakAfter
      (modify (λ s, s <| preferredBreakpoint := slen (currentLine s) |>) >>
       when (negb (bool_decide (last_char text = Some SP))) (this, currentLine ::= (λ l, l ++ [SP]))).

(** Starts and ends with a quote. *)
Definition seems_quoted (text : jsstr) : bool :=
  bool_decide (head text = Some QUOTE) && bool_decide (last_char text = Some QUOTE).

Definition needsQuote (text qchars : jsstr) : bool :=
  negb (seems_quoted text) && negb (qchars ==s []) && existsb (λ c, bool_decide (c ∈ qchars)) text.

Definition addQuotable (text qchars : jsstr) (mayBreakAfter : bool) : em unit :=
  if slen text =? 0 then skip
  else addText (if needsQuote text qchars then [QUOTE] ++ escape text ++ [QUOTE] else text) mayBreakAfter.

(** [replace(/[ \t\r\n]+/g, " ")]. *)
Fixpoint collapse (s : jsstr) : jsstr :=
  match s with
  | c :: s' =>
      if wsp c then match s' with d :: _ => if wsp d then collapse s' else SP :: collapse s' | [] => [SP] end
      else c :: collapse s'
  | [] => []
  end.

Definition nonAscii (s : jsstr) : bool := existsb (λ c, negb ((0x20 <=? c) && (c <=? 0x7e))) s.

(** [lastIndexOf] of a character. *)
Fixpoint lastIndexOf (s : jsstr) (x : Z) : Z :=
  match s with
  | c :: s' =>
      let k := lastIndexOf s' x in
      if 0 <=? k then k + 1 else if c =? x then 0 else -1
  | [] => -1
  end.

(** The words of a phrase; the last one may break as the phrase does. *)
Fixpoint addWords (words : list jsstr) (qchars : jsstr) (mayBreakAfter : bool) : em unit :=
  match words with
  | [] => skip
  | [w] => addQuotable w qchars mayBreakAfter
  | w :: words' => addQuotable w qchars true >> addWords words' qchars mayBreakAfter
  end.

(** ** Encoded words *)

Definition b64Prelude : jsstr := js "=?UTF-8?B?".
Definition qpPrelude : jsstr := js "=?UTF-8?Q?".

Definition qpForbidden : jsstr := QUOTE :: js "#$%&'(),.:;<=>?@[\]^_`{|}~".

Definition hexString : jsstr := js "0123456789ABCDEF".

Definition hex_char (n : Z) : Z := nth (Z.to_nat n) hexString 0.

(** A byte that quoted-printable writes in hexadecimal. *)
Definition qp_encoded (b : Z) : bool := (b <? 0x20) || (0x7f <=? b) || bool_decide (b ∈ qpForbidden).

Definition qp_text (b : Z) : jsstr :=
  if qp_encoded b then [61; hex_char (Z.shiftr (Z.land b 0xf0) 4); hex_char (Z.land b 0x0f)]
  else if b =? SP then js "_" else [b].

Definition rfc2047_word (encodedText : list Z) (useQP : bool) : jsstr :=
  if useQP then qpPrelude ++ flat_map qp_text encodedText ++ js "?="
  else b64Prelude ++ btoa (typedArrayToString encodedText) ++ js "?=".

Definition _addRFC2047Word (encodedText : list Z) (useQP mayBreakAfter : bool) : em unit :=
  addText (rfc2047_word encodedText useQP) mayBreakAfter.

(** [while ((encodedText[i] & 0xc0) == 0x80) --i]. *)
Fixpoint char_start (encodedText : list Z) (i : nat) : Z :=
  if continuation_byte (nth i encodedText 0) then
    match i with S i' => char_start encodedText i' | O => -1 end
  else Z.of_nat i.

(** The loop; the result is the part that is left, and whether it is to be
    quoted-printable. *)
Fixpoint encode_loop (fuel : nat) (encodedText : list Z) (i start b64Len qpLen maxChars : Z) : em (list Z * bool) :=
  match fuel with
  | O => throw
  | S fuel' =>
      if slen encodedText <=? i then ret (slice_from encodedText start, qpLen <=? b64Len)
      else
        let b64Inc := if (i - start) mod 3 =? 0 then 4 else 0 in
        let qpInc := if qp_encoded (nth (Z.to_nat i) encodedText 0) then 3 else 1 in
        if (maxChars <? b64Len + b64Inc) && (maxChars <? qpLen + qpInc) then
          let i := char_start encodedText (Z.to_nat i) in
          _addRFC2047Word (slice encodedText start i) (qpLen <=? b64Len) true >>
          let! soft := gets softMargin in
          encode_loop fuel' encodedText i i 0 0 (soft - slen b64Prelude - 3)
        else encode_loop fuel' encodedText (i + 1) start (b64Len + b64Inc) (qpLen + qpInc) maxChars
  end.

(** A pass over the bytes for each place where the loop may start again. *)
Definition encode_fuel (encodedText : list Z) : nat := S (S (length encodedText)) * S (S (length encodedText)).

Section Emitter.
Context `{TextEncoder} `{TimeZone}.

Definition encodeRFC2047Phrase (text : jsstr) (mayBreakAfter : bool) : em unit :=
  let encodedText := encode text in
  let minLineLen := slen b64Prelude + 10 in
  let! ok := _reserveTokenSpace minLineLen in
  when (negb ok) (let! n := line_length in _commitLine (Some n)) >>
  let! maxChars := gets (λ s, softMargin s - slen (currentLine s) - (slen b64Prelude + 2)) in
  let! r := encode_loop (encode_fuel encodedText) encodedText 0 0 0 0 maxChars in
  _addRFC2047Word r.1 r.2 mayBreakAfter.

(** ** Phrases *)

Definition addPhrase (text qchars : jsstr) (mayBreakAfter : bool) : em unit :=
  let text := collapse text in
  let! useASCII := gets useASCII in
  if useASCII && nonAscii text then encodeRFC2047Phrase text mayBreakAfter
  else
    let words := addWords (split_on SP text) qchars mayBreakAfter in
    let! short := gets (λ s, slen (currentLine s) + slen text <? softMargin s) in
    if short : bool then
      catch
        (addQuotable text qchars mayBreakAfter >>
         let! s := gets id in
         when ((preferredBreakpoint s =? 0) && bool_decide (SP ∈ text)
               && negb (bool_decide (last_char (currentLine s) = Some QUOTE)))
           (this, preferredBreakpoint := lastIndexOf (currentLine s) SP))
        words
    else words.

Definition addUnstructured (text : jsstr) : em unit :=
  if slen text =? 0 then skip else addPhrase text [] false.

(** ** Addresses *)

Record mailbox := mkMailbox { name : jsstr; email : jsstr }.

(** An element of an address list: an address, or a group of them. *)
Inductive address := Mailbox (m : mailbox) | Group (name : jsstr) (group : list mailbox).

(** The characters that a name and a local part cannot have outside of quotes. *)
Definition name_qchars : jsstr := js ",()<>[]:;@." ++ [QUOTE].
Definition local_qchars : jsstr := js "()<>[]:;@\," ++ [QUOTE] ++ js " !".

Definition addAddress (addr : mailbox) : em unit :=
  let add_email :=
    let at_ := lastIndexOf (email addr) 64 in
    let localpart := if at_ =? -1 then email addr else slice (email addr) 0 at_ in
    let domain := if at_ =? -1 then [] else slice_from (email addr) at_ in
    addQuotable localpart local_qchars false >>
    addText (domain ++ (if str_truthy (name addr) then js ">" else [])) false in
  if str_truthy (name addr) then
    (let! _ok := _reserveTokenSpace (slen (name addr) + slen (email addr) + 3) in skip) >>
    addPhrase (name addr) name_qchars true >>
    if negb (str_truthy (email addr)) then skip
    else addText (js "<") false >> add_email
  else add_email.

(** The elements of a list, with commas between them. *)
Fixpoint add_list {A} (add : A → em unit) (needsComma : bool) (l : list A) : em unit :=
  match l with
  | [] => skip
  | a :: l' => when needsComma (addText (js ", ") true) >> add a >> add_list add true l'
  end.

Definition addAddress_or_group (addr : address) : em unit :=
  match addr with
  | Mailbox m => addAddress m
  | Group n members =>
      addPhrase n name_qchars false >> addText (js ":") true >>
      add_list addAddress false members >> addText (js ";") true
  end.

Definition addAddresses (addresses : list address) : em unit :=
  add_list addAddress_or_group false addresses.

(** ** Headers *)

Definition addDate (date : num) : em unit :=
  let! sanitize := gets sanitizeDate in
  match date_text sanitize date with
  | Some text => addText text false
  | None => throw
  end.

Definition addHeaderName (headerName : jsstr) : em unit :=
  (this, currentLine ::= trimEnd) >>
  let! n := line_length in
  when (0 <? n) (_commitLine None) >>
  addText (headerName ++ js ": ") false.

(** A structured value: a string, addresses, a date, or the names of groups. *)
Inductive header_value :=
  | VText (s : jsstr)
  | VAddresses (l : list address)
  | VDate (date : num)
  | VNewsgroups (l : list jsstr).

Inductive encoder := writeAddress | writeUnstructured | writeDate | writeNewsgroups.

(** The encoders and their spellings. *)
Definition encoders : list (jsstr * encoder) :=
  map (λ h, (h, writeAddress))
    [js "Bcc"; js "Cc"; js "From"; js "Reply-To"; js "Resent-Bcc"; js "Resent-Cc"; js "Resent-From";
     js "Resent-Reply-To"; js "Resent-Sender"; js "Resent-To"; js "Sender"; js "To"; js "Approved";
     js "Disposition-Notification-To"; js "Delivered-To"; js "Return-Receipt-To"; js "Mail-Reply-To";
     js "Mail-Followup-To"]
  ++ map (λ h, (h, writeUnstructured))
    [js "Comments"; js "Keywords"; js "Subject"; js "MIME-Version"; js "Content-Description"; js "User-Agent";
     js "Message-ID"; js "Resent-Message-ID"; js "Content-Transfer-Encoding"]
  ++ map (λ h, (h, writeDate))
    [js "Date"; js "Resent-Date"; js "Expires"; js "Injection-Date"; js "NNTP-Posting-Date"]
  ++ map (λ h, (h, writeNewsgroups)) [js "Newsgroups"; js "Followup-To"].

(** The spelling and the encoder of a name in lower case. *)
Fixpoint find_encoder (lowerName : jsstr) (l : list (jsstr * encoder)) : option (jsstr * encoder) :=
  match l with
  | p :: l' => if toLowerCase p.1 ==s lowerName then Some p else find_encoder lowerName l'
  | [] => None
  end.

Definition emitNewsgroups (groups : list jsstr) : em unit :=
  match groups with
  | [] => throw
  | g :: groups' =>
      addText g false >> for_each groups' (λ g, addText (js ",") false >> addText g false)
  end.

(** An encoder on a value; on a value of another kind it throws for want of a method
    or property, but for arrays and strings that are empty or used as arrays.  Arrays
    of addresses are not given to [emitNewsgroups]. *)
Definition encode_value (e : encoder) (value : header_value) : em unit :=
  match e, value with
  | writeAddress, VAddresses l => addAddresses l
  | writeAddress, VNewsgroups [] => skip
  | writeUnstructured, VText s => addUnstructured s
  | writeUnstructured, (VAddresses [] | VNewsgroups []) => skip
  | writeDate, VDate d => addDate d
  | writeNewsgroups, VNewsgroups l => emitNewsgroups l
  | writeNewsgroups, VText s => emitNewsgroups (map (λ c, [c]) s)
  | _, _ => throw
  end.

(** [replace(/(^|-)[a-z]/g, ...)]: capital letters at the start and after dashes. *)
Fixpoint capitalize (here : bool) (s : jsstr) : jsstr :=
  match s with
  | c :: s' => (if here && (97 <=? c) && (c <=? 122) then c - 32 else c) :: capitalize (c =? 45) s'
  | [] => []
  end.

Definition addStructuredHeader (headerName : jsstr) (value : header_value) : em unit :=
  match find_encoder (toLowerCase headerName) encoders with
  | Some (spelling, e) => addHeaderName spelling >> encode_value e value
  | None =>
      match value with
      | VText s => addHeaderName (capitalize true headerName) >> addUnstructured s
      | _ => throw
      end
  end.

Definition finish (deliverEOF : bool) : em unit :=
  _commitLine None >> when deliverEOF (emit DeliverEOF).

(** What the handler of [emitStructuredHeader] keeps. *)
Definition delivered (o : list output) : jsstr :=
  concat (map (λ e, match e with DeliverData d => d | DeliverEOF => [] end) o).

(** The text a program of the emitter delivers, when it returns. *)
Definition emit_with (o : options) (m : em unit) : option jsstr :=
  let '(_, out, r) := (m >> finish true) (new_emitter o) in
  match r with Some _ => Some (delivered out) | None => None end.

Definition emitStructuredHeader (headerName : jsstr) (value : header_value) (o : options) : option jsstr :=
  emit_with o (addStructuredHeader headerName value).

Definition emitStructuredHeaders (headerValues : list (jsstr * list header_value)) (o : options) : option jsstr :=
  emit_with o (for_each headerValues (λ p, for_each p.2 (λ e, addStructuredHeader p.1 e))).
End Emitter.

(** [split(/\s*,\s*/)]: the white space around the commas goes. *)
Fixpoint trim_pieces (first : bool) (l : list jsstr) : list jsstr :=
  match l with
  | [] => []
  | [p] => [if first then p else trimStart p]
  | p :: l' => trimEnd (if first then p else trimStart p) :: trim_pieces false l'
  end.

Definition parseNewsgroups (headers : list jsstr) : list jsstr :=
  flat_map (λ header, trim_pieces true (split_on 44 header)) headers.
