(* ===== verification/Utf8.v ===== *)
(** * Utf8: an encoder of text

    The encoder that the platform has, as its standard defines it: the UTF-8 of a
    string of UTF-16 units, in which a unit that is no character stands for U+FFFD.
    The theorems about the emitter are for any [TextEncoder]; their witnesses use
    this one. *)

From S2P Require Import Prelude Effects MimeUtils HeaderEmitter.

Definition is_high (c : Z) : bool := (0xD800 <=? c) && (c <=? 0xDBFF).
Definition is_low (c : Z) : bool := (0xDC00 <=? c) && (c <=? 0xDFFF).

(** A unit that stands for itself, and one that does not. *)
Definition scalar (c : Z) : Z := if (0 <=? c) && (c <? 0x10000) && negb (is_high c) && negb (is_low c) then c else 0xFFFD.

Fixpoint code_points (s : jsstr) : list Z :=
  match s with
  | a :: s1 =>
      match s1 with
      | b :: s2 =>
          if is_high a && is_low b then 0x10000 + (a - 0xD800) * 1024 + (b - 0xDC00) :: code_points s2
          else scalar a :: code_points s1
      | [] => [scalar a]
      end
  | [] => []
  end.

Definition utf8_char (c : Z) : list Z :=
  if c <? 0x80 then [c]
  else if c <? 0x800 then [0xC0 + c / 64; 0x80 + c mod 64]
  else if c <? 0x10000 then [0xE0 + c / 4096; 0x80 + c / 64 mod 64; 0x80 + c mod 64]
  else [0xF0 + c / 262144; 0x80 + c / 4096 mod 64; 0x80 + c / 64 mod 64; 0x80 + c mod 64].

Definition utf8_encode (s : jsstr) : list Z := concat (map utf8_char (code_points s)).

Lemma code_points_range n s : (length s ≤ n)%nat → Forall (λ c, 0 <= c < 0x110000) (code_points s).
Proof.
  assert (Hs : ∀ c, 0 <= scalar c < 0x110000).
  { intros c. unfold scalar. destruct (Z.leb_spec 0 c), (Z.ltb_spec c 0x10000); cbn; try lia; repeat case_match; lia. }
  revert s. induction n as [|n IH]; intros [|a [|b s]] Hl; cbn [length] in Hl; try lia; try (by constructor); try (constructor; [apply Hs|constructor]).
  cbn [code_points]. destruct (is_high a && is_low b) eqn:E.
  - constructor; [|apply IH; lia]. unfold is_high, is_low in E. lia.
  - constructor; [done|]. apply (IH (b :: s)). cbn. lia.
Qed.

Lemma continuation_range b : 0x80 <= b < 0xC0 → continuation_byte b = true.
Proof.
  intros Hb. pose proof (below_forall (λ b, continuation_byte (0x80 + b)) 64 ltac:(by vm_compute) (b - 0x80)) as H.
  cbn beta in H. replace (0x80 + (b - 0x80)) with b in H by lia. apply H. lia.
Qed.

Lemma leading_low b : 0 <= b < 0x80 → continuation_byte b = false.
Proof.
  intros Hb. apply negb_true_iff. pose proof (below_forall (λ b, negb (continuation_byte b)) 128 ltac:(by vm_compute) b) as H.
  cbn beta in H. apply H. lia.
Qed.

Lemma leading_high b : 0xC0 <= b < 0x100 → continuation_byte b = false.
Proof.
  intros Hb. apply negb_true_iff.
  pose proof (below_forall (λ b, negb (continuation_byte (0xC0 + b))) 64 ltac:(by vm_compute) (b - 0xC0)) as H.
  cbn beta in H. replace (0xC0 + (b - 0xC0)) with b in H by lia. apply H. lia.
Qed.

Lemma utf8_char_chars c cs : 0 <= c < 0x110000 → utf8_chars cs → utf8_chars (utf8_char c :: cs).
Proof.
  intros Hc Hcs.
  assert (Hcont : ∀ d, 0x80 + d mod 64 < 0xC0 ∧ 0x80 <= 0x80 + d mod 64) by (intros d; pose proof (Z.mod_pos_bound d 64); lia).
  assert (Hcb : ∀ d, continuation_byte (0x80 + d mod 64) = true) by (intros d; apply continuation_range; specialize (Hcont d); lia).
  assert (Hby : ∀ d, 0 <= 0x80 + d mod 64 < 256) by (intros d; specialize (Hcont d); lia).
  unfold utf8_char. destruct (Z.ltb_spec c 0x80).
  { apply utf8_cons; [cbn; lia|apply leading_low; lia|constructor|by constructor; [lia|]|done]. }
  assert (Hdiv : 0 <= c / 64 ∧ 0 <= c / 4096 ∧ 0 <= c / 262144 < 5 ∧ (c < 0x800 → c / 64 < 32) ∧ (c < 0x10000 → c / 4096 < 16)).
  { Z.to_euclidean_division_equations; lia. }
  destruct (Z.ltb_spec c 0x800); [|destruct (Z.ltb_spec c 0x10000)];
    (apply utf8_cons; [cbn; lia|apply leading_high; lia|rewrite !Forall_cons; by split_and!|rewrite !Forall_cons; split_and!; try apply Hby; try done; lia|done]).
Qed.

#[export] Instance utf8 : TextEncoder.
Proof.
  refine {| encode := utf8_encode |}. intros s. exists (map utf8_char (code_points s)). split; [|done].
  induction (code_points_range (length s) s ltac:(done)) as [|c l Hc _ IH]; [constructor|]. by apply utf8_char_chars.
Defined.
