(* ===== verification/EmitterLines.v ===== *)
(** * EmitterLines: the lines that the emitter delivers

    What [trimEnd] does to joined strings; the invariant of the emitter's line; and
    the theorem that every line it delivers keeps within the hard margin, whatever
    it is asked to write. *)

From S2P Require Import Prelude Effects MimeUtils MimeHeaders HeaderTokens DateHeaders HeaderEmitter.

(** ** Strings *)

Lemma slen_nonneg s : 0 <= slen s.
Proof. unfold slen. lia. Qed.

Lemma slen_cons c s : slen (c :: s) = 1 + slen s.
Proof. unfold slen. cbn [length]. lia. Qed.

Lemma trimStart_app s t : trimStart (s ++ t) = if forallb is_space s then trimStart t else trimStart s ++ t.
Proof. induction s as [|c s IH]; [done|]. cbn. by destruct (is_space c). Qed.

Lemma forallb_rev {A} (p : A → bool) l : forallb p (rev l) = forallb p l.
Proof.
  induction l as [|a l IH]; [done|]. cbn. rewrite forallb_app, IH. cbn.
  by destruct (p a), (forallb p l).
Qed.

Lemma trimEnd_app s t : trimEnd (s ++ t) = if forallb is_space t then trimEnd s else s ++ trimEnd t.
Proof.
  unfold trimEnd. rewrite rev_app_distr, trimStart_app, forallb_rev.
  destruct (forallb is_space t); [done|]. by rewrite rev_app_distr, rev_involutive.
Qed.

Lemma trimStart_suffix s : ∃ w, s = w ++ trimStart s ∧ forallb is_space w = true.
Proof.
  induction s as [|c s (w & Hs & Hw)]; [by exists []|]. cbn. destruct (is_space c) eqn:Hc.
  - exists (c :: w). cbn. by rewrite <- Hs, Hc, Hw.
  - by exists [].
Qed.

Lemma trimEnd_prefix s : ∃ w, s = trimEnd s ++ w ∧ forallb is_space w = true.
Proof.
  destruct (trimStart_suffix (rev s)) as (w & Hs & Hw). exists (rev w). unfold trimEnd.
  rewrite <- rev_app_distr, <- Hs, rev_involutive. by rewrite forallb_rev.
Qed.

Lemma trimStart_blank s : forallb is_space s = true → trimStart s = [].
Proof. induction s as [|c s IH]; [done|]. cbn. by destruct (is_space c). Qed.

Lemma trimEnd_blank s : forallb is_space s = true → trimEnd s = [].
Proof. intros Hs. unfold trimEnd. by rewrite trimStart_blank by (by rewrite forallb_rev). Qed.

Lemma slen_trimEnd s : slen (trimEnd s) <= slen s.
Proof.
  destruct (trimEnd_prefix s) as (w & Hs & _). rewrite Hs at 2. rewrite slen_app.
  pose proof (slen_nonneg w). lia.
Qed.

Lemma slen_trimStart s : slen (trimStart s) <= slen s.
Proof.
  destruct (trimStart_suffix s) as (w & Hs & _). rewrite Hs at 2. rewrite slen_app.
  pose proof (slen_nonneg w). lia.
Qed.

(** The two parts of a line at a position. *)
Lemma split_at s n : 0 <= n → ∃ a b, s = a ++ b ∧ slice s 0 n = a ∧ slice_from s n = b ∧ (slen a = n ∨ b = [] ∧ slen s <= n).
Proof.
  intros Hn. exists (take (Z.to_nat n) s), (drop (Z.to_nat n) s). split; [by rewrite take_drop|].
  rewrite <- slice_0_take, <- slice_from_drop, Z2Nat.id by done. split_and!; [done..|].
  rewrite <- (Z2Nat.id n), slice_0_take, slice_from_drop, Z2Nat.id by done. unfold slen. destruct (decide (Z.to_nat n ≤ length s)%nat).
  - left. rewrite length_take. lia.
  - right. rewrite drop_ge by lia. split; [done|lia].
Qed.

(** ** Breaking the line *)

Lemma commit_run n s :
  _commitLine (Some n) s
  = (s <| currentLine := SP :: trimStart (slice_from (currentLine s) n) |> <| preferredBreakpoint := 0 |>,
     [DeliverData (trimEnd (slice (currentLine s) 0 n) ++ CRLF)], Some tt).
Proof. done. Qed.

Lemma commit_end_run s :
  _commitLine None s
  = (s <| currentLine := [] |> <| preferredBreakpoint := 0 |>, [DeliverData (trimEnd (currentLine s) ++ CRLF)], Some tt).
Proof. done. Qed.

(** A relation that a break establishes. *)
Definition break_rel (R : emitter → list output → emitter → Prop) (n : Z) (s : emitter) : Prop :=
  let '(s', o, _) := _commitLine (Some n) s in R s o s'.

(** Reserving space breaks the line, at the preferred breakpoint or its end or both;
    it tells whether there is room, and there is if a new line has it. *)
Lemma reserve_spec (R : emitter → list output → emitter → Prop) `{!TraceRel R} n s :
  (∀ s, 0 < preferredBreakpoint s → break_rel R (preferredBreakpoint s) s) →
  (∀ s, 0 < slen (currentLine s) → break_rel R (slen (currentLine s)) s) →
  ∃ s' o b, _reserveTokenSpace n s = (s', o, Some b) ∧ R s o s' ∧
    softMargin s' = softMargin s ∧ hardMargin s' = hardMargin s ∧
    (b = true → slen (currentLine s') + n <= Z.max (softMargin s) (hardMargin s)) ∧
    (b = false → softMargin s < slen (currentLine s) + n ∧ hardMargin s < 1 + n).
Proof.
  intros Hpb Hlen. unfold _reserveTokenSpace, line_length.
  assert (Hend : ∀ s, ∃ s' o b, (let! hard := gets (λ s, slen (currentLine s) + n <=? hardMargin s) in
      if hard : bool then ret true
      else let! k := gets (λ s, slen (currentLine s)) in
           when (0 <? k) (_commitLine (Some k)) >> gets (λ s, slen (currentLine s) + n <=? hardMargin s)) s
      = (s', o, Some b) ∧ R s o s' ∧ softMargin s' = softMargin s ∧ hardMargin s' = hardMargin s ∧
      (b = true → slen (currentLine s') + n <= hardMargin s) ∧ (b = false → hardMargin s < 1 + n)).
  { clear s. intros s. rewrite bind_gets. destruct (Z.leb_spec (slen (currentLine s) + n) (hardMargin s)).
    { exists s, [], true. split_and!; [done|apply trace_refl|done..]. }
    rewrite bind_gets. destruct (Z.ltb_spec 0 (slen (currentLine s))) as [Hl|Hl].
    - specialize (Hlen s Hl). unfold break_rel in Hlen. rewrite commit_run in Hlen. cbn [when].
      unfold bind. rewrite commit_run. unfold gets. eexists _, _, _. split_and!; [done|exact Hlen|done|done|by intros ?%Z.leb_le|].
      intros Hb%Z.leb_gt. revert Hb. unfold slice_from, slen. rewrite slice_nonneg by lia.
      rewrite drop_ge by lia. rewrite take_nil. cbn. lia.
    - cbn [when]. unfold skip. rewrite bind_ret_l. unfold gets. exists s, [], (slen (currentLine s) + n <=? hardMargin s).
      split_and!; [done|apply trace_refl|done|done|by intros ?%Z.leb_le|]. intros ?%Z.leb_gt.
      pose proof (Nat2Z.is_nonneg (length (currentLine s))). unfold slen in *. lia. }
  rewrite bind_gets. destruct (Z.leb_spec (slen (currentLine s) + n) (softMargin s)).
  { exists s, [], true. split_and!; [done|apply trace_refl|done|done|lia|done]. }
  rewrite bind_gets. destruct (Z.ltb_spec 0 (preferredBreakpoint s)) as [Hp|Hp].
  - specialize (Hpb s Hp). unfold break_rel in Hpb. rewrite commit_run in Hpb. rewrite bind_assoc.
    unfold bind at 1. rewrite commit_run. rewrite bind_gets. set (s1 := s <| currentLine := _ |> <| preferredBreakpoint := 0 |>) in *.
    destruct (Z.leb_spec (slen (currentLine s1) + n) (softMargin s1)).
    { eexists s1, _, true. split_and!; [done|exact Hpb|done|done|cbn in *; lia|done]. }
    destruct (Hend s1) as (s' & o & b & -> & HR & Hs1 & Hs2 & Hb1 & Hb2).
    eexists s', _, b. split_and!; [done|by eapply trace_trans|done|done|intros Hb; specialize (Hb1 Hb); cbn in *; lia|auto].
  - rewrite bind_ret_l. destruct (Hend s) as (s' & o & b & -> & HR & Hs1 & Hs2 & Hb1 & Hb2).
    exists s', o, b. split_and!; [done..|intros Hb; specialize (Hb1 Hb); lia|auto].
Qed.

(** ** The invariant *)

Record within (h : Z) (s : emitter) : Prop := {
  within_hard : hardMargin s = h;
  within_soft : softMargin s <= h;
  within_pos : 0 <= h;
  within_line : slen (currentLine s) <= h + 1;
  within_trim : slen (trimEnd (currentLine s)) <= h;
  within_pb : preferredBreakpoint s <= h
}.

(** A line within the margin. *)
Definition line_within (h : Z) (e : output) : Prop :=
  match e with
  | DeliverData d => ∃ line, d = line ++ CRLF ∧ slen line <= h
  | DeliverEOF => True
  end.

Section Within.
Context (h : Z).

Lemma within_commit n s :
  within h s → (0 < n <= h ∨ n = slen (currentLine s)) →
  let '(s', o, r) := _commitLine (Some n) s in within h s' ∧ Forall (line_within h) o ∧ r = Some tt.
Proof.
  intros [Hh Hs Hp Hl Ht Hb] Hn. rewrite commit_run. pose proof (slen_nonneg (currentLine s)) as H0.
  destruct (split_at (currentLine s) n) as (a & b & Hab & -> & -> & Hlen); [lia|].
  assert (Hb0 : b = [] ∨ 0 < n ∧ slen a = n ∧ n <= h).
  { destruct Hlen as [Ha|[-> _]]; [|by left]. destruct Hn as [Hn | ->]; [right; lia|]. left.
    rewrite Hab, slen_app in Ha. destruct b; [done|]. rewrite slen_cons in Ha. pose proof (slen_nonneg b). lia. }
  rewrite Hab, ?slen_app, ?trimEnd_app in *. split_and!; [split; cbn -[slen trimEnd trimStart]; try done| |done].
  - rewrite slen_cons. destruct Hb0 as [-> | (? & ? & ?)]; [by change (1 + 0 <= h + 1); lia|]. pose proof (slen_trimStart b). lia.
  - change (SP :: trimStart b) with ([SP] ++ trimStart b). rewrite trimEnd_app.
    destruct (forallb is_space (trimStart b)) eqn:Eb; [by cbn|]. rewrite slen_app.
    destruct Hb0 as [-> | (? & ? & ?)]; [done|]. destruct (trimStart_suffix b) as (w & Hw & Hws).
    assert (forallb is_space b = false) as Hnb by (rewrite Hw, forallb_app, Hws, Eb; done). rewrite Hnb in Ht.
    rewrite slen_app in Ht. rewrite Hw, trimEnd_app, Eb, slen_app in Ht. change (slen [SP]) with 1.
    pose proof (slen_nonneg w). lia.
  - constructor; [|done]. exists (trimEnd a). split; [done|].
    destruct Hb0 as [-> | (? & ? & ?)]; [by cbn in Ht|]. pose proof (slen_trimEnd a). lia.
Qed.

Lemma within_commit_end s :
  within h s → let '(s', o, r) := _commitLine None s in within h s' ∧ Forall (line_within h) o ∧ r = Some tt.
Proof.
  intros [Hh Hs Hp Hl Ht Hb]. rewrite commit_end_run. split_and!; [split; cbn -[slen trimEnd]; try done; change (slen (trimEnd [])) with 0; change (slen []) with 0; lia| |done].
  constructor; [|done]. by exists (trimEnd (currentLine s)).
Qed.

(** The relation of [safe_from (within h) (line_within h)]. *)
Definition keeps_within (s : emitter) (o : list output) (s' : emitter) : Prop :=
  within h s → within h s' ∧ Forall (line_within h) o.

#[export] Instance keeps_within_trace : TraceRel keeps_within.
Proof.
  split; [done|]. intros s1 o1 s2 o2 s3 H1 H2 Hs. destruct (H1 Hs) as [Hs2 Ho1].
  destruct (H2 Hs2) as [Hs3 Ho2]. split; [done|]. by apply Forall_app.
Qed.

Lemma reserve_within n s :
  within h s → ∃ s' o b, _reserveTokenSpace n s = (s', o, Some b) ∧ within h s' ∧ Forall (line_within h) o ∧
    (b = true → slen (currentLine s') + n <= h).
Proof.
  intros Hs. destruct (reserve_spec keeps_within n s) as (s' & o & b & Hr & HR & _ & _ & Hb & _).
  - intros s1 Hp. unfold break_rel. rewrite commit_run. intros Hs1.
    pose proof (within_commit (preferredBreakpoint s1) s1 Hs1) as Hc. rewrite commit_run in Hc.
    destruct Hc as (? & ? & _); [left; split; [done|apply Hs1]|done].
  - intros s1 Hp. unfold break_rel. rewrite commit_run. intros Hs1.
    pose proof (within_commit (slen (currentLine s1)) s1 Hs1) as Hc. rewrite commit_run in Hc.
    destruct Hc as (? & ? & _); [by right|done].
  - destruct (HR Hs) as [Hs' Ho]. exists s', o, b. split_and!; [done..|]. intros Hbt.
    specialize (Hb Hbt). pose proof (within_hard h s Hs). pose proof (within_soft h s Hs). lia.
Qed.

Abbreviation safe := (safe_from (within h) (line_within h)).

Lemma safe_reserve n : safe (_reserveTokenSpace n).
Proof. intros s Hs. by destruct (reserve_within n s Hs) as (s' & o & b & -> & ? & ? & _). Qed.

Lemma safe_commit_length : safe (let! n := line_length in _commitLine (Some n)).
Proof.
  intros s Hs. unfold line_length. rewrite bind_gets. pose proof (within_commit (slen (currentLine s)) s Hs) as Hc.
  rewrite commit_run in *. destruct Hc as (? & ? & _); [by right|done].
Qed.

Lemma safe_commit_end : safe (_commitLine None).
Proof. intros s Hs. pose proof (within_commit_end s Hs) as Hc. rewrite commit_end_run in *. by destruct Hc as (? & ? & _). Qed.

Lemma within_text s t pb :
  within h s → slen (currentLine s) + slen t <= h → pb = preferredBreakpoint s ∨ pb = slen (currentLine s ++ t) →
  within h (s <| currentLine := currentLine s ++ t |> <| preferredBreakpoint := pb |>) ∧
  within h (s <| currentLine := (currentLine s ++ t) ++ [SP] |> <| preferredBreakpoint := pb |>).
Proof.
  intros [Hh Hs Hp Hl Ht Hb] Hlen Hpb. assert (pb <= h) by (destruct Hpb as [-> | ->]; rewrite ?slen_app; lia).
  pose proof (slen_trimEnd (currentLine s ++ t)) as Htt.
  assert (trimEnd ((currentLine s ++ t) ++ [SP]) = trimEnd (currentLine s ++ t)) as Htr by (by rewrite trimEnd_app).
  split; split; cbn -[slen trimEnd]; rewrite ?Htr, ?slen_app in *; change (slen [SP]) with 1; lia || done.
Qed.

Lemma safe_addText text mayBreakAfter : safe (addText text mayBreakAfter).
Proof.
  intros s Hs. unfold addText. unfold bind at 1.
  destruct (reserve_within (slen text) s Hs) as (s' & o & b & -> & Hs' & Ho & Hb).
  destruct b; cbn [negb]; [|unfold throw; by rewrite app_nil_r]. specialize (Hb eq_refl).
  rewrite bind_modify. destruct mayBreakAfter; cbn [when].
  - rewrite bind_modify. destruct (within_text s' text (slen (currentLine s' ++ text)) Hs' Hb) as [H1 H2]; [by right|].
    destruct (negb _); cbn [when]; unfold skip, ret, modify; rewrite app_nil_r; by split.
  - unfold skip, ret. rewrite app_nil_r. split; [|done].
    destruct (within_text s' text (preferredBreakpoint s') Hs' Hb) as [H1 _]; [by left|]. by destruct s'.
Qed.

Lemma safe_addQuotable text qchars b : safe (addQuotable text qchars b).
Proof. unfold addQuotable. case_match; [apply safe_skip|apply safe_addText]. Qed.

Lemma safe_addWords words qchars b : safe (addWords words qchars b).
Proof.
  induction words as [|w [|w' words] IH]; [apply safe_skip|apply safe_addQuotable|].
  apply safe_bind; [apply safe_addQuotable|done].
Qed.

Lemma safe_encode_loop fuel enc i start b q m : safe (encode_loop fuel enc i start b q m).
Proof.
  revert i start b q m. induction fuel as [|fuel IH]; intros i start b q m; cbn [encode_loop]; [apply safe_throw|].
  case_match; [apply safe_ret|]. cbv zeta. case_match; [|apply IH].
  apply safe_bind; [apply safe_addText|]. intros _. apply safe_bind; [apply safe_gets|]. intros soft. apply IH.
Qed.

Lemma lastIndexOf_range s c : -1 <= lastIndexOf s c < Z.max 1 (slen s) ∧ (s = [] → lastIndexOf s c = -1).
Proof.
  induction s as [|a s [IH _]]; [done|]. split; [|done]. cbn [lastIndexOf]. rewrite slen_cons.
  pose proof (slen_nonneg s). destruct (Z.leb_spec 0 (lastIndexOf s c)); [|destruct (a =? c); lia].
  assert (lastIndexOf s c < slen s ∨ slen s = 0) as [?|Hz] by lia; [lia|]. destruct s; [|rewrite slen_cons in Hz; pose proof (slen_nonneg s); lia].
  cbn in *. lia.
Qed.

Lemma safe_pb_space (P : emitter → bool) :
  safe (let! s := gets id in when (P s) (this, preferredBreakpoint := lastIndexOf (currentLine s) SP)).
Proof.
  intros s Hs. rewrite bind_gets. unfold id. destruct (P s); cbn [when]; [|exact (safe_skip (within h) (line_within h) s Hs)]. unfold modify. split; [|done].
  destruct Hs as [Hh Hs Hp Hl Ht Hb]. split; cbn -[slen trimEnd lastIndexOf]; try done.
  destruct (lastIndexOf_range (currentLine s) SP) as [H1 H2].
  destruct (currentLine s) as [|c l] eqn:E; [rewrite H2 by done; lia|].
  rewrite slen_cons in *. pose proof (slen_nonneg l). lia.
Qed.

Section Calls.
Context `{TextEncoder} `{TimeZone}.

Lemma safe_encodeRFC2047Phrase text b : safe (encodeRFC2047Phrase text b).
Proof.
  unfold encodeRFC2047Phrase. apply safe_bind; [apply safe_reserve|]. intros ok.
  apply safe_bind; [apply safe_when; intros _; apply safe_commit_length|]. intros _.
  apply safe_bind; [apply safe_gets|]. intros m. apply safe_bind; [apply safe_encode_loop|]. intros r. apply safe_addText.
Qed.

Lemma safe_addPhrase text qchars b : safe (addPhrase text qchars b).
Proof.
  unfold addPhrase. apply safe_bind; [apply safe_gets|]. intros u. case_match; [apply safe_encodeRFC2047Phrase|].
  apply safe_bind; [apply safe_gets|]. intros [|]; [|apply safe_addWords].
  apply safe_catch; [|apply safe_addWords]. apply safe_bind; [apply safe_addQuotable|]. intros _. apply safe_pb_space.
Qed.
#[local] Hint Resolve safe_reserve safe_commit_length safe_commit_end safe_addText safe_addQuotable safe_addPhrase : effdb.

Lemma safe_addAddress a : safe (addAddress a).
Proof. unfold addAddress. safe_walk ltac:(solve [auto with effdb nocore]). Qed.
#[local] Hint Resolve safe_addAddress : effdb.

Lemma safe_add_list {A} (add : A → em unit) b l : (∀ a, safe (add a)) → safe (add_list add b l).
Proof.
  intros Ha. revert b. induction l as [|a l IH]; intros b; cbn [add_list]; safe_walk ltac:(solve [auto with effdb nocore]).
Qed.

Lemma safe_addAddresses l : safe (addAddresses l).
Proof.
  apply safe_add_list. intros [m|n ms]; [apply safe_addAddress|]. unfold addAddress_or_group.
  safe_walk ltac:(solve [auto with effdb nocore]). apply safe_add_list, safe_addAddress.
Qed.
#[local] Hint Resolve safe_addAddresses : effdb.

Lemma safe_trim_line : safe (this, currentLine ::= trimEnd).
Proof.
  apply safe_modify. intros s [Hh Hs Hp Hl Ht Hb]. pose proof (slen_trimEnd (trimEnd (currentLine s))).
  split; cbn -[slen trimEnd]; lia || done.
Qed.

Lemma safe_addHeaderName n : safe (addHeaderName n).
Proof. unfold addHeaderName, line_length. safe_walk ltac:(first [apply safe_trim_line|solve [auto with effdb nocore]]). Qed.

Lemma safe_encode_value e v : safe (encode_value e v).
Proof.
  destruct e, v as [s|[|]|d|[|]]; cbn [encode_value]; unfold addUnstructured, addDate, emitNewsgroups;
    safe_walk ltac:(solve [auto with effdb nocore]).
Qed.

Lemma safe_addStructuredHeader n v : safe (addStructuredHeader n v).
Proof.
  unfold addStructuredHeader, addUnstructured.
  safe_walk ltac:(first [apply safe_addHeaderName|apply safe_encode_value|solve [auto with effdb nocore]]).
Qed.

Lemma safe_finish b : safe (finish b).
Proof. unfold finish. safe_walk ltac:(solve [auto with effdb nocore]). Qed.
End Calls.
End Within.

Lemma new_emitter_margins o : 30 <= softMargin (new_emitter o) <= hardMargin (new_emitter o) ∧ hardMargin (new_emitter o) <= 998.
Proof.
  unfold new_emitter. cbn [softMargin hardMargin].
  assert (Hc : ∀ v a b d, a <= d <= b → a <= clamp v a b d <= b).
  { intros [v|] a b d Hd; unfold clamp; [|done]. destruct (Z.ltb_spec v a), (Z.ltb_spec b v); lia. }
  pose proof (Hc (opt_softMargin o) 30 900 78) as Hs. set (soft := clamp _ 30 900 78) in *.
  pose proof (Hc (opt_hardMargin o) soft 998 998). lia.
Qed.

(** C24. Whatever headers are written, with any options and even when it throws, every
    line delivered keeps within the hard margin, at most 998 characters before CRLF. *)
Theorem header_lines_bounded `{TextEncoder} `{TimeZone} (headerValues : list (jsstr * list header_value)) o :
  let e := new_emitter o in
  let '(_, out, _) :=
    (for_each headerValues (λ p, for_each p.2 (λ v, addStructuredHeader p.1 v)) >> finish true) e in
  hardMargin e <= 998 ∧ Forall (line_within (hardMargin e)) out.
Proof.
  cbv zeta. pose proof (new_emitter_margins o) as [Hm1 Hm2]. set (h := hardMargin (new_emitter o)) in *.
  assert (within h (new_emitter o)) as Hw.
  {  split; [done|lia|lia|change (0 <= h + 1); lia|change (0 <= h); lia|change (0 <= h); lia]. }
  assert (safe_from (within h) (line_within h)
    (for_each headerValues (λ p, for_each p.2 (λ v, addStructuredHeader p.1 v)) >> finish true)) as Hsafe.
  { safe_walk ltac:(first [apply safe_addStructuredHeader|apply safe_finish]). }
  specialize (Hsafe _ Hw). destruct ((_ >> _) (new_emitter o)) as [[s' out] r]. by destruct Hsafe.
Qed.
