(* ===== verification/EmitterWords.v ===== *)
(** * EmitterWords: the encoded words that the emitter writes

    Each word is read back as its bytes; the loop of [encodeRFC2047Phrase] ends, cuts
    the UTF-8 of the text between characters and keeps its words short; the phrase is
    written whole, and without an error. *)

From S2P Require Import Prelude Effects MimeUtils MimeHeaders HeaderTokens DateHeaders HeaderEmitter Utf8 EmitterLines.

(** ** A word *)

Lemma typed_array_id s : typedArrayToString s = s.
Proof. apply chunk_loop_id; lia. Qed.

Lemma btoa_filter s :
  bytes s → filter (λ c, is_b64 c || (c =? 61) = true) (btoa s) = btoa s ∧ b64_text (btoa s) = true ∧ 63 ∉ btoa s.
Proof.
  intros Hs. destruct (btoa_shape s Hs) as (core & pad & -> & Hc & Hp & _).
  assert (Forall (λ c, is_b64 c || (c =? 61) = true) (core ++ pad)) as Hall.
  { apply Forall_app. split; [eapply Forall_impl; [done|]; by intros c ->|].
    destruct Hp as [->|[->| ->]]; by repeat constructor. }
  split_and!.
  - clear -Hall. induction Hall as [|c l Hc _ IH]; [done|]. by rewrite filter_cons_True, IH.
  - unfold b64_text. apply forallb_forall. intros c Hin%list_elem_of_In. rewrite Forall_forall in Hall.
    specialize (Hall c Hin). cbn beta in Hall. destruct (is_b64 c); [done|]. cbn [orb] in *.
    apply Z.eqb_eq in Hall as ->. by vm_compute.
  - intros Hin. rewrite Forall_forall in Hall. by specialize (Hall 63 Hin).
Qed.

(** Decoding a byte's quoted-printable text, with its underscores. *)
Definition underscores : jsstr → jsstr := map (λ c, if c =? 95 then SP else c).

Lemma qp_text_cases b :
  0 <= b < 256 →
  (qp_text b = [61; hex_char (Z.shiftr (Z.land b 0xf0) 4); hex_char (Z.land b 0x0f)] ∧
   hex_val (hex_char (Z.shiftr (Z.land b 0xf0) 4)) = Some (b / 16) ∧ hex_val (hex_char (Z.land b 0x0f)) = Some (b mod 16) ∧
   underscores (qp_text b) = qp_text b ∧ 63 ∉ qp_text b)
  ∨ (∃ c, qp_text b = [c] ∧ underscores [c] = [b] ∧ b ≠ 61 ∧ c ≠ 63).
Proof.
  intros Hb. pose (P := λ b,
    (bool_decide (qp_text b = [61; hex_char (Z.shiftr (Z.land b 0xf0) 4); hex_char (Z.land b 0x0f)] ∧
      hex_val (hex_char (Z.shiftr (Z.land b 0xf0) 4)) = Some (b / 16) ∧
      hex_val (hex_char (Z.land b 0x0f)) = Some (b mod 16) ∧ underscores (qp_text b) = qp_text b ∧ 63 ∉ qp_text b))
    || match qp_text b with [c] => bool_decide (underscores [c] = [b] ∧ b ≠ 61 ∧ c ≠ 63) | _ => false end).
  assert (P b = true) as HP by (revert b Hb; by apply (below_forall P 256); vm_compute).
  unfold P in HP. apply orb_true_iff in HP as [HP|HP]; [left; by apply bool_decide_eq_true in HP|].
  right. destruct (qp_text b) as [|c [|]]; try done. exists c. by apply bool_decide_eq_true in HP.
Qed.

Lemma decode_qp_text s : bytes s → decode_qp_scan 0 (underscores (flat_map qp_text s)) = s.
Proof.
  induction 1 as [|b s Hb Hs IH]; [done|]. cbn [flat_map]. unfold underscores in *. rewrite map_app.
  destruct (qp_text_cases b Hb) as [(Hq & H1 & H2 & H3 & _)|(c & Hq & Hu & Hne & _)].
  - unfold underscores in H3. rewrite H3, Hq. cbn [app]. rewrite (decode_qp_hex _ _ (b / 16) (b mod 16)), IH by done.
    f_equal. pose proof (Z.div_mod b 16). lia.
  - rewrite Hq. unfold underscores in Hu. rewrite Hu. cbn [app]. by rewrite decode_qp_cons, IH.
Qed.

Lemma qp_no_mark s : bytes s → 63 ∉ flat_map qp_text s.
Proof.
  induction 1 as [|b s Hb Hs IH]; cbn [flat_map]; [set_solver|]. rewrite elem_of_app. intros [Hin|?]; [|done].
  destruct (qp_text_cases b Hb) as [(_ & _ & _ & _ & Hn)|(c & Hq & _ & _ & Hn)]; [done|]. rewrite Hq in Hin. set_solver.
Qed.

(** The parts of a word, and what its text is. *)
Definition word_text (bs : list Z) (qp : bool) : jsstr :=
  if qp then flat_map qp_text bs else btoa (typedArrayToString bs).

Lemma word_parts bs (qp : bool) :
  bytes bs →
  split_on 63 (rfc2047_word bs qp)
  = [js "="; js "UTF-8"; if qp then js "Q" else js "B"; word_text bs qp; js "="].
Proof.
  intros Hb. transitivity (split_on 63 (join [63] [js "="; js "UTF-8"; if qp then js "Q" else js "B"; word_text bs qp; js "="])).
  { f_equal. unfold rfc2047_word, word_text. destruct qp; cbn [join]; by rewrite <- ?(assoc_L (++)). }
  apply split_join; [done|]. assert (63 ∉ word_text bs qp).
  { destruct qp; cbn [word_text]; [by apply qp_no_mark|]. rewrite typed_array_id. by apply btoa_filter. }
  repeat constructor; try done; destruct qp; cbn; set_solver by lia.
Qed.

(** A word that the emitter writes is read as its bytes. *)
Lemma word_read bs (qp : bool) :
  bytes bs → word_bytes (if qp then js "Q" else js "B") (word_text bs qp) = Some (Some bs).
Proof.
  intros Hb. destruct qp; unfold word_bytes, word_text.
  - change ((js "Q" ==s js "B") || (js "Q" ==s js "b")) with false.
    change ((js "Q" ==s js "Q") || (js "Q" ==s js "q")) with true. cbv iota. unfold decode_qp. cbn [fst].
    fold (underscores (flat_map qp_text bs)). by rewrite decode_qp_text.
  - change ((js "B" ==s js "B") || (js "B" ==s js "b")) with true. cbv iota. rewrite typed_array_id. destruct (btoa_filter bs Hb) as (Hf & -> & _).
    by rewrite (decode_base64_btoa _ bs).
Qed.

(** ** Lengths *)

Definition qp_size (b : Z) : Z := if qp_encoded b then 3 else 1.
Definition qp_len (bs : list Z) : Z := fold_right (λ b n, qp_size b + n) 0 bs.
Definition b64_len (n : Z) : Z := 4 * ((n + 2) / 3).

Lemma qp_len_cons b s : qp_len (b :: s) = qp_size b + qp_len s.
Proof. done. Qed.

Lemma qp_len_app s t : qp_len (s ++ t) = qp_len s + qp_len t.
Proof. induction s as [|b s IH]; [done|]. cbn [app]. rewrite !qp_len_cons, IH. lia. Qed.

Lemma qp_len_range s : slen s <= qp_len s <= 3 * slen s.
Proof.
  induction s as [|b s IH]; [done|]. rewrite slen_cons, qp_len_cons. unfold qp_size. destruct (qp_encoded b); lia.
Qed.

Lemma slen_qp_text s : slen (flat_map qp_text s) = qp_len s.
Proof.
  induction s as [|b s IH]; [done|]. cbn [flat_map]. rewrite slen_app, qp_len_cons, IH.
  f_equal. unfold qp_text, qp_size. destruct (qp_encoded b); [done|]. by destruct (b =? SP).
Qed.

Lemma slen_btoa s : slen (btoa s) = b64_len (slen s).
Proof.
  unfold b64_len. induction s as [|a|a b|a b c s IH] using three_ind; [done..|].
  cbn [btoa app]. rewrite !slen_cons, IH. div_lia.
Qed.

Lemma b64_len_step k : 0 <= k → b64_len (k + 1) = b64_len k + if k mod 3 =? 0 then 4 else 0.
Proof. intros Hk. unfold b64_len. destruct (Z.eqb_spec (k mod 3) 0); div_lia. Qed.

Lemma b64_len_mono a b : a <= b → b64_len a <= b64_len b.
Proof. intros Hab. unfold b64_len. div_lia. Qed.

Definition text_len (bs : list Z) (qp : bool) : Z := if qp then qp_len bs else b64_len (slen bs).

Lemma slen_word bs qp : slen (rfc2047_word bs qp) = 12 + text_len bs qp.
Proof.
  unfold rfc2047_word, text_len. destruct qp; rewrite !slen_app.
  - rewrite slen_qp_text. change (slen qpPrelude) with 10. change (slen (js "?=")) with 2. lia.
  - rewrite typed_array_id, slen_btoa. change (slen b64Prelude) with 10. change (slen (js "?=")) with 2. lia.
Qed.

(** The shorter of two ways is short when one of them is; a prefix is no longer. *)
Lemma shorter_way bs seg m :
  bs `prefix_of` seg → b64_len (slen seg) <= m ∨ qp_len seg <= m →
  text_len bs (qp_len seg <=? b64_len (slen seg)) <= m.
Proof.
  intros [t ->] Hm. rewrite slen_app, qp_len_app in *. pose proof (slen_nonneg t). pose proof (qp_len_range t).
  pose proof (b64_len_mono (slen bs) (slen bs + slen t)). unfold text_len.
  destruct (Z.leb_spec (qp_len bs + qp_len t) (b64_len (slen bs + slen t))); lia.
Qed.

(** ** Where characters begin *)

Lemma char_start_back pre a l i :
  continuation_byte a = false → Forall (λ b, continuation_byte b = true) l →
  (i ≤ length l)%nat → ∀ rest, char_start (pre ++ (a :: l) ++ rest) (length pre + i) = slen pre.
Proof.
  intros Ha Hl Hi rest. induction i as [|i IH].
  - rewrite Nat.add_0_r. assert (nth (length pre) (pre ++ (a :: l) ++ rest) 0 = a) as Hn.
    { by rewrite app_nth2, Nat.sub_diag by lia. }
    destruct (length pre) eqn:E; cbn [char_start]; rewrite Hn, Ha; unfold slen; by rewrite E.
  - rewrite Nat.add_succ_r. cbn [char_start].
    assert (continuation_byte (nth (S (length pre + i)) (pre ++ (a :: l) ++ rest) 0) = true) as ->.
    { rewrite app_nth2 by lia. replace (S (length pre + i) - length pre)%nat with (S i) by lia. cbn [app nth].
      rewrite app_nth1 by lia. rewrite Forall_forall in Hl. apply Hl. apply list_elem_of_In, nth_In. lia. }
    apply IH. lia.
Qed.

(** The bytes before the character at a place are whole characters. *)
Lemma char_start_spec cs : utf8_chars cs → ∀ pre k,
  (k < length (concat cs))%nat →
  ∃ c1 c2, cs = c1 ++ c2 ∧ c2 ≠ [] ∧ (length (concat c1) ≤ k < length (concat c1) + 4)%nat ∧
    char_start (pre ++ concat cs) (length pre + k) = slen (pre ++ concat c1).
Proof.
  induction 1 as [|a l cs Hlen Ha Hl Hb Hcs IH]; intros pre k Hk; [by cbn in Hk; lia|].
  cbn [concat] in *. rewrite length_app in Hk. destruct (decide (k < length (a :: l))%nat) as [Hlt|Hge].
  - exists [], ((a :: l) :: cs). cbn [length] in Hlt. split_and!; [done|done|cbn; lia|cbn; lia|].
    cbn [concat]. rewrite app_nil_r. apply char_start_back; [done|done|lia].
  - destruct (IH (pre ++ a :: l) (k - length (a :: l))%nat ltac:(lia)) as (c1 & c2 & -> & Hne & Hr & Hc).
    exists ((a :: l) :: c1), c2. split_and!; [done|done|cbn [concat]; rewrite length_app; lia..|].
    cbn [concat]. rewrite <- !(assoc_L (++)) in Hc.
    rewrite <- Hc. f_equal. rewrite length_app. lia.
Qed.

(** ** The loop *)

(** The words the loop writes, the last one with them. *)
Fixpoint loop_words (fuel : nat) (soft : Z) (enc : list Z) (i start b q m : Z) : option (list (list Z * bool)) :=
  match fuel with
  | O => None
  | S fuel' =>
      if slen enc <=? i then Some [(slice_from enc start, q <=? b)]
      else
        let bi := if (i - start) mod 3 =? 0 then 4 else 0 in
        let qi := if qp_encoded (nth (Z.to_nat i) enc 0) then 3 else 1 in
        if (m <? b + bi) && (m <? q + qi) then
          let j := char_start enc (Z.to_nat i) in
          cons (slice enc start j, q <=? b) <$> loop_words fuel' soft enc j j 0 0 (soft - 13)
        else loop_words fuel' soft enc (i + 1) start (b + bi) (q + qi) m
  end.

(** What the words of characters are, with room for [m] characters of text in the
    first and for [soft - 13] in the others: cut between characters, short enough,
    and none empty but for want of room. *)
Inductive words_ok (soft : Z) : Z → list (list Z) → list (list Z * bool) → Prop :=
  | words_last m cs qp :
      text_len (concat cs) qp <= Z.max 0 m → words_ok soft m cs [(concat cs, qp)]
  | words_more m c1 c2 qp ws :
      text_len (concat c1) qp <= Z.max 0 m → (c1 ≠ [] ∨ m < 12) → c2 ≠ [] →
      words_ok soft (soft - 13) c2 ws → words_ok soft m (c1 ++ c2) ((concat c1, qp) :: ws).

Lemma utf8_app_r c1 c2 : utf8_chars (c1 ++ c2) → utf8_chars c2.
Proof. induction c1 as [|c c1 IH]; [done|]. intros Hc. inversion Hc; subst. by apply IH. Qed.

Lemma utf8_first c cs : utf8_chars (c :: cs) → 0 < slen c <= 4.
Proof. inversion 1; subst. rewrite slen_cons. unfold slen. lia. Qed.

Lemma nth_mid {A} (p : list A) x r d : nth (length p) (p ++ x :: r) d = x.
Proof. by rewrite app_nth2, Nat.sub_diag by lia. Qed.

Lemma slen_to_nat s : Z.to_nat (slen s) = length s.
Proof. unfold slen. lia. Qed.

Lemma slice_from_app p s : slice_from (p ++ s) (slen p) = s.
Proof. unfold slen. by rewrite slice_from_drop, drop_app_length. Qed.

Lemma slice_app_mid p w r : slice (p ++ w ++ r) (slen p) (slen (p ++ w)) = w.
Proof. rewrite slen_app. apply slice_mid. Qed.

(** A step that adds a byte. *)
Lemma more_lengths seg x :
  b64_len (slen seg) + (if slen seg mod 3 =? 0 then 4 else 0) = b64_len (slen (seg ++ [x])) ∧
  qp_len seg + (if qp_encoded x then 3 else 1) = qp_len (seg ++ [x]).
Proof.
  rewrite slen_app, qp_len_app. change (slen [x]) with 1. rewrite b64_len_step by apply slen_nonneg.
  split; [done|]. rewrite qp_len_cons. unfold qp_size. cbn. lia.
Qed.

Lemma shorter_prefix (s t u : jsstr) :
  s `prefix_of` u → t `prefix_of` u → (length s ≤ length t)%nat → s `prefix_of` t.
Proof.
  intros Hs Ht Hl. destruct (prefix_weak_total s t u Hs Ht) as [?|Hp]; [done|].
  by rewrite (prefix_length_eq t s).
Qed.

(** The loop cuts the characters [cs], of which it has seen [seg]. *)
Lemma loop_words_ok fuel soft : 30 <= soft → ∀ pre cs seg rest m,
  utf8_chars cs → concat cs = seg ++ rest →
  (b64_len (slen seg) <= m ∨ qp_len seg <= m ∨ seg = []) →
  (cs = [] → pre = []) →
  let n := slen (pre ++ concat cs) in
  (n - slen pre + (if m <? 12 then 1 else 0)) * (n + 2) + (n - slen (pre ++ seg)) < Z.of_nat fuel →
  ∃ ws, loop_words fuel soft (pre ++ concat cs) (slen (pre ++ seg)) (slen pre) (b64_len (slen seg)) (qp_len seg) m
        = Some ws ∧ words_ok soft m cs ws.
Proof.
  intros Hsoft. induction fuel as [|fuel IH]; intros pre cs seg rest m Hcs Hseg Hm Hpre n Hfuel.
  { exfalso. assert (slen (pre ++ seg) <= n) by (unfold n; rewrite Hseg, !slen_app; pose proof (slen_nonneg rest); lia).
    assert (slen pre <= n) by (unfold n; rewrite slen_app; pose proof (slen_nonneg (concat cs)); lia).
    pose proof (slen_nonneg pre). destruct (m <? 12); nia. }
  cbn [loop_words]. fold n.
  assert (Hshort : ∀ bs, bs `prefix_of` seg →
    text_len bs (qp_len seg <=? b64_len (slen seg)) <= Z.max 0 m).
  { intros bs Hbs. destruct Hm as [?|[?| ->]]; [etransitivity; [apply (shorter_way _ _ m); auto|lia]..|].
    apply prefix_nil_inv in Hbs as ->. change (0 <= Z.max 0 m). lia. }
  destruct rest as [|x rest].
  { rewrite app_nil_r in Hseg. subst seg. fold n. rewrite Z.leb_refl, slice_from_app. eexists. split; [done|].
    apply words_last. by apply Hshort. }
  assert (Hn : n = slen (pre ++ seg) + 1 + slen rest).
  { unfold n. rewrite Hseg, !slen_app, slen_cons. lia. }
  pose proof (slen_nonneg rest). rewrite (proj2 (Z.leb_gt n (slen (pre ++ seg)))) by lia.
  replace (slen (pre ++ seg) - slen pre) with (slen seg) by (rewrite slen_app; lia).
  assert (nth (Z.to_nat (slen (pre ++ seg))) (pre ++ concat cs) 0 = x) as ->.
  { rewrite slen_to_nat, Hseg, (assoc_L (++)). apply nth_mid. }
  destruct (more_lengths seg x) as [-> ->].
  destruct ((m <? _) && _) eqn:Eover.
  - apply andb_true_iff in Eover as [_ Hq%Z.ltb_lt].
    assert (Hk : (length seg < length (concat cs))%nat) by (rewrite Hseg, length_app; cbn; lia).
    destruct (char_start_spec cs Hcs pre (length seg) Hk) as (c1 & c2 & Hcat & Hne & Hr & Hj).
    rewrite slen_to_nat, length_app, Hj.
    assert (Hpref : concat c1 `prefix_of` seg).
    { apply (shorter_prefix (concat c1) seg (concat cs)); [|by exists (x :: rest)|lia].
      exists (concat c2). by rewrite Hcat, concat_app. }
    assert (Hfirst : c1 ≠ [] ∨ m < 12).
    { destruct c1; [right|by left]. cbn [concat length] in Hr. pose proof (qp_len_range (seg ++ [x])) as Hr2.
      rewrite slen_app in Hr2. unfold slen in Hr2. cbn [length] in Hr2. lia. }
    assert (Henc : pre ++ concat cs = (pre ++ concat c1) ++ concat c2).
    { by rewrite Hcat, concat_app, (assoc_L (++)). }
    destruct (IH (pre ++ concat c1) c2 [] (concat c2) (soft - 13)) as (ws & Hws & Hok).
    { rewrite Hcat in Hcs. by eapply utf8_app_r. }
    { done. }
    { by right; right. }
    { done. }
    { rewrite app_nil_r, <- Henc. fold n. rewrite (proj2 (Z.ltb_ge (soft - 13) 12)) by lia.
      rewrite slen_app. pose proof (slen_nonneg (concat c1)). pose proof (slen_nonneg pre).
      assert (slen pre + slen (concat c1) <= n) by (unfold n; rewrite Henc, !slen_app; pose proof (slen_nonneg (concat c2)); lia).
      rewrite slen_app in *. pose proof (slen_nonneg seg). destruct Hfirst as [Hf|Hf].
      - destruct c1 as [|c c1]; [done|]. rewrite Hcat in Hcs. apply utf8_first in Hcs.
        cbn [concat] in *. rewrite slen_app in *. pose proof (slen_nonneg (concat c1)). destruct (m <? 12); nia.
      - rewrite (proj2 (Z.ltb_lt m 12)) in Hfuel by done. nia. }
    rewrite app_nil_r in Hws. rewrite Henc. change (b64_len (slen [])) with 0 in Hws. change (qp_len []) with 0 in Hws.
    rewrite Hws. cbn [fmap option_fmap option_map]. eexists. split; [done|].
    rewrite <- (assoc_L (++)), slice_app_mid, Hcat. apply words_more; [by apply Hshort|done..].
  - destruct (IH pre cs (seg ++ [x]) rest m) as (ws & Hws & Hok).
    { done. }
    { by rewrite <- (assoc_L (++)). }
    { apply andb_false_iff in Eover as [?%Z.ltb_ge|?%Z.ltb_ge]; auto. }
    { done. }
    { fold n. rewrite (assoc_L (++)), (slen_app (pre ++ seg)). change (slen [x]) with 1. lia. }
    rewrite (assoc_L (++)), (slen_app (pre ++ seg)) in Hws. change (slen [x]) with 1 in Hws. rewrite Hws. by exists ws.
Qed.

(** ** What is written *)

(** The characters that are not white space: those that breaking lines keeps. *)
Definition ink (s : jsstr) : jsstr := List.filter (λ c, negb (is_space c)) s.

Lemma ink_app s t : ink (s ++ t) = ink s ++ ink t.
Proof. apply List.filter_app. Qed.

Lemma ink_cons c s : ink (c :: s) = if is_space c then ink s else c :: ink s.
Proof. unfold ink. cbn. by destruct (is_space c). Qed.

Lemma ink_blank s : forallb is_space s = true → ink s = [].
Proof. induction s as [|c s IH]; [done|]. cbn [forallb]. rewrite ink_cons. by destruct (is_space c). Qed.

Lemma ink_trimStart s : ink (trimStart s) = ink s.
Proof. induction s as [|c s IH]; [done|]. cbn [trimStart]. destruct (is_space c) eqn:Hc; [|done]. by rewrite ink_cons, Hc. Qed.

Lemma ink_trimEnd s : ink (trimEnd s) = ink s.
Proof.
  destruct (trimEnd_prefix s) as (w & Hs & Hw). rewrite Hs at 2. by rewrite ink_app, (ink_blank w), app_nil_r.
Qed.

Lemma ink_id s : Forall (λ c, is_space c = false) s → ink s = s.
Proof. intros Hs. apply filter_id_class. eapply Forall_impl; [done|]. by intros c ->. Qed.

Lemma delivered_data_app o1 o2 : delivered (o1 ++ o2) = delivered o1 ++ delivered o2.
Proof. unfold delivered. by rewrite map_app, concat_app. Qed.

(** All that is written: what was delivered, and the line. *)
Definition written (o : list output) (s : emitter) : jsstr := ink (delivered o ++ currentLine s).

Definition same_ink (s : emitter) (o : list output) (s' : emitter) : Prop :=
  written o s' = ink (currentLine s) ∧ softMargin s' = softMargin s ∧ hardMargin s' = hardMargin s.

#[export] Instance same_ink_trace : TraceRel same_ink.
Proof.
  split; [done|]. intros s1 o1 s2 o2 s3 (H1 & H2 & H3) (H4 & H5 & H6). split_and!; [|congruence..].
  unfold written in *. rewrite delivered_data_app, <- (assoc_L (++)), ink_app, H4, <- ink_app. done.
Qed.

Lemma same_ink_break n s : 0 <= n → break_rel same_ink n s.
Proof.
  intros Hn. unfold break_rel. rewrite commit_run. split_and!; [|done..].
  destruct (split_at (currentLine s) n Hn) as (a & b & -> & -> & -> & _).
  unfold written, delivered. cbn -[trimEnd trimStart ink]. rewrite app_nil_r, <- (assoc_L (++)).
  rewrite !ink_app, ink_trimEnd. f_equal. change (SP :: trimStart b) with ([SP] ++ trimStart b).
  by rewrite ink_app, ink_trimStart.
Qed.

Lemma reserve_ink n s :
  ∃ s' o b, _reserveTokenSpace n s = (s', o, Some b) ∧ same_ink s o s' ∧
    (b = true → slen (currentLine s') + n <= Z.max (softMargin s) (hardMargin s)) ∧
    (b = false → softMargin s < slen (currentLine s) + n ∧ hardMargin s < 1 + n).
Proof.
  destruct (reserve_spec same_ink n s) as (s' & o & b & Hr & HR & _ & _ & Hb).
  - intros s1 Hp. apply same_ink_break. lia.
  - intros s1 Hp. apply same_ink_break. lia.
  - by exists s', o, b.
Qed.

(** There is room for [n] characters, on the line or on a new one. *)
Definition fits (s : emitter) (n : Z) : Prop :=
  slen (currentLine s) + n <= softMargin s ∨ 1 + n <= hardMargin s.

(** A text that is short enough is written. *)
Lemma addText_ink text brk s :
  fits s (slen text) →
  ∃ s' o, addText text brk s = (s', o, Some tt) ∧ written o s' = ink (currentLine s) ++ ink text ∧
    softMargin s' = softMargin s ∧ hardMargin s' = hardMargin s.
Proof.
  intros Hlen. unfold addText. destruct (reserve_ink (slen text) s) as (s1 & o & b & Hr & (Hi & Hs & Hh) & _ & Hb).
  unfold bind at 1. rewrite Hr. destruct b; [|specialize (Hb eq_refl); unfold fits in Hlen; lia]. cbn [negb]. rewrite bind_modify.
  assert (∃ s', when brk (modify (λ s, s <| preferredBreakpoint := slen (currentLine s) |>) >>
       when (negb (bool_decide (last_char text = Some SP))) (this, currentLine ::= (λ l, l ++ [SP])))
       (s1 <| currentLine ::= (λ l, l ++ text) |>) = (s', [], Some tt) ∧ ink (currentLine s') = ink (currentLine s1) ++ ink text
       ∧ softMargin s' = softMargin s1 ∧ hardMargin s' = hardMargin s1) as (s' & -> & Hi' & Hs' & Hh').
  { destruct brk; cbn [when]; [rewrite bind_modify; destruct (negb _); cbn [when]|];
      eexists; (split; [reflexivity|]); cbn -[ink]; rewrite ?ink_app; [by rewrite app_nil_r|done..]. }
  exists s', o. rewrite app_nil_r. split; [done|]. split; [|by rewrite Hs', Hh'].
  unfold written in *. by rewrite ink_app, Hi', (assoc_L (++)), <- ink_app, Hi.
Qed.

Lemma word_ink bs qp : bytes bs → ink (rfc2047_word bs qp) = rfc2047_word bs qp.
Proof.
  intros Hb. apply ink_id. unfold rfc2047_word. destruct qp; rewrite !Forall_app; (split_and!; [| |]);
    try (apply (bool_decide_unpack (Forall _ _)); by vm_compute).
  - induction Hb as [|b bs Hb _ IH]; [done|]. cbn [flat_map]. apply Forall_app. split; [|done].
    pose proof (below_forall (λ b, forallb (λ c, negb (is_space c)) (qp_text b)) 256 ltac:(by vm_compute) b Hb) as Hq.
    cbn beta in Hq. rewrite forallb_forall in Hq. apply Forall_forall. intros c Hin%list_elem_of_In.
    by apply negb_true_iff, Hq.
  - rewrite typed_array_id. destruct (btoa_filter bs Hb) as (_ & Ht & _). unfold b64_text in Ht.
    destruct (btoa_shape bs Hb) as (core & pad & -> & Hc & Hp & _). apply Forall_app. split.
    + eapply Forall_impl; [done|]. intros c Hc'. destruct (is_space c) eqn:E; [|done]. exfalso.
      unfold is_b64, b64_val in Hc'. unfold is_space in E. repeat case_match; try done; lia.
    + destruct Hp as [->|[->| ->]]; by repeat constructor.
Qed.

(** ** The phrase *)

Fixpoint add_words (ws : list (list Z * bool)) (brk : bool) : em unit :=
  match ws with
  | [] => skip
  | [w] => _addRFC2047Word w.1 w.2 brk
  | w :: ws' => _addRFC2047Word w.1 w.2 true >> add_words ws' brk
  end.

Definition word_of (w : list Z * bool) : jsstr := rfc2047_word w.1 w.2.

Lemma bind_run {X Y} (m : em X) (k : X → em Y) s s' o x :
  m s = (s', o, Some x) → bind m k s = let '(s2, o2, r) := k x s' in (s2, o ++ o2, r).
Proof. unfold bind. by intros ->. Qed.

Lemma loop_words_cons fuel soft enc i start b q m ws :
  loop_words fuel soft enc i start b q m = Some ws → ws ≠ [].
Proof.
  revert i start b q m ws. induction fuel as [|fuel IH]; intros i start b q m ws; [done|]. cbn [loop_words].
  case_match; [by intros [= <-]|]. cbv zeta. case_match; [|apply IH].
  by intros (l & _ & ->)%fmap_Some.
Qed.

(** The words fit, the first one on the line it comes to. *)
Definition room (s : emitter) (ws : list (list Z * bool)) : Prop :=
  match ws with
  | [] => True
  | w :: ws' => fits s (slen (word_of w)) ∧ Forall (λ w, 1 + slen (word_of w) <= hardMargin s) ws'
  end.

Lemma room_next s s' ws :
  hardMargin s' = hardMargin s → Forall (λ w, 1 + slen (word_of w) <= hardMargin s) ws → room s' ws.
Proof. intros Hh Hws. destruct Hws as [|w ws Hw Hws]; [done|]. split; [right|]; by rewrite Hh. Qed.

(** The loop with the word after it writes the words. *)
Lemma encode_loop_words fuel enc brk s : ∀ i start b q m ws,
  loop_words fuel (softMargin s) enc i start b q m = Some ws → room s ws →
  (let! r := encode_loop fuel enc i start b q m in _addRFC2047Word r.1 r.2 brk) s = add_words ws brk s.
Proof.
  revert s. induction fuel as [|fuel IH]; intros s i start b q m ws Hws Hlen; [done|].
  cbn [loop_words encode_loop] in *. destruct (slen enc <=? i).
  { injection Hws as <-. by rewrite bind_ret_l. }
  cbv zeta in *. destruct ((m <? _) && _); [|by apply IH].
  set (j := char_start enc (Z.to_nat i)) in *.
  apply fmap_Some in Hws as (ws' & Hws & ->). destruct Hlen as [Hw Hlen].
  destruct (addText_ink (rfc2047_word (slice enc start j) (q <=? b)) true s) as (s' & o & Hadd & _ & Hsoft & Hhard); [done|].
  pose proof (loop_words_cons _ _ _ _ _ _ _ _ _ Hws) as Hne. destruct ws' as [|w ws']; [done|].
  transitivity ((addText (rfc2047_word (slice enc start j) (q <=? b)) true >> add_words (w :: ws') brk) s); [|done].
  unfold _addRFC2047Word at 1. rewrite (bind_run _ _ _ _ _ _ Hadd). rewrite bind_assoc, (bind_run _ _ _ _ _ _ Hadd).
  rewrite bind_assoc, bind_gets. change (slen b64Prelude) with 10.
  replace (softMargin s' - 10 - 3) with (softMargin s' - 13) by lia.
  rewrite (IH s' j j 0 0 (softMargin s' - 13) (w :: ws')); [done|by rewrite Hsoft|by eapply room_next].
Qed.

(** Short words are written, each in full. *)
Lemma add_words_ink ws brk s :
  room s ws → Forall (λ w, ink (word_of w) = word_of w) ws →
  ∃ s' o, add_words ws brk s = (s', o, Some tt) ∧ written o s' = ink (currentLine s) ++ flat_map word_of ws.
Proof.
  revert s. induction ws as [|w [|w' ws] IH]; intros s Hlen Hink.
  - exists s, []. unfold written. cbn -[ink]. by rewrite app_nil_r.
  - destruct Hlen as [Hl _]. apply Forall_cons_1 in Hink as [Hi _].
    destruct (addText_ink (word_of w) brk s Hl) as (s' & o & Ha & Hw & _).
    exists s', o. split; [done|]. rewrite Hw, Hi. cbn. by rewrite app_nil_r.
  - destruct Hlen as [Hl Hlen]. apply Forall_cons_1 in Hink as [Hi Hink].
    destruct (addText_ink (word_of w) true s Hl) as (s1 & o1 & Ha & Hw & _ & Hh).
    destruct (IH s1) as (s2 & o2 & Ha2 & Hw2); [by eapply room_next|done|]. exists s2, (o1 ++ o2). split.
    + transitivity ((addText (word_of w) true >> add_words (w' :: ws) brk) s); [done|].
      rewrite (bind_run _ _ _ _ _ _ Ha). by rewrite Ha2.
    + unfold written in *. rewrite delivered_data_app, <- (assoc_L (++)), ink_app, Hw2, (assoc_L (++)), <- ink_app, Hw, Hi.
      change (flat_map word_of (w :: w' :: ws)) with (word_of w ++ flat_map word_of (w' :: ws)).
      by rewrite <- (assoc_L (++)).
Qed.

Lemma words_ok_concat soft m cs ws : words_ok soft m cs ws → concat (map fst ws) = concat cs.
Proof.
  induction 1 as [m cs qp Hl|m c1 c2 qp ws Hl Hf Hne Hok IH]; cbn; [by rewrite app_nil_r|]. by rewrite IH, concat_app.
Qed.

Lemma words_ok_later soft cs ws :
  30 <= soft → words_ok soft (soft - 13) cs ws → Forall (λ w, 1 + slen (word_of w) <= soft) ws.
Proof.
  intros Hs Hok. remember (soft - 13) as m eqn:Em. induction Hok as [m cs qp Hl|m c1 c2 qp ws Hl Hf Hne Hok IH];
    (constructor; [unfold word_of; rewrite slen_word; cbn [fst snd]; lia|]); [done|by apply IH].
Qed.

Lemma words_ok_room s cs ws :
  30 <= softMargin s <= hardMargin s →
  words_ok (softMargin s) (softMargin s - slen (currentLine s) - 12) cs ws → room s ws.
Proof.
  intros Hs Hok. inversion Hok as [m cs' qp Hl|m c1 c2 qp ws' Hl Hf Hne Hok']; subst; (split; [|]).
  1, 3: unfold fits, word_of; rewrite slen_word; cbn [fst snd]; lia.
  - done.
  - eapply Forall_impl; [apply (words_ok_later (softMargin s) c2); [lia|done]|]. cbn beta. lia.
Qed.

(** The words of a text: the loop that cuts it ends. *)
Lemma text_words `{TextEncoder} soft m text :
  30 <= soft →
  ∃ cs ws, utf8_chars cs ∧ encode text = concat cs ∧
    loop_words (encode_fuel (encode text)) soft (encode text) 0 0 0 0 m = Some ws ∧ words_ok soft m cs ws.
Proof.
  intros Hs. destruct (encode_chars text) as (cs & Hcs & Henc). exists cs.
  destruct (loop_words_ok (encode_fuel (encode text)) soft Hs [] cs [] (concat cs) m) as (ws & Hws & Hok).
  - done.
  - done.
  - by right; right.
  - done.
  - cbv zeta. cbn [app]. change (slen []) with 0. rewrite !Z.sub_0_r, <- Henc. unfold encode_fuel, slen.
    destruct (m <? 12); nia.
  - exists ws. cbn [app] in Hws. rewrite <- Henc in Hws. by split_and!.
Qed.

Lemma utf8_bytes cs : utf8_chars cs → bytes (concat cs).
Proof. unfold bytes. induction 1 as [|a l cs _ _ _ Hb _ IH]; [by constructor|]. cbn [concat]. apply Forall_app. by split. Qed.

(** What is read back from a word: its character set, and its bytes. *)
Definition reads_as (w : jsstr) (bs : list Z) : Prop :=
  ∃ e t, split_on 63 w = [js "="; js "UTF-8"; e; t; js "="] ∧ word_bytes e t = Some (Some bs).

(** C19. A phrase that is encoded is always written, whatever its length: as words of
    RFC 2047, each of whole characters and read back as its bytes, which together
    are the UTF-8 of the text. *)
Theorem encoded_phrase_written `{TextEncoder} text brk s :
  30 <= softMargin s <= hardMargin s →
  ∃ s' o m cs ws, encodeRFC2047Phrase text brk s = (s', o, Some tt) ∧
    written o s' = ink (currentLine s) ++ flat_map word_of ws ∧
    utf8_chars cs ∧ encode text = concat cs ∧ words_ok (softMargin s) m cs ws ∧ concat (map fst ws) = encode text ∧
    Forall (λ w, reads_as (word_of w) w.1) ws.
Proof.
  intros Hm. unfold encodeRFC2047Phrase. change (slen b64Prelude) with 10.
  destruct (reserve_ink (10 + 10) s) as (s1 & o1 & b & Hr & (Hi & Hs & Hh) & _ & Hb).
  rewrite (bind_run _ _ _ _ _ _ Hr). destruct b; [|specialize (Hb eq_refl); lia]. cbn [negb when].
  unfold skip. rewrite bind_ret_l, bind_gets. replace (10 + 2) with 12 by lia.
  destruct (text_words (softMargin s1) (softMargin s1 - slen (currentLine s1) - 12) text) as (cs & ws & Hcs & Henc & Hws & Hok); [lia|].
  assert (Hbytes : Forall (λ w, bytes w.1) ws).
  { apply Forall_forall. intros w Hw. pose proof (utf8_bytes cs Hcs) as Hb'. rewrite <- (words_ok_concat _ _ _ _ Hok) in Hb'.
    unfold bytes in *. rewrite Forall_concat, Forall_map in Hb'. rewrite Forall_forall in Hb'. by apply (Hb' w). }
  rewrite (encode_loop_words _ _ _ s1 0 0 0 0 _ ws); [|done|apply (words_ok_room s1 cs); [lia|done]].
  destruct (add_words_ink ws brk s1) as (s2 & o2 & -> & Hw).
  { apply (words_ok_room s1 cs); [lia|done]. }
  { eapply Forall_impl; [done|]. intros w Hw. by apply word_ink. }
  exists s2, (o1 ++ o2), (softMargin s1 - slen (currentLine s1) - 12), cs, ws. split_and!; try done.
  - unfold written in *. by rewrite delivered_data_app, <- (assoc_L (++)), ink_app, Hw, (assoc_L (++)), <- ink_app, Hi.
  - by rewrite <- Hs.
  - rewrite Henc. by eapply words_ok_concat.
  - eapply Forall_impl; [done|]. intros [bs qp] Hbs. eexists _, _. split; [by apply word_parts|by apply word_read].
Qed.

Definition default_options : options := mkOptions None None None None.

Lemma encoded_phrase_written_witness :
  let e := new_emitter default_options in
  ∃ s' o m cs ws, encodeRFC2047Phrase [233; 233] true e = (s', o, Some tt) ∧
    written o s' = ink (currentLine e) ++ flat_map word_of ws ∧
    utf8_chars cs ∧ encode [233; 233] = concat cs ∧ words_ok (softMargin e) m cs ws ∧
    concat (map fst ws) = encode [233; 233] ∧ Forall (λ w, reads_as (word_of w) w.1) ws.
Proof. apply (encoded_phrase_written [233; 233] true (new_emitter default_options)). vm_compute. split; intros [=]. Defined.
