(* ===== verification/AddressHeaders.v ===== *)
(** * AddressHeaders: address lists

    [parseAddressingHeader] of mailnews/mime/jsmime/jsmime.mjs: a state machine on
    the tokens of a header, and the operations of MimeJSComponents.sys.mjs that are
    made of it and the emitter. *)

From S2P Require Import Prelude Effects MimeUtils MimeHeaders HeaderTokens DateHeaders HeaderEmitter.

(** ** The state *)

Record addr_state := mkAddrState {
  results : list address;       (* what is finished *)
  addrlist : list mailbox;      (* the addresses since then *)
  displayName : jsstr;
  groupName : jsstr;
  localPart : jsstr;
  addr_spec : jsstr;            (* the variable [address] *)
  comment : jsstr;
  inAngle : bool;
  inComment : bool;
  needsSpace : bool;
  afterAddress : bool;
  preserveSpace : bool;
  commentClosed : bool;
  lastComment : jsstr
}.
#[export] Instance eta_addr_state : Settable addr_state := λ s,
  mkAddrState (results s) (addrlist s) (displayName s) (groupName s) (localPart s) (addr_spec s) (comment s)
    (inAngle s) (inComment s) (needsSpace s) (afterAddress s) (preserveSpace s) (commentClosed s) (lastComment s).

Definition new_addr_state : addr_state :=
  mkAddrState [] [] [] [] [] [] [] false false false false false false [].

(** ** An address ends *)

(** The class of characters that a local part must be quoted for. *)
Definition local_special (c : Z) : bool := bool_decide (c ∈ QUOTE :: js " !()<>[]:;@\,").

(** The local part is quoted if it needs to be. *)
Definition requote (addrEmail : jsstr) : jsstr :=
  let at_ := lastIndexOf addrEmail 64 in
  let lp := substring addrEmail 0 at_ in
  if existsb local_special lp then
    [QUOTE] ++ escape lp ++ [QUOTE] ++ substring addrEmail at_ (slen addrEmail)
  else addrEmail.

(** [replace(/\s+/g, " ")]. *)
Fixpoint collapse_space (s : jsstr) : jsstr :=
  match s with
  | c :: s' =>
      if is_space c then
        match s' with d :: _ => if is_space d then collapse_space s' else SP :: collapse_space s' | [] => [SP] end
      else c :: collapse_space s'
  | [] => []
  end.

(** The name, or the content of the last comment. *)
Definition name_or_comment (addrName lastComment : jsstr) : jsstr :=
  let addrName := trim (collapse_space addrName) in
  if negb (str_truthy addrName) && str_truthy lastComment then
    let offset := if bool_decide (head lastComment = Some SP) then 2 else 1 in
    slice lastComment offset (slen lastComment - 1)
  else addrName.

Definition addToAddrList (addrName addrEmail : jsstr) (s : addr_state) : addr_state :=
  let addrEmail := requote addrEmail in
  let addrName := name_or_comment addrName (lastComment s) in
  let s := if str_truthy addrName || str_truthy addrEmail
           then s <| addrlist ::= (λ l, l ++ [mkMailbox addrName addrEmail]) |> else s in
  s <| displayName := [] |> <| localPart := [] |> <| addr_spec := [] |> <| lastComment := [] |>
    <| inAngle := false |> <| inComment := false |> <| needsSpace := false |> <| afterAddress := false |>.

(** The addresses so far are results, in a group if it has a name. *)
Definition commit_list (s : addr_state) : addr_state :=
  s <| results ::= (λ l, l ++ if str_truthy (groupName s) then [Group (groupName s) (addrlist s)]
                               else map Mailbox (addrlist s)) |>
    <| addrlist := [] |> <| groupName := [] |>.

(** ** The tokens *)

Definition ends_with_space (s : jsstr) : bool := bool_decide (last_char s = Some SP).

(** [token && token[0] != "."]. *)
Definition word_token (token : jsstr) : bool :=
  match token with [] => false | c :: _ => negb (c =? DOT) end.

(** Comment content, a quoted string or a span of dots and atoms. *)
Definition text_token (token : jsstr) (s : addr_state) : addr_state :=
  let token := cleanToken token in
  let spacedToken := if needsSpace s && word_token token then SP :: token else token in
  let s :=
    if inComment s then s <| comment ::= (λ x, x ++ spacedToken) |>
    else if inAngle s then s <| addr_spec ::= (λ x, x ++ spacedToken) |>
    else
      let s := if negb (afterAddress s) then s <| displayName ::= (λ x, x ++ spacedToken) |> else s in
      if commentClosed s then s <| localPart ::= (λ x, x ++ token) |> <| commentClosed := false |>
      else s <| localPart ::= (λ x, x ++ spacedToken) |> in
  s <| needsSpace := word_token token |>.

(** A delimiter; [true] when the space flag stays as it is. *)
Definition delim_token (c : Z) (s : addr_state) : addr_state * bool :=
  if c =? 58 then
    (s <| groupName := displayName s |> <| displayName := [] |> <| localPart := [] |>
       <| results ::= (λ l, l ++ map Mailbox (addrlist s)) |> <| addrlist := [] |>, false)
  else if (c =? 60) && negb (afterAddress s) then
    if inAngle s then
      ((if str_truthy (addr_spec s) then s <| displayName := addr_spec s |> else s)
         <| localPart := [] |> <| addr_spec := [] |>, false)
    else (s <| inAngle := true |>, false)
  else if (c =? 62) && negb (afterAddress s) then
    (s <| inAngle := false |> <| lastComment := [] |> <| afterAddress := true |>, false)
  else if c =? 40 then
    let needs := needsSpace s || (negb (displayName s ==s []) && negb (ends_with_space (displayName s))) in
    (s <| inComment := true |> <| preserveSpace := needsSpace s |> <| needsSpace := needs |>
       <| comment := (if needs then js " (" else js "(") |> <| commentClosed := false |>, false)
  else if c =? 41 then
    let s := s <| inComment := false |> <| comment ::= (λ x, x ++ js ")") |> in
    let s := s <| lastComment := comment s |> in
    ((if inAngle s then s <| needsSpace := preserveSpace s |>
      else s <| displayName ::= (λ x, x ++ comment s) |> <| needsSpace := true |>) <| commentClosed := true |>, true)
  else if c =? 64 then
    if afterAddress s then (s, true)
    else
      let s := if negb (inAngle s)
               then s <| addr_spec := localPart s |> <| displayName := [] |> <| localPart := [] |> <| inAngle := true |>
               else s in
      (s <| addr_spec ::= (λ x, x ++ js "@") |>, false)
  else if c =? 44 then ((addToAddrList (displayName s) (addr_spec s) s) <| afterAddress := false |>, false)
  else if c =? 59 then (commit_list (addToAddrList (displayName s) (addr_spec s) s), false)
  else (text_token [c] s, true).

Definition addr_step (s : addr_state) (t : token) : addr_state :=
  match t with
  | Token w => text_token w s
  | Delim c => let '(s', keep) := delim_token c s in if keep : bool then s' else s' <| needsSpace := false |>
  end.

(** The end: a group that is open is closed. *)
Definition addr_end (s : addr_state) : list address :=
  results (commit_list (addToAddrList (displayName s) (addr_spec s) s)).

Definition addr_delims : jsstr := js ":,;<>@".
Definition addr_opts (doRFC2047 : bool) : token_opts := mkTokenOpts true true true doRFC2047.

Section Parse.
Context {D : Type} `{TextDecoder D}.

Definition parseAddressingHeader (header : jsstr) (doRFC2047 : bool) : option (list address) :=
  (λ tokens, addr_end (fold_left addr_step tokens new_addr_state))
    <$> getHeaderTokens header addr_delims (addr_opts doRFC2047).

(** [parseAddress]: the addresses of all the headers of a name. *)
Fixpoint parseAddress (value : list jsstr) : option (list address) :=
  match value with
  | [] => Some []
  | h :: value' => l ← parseAddressingHeader h true; l' ← parseAddress value'; Some (l ++ l')
  end.
End Parse.
