(* ===== verification/EmitterLexing.v ===== *)
(** * EmitterLexing: what the tokenizer finds in the emitter's text

    The lexer of HeaderTokens.v on all that an emitter has delivered and its line.
    A break of the line only ends the open token; so a piece of text whose tokens do
    not depend on that adds the same tokens wherever the lines are broken.  [writes]
    is a method that adds such pieces, and methods compose. *)

From S2P Require Import Prelude Effects MimeUtils MimeHeaders HeaderTokens DateHeaders HeaderEmitter EmitterLines EmitterWords.

(** ** Printable text *)

Definition printable (s : jsstr) : Prop := Forall (λ c, 32 <= c <= 126) s.

Lemma printable_space s c : printable s → c ∈ s → is_space c = true → c = SP.
Proof.
  intros Hs Hc Hsp. unfold printable in Hs. rewrite Forall_forall in Hs. specialize (Hs c Hc). cbn beta in Hs.
  unfold is_space in Hsp. unfold SP. lia.
Qed.

Lemma printable_blank s : printable s → forallb is_space s = true → Forall (λ c, wsp c = true) s.
Proof.
  intros Hs Hb. apply Forall_forall. intros c Hc. rewrite forallb_forall in Hb.
  by rewrite (printable_space s c Hs Hc) by by apply Hb, list_elem_of_In.
Qed.

Definition ends_solid (s : jsstr) : Prop := ∃ p c, s = p ++ [c] ∧ is_space c = false.

Lemma trimEnd_solid s : ends_solid s → trimEnd s = s.
Proof. intros (p & c & -> & Hc). rewrite trimEnd_app. cbn. by rewrite Hc. Qed.

Lemma ends_solid_app s t : ends_solid t → ends_solid (s ++ t).
Proof. intros (p & c & -> & Hc). exists (s ++ p), c. by rewrite (assoc_L (++)). Qed.

Section Lexing.
Variable opts : token_opts.
Variable delimiters : jsstr.
(** What comes before the text: the name of the header. *)
Variable before : jsstr.

Abbreviation lexd := (lex delimiters opts).

(** The lexer's state at the end of a text. *)
Definition reads (x : jsstr) (st : lexer) : Prop := ∃ r, x = before ++ r ∧ lexd r new_lexer = Some st.

Lemma reads_app x y st st' : reads x st → lexd y st = Some st' → reads (x ++ y) st'.
Proof. intros (r & -> & Hr) Hy. exists (r ++ y). rewrite (assoc_L (++)), lex_app, Hr. by split. Qed.

Lemma reads_app_inv x y st st' : reads x st → reads (x ++ y) st' → lexd y st = Some st'.
Proof.
  intros (r & -> & Hr) (r' & Hxy & Hr'). rewrite <- (assoc_L (++)) in Hxy. apply app_inv_head in Hxy as <-.
  rewrite lex_app, Hr in Hr'. done.
Qed.

Definition reads_outside (x : jsstr) : Prop := ∃ st, reads x st ∧ outside st.

Lemma close_outside st : outside st → outside (lex_close st).
Proof. unfold outside, lex_close. by destruct (lx_open st). Qed.

Lemma close_idem st : lex_close (lex_close st) = lex_close st.
Proof. apply lex_close_idle, lex_close_open. Qed.

(** ** The invariant

    Text before a place where the line may break is read up to a place outside of
    quotes, and has a blank before or after it. *)
Definition breakable (w a b : jsstr) : Prop :=
  reads_outside (w ++ trimEnd a) ∧ (last a = Some SP ∨ head b = Some SP).

Record lexed (w : jsstr) (s : emitter) (st : lexer) : Prop := {
  lexed_reads : reads (w ++ currentLine s) st;
  lexed_outside : outside st;
  lexed_trim : reads_outside (w ++ trimEnd (currentLine s));
  lexed_printable : printable (currentLine s);
  lexed_pb : 0 < preferredBreakpoint s →
    ∃ a b, currentLine s = a ++ b ∧ slen a = preferredBreakpoint s ∧ breakable w a b
}.

(** A break may close the open token. *)
Definition closes (st st' : lexer) : Prop := st' = st ∨ st' = lex_close st.

Lemma closes_outside st st' : closes st st' → outside st → outside st'.
Proof. intros [->| ->]; [done|apply close_outside]. Qed.

Lemma closes_close st st' : closes st st' → lex_close st' = lex_close st.
Proof. intros [->| ->]; [done|apply close_idem]. Qed.

Lemma closes_open st st' : closes st st' → lx_open st = None → lx_open st' = None.
Proof. intros [->| ->] Ho; [done|apply lex_close_open]. Qed.

Definition lexed_step (s : emitter) (o : list output) (s' : emitter) : Prop :=
  ∀ w st, lexed w s st → ∃ st', closes st st' ∧ lexed (w ++ delivered o) s' st'.

#[export] Instance lexed_step_trace : TraceRel lexed_step.
Proof.
  split.
  - intros s w st Hs. exists st. rewrite app_nil_r. split; [by left|done].
  - intros s1 o1 s2 o2 s3 H1 H2 w st Hs. destruct (H1 w st Hs) as (st1 & Hc1 & Hs1).
    destruct (H2 _ st1 Hs1) as (st2 & Hc2 & Hs2). exists st2. rewrite delivered_data_app, (assoc_L (++)). split; [|done].
    destruct Hc2 as [->| ->]; [done|]. right. by apply closes_close.
Qed.

(** A break, of a line in two. *)
Lemma lexed_break w s st a b n :
  lexed w s st → currentLine s = a ++ b → slen a = n → reads_outside (w ++ trimEnd a) →
  (b = [] ∨ last a = Some SP ∨ head b = Some SP) →
  let '(s', o, _) := _commitLine (Some n) s in ∃ st', closes st st' ∧ lexed (w ++ delivered o) s' st'.
Proof.
  intros [Hr Ho Ht Hp _] Hline Hn (st1 & Hr1 & Ho1) Hblank. rewrite commit_run, Hline in *.
  assert (slice (a ++ b) 0 n = a ∧ slice_from (a ++ b) n = b) as [-> ->].
  { subst n. unfold slen. by rewrite slice_0_take, slice_from_drop, take_app_length, drop_app_length. }
  destruct (trimEnd_prefix a) as (sa & Ha & Hsa). destruct (trimStart_suffix b) as (sb & Hb & Hsb).
  assert (Hpa : printable a ∧ printable b) by by apply Forall_app in Hp.
  assert (Hgap : Forall (λ c, wsp c = true) (sa ++ sb)).
  { destruct Hpa as [Hpa Hpb]. apply Forall_app. split; apply printable_blank; try done.
    - rewrite Ha in Hpa. by apply Forall_app in Hpa as [_ ?].
    - rewrite Hb in Hpb. by apply Forall_app in Hpb as [? _]. }
  assert (Hrest : lexd (sa ++ sb ++ trimStart b) st1 = Some st).
  { eapply reads_app_inv; [exact Hr1|]. rewrite <- (assoc_L (++)), (assoc_L (++) (trimEnd a)), <- Ha, <- Hb. done. }
  set (w' := w ++ delivered [DeliverData (trimEnd a ++ CRLF)]).
  assert (Hw' : reads w' (lex_close st1)).
  { unfold w', delivered. cbn [map concat]. rewrite app_nil_r, (assoc_L (++)). eapply reads_app; [exact Hr1|].
    apply lex_blanks; [by repeat constructor|done..]. }
  assert (Hsp : lexd [SP] (lex_close st1) = Some (lex_close st1)).
  { rewrite lex_blanks; [by rewrite close_idem|by repeat constructor|done|by apply close_outside]. }
  assert (Hnext : ∃ st', closes st st' ∧ lexd (trimStart b) (lex_close st1) = Some st' ∧
    (∀ y, trimStart b ≠ [] → lexd (sa ++ sb ++ y) st1 = lexd y (lex_close st1))).
  { destruct (decide (sa ++ sb = [])) as [Hnil|Hne].
    - apply app_eq_nil in Hnil as [-> ->]. cbn [app] in *. destruct Hblank as [->|[Hl|Hh]].
      + exists (lex_close st). cbn in Hrest |- *. injection Hrest as ->. split_and!; [by right|done|done].
      + exfalso. rewrite Ha, app_nil_r in Hl. apply last_Some in Hl as (p & Hp').
        assert (trimEnd (trimEnd a) = trimEnd a) as Hid by (by rewrite app_nil_r in Ha; rewrite <- Ha).
        rewrite Hp', trimEnd_app in Hid. change (forallb is_space [SP]) with true in Hid. cbv iota in Hid.
        pose proof (slen_trimEnd p). rewrite Hid, slen_app in *. change (slen [SP]) with 1 in *. lia.
      + exfalso. destruct b as [|c b]; [done|]. injection Hh as ->. change (trimStart (SP :: b)) with (trimStart b) in Hb.
        pose proof (slen_trimStart b). rewrite <- Hb, slen_cons in *. lia.
    - exists st. assert (Hall : ∀ y, lexd (sa ++ sb ++ y) st1 = lexd y (lex_close st1)).
      { intros y. rewrite (assoc_L (++)), lex_app, lex_blanks by done. done. }
      rewrite Hall in Hrest. split_and!; [by left|done|by intros y _]. }
  destruct Hnext as (st' & Hcl & Hst' & Hgo). exists st'. split; [done|]. fold w'.
  assert (Hline' : reads (w' ++ SP :: trimStart b) st').
  { change (SP :: trimStart b) with ([SP] ++ trimStart b). rewrite (assoc_L (++)). eapply reads_app; [|exact Hst'].
    by eapply reads_app. }
  split; cbn -[trimEnd trimStart slen]; [done|by eapply closes_outside| | |done].
  - change (SP :: trimStart b) with ([SP] ++ trimStart b). rewrite trimEnd_app.
    destruct (forallb is_space (trimStart b)) eqn:Eb.
    { exists (lex_close st1). change (trimEnd [SP]) with ([] : jsstr). rewrite app_nil_r. split; [done|by apply close_outside]. }
    assert (Hne : trimStart b ≠ []) by (intros E; by rewrite E in Eb).
    destruct Ht as (st2 & Hr2 & Ho2). exists st2. split; [|done]. rewrite trimEnd_app in Hr2.
    assert (forallb is_space b = false) as Hnb by (by rewrite Hb, forallb_app, Hsb, Eb). rewrite Hnb in Hr2.
    assert (trimEnd b = sb ++ trimEnd (trimStart b)) as Htb by (rewrite Hb at 1; by rewrite trimEnd_app, Eb).
    rewrite Htb in Hr2. rewrite (assoc_L (++)). eapply reads_app; [by eapply reads_app|]. rewrite <- (Hgo (trimEnd (trimStart b)) Hne).
    eapply reads_app_inv; [exact Hr1|]. rewrite <- (assoc_L (++)), (assoc_L (++) (trimEnd a)), <- Ha. done.
  - constructor; [done|]. destruct Hpa as [_ Hpb]. unfold printable in Hpb. rewrite Hb in Hpb. by apply Forall_app in Hpb as [_ ?].
Qed.

Lemma lexed_reserve n s w st :
  lexed w s st →
  ∃ s' o b st', _reserveTokenSpace n s = (s', o, Some b) ∧ closes st st' ∧ lexed (w ++ delivered o) s' st' ∧
    softMargin s' = softMargin s ∧ hardMargin s' = hardMargin s ∧
    (b = false → softMargin s < slen (currentLine s) + n ∧ hardMargin s < 1 + n).
Proof.
  intros Hs. destruct (reserve_spec lexed_step n s) as (s' & o & b & Hr & HR & Hsoft & Hhard & _ & Hb).
  - intros s1 Hp. unfold break_rel. rewrite commit_run. intros w1 st1 Hs1.
    destruct (lexed_pb _ _ _ Hs1 Hp) as (a & b & Hline & Hlen & Hbr & Hbl).
    pose proof (lexed_break w1 s1 st1 a b _ Hs1 Hline Hlen Hbr) as Hc. rewrite commit_run in Hc.
    apply Hc. by right.
  - intros s1 Hp. unfold break_rel. rewrite commit_run. intros w1 st1 Hs1.
    pose proof (lexed_break w1 s1 st1 (currentLine s1) [] (slen (currentLine s1)) Hs1) as Hc.
    rewrite app_nil_r, commit_run in Hc. apply Hc; [done|done|apply Hs1|by left].
  - destruct (HR w st Hs) as (st' & Hcl & Hs'). by exists s', o, b, st'.
Qed.

(** ** Pieces *)

(** A text with these tokens, wherever the line was broken before it; [nc] when no
    token may be open before it, [ca] when none is open after it. *)
Definition piece (q : jsstr) (nc ca : bool) (ts : list token) : Prop :=
  ∀ st, outside st → (nc = true → lx_open st = None) →
  ∃ st', lexd q st = Some st' ∧ outside st' ∧ lx_tokens (lex_close st') = lx_tokens (lex_close st) ++ ts ∧
         (ca = true → lx_open st' = None).

Lemma piece_app q1 q2 n1 c1 n2 c2 t1 t2 :
  piece q1 n1 c1 t1 → piece q2 n2 c2 t2 → (n2 = true → c1 = true) → piece (q1 ++ q2) n1 c2 (t1 ++ t2).
Proof.
  intros H1 H2 Hc st Ho Hn. destruct (H1 st Ho Hn) as (st1 & E1 & Ho1 & T1 & C1).
  destruct (H2 st1 Ho1) as (st2 & E2 & Ho2 & T2 & C2); [auto|]. exists st2. rewrite lex_app, E1. cbn.
  split_and!; [done..| |done]. by rewrite T2, T1, (assoc_L (++)).
Qed.

Lemma piece_weaken q (nc ca : bool) ts : piece q false ca ts → piece q nc false ts.
Proof. intros Hq st Ho _. destruct (Hq st Ho) as (st' & ? & ? & ? & _); [done|]. by exists st'. Qed.

Lemma piece_word x :
  Forall (λ c, plain delimiters opts c = true) x → x ≠ [] → piece x true false [newToken x].
Proof.
  intros Hx Hne [toks open quoted skip] [Hq Hk] Hn. cbn in Hq, Hk, Hn. subst. rewrite (Hn eq_refl).
  rewrite lex_word by done. eexists. split_and!; [done|done|done|done].
Qed.

Lemma piece_blank : piece [SP] false true [].
Proof.
  intros st Ho _. exists (lex_close st). rewrite lex_blanks by (done || by repeat constructor).
  split_and!; [done|by apply close_outside|by rewrite close_idem, app_nil_r|intros _; apply lex_close_open].
Qed.

Lemma piece_delimiter c :
  c ≠ BACKSLASH → c ≠ 61 → wsp c = false → c ∈ delimiters → piece [c] false true [Delim c].
Proof.
  intros Hb He Hw Hd st Ho _. cbn [lex]. rewrite lex_delimiter by (done || by rewrite (proj2 (Z.eqb_neq c 61)), andb_false_r).
  eexists. by split_and!.
Qed.

Lemma piece_quoted x :
  qstring opts = true → QUOTE ∉ delimiters → quotable opts x → piece ([QUOTE] ++ escape x ++ [QUOTE]) false true [Token x].
Proof.
  intros Hqs Hd Hx st Ho _. cbn [app]. rewrite lex_quoted_string by done. eexists. by split_and!.
Qed.

(** ** Methods that write pieces *)

Variables soft hard : Z.

(** The emitter's margins, the tokens of all that is written, and whether one may be
    open. *)
Record at_tokens (w : jsstr) (s : emitter) (toks : list token) (closed : bool) : Prop := {
  at_soft : softMargin s = soft;
  at_hard : hardMargin s = hard;
  at_lexed : ∃ st, lexed w s st ∧ lx_tokens (lex_close st) = toks ∧ (closed = true → lx_open st = None)
}.

(** The method returns, and has written tokens in [P]. *)
Definition writes (m : em unit) (nc ca : bool) (P : list token → Prop) : Prop :=
  ∀ s w toks c, at_tokens w s toks c → (nc = true → c = true) →
  ∃ s' o ts, m s = (s', o, Some tt) ∧ P ts ∧ at_tokens (w ++ delivered o) s' (toks ++ ts) ca.

(** Tokens of the two, one after the other. *)
Definition then_tokens (P Q : list token → Prop) (ts : list token) : Prop := ∃ t1 t2, ts = t1 ++ t2 ∧ P t1 ∧ Q t2.

Lemma at_weaken w s toks (c c' : bool) : at_tokens w s toks c → (c' = true → c = true) → at_tokens w s toks c'.
Proof. intros [Hs Hh (st & Hl & Ht & Hc)] Hcc. split; [done..|]. exists st. by auto. Qed.

Lemma writes_bind m k n1 c1 n2 c2 P Q :
  writes m n1 c1 P → writes k n2 c2 Q → (n2 = true → c1 = true) → writes (m >> k) n1 c2 (then_tokens P Q).
Proof.
  intros Hm Hk Hc s w toks c Hs Hn. destruct (Hm s w toks c Hs Hn) as (s1 & o1 & t1 & E1 & HP & Hs1).
  destruct (Hk s1 _ _ c1 Hs1 Hc) as (s2 & o2 & t2 & E2 & HQ & Hs2). exists s2, (o1 ++ o2), (t1 ++ t2).
  rewrite (bind_run _ _ _ _ _ _ E1), E2, delivered_data_app. split_and!; [done|by exists t1, t2|].
  by rewrite !(assoc_L (++)) in *.
Qed.

Lemma writes_impl m n n' c c' (P Q : list token → Prop) :
  writes m n c P → (∀ ts, P ts → Q ts) → (n = true → n' = true) → (c' = true → c = true) → writes m n' c' Q.
Proof.
  intros Hm HPQ Hn Hc s w toks c0 Hs Hn0. destruct (Hm s w toks c0 Hs) as (s' & o & ts & E & HP & Hs'); [auto|].
  exists s', o, ts. split_and!; [done|by apply HPQ|]. by eapply at_weaken.
Qed.

Lemma writes_skip c : writes skip c c (eq []).
Proof.
  intros s w toks c0 Hs Hn. exists s, [], []. rewrite !app_nil_r. split_and!; [done..|]. by eapply at_weaken.
Qed.

Lemma writes_reserve n c : writes (let! _ok := _reserveTokenSpace n in skip) c c (eq []).
Proof.
  intros s w toks c0 [Hs Hh (st & Hl & Ht & Hc)] Hn.
  destruct (lexed_reserve n s w st Hl) as (s' & o & b & st' & Hr & Hcl & Hl' & Hs' & Hh' & _).
  exists s', o, []. unfold bind. rewrite Hr, !app_nil_r. cbn. rewrite app_nil_r. split_and!; [done..|]. split; [congruence..|].
  exists st'. split_and!; [done|by rewrite (closes_close st st' Hcl)|]. intros ->. eapply closes_open; [done|]. auto.
Qed.

(** The line with a piece, and the blank after it. *)
Lemma lexed_piece w s st q (sp : bool) pb nc ca ts :
  lexed w s st → piece q nc ca ts → printable q → ends_solid q → (nc = true → lx_open st = None) →
  (pb = preferredBreakpoint s ∨ (sp = true ∧ (pb = slen (currentLine s ++ q) ∨ pb = slen (currentLine s ++ q) + 1))) →
  ∃ st', lexed w (s <| currentLine := (currentLine s ++ q) ++ (if sp then [SP] else []) |> <| preferredBreakpoint := pb |>) st' ∧
    lx_tokens (lex_close st') = lx_tokens (lex_close st) ++ ts ∧ (ca || sp = true → lx_open st' = None).
Proof.
  intros [Hr Ho Ht Hp Hpb] Hq Hpq Hsol Hn Hpb'. destruct (Hq st Ho Hn) as (st1 & E1 & Ho1 & T1 & C1).
  assert (Hr1 : reads (w ++ currentLine s ++ q) st1) by (rewrite (assoc_L (++)); by eapply reads_app).
  assert (Htrim : ∀ t, forallb is_space t = true → trimEnd ((currentLine s ++ q) ++ t) = currentLine s ++ q).
  { intros t Htb. rewrite trimEnd_app, Htb. apply trimEnd_solid. by apply ends_solid_app. }
  assert (Hout : reads_outside (w ++ currentLine s ++ q)) by by exists st1.
  destruct (piece_blank st1 Ho1 ltac:(done)) as (st2 & E2 & Ho2 & T2 & C2). rewrite app_nil_r in T2.
  exists (if sp then st2 else st1). split; [|by destruct sp; (split; [congruence|]); rewrite ?orb_true_r, ?orb_false_r; auto].
  split; cbn -[trimEnd slen].
  - destruct sp; rewrite ?app_nil_r; [|done]. rewrite (assoc_L (++)). eapply reads_app; [exact Hr1|exact E2].
  - by destruct sp.
  - rewrite Htrim by by destruct sp. done.
  - unfold printable in *. rewrite !Forall_app. split_and!; [done|done|]. destruct sp; repeat constructor; done.
  - intros Hpos. destruct Hpb' as [->|(-> & [->| ->])].
    + destruct (Hpb Hpos) as (a & b & Hline & Hlen & Hbr & Hbl). exists a, ((b ++ q) ++ if sp then [SP] else []).
      split_and!; [by rewrite Hline, !(assoc_L (++))|done|]. split; [done|]. destruct Hbl as [?|Hb]; [by left|right]. by destruct b.
    + exists (currentLine s ++ q), [SP]. split_and!; [done|done|]. split; [|by right].
      rewrite <- (app_nil_r (currentLine s ++ q)), Htrim by done. done.
    + exists ((currentLine s ++ q) ++ [SP]), []. rewrite app_nil_r. split_and!; [done|by rewrite (slen_app _ [SP])|].
      split; [by rewrite Htrim|left]. by rewrite last_snoc.
Qed.

(** Adding a piece: it is written, unless it is too long; then the tokens stay. *)
Lemma addText_piece q (sp brk : bool) nc ca ts s w toks c :
  piece q nc ca ts → printable q → ends_solid q → at_tokens w s toks c → (nc = true → c = true) →
  let text := q ++ (if sp then [SP] else []) in
  ∃ s' o r, addText text brk s = (s', o, r) ∧
    ((r = Some tt ∧ at_tokens (w ++ delivered o) s' (toks ++ ts) (ca || sp || brk) ∧
      (∃ l st, currentLine s' = l ++ q ++ (if sp || brk then [SP] else []) ∧ reads ((w ++ delivered o) ++ l) st ∧
         outside st ∧ (nc = true → lx_open st = None)) ∧ (brk = true → 0 < preferredBreakpoint s'))
     ∨ (r = None ∧ at_tokens (w ++ delivered o) s' toks c ∧ softMargin s < slen (currentLine s) + slen text ∧ hard < 1 + slen text)).
Proof.
  intros Hq Hpq Hsol [Hs Hh (st & Hl & Ht & Hc)] Hn text.
  destruct (lexed_reserve (slen text) s w st Hl) as (s1 & o & b & st1 & Hr & Hcl & Hl1 & Hs1 & Hh1 & Hb).
  assert (Hc1 : c = true → lx_open st1 = None) by (intros Hct; eapply closes_open; [done|auto]).
  assert (Ht1 : lx_tokens (lex_close st1) = toks) by by rewrite (closes_close st st1 Hcl).
  unfold addText. unfold bind at 1. rewrite Hr. destruct b; cbn [negb].
  2: { exists s1, o, None. unfold throw. rewrite app_nil_r. split; [done|]. right. rewrite Hh in Hb. split; [done|]. split; [|by apply Hb].
       split; [congruence..|]. exists st1. by split_and!. }
  rewrite bind_modify.
  assert (Hlast : last_char text = Some SP ↔ sp = true).
  { unfold text, last_char. destruct Hsol as (p & d & -> & Hd). destruct sp; [by rewrite last_snoc|].
    rewrite app_nil_r, last_snoc. split; [intros [= ->]; done|done]. }
  set (pb := if brk then slen (currentLine s1 ++ text) else preferredBreakpoint s1).
  destruct (lexed_piece _ s1 st1 q (sp || brk) pb nc ca ts Hl1 Hq Hpq Hsol) as (st2 & Hl2 & T2 & C2).
  { auto. }
  { unfold pb, text. destruct brk; [right|by left]. split; [apply orb_true_r|]. destruct sp; [right|left].
    - rewrite (assoc_L (++)), (slen_app (_ ++ _) [SP]). done.
    - by rewrite app_nil_r. }
  set (s2 := s1 <| currentLine := _ |> <| preferredBreakpoint := pb |>) in *.
  assert (Hrun : (when brk (modify (λ s, s <| preferredBreakpoint := slen (currentLine s) |>) >>
      when (negb (bool_decide (last_char text = Some SP))) (this, currentLine ::= (λ l, l ++ [SP]))) : em unit)
    (s1 <| currentLine ::= (λ l, l ++ text) |>) = (s2, [], Some tt)).
  { unfold s2, pb, text in *. destruct brk; cbn [when].
    - rewrite bind_modify. destruct sp; [rewrite bool_decide_eq_true_2 by by apply Hlast|
        rewrite bool_decide_eq_false_2 by (rewrite Hlast; done)]; cbn [negb when orb]; unfold modify, skip, ret;
        destruct s1; unfold update; cbn; by rewrite ?app_nil_r, ?(assoc_L (++)).
    - unfold skip, ret. destruct s1, sp; unfold update; cbn; by rewrite ?app_nil_r, ?(assoc_L (++)). }
  rewrite Hrun. exists s2, o, (Some tt). rewrite app_nil_r. split; [done|]. left. split; [done|]. split; [|split].
  - split; [cbn; congruence..|]. exists st2. split_and!; [done|by rewrite T2, Ht1|]. intros Hca. apply C2.
    by destruct ca, sp, brk.
  - exists (currentLine s1), st1. split_and!; [cbn; by rewrite (assoc_L (++))|apply Hl1|apply Hl1|auto].
  - intros ->. unfold s2, pb, text. cbn -[slen]. destruct Hsol as (p & d & -> & _).
    rewrite !slen_app. change (slen [d]) with 1. pose proof (slen_nonneg (currentLine s1)). pose proof (slen_nonneg p).
    pose proof (slen_nonneg (if sp then [SP] else [])). lia.
Qed.

(** A piece that is short enough is written. *)
Lemma writes_addText q (sp brk : bool) nc ca ts :
  piece q nc ca ts → printable q → ends_solid q → 1 + slen (q ++ (if sp then [SP] else [])) <= hard →
  writes (addText (q ++ (if sp then [SP] else [])) brk) nc (ca || sp || brk) (eq ts).
Proof.
  intros Hq Hp Hs Hlen s w toks c Hat Hn.
  destruct (addText_piece q sp brk nc ca ts s w toks c Hq Hp Hs Hat Hn) as (s' & o & r & E & [(-> & Hat' & _)|(_ & _ & _ & Hh)]).
  - by exists s', o, ts.
  - lia.
Qed.
End Lexing.
