(* ===== verification/AddressRoundtrip.v ===== *)
(** * AddressRoundtrip: addresses are written and read

    [parseAddressingHeader] of what [addAddresses] writes gives the addresses again,
    for names and addresses of printable ASCII (the predicates [name_ok] and
    [email_ok] say which), wherever the lines are broken. *)

From S2P Require Import Prelude Effects MimeUtils MimeHeaders MimeText MimeTree HeaderTokens DateHeaders HeaderEmitter Utf8 EmitterLines EmitterWords AddressHeaders EmitterLexing.

(** ** The addresses *)

(** Printable ASCII but for [=] and the backslash. *)
Definition name_char (c : Z) : bool := (32 <=? c) && (c <=? 126) && negb (c =? 61) && negb (c =? BACKSLASH).

(** A word of a name. *)
Definition name_word (w : jsstr) : Prop :=
  w ≠ [] ∧ forallb name_char w = true ∧ head w ≠ Some DOT ∧ seems_quoted w = false.

(** Words with single spaces between them. *)
Definition name_ok (x : jsstr) : Prop := Forall name_word (split_on SP x) ∧ seems_quoted x = false.

(** A local part or a domain without special characters. *)
Definition atom_char (c : Z) : bool := name_char c && negb (local_special c).
Definition atoms (x : jsstr) : Prop := x ≠ [] ∧ forallb atom_char x = true.

(** A local part that must be quoted. *)
Definition quoted_local (raw : jsstr) : Prop :=
  forallb (λ c, (32 <=? c) && (c <=? 126) && negb (c =? 61)) raw = true ∧ existsb local_special raw = true ∧
  forallb wsp raw = false.

Inductive local_ok : jsstr → jsstr → Prop :=
  | local_atoms x : atoms x → local_ok x x
  | local_quoted raw : quoted_local raw → local_ok ([QUOTE] ++ escape raw ++ [QUOTE]) raw.

(** An address [local@domain], and what is in the local part. *)
Definition email_parts (e local raw domain : jsstr) : Prop :=
  e = local ++ js "@" ++ domain ∧ local_ok local raw ∧ atoms domain.

Section Roundtrip.
Variable rfc2047 : bool.
Variable before : jsstr.
Variables soft hard : Z.

Abbreviation opts := (addr_opts rfc2047).
Abbreviation piece := (piece opts addr_delims).
Abbreviation writes := (writes opts addr_delims before soft hard).
Abbreviation at_tokens := (at_tokens opts addr_delims before soft hard).

(** ** Characters *)

Lemma name_char_range c : name_char c = true → 32 <= c <= 126 ∧ c ≠ 61 ∧ c ≠ BACKSLASH.
Proof. unfold name_char, BACKSLASH. rewrite !andb_true_iff, !negb_true_iff, !Z.eqb_neq, !Z.leb_le. tauto. Qed.

(** A name character that is no blank and not special is plain. *)
Lemma name_char_plain c :
  name_char c = true → c ≠ SP → c ∉ name_qchars → plain addr_delims opts c = true.
Proof.
  intros Hc Hsp Hq. pose proof (name_char_range c Hc) as [Hr _].
  pose proof (below_forall (λ c, negb (name_char c) || (c =? SP) || bool_decide (c ∈ name_qchars)
    || (plain addr_delims (addr_opts true) c && plain addr_delims (addr_opts false) c)) 127 ltac:(by vm_compute) c ltac:(lia)) as H.
  cbn beta in H. rewrite Hc, (proj2 (Z.eqb_neq c SP)), bool_decide_eq_false_2 in H by done. cbn [negb orb] in H.
  apply andb_true_iff in H as [? ?]. by destruct rfc2047.
Qed.

Lemma atom_char_plain c : atom_char c = true → plain addr_delims opts c = true ∧ name_char c = true.
Proof.
  intros Hc. assert (Hn : name_char c = true) by by apply andb_true_iff in Hc as [? _].
  pose proof (name_char_range c Hn) as [Hr _].
  pose proof (below_forall (λ c, negb (atom_char c) || (plain addr_delims (addr_opts true) c && plain addr_delims (addr_opts false) c))
    127 ltac:(by vm_compute) c ltac:(lia)) as H.
  cbn beta in H. rewrite Hc in H. cbn [negb orb] in H. apply andb_true_iff in H as [? ?]. by destruct rfc2047.
Qed.

Lemma name_chars_printable x : forallb name_char x = true → printable x.
Proof.
  rewrite forallb_forall. intros Hx. apply Forall_forall. intros c Hc%list_elem_of_In. by apply name_char_range, Hx.
Qed.

Lemma printable_ascii x : printable x → ascii_text x = true.
Proof.
  intros Hx. apply forallb_forall. intros c Hc%list_elem_of_In. unfold printable in Hx. rewrite Forall_forall in Hx.
  specialize (Hx c Hc). cbn beta in Hx. unfold ascii_char.
  by rewrite (proj2 (Z.leb_le 32 c)), (proj2 (Z.leb_le c 126)) by lia.
Qed.

Lemma printable_quotable x :
  printable x → 61 ∉ x → forallb wsp x = false → quotable opts x.
Proof.
  intros Hp He Hb. split; [|intros _; split_and!; [by apply printable_ascii|done|done]].
  apply forallb_forall. intros c Hc%list_elem_of_In. unfold printable in Hp. rewrite Forall_forall in Hp.
  specialize (Hp c Hc). cbn beta in Hp. apply negb_true_iff, bool_decide_eq_false. unfold LF, CR. set_solver by lia.
Qed.

Lemma printable_escape x : printable x → printable (escape x).
Proof. apply escape_forall. by unfold BACKSLASH. Qed.

Lemma slen_escape x : slen (escape x) <= 2 * slen x.
Proof.
  induction x as [|c x IH]; [done|]. cbn [escape flat_map]. fold (escape x). rewrite slen_app, slen_cons.
  destruct ((c =? QUOTE) || (c =? BACKSLASH)); rewrite ?slen_cons; change (slen []) with 0; lia.
Qed.

(** ** Words *)

Lemma join_split x : join [SP] (split_on SP x) = x.
Proof.
  induction x as [|c x IH]; [done|]. cbn [split_on]. pose proof (split_on_not_nil SP x) as Hne.
  destruct (Z.eqb_spec c SP) as [->|]; destruct (split_on SP x) as [|w l]; try done.
  - cbn [join app]. f_equal. exact IH.
  - rewrite <- IH. by destruct l.
Qed.

Lemma split_no_blank x : Forall (λ w, SP ∉ w) (split_on SP x).
Proof.
  induction x as [|c x IH]; [by repeat constructor; apply not_elem_of_nil|]. cbn [split_on].
  destruct (Z.eqb_spec c SP) as [->|Hc]; [by constructor; [apply not_elem_of_nil|]|].
  destruct (split_on SP x) as [|w l]; [by repeat constructor; set_solver|].
  apply Forall_cons_1 in IH as [Hw Hl]. constructor; [|done]. set_solver.
Qed.

(** The tokens of a phrase: the whole of it quoted, or its words. *)
Definition phrase_tokens (x : jsstr) (ts : list token) : Prop :=
  ts = [Token x] ∨ ts = map Token (split_on SP x).

Lemma name_ok_words x : name_ok x → Forall (λ w, name_word w ∧ SP ∉ w) (split_on SP x).
Proof. intros [Hw _]. apply Forall_and. split; [done|apply split_no_blank]. Qed.

Lemma forallb_join (p : Z → bool) ws : p SP = true → Forall (λ w, forallb p w = true) ws → forallb p (join [SP] ws) = true.
Proof.
  intros Hp Hws. induction Hws as [|w ws Hw Hws IH]; [done|]. destruct ws; [done|].
  cbn [join]. rewrite !forallb_app, Hw. cbn [forallb]. by rewrite Hp.
Qed.

(** A word that is written as it is. *)
Definition bare_word (w : jsstr) : Prop := w ≠ [] ∧ Forall (λ c, plain addr_delims opts c = true) w ∧ BACKSLASH ∉ w.

Lemma piece_bare w : bare_word w → piece w true false [Token w].
Proof.
  intros (Hne & Hp & Hb). pose proof (piece_word opts addr_delims w Hp Hne) as H. unfold newToken in H.
  by rewrite unescape_plain in H.
Qed.

Lemma piece_words ws : ws ≠ [] → Forall bare_word ws → piece (join [SP] ws) true false (map Token ws).
Proof.
  intros Hne Hws. induction Hws as [|w ws Hw Hws IH]; [done|]. destruct ws as [|w' ws]; [by apply piece_bare|].
  change (join [SP] (w :: w' :: ws)) with (w ++ ([SP] ++ join [SP] (w' :: ws))).
  change (map Token (w :: w' :: ws)) with ([Token w] ++ ([] ++ map Token (w' :: ws))).
  eapply piece_app; [by apply piece_bare|eapply piece_app; [apply piece_blank|by apply IH|done]|done].
Qed.

Lemma name_words_solid ws : ws ≠ [] → Forall (λ w, name_word w ∧ SP ∉ w) ws → ends_solid (join [SP] ws).
Proof.
  intros Hne Hws. induction Hws as [|w ws [(Hw & Hc & _) Hsp] Hws IH]; [done|]. destruct ws as [|w' ws].
  - cbn [join]. destruct w as [|d w _] using rev_ind; [done|]. exists w, d. split; [done|].
    rewrite forallb_app in Hc. apply andb_true_iff in Hc as [_ Hc]. cbn in Hc. rewrite andb_true_r in Hc.
    apply name_char_range in Hc as [Hr _]. assert (d ≠ SP) as Hd by set_solver.
    destruct (is_space d) eqn:E; [|done]. exfalso. apply Hd, (printable_space [d]); [by constructor|set_solver|done].
  - change (join [SP] (w :: w' :: ws)) with (w ++ ([SP] ++ join [SP] (w' :: ws))). do 2 apply ends_solid_app. by apply IH.
Qed.

Record name_facts (x : jsstr) : Prop := {
  name_nonempty : x ≠ [];
  name_printable : printable x;
  name_no_eq : 61 ∉ x;
  name_no_backslash : BACKSLASH ∉ x;
  name_solid : ends_solid x;
  name_not_blank : forallb wsp x = false
}.

Lemma name_ok_facts x : name_ok x → name_facts x.
Proof.
  intros Hx. pose proof (name_ok_words x Hx) as Hw. rewrite <- (join_split x). set (ws := split_on SP x) in *.
  assert (Hne : ws ≠ []) by apply split_on_not_nil. pose proof (name_words_solid ws Hne Hw) as Hsol.
  assert (Hc : forallb name_char (join [SP] ws) = true).
  { apply forallb_join; [done|]. eapply Forall_impl; [exact Hw|]. by intros w [(_ & ? & _) _]. }
  assert (Hin : ∀ c, c ∈ join [SP] ws → 32 <= c <= 126 ∧ c ≠ 61 ∧ c ≠ BACKSLASH).
  { intros c Hin. rewrite forallb_forall in Hc. by apply name_char_range, Hc, list_elem_of_In. }
  destruct Hsol as (p & d & E & Hd). split; [by rewrite E; destruct p|by apply name_chars_printable| | |by exists p, d|].
  - intros Hi. by apply Hin in Hi as (_ & ? & _).
  - intros Hi. by apply Hin in Hi as (_ & _ & ?).
  - rewrite E, forallb_app. cbn. destruct (wsp d) eqn:Ew; [|by rewrite andb_false_r]. exfalso.
    unfold wsp in Ew. apply bool_decide_eq_true in Ew. assert (Hds : is_space d = true); [|congruence].
    rewrite !elem_of_cons in Ew. destruct Ew as [->|[->|[->|[->|Ew]]]]; try done. by apply elem_of_nil in Ew.
Qed.

Lemma needsQuote_false x qchars :
  qchars ≠ [] → seems_quoted x = false → needsQuote x qchars = false → ∀ c, c ∈ x → c ∉ qchars.
Proof.
  unfold needsQuote. intros Hq -> Hn c Hc Hcq. rewrite (proj2 (jseq_false qchars [])) in Hn by done. cbn [negb andb] in Hn.
  assert (existsb (λ c, bool_decide (c ∈ qchars)) x = true); [|congruence].
  apply existsb_exists. exists c. split; [by apply list_elem_of_In|]. by apply bool_decide_eq_true.
Qed.

Lemma elem_of_join w ws c : w ∈ ws → c ∈ w → c ∈ join [SP] ws.
Proof.
  intros Hw Hc. induction ws as [|v ws IH]; [by apply elem_of_nil in Hw|].
  assert (join [SP] (v :: ws) = v ++ match ws with [] => [] | _ => [SP] ++ join [SP] ws end) as ->.
  { destruct ws; [by rewrite app_nil_r|done]. }
  apply elem_of_app. apply elem_of_cons in Hw as [->|Hw]; [by left|right]. specialize (IH Hw).
  destruct ws; [by apply elem_of_nil in Hw|]. apply elem_of_app. by right.
Qed.

Lemma bare_name_words x : name_ok x → needsQuote x name_qchars = false → Forall bare_word (split_on SP x).
Proof.
  intros Hx Hn. pose proof (name_ok_words x Hx) as Hw. destruct Hx as [_ Hsq].
  pose proof (needsQuote_false x name_qchars ltac:(done) Hsq Hn) as Hout.
  assert (Hsub : ∀ w, w ∈ split_on SP x → ∀ c, c ∈ w → c ∈ x).
  { intros w Hin c Hc. rewrite <- (join_split x). by apply (elem_of_join w). }
  rewrite Forall_forall in Hw |- *. intros w Hin. destruct (Hw w Hin) as [(Hne & Hc & _) Hsp]. split_and!; [done| |].
  - apply Forall_forall. intros c Hcw. apply name_char_plain; [|set_solver|by apply Hout, (Hsub w)].
    rewrite forallb_forall in Hc. by apply Hc, list_elem_of_In.
  - intros Hb. rewrite forallb_forall in Hc. apply list_elem_of_In in Hb. by apply Hc in Hb.
Qed.

(** What [addQuotable] adds of a name, and its tokens. *)
Definition quoted_text_of (x : jsstr) : jsstr :=
  if needsQuote x name_qchars then [QUOTE] ++ escape x ++ [QUOTE] else x.

Lemma quoted_solid x : ends_solid ([QUOTE] ++ escape x ++ [QUOTE]).
Proof. exists ([QUOTE] ++ escape x), QUOTE. by rewrite (assoc_L (++)). Qed.

Lemma quoted_printable x : printable x → printable ([QUOTE] ++ escape x ++ [QUOTE]).
Proof. intros Hx. unfold printable. rewrite !Forall_app. split_and!; [by repeat constructor|by apply printable_escape|by repeat constructor]. Qed.

Lemma slen_quoted x : slen ([QUOTE] ++ escape x ++ [QUOTE]) <= 2 * slen x + 2.
Proof. rewrite !slen_app. pose proof (slen_escape x). change (slen [QUOTE]) with 1. lia. Qed.

Lemma piece_quoted_name x :
  printable x → 61 ∉ x → forallb wsp x = false → piece ([QUOTE] ++ escape x ++ [QUOTE]) true false [Token x].
Proof.
  intros Hp He Hb. eapply piece_weaken. apply piece_quoted; [done| |by apply printable_quotable]. change addr_delims with (js ":,;<>@"). set_solver by lia.
Qed.

Lemma name_piece x :
  name_ok x → ∃ ts, piece (quoted_text_of x) true false ts ∧ phrase_tokens x ts ∧
    printable (quoted_text_of x) ∧ ends_solid (quoted_text_of x) ∧ slen (quoted_text_of x) <= 2 * slen x + 2.
Proof.
  intros Hx. destruct (name_ok_facts x Hx) as [Hne Hp He Hb Hsol Hbl]. unfold quoted_text_of.
  destruct (needsQuote x name_qchars) eqn:Hn.
  - exists [Token x]. split_and!; [by apply piece_quoted_name|by left|by apply quoted_printable|apply quoted_solid|apply slen_quoted].
  - exists (map Token (split_on SP x)). split_and!; [|by right|done|done|pose proof (slen_nonneg x); lia].
    rewrite <- (join_split x) at 1. apply piece_words; [apply split_on_not_nil|by apply bare_name_words].
Qed.

(** ** Phrases *)

Definition short (x : jsstr) : Prop := 2 * slen x + 3 <= hard.

Lemma addQuotable_name x brk : x ≠ [] → addQuotable x name_qchars brk = addText (quoted_text_of x) brk.
Proof.
  intros Hx. unfold addQuotable. assert ((slen x =? 0) = false) as ->; [|done].
  apply Z.eqb_neq. destruct x; [done|]. rewrite slen_cons. pose proof (slen_nonneg x). lia.
Qed.

Lemma writes_text q (brk nc ca : bool) ts :
  piece q nc ca ts → printable q → ends_solid q → 1 + slen q <= hard → writes (addText q brk) nc (ca || brk) (eq ts).
Proof.
  intros Hq Hp Hs Hlen. pose proof (writes_addText opts addr_delims before soft hard q false brk nc ca ts Hq Hp Hs) as H.
  rewrite app_nil_r, orb_false_r in H. by apply H.
Qed.

Lemma writes_word w brk :
  name_word w → SP ∉ w → short w → writes (addQuotable w name_qchars brk) true brk (eq [Token w]).
Proof.
  intros Hw Hsp Hlen. assert (Hsplit : split_on SP w = [w]) by by apply split_on_none.
  assert (Hok : name_ok w) by (split; [rewrite Hsplit; by constructor|apply Hw]).
  destruct (name_piece w Hok) as (ts & Hq & Hts & Hp & Hs & Hl). rewrite addQuotable_name by apply Hw.
  assert (ts = [Token w]) as -> by (destruct Hts as [->| ->]; [done|by rewrite Hsplit]).
  apply (writes_text _ brk true false); [done..|]. unfold short in Hlen. lia.
Qed.

Lemma writes_addWords ws brk :
  ws ≠ [] → Forall (λ w, (name_word w ∧ SP ∉ w) ∧ short w) ws →
  writes (addWords ws name_qchars brk) true brk (eq (map Token ws)).
Proof.
  intros Hne Hws. induction Hws as [|w ws [[Hw Hsp] Hl] Hws IH]; [done|]. destruct ws as [|w' ws].
  - by apply writes_word.
  - change (addWords (w :: w' :: ws) name_qchars brk) with (addQuotable w name_qchars true >> addWords (w' :: ws) name_qchars brk).
    eapply writes_impl; [eapply writes_bind; [by apply writes_word|by apply IH|done]| |done|done].
    by intros ts (t1 & t2 & -> & <- & <-).
Qed.

Lemma collapse_id x : wsp SP = true → Forall (λ w, name_word w ∧ SP ∉ w) (split_on SP x) → collapse x = x.
Proof.
  intros _ Hw. rewrite <- (join_split x). pose proof (split_on_not_nil SP x) as Hne. revert Hw Hne.
  generalize (split_on SP x) as ws. clear x. intros ws Hws Hne.
  assert (Hchars : ∀ w t, name_word w ∧ SP ∉ w → collapse (w ++ t) = w ++ collapse t).
  { intros w t [(_ & Hc & _) Hsp]. induction w as [|c w IH]; [done|]. cbn [forallb] in Hc. apply andb_true_iff in Hc as [Hc Hcs].
    apply not_elem_of_cons in Hsp as [Hcsp Hsp]. cbn [app collapse].
    assert (wsp c = false) as ->; [|by rewrite IH]. apply name_char_range in Hc as [Hr _].
    unfold wsp. apply bool_decide_eq_false. unfold SP, TAB, CR, LF in *. set_solver by lia. }
  induction Hws as [|w ws Hw Hws IH]; [done|]. destruct ws as [|w' ws].
  - cbn [join]. rewrite <- (app_nil_r w) at 1. rewrite Hchars by done. by rewrite app_nil_r.
  - change (join [SP] (w :: w' :: ws)) with (w ++ SP :: join [SP] (w' :: ws)). rewrite Hchars by done. f_equal.
    apply Forall_cons_1 in Hws as [[(Hne' & Hc & _) Hsp] _]. specialize (IH ltac:(done)).
    assert (∃ c l, join [SP] (w' :: ws) = c :: l ∧ wsp c = false) as (c & l & E & Hcw).
    { destruct w' as [|c w']; [done|]. exists c, (tail (join [SP] ((c :: w') :: ws))). split; [by destruct ws|]. cbn [forallb] in Hc.
      apply andb_true_iff in Hc as [Hc _]. apply name_char_range in Hc as [Hr _]. apply not_elem_of_cons in Hsp as [Hcsp _].
      unfold wsp. apply bool_decide_eq_false. unfold SP, TAB, CR, LF in *. set_solver by lia. }
    rewrite E in *. cbn [collapse]. change (wsp SP) with true. cbv iota. rewrite Hcw. f_equal. cbn [collapse] in IH. rewrite Hcw in IH. exact IH.
Qed.

Lemma printable_not_nonAscii x : printable x → nonAscii x = false.
Proof.
  intros Hx. unfold nonAscii. apply not_true_iff_false. intros (c & Hc & Hn)%existsb_exists.
  unfold printable in Hx. rewrite Forall_forall in Hx. apply list_elem_of_In in Hc. specialize (Hx c Hc). cbn beta in Hx.
  rewrite (proj2 (Z.leb_le 0x20 c)), (proj2 (Z.leb_le c 0x7e)) in Hn by lia. done.
Qed.

(** The last blank of a line that ends with words outside of quotes. *)
Lemma lastIndexOf_last s x y : x ∉ y → lastIndexOf (s ++ x :: y) x = slen s.
Proof.
  intros Hy. assert (Hn : ∀ y, x ∉ y → lastIndexOf y x = -1).
  { clear. intros y Hy. induction y as [|c y IH]; [done|]. apply not_elem_of_cons in Hy as [Hc Hy].
    cbn [lastIndexOf]. rewrite IH by done. change (0 <=? -1) with false. cbv iota. by rewrite (proj2 (Z.eqb_neq c x)) by congruence. }
  induction s as [|c s IH]; cbn [app lastIndexOf].
  - rewrite Hn by done. change (0 <=? -1) with false. cbv iota. by rewrite Z.eqb_refl.
  - rewrite IH, slen_cons. pose proof (slen_nonneg s). rewrite (proj2 (Z.leb_le 0 (slen s))) by done. lia.
Qed.

Lemma join_snoc ws y : ws ≠ [] → join [SP] (ws ++ [y]) = join [SP] ws ++ SP :: y.
Proof.
  intros Hne. induction ws as [|w ws IH]; [done|]. destruct ws as [|w' ws]; [done|].
  change (join [SP] ((w :: w' :: ws) ++ [y])) with (w ++ [SP] ++ join [SP] ((w' :: ws) ++ [y])). rewrite IH by done.
  change (join [SP] (w :: w' :: ws)) with (w ++ [SP] ++ join [SP] (w' :: ws)). by rewrite <- !(assoc_L (++)).
Qed.

(** A name with blanks is words, the last one behind a blank. *)
Lemma last_word x :
  name_ok x → SP ∈ x → ∃ ws y, split_on SP x = ws ++ [y] ∧ ws ≠ [] ∧ x = join [SP] ws ++ SP :: y ∧ SP ∉ y.
Proof.
  intros Hx Hsp. pose proof (split_no_blank x) as Hw. pose proof (join_split x) as Hj.
  destruct (split_on SP x) as [|y ws _] eqn:E using rev_ind; [by apply split_on_not_nil in E|].
  apply Forall_app in Hw as [_ [Hy _]%Forall_cons_1].
  assert (ws ≠ []) as Hne.
  { intros ->. cbn in Hj. by subst y. }
  exists ws, y. by rewrite join_snoc in Hj.
Qed.

(** The blank before the last word of a bare name becomes a breakpoint. *)
Lemma at_last_blank w s toks c x l st :
  at_tokens w s toks c → name_ok x → SP ∈ x → needsQuote x name_qchars = false →
  currentLine s = l ++ x → reads opts addr_delims before (w ++ l) st → outside st → lx_open st = None →
  at_tokens w (s <| preferredBreakpoint := lastIndexOf (currentLine s) SP |>) toks c.
Proof.
  intros [Hs Hh (st' & [Hr Ho Ht Hp _] & Htok & Hc)] Hx Hsp Hn Hline Hl Hol Hopen. split; [done..|]. exists st'.
  split; [|done]. split; try done. intros _. destruct (last_word x Hx Hsp) as (ws & y & Hsplit & Hne & Hxy & Hy).
  pose proof (bare_name_words x Hx Hn) as Hbare. pose proof (name_ok_words x Hx) as Hwords. rewrite Hsplit in Hbare, Hwords.
  apply Forall_app in Hbare as [Hbare _]. apply Forall_app in Hwords as [Hwords _].
  destruct (piece_words ws Hne Hbare st Hol (λ _, Hopen)) as (st2 & E2 & Ho2 & _).
  exists (l ++ join [SP] ws), (SP :: y). cbn -[slen lastIndexOf]. rewrite Hline, Hxy, (assoc_L (++)).
  split_and!; [done|by rewrite lastIndexOf_last|]. split; [|by right].
  rewrite trimEnd_solid by by apply ends_solid_app, name_words_solid. exists st2. split; [|done].
  rewrite (assoc_L (++)). by eapply reads_app.
Qed.

Lemma quoted_ends_quote x : needsQuote x name_qchars = true → last_char (quoted_text_of x) = Some QUOTE.
Proof. intros Hn. unfold quoted_text_of, last_char. by rewrite Hn, (assoc_L (++)), last_snoc. Qed.

Lemma writes_addPhrase `{TextEncoder} x brk :
  name_ok x → Forall short (split_on SP x) → writes (addPhrase x name_qchars brk) true brk (phrase_tokens x).
Proof.
  intros Hx Hshort s w toks c Hat Hc. specialize (Hc eq_refl). subst c.
  pose proof (name_ok_words x Hx) as Hw. destruct (name_ok_facts x Hx) as [Hne Hp _ _ _ _].
  assert (Hwords : ∀ s w, at_tokens w s toks true → ∃ s' o ts, addWords (split_on SP x) name_qchars brk s = (s', o, Some tt) ∧
    phrase_tokens x ts ∧ at_tokens (w ++ delivered o) s' (toks ++ ts) brk).
  { intros s0 w0 Hat0. destruct (writes_addWords (split_on SP x) brk (split_on_not_nil SP x) ltac:(by apply Forall_and) s0 w0 toks true Hat0)
      as (s' & o & ts & E & <- & H'); [done|]. eexists s', o, _. split_and!; [done|by right|done]. }
  unfold addPhrase. rewrite (collapse_id x eq_refl Hw), bind_gets, printable_not_nonAscii, andb_false_r, bind_gets by done.
  destruct (slen (currentLine s) + slen x <? softMargin s); [|by apply Hwords].
  destruct (name_piece x Hx) as (ts & Hq & Hts & Hqp & Hqs & _). unfold catch. rewrite addQuotable_name by done.
  destruct (addText_piece opts addr_delims before soft hard _ false brk true false ts s w toks true Hq Hqp Hqs Hat ltac:(done))
    as (s1 & o1 & r & E & Hcase). rewrite app_nil_r in E. unfold bind at 1. rewrite E.
  destruct Hcase as [(-> & Hat1 & (l & st & Hline & Hr & Ho & Hopen) & Hpb)|(-> & Hat1 & _)].
  - rewrite bind_gets. unfold id. cbn [orb] in *.
    destruct (_ && _ && _) eqn:Econd; cbn [when]; unfold skip, ret, modify; rewrite app_nil_r.
    2: { by exists s1, o1, ts. }
    eexists _, o1, ts. split_and!; [done|done|]. rewrite !andb_true_iff, !bool_decide_eq_true, negb_true_iff, Z.eqb_eq, bool_decide_eq_false in Econd.
    destruct Econd as [[Epb Esp] Elast]. destruct brk; [specialize (Hpb eq_refl); lia|].
    rewrite app_nil_r in Hline. destruct (needsQuote x name_qchars) eqn:Hn.
    { exfalso. apply Elast. rewrite Hline. pose proof (quoted_ends_quote x Hn) as Hlast. unfold last_char in *.
      apply last_Some in Hlast as (p & ->). by rewrite (assoc_L (++)), last_snoc. }
    eapply at_last_blank; [done..| |done|done|by apply Hopen]. rewrite Hline. unfold quoted_text_of. by rewrite Hn.
  - destruct (Hwords s1 _ Hat1) as (s2 & o2 & ts2 & -> & Hts2 & Hat2). exists s2, (o1 ++ o2), ts2.
    rewrite delivered_data_app, (assoc_L (++)). done.
Qed.

(** ** Addresses *)

Definition name_fits (x : jsstr) : Prop := name_ok x ∧ Forall short (split_on SP x).
Definition email_fits (e local raw domain : jsstr) : Prop :=
  email_parts e local raw domain ∧ slen local < hard ∧ slen domain + 2 < hard.

(** The addresses that can be written: a name, an email, or both. *)
Inductive mailbox_fits : mailbox → Prop :=
  | fits_email e l r d : email_fits e l r d → mailbox_fits (mkMailbox [] e)
  | fits_both n e l r d : name_fits n → email_fits e l r d → mailbox_fits (mkMailbox n e)
  | fits_name n : name_fits n → mailbox_fits (mkMailbox n []).

Inductive mailbox_tokens : mailbox → list token → Prop :=
  | tokens_email e l r d : email_parts e l r d → mailbox_tokens (mkMailbox [] e) [Token r; Delim 64; Token d]
  | tokens_both n e l r d ts :
      name_ok n → email_parts e l r d → phrase_tokens n ts →
      mailbox_tokens (mkMailbox n e) (ts ++ [Delim 60; Token r; Delim 64; Token d; Delim 62])
  | tokens_name n ts : name_ok n → phrase_tokens n ts → mailbox_tokens (mkMailbox n []) ts.

Lemma atoms_bare x : atoms x → bare_word x ∧ printable x ∧ ends_solid x ∧ 64 ∉ x.
Proof.
  intros [Hne Hc]. rewrite forallb_forall in Hc. assert (Hch : ∀ c, c ∈ x → atom_char c = true).
  { intros c Hin. by apply Hc, list_elem_of_In. }
  assert (Hsp : ∀ c, atom_char c = true → is_space c = false ∧ c ≠ 64 ∧ 32 <= c <= 126 ∧ c ≠ BACKSLASH).
  { intros c Ha. pose proof Ha as [Hn Hs]%andb_true_iff. pose proof (name_char_range c Hn) as (Hr & _ & Hb). apply negb_true_iff in Hs.
    split_and!; [|intros ->; by vm_compute in Hs|lia|lia|done].
    destruct (is_space c) eqn:E; [|done]. exfalso. rewrite (printable_space [c] c) in Hs by (done || by constructor || set_solver).
    by vm_compute in Hs. }
  split_and!.
  - split_and!; [done| |].
    + apply Forall_forall. intros c Hin. by apply atom_char_plain, Hch.
    + intros Hin. apply Hch, Hsp in Hin. tauto.
  - apply Forall_forall. intros c Hin. apply Hch, Hsp in Hin. lia.
  - destruct x as [|d x _] using rev_ind; [done|]. exists x, d. split; [done|]. apply Hsp, Hch. set_solver.
  - intros Hin. apply Hch, Hsp in Hin. tauto.
Qed.

Lemma piece_delim c : c ∈ addr_delims → piece [c] false true [Delim c].
Proof.
  intros Hc. apply piece_delimiter; [..|done]; change addr_delims with (js ":,;<>@") in Hc;
    rewrite !elem_of_cons in Hc; unfold BACKSLASH; destruct Hc as [->|[->|[->|[->|[->|[->|Hc]]]]]]; try done; by apply elem_of_nil in Hc.
Qed.

Lemma delim_in c : bool_decide (c ∈ addr_delims) = true → c ∈ addr_delims.
Proof. apply bool_decide_eq_true. Qed.

(** ** Local parts and domains *)

Lemma local_piece l r : local_ok l r → piece l true false [Token r] ∧ printable l ∧ ends_solid l ∧ l ≠ [] ∧ needsQuote l local_qchars = false.
Proof.
  intros [x Hx|raw (Hc & Hs & Hb)].
  - destruct (atoms_bare x Hx) as (Hbare & Hp & Hsol & _). split_and!; [by apply piece_bare|done|done|apply Hx|].
    unfold needsQuote. apply andb_false_iff. right. apply not_true_iff_false. intros (c & Hin & Hq)%existsb_exists.
    destruct Hx as [_ Hx]. rewrite forallb_forall in Hx. apply Hx, andb_true_iff in Hin as [Hn Hl].
    apply negb_true_iff in Hl. unfold local_special in Hl. apply bool_decide_eq_false in Hl. apply bool_decide_eq_true in Hq.
    apply Hl. unfold local_qchars in Hq. change (js " !()<>[]:;@\,") with ([32; 33] ++ js "()<>[]:;@\,"). set_solver.
  - assert (Hp : printable raw ∧ 61 ∉ raw).
    { rewrite forallb_forall in Hc. assert (H : ∀ c, c ∈ raw → 32 <= c <= 126 ∧ c ≠ 61).
      { intros c Hin%list_elem_of_In. specialize (Hc c Hin). rewrite !andb_true_iff, negb_true_iff, Z.eqb_neq in Hc. lia. }
      split; [apply Forall_forall; intros c Hin; by apply H|]. intros Hin. by apply H in Hin as [_ ?]. }
    destruct Hp as [Hp He]. split_and!; [by apply piece_quoted_name|by apply quoted_printable|apply quoted_solid|done|].
    unfold needsQuote, seems_quoted, last_char. by rewrite (assoc_L (++)), last_snoc.
Qed.

Lemma domain_piece d : atoms d → piece (js "@" ++ d) false false [Delim 64; Token d] ∧ printable (js "@" ++ d) ∧ ends_solid (js "@" ++ d).
Proof.
  intros Hd. destruct (atoms_bare d Hd) as (Hbare & Hp & Hsol & _). split_and!.
  - change [Delim 64; Token d] with ([Delim 64] ++ [Token d]).
    eapply piece_app; [by apply piece_delim, delim_in|by apply piece_bare|done].
  - unfold printable. apply Forall_app. split; [by repeat constructor|done].
  - by apply ends_solid_app.
Qed.

Lemma angle_piece d :
  atoms d → piece ((js "@" ++ d) ++ js ">") false true [Delim 64; Token d; Delim 62] ∧ printable ((js "@" ++ d) ++ js ">") ∧
            ends_solid ((js "@" ++ d) ++ js ">").
Proof.
  intros Hd. destruct (domain_piece d Hd) as (Hq & Hp & _). split_and!.
  - change [Delim 64; Token d; Delim 62] with ([Delim 64; Token d] ++ [Delim 62]).
    eapply piece_app; [done|by apply piece_delim, delim_in|done].
  - unfold printable. apply Forall_app. split; [done|by repeat constructor].
  - by exists (js "@" ++ d), 62.
Qed.

(** The parts of an address that [addAddress] finds. *)
Lemma email_split e l r d :
  email_parts e l r d →
  (lastIndexOf e 64 =? -1) = false ∧ slice e 0 (lastIndexOf e 64) = l ∧ slice_from e (lastIndexOf e 64) = js "@" ++ d ∧ e ≠ [].
Proof.
  intros (-> & Hl & Hd). change (js "@" ++ d) with (64 :: d).
  rewrite lastIndexOf_last by by apply atoms_bare. pose proof (slen_nonneg l). split_and!.
  - apply Z.eqb_neq. lia.
  - unfold slen. by rewrite slice_0_take, take_app_length.
  - unfold slen. by rewrite slice_from_drop, drop_app_length.
  - by destruct l.
Qed.

Lemma writes_domain d (angle : bool) :
  atoms d → slen d + 2 < hard →
  writes (addText ((js "@" ++ d) ++ (if angle then js ">" else [])) false) false false
    (eq ([Delim 64; Token d] ++ if angle then [Delim 62] else [])).
Proof.
  intros Hd Hl. assert (slen (js "@" ++ d) = 1 + slen d) as Hlen by (by rewrite slen_app).
  destruct angle.
  - destruct (angle_piece d Hd) as (Hq & Hp & Hs). eapply writes_impl; [|done..|done].
    eapply writes_impl; [apply (writes_text _ false false true _ Hq Hp Hs)|done|done|done].
    rewrite slen_app, Hlen. change (slen (js ">")) with 1. lia.
  - destruct (domain_piece d Hd) as (Hq & Hp & Hs). rewrite !app_nil_r.
    apply (writes_text _ false false false _ Hq Hp Hs). lia.
Qed.

(** The part of [addAddress] behind the name. *)
Lemma writes_email e l r d (angle : bool) :
  email_fits e l r d →
  writes (addQuotable l local_qchars false >> addText ((js "@" ++ d) ++ (if angle then js ">" else [])) false)
    true false (eq ([Token r; Delim 64; Token d] ++ if angle then [Delim 62] else [])).
Proof.
  intros ((_ & Hl & Hd) & Hll & Hld). destruct (local_piece l r Hl) as (Hq & Hp & Hs & Hne & Hn).
  assert (addQuotable l local_qchars false = addText l false) as ->.
  { unfold addQuotable. rewrite Hn. assert ((slen l =? 0) = false) as ->; [|done].
    apply Z.eqb_neq. destruct l; [done|]. rewrite slen_cons. pose proof (slen_nonneg l). lia. }
  eapply writes_impl; [eapply writes_bind; [apply (writes_text l false true false _ Hq Hp Hs); lia|by apply (writes_domain d angle)|done]| |done|done].
  by intros ts (t1 & t2 & -> & <- & <-).
Qed.

Lemma str_truthy_true (x : jsstr) : x ≠ [] → str_truthy x = true.
Proof. by destruct x. Qed.

Lemma writes_addAddress `{TextEncoder} m : mailbox_fits m → writes (addAddress m) true false (mailbox_tokens m).
Proof.
  intros Hm. destruct Hm as [e l r d He|n e l r d [Hn Hs] He|n [Hn Hs]]; unfold addAddress; cbn [HeaderEmitter.name HeaderEmitter.email].
  - destruct (email_split e l r d (proj1 He)) as (-> & -> & -> & _). cbn [str_truthy].
    eapply writes_impl; [apply (writes_email e l r d false He)| |done|done]. intros ts <-. apply (tokens_email e l r d), He.
  - destruct (email_split e l r d (proj1 He)) as (-> & -> & -> & Hne).
    rewrite (str_truthy_true n) by (by apply name_ok_facts). rewrite (str_truthy_true e) by done. cbn [negb].
    assert (Hlt : writes (addText (js "<") false) false true (eq [Delim 60])).
    { apply (writes_text (js "<") false false true); [by apply piece_delim, delim_in|by repeat constructor|by exists [], 60|].
      change (slen (js "<")) with 1. destruct He as (_ & ? & ?). pose proof (slen_nonneg d). lia. }
    eapply writes_impl; [eapply writes_bind; [apply writes_reserve with (c := true)|eapply writes_bind;
      [by apply (writes_addPhrase n true)|eapply writes_bind; [exact Hlt|by apply (writes_email e l r d true)|done]|done]|done]| |done|done].
    intros ts (t1 & t2 & -> & <- & t3 & t4 & -> & Ht3 & t5 & t6 & -> & <- & <-). cbn [app]. econstructor; [done|by apply He|done].
  - rewrite (str_truthy_true n) by (by apply name_ok_facts). cbn [str_truthy negb].
    eapply writes_impl; [eapply writes_bind; [apply writes_reserve with (c := true)|eapply writes_bind;
      [by apply (writes_addPhrase n true)|apply writes_skip with (c := true)|done]|done]| |done|done].
    intros ts (t1 & t2 & -> & <- & t3 & t4 & -> & Ht3 & <-). cbn [app]. rewrite app_nil_r. by constructor.
Qed.

(** ** Lists *)

Inductive list_tokens {A} (P : A → list token → Prop) : bool → list A → list token → Prop :=
  | list_nil b : list_tokens P b [] []
  | list_cons (b : bool) a l ts ts' :
      P a ts → list_tokens P true l ts' → list_tokens P b (a :: l) ((if b then [Delim 44] else []) ++ ts ++ ts').

Lemma writes_list {A} (add : A → em unit) (P : A → list token → Prop) b l :
  Forall (λ a, writes (add a) true false (P a)) l → 3 <= hard →
  writes (add_list add b l) (negb b) false (list_tokens P b l).
Proof.
  intros Hl Hh. revert b. induction Hl as [|a l Ha Hl IH]; intros b; cbn [add_list].
  - eapply writes_impl; [apply writes_skip with (c := false)|intros ts <-; constructor|done|done].
  - assert (Hcomma : writes (when b (addText (js ", ") true)) (negb b) true (eq (if b then [Delim 44] else []))).
    { destruct b; cbn [when negb].
      - apply (writes_addText opts addr_delims before soft hard (js ",") true true false true);
          [by apply piece_delim, delim_in|by repeat constructor|by exists [], 44|]. change (slen _) with 2. lia.
      - apply writes_skip. }
    eapply writes_impl; [eapply writes_bind; [exact Hcomma|eapply writes_bind; [exact Ha|apply (IH true)|done]|done]| |done|done].
    intros ts (t1 & t2 & -> & <- & t3 & t4 & -> & Ht3 & Ht4). by constructor.
Qed.

Inductive address_fits : address → Prop :=
  | fits_mailbox m : mailbox_fits m → address_fits (Mailbox m)
  | fits_group n ms : name_fits n → Forall mailbox_fits ms → address_fits (Group n ms).

Inductive address_tokens : address → list token → Prop :=
  | tokens_mailbox m ts : mailbox_tokens m ts → address_tokens (Mailbox m) ts
  | tokens_group n ms ts ts' :
      name_ok n → phrase_tokens n ts → list_tokens mailbox_tokens false ms ts' →
      address_tokens (Group n ms) (ts ++ [Delim 58] ++ ts' ++ [Delim 59]).

Lemma writes_mailboxes `{TextEncoder} b ms :
  Forall mailbox_fits ms → 3 <= hard → writes (add_list addAddress b ms) (negb b) false (list_tokens mailbox_tokens b ms).
Proof. intros Hms. apply writes_list. eapply Forall_impl; [done|]. apply writes_addAddress. Qed.

Lemma writes_address `{TextEncoder} a :
  3 <= hard → address_fits a → writes (addAddress_or_group a) true false (address_tokens a).
Proof.
  intros Hh [m Hm|n ms [Hn Hs] Hms]; cbn [addAddress_or_group].
  - eapply writes_impl; [by apply writes_addAddress|by constructor|done|done].
  - assert (Hdel : ∀ c, bool_decide (c ∈ addr_delims) = true → printable [c] → is_space c = false → writes (addText [c] true) false true (eq [Delim c])).
    { intros c Hc Hp Hsp. apply (writes_text [c] true false true); [by apply piece_delim, delim_in|done|by exists [], c|].
      change (slen [c]) with 1. lia. }
    eapply writes_impl; [eapply writes_bind; [by apply (writes_addPhrase n false)|eapply writes_bind;
      [apply (Hdel 58); by repeat constructor|eapply writes_bind;
      [by apply (writes_mailboxes false)|apply (Hdel 59); by repeat constructor|done]|done]|done]| |done|done].
    intros ts (t1 & t2 & -> & Ht1 & t3 & t4 & -> & <- & t5 & t6 & -> & Ht5 & <-). by constructor.
Qed.

Lemma writes_addAddresses `{TextEncoder} l :
  3 <= hard → Forall address_fits l → writes (addAddresses l) true false (list_tokens address_tokens false l).
Proof.
  intros Hh Hl. apply (writes_list addAddress_or_group address_tokens false l); [|done].
  eapply Forall_impl; [done|]. intros a. by apply writes_address.
Qed.

(** ** The parser on the tokens *)

Definition parse_tokens : list token → addr_state → addr_state := fold_left addr_step.

Lemma parse_app t1 t2 s : parse_tokens (t1 ++ t2) s = parse_tokens t2 (parse_tokens t1 s).
Proof. apply fold_left_app. Qed.

(** Between two addresses. *)
Definition idle (g : jsstr) (R : list address) (L : list mailbox) : addr_state :=
  mkAddrState R L [] g [] [] [] false false false false false false [].

(** The address that is open, added. *)
Definition added (s : addr_state) : addr_state := addToAddrList (displayName s) (addr_spec s) s.

(** In a name. *)
Definition in_name (g : jsstr) (R : list address) (L : list mailbox) (x : jsstr) (ns : bool) : addr_state :=
  mkAddrState R L x g x [] [] false false ns false false false [].

Lemma clean_printable x : printable x → cleanToken x = x.
Proof. intros Hx. by apply cleanToken_ascii, printable_ascii. Qed.

Lemma name_token g R L acc ns w :
  printable w → word_token w = true →
  addr_step (in_name g R L acc ns) (Token w) = in_name g R L (acc ++ if ns then SP :: w else w) true.
Proof.
  intros Hp Hw. unfold addr_step, text_token. rewrite clean_printable by done. cbn [needsSpace in_name]. rewrite Hw, andb_true_r. done.
Qed.

Lemma name_word_token w : name_word w → word_token w = true ∧ printable w.
Proof.
  intros (Hne & Hc & Hd & _). split; [|by apply name_chars_printable]. destruct w as [|c w]; [done|]. cbn in *.
  apply negb_true_iff, Z.eqb_neq. congruence.
Qed.

Lemma words_parsed ws g R L acc :
  Forall name_word ws → parse_tokens (map Token ws) (in_name g R L acc true) = in_name g R L (acc ++ flat_map (cons SP) ws) true.
Proof.
  intros Hws. revert acc. induction Hws as [|w ws Hw Hws IH]; intros acc; [by rewrite app_nil_r|].
  cbn [map]. unfold parse_tokens in *. cbn [fold_left]. destruct (name_word_token w Hw). rewrite name_token by done.
  rewrite IH. by rewrite <- (assoc_L (++)).
Qed.

Lemma join_flat w ws : join [SP] (w :: ws) = w ++ flat_map (cons SP) ws.
Proof.
  revert w. induction ws as [|w' ws IH]; intros w; [by rewrite app_nil_r|].
  change (join [SP] (w :: w' :: ws)) with (w ++ SP :: join [SP] (w' :: ws)). by rewrite IH.
Qed.

(** A phrase is the name that is displayed, whichever way it is written. *)
Lemma phrase_parsed x ts g R L :
  name_ok x → phrase_tokens x ts → ∃ ns, parse_tokens ts (idle g R L) = in_name g R L x ns.
Proof.
  intros Hx Hts. assert (Hin : idle g R L = in_name g R L [] false) by done. rewrite Hin. destruct Hts as [->| ->].
  - exists (word_token x). cbn. unfold text_token. rewrite clean_printable by by apply name_ok_facts. done.
  - exists true. destruct Hx as [Hw _]. rewrite <- (join_split x) at 2. pose proof (split_on_not_nil SP x) as Hne.
    destruct (split_on SP x) as [|w ws]; [done|]. apply Forall_cons_1 in Hw as [Hw Hws]. destruct (name_word_token w Hw).
    rewrite join_flat. cbn [map]. unfold parse_tokens. cbn [fold_left]. rewrite name_token by done. by apply words_parsed.
Qed.

Lemma requote_parts e l r d : email_parts e l r d → requote (r ++ js "@" ++ d) = e.
Proof.
  intros (-> & Hl & Hd). unfold requote. change (js "@" ++ d) with (64 :: d).
  rewrite lastIndexOf_last by (by apply atoms_bare). rewrite substring_app_l, substring_app_r.
  destruct Hl as [x [_ Hx]|raw (_ & Hs & _)].
  - assert (existsb local_special x = false) as ->; [|done]. apply not_true_iff_false. intros (c & Hin & Hsp)%existsb_exists.
    rewrite forallb_forall in Hx. apply Hx, andb_true_iff in Hin as [_ Hn]. by rewrite Hsp in Hn.
  - rewrite Hs. by rewrite <- !(assoc_L (++)).
Qed.

Lemma space_wsp c : 32 <= c <= 126 → is_space c = wsp c.
Proof.
  intros Hc. pose proof (below_forall (λ c, (c <? 32) || eqb (is_space c) (wsp c)) 127 ltac:(by vm_compute) c ltac:(lia)) as H.
  cbn beta in H. rewrite (proj2 (Z.ltb_ge c 32)) in H by lia. by apply eqb_prop in H.
Qed.

Lemma collapse_space_printable x : printable x → collapse_space x = collapse x.
Proof.
  induction 1 as [|c x Hc Hx IH]; [done|]. cbn [collapse_space collapse]. rewrite space_wsp by done.
  destruct x as [|d x]; [done|]. apply Forall_cons_1 in Hx as [Hd _]. rewrite (space_wsp d) by done. by rewrite IH.
Qed.

Lemma name_trimStart x : name_ok x → trimStart x = x.
Proof.
  intros Hx. pose proof (name_ok_words x Hx) as Hw. rewrite <- (join_split x). pose proof (split_on_not_nil SP x) as Hne.
  destruct (split_on SP x) as [|[|c w] ws]; [done| |].
  - apply Forall_cons_1 in Hw as [[(? & _) _] _]. done.
  - apply Forall_cons_1 in Hw as [[(_ & Hc & _) Hsp] _]. rewrite join_flat. cbn [app trimStart].
    assert (is_space c = false) as ->; [|done]. cbn [forallb] in Hc. apply andb_true_iff in Hc as [Hc _].
    destruct (is_space c) eqn:E; [|done]. exfalso. apply Hsp. apply name_char_range in Hc as [Hr _].
    rewrite (printable_space [c] c); [left|by constructor|left|done].
Qed.

Lemma name_kept x : name_ok x → name_or_comment x [] = x.
Proof.
  intros Hx. destruct (name_ok_facts x Hx) as [Hne Hp _ _ Hsol _]. unfold name_or_comment. cbn [str_truthy]. rewrite andb_false_r.
  rewrite collapse_space_printable, (collapse_id x eq_refl (name_ok_words x Hx)) by done.
  unfold trim. by rewrite name_trimStart, trimEnd_solid.
Qed.

Lemma local_printable l r : local_ok l r → printable r.
Proof.
  intros [x Hx|raw (Hc & _)]; [by apply atoms_bare|]. rewrite forallb_forall in Hc. apply Forall_forall.
  intros c Hin%list_elem_of_In. specialize (Hc c Hin). rewrite !andb_true_iff in Hc. lia.
Qed.

Lemma email_nonempty e l r d : email_parts e l r d → str_truthy e = true.
Proof. intros (-> & Hl & _). apply local_piece in Hl as (_ & _ & _ & Hne & _). by destruct l. Qed.

Lemma email_clean e l r d : email_parts e l r d → cleanToken r = r ∧ cleanToken d = d.
Proof.
  intros (_ & Hl & Hd). split; apply clean_printable; [by eapply local_printable|by apply atoms_bare].
Qed.

(** In an address: the name before it, the local part as it was read, and the text. *)
Definition in_email (g : jsstr) (R : list address) (L : list mailbox) (n l e : jsstr) (angle ns after : bool) : addr_state :=
  mkAddrState R L n g l e [] angle false ns after false false [].

Lemma token_in_email g R L n l e w :
  cleanToken w = w → addr_step (in_email g R L n l e true false false) (Token w) = in_email g R L n l (e ++ w) true (word_token w) false.
Proof. intros Hw. unfold addr_step, text_token. by rewrite Hw. Qed.

Lemma token_idle g R L w : cleanToken w = w → addr_step (idle g R L) (Token w) = in_name g R L w (word_token w).
Proof. intros Hw. unfold addr_step, text_token. by rewrite Hw. Qed.

Lemma at_in_name g R L x ns : addr_step (in_name g R L x ns) (Delim 64) = in_email g R L [] [] (x ++ js "@") true false false.
Proof. done. Qed.

Lemma angle_in_name g R L x ns : addr_step (in_name g R L x ns) (Delim 60) = in_email g R L x x [] true false false.
Proof. done. Qed.

Lemma at_in_email g R L n l e ns : addr_step (in_email g R L n l e true ns false) (Delim 64) = in_email g R L n l (e ++ js "@") true false false.
Proof. done. Qed.

Lemma angle_in_email g R L n l e ns : addr_step (in_email g R L n l e true ns false) (Delim 62) = in_email g R L n l e false false true.
Proof. done. Qed.

Lemma email_added g R L n l x e angle ns after :
  requote x = e → name_or_comment n [] = n → str_truthy n || str_truthy e = true →
  added (in_email g R L n l x angle ns after) = idle g R (L ++ [mkMailbox n e]).
Proof.
  intros Hx Hn Ht. unfold added, addToAddrList. cbn [displayName addr_spec lastComment in_email]. by rewrite Hx, Hn, Ht.
Qed.

(** The tokens of an address are the address. *)
Lemma mailbox_parsed m ts g R L :
  mailbox_tokens m ts → added (parse_tokens ts (idle g R L)) = idle g R (L ++ [m]).
Proof.
  intros [e l r d He|n e l r d ts' Hn He Hts|n ts' Hn Hts].
  - destruct (email_clean e l r d He) as [Hr Hd]. unfold parse_tokens. cbn [fold_left].
    rewrite token_idle, at_in_name, token_in_email, <- (assoc_L (++)) by done.
    apply email_added; [by apply (requote_parts e l r d)|done|]. by rewrite (email_nonempty e l r d).
  - destruct (email_clean e l r d He) as [Hr Hd]. rewrite parse_app. destruct (phrase_parsed n ts' g R L Hn Hts) as (ns & ->).
    unfold parse_tokens. cbn [fold_left].
    rewrite angle_in_name, token_in_email, at_in_email, token_in_email, angle_in_email by done. cbn [app].
    apply email_added; [rewrite <- (assoc_L (++)); by apply (requote_parts e l r d)|by apply name_kept|].
    by rewrite (str_truthy_true n) by by apply name_ok_facts.
  - destruct (phrase_parsed n ts' g R L Hn Hts) as (ns & ->).
    change (in_name g R L n ns) with (in_email g R L n n [] false ns false).
    apply email_added; [done|by apply name_kept|]. by rewrite (str_truthy_true n) by by apply name_ok_facts.
Qed.

Lemma added_idle g R L : added (idle g R L) = idle g R L.
Proof. done. Qed.

Lemma comma_step s : addr_step s (Delim 44) = (added s) <| afterAddress := false |> <| needsSpace := false |>.
Proof. done. Qed.

Lemma semicolon_step s : addr_step s (Delim 59) = (commit_list (added s)) <| needsSpace := false |>.
Proof. done. Qed.

(** A comma adds the address before it. *)
Lemma comma_parsed s g R L : added s = idle g R L → addr_step s (Delim 44) = idle g R L.
Proof. intros Hs. by rewrite comma_step, Hs. Qed.

Lemma mailboxes_parsed b ms ts : list_tokens mailbox_tokens b ms ts → ∀ s g R L,
  (if b then added s = idle g R L else s = idle g R L) → added (parse_tokens ts s) = idle g R (L ++ ms).
Proof.
  induction 1 as [b|b m ms ts ts' Hm _ IH]; intros s g R L Hs.
  - rewrite app_nil_r. destruct b; [done|]. by rewrite Hs.
  - assert (parse_tokens ((if b then [Delim 44] else []) ++ ts ++ ts') s = parse_tokens ts' (parse_tokens ts (idle g R L))) as ->.
    { rewrite parse_app, parse_app. do 2 f_equal. destruct b; [by apply comma_parsed|done]. }
    rewrite (IH _ g R (L ++ [m])) by (by apply mailbox_parsed). by rewrite <- (assoc_L (++)).
Qed.

(** What is finished, and the address that is open. *)
Definition has_parsed (s : addr_state) (l : list address) : Prop :=
  ∃ R L, added s = idle [] R L ∧ R ++ map Mailbox L = l.

Lemma address_parsed a ts R L :
  address_tokens a ts → has_parsed (parse_tokens ts (idle [] R L)) (R ++ map Mailbox L ++ [a]).
Proof.
  intros [m ts' Hm|n ms ts1 ts2 Hn Hts Hms].
  - exists R, (L ++ [m]). rewrite (mailbox_parsed m) by done. by rewrite map_app.
  - rewrite parse_app. destruct (phrase_parsed n ts1 [] R L Hn Hts) as (ns & ->). rewrite parse_app, parse_app.
    assert (parse_tokens [Delim 58] (in_name [] R L n ns) = idle n (R ++ map Mailbox L) []) as -> by done.
    pose proof (mailboxes_parsed false ms ts2 Hms (idle n (R ++ map Mailbox L) []) n (R ++ map Mailbox L) [] eq_refl) as Ha.
    set (s := parse_tokens ts2 _) in *. exists ((R ++ map Mailbox L) ++ [Group n ms]), [].
    assert (parse_tokens [Delim 59] s = idle [] ((R ++ map Mailbox L) ++ [Group n ms]) []) as ->; [|by rewrite app_nil_r, <- (assoc_L (++))].
    unfold parse_tokens. cbn [fold_left]. rewrite semicolon_step, Ha. unfold commit_list. cbn [groupName idle].
    by rewrite (str_truthy_true n) by by apply name_ok_facts.
Qed.

Lemma addresses_parsed b l ts : list_tokens address_tokens b l ts → ∀ s l0,
  (if b then has_parsed s l0 else ∃ R L, s = idle [] R L ∧ R ++ map Mailbox L = l0) → has_parsed (parse_tokens ts s) (l0 ++ l).
Proof.
  induction 1 as [b|b a l ts ts' Ha _ IH]; intros s l0 Hs.
  - rewrite app_nil_r. destruct b; [done|]. destruct Hs as (R & L & -> & <-). by exists R, L.
  - assert (∃ R L, parse_tokens (if b then [Delim 44] else []) s = idle [] R L ∧ R ++ map Mailbox L = l0) as (R & L & E & <-).
    { destruct b; [|by destruct Hs as (R & L & -> & <-); exists R, L]. destruct Hs as (R & L & Hs & <-).
      exists R, L. split; [|done]. by apply comma_parsed. }
    rewrite !parse_app, E. replace ((R ++ map Mailbox L) ++ a :: l) with ((R ++ map Mailbox L ++ [a]) ++ l)
      by (by rewrite <- !(assoc_L (++))). apply IH. by apply address_parsed.
Qed.

(** The tokens of a list of addresses are the addresses. *)
Lemma tokens_parsed l ts : list_tokens address_tokens false l ts → addr_end (parse_tokens ts new_addr_state) = l.
Proof.
  intros Hts. destruct (addresses_parsed false l ts Hts new_addr_state [] ltac:(by exists [], [])) as (R & L & Ha & Hl).
  unfold addr_end. fold (added (parse_tokens ts new_addr_state)). by rewrite Ha.
Qed.

(** ** The end *)

(** What was delivered, and what the tokenizer finds in it. *)
Lemma finish_tokens {D} `{TextDecoder D} w s toks c :
  at_tokens w s toks c →
  ∃ s' o v, finish true s = (s', o, Some tt) ∧ w ++ delivered o = before ++ v ∧
    getHeaderTokens v addr_delims opts = Some toks.
Proof.
  intros [_ _ (st & [Hr Ho (st1 & Hr1 & Ho1) Hp _] & <- & _)]. unfold finish.
  destruct (trimEnd_prefix (currentLine s)) as (blanks & Hline & Hb).
  assert (Hgap : lex addr_delims opts blanks st1 = Some st).
  { eapply reads_app_inv; [exact Hr1|]. by rewrite <- (assoc_L (++)), <- Hline. }
  assert (Hcl : lex_close st = lex_close st1).
  { assert (Hws : Forall (λ c, wsp c = true) blanks).
    { apply printable_blank; [|done]. unfold printable in *. rewrite Hline in Hp. by apply Forall_app in Hp as [_ ?]. }
    destruct blanks as [|b bs]; [by injection Hgap as ->|]. rewrite lex_blanks in Hgap by done.
    injection Hgap as <-. apply close_idem. }
  assert (Hend : reads opts addr_delims before ((w ++ trimEnd (currentLine s)) ++ CRLF) (lex_close st1)).
  { eapply reads_app; [exact Hr1|]. apply lex_blanks; [by repeat constructor|done..]. }
  destruct Hend as (v & Hv & Hlex). eexists _, _, v. split; [done|]. split.
  - unfold delivered. cbn [map concat app]. by rewrite !app_nil_r, (assoc_L (++)), <- Hv.
  - rewrite (getHeaderTokens_lex _ _ _ _ Hlex), Hcl. unfold lex_end. by rewrite lex_close_open.
Qed.
End Roundtrip.

(** ** The theorems *)

(** A method that writes the tokens of addresses, and the end, from an emitter. *)
Lemma emitted_addresses {D} `{TextDecoder D} `{TextEncoder} rfc2047 before s l :
  at_tokens (addr_opts rfc2047) addr_delims before (softMargin s) (hardMargin s) [] s [] true →
  3 <= hardMargin s → Forall (address_fits (hardMargin s)) l →
  ∃ s' o v, (addAddresses l >> finish true) s = (s', o, Some tt) ∧ delivered o = before ++ v ∧
    parseAddressingHeader v rfc2047 = Some l.
Proof.
  intros Hat Hh Hl. destruct (writes_addAddresses rfc2047 before _ _ l Hh Hl s [] [] true Hat) as (s1 & o1 & ts & E1 & Hts & Hat1); [done|].
  destruct (finish_tokens _ _ _ _ _ _ _ _ Hat1) as (s2 & o2 & v & E2 & Hv & Htok). cbn [app] in *.
  exists s2, (o1 ++ o2), v. rewrite (bind_run _ _ _ _ _ _ E1), E2, delivered_data_app. split_and!; [done|done|].
  unfold parseAddressingHeader. rewrite Htok. cbn [fmap option_fmap option_map]. f_equal. by apply tokens_parsed.
Qed.

Lemma spelling_facts spelling e :
  (spelling, e) ∈ encoders → slen spelling <= 27 ∧ printable spelling.
Proof.
  assert (Forall (λ p, slen p.1 <= 27 ∧ printable p.1) encoders) as Hall.
  { by apply (bool_decide_unpack (Forall _ _)); vm_compute. }
  rewrite Forall_forall in Hall. intros Hin. apply (Hall _ Hin).
Qed.

Lemma find_encoder_elem n l p : find_encoder n l = Some p → p ∈ l.
Proof. induction l as [|q l IH]; [done|]. cbn. case_match; [intros [= ->]; left|right; auto]. Qed.

Lemma addText_fits text s :
  slen (currentLine s) + slen text <= softMargin s →
  addText text false s = (s <| currentLine ::= (λ l, l ++ text) |>, [], Some tt).
Proof.
  intros Hs. unfold addText, _reserveTokenSpace. rewrite bind_assoc, bind_gets, (proj2 (Z.leb_le _ _) Hs). by rewrite bind_ret_l.
Qed.

(** The name of a header is on the first line, and nothing else. *)
Lemma header_name_written rfc2047 spelling e o :
  (spelling, e) ∈ encoders →
  ∃ s, addHeaderName spelling (new_emitter o) = (s, [], Some tt) ∧
    softMargin s = softMargin (new_emitter o) ∧ hardMargin s = hardMargin (new_emitter o) ∧
    at_tokens (addr_opts rfc2047) addr_delims (spelling ++ js ":") (softMargin s) (hardMargin s) [] s [] true.
Proof.
  intros Hin. destruct (spelling_facts spelling e Hin) as [Hlen Hp]. pose proof (new_emitter_margins o) as [Hm _].
  exists ((new_emitter o) <| currentLine := spelling ++ js ": " |>). split_and!; [|done|done|].
  - unfold addHeaderName, line_length. rewrite bind_modify, bind_gets. change (slen (currentLine _)) with 0. cbn [Z.ltb Z.compare when].
    unfold skip. rewrite bind_ret_l, addText_fits; [done|]. rewrite slen_app. change (slen (js ": ")) with 2.
    change (0 + (slen spelling + 2) <= softMargin (new_emitter o)). lia.
  - split; [done|done|]. exists new_lexer. split_and!; [|done|done]. split.
    + exists [SP]. split; [by rewrite <- (assoc_L (++))|exact (lex_gap _ _ [] [])].
    + done.
    + exists new_lexer. split; [|done]. exists []. cbn [currentLine app]. split; [|done]. rewrite app_nil_r.
      change (currentLine _) with (spelling ++ js ": ").
      change (js ": ") with (js ":" ++ [SP]). rewrite (assoc_L (++)), trimEnd_app. change (forallb is_space [SP]) with true. cbv iota.
      apply trimEnd_solid. by exists spelling, 58.
    + change (printable (spelling ++ js ": ")). apply Forall_app. split; [done|by repeat constructor].
    + intros Hpb. by change (0 < 0) in Hpb.
Qed.

(** C18. A header of addresses that fit is written, its name first, and read as the same
    addresses, however its lines are broken. *)
Theorem address_header_roundtrip {D} `{TextDecoder D} `{TextEncoder} `{TimeZone} rfc2047 headerName spelling l o :
  find_encoder (toLowerCase headerName) encoders = Some (spelling, writeAddress) →
  Forall (address_fits (hardMargin (new_emitter o))) l →
  ∃ value, emitStructuredHeader headerName (VAddresses l) o = Some (spelling ++ js ":" ++ value) ∧
    parseAddressingHeader value rfc2047 = Some l.
Proof.
  intros Hfind Hl. pose proof (new_emitter_margins o) as [Hm _].
  destruct (header_name_written rfc2047 spelling writeAddress o (find_encoder_elem _ _ _ Hfind)) as (s & E & Hs & Hh & Hat).
  rewrite <- Hh in Hl. destruct (emitted_addresses rfc2047 _ s l Hat ltac:(lia) Hl) as (s' & out & v & Er & Hv & Hp).
  exists v. split; [|done]. unfold emitStructuredHeader, emit_with, addStructuredHeader. rewrite Hfind. cbn [encode_value].
  rewrite bind_assoc, (bind_run _ _ _ _ _ _ E), Er. cbn [app]. by rewrite Hv, <- (assoc_L (++)).
Qed.

(** A quoted name, a quoted local part, and a group. *)
Definition example_addresses : list address :=
  [Mailbox (mkMailbox (js "Smith, John") (js "js@example.org")); Mailbox (mkMailbox [] ([QUOTE] ++ js "a b" ++ [QUOTE] ++ js "@c.d"));
   Group (js "The team") [mkMailbox (js "A. B") (js "a@c"); mkMailbox [] (js "c@d")]; Mailbox (mkMailbox (js "Nobody") [])].

Lemma example_name_fits n :
  bool_decide (Forall (λ w, w ≠ [] ∧ forallb name_char w = true ∧ head w ≠ Some DOT ∧ seems_quoted w = false ∧ 2 * slen w + 3 <= 998)
    (split_on SP n) ∧ seems_quoted n = false) = true → name_fits 998 n.
Proof.
  intros [Hw Hs]%bool_decide_eq_true. split; [split; [|done]|]; (eapply Forall_impl; [exact Hw|]); intros w (? & ? & ? & ? & ?); done.
Qed.

Lemma example_email_fits l r d :
  local_ok l r → bool_decide (atoms d ∧ slen l < 998 ∧ slen d + 2 < 998) = true → email_fits 998 (l ++ js "@" ++ d) l r d.
Proof. intros Hl (Hd & ? & ?)%bool_decide_eq_true. by split_and!. Qed.

Lemma example_fits : Forall (address_fits 998) example_addresses.
Proof.
  assert (Ha : ∀ x, bool_decide (atoms x) = true → local_ok x x) by (intros x Hx%bool_decide_eq_true; by constructor).
  unfold example_addresses. rewrite !Forall_cons. split_and!; [apply fits_mailbox|apply fits_mailbox|apply fits_group|apply fits_mailbox|done].
  - apply (fits_both 998 (js "Smith, John") (js "js" ++ js "@" ++ js "example.org") (js "js") (js "js") (js "example.org")).
    + by apply example_name_fits; vm_compute.
    + apply example_email_fits; [by apply Ha|by vm_compute].
  - apply (fits_email 998 (([QUOTE] ++ escape (js "a b") ++ [QUOTE]) ++ js "@" ++ js "c.d") ([QUOTE] ++ escape (js "a b") ++ [QUOTE]) (js "a b") (js "c.d")).
    apply example_email_fits; [by constructor; vm_compute|by vm_compute].
  - by apply example_name_fits; vm_compute.
  - rewrite !Forall_cons. split_and!; [| |done].
    + apply (fits_both 998 (js "A. B") (js "a" ++ js "@" ++ js "c") (js "a") (js "a") (js "c")).
      * by apply example_name_fits; vm_compute.
      * apply example_email_fits; [by apply Ha|by vm_compute].
    + apply (fits_email 998 (js "c" ++ js "@" ++ js "d") (js "c") (js "c") (js "d")).
      apply example_email_fits; [by apply Ha|by vm_compute].
  - apply fits_name. by apply example_name_fits; vm_compute.
Qed.

Lemma address_header_roundtrip_witness :
  ∃ value, @emitStructuredHeader utf8 (λ _, 0) (js "to") (VAddresses example_addresses) default_options = Some (js "To" ++ js ":" ++ value) ∧
    @parseAddressingHeader unit latin1 value true = Some example_addresses.
Proof.
  apply (@address_header_roundtrip unit latin1 utf8 (λ _, 0) true (js "to") (js "To") example_addresses default_options).
  - by vm_compute.
  - exact example_fits.
Defined.
