(* ===== verification/MimeAddresses.v ===== *)
(** * MimeAddresses: the address parser of MimeJSComponents

    [MimeAddressParser] and [MimeConverter] of
    mailnews/mime/src/MimeJSComponents.sys.mjs, which the front end and the C++ code
    use, on the parser and the emitter of jsmime; and [parseHeaderField] of
    mimeParser.sys.mjs for the flags they give.  Names and addresses that are null
    are empty strings here.  [None] is an exception. *)

From S2P Require Import Prelude Effects MimeUtils MimeHeaders HeaderTokens DateHeaders HeaderEmitter AddressHeaders.

(** ** Arrays of addresses *)

Definition makeMailboxObject (aName aEmail : jsstr) : mailbox := mkMailbox aName (trim aEmail).

(** [toString] of the two prototypes. *)
Definition mailbox_toString (m : mailbox) : jsstr :=
  if str_truthy (name m) then name m ++ js " <" ++ email m ++ js ">" else email m.

Definition address_toString (a : address) : jsstr :=
  match a with Mailbox m => mailbox_toString m | Group n ms => n ++ js ": " ++ join (js ", ") (map mailbox_toString ms) end.

Definition fixXpconnectAddresses (addrs : list address) : list address :=
  map (λ a, match a with
            | Mailbox m => Mailbox (makeMailboxObject (name m) (email m))
            | Group n ms => Group n (map (λ m, makeMailboxObject (name m) (email m)) ms)
            end) addrs.

(** Without the NUL characters. *)
Definition without_nul (s : jsstr) : jsstr := List.filter (λ c, negb (c =? 0)) s.

Definition resetMailbox (m : mailbox) : mailbox := mkMailbox (without_nul (name m)) (without_nul (email m)).

Definition fixArray (preserveGroups : bool) (addresses : list address) : list address :=
  flat_map (λ a, match a with
                 | Mailbox m => [Mailbox (resetMailbox m)]
                 | Group n ms =>
                     let group := map resetMailbox ms in
                     if preserveGroups then [Group (without_nul n) group] else map Mailbox group
                 end) addresses.

(** The mailboxes of a list without groups. *)
Definition mailboxes (l : list address) : list mailbox :=
  flat_map (λ a, match a with Mailbox m => [m] | Group _ ms => ms end) l.

(** ** Duplicates *)

Definition normalize (email : jsstr) : jsstr := toLowerCase email.

(** [filter(filterAccept)] on addresses, which remembers those it has seen. *)
Fixpoint filter_mailboxes (seen : gset jsstr) (l : list mailbox) : gset jsstr * list mailbox :=
  match l with
  | [] => (seen, [])
  | m :: l' =>
      let key := normalize (email m) in
      if decide (key ∈ seen) then filter_mailboxes seen l'
      else let '(seen', r) := filter_mailboxes ({[key]} ∪ seen) l' in (seen', m :: r)
  end.

Fixpoint filter_addresses (seen : gset jsstr) (l : list address) : gset jsstr * list address :=
  match l with
  | [] => (seen, [])
  | Mailbox m :: l' =>
      let key := normalize (email m) in
      if decide (key ∈ seen) then filter_addresses seen l'
      else let '(seen', r) := filter_addresses ({[key]} ∪ seen) l' in (seen', Mailbox m :: r)
  | Group n ms :: l' =>
      let '(seen', ms') := filter_mailboxes seen ms in
      let '(seen'', r) := filter_addresses seen' l' in (seen'', Group n ms' :: r)
  end.

(** ** Text that is displayed *)

(** A character, and another behind it on the line. *)
Fixpoint on_line (p : Z → bool) (s : jsstr) : bool :=
  match s with c :: s' => p c || (negb (line_terminator c) && on_line p s') | [] => false end.

Fixpoint behind (first : Z) (p : Z → bool) (s : jsstr) : bool :=
  match s with c :: s' => ((c =? first) && on_line p s') || behind first p s' | [] => false end.

Definition quotes (s : jsstr) : nat := length (List.filter (λ c, c =? QUOTE) s).

(** A semicolon with an even number of quotes behind it is a comma. *)
Fixpoint semicolons_to_commas (s : jsstr) : jsstr :=
  match s with
  | c :: s' => (if (c =? 59) && Nat.even (quotes s') then 44 else c) :: semicolons_to_commas s'
  | [] => []
  end.

(** [indexOf(x, start)]. *)
Definition indexOf_from (s x : jsstr) (start : Z) : Z :=
  let k := indexOf (slice_from s start) x in if k =? -1 then -1 else start + k.

Definition unquote_all (s : jsstr) : jsstr :=
  if seems_quoted s && (2 <=? slen s) && forallb (λ c, negb (line_terminator c)) (slice s 1 (-1)) then slice s 1 (-1) else s.

Definition angle (c : Z) : bool := (c =? 60) || (c =? 62).

(** Quoted strings with angles in them go: from a quote to the last one on its line. *)
Fixpoint drop_quoted_angles (skip : nat) (s : jsstr) : jsstr :=
  match s with
  | [] => []
  | c :: s' =>
      match skip with
      | S k => drop_quoted_angles k s'
      | O =>
          if c =? QUOTE then
            let line := (span (λ c, negb (line_terminator c)) s').1 in
            let k := lastIndexOf line QUOTE in
            if (0 <=? k) && existsb angle (slice line 0 k) then drop_quoted_angles (Z.to_nat (k + 1)) s'
            else c :: drop_quoted_angles 0 s'
          else c :: drop_quoted_angles 0 s'
      end
  end.

(** What is in the first pair of angles that has none inside. *)
Fixpoint first_angles (s : jsstr) : option jsstr :=
  match s with
  | [] => None
  | c :: s' =>
      let '(inner, rest) := span (λ c, negb (angle c)) s' in
      if (c =? 60) && bool_decide (head rest = Some 62) then Some inner else first_angles s'
  end.

Definition _makeSingleAddress (aInput : jsstr) : mailbox :=
  let aInput := unquote_all (trim aInput) in
  if behind 60 (λ c, c =? 62) aInput then
    let addr := default [] (first_angles (drop_quoted_angles 0 aInput)) in
    let addrIdx := indexOf aInput (js "<" ++ addr ++ js ">") in
    makeMailboxObject (trim (slice aInput 0 addrIdx)) addr
  else makeMailboxObject [] aInput.

Definition comma_or_space (c : Z) : bool := (c =? 44) || is_space c.

(** The loop; each round takes at least a comma from the text. *)
Fixpoint display_loop (fuel : nat) (aDisplay : jsstr) : list mailbox :=
  match fuel, aDisplay with
  | S fuel', _ :: _ =>
      let lt := indexOf aDisplay (js "<") in
      let gt := indexOf aDisplay (js ">") in
      let at_ := indexOf aDisplay (js "@") in
      let start := if negb (lt =? -1) && (lt <? gt) then gt else 0 in
      let start := if negb (at_ =? -1) then Z.min start at_ else start in
      let comma := indexOf_from aDisplay (js ",") start in
      let '(addr, rest) :=
        if 0 <? comma then (slice aDisplay 0 comma, (span comma_or_space (slice_from aDisplay (comma + 1))).2)
        else (aDisplay, []) in
      let addr := trimStart addr in
      (if str_truthy addr then [_makeSingleAddress addr] else []) ++ display_loop fuel' rest
  | _, _ => []
  end.

Definition makeFromDisplayAddress (aDisplay : jsstr) : list mailbox :=
  let aDisplay := if includes aDisplay (js ";") && negb (behind 58 (λ c, c =? 59) aDisplay)
                  then semicolons_to_commas aDisplay else aDisplay in
  display_loop (length aDisplay) aDisplay.

(** ** Headers *)

(** Line ends before a space go, with the space, and so does one at the end. *)
Fixpoint remove_breaks (s : jsstr) : jsstr :=
  match s with
  | c :: s' =>
      match s' with
      | d :: s'' =>
          if (c =? CR) && (d =? LF) then
            match s'' with
            | [] => []
            | e :: s3 => if e =? SP then remove_breaks s3 else c :: remove_breaks s'
            end
          else c :: remove_breaks s'
      | [] => [c]
      end
  | [] => []
  end.

Definition mime_options : options := mkOptions (Some 900) (Some 900) (Some false) None.

Section Components.
Context {D : Type} `{TextDecoder D} `{TextEncoder}.

(** The three ways to parse: raw text, text that may have encoded words, and plain
    text. *)
Definition parseEncodedHeader (aHeader aCharset : jsstr) (aPreserveGroups : bool) : option (list address) :=
  fixArray aPreserveGroups <$> parseAddressingHeader (convert8BitHeader aHeader aCharset) true.
Definition parseEncodedHeaderW (aHeader : jsstr) : option (list address) :=
  fixArray false <$> parseAddressingHeader aHeader true.
Definition parseDecodedHeader (aHeader : jsstr) (aPreserveGroups : bool) : option (list address) :=
  fixArray aPreserveGroups <$> parseAddressingHeader aHeader false.

Definition makeMimeHeader (addresses : list address) : option jsstr :=
  remove_breaks <$> emit_with mime_options (addAddresses (fixXpconnectAddresses addresses)).

Definition makeMimeAddress (aName aEmail : jsstr) : option jsstr :=
  makeMimeHeader [Mailbox (makeMailboxObject aName aEmail)].

Definition extractFirstName (aHeader : jsstr) : option jsstr :=
  (λ l, match mailboxes l with
        | m :: _ => if str_truthy (name m) then name m else email m
        | [] => []
        end) <$> parseDecodedHeader aHeader false.

Definition extractHeaderAddressMailboxes (aLine : jsstr) : option jsstr :=
  (λ l, join (js ", ") (map email (mailboxes l))) <$> parseDecodedHeader aLine false.

Definition removeDuplicateAddresses (aAddrs aOtherAddrs : jsstr) : option jsstr :=
  other ← parseDecodedHeader aOtherAddrs false;
  addrs ← parseDecodedHeader aAddrs true;
  makeMimeHeader (filter_addresses (list_to_set (map (λ m, normalize (email m)) (mailboxes other))) addrs).2.

(** ** MimeConverter *)

(** The first place where the name, a colon and white space are goes. *)
Definition remove_name (fakeHeader value : jsstr) : jsstr :=
  match find_sub (fakeHeader ++ js ":") value with
  | Some n => take n value ++ trimStart (drop (n + length fakeHeader + 1) value)
  | None => value
  end.

Definition encodeMimePartIIStr_UTF8 (aHeader : jsstr) (aStructured : bool) (aFieldNameLen aLineLength : Z) : option jsstr :=
  guard (0 <= aFieldNameLen);;
  let fakeHeader := repeat 45 (Z.to_nat aFieldNameLen) in
  addresses ← (if aStructured then parseAddressingHeader aHeader true else Some []);
  let addresses :=
    match addresses with
    | [Mailbox m] => if negb (str_truthy (email m)) && str_truthy (name m) then [Mailbox (mkMailbox [] (name m))] else addresses
    | _ => addresses
    end in
  value ← emit_with (mkOptions (Some aLineLength) None (Some true) None)
            (addHeaderName fakeHeader >> if aStructured then addAddresses addresses else addUnstructured aHeader);
  let value := remove_name fakeHeader value in
  Some (substring value 0 (slen value - 2)).

(** A line end and a tab are a space; then the other line ends go. *)
Definition line_end (c : Z) : bool := (c =? CR) || (c =? LF).

Fixpoint unfold_tabs (s : jsstr) : jsstr :=
  match s with
  | c :: ((d :: s') as s1) => if line_end c && (d =? TAB) then SP :: unfold_tabs s' else c :: unfold_tabs s1
  | _ => s
  end.

Definition decodeMimeHeader (aHeader aDefaultCharset : jsstr) (aUnfold : bool) : option jsstr :=
  (λ value, if aUnfold then List.filter (λ c, negb (line_end c)) (unfold_tabs value) else value)
    <$> decodeRFC2047Words (convert8BitHeader aHeader aDefaultCharset).
End Components.
