(* ===== verification/DisplayAddresses.v ===== *)
(** * DisplayAddresses: addresses that are displayed, and addresses without duplicates

    nsIMsgHeaderParser.idl promises that [makeFromDisplayAddress] reads a sequence of
    [toString] texts with commas between them; and [removeDuplicateAddresses] keeps one
    address of each. *)

From S2P Require Import Prelude Effects MimeUtils MimeHeaders MimeText MimeTree DateHeaders HeaderEmitter Utf8 EmitterLines EmitterWords MimeAddresses.

(** ** Searching for a character *)

Lemma find_char_skip a b c : c ∉ a → find_sub [c] (a ++ b) = (λ n, (length a + n)%nat) <$> find_sub [c] b.
Proof.
  induction a as [|x a IH]; intros Hc; [by cbn [app]; destruct (find_sub [c] b)|]. apply not_elem_of_cons in Hc as [Hx Hc].
  cbn [app find_sub]. rewrite bool_decide_eq_false_2 by (intros [k Hk]; cbn [app] in Hk; congruence). rewrite IH by done.
  by destruct (find_sub [c] b).
Qed.

Lemma find_char_none s c : c ∉ s → find_sub [c] s = None.
Proof. intros Hc. rewrite <- (app_nil_r s), find_char_skip by done. done. Qed.

Lemma indexOf_skip a b c : c ∉ a → indexOf (a ++ b) [c] = if indexOf b [c] =? -1 then -1 else slen a + indexOf b [c].
Proof.
  intros Hc. unfold indexOf. rewrite find_char_skip by done. destruct (find_sub [c] b) as [n|]; cbn [fmap option_fmap option_map]; [|done].
  unfold slen. case_match; lia.
Qed.

Lemma indexOf_head c b : indexOf (c :: b) [c] = 0.
Proof. unfold indexOf. change (c :: b) with ([c] ++ b). by rewrite find_sub_prefix. Qed.

Lemma indexOf_at a b c : c ∉ a → indexOf (a ++ c :: b) [c] = slen a.
Proof. intros Hc. rewrite indexOf_skip, indexOf_head by done. cbn [Z.eqb]. lia. Qed.

Lemma indexOf_absent a c : c ∉ a → indexOf a [c] = -1.
Proof. intros Hc. rewrite <- (app_nil_r a), indexOf_skip by done. done. Qed.

Lemma indexOf_range s p : -1 <= indexOf s p.
Proof. unfold indexOf. case_match; lia. Qed.

(** It is behind a text without the character. *)
Lemma indexOf_behind a b c : c ∉ a → indexOf (a ++ b) [c] = -1 ∨ slen a <= indexOf (a ++ b) [c].
Proof.
  intros Hc. rewrite indexOf_skip by done. pose proof (indexOf_range b [c]).
  destruct (Z.eqb_spec (indexOf b [c]) (-1)); [by left|right; lia].
Qed.

Lemma slice_from_behind p q start : slen p <= start → slice_from (p ++ q) start = slice_from q (start - slen p).
Proof.
  intros Hs. pose proof (slen_nonneg p). unfold slice_from. rewrite !slice_nonneg by (try apply slen_nonneg; lia).
  rewrite slen_app. rewrite drop_app_ge by (unfold slen in *; lia).
  f_equal; [lia|]. f_equal. unfold slen in *. lia.
Qed.

(** The comma behind a text that has none from some place on. *)
Lemma comma_behind p q r start :
  44 ∉ q → slen p <= start <= slen (p ++ q) →
  indexOf_from ((p ++ q) ++ 44 :: r) [44] start = slen (p ++ q) ∧ indexOf_from (p ++ q) [44] start = -1.
Proof.
  intros Hq [Hs1 Hs2]. rewrite slen_app in Hs2. unfold indexOf_from.
  rewrite <- (app_assoc p), (slice_from_behind p (q ++ 44 :: r)), (slice_from_behind p q) by done.
  set (k := start - slen p) in *. assert (Hk : 0 <= k <= slen q) by lia.
  destruct (split_at q k (proj1 Hk)) as (a & b & -> & _ & Hb & Ha).
  assert (Hka : slen a = k) by (destruct Ha as [?|[-> ?]]; [done|rewrite app_nil_r in *; lia]).
  rewrite <- Hka, <- app_assoc, !slice_from_app. apply not_elem_of_app in Hq as [_ Hq].
  rewrite indexOf_at, indexOf_absent by done. rewrite !slen_app. cbn [Z.eqb].
  pose proof (slen_nonneg b). destruct (Z.eqb_spec (slen b) (-1)); [lia|]. split; [lia|done].
Qed.

(** ** Addresses that can be displayed *)

Definition display_email (e : jsstr) : bool :=
  forallb (λ c, negb (is_space c) && negb (bool_decide (c ∈ QUOTE :: js "<>,;"))) e.

(** The first character is of a class. *)
Definition starts (p : Z → bool) (s : jsstr) : bool := match s with c :: _ => p c | [] => false end.

Definition solid (c : Z) : bool := negb (is_space c).

Definition display_name (n : jsstr) : bool :=
  forallb (λ c, negb (bool_decide (c ∈ js "<>@;"))) n && starts (λ c, negb (comma_or_space c)) n && starts solid (rev n).

(** An address without a name has an @. *)
Definition displayed (m : mailbox) : bool :=
  display_email (email m) && (if str_truthy (name m) then display_name (name m) else bool_decide (64 ∈ email m)).

Lemma display_email_chars e c : display_email e = true → c ∈ e → is_space c = false ∧ c ∉ QUOTE :: js "<>,;".
Proof.
  intros H Hc%list_elem_of_In. unfold display_email in H. rewrite forallb_forall in H. specialize (H c Hc). cbn beta in H.
  apply andb_true_iff in H as [H1%negb_true_iff H2%negb_true_iff%bool_decide_eq_false]. done.
Qed.

Lemma display_name_chars n c : display_name n = true → c ∈ n → c ∉ js "<>@;".
Proof.
  intros H Hc%list_elem_of_In. unfold display_name in H. apply andb_true_iff in H as [[H _]%andb_true_iff _].
  rewrite forallb_forall in H. specialize (H c Hc). cbn beta in H. by apply negb_true_iff, bool_decide_eq_false in H.
Qed.

Lemma display_email_without e c : display_email e = true → c ∈ SP :: QUOTE :: js "<>,;" → c ∉ e.
Proof.
  intros He Hc Hin. destruct (display_email_chars e c He Hin) as [Hs Hq].
  apply elem_of_cons in Hc as [->|Hc]; [done|by apply Hq].
Qed.

Lemma display_name_without n c : display_name n = true → c ∈ js "<>@;" → c ∉ n.
Proof. intros Hn Hc Hin. by destruct (display_name_chars n c Hn Hin). Qed.

Lemma starts_app p s t : starts p s = true → starts p (s ++ t) = true.
Proof. by destruct s. Qed.

Lemma trimStart_solid s : starts solid s = true → trimStart s = s.
Proof. destruct s as [|c s]; cbn; [done|]. unfold solid. by destruct (is_space c). Qed.

Lemma trim_after s w : starts solid s = true → starts solid (rev s) = true → forallb is_space w = true → trim (s ++ w) = s.
Proof.
  intros H1 H2 Hw. unfold trim. rewrite trimStart_solid by by apply starts_app. rewrite trimEnd_app, Hw.
  unfold trimEnd. by rewrite trimStart_solid, rev_involutive.
Qed.

Lemma trim_solid s : starts solid s = true → starts solid (rev s) = true → trim s = s.
Proof. intros H1 H2. rewrite <- (app_nil_r s) at 1. by apply trim_after. Qed.

Lemma display_name_ends n :
  display_name n = true →
  n ≠ [] ∧ starts (λ c, negb (comma_or_space c)) n = true ∧ starts solid n = true ∧ starts solid (rev n) = true.
Proof.
  intros [[_ H]%andb_true_iff Hr]%andb_true_iff. destruct n as [|c n]; [done|]. split_and!; [done|done| |done].
  cbn in *. unfold comma_or_space, solid in *. by destruct (is_space c); rewrite ?orb_true_r in H.
Qed.

(** ** One address *)

Lemma behind_none first p s : first ∉ s → behind first p s = false.
Proof.
  induction s as [|c s IH]; [done|]. intros [Hc Hs]%not_elem_of_cons. cbn. rewrite (proj2 (Z.eqb_neq c first)) by done. by apply IH.
Qed.

Lemma behind_skip first p a b : first ∉ a → behind first p (a ++ b) = behind first p b.
Proof.
  induction a as [|c a IH]; [done|]. intros [Hc Ha]%not_elem_of_cons. cbn. rewrite (proj2 (Z.eqb_neq c first)) by done. by apply IH.
Qed.

Lemma on_line_true p s c : forallb (λ c, negb (line_terminator c)) s = true → p c = true → on_line p (s ++ [c]) = true.
Proof.
  induction s as [|d s IH]; cbn; [by intros _ ->|]. intros [Hd Hs]%andb_true_iff Hp. rewrite Hd, IH by done. by rewrite orb_true_r.
Qed.

Lemma span_all (p : Z → bool) s r : forallb p s = true → head r = None ∨ (∃ c, head r = Some c ∧ p c = false) → span p (s ++ r) = (s, r).
Proof.
  intros Hs Hr. induction s as [|c s IH]; cbn [app].
  - destruct r as [|c r]; [done|]. destruct Hr as [?|(d & [= ->] & Hd)]; [done|]. cbn. by rewrite Hd.
  - cbn [forallb] in Hs. apply andb_true_iff in Hs as [Hc Hs]. cbn. by rewrite Hc, IH.
Qed.

Lemma lastIndexOf_skip a b x : x ∉ b → lastIndexOf (a ++ b) x = lastIndexOf a x.
Proof.
  intros Hb. induction a as [|c a IH]; cbn [app].
  - induction b as [|c b IH]; [done|]. apply not_elem_of_cons in Hb as [Hc Hb]. cbn [lastIndexOf]. rewrite IH by done.
    cbn [lastIndexOf]. by rewrite (proj2 (Z.eqb_neq c x)).
  - cbn [lastIndexOf]. by rewrite IH.
Qed.

(** What is before the last quote of a line is in the text with the quotes. *)
Lemma line_before_last (p : Z → bool) n r d :
  QUOTE ∉ r → 0 <= lastIndexOf (span p (n ++ r)).1 QUOTE →
  d ∈ slice (span p (n ++ r)).1 0 (lastIndexOf (span p (n ++ r)).1 QUOTE) → d ∈ n.
Proof.
  intros Hr. set (line := (span p (n ++ r)).1).
  assert (Hl : line `prefix_of` (n ++ r)) by (exists (span p (n ++ r)).2; symmetry; apply span_join).
  assert (∃ a b, (line = a ++ b) ∧ (QUOTE ∉ b) ∧ (a `prefix_of` n)) as (a & b & -> & Hb & [k ->]).
  { clearbody line. destruct Hl as [k Hk]. apply app_eq_inv in Hk as [(u & Hn & Hu)|(u & Hn & Hu)].
    - exists line, []. split_and!; [by rewrite app_nil_r|apply not_elem_of_nil|]. exists u. exact Hn.
    - exists n, u. split_and!; [done| |by exists []; rewrite app_nil_r]. intros Hin. apply Hr. rewrite Hu. apply elem_of_app. by left. }
  rewrite lastIndexOf_skip by done. pose proof (lastIndexOf_range a QUOTE) as [Hk He]. intros H0.
  assert (a ≠ []) as Ha by (intros ->; rewrite He in H0; [lia|done]).
  rewrite slice_nonneg, drop_0, take_app_le by (destruct a; [done|rewrite slen_cons in Hk; unfold slen in *; cbn [length] in *; lia]).
  intros Hd%elem_of_take. destruct Hd as (i & Hd & _). apply elem_of_app. left. by eapply list_elem_of_lookup_2.
Qed.

(** Quotes that have no angles between them stay. *)
Lemma drop_quoted_none n r : (∀ c, c ∈ n → angle c = false) → QUOTE ∉ r → drop_quoted_angles 0 (n ++ r) = n ++ r.
Proof.
  intros Hn Hr. induction n as [|c n IH]; cbn [app].
  - clear Hn. induction r as [|c r IH]; [done|]. apply not_elem_of_cons in Hr as [Hc Hr]. cbn [drop_quoted_angles].
    rewrite (proj2 (Z.eqb_neq c QUOTE)) by done. by rewrite IH.
  - cbn [drop_quoted_angles]. rewrite IH by (intros d Hd; apply Hn; by right).
    destruct (c =? QUOTE); [|done].
    match goal with |- (if ?b then _ else _) = _ => destruct b eqn:E; [|done] end.
    apply andb_true_iff in E as [Hk%Z.leb_le E]. exfalso. apply existsb_exists in E as (d & Hd%list_elem_of_In & Ea).
    enough (angle d = false) by congruence. apply Hn. right. eapply line_before_last; [exact Hr|exact Hk|exact Hd].
Qed.

Lemma first_angles_skip n r : 60 ∉ n → first_angles (n ++ r) = first_angles r.
Proof.
  induction n as [|c n IH]; [done|]. intros [Hc Hn]%not_elem_of_cons. cbn [app first_angles].
  destruct (span (λ c, negb (angle c)) (n ++ r)). rewrite (proj2 (Z.eqb_neq c 60)) by done. by apply IH.
Qed.

Lemma find_sub_past x p a : x ∉ a → find_sub (x :: p) (a ++ x :: p) = Some (length a).
Proof.
  intros Hp. induction a as [|c a IH]; [pose proof (find_sub_prefix (x :: p) []) as H; by rewrite app_nil_r in H|]. apply not_elem_of_cons in Hp as [Hc Ha].
  cbn [app find_sub]. rewrite bool_decide_eq_false_2 by (intros [k Hk]; cbn [app] in Hk; congruence).
  cbn [app] in IH. by rewrite IH.
Qed.

Lemma unquote_other s c : c ≠ QUOTE → unquote_all (s ++ [c]) = s ++ [c].
Proof.
  intros Hc. unfold unquote_all, seems_quoted, last_char. rewrite last_snoc, (bool_decide_eq_false_2 (Some c = _)) by congruence.
  by rewrite andb_false_r.
Qed.

Lemma email_class e (p : Z → bool) :
  display_email e = true → (∀ c, is_space c = false → c ∉ QUOTE :: js "<>,;" → p c = true) → forallb p e = true.
Proof. intros He Hp. apply forallb_forall. intros c Hc%list_elem_of_In. by apply Hp; apply (display_email_chars e c He Hc). Qed.

Lemma email_line e : display_email e = true → forallb (λ c, negb (line_terminator c)) e = true.
Proof.
  intros He. apply (email_class e _ He). intros c Hc _. unfold line_terminator. case_bool_decide as H; [|done].
  rewrite !elem_of_cons in H. by destruct H as [->|[->|[->|[->|?%elem_of_nil]]]].
Qed.

Lemma no_angle c : (∀ d, d ∈ js "<>" → c ≠ d) → angle c = false.
Proof.
  intros H. unfold angle. rewrite (proj2 (Z.eqb_neq c 60)), (proj2 (Z.eqb_neq c 62)); [done|apply H; cbn; set_solver..].
Qed.

Lemma email_no_angle e : display_email e = true → forallb (λ c, negb (angle c)) e = true.
Proof.
  intros He. apply (email_class e _ He). intros c _ Hc. rewrite no_angle; [done|]. intros d Hd ->. apply Hc. set_solver.
Qed.

(** A name, and an address in angles. *)
Lemma single_named n e :
  display_email e = true → display_name n = true → _makeSingleAddress (n ++ js " <" ++ e ++ js ">") = mkMailbox n e.
Proof.
  intros He Hd. destruct (display_name_ends n Hd) as (Hne & _ & H1 & H2).
  set (p := n ++ [SP]). set (t := p ++ 60 :: (e ++ [62])).
  assert (Ht : n ++ js " <" ++ e ++ js ">" = t) by by unfold t, p; rewrite <- !app_assoc.
  assert (Hp : ∀ c, c ∈ js "<>" → c ∉ p).
  { intros c Hc. apply not_elem_of_app. split; [apply (display_name_without n c Hd)|]; set_solver by (cbn in *; lia). }
  assert (Hq : QUOTE ∉ 60 :: (e ++ [62])).
  { apply not_elem_of_cons. split; [done|]. apply not_elem_of_app. split; [|by vm_compute; set_solver].
    apply (display_email_without e QUOTE He). set_solver. }
  assert (Htrim : trim t = t).
  { apply trim_solid; [by unfold t, p; rewrite <- app_assoc; apply starts_app|].
    unfold t. change (60 :: (e ++ [62])) with ((60 :: e) ++ [62]). rewrite app_assoc, rev_app_distr. done. }
  assert (Hu : unquote_all t = t).
  { unfold t. change (60 :: (e ++ [62])) with ((60 :: e) ++ [62]). rewrite app_assoc. by apply unquote_other. }
  rewrite Ht. unfold _makeSingleAddress. rewrite Htrim, Hu. unfold t.
  rewrite behind_skip by (apply Hp; set_solver). cbn [behind Z.eqb Pos.eqb andb].
  rewrite on_line_true by (try done; by apply email_line). cbn [orb].
  rewrite drop_quoted_none; [|intros c Hc; apply no_angle; intros d Hd0 ->; exact (Hp d Hd0 Hc)|done].
  rewrite first_angles_skip by (apply Hp; set_solver). cbn [first_angles].
  rewrite (span_all _ e [62]) by (by apply email_no_angle || (by right; exists 62)).
  cbn [head Z.eqb Pos.eqb andb]. rewrite bool_decide_eq_true_2 by done. cbn [default from_option].
  unfold indexOf, id. change (js "<" ++ e ++ js ">") with (60 :: (e ++ [62])).
  rewrite find_sub_past, slice_0_take, take_app_length by (apply Hp; set_solver). unfold makeMailboxObject.
  rewrite (trim_id e) by (apply Forall_forall; intros c Hc; by apply (display_email_chars e c He Hc)). f_equal.
  by apply trim_after.
Qed.

Lemma single_bare e : display_email e = true → _makeSingleAddress e = mkMailbox [] e.
Proof.
  intros He. assert (Ht : trim e = e) by (apply trim_id, Forall_forall; intros c Hc; by apply (display_email_chars e c He Hc)).
  assert (Hq : QUOTE ∉ e) by (apply (display_email_without e QUOTE He); set_solver).
  assert (Hu : unquote_all e = e).
  { unfold unquote_all, seems_quoted. destruct e as [|c e]; [done|]. apply not_elem_of_cons in Hq as [Hc _].
    rewrite (bool_decide_eq_false_2 (head (c :: e) = _)) by (cbn; congruence). done. }
  unfold _makeSingleAddress. rewrite Ht, Hu, behind_none; [|apply (display_email_without e 60 He); set_solver].
  unfold makeMailboxObject. by rewrite Ht.
Qed.

Lemma single_displayed m : displayed m = true → _makeSingleAddress (mailbox_toString m) = m.
Proof.
  destruct m as [n e]. unfold displayed, mailbox_toString. cbn [name email]. intros [He Hn]%andb_true_iff.
  destruct n as [|c n]; cbn [str_truthy] in *; [by apply single_bare|by apply single_named].
Qed.

(** ** The loop *)

(** The place from which the loop looks for a comma is in the first address, behind
    its name. *)
Definition comma_start (s : jsstr) : Z :=
  let lt := indexOf s (js "<") in
  let gt := indexOf s (js ">") in
  let at_ := indexOf s (js "@") in
  let start := if negb (lt =? -1) && (lt <? gt) then gt else 0 in
  if negb (at_ =? -1) then Z.min start at_ else start.

Lemma comma_start_bare e r :
  display_email e = true → 64 ∈ e → 0 <= comma_start (e ++ r) <= slen e.
Proof.
  intros He Hat. destruct (list_elem_of_split_l e 64 Hat) as (a & b & -> & Ha).
  assert (H : indexOf ((a ++ 64 :: b) ++ r) (js "@") = slen a) by by rewrite <- app_assoc; apply (indexOf_at a (b ++ r) 64).
  unfold comma_start. cbv zeta. rewrite H.
  pose proof (indexOf_behind (a ++ 64 :: b) r 62 ltac:(apply (display_email_without _ 62 He); set_solver)) as Hgt.
  pose proof (slen_nonneg a). pose proof (slen_nonneg b). rewrite slen_app, slen_cons in *.
  destruct (Z.eqb_spec (slen a) (-1)); [lia|]. cbn [negb].
  destruct (Z.eqb_spec (indexOf ((a ++ 64 :: b) ++ r) (js "<")) (-1)), (Z.ltb_spec (indexOf ((a ++ 64 :: b) ++ r) (js "<")) (indexOf ((a ++ 64 :: b) ++ r) (js ">")));
    cbn [negb andb]; try lia. pose proof (indexOf_range ((a ++ 64 :: b) ++ r) (js "<")). change (js ">") with [62] in *. lia.
Qed.

Lemma comma_start_named n e r :
  display_email e = true → display_name n = true →
  slen (n ++ js " <") <= comma_start (n ++ js " <" ++ e ++ js ">" ++ r) <= slen (n ++ js " <" ++ e ++ js ">").
Proof.
  intros He Hn. assert (Hp : ∀ c, c ∈ js "<>@;" → c ∉ n) by (intros c; apply (display_name_without n c Hn)).
  assert (Hlt : indexOf (n ++ js " <" ++ e ++ js ">" ++ r) (js "<") = slen n + 1).
  { change (js " <" ++ e ++ js ">" ++ r) with ([SP] ++ 60 :: (e ++ js ">" ++ r)). rewrite app_assoc.
    rewrite (indexOf_at (n ++ [SP]) _ 60), slen_app; [done|]. apply not_elem_of_app. split; [apply Hp|]; set_solver by (cbn in *; lia). }
  assert (Hgt : indexOf (n ++ js " <" ++ e ++ js ">" ++ r) (js ">") = slen (n ++ js " <" ++ e)).
  { replace (n ++ js " <" ++ e ++ js ">" ++ r) with ((n ++ js " <" ++ e) ++ 62 :: r) by by rewrite <- !app_assoc.
    apply indexOf_at. rewrite !not_elem_of_app. split_and!; [apply Hp; set_solver|by vm_compute; set_solver|apply (display_email_without e 62 He); set_solver]. }
  assert (Hat : indexOf (n ++ js " <" ++ e ++ js ">" ++ r) (js "@") = -1 ∨ slen (n ++ js " <") <= indexOf (n ++ js " <" ++ e ++ js ">" ++ r) (js "@")).
  { rewrite (app_assoc n). apply (indexOf_behind (n ++ js " <") _ 64). apply not_elem_of_app. split; [apply Hp|]; set_solver by (cbn in *; lia). }
  unfold comma_start. cbv zeta. rewrite Hlt, Hgt. rewrite !slen_app in *. pose proof (slen_nonneg n). pose proof (slen_nonneg e).
  change (slen (js " <")) with 2 in *. change (slen (js ">")) with 1 in *.
  destruct (Z.eqb_spec (slen n + 1) (-1)); [lia|]. destruct (Z.ltb_spec (slen n + 1) (slen n + (2 + slen e))); [|lia]. cbn [negb andb].
  destruct (Z.eqb_spec (indexOf (n ++ js " <" ++ e ++ js ">" ++ r) (js "@")) (-1)); cbn [negb]; lia.
Qed.

Lemma comma_start_displayed m r :
  displayed m = true →
  ∃ p q, mailbox_toString m = p ++ q ∧ (44 ∉ q) ∧ slen p <= comma_start (mailbox_toString m ++ r) <= slen (p ++ q).
Proof.
  destruct m as [n e]. unfold displayed, mailbox_toString. cbn [name email]. intros [He Hn]%andb_true_iff.
  assert (Hc : 44 ∉ e) by (apply (display_email_without e 44 He); set_solver).
  destruct n as [|c n]; cbn [str_truthy] in *.
  - exists [], e. split_and!; [done|done|apply bool_decide_eq_true in Hn; by apply (comma_start_bare e r)..].
  - exists ((c :: n) ++ js " <"), (e ++ js ">"). rewrite <- !(app_assoc (c :: n)).
    split_and!; [done|apply not_elem_of_app; split; [done|set_solver by (cbn in *; lia)]|rewrite <- !app_assoc; by apply comma_start_named..].
Qed.

Lemma slice_0_app t r : slice (t ++ r) 0 (slen t) = t.
Proof. unfold slen. rewrite slice_0_take. apply take_app_length. Qed.

Lemma slice_from_after t c r : slice_from (t ++ c :: r) (slen t + 1) = r.
Proof.
  replace (slen t + 1) with (slen (t ++ [c])) by (rewrite slen_app; done).
  change (c :: r) with ([c] ++ r). rewrite app_assoc. apply slice_from_app.
Qed.

Lemma display_loop_unfold fuel s :
  s ≠ [] →
  display_loop (S fuel) s =
    (let comma := indexOf_from s (js ",") (comma_start s) in
     let addr := trimStart (if 0 <? comma then slice s 0 comma else s) in
     (if str_truthy addr then [_makeSingleAddress addr] else []) ++
     display_loop fuel (if 0 <? comma then (span comma_or_space (slice_from s (comma + 1))).2 else [])).
Proof. destruct s as [|c s]; [done|]. intros _. cbn [display_loop]. unfold comma_start. by destruct (0 <? _). Qed.

(** Each round shortens the text, so its length is enough fuel on any text. *)
Lemma display_loop_fuel n s : (length s <= n)%nat → display_loop n s = display_loop (length s) s.
Proof.
  revert s. induction n as [n IH] using lt_wf_ind. intros s Hn. destruct s as [|c s]; [by destruct n|].
  destruct n as [|n]; [by apply Nat.nle_succ_0 in Hn|]. cbn [length] in *.
  rewrite !display_loop_unfold by done. cbv zeta. f_equal.
  set (comma := indexOf_from (c :: s) (js ",") (comma_start (c :: s))). destruct (Z.ltb_spec 0 comma) as [Hc|]; [|by destruct n, s].
  set (rest := (span comma_or_space (slice_from (c :: s) (comma + 1))).2).
  assert (Hr : (length rest <= length s)%nat).
  { pose proof (f_equal length (span_join comma_or_space (slice_from (c :: s) (comma + 1)))) as E. rewrite length_app in E.
    unfold rest. unfold slice_from in *. rewrite slice_nonneg in * by (unfold slen; lia). rewrite length_take, length_drop in E. cbn [length] in E. lia. }
  rewrite (IH n) by lia. destruct (decide (n = length s)) as [->|]; [|by rewrite (IH (length s)) by lia].
  by rewrite (IH (length s)) by lia.
Qed.

Lemma displayed_starts m : displayed m = true → starts (λ c, negb (comma_or_space c)) (mailbox_toString m) = true.
Proof.
  destruct m as [n e]. unfold displayed, mailbox_toString. cbn [name email]. intros [He Hn]%andb_true_iff.
  destruct n as [|c n]; cbn [str_truthy] in *.
  - destruct e as [|c e]; [by apply bool_decide_eq_true, elem_of_nil in Hn|].
    destruct (display_email_chars (c :: e) c He) as [Hs Hq]; [by left|]. cbn. unfold comma_or_space. rewrite Hs.
    rewrite (proj2 (Z.eqb_neq c 44)); [done|]. intros ->. apply Hq. set_solver.
  - apply starts_app. by apply display_name_ends.
Qed.

Lemma starts_solid s : starts (λ c, negb (comma_or_space c)) s = true → s ≠ [] ∧ trimStart s = s ∧ str_truthy s = true.
Proof.
  destruct s as [|c s]; [done|]. cbn. unfold comma_or_space. intros H. split_and!; [done| |done]. by destruct (is_space c); rewrite ?orb_true_r in H.
Qed.

Lemma skip_separator s : starts (λ c, negb (comma_or_space c)) s = true → (span comma_or_space (SP :: s)).2 = s.
Proof. destruct s as [|c s]; [done|]. cbn. by destruct (comma_or_space c). Qed.

Definition display_text (ms : list mailbox) : jsstr := join (js ", ") (map mailbox_toString ms).

Lemma display_text_starts m ms :
  displayed m = true → starts (λ c, negb (comma_or_space c)) (display_text (m :: ms)) = true.
Proof. intros Hm%displayed_starts. destruct ms; [done|by apply starts_app]. Qed.

Lemma display_loop_displayed ms fuel :
  Forall (λ m, displayed m = true) ms → (length (display_text ms) <= fuel)%nat → display_loop fuel (display_text ms) = ms.
Proof.
  intros Hms. revert fuel. induction Hms as [|m ms Hm Hms IH]; intros fuel Hf; [by destruct fuel|].
  pose proof (display_text_starts m ms Hm) as Hs. destruct (starts_solid _ Hs) as (Hne & _ & _).
  pose proof (displayed_starts m Hm) as Ht. destruct (starts_solid _ Ht) as (Htne & Htrim & Htruth).
  assert (Hlen : 0 < slen (mailbox_toString m)) by (destruct (mailbox_toString m) as [|c t]; [done|rewrite slen_cons; pose proof (slen_nonneg t); lia]).
  destruct fuel as [|fuel]; [destruct (display_text (m :: ms)); cbn in Hf; [done|lia]|].
  rewrite display_loop_unfold by done. destruct ms as [|m' ms].
  - unfold display_text. cbn [map join]. destruct (comma_start_displayed m [] Hm) as (p & q & Hpq & Hq & Hstart). rewrite app_nil_r in Hstart.
    destruct (comma_behind p q [] _ Hq Hstart) as [_ Hc]. rewrite <- Hpq in Hc. cbv zeta.
    change (js ",") with [44]. rewrite Hc. cbn [Z.ltb Z.compare]. rewrite Htrim, Htruth, single_displayed by done. by destruct fuel.
  - pose proof (display_text_starts m' ms (Forall_inv Hms)) as Hs'.
    assert (Hsplit : display_text (m :: m' :: ms) = mailbox_toString m ++ 44 :: SP :: display_text (m' :: ms)) by done.
    rewrite Hsplit in *. destruct (comma_start_displayed m (44 :: SP :: display_text (m' :: ms)) Hm) as (p & q & Hpq & Hq & Hstart).
    destruct (comma_behind p q (SP :: display_text (m' :: ms)) _ Hq Hstart) as [Hc _]. rewrite <- Hpq in Hc. cbv zeta.
    change (js ",") with [44]. rewrite Hc, (proj2 (Z.ltb_lt 0 _)) by done.
    rewrite slice_0_app, slice_from_after, skip_separator by done. rewrite Htrim, Htruth, single_displayed by done.
    cbn [app]. f_equal. apply IH. rewrite length_app in Hf. cbn [length] in Hf. lia.
Qed.

Lemma join_without c sep l : c ∉ sep → Forall (λ s, c ∉ s) l → c ∉ join sep l.
Proof.
  intros Hs Hl. induction Hl as [|s l Hc Hl IH]; [apply not_elem_of_nil|]. destruct l; [done|].
  cbn [join]. rewrite !not_elem_of_app. done.
Qed.

Lemma toString_semicolon m : displayed m = true → 59 ∉ mailbox_toString m.
Proof.
  destruct m as [n e]. unfold displayed, mailbox_toString. cbn [name email]. intros [He Hn]%andb_true_iff.
  pose proof (display_email_without e 59 He ltac:(set_solver)). destruct n as [|c n]; cbn [str_truthy] in *; [done|].
  pose proof (display_name_without _ 59 Hn ltac:(set_solver)). rewrite !not_elem_of_app. split_and!; [done|by vm_compute; set_solver|done|by vm_compute; set_solver].
Qed.

(** C25. [makeFromDisplayAddress] reads the [toString] texts of mailboxes, with commas
    between them, as the mailboxes again, when their names have no <, >, @ or semicolon
    and neither begin with a comma or a space nor end in a space (they may have commas,
    quotes and spaces within), their addresses no white space, quotes, <, >, commas or
    semicolons, and an address without a name an @.  nsIMsgHeaderParser.idl promises it of
    every toString text, which does not hold: see [display_name_split] and
    [display_semicolon_replaced] in HeaderFaults.v. *)
Theorem display_roundtrip ms :
  Forall (λ m, displayed m = true) ms → makeFromDisplayAddress (display_text ms) = ms.
Proof.
  intros Hms. unfold makeFromDisplayAddress, includes. change (js ";") with [59]. rewrite find_char_none.
  - by apply display_loop_displayed.
  - apply join_without; [by vm_compute; set_solver|]. apply Forall_map. by eapply Forall_impl; [|apply toString_semicolon].
Qed.

Definition displayed_examples : list mailbox :=
  [mkMailbox (js "Bond, James") (js "agent007@mi5.invalid"); mkMailbox [] (js "webmaster@nowhere.invalid");
   mkMailbox (js "J. " ++ [QUOTE] ++ js "X" ++ [QUOTE]) (js "j")].

Lemma display_roundtrip_witness : makeFromDisplayAddress (display_text displayed_examples) = displayed_examples.
Proof. apply (display_roundtrip displayed_examples). apply (bool_decide_unpack _). by vm_compute. Defined.

(** ** Addresses without duplicates *)

(** What tells addresses apart. *)
Definition keys (l : list mailbox) : list jsstr := map (λ m, normalize (email m)) l.

Definition group_names (l : list address) : list jsstr :=
  omap (λ a, match a with Group n _ => Some n | Mailbox _ => None end) l.

Lemma filter_mailboxes_app seen l1 l2 :
  filter_mailboxes seen (l1 ++ l2) =
    (let '(seen1, r1) := filter_mailboxes seen l1 in let '(seen2, r2) := filter_mailboxes seen1 l2 in (seen2, r1 ++ r2)).
Proof.
  revert seen. induction l1 as [|m l1 IH]; intros seen; cbn.
  - by destruct (filter_mailboxes seen l2).
  - destruct (decide _); [apply IH|]. rewrite IH. destruct (filter_mailboxes _ l1) as [s1 r1]. by destruct (filter_mailboxes s1 l2).
Qed.

(** The groups stay, and their members are filtered with the others. *)
Lemma filter_addresses_mailboxes seen l :
  filter_mailboxes seen (mailboxes l) = ((filter_addresses seen l).1, mailboxes (filter_addresses seen l).2) ∧
  group_names (filter_addresses seen l).2 = group_names l.
Proof.
  revert seen. induction l as [|[m|n ms] l IH]; intros seen; [done|..]; cbn [filter_addresses].
  - change (mailboxes (Mailbox m :: l)) with (m :: mailboxes l). cbn [filter_mailboxes]. destruct (decide _); [apply IH|].
    destruct (IH ({[normalize (email m)]} ∪ seen)) as [H1 H2]. rewrite H1. by destruct (filter_addresses _ l).
  - change (mailboxes (Group n ms :: l)) with (ms ++ mailboxes l). rewrite filter_mailboxes_app.
    destruct (filter_mailboxes seen ms) as [s1 r1]. destruct (IH s1) as [H1 H2]. rewrite H1.
    destruct (filter_addresses s1 l) as [s2 r2]. split; [done|]. cbn in *. by rewrite H2.
Qed.

Lemma filter_mailboxes_spec seen l :
  let r := (filter_mailboxes seen l).2 in
  r `sublist_of` l ∧ NoDup (keys r) ∧ (∀ k, k ∈ keys r ↔ k ∈ keys l ∧ k ∉ seen).
Proof.
  revert seen. induction l as [|m l IH]; intros seen; cbn.
  - split_and!; [done|constructor|]. intros k. rewrite elem_of_nil. tauto.
  - destruct (decide (normalize (email m) ∈ seen)) as [Hin|Hin].
    + destruct (IH seen) as (H1 & H2 & H3). split_and!; [by apply sublist_cons|done|]. intros k. rewrite H3, elem_of_cons.
      split; [by intros [? ?]; auto|]. intros [[->|?] ?]; done.
    + specialize (IH ({[normalize (email m)]} ∪ seen)). destruct (filter_mailboxes _ l) as [s' r]. destruct IH as (H1 & H2 & H3).
      cbn in *. split_and!.
      * by apply sublist_skip.
      * constructor; [|done]. rewrite H3. set_solver.
      * intros k. rewrite !elem_of_cons, H3, not_elem_of_union, not_elem_of_singleton.
        destruct (decide (k = normalize (email m))) as [->|]; tauto.
Qed.

Section Duplicates.
Context {D : Type} `{TextDecoder D} `{TextEncoder}.

(** C26. [removeDuplicateAddresses] writes the addresses of the first text without
    those of the second: each one once, in their order, with all of the groups. *)
Theorem removeDuplicateAddresses_once aAddrs aOtherAddrs addrs other :
  parseDecodedHeader aAddrs true = Some addrs → parseDecodedHeader aOtherAddrs false = Some other →
  ∃ kept, removeDuplicateAddresses aAddrs aOtherAddrs = makeMimeHeader kept ∧
    mailboxes kept `sublist_of` mailboxes addrs ∧ NoDup (keys (mailboxes kept)) ∧
    (∀ k, k ∈ keys (mailboxes kept) ↔ k ∈ keys (mailboxes addrs) ∧ k ∉ keys (mailboxes other)) ∧
    group_names kept = group_names addrs.
Proof.
  intros Ha Ho. unfold removeDuplicateAddresses. rewrite Ho. cbn [mbind option_bind]. rewrite Ha. cbn [mbind option_bind].
  set (seen := list_to_set _). destruct (filter_addresses_mailboxes seen addrs) as [Hm Hg].
  destruct (filter_mailboxes_spec seen (mailboxes addrs)) as (Hsub & Hnd & Hkeys). rewrite Hm in *.
  eexists. split_and!; [reflexivity|done|done| |done]. intros k. rewrite Hkeys. unfold seen. by rewrite elem_of_list_to_set.
Qed.
End Duplicates.

Definition duplicate_text : jsstr := js "A <a@x.org>, team: b@x.org, A@X.ORG; , B <b@x.org>, c@x.org".

Lemma removeDuplicateAddresses_once_witness :
  ∃ addrs kept, @parseDecodedHeader unit latin1 duplicate_text true = Some addrs ∧
    @removeDuplicateAddresses unit latin1 utf8 duplicate_text (js "c@x.org") = @makeMimeHeader utf8 kept ∧
    NoDup (keys (mailboxes kept)) ∧ group_names kept = group_names addrs.
Proof.
  destruct (@removeDuplicateAddresses_once unit latin1 utf8 duplicate_text (js "c@x.org")
    [Mailbox (mkMailbox (js "A") (js "a@x.org")); Group (js "team") [mkMailbox [] (js "b@x.org"); mkMailbox [] (js "A@X.ORG")];
     Mailbox (mkMailbox (js "B") (js "b@x.org")); Mailbox (mkMailbox [] (js "c@x.org"))]
    [Mailbox (mkMailbox [] (js "c@x.org"))]) as (kept & H1 & _ & H2 & _ & H3); [by vm_compute..|].
  eexists _, kept. split_and!; [by vm_compute|exact H1|exact H2|exact H3].
Defined.

Example duplicates_removed :
  @removeDuplicateAddresses unit latin1 utf8 duplicate_text (js "c@x.org") = Some (js "A <a@x.org>, team: b@x.org;").
Proof. by vm_compute. Qed.
