(* ===== verification/StructuredHeaders.v ===== *)
(** * StructuredHeaders: headers as values

    The decoders of jsmime for the values of known headers, the [StructuredHeaders] it
    gives to a handler, with their cache, and the objects of MimeJSComponents.sys.mjs
    that hold and write headers.  [None] is an exception.  The text of a header block
    is read by [newStructuredHeaders] of MimeHeaders. *)

From S2P Require Import Prelude Effects MimeUtils MimeHeaders MimeText MimeTree HeaderTokens DateTime DateHeaders HeaderEmitter Utf8 AddressHeaders EmitterLines EmitterWords AddressRoundtrip MimeAddresses DisplayAddresses.

(** ** Decoders *)

(** A value: text, addresses, a date or a list of texts; a content type; or undefined. *)
Inductive structured :=
  | SValue (v : header_value)
  | SContentType (t : ContentType)
  | SUndefined.

Inductive decoder :=
  | dAddress | dUnstructured | dDate | dContentType | dTransferEncoding | dMessageIDs | dNewsgroups.

(** The names with their decoders, as they are registered. *)
Definition structuredDecoders : list (jsstr * decoder) :=
  map (λ h, (h, dAddress))
    [js "Bcc"; js "Cc"; js "From"; js "Reply-To"; js "Resent-Bcc"; js "Resent-Cc"; js "Resent-From";
     js "Resent-Reply-To"; js "Resent-Sender"; js "Resent-To"; js "Sender"; js "To"; js "Approved";
     js "Disposition-Notification-To"; js "Delivered-To"; js "Return-Receipt-To"; js "Mail-Reply-To";
     js "Mail-Followup-To"]
  ++ [(js "Content-Type", dContentType)]
  ++ map (λ h, (h, dUnstructured))
    [js "Comments"; js "Keywords"; js "Subject"; js "MIME-Version"; js "Content-Description"; js "User-Agent"]
  ++ map (λ h, (h, dDate))
    [js "Date"; js "Resent-Date"; js "Expires"; js "Injection-Date"; js "NNTP-Posting-Date"]
  ++ map (λ h, (h, dUnstructured)) [js "Message-ID"; js "Resent-Message-ID"]
  ++ [(js "Content-Transfer-Encoding", dTransferEncoding); (js "References", dMessageIDs); (js "In-Reply-To", dMessageIDs);
      (js "Newsgroups", dNewsgroups); (js "Followup-To", dNewsgroups)].

Fixpoint find_decoder (lowerHeader : jsstr) (l : list (jsstr * decoder)) : option (jsstr * decoder) :=
  match l with
  | p :: l' => if toLowerCase p.1 ==s lowerHeader then Some p else find_decoder lowerHeader l'
  | [] => None
  end.

(** The texts in angles, [open] being the one that is read. *)
Fixpoint message_ids (open : option jsstr) (s : jsstr) : list jsstr :=
  match s, open with
  | [], _ => []
  | c :: s', None => message_ids (if c =? 60 then Some [c] else None) s'
  | c :: s', Some w => if c =? 62 then (w ++ [c]) :: message_ids None s' else message_ids (Some (w ++ [c])) s'
  end.

Definition preprocessMessageIDs (values : list jsstr) : option structured :=
  (λ v, match message_ids None v with [] => SUndefined | ids => SValue (VText (join (js " ") ids)) end) <$> head values.

Section Decoders.
Context {D : Type} `{TextDecoder D}.

Definition run_decoder (d : decoder) (values : list jsstr) : option structured :=
  match d with
  | dAddress => (λ l, SValue (VAddresses l)) <$> parseAddress values
  | dUnstructured => v ← head values; (λ t, SValue (VText t)) <$> decodeRFC2047Words v
  | dDate => v ← head values; (λ t, SValue (VDate t)) <$> parseDateHeader v
  | dContentType => SContentType <$> parseContentType values
  | dTransferEncoding => (λ t, SValue (VText t)) <$> parseTransferEncoding values
  | dMessageIDs => preprocessMessageIDs values
  | dNewsgroups => Some (SValue (VNewsgroups (parseNewsgroups values)))
  end.

Definition parseStructuredHeader (header : jsstr) (value : list jsstr) : option structured :=
  p ← find_decoder (toLowerCase header) structuredDecoders; run_decoder p.2 value.

(** ** The headers of a part *)

Record Headers := mkHeadersObject {
  block : StructuredHeaders;
  _charset : jsstr;
  _cachedHeaders : gmap jsstr structured
}.
#[export] Instance eta_Headers : Settable Headers := λ s, mkHeadersObject (block s) (_charset s) (_cachedHeaders s).

Definition newHeaders (text : jsstr) (o : MimeOptions) : Headers :=
  let b := newStructuredHeaders text o in mkHeadersObject b (charset_ b) ∅.

Definition set_charset (value : jsstr) (h : Headers) : Headers :=
  h <| _charset := value |> <| _cachedHeaders := ∅ |>.

(** What [get] makes of the raw values. *)
Definition structure_values (headerName : jsstr) (headerValue : list jsstr) : option structured :=
  match parseStructuredHeader headerName headerValue with
  | Some v => Some v
  | None => (λ l, SValue (VNewsgroups l)) <$> mapM decodeRFC2047Words headerValue
  end.

(** [get]: undefined without the header. *)
Definition get (headerName : jsstr) (h : Headers) : Headers * option structured :=
  let headerName := toLowerCase headerName in
  match _cachedHeaders h !! headerName with
  | Some v => (h, Some v)
  | None =>
      match mget (_rawHeaders (block h)) headerName with
      | None => (h, Some SUndefined)
      | Some headerValue =>
          match structure_values headerName (map (λ v, convert8BitHeader v (_charset h)) headerValue) with
          | Some v => (h <| _cachedHeaders ::= <[headerName := v]> |>, Some v)
          | None => (h, None)
          end
      end
  end.

(** A letter behind the start or a character that is not of a word. *)
Definition word_char (c : Z) : bool :=
  is_digit c || ((65 <=? c) && (c <=? 90)) || ((97 <=? c) && (c <=? 122)) || (c =? 95).

Fixpoint capitalize_words (boundary : bool) (s : jsstr) : jsstr :=
  match s with
  | c :: s' => (if boundary && (97 <=? c) && (c <=? 122) then c - 32 else c) :: capitalize_words (negb (word_char c)) s'
  | [] => []
  end.

(** The preferred spelling of a name in lower case. *)
Definition spelling (name : jsstr) : jsstr :=
  match find_decoder name structuredDecoders with Some p => p.1 | None => capitalize_words true name end.

Definition header_keys (h : Headers) : list jsstr := map (λ p, spelling p.1) (_rawHeaders (block h)).

(** The iterator: the keys with their values. *)
Fixpoint entries_of (l : list jsstr) (h : Headers) : option (list (jsstr * structured)) :=
  match l with
  | [] => Some []
  | k :: l' => let '(h', r) := get k h in v ← r; rest ← entries_of l' h'; Some ((k, v) :: rest)
  end.

Definition entries (h : Headers) : option (list (jsstr * structured)) := entries_of (header_keys h) h.

(** [extractHeader] of nsIMimeHeaders: [None] is null. *)
Definition extractHeader (header : jsstr) (getAll : bool) (h : Headers) : option jsstr :=
  (λ values, if getAll then join (js "," ++ CRLF ++ [TAB]) values else default [] (head values))
    <$> mget (_rawHeaders (block h)) (toLowerCase header).

Definition allHeaders (h : Headers) : jsstr := rawHeaderText (block h).

(** ** Objects that hold headers *)

(** What [MimeStructuredHeaders] uses of its map: [get], [has], the keys, and the keys
    with their values; a map of decoded headers fills its cache, which the values do not
    depend on (see below). *)
Class HeaderMap (M : Type) := {
  map_get : jsstr → M → M * option structured;
  map_has : jsstr → M → bool;
  map_keys : M → list jsstr;
  map_entries : M → option (list (jsstr * structured))
}.

#[export] Instance parsed_headers : HeaderMap Headers := {
  map_get := get;
  map_has name h := has_header (block h) name;
  map_keys := header_keys;
  map_entries := entries
}.

(** The map of [MimeWritableStructuredHeaders]. *)
Abbreviation written_headers := (list (jsstr * structured)).

#[export] Instance written_map : HeaderMap written_headers := {
  map_get name m := (m, Some (default SUndefined (mget m name)));
  map_has name m := mhas m name;
  map_keys m := m.*1;
  map_entries := Some
}.

Section Reading.
Context {M : Type} `{HeaderMap M} `{TextEncoder} `{TimeZone}.

Definition getHeader (aHeaderName : jsstr) (m : M) : M * option structured := map_get (toLowerCase aHeaderName) m.

Definition hasHeader (aHeaderName : jsstr) (m : M) : bool := map_has (toLowerCase aHeaderName) m.

(** Text, or undefined. *)
Definition getUnstructuredHeader (aHeaderName : jsstr) (m : M) : M * option structured :=
  let '(m, r) := getHeader aHeaderName m in
  (m, match r with Some (SUndefined | SValue (VText _)) => r | _ => None end).

Definition getAddressingHeader (aHeaderName : jsstr) (aPreserveGroups : bool) (m : M) : M * option (list address) :=
  let '(m, r) := getHeader aHeaderName m in
  (m, match r with
      | Some SUndefined | Some (SValue (VNewsgroups [])) => Some []
      | Some (SValue (VAddresses l)) => Some (fixArray aPreserveGroups l)
      | _ => None
      end).

Definition emit_structured (headerName : jsstr) (v : structured) : em unit :=
  match v with SValue v => addStructuredHeader headerName v | SContentType _ | SUndefined => throw end.

Definition no_options : options := mkOptions None None None None.

(** Without CRLF. *)
Definition without_breaks (s : jsstr) : jsstr := replaceAll s CRLF [].

(** The value as it is written, on one line; [SUndefined] without the header. *)
Definition header_text (headerName : jsstr) (v : structured) : option jsstr :=
  (λ value, without_breaks (trim (substring value (slen headerName + 2) (slen value))))
    <$> emit_with no_options (emit_structured headerName v).

Definition getRawHeader (aHeaderName : jsstr) (m : M) : M * option structured :=
  let '(m, r) := getHeader aHeaderName m in
  (m, match r with
      | Some SUndefined => r
      | Some v => (λ value, SValue (VText value)) <$> header_text aHeaderName v
      | None => None
      end).

Definition buildMimeText (sanitizeDate : bool) (m : M) : option jsstr :=
  if bool_decide (map_keys m = []) then Some []
  else
    l ← map_entries m;
    emit_with (mkOptions None None (Some true) (Some sanitizeDate)) (for_each l (λ p, emit_structured p.1 p.2)).
End Reading.

Definition setHeader (aHeaderName : jsstr) (aValue : structured) (m : written_headers) : written_headers :=
  mset m (toLowerCase aHeaderName) aValue.

Definition deleteHeader (aHeaderName : jsstr) (m : written_headers) : written_headers :=
  List.filter (λ p, negb (p.1 ==s toLowerCase aHeaderName)) m.

Definition setAddressingHeader (aHeaderName : jsstr) (aAddresses : list address) (m : written_headers) : written_headers :=
  setHeader aHeaderName (SValue (VAddresses (fixXpconnectAddresses aAddresses))) m.

Definition setUnstructuredHeader (aHeaderName aValue : jsstr) (m : written_headers) : written_headers :=
  setHeader aHeaderName (SValue (VText aValue)) m.

(** Without a decoder, or when it throws, the value is text. *)
Definition setRawHeader (aHeaderName aValue : jsstr) (m : written_headers) : written_headers :=
  match parseStructuredHeader aHeaderName [aValue] with
  | Some v => setHeader aHeaderName v m
  | None => setHeader aHeaderName (SValue (VText (trim aValue))) m
  end.

(** The headers of another object, up to an exception of its [getHeader]. *)
Fixpoint copy_headers {M} `{HeaderMap M} (names : list jsstr) (aHeaders : M) (m : written_headers) : written_headers * option unit :=
  match names with
  | [] => (m, Some tt)
  | header :: names' =>
      match getHeader header aHeaders with
      | (aHeaders', Some v) => copy_headers names' aHeaders' (setHeader header v m)
      | (_, None) => (m, None)
      end
  end.

Definition addAllHeaders {M} `{HeaderMap M} (aHeaders : M) (m : written_headers) : written_headers * option unit :=
  copy_headers (map_keys aHeaders) aHeaders m.

(** ** The cache *)

(** What a map without a cache gives. *)
Definition get_uncached (b : StructuredHeaders) (charset headerName : jsstr) : option structured :=
  match mget (_rawHeaders b) (toLowerCase headerName) with
  | None => Some SUndefined
  | Some l => structure_values (toLowerCase headerName) (map (λ v, convert8BitHeader v charset) l)
  end.

Inductive request := Get (headerName : jsstr) | SetCharset (charset : jsstr).

Fixpoint serve (l : list request) (h : Headers) : list (option structured) :=
  match l with
  | [] => []
  | Get n :: l' => let '(h', r) := get n h in r :: serve l' h'
  | SetCharset c :: l' => serve l' (set_charset c h)
  end.

Fixpoint serve_uncached (l : list request) (b : StructuredHeaders) (charset : jsstr) : list (option structured) :=
  match l with
  | [] => []
  | Get n :: l' => get_uncached b charset n :: serve_uncached l' b charset
  | SetCharset c :: l' => serve_uncached l' b c
  end.

(** The cache holds values of the headers under the character set. *)
Definition coherent (h : Headers) : Prop :=
  ∀ n v, _cachedHeaders h !! toLowerCase n = Some v → get_uncached (block h) (_charset h) n = Some v.

Lemma get_coherent n h :
  coherent h →
  (get n h).2 = get_uncached (block h) (_charset h) n ∧ coherent (get n h).1 ∧
  block (get n h).1 = block h ∧ _charset (get n h).1 = _charset h.
Proof.
  intros Hh. unfold get. destruct (_cachedHeaders h !! toLowerCase n) as [v|] eqn:Ec; [by rewrite (Hh n v Ec)|].
  unfold get_uncached. destruct (mget _ _) as [l|] eqn:El; [|done]. destruct (structure_values _ _) as [v|] eqn:Ev; [|done].
  split_and!; [done| |done..]. intros n' v'. cbn. rewrite lookup_insert_Some. intros [[Hn <-]|[_ Hc]]; [|by apply Hh].
  unfold get_uncached. by rewrite <- Hn, El.
Qed.

(** C27. The cache of decoded headers cannot be observed: whatever headers are asked for
    and whenever the character set is changed between, the answers are the decodings of
    the raw values under the character set of that moment. *)
Theorem header_cache_transparent text o reqs :
  serve reqs (newHeaders text o) = serve_uncached reqs (newStructuredHeaders text o) (charset_opt o).
Proof.
  assert (Hc : _charset (newHeaders text o) = charset_opt o).
  { unfold newHeaders, newStructuredHeaders. cbn. by repeat case_match. }
  change (newStructuredHeaders text o) with (block (newHeaders text o)). rewrite <- Hc.
  assert (Hh : coherent (newHeaders text o)) by (intros n v; cbn; by rewrite lookup_empty).
  revert Hh. generalize (newHeaders text o). induction reqs as [|[n|c] reqs IH]; intros h Hh; cbn [serve serve_uncached]; [done| |].
  - destruct (get_coherent n h Hh) as (Hr & Hh' & Hb & Hs). destruct (get n h) as [h' r]. cbn in *.
    by rewrite Hr, (IH h' Hh'), Hb, Hs.
  - apply (IH (set_charset c h)). intros n v. cbn. by rewrite lookup_empty.
Qed.

(** ** Message ids *)

(** A message id in angles, and what may be between two. *)
Definition id_ok (x : jsstr) : Prop := ∃ w, x = js "<" ++ w ++ js ">" ∧ 62 ∉ w.

Lemma message_ids_inside w a rest : 62 ∉ w → message_ids (Some a) (w ++ 62 :: rest) = (a ++ w ++ [62]) :: message_ids None rest.
Proof.
  revert a. induction w as [|c w IH]; intros a Hw; [done|]. apply not_elem_of_cons in Hw as [Hc Hw].
  cbn [app message_ids]. rewrite (proj2 (Z.eqb_neq c 62)) by done. rewrite IH by done. by rewrite <- app_assoc.
Qed.

Lemma message_ids_gap g rest : 60 ∉ g → message_ids None (g ++ rest) = message_ids None rest.
Proof.
  induction g as [|c g IH]; [done|]. intros [Hc Hg]%not_elem_of_cons. cbn [app message_ids].
  by rewrite (proj2 (Z.eqb_neq c 60)), IH.
Qed.

Lemma message_ids_id x rest : id_ok x → message_ids None (x ++ rest) = x :: message_ids None rest.
Proof.
  intros (w & -> & Hw). change (js "<" ++ w ++ js ">") with (60 :: (w ++ [62])). cbn [app message_ids Z.eqb Pos.eqb].
  rewrite <- app_assoc. cbn [app]. by rewrite message_ids_inside.
Qed.

Lemma message_ids_all l tail :
  Forall (λ p, (60 ∉ p.1) ∧ id_ok p.2) l → 60 ∉ tail → message_ids None (concat (map (λ p, p.1 ++ p.2) l) ++ tail) = map snd l.
Proof.
  intros Hl Ht. induction Hl as [|[g x] l [Hg Hx] Hl IH]; cbn [map concat app].
  - by rewrite <- (app_nil_r tail), message_ids_gap.
  - rewrite <- !app_assoc, message_ids_gap, message_ids_id by done. by rewrite IH.
Qed.

(** The ids of a References header are separated by single spaces, whatever was
    between them (commas, folded lines, nothing), and a header that is already so stays. *)
Theorem references_normalized l tail :
  l ≠ [] → Forall (λ p, (60 ∉ p.1) ∧ id_ok p.2) l → 60 ∉ tail →
  let text := join (js " ") (map snd l) in
  parseStructuredHeader (js "references") [concat (map (λ p, p.1 ++ p.2) l) ++ tail] = Some (SValue (VText text)) ∧
  parseStructuredHeader (js "references") [text] = Some (SValue (VText text)).
Proof.
  intros Hne Hl Ht text.
  assert (Hrun : ∀ v, message_ids None v = map snd l → parseStructuredHeader (js "references") [v] = Some (SValue (VText text))).
  { intros v Hv. change (Some (match message_ids None v with [] => SUndefined | ids => SValue (VText (join (js " ") ids)) end) = Some (SValue (VText text))).
    rewrite Hv. by destruct l. }
  split; apply Hrun; [by apply message_ids_all|].
  destruct l as [|[g x] l]; [done|]. apply Forall_cons in Hl as [[_ Hx] Hl].
  assert (Ej : text = concat (map (λ p, p.1 ++ p.2) (([], x) :: map (λ p, ([SP], p.2)) l)) ++ []).
  { unfold text. rewrite app_nil_r. clear -l. cbn [map snd]. revert x. induction l as [|[g' y] l IH]; intros x; [cbn; by rewrite app_nil_r|].
    cbn [map snd]. change (join [32] (x :: y :: map snd l)) with (x ++ js " " ++ join (js " ") (y :: map snd l)). rewrite IH. by cbn [map concat app snd fst]. }
  rewrite Ej, message_ids_all; [|constructor; [split; [apply not_elem_of_nil|done]|]|apply not_elem_of_nil].
  - cbn [map snd]. f_equal. rewrite map_map. done.
  - apply Forall_map. eapply Forall_impl; [exact Hl|]. intros [g' y] [_ Hy]. split; [by vm_compute; set_solver|done].
Qed.

(** ** A date is stored *)

#[local] Ltac Zify.zify_post_hook ::= Z.to_euclidean_division_equations.

(** At most [k] characters, and no spaces. *)
Definition short_text (k : Z) (s : jsstr) : bool :=
  negb (s ==s []) && (slen s <=? k) && forallb (λ c, (33 <=? c) && (c <=? 126)) s.

Lemma short_text_spec k s : short_text k s = true → s ≠ [] ∧ slen s <= k ∧ forallb solid s = true ∧ (CR ∉ s).
Proof.
  unfold short_text. rewrite !andb_true_iff, negb_true_iff. intros [[H1%bool_decide_eq_false H2%Z.leb_le] H3].
  rewrite forallb_forall in H3. split_and!; [done|done| |].
  - apply forallb_forall. intros c Hc. specialize (H3 c Hc). cbn beta in H3. apply andb_true_iff in H3 as [Hc1%Z.leb_le Hc2%Z.leb_le].
    pose proof (below_forall (λ c, (c <? 33) || solid c) 127 ltac:(by vm_compute) c ltac:(lia)) as H3. cbn beta in H3.
    by rewrite (proj2 (Z.ltb_ge c 33)) in H3.
  - intros Hc%list_elem_of_In. by specialize (H3 CR Hc).
Qed.

Lemma short_app k1 k2 s t : short_text k1 s = true → short_text k2 t = true → short_text (k1 + k2) (s ++ t) = true.
Proof.
  unfold short_text. rewrite !andb_true_iff, !negb_true_iff, !Z.leb_le, forallb_app, slen_app. intros [[H1 H2] H3] [[H4 H5] H6].
  rewrite H3, H6. split_and!; [by destruct s|lia|done].
Qed.

Lemma short_pad n : 0 <= n < 100 → short_text 2 (padTo2Digits n) = true.
Proof. intros Hn. by apply (below_forall (λ n, short_text 2 (padTo2Digits n)) 100) in Hn; [|by vm_compute]. Qed.

Lemma short_num n : 0 <= n < 10000 → short_text 4 (num_str n) = true.
Proof.
  intros Hn. apply (below_forall (λ n, short_text 4 (num_str n)) (Z.to_nat 10000)); [by vm_compute|].
  by rewrite Z2Nat.id.
Qed.

Lemma short_day w : 0 <= w < 7 → short_text 4 (nth (Z.to_nat w) kDaysOfWeek [] ++ js ",") = true.
Proof. intros Hw. by apply (below_forall (λ n, short_text 4 (nth (Z.to_nat n) kDaysOfWeek [] ++ js ",")) 7) in Hw; [|by vm_compute]. Qed.

Lemma short_month w : 0 <= w < 12 → short_text 3 (nth (Z.to_nat w) MONTH_NAMES []) = true.
Proof. intros Hw. by apply (below_forall (λ n, short_text 3 (nth (Z.to_nat n) MONTH_NAMES [])) 12) in Hw; [|by vm_compute]. Qed.

Lemma short_zone tz : Z.abs tz < 6000 → short_text 5 (offset_text tz) = true.
Proof.
  intros Hz. change 5 with (1 + (2 + 2)). apply short_app; [by destruct (0 <? tz)|]. apply short_app; apply short_pad; lia.
Qed.

Lemma short_time h m s :
  0 <= h < 100 → 0 <= m < 100 → 0 <= s < 100 →
  short_text 8 (padTo2Digits h ++ js ":" ++ padTo2Digits m ++ js ":" ++ padTo2Digits s) = true.
Proof.
  intros Hh Hm Hs. change 8 with (2 + (1 + (2 + (1 + 2)))).
  do 4 (apply short_app; [first [by apply short_pad|reflexivity]|]). by apply short_pad.
Qed.

(** Words with spaces between them. *)
Definition spaced (k : Z) (s : jsstr) : Prop :=
  slen s <= k ∧ starts solid s = true ∧ starts solid (rev s) = true ∧ (CR ∉ s).

Lemma spaced_short k s : short_text k s = true → spaced k s.
Proof.
  intros (Hne & Hlen & Hs & Hc)%short_text_spec. split_and!; [done| | |done].
  - destruct s; [done|]. by apply andb_true_iff in Hs as [? _].
  - destruct s as [|c s _] using rev_ind; [done|]. rewrite rev_app_distr. rewrite forallb_app in Hs.
    cbn. by apply andb_true_iff in Hs as [_ [? _]%andb_true_iff].
Qed.

Lemma spaced_join k1 k2 s t : spaced k1 s → spaced k2 t → spaced (k1 + 1 + k2) (s ++ js " " ++ t).
Proof.
  intros (H1 & H2 & H3 & H4) (H5 & H6 & H7 & H8). split_and!.
  - rewrite !slen_app. change (slen (js " ")) with 1. lia.
  - by apply starts_app.
  - rewrite rev_app_distr, rev_app_distr, <- app_assoc. by apply starts_app.
  - rewrite !not_elem_of_app. split_and!; [done|by vm_compute; set_solver|done].
Qed.

Lemma dayTime_spaced w d mo y h m s z :
  0 <= w < 7 → 0 <= d < 10000 → 0 <= mo < 12 → 0 <= y < 10000 → 0 <= h < 100 → 0 <= m < 100 → 0 <= s < 100 → short_text 5 z = true →
  spaced 33 (join (js " ")
    [nth (Z.to_nat w) kDaysOfWeek [] ++ js ","; num_str d; nth (Z.to_nat mo) MONTH_NAMES []; num_str y;
     padTo2Digits h ++ js ":" ++ padTo2Digits m ++ js ":" ++ padTo2Digits s; z]).
Proof.
  intros Hw Hd Hmo Hy Hh Hm Hs Hz. change 33 with (4 + 1 + (4 + 1 + (3 + 1 + (4 + 1 + (8 + 1 + 5))))). cbn [join].
  repeat apply spaced_join; apply spaced_short; [by apply short_day|by apply short_num|by apply short_month|by apply short_num|by apply short_time|done].
Qed.

Lemma date_text_spaced `{TimeZone} sanitizeDate t text :
  Z.abs (getTimezoneOffset t) < 6000 → date_text sanitizeDate (Some t) = Some text → spaced 33 text.
Proof.
  intros Htz Htext.
  assert (∃ l tz s, dayTime l tz s = Some text ∧ Z.abs tz < 6000 ∧ 0 <= s < 60) as (l & tz & s & Hday & Hz & Hs).
  { unfold date_text in Htext. cbn [mbind option_bind] in Htext.
    destruct sanitizeDate; eexists _, _, _; (split; [exact Htext|]); unfold time_seconds; lia. }
  unfold dayTime in Hday. destruct (Z.ltb_spec (time_year l) 1900), (Z.ltb_spec 9999 (time_year l)); cbn [orb] in Hday; try done.
  apply (inj Some) in Hday as <-. fold (offset_text tz).
  pose proof (date_range l) as Hd.
  assert (Hmo : 0 <= time_month l < 12) by apply month_of_yday_range.
  apply dayTime_spaced; try (unfold time_weekday, time_hours, time_minutes; lia).
  - apply short_zone. lia.
Qed.

Lemma trimEnd_ends p s : starts solid (rev s) = true → trimEnd (p ++ s) = p ++ s.
Proof.
  intros Hs. unfold trimEnd. rewrite trimStart_solid; [apply rev_involutive|]. rewrite rev_app_distr. by apply starts_app.
Qed.

Lemma substring_after p s : substring (p ++ s) (slen p) (slen (p ++ s)) = s.
Proof.
  pose proof (slen_nonneg s). pose proof (slen_nonneg p). rewrite substring_nonneg by (rewrite slen_app; lia).
  rewrite slen_app. replace (slen p + slen s - slen p) with (slen s) by lia. unfold slen. rewrite !Nat2Z.id, drop_app_length. by apply take_ge.
Qed.

Lemma replaceAll_fuel_absent n s c p r : c ∉ s → replaceAll_fuel n s (c :: p) r = s.
Proof.
  revert s. induction n as [|n IH]; intros s Hc; [done|]. destruct s as [|d s]; [done|]. apply not_elem_of_cons in Hc as [Hd Hc].
  cbn [replaceAll_fuel]. unfold startsWith. rewrite bool_decide_eq_false_2 by (intros [k Hk]; cbn [app] in Hk; congruence). by rewrite IH.
Qed.

Lemma find_encoder_spelling n l p : find_encoder n l = Some p → toLowerCase p.1 = n.
Proof. induction l as [|q l IH]; [done|]. cbn. destruct (_ ==s n) eqn:E; [intros [= <-]; by apply bool_decide_eq_true in E|done]. Qed.

(** The names of the encoders of dates have the decoder of dates. *)
Lemma date_decoder n p : find_encoder n encoders = Some p → p.2 = writeDate → find_decoder n structuredDecoders = Some (p.1, dDate).
Proof.
  intros Hf Hp. rewrite <- (find_encoder_spelling _ _ _ Hf).
  assert (Hall : forallb (λ p, match p.2 with writeDate => match find_decoder (toLowerCase p.1) structuredDecoders with
    | Some (q, dDate) => q ==s p.1 | _ => false end | _ => true end) encoders = true) by by vm_compute.
  rewrite forallb_forall in Hall. specialize (Hall p (proj1 (list_elem_of_In _ _) (find_encoder_elem _ _ _ Hf))).
  cbn beta in Hall. rewrite Hp in Hall. destruct (find_decoder _ _) as [[q []]|]; try done. by apply bool_decide_eq_true in Hall as ->.
Qed.

Lemma date_header_text `{TextEncoder} `{TimeZone} headerName spelling t text :
  find_encoder (toLowerCase headerName) encoders = Some (spelling, writeDate) →
  date_text false (Some t) = Some text → spaced 33 text →
  header_text headerName (SValue (VDate (Some t))) = Some text.
Proof.
  intros Hf Ht (Hlen & Hs1 & Hs2 & Hc). unfold header_text, emit_structured, emit_with, addStructuredHeader. rewrite Hf. cbn [encode_value].
  destruct (spelling_facts spelling writeDate (find_encoder_elem _ _ _ Hf)) as [Hl _]. pose proof (new_emitter_margins no_options) as [Hm _].
  assert (En : addHeaderName spelling (new_emitter no_options) = ((new_emitter no_options) <| currentLine := spelling ++ js ": " |>, [], Some tt)).
  { unfold addHeaderName, line_length. rewrite bind_modify, bind_gets. change (slen (currentLine _)) with 0. cbn [Z.ltb Z.compare when].
    unfold skip. rewrite bind_ret_l, addText_fits; [done|]. rewrite slen_app. change (slen (js ": ")) with 2.
    change (0 + (slen spelling + 2) <= softMargin (new_emitter no_options)). lia. }
  rewrite bind_assoc, (bind_run _ _ _ _ _ _ En). unfold addDate. rewrite bind_assoc, bind_gets.
  set (s1 := (new_emitter no_options) <| currentLine := spelling ++ js ": " |>).
  change (sanitizeDate s1) with false. rewrite Ht.
  assert (Hfit : slen (spelling ++ js ": ") + slen text <= 78) by (rewrite slen_app; change (slen (js ": ")) with 2; lia).
  rewrite (bind_run _ _ _ _ _ _ (addText_fits text s1 Hfit)).
  unfold finish. rewrite (bind_run _ _ _ _ _ _ (commit_end_run _)). cbn [when emit app].
  change (Some (without_breaks (let value := (trimEnd ((spelling ++ js ": ") ++ text) ++ CRLF) ++ [] in
    trim (substring value (slen headerName + 2) (slen value)))) = Some text).
  cbv zeta. rewrite app_nil_r, (trimEnd_ends _ text) by done.
  assert (Hn : slen headerName + 2 = slen (spelling ++ js ": ")).
  { pose proof (f_equal length (find_encoder_spelling _ _ _ Hf)) as E. unfold toLowerCase in E. rewrite !length_map in E.
    cbn [fst] in E. rewrite slen_app. unfold slen. rewrite E. done. }
  rewrite Hn, <- app_assoc. rewrite substring_after. rewrite trim_after by done.
  exact (f_equal Some (replaceAll_fuel_absent _ text CR [LF] [] Hc)).
Qed.

Lemma mset_mset {K V} `{EqDecision K} (m : list (K * V)) k v v' : mset (mset m k v) k v' = mset m k v'.
Proof.
  induction m as [|[k1 v1] m IH]; cbn; [by rewrite decide_True|]. destruct (decide (k1 = k)) as [->|Hk]; cbn.
  - by rewrite decide_True.
  - by rewrite decide_False, IH.
Qed.

(** C28. A date that is stored is the raw text of its header, and the raw text is stored
    as the date, to the second. *)
Theorem stored_date `{TextEncoder} `{TimeZone} headerName spelling t text m :
  find_encoder (toLowerCase headerName) encoders = Some (spelling, writeDate) →
  Z.abs (getTimezoneOffset t) < 6000 → date_text false (Some t) = Some text →
  let m1 := setHeader headerName (SValue (VDate (Some t))) m in
  (getRawHeader headerName m1).2 = Some (SValue (VText text)) ∧
  setRawHeader headerName text m1 = setHeader headerName (SValue (VDate (Some (written_time false t)))) m.
Proof.
  intros Hf Htz Ht m1. pose proof (date_text_spaced false t text Htz Ht) as Hs. split.
  - unfold getRawHeader, getHeader, m1, setHeader. cbn [map_get written_map]. rewrite mget_mset_eq. cbn [default from_option snd].
    change (id ?x) with x. by rewrite (date_header_text headerName spelling t text).
  - unfold setRawHeader, parseStructuredHeader. rewrite (date_decoder _ _ Hf eq_refl). cbn [mbind option_bind snd run_decoder head fst].
    rewrite (date_roundtrip false t text Htz Ht). unfold m1, setHeader. apply mset_mset.
Qed.

End Decoders.

Definition reference_list : list (jsstr * jsstr) := [([], js "<a@x>"); (js ",", js "<b@y>"); ([], js "<c>")].

Lemma reference_list_ok : Forall (λ p, (60 ∉ p.1) ∧ id_ok p.2) reference_list.
Proof.
  unfold reference_list. repeat apply Forall_cons_2; [..|apply Forall_nil_2]; (split; [by vm_compute; set_solver|]);
    [exists (js "a@x")|exists (js "b@y")|exists (js "c")]; (split; [done|by vm_compute; set_solver]).
Qed.

Lemma references_normalized_witness :
  @parseStructuredHeader unit latin1 (js "references") [js "<a@x>,<b@y><c> -"] = Some (SValue (VText (js "<a@x> <b@y> <c>"))).
Proof.
  assert (E1 : js "<a@x>,<b@y><c> -" = concat (map (λ p, p.1 ++ p.2) reference_list) ++ js " -") by by vm_compute.
  assert (E2 : js "<a@x> <b@y> <c>" = join (js " ") (map snd reference_list)) by by vm_compute.
  rewrite E1, E2. apply (@references_normalized unit latin1 reference_list (js " -")); [done|exact reference_list_ok|by vm_compute; set_solver].
Defined.

Lemma stored_date_witness :
  @setRawHeader unit latin1 (js "DATE") (js "Thu, 1 Jun 2000 16:00:56 +0200") (setHeader (js "DATE") (SValue (VDate (Some 959868056789))) []) =
  setHeader (js "DATE") (SValue (VDate (Some (written_time false 959868056789)))) [].
Proof.
  assert (E : date_text (H := λ _, -120) false (Some 959868056789) = Some (js "Thu, 1 Jun 2000 16:00:56 +0200")).
  { by vm_compute. }
  apply (@stored_date unit latin1 utf8 (λ _, -120) (js "DATE") (js "Date") 959868056789 _ []); [by vm_compute|done|exact E].
Defined.
