(* ===== verification/HeaderFaults.v ===== *)
(** * HeaderFaults: headers that are not written, or read, as they are meant to be

    Cases of jsmime and MimeJSComponents on which the code and its comments, or the
    code and the formats it writes, differ. *)

From S2P Require Import Prelude Effects MimeUtils MimeHeaders MimeText MimeTree HeaderTokens DateHeaders HeaderEmitter Utf8 EmitterWords AddressHeaders MimeAddresses StructuredHeaders.

#[local] Instance utc : TimeZone := λ _, 0.
#[local] Instance decode_latin1 : TextDecoder unit := latin1.

(** ** Lines *)

(** The two recipients, the second with a name of [n] words of two letters. *)
Definition long_recipients (n : nat) : list address :=
  [Mailbox (mkMailbox (js "A") (js "a@x")); Mailbox (mkMailbox (concat (repeat (js "ab ") n) ++ js "c") (js "a@x"))].

(** A blank line inside of a To header, which ends the headers of a message: the line
    that is only a space is committed when an address does not fit on any line. *)
Lemma blank_line_in_header :
  emitStructuredHeader (js "to") (VAddresses (long_recipients 331)) default_options ≫= (λ t, find_sub (CRLF ++ CRLF) t) = Some 12%nat ∧
  emitStructuredHeader (js "to") (VAddresses (long_recipients 330)) default_options ≫= (λ t, find_sub (CRLF ++ CRLF) t) = None.
Proof. by vm_compute. Qed.

(** The comment says 332 for a margin that is not given. *)
Lemma default_hard_margin : hardMargin (new_emitter default_options) = 998.
Proof. done. Qed.

(** An empty encoded word, behind a name of 88 letters. *)
Lemma empty_encoded_word :
  emitStructuredHeader (repeat 120 88) (VText (js "ab" ++ [233])) default_options =
    Some (88 :: repeat 120 87 ++ js ": =?UTF-8?Q??=" ++ CRLF ++ js " =?UTF-8?Q?ab=C3=A9?=" ++ CRLF).
Proof. by vm_compute. Qed.

(** Words of 77 characters, where RFC 2047 allows 75. *)
Lemma long_encoded_word :
  (λ t, map (λ l, slen (trim l)) (split_on LF t)) <$> emitStructuredHeader (js "x") (VText (repeat 97 200 ++ [233])) default_options
    = Some [78; 77; 77; 24; 0].
Proof. by vm_compute. Qed.

(** msgIStructuredHeaders.idl has the closest minute for a sanitized date; it is the
    minute that has begun. *)
Lemma sanitized_minute : date_text true (Some 59999) = Some (js "Thu, 1 Jan 1970 00:00:00 +0000").
Proof. by vm_compute. Qed.

(** ** Addresses *)

(** A backslash in a name is not quoted, and lost when it is read. *)
Lemma backslash_lost :
  emitStructuredHeader (js "to") (VAddresses [Mailbox (mkMailbox (js "a\b") (js "c@d"))]) default_options = Some (js "To: a\b <c@d>" ++ CRLF) ∧
  parseAddressingHeader (js "a\b <c@d>") true = Some [Mailbox (mkMailbox (js "ab") (js "c@d"))].
Proof. by vm_compute. Qed.

(** A line end in an address is written, and begins a header of its own. *)
Lemma line_end_in_address :
  emitStructuredHeader (js "to") (VAddresses [Mailbox (mkMailbox [] (js "c@d" ++ CRLF ++ js "X: y"))]) default_options
    = Some (js "To: c@d" ++ CRLF ++ js "X: y" ++ CRLF).
Proof. by vm_compute. Qed.

(** The comma before the @ separates, though the comment has the first one behind it. *)
Lemma comma_before_at :
  makeFromDisplayAddress (js "Doe, j@x.org") = [mkMailbox [] (js "Doe"); mkMailbox [] (js "j@x.org")].
Proof. by vm_compute. Qed.

(** nsIMsgHeaderParser.idl has makeFromDisplayAddress read any texts of toString; a
    mailbox whose name has an @ before a comma is split in two, and a semicolon in a
    name comes back as a comma. *)
Lemma display_name_split :
  mailbox_toString (mkMailbox (js "A@B, C") (js "c@d")) = js "A@B, C <c@d>" ∧
  makeFromDisplayAddress (js "A@B, C <c@d>") = [mkMailbox [] (js "A@B"); mkMailbox (js "C") (js "c@d")].
Proof. by vm_compute. Qed.

Lemma display_semicolon_replaced :
  mailbox_toString (mkMailbox (js "A; B") (js "a@b")) = js "A; B <a@b>" ∧
  makeFromDisplayAddress (js "A; B <a@b>") = [mkMailbox (js "A, B") (js "a@b")].
Proof. by vm_compute. Qed.

(** ** Headers *)

(** The headers of a message that was read cannot be written when one has no decoder:
    its value is an array, which the emitter does not take. *)
Lemma unknown_header_not_written :
  (get (js "x-foo") (newHeaders (js "X-Foo: bar") defaultMimeOptions)).2 = Some (SValue (VNewsgroups [js "bar"])) ∧
  buildMimeText false (newHeaders (js "X-Foo: bar") defaultMimeOptions) = None.
Proof. by vm_compute. Qed.
