(* ===== verification/SmtpParser.v ===== *)
(** * SmtpParser: the reply parser of the SMTP client

    [_parse] of mailnews/compose/src/SmtpClient.sys.mjs, over the handler
    [_onCommand] that gets the parsed replies.  The parser's fields are a record
    of their own: no handler of the client reads or writes them. *)

From S2P Require Import Prelude Effects.

(** The [{success, statusCode, data}] objects; the status is [null] when no
    reply code was seen. *)
Record command := mkCommand {
  statusCode : option Z;
  data : jsstr;
  success : bool
}.

Record Parser := mkParser {
  block_data : list jsstr;       (* _parseBlock.data *)
  block_status : option Z;       (* _parseBlock.statusCode *)
  _parseRemainder : jsstr
}.

Definition newParser : Parser := mkParser [] None [].

(** ** Lines *)

Definition strip_cr (l : jsstr) : jsstr :=
  if endsWith l [CR] then slice l 0 (-1) else l.

(** [s.split(/\r?\n/)]: the lines that end in LF or CRLF, and the rest. *)
Fixpoint split_eol (s : jsstr) : list jsstr * jsstr :=
  match s with
  | [] => ([], [])
  | c :: s' =>
      let '(ls, r) := split_eol s' in
      if c =? LF then ([] :: ls, r)
      else match ls with
           | [] => ([], c :: r)
           | l :: ls' => ((c :: l) :: ls', r)
           end
  end.
Definition split_lines (s : jsstr) : list jsstr * jsstr :=
  let '(ls, r) := split_eol s in (map strip_cr ls, r).

(** The optional group [(?:(\d+\.\d+\.\d+)(?: ))?]: the text after it. *)
Definition digits_then (sep : Z) (s : jsstr) : option jsstr :=
  match take_digits s with
  | [] => None
  | ds => match drop (length ds) s with
          | c :: r => if c =? sep then Some r else None
          | [] => None
          end
  end.
Definition skip_enhanced (s : jsstr) : jsstr :=
  match (digits_then DOT s ≫= digits_then DOT) ≫= digits_then SP with
  | Some r => r
  | None => s
  end.

(** The reply regex: the code, whether it is a continuation, and the text. *)
Definition match_reply (line : jsstr) : option (Z * bool * jsstr) :=
  match line with
  | a :: b :: c :: sep :: r =>
      if is_digit a && is_digit b && is_digit c && ((sep =? 45) || (sep =? SP))
      then Some (digits_val [a; b; c], sep =? 45, until_eol (skip_enhanced r))
      else None
  | _ => None
  end.

(** ** The parser *)

Section Parse.
Context {C E : Type}.
Variable _onCommand : command → eff C E unit.

Definition on_client {X} (m : eff C E X) : eff (Parser * C) E X := λ '(p, c),
  let '(c', o, r) := m c in (p, c', o, r).

Definition on_parser (f : Parser → Parser) : eff (Parser * C) E unit :=
  modify (λ '(p, c), (f p, c)).

Definition reset_block (p : Parser) : Parser := mkParser [] None (_parseRemainder p).

Definition push_data (d : jsstr) (p : Parser) : Parser :=
  mkParser (block_data p ++ [d]) (block_status p) (_parseRemainder p).

(** [this._parseBlock.statusCode || Number(match[1])]. *)
Definition set_status (code : Z) (p : Parser) : Parser :=
  mkParser (block_data p)
    (if num_truthy (block_status p) then block_status p else Some code) (_parseRemainder p).

(** The body of the loop of [_parse]. *)
Definition parse_line (line : jsstr) : eff (Parser * C) E unit :=
  if negb (str_truthy (trim line)) then skip
  else match match_reply line with
       | Some (code, more, text) =>
           on_parser (push_data text) >>
           (if more : bool then on_parser (set_status code)
            else
              (let! blk := gets (λ st, block_data st.1) in
               on_client (_onCommand (mkCommand (Some code) (join [LF] blk)
                                        ((200 <=? code) && (code <? 300))))) >>
              on_parser reset_block)
       | None =>
           (let! st := gets (λ st, block_status st.1) in
            on_client (_onCommand (mkCommand (if num_truthy st then st else None) line false))) >>
           on_parser reset_block
       end.

Definition set_remainder (r : jsstr) (p : Parser) : Parser :=
  mkParser (block_data p) (block_status p) r.

Definition _parse (chunk : jsstr) : eff (Parser * C) E unit :=
  let! r := gets (λ st, _parseRemainder st.1) in
  let ls := split_lines (r ++ chunk) in
  on_parser (set_remainder ls.2) >> for_each ls.1 parse_line.

(** ** Chunks *)

Lemma split_eol_app a b :
  split_eol (a ++ b)
  = ((split_eol a).1 ++ (split_eol ((split_eol a).2 ++ b)).1,
     (split_eol ((split_eol a).2 ++ b)).2).
Proof.
  induction a as [|c a IH]; simpl; [by destruct (split_eol b)|]. rewrite IH. clear IH.
  destruct (split_eol a) as [ls r]. cbn [fst snd].
  destruct (c =? LF) eqn:Ec; [done|]. destruct ls as [|l ls]; [|done]. simpl.
  rewrite Ec. by destruct (split_eol (r ++ b)) as [[|l ls] r'].
Qed.

Lemma split_lines_app a b :
  split_lines (a ++ b)
  = ((split_lines a).1 ++ (split_lines ((split_lines a).2 ++ b)).1,
     (split_lines ((split_lines a).2 ++ b)).2).
Proof.
  unfold split_lines. rewrite split_eol_app. destruct (split_eol a) as [ls r]. cbn [fst snd].
  destruct (split_eol (r ++ b)) as [ls' r']. cbn [fst snd]. by rewrite map_app.
Qed.

(** A line's processing neither reads nor writes the remainder. *)
Definition with_rem (r : jsstr) (st : Parser * C) : Parser * C := (set_remainder r st.1, st.2).

Definition map_state (f : Parser * C → Parser * C) (x : Parser * C * list E * option unit) :=
  (f x.1.1, x.1.2, x.2).

Lemma parse_line_frame line r st :
  parse_line line (with_rem r st) = map_state (with_rem r) (parse_line line st).
Proof.
  destruct st as [p c]. unfold parse_line, with_rem, map_state.
  destruct (negb _); [done|]. destruct (match_reply line) as [[[code more] text]|].
  - destruct more; [done|]. unfold bind, gets, on_client, on_parser, modify. cbn.
    by destruct (_onCommand _ c) as [[c' o] [[]|]].
  - unfold bind, gets, on_client, on_parser, modify. cbn.
    by destruct (_onCommand _ c) as [[c' o] [[]|]].
Qed.

Lemma for_each_frame ls r st :
  for_each ls parse_line (with_rem r st) = map_state (with_rem r) (for_each ls parse_line st).
Proof.
  revert st. induction ls as [|l ls IH]; intros st; [done|]. cbn [for_each]. unfold bind.
  rewrite parse_line_frame. destruct (parse_line l st) as [[st1 o1] [[]|]]; [|done].
  unfold map_state at 1. cbn [fst snd]. rewrite IH.
  by destruct (for_each ls parse_line st1) as [[st2 o2] x].
Qed.

Lemma for_each_rem ls st :
  _parseRemainder (for_each ls parse_line st).1.1.1 = _parseRemainder st.1.
Proof.
  pose proof (for_each_frame ls (_parseRemainder st.1) st) as H.
  replace (with_rem (_parseRemainder st.1) st) with st in H by (by destruct st as [[? ? ?] ?]).
  by rewrite H.
Qed.

Lemma parse_run chunk st :
  _parse chunk st
  = for_each (split_lines (_parseRemainder st.1 ++ chunk)).1 parse_line
      (with_rem (split_lines (_parseRemainder st.1 ++ chunk)).2 st).
Proof.
  destruct st as [p c]. unfold _parse, bind, gets, on_parser, modify. cbn [fst snd].
  unfold with_rem. cbn [fst snd].
  by destruct (for_each _ _ _) as [[st o] r].
Qed.

Lemma with_rem_twice r r' st : with_rem r (with_rem r' st) = with_rem r st.
Proof. done. Qed.

(** C23. The replies are the same, and reach the client in the same order,
    however the network cuts the server's text in two: parsing the two chunks
    one after the other is parsing the whole. *)
Theorem parse_chunks a b st :
  (_parse a >> _parse b) st
  = let '(st1, o1, r1) := _parse a st in
    match r1 with
    | Some _ => _parse (a ++ b) st
    | None => (st1, o1, None)
    end.
Proof.
  unfold bind. rewrite !parse_run, (assoc_L (++)), (split_lines_app (_parseRemainder st.1 ++ a) b).
  set (A := split_lines (_parseRemainder st.1 ++ a)). set (B := split_lines (A.2 ++ b)).
  cbn [fst snd]. rewrite for_each_app. unfold bind.
  rewrite <- (with_rem_twice B.2 A.2 st), (for_each_frame A.1 B.2 (with_rem A.2 st)).
  pose proof (for_each_rem A.1 (with_rem A.2 st)) as Hrem.
  destruct (for_each A.1 parse_line (with_rem A.2 st)) as [[st1 o1] [[]|]]; [|done].
  cbn [fst snd] in Hrem. unfold map_state. cbn [fst snd].
  rewrite parse_run, Hrem. done.
Qed.

(** ** One reply *)

(** A reply's text: in one line, and not starting with an enhanced code. *)
Definition reply_text (t : jsstr) : Prop :=
  Forall (λ c, c ≠ LF ∧ c ≠ CR ∧ c ≠ 8232 ∧ c ≠ 8233) t ∧ skip_enhanced t = t.

Definition three_digits (code : jsstr) : Prop :=
  length code = 3%nat ∧ Forall (λ c, is_digit c = true) code.

(** The lines of a reply of the server. *)
Definition reply_lines (code : jsstr) (ts : list jsstr) (t : jsstr) : list jsstr :=
  map (λ t, code ++ [45] ++ t) ts ++ [code ++ [SP] ++ t].

Lemma until_eol_id t : Forall (λ c, c ≠ LF ∧ c ≠ CR ∧ c ≠ 8232 ∧ c ≠ 8233) t → until_eol t = t.
Proof.
  induction 1 as [|c t (H1 & H2 & H3 & H4) _ IH]; [done|]. simpl. rewrite IH.
  apply Z.eqb_neq in H1, H2, H3, H4. by rewrite H1, H2, H3, H4.
Qed.

Lemma match_reply_line code sep t :
  three_digits code → (sep = 45 ∨ sep = SP) → reply_text t →
  match_reply (code ++ [sep] ++ t) = Some (digits_val code, sep =? 45, t).
Proof.
  intros [Hl Hd] Hs [Ht He]. destruct code as [|a [|b [|c [|? ?]]]]; try done.
  rewrite !Forall_cons in Hd. destruct Hd as (Ha & Hb & Hc & _). cbn.
  rewrite Ha, Hb, Hc, He, until_eol_id by done. by destruct Hs as [-> | ->].
Qed.

Lemma trim_digit c s : is_digit c = true → str_truthy (trim (c :: s)) = true.
Proof.
  intros Hc%digit_not_space. unfold trim, trimEnd. cbn [trimStart]. rewrite Hc.
  cbn [rev]. assert (H : ∀ l, trimStart (l ++ [c]) ≠ []).
  { induction l as [|x l IH]; cbn [trimStart app]; [by rewrite Hc|]. by destruct (is_space x). }
  specialize (H (rev s)). destruct (trimStart (rev s ++ [c])) as [|y l] eqn:E'; [done|].
  cbn [rev]. by destruct (rev l).
Qed.

Lemma split_eol_line l r :
  Forall (λ c, c ≠ LF) l → split_eol (l ++ LF :: r) = (l :: (split_eol r).1, (split_eol r).2).
Proof.
  induction 1 as [|c l Hc _ IH]; simpl; [by destruct (split_eol r)|].
  rewrite IH. apply Z.eqb_neq in Hc. by rewrite Hc.
Qed.

Lemma split_lines_body ls :
  Forall (Forall (λ c, c ≠ LF)) ls → split_lines (body ls) = (ls, []).
Proof.
  unfold split_lines. induction 1 as [|l ls Hl _ IH]; [done|].
  change (body (l :: ls)) with ((l ++ [CR; LF]) ++ body ls).
  rewrite <- (assoc_L (++)). change ([CR; LF] ++ body ls) with ([CR] ++ LF :: body ls).
  rewrite (assoc_L (++)), split_eol_line.
  - destruct (split_eol (body ls)) as [ls' r]. cbn [fst snd map]. inversion IH; subst.
    f_equal. f_equal. unfold strip_cr. rewrite endsWith_app.
    by rewrite (slice_0_neg _ [CR] 1) by (done || lia).
  - apply Forall_app. split; [done|]. by apply Forall_singleton.
Qed.

Lemma reply_line_nonempty code x :
  three_digits code → negb (str_truthy (trim (code ++ x))) = false.
Proof.
  intros [Hl Hd]. destruct code as [|a code]; [done|]. apply Forall_cons in Hd as [Ha _].
  simpl. by rewrite trim_digit.
Qed.

(** The continuation lines only fill the block. *)
Lemma parse_continuation code ts p c :
  three_digits code → Forall reply_text ts →
  ∃ st, for_each (map (λ t, code ++ [45] ++ t) ts) parse_line (p, c)
        = (mkParser (block_data p ++ ts) st (_parseRemainder p), c, [], Some tt).
Proof.
  intros Hc Hts. revert p. induction Hts as [|t ts Ht Hts IH]; intros p.
  - exists (block_status p). rewrite app_nil_r. by destruct p.
  - cbn [map for_each].
    destruct (IH (set_status (digits_val code) (push_data t p))) as [st Hst].
    exists st. unfold bind at 1. unfold parse_line at 1.
    rewrite reply_line_nonempty, match_reply_line by auto.
    unfold bind, on_parser, modify. cbn -[for_each set_status push_data app map]. rewrite Hst.
    cbn. by rewrite <- (assoc_L (++)).
Qed.

Lemma reply_lines_no_lf code ts t :
  three_digits code → Forall reply_text (ts ++ [t]) →
  Forall (Forall (λ c, c ≠ LF)) (reply_lines code ts t).
Proof.
  intros [_ Hd] Ht. apply Forall_app in Ht as [Hts Ht]. rewrite Forall_singleton in Ht.
  assert (Hcode : Forall (λ c, c ≠ LF) code).
  { eapply Forall_impl; [exact Hd|]. by intros x Hx ->. }
  assert (Hl : ∀ sep x, sep ≠ LF → reply_text x → Forall (λ c, c ≠ LF) (code ++ [sep] ++ x)).
  { intros sep x Hs [Hx _]. apply Forall_app. split; [done|]. constructor; [done|].
    eapply Forall_impl; [exact Hx|]. by intros y (? & _). }
  apply Forall_app. split; [|apply Forall_singleton; apply (Hl SP); [unfold SP, LF; lia|done]].
  apply Forall_map. eapply Forall_impl; [exact Hts|]. intros x Hx.
  apply (Hl 45); [unfold LF; lia|done].
Qed.

(** A whole reply, of any number of lines, makes exactly one command, with
    its code and the texts of its lines joined by LF, successful when the code
    is 2xx; the parser is then ready for the next reply. *)
Theorem parse_reply code ts t c :
  three_digits code → Forall reply_text (ts ++ [t]) →
  let n := digits_val code in
  match _onCommand (mkCommand (Some n) (join [LF] (ts ++ [t])) ((200 <=? n) && (n <? 300))) c with
  | (c', o, Some _) => _parse (body (reply_lines code ts t)) (newParser, c) = (newParser, c', o, Some tt)
  | (c', o, None) => ∃ p, _parse (body (reply_lines code ts t)) (newParser, c) = (p, c', o, None)
  end.
Proof.
  intros Hc Ht. cbn zeta. rewrite parse_run. cbn [fst snd _parseRemainder newParser app].
  rewrite split_lines_body by (by apply reply_lines_no_lf).
  apply Forall_app in Ht as [Hts Ht]. rewrite Forall_singleton in Ht. cbn [fst snd].
  unfold reply_lines. rewrite for_each_app. unfold with_rem, set_remainder. cbn [fst snd].
  destruct (parse_continuation code ts newParser c Hc Hts) as [st Hst].
  unfold bind. unfold newParser in *. cbn [block_data block_status _parseRemainder] in *.
  rewrite app_nil_l in Hst. rewrite Hst. cbn [for_each]. unfold parse_line.
  rewrite reply_line_nonempty, match_reply_line by auto.
  unfold bind, on_parser, on_client, modify, gets. cbn.
  destruct (_onCommand _ c) as [[c' o] [[]|]]; [|by eexists].
  cbn. by rewrite !app_nil_r.
Qed.
End Parse.

(** A client that records the commands. *)
Definition record_commands (cmd : command) : eff unit command unit := emit cmd.

Lemma parse_reply_witness :
  _parse record_commands (js "250-mx.example.org" ++ CRLF ++ js "250-SIZE 1000" ++ CRLF
      ++ js "250 STARTTLS" ++ CRLF) (newParser, tt)
  = (newParser, tt,
     [mkCommand (Some 250) (js "mx.example.org" ++ [LF] ++ js "SIZE 1000" ++ [LF] ++ js "STARTTLS")
        true], Some tt).
Proof.
  apply (parse_reply record_commands (js "250") [js "mx.example.org"; js "SIZE 1000"]
           (js "STARTTLS") tt).
  - split; [done|]. by repeat constructor.
  - apply (bool_decide_unpack _). vm_compute. exact I.
Defined.
