(* ===== verification/SmtpClient.v ===== *)
(** * SmtpClient: the SMTP client's state machine

    mailnews/compose/src/SmtpClient.sys.mjs.  The client's fields are the record
    [SmtpClient] (the parser's are in SmtpParser.v), and every method is an
    [eff] over it.  The outside is:
    - the TCP socket, a record of its two attributes the code depends on; the
      effects of its methods on them are fields of [env];
    - the authenticator, the interface [Authenticator] of Auth.v;
    - the caller's callbacks (onidle, onready, ondone, onFree, onerror), the
      timers and the socket's methods, which are events;
    - preferences, string bundles and the converters of the platform, fields of
      [env]; the server's settings, the record [SmtpServer].

    A callback is an event: what the caller does in it comes after the method
    that called it.  Logging is left out. *)

From S2P Require Import Prelude Effects Net Auth MimeUtils SmtpParser.

(** ** The outside *)

Inductive nserror :=
  | NS_ERROR_FAILURE | NS_ERROR_ABORT | NS_MSG_NO_RECIPIENTS
  | NS_ERROR_ILLEGAL_LOCALPART | NS_ERROR_SMTP_SERVER_ERROR
  | NS_ERROR_SMTP_TEMP_SIZE_EXCEEDED | NS_ERROR_SMTP_PERM_SIZE_EXCEEDED_2
  | NS_ERROR_SENDING_FROM_COMMAND | NS_ERROR_SENDING_RCPT_COMMAND
  | NS_ERROR_SENDING_DATA_COMMAND | NS_ERROR_SENDING_MESSAGE
  | NS_ERROR_STARTTLS_FAILED_EHLO_STARTTLS | NS_ERROR_SMTP_AUTH_FAILURE
  | NS_ERROR_SMTP_AUTH_GSSAPI | NS_ERROR_SMTP_AUTH_MECH_NOT_SUPPORTED
  | NS_ERROR_SMTP_AUTH_CHANGE_ENCRYPT_TO_PLAIN_SSL
  | NS_ERROR_SMTP_AUTH_CHANGE_ENCRYPT_TO_PLAIN_NO_SSL
  | NS_ERROR_SMTP_AUTH_CHANGE_PLAIN_TO_ENCRYPT
  | SocketError (code : Z).
#[export] Instance nserror_eq : EqDecision nserror.
Proof. solve_decision. Defined.

(** [nsISmtpServer], as far as the client reads it, with the preference
    "max_messages_per_connection". *)
Record SmtpServer := mkSmtpServer {
  socketType : nsMsgSocketType;
  authMethod : nsMsgAuthMethod;
  hostname : jsstr;
  port : Z;
  helloArgument : jsstr;
  clientidEnabled : bool;
  clientid : jsstr;
  max_messages_per_connection : Z
}.

Record env := mkEnv {
  pref_strictly_mime : bool;
  pref_dsn_ret_full_on : bool;
  pref_dsn_request_never_on : bool;
  pref_dsn_request_on_success_on : bool;
  pref_dsn_request_on_failure_on : bool;
  pref_dsn_request_on_delay_on : bool;
  pref_login_latin1 : bool;
  convertUTF8toACE : jsstr → jsstr;                  (* nsIIDNService *)
  utf8 : jsstr → jsstr;                              (* new TextEncoder().encode *)
  selfAddr : option (bool * jsstr);                  (* is IPv6?, address; None: it throws *)
  formatError : nserror → option jsstr → option jsstr → jsstr;  (* string bundle *)
  send_result : jsstr → bool;                        (* what socket.send returns *)
  closing : bool → readyState_t                      (* readyState after close (immediately?) *)
}.

Inductive event :=
  | Connect (host : jsstr) (port : Z) (useSecureTransport : bool)
  | Send (ssl : bool) (data : jsstr)         (* socket.send, and whether the socket is secure *)
  | SocketClose
  | SocketCloseImmediately
  | UpgradeToSecure
  | OnIdle
  | OnReady (failed : list jsstr)
  | OnDone (status : Z)
  | OnFree
  | OnDrain
  | OnError (e : nserror) (message : jsstr)
  | StartQuitTimer
  | ClearQuitTimer
  | CloseCachedConnections
  | AskOAuthToken                            (* getOAuthToken, awaited *)
  | OutOfFuel.

#[export] Instance event_eq : EqDecision event.
Proof. solve_decision. Defined.

(** ** The state *)

(** The methods [_currentAction] can be. *)
Inductive action :=
  | AClose | AGreeting | ALHLO | AEHLO | ASTARTTLS | AHELO | ACLIENTID
  | AAUTH_LOGIN_USER | AAUTH_LOGIN_PASS | AAUTH_CRAM | AAUTH_XOAUTH2
  | AAUTH_GSSAPI | AAUTH_NTLM | AAUTHComplete | AIdle | AMAIL | ARCPT | ADATA | AStream.
#[export] Instance action_eq : EqDecision action.
Proof. solve_decision. Defined.

Record envelope := mkEnvelope {
  from : jsstr;
  to : list jsstr;
  size : Z;
  requestDSN : bool;
  messageId : jsstr;
  rcptQueue : list jsstr;
  rcptFailed : list jsstr;
  responseQueue : list jsstr;
  curRecipient : jsstr
}.
#[export] Instance eta_envelope : Settable envelope := λ e,
  mkEnvelope (from e) (to e) (size e) (requestDSN e) (messageId e) (rcptQueue e)
    (rcptFailed e) (responseQueue e) (curRecipient e).

Record options_t := mkOptions {
  alwaysSTARTTLS : bool;
  requireTLS : bool;
  lmtp : bool;              (* never set by the constructor *)
  disableEscaping : bool    (* never set by the constructor *)
}.

Record SmtpClient (A : Type) := mkSmtpClient {
  options : options_t;
  socket : option TCPSocket;
  waitDrain : bool;
  rcptCount : Z;
  isRetry : bool;
  reuseConnection : bool;
  _authenticator : A;
  _authenticating : bool;
  _supportedAuthMethods : list jsstr;
  _possibleAuthMethods : list jsstr;
  _preferredAuthMethods : list jsstr;
  _nextAuthMethod : option jsstr;
  _currentAuthMethod : option jsstr;
  _capabilities : list jsstr;
  _dataMode : bool;
  _lastDataBytes : jsstr;
  _envelope : envelope;
  _currentAction : option action;
  _secureTransport : bool;
  _numMessages : Z;
  _messagesPerConnection : Z;
  _freed : bool;
  _quitTimer : bool;
  sendIsActive : bool       (* this._server.sendIsActive *)
}.
Arguments mkSmtpClient {A}.
Arguments options {A}. Arguments socket {A}. Arguments waitDrain {A}.
Arguments rcptCount {A}. Arguments isRetry {A}. Arguments reuseConnection {A}.
Arguments _authenticator {A}. Arguments _authenticating {A}.
Arguments _supportedAuthMethods {A}. Arguments _possibleAuthMethods {A}.
Arguments _preferredAuthMethods {A}. Arguments _nextAuthMethod {A}.
Arguments _currentAuthMethod {A}. Arguments _capabilities {A}. Arguments _dataMode {A}.
Arguments _lastDataBytes {A}. Arguments _envelope {A}. Arguments _currentAction {A}.
Arguments _secureTransport {A}. Arguments _numMessages {A}.
Arguments _messagesPerConnection {A}. Arguments _freed {A}. Arguments _quitTimer {A}.
Arguments sendIsActive {A}.

#[export] Instance eta_SmtpClient A : Settable (SmtpClient A) := λ c,
  mkSmtpClient (options c) (socket c) (waitDrain c) (rcptCount c) (isRetry c)
    (reuseConnection c) (_authenticator c) (_authenticating c) (_supportedAuthMethods c)
    (_possibleAuthMethods c) (_preferredAuthMethods c) (_nextAuthMethod c)
    (_currentAuthMethod c) (_capabilities c) (_dataMode c) (_lastDataBytes c) (_envelope c)
    (_currentAction c) (_secureTransport c) (_numMessages c) (_messagesPerConnection c)
    (_freed c) (_quitTimer c) (sendIsActive c).

(** The table of the constructor. *)
Definition preferred (m : nsMsgAuthMethod) : list jsstr :=
  match m with
  | passwordCleartext => [js "PLAIN"; js "LOGIN"]
  | passwordEncrypted => [js "CRAM-MD5"]
  | auth_GSSAPI => [js "GSSAPI"]
  | auth_NTLM => [js "NTLM"]
  | auth_OAuth2 => [js "XOAUTH2"]
  | secure => [js "CRAM-MD5"; js "XOAUTH2"]
  | _ => []
  end.

Definition noEnvelope : envelope := mkEnvelope [] [] 0 false [] [] [] [] [].

Definition newSmtpClient {A} (server : SmtpServer) (auth : A) : SmtpClient A :=
  mkSmtpClient
    (mkOptions (bool_decide (socketType server = trySTARTTLS)
                || bool_decide (socketType server = alwaysSTARTTLS_))
       (bool_decide (socketType server = SSL)) false false)
    None false 0 false true auth false [] [] (preferred (authMethod server)) None None []
    false [] noEnvelope None false 0 0 false false false.

(** ** Methods *)

Section Methods.
Context {A : Type} `{Authenticator A}.
Variable srv : SmtpServer.
Variable ev : env.

Abbreviation act := (eff (SmtpClient A) event).

(** A method of the authenticator. *)
Definition auth_call {X} (f : A → A * option X) : act X := λ c,
  let '(a, r) := f (_authenticator c) in (c <| _authenticator := a |>, [], r).

Definition set_action (a : action) : act unit := this, _currentAction := Some a.

(** [this.socket?.readyState == "open"]. *)
Definition is_open (c : SmtpClient A) : bool :=
  match socket c with Some s => bool_decide (readyState s = Open) | None => false end.

Definition _free : act unit :=
  let! freed := gets _freed in
  when (negb freed) ((this, _freed := true) >> emit OnFree).

(** [close(immediately)]. *)
Definition close (immediately : bool) : act unit :=
  let! c := gets id in
  match socket c with
  | Some s =>
      if bool_decide (readyState s = Open) then
        (this, socket := Some (mkTCPSocket (closing ev immediately) (ssl s))) >>
        emit (if immediately then SocketCloseImmediately else SocketClose)
      else _free
  | None => _free
  end.

(** [socket.send] throws when the socket is not open. *)
Definition _send (buffer : jsstr) : act bool :=
  let! c := gets id in
  match socket c with
  | Some s =>
      if bool_decide (readyState s = Open)
      then bind (emit (Send (ssl s) buffer)) (λ _, ret (send_result ev buffer))
      else throw
  | None => throw
  end.

Definition _sendCommand (str : jsstr) : act unit :=
  let! c := gets is_open in
  when c (let! r := _send (utf8 ev (str ++ if endsWith str CRLF then [] else CRLF)) in
          this, waitDrain := r).

Definition quit : act unit :=
  (this, _authenticating := false) >> _sendCommand (js "QUIT") >> set_action AClose.

(** [this._server.port || (this.options.requireTLS ? 465 : 587)]. *)
Definition port_or_default (o : options_t) : Z :=
  if port srv =? 0 then (if requireTLS o then 465 else 587) else port srv.

Definition connect : act unit :=
  let! c := gets id in
  (if is_open c then emit OnIdle
   else
     (this, _secureTransport := requireTLS (options c)) >>
     (this, socket := Some (mkTCPSocket Connecting (requireTLS (options c)))) >>
     emit (Connect (toLowerCase (hostname srv)) (port_or_default (options c))
                   (requireTLS (options c))) >>
     (this, _numMessages := 0) >>
     (this, rcptCount := 0)) >>
  (this, _freed := false) >>
  (this, _messagesPerConnection := Z.max 0 (max_messages_per_connection srv)).

(** The [errorName] list of [_onNsError]. *)
Definition errors_with_message : list nserror :=
  [NS_ERROR_SMTP_SERVER_ERROR; NS_ERROR_SMTP_TEMP_SIZE_EXCEEDED;
   NS_ERROR_SMTP_PERM_SIZE_EXCEEDED_2; NS_ERROR_SENDING_FROM_COMMAND;
   NS_ERROR_SENDING_RCPT_COMMAND; NS_ERROR_SENDING_DATA_COMMAND;
   NS_ERROR_SENDING_MESSAGE; NS_ERROR_ILLEGAL_LOCALPART].

Definition report_error (e : nserror) (param extra : option jsstr) : act unit :=
  emit (OnError e (if bool_decide (e ∈ errors_with_message)
                   then formatError ev e param extra else [])).

Definition temporary (status : option Z) : bool :=
  match status with Some n => (400 <=? n) && (n <? 500) | None => false end.

Definition _onNsError (e : nserror) (param extra : option jsstr) (status : option Z) : act unit :=
  let! c := gets id in
  if bool_decide (_currentAction c = Some AMAIL ∨ _currentAction c = Some ARCPT)
     && temporary status && negb (isRetry c)
  then quit >> (this, isRetry := true) >> close true >> connect
  else report_error e param extra >> close false.

(** [_onNsError(error, command.data)] and [_onNsError(error)]. *)
Definition fail_with (e : nserror) (cmd : command) : act unit := _onNsError e (Some (data cmd)) None None.
Definition fail (e : nserror) : act unit := _onNsError e None None None.

Definition _getHelloArgument : jsstr :=
  if str_truthy (helloArgument srv) then helloArgument srv
  else match selfAddr ev with
       | Some (true, a) => js "[IPV6:" ++ a ++ js "]"
       | Some (false, a) => js "[" ++ a ++ js "]"
       | None => js "[127.0.0.1]"
       end.

(** ** Authentication *)

Definition next_method (l : list jsstr) (x : jsstr) : option jsstr :=
  l !! Z.to_nat (index_of l x + 1).

(** The error when no method was even tried. *)
Definition no_method_error (c : SmtpClient A) : nserror :=
  if bool_decide (authMethod srv = passwordEncrypted)
     && (list_has (_supportedAuthMethods c) (js "PLAIN")
         || list_has (_supportedAuthMethods c) (js "LOGIN"))
  then if bool_decide (socketType srv = alwaysSTARTTLS_ ∨ socketType srv = SSL)
       then NS_ERROR_SMTP_AUTH_CHANGE_ENCRYPT_TO_PLAIN_SSL
       else NS_ERROR_SMTP_AUTH_CHANGE_ENCRYPT_TO_PLAIN_NO_SSL
  else if bool_decide (authMethod srv = passwordCleartext)
          && list_has (_supportedAuthMethods c) (js "CRAM-MD5")
  then NS_ERROR_SMTP_AUTH_CHANGE_PLAIN_TO_ENCRYPT
  else NS_ERROR_SMTP_AUTH_MECH_NOT_SUPPORTED.

(** [_onAuthFailed], over the [_authenticateUser] it calls. *)
Definition onAuthFailed_with (authenticateUser : act unit) : act unit :=
  let! c := gets id in
  match _freed c, _nextAuthMethod c, _currentAuthMethod c with
  | false, Some _, _ => async authenticateUser
  | false, None, None => fail (no_method_error c)
  | _, _, _ =>
      let! choice := auth_call (λ a, let '(a', n) := promptAuthFailed a in (a', Some n)) in
      if choice =? 1 then fail NS_ERROR_SMTP_AUTH_FAILURE
      else
        when (choice =? 2) (auth_call (λ a, (forgetPassword a, Some tt))) >>
        (let! c := gets id in
         if _freed c then connect
         else
           (this, _nextAuthMethod := head (_possibleAuthMethods c)) >>
           when ((choice =? 2) || (choice =? 0)) (async authenticateUser))
  end.

(** [_actionAUTHComplete], over the [_onAuthFailed] it calls. *)
Definition actionAUTHComplete_with (onAuthFailed : act unit) (ok : bool) : act unit :=
  (this, _authenticating := false) >>
  if negb ok then onAuthFailed
  else set_action AIdle >> emit OnIdle.

(** The [switch] of [_authenticateUser] on the method chosen. *)
Definition start_method (m : jsstr) (onAuthFailed : act unit) : act unit :=
  if m ==s js "LOGIN" then
    set_action AAUTH_LOGIN_USER >> _sendCommand (js "AUTH LOGIN")
  else if m ==s js "PLAIN" then
    set_action AAUTHComplete >>
    (let! t := auth_call getPlainToken in _sendCommand (js "AUTH PLAIN " ++ t))
  else if m ==s js "CRAM-MD5" then
    set_action AAUTH_CRAM >> _sendCommand (js "AUTH CRAM-MD5")
  else if m ==s js "XOAUTH2" then
    set_action AAUTH_XOAUTH2 >> emit AskOAuthToken
  else if m ==s js "GSSAPI" then
    set_action AAUTH_GSSAPI >> auth_call initGssapiAuth >> _sendCommand (js "AUTH GSSAPI")
  else if m ==s js "NTLM" then
    set_action AAUTH_NTLM >> auth_call initNtlmAuth >>
    (let! t := catch (bind (auth_call (getNextNtlmToken [])) (λ t, ret (Some t))) (ret None) in
     match t with
     | Some t => _sendCommand (js "AUTH NTLM " ++ t)
     | None => actionAUTHComplete_with onAuthFailed false
     end)
  else onAuthFailed.

(** The recursion is bounded by the fuel: each round is a new method or a new
    answer of the user, who may retry for ever. *)
Fixpoint _authenticateUser (fuel : nat) : act unit :=
  match fuel with
  | O => emit OutOfFuel
  | S f =>
      let onAuthFailed := onAuthFailed_with (_authenticateUser f) in
      let! c := gets id in
      if bool_decide (_preferredAuthMethods c = []) || bool_decide (_supportedAuthMethods c = [])
      then set_action AIdle >> emit OnIdle
      else match _nextAuthMethod c with
           | None => onAuthFailed
           | Some m =>
               (this, _authenticating := true) >>
               (this, _currentAuthMethod := Some m) >>
               (this, _nextAuthMethod := next_method (_possibleAuthMethods c) m) >>
               start_method m onAuthFailed
           end
  end.

Variable fuel : nat.

Definition authenticateUser : act unit := async (_authenticateUser fuel).
Definition _onAuthFailed : act unit := onAuthFailed_with (_authenticateUser fuel).
Definition _actionAUTHComplete (ok : bool) : act unit := actionAUTHComplete_with _onAuthFailed ok.

(** The rest of the XOAUTH2 case, when the awaited token arrives. *)
Definition oauth_token_arrived (token : jsstr) : act unit :=
  async (_sendCommand (js "AUTH XOAUTH2 " ++ token)).

Definition _getPassword : act (option jsstr) :=
  let! p := auth_call (λ a, let '(a', p) := getPassword a in (a', Some p)) in
  match p with
  | Password s => ret (Some s)
  | PasswordAborted =>
      bind (quit >> emit (OnError NS_ERROR_ABORT [])) (λ _, ret None)
  | PasswordThrew => throw
  end.

(** [btoa], which throws on characters above 255. *)
Definition btoa_or_throw (s : jsstr) : act jsstr :=
  if forallb (λ c, c <? 256) s then ret (btoa s) else throw.

(** ** Replies: from the greeting to the authentication *)

Definition is_status (cmd : command) (n : Z) : bool := bool_decide (statusCode cmd = Some n).

Definition _actionGreeting (cmd : command) : act unit :=
  if negb (is_status cmd 220) then fail_with NS_ERROR_SMTP_SERVER_ERROR cmd
  else
    let! o := gets options in
    if lmtp o then set_action ALHLO >> _sendCommand (js "LHLO " ++ _getHelloArgument)
    else set_action AEHLO >> _sendCommand (js "EHLO " ++ _getHelloArgument).

(** One line of the EHLO reply. *)
Definition ehlo_line (line : jsstr) : act unit :=
  if startsWith line (js "AUTH ") then
    this, _supportedAuthMethods := split_on SP (slice_from line 5)
  else
    this, _capabilities ::= λ l, l ++ [default [] (head (split_on SP line))].

Definition clientid_applies (c : SmtpClient A) : bool :=
  list_has (_capabilities c) (js "CLIENTID")
  && (_secureTransport c
      || list_has [js "localhost"; js "127.0.0.1"; js "::1"] (hostname srv))
  && clientidEnabled srv && str_truthy (clientid srv).

Definition _actionEHLO (cmd : command) : act unit :=
  let! o := gets options in
  if is_status cmd 500 || is_status cmd 502 then
    if alwaysSTARTTLS o then fail NS_ERROR_STARTTLS_FAILED_EHLO_STARTTLS
    else set_action AHELO >> _sendCommand (js "HELO " ++ _getHelloArgument)
  else if negb (success cmd) then fail_with NS_ERROR_SMTP_SERVER_ERROR cmd
  else
    (this, _supportedAuthMethods := []) >>
    for_each (tail (split_on LF (toUpperCase (data cmd)))) ehlo_line >>
    (let! c := gets id in
     if negb (_secureTransport c) && alwaysSTARTTLS o then
       if list_has (_capabilities c) (js "STARTTLS")
       then set_action ASTARTTLS >> _sendCommand (js "STARTTLS")
       else fail NS_ERROR_STARTTLS_FAILED_EHLO_STARTTLS
     else
       let possible := filter (λ x, x ∈ _supportedAuthMethods c) (_preferredAuthMethods c) in
       (this, _possibleAuthMethods := possible) >>
       (this, _nextAuthMethod := head possible) >>
       if clientid_applies c
       then set_action ACLIENTID >> _sendCommand (js "CLIENTID UUID " ++ clientid srv)
       else authenticateUser).

Definition _actionLHLO (cmd : command) : act unit :=
  if negb (success cmd) then fail_with NS_ERROR_SMTP_SERVER_ERROR cmd else _actionEHLO cmd.

Definition upgradeToSecure : act unit :=
  let! c := gets id in
  match socket c with
  | Some s => (this, socket := Some (mkTCPSocket (readyState s) true)) >> emit UpgradeToSecure
  | None => throw
  end.

Definition _actionSTARTTLS (cmd : command) : act unit :=
  if negb (success cmd) then fail_with NS_ERROR_SMTP_SERVER_ERROR cmd
  else
    upgradeToSecure >> (this, _secureTransport := true) >>
    set_action AEHLO >> _sendCommand (js "EHLO " ++ _getHelloArgument).

Definition _actionHELO (cmd : command) : act unit :=
  if negb (success cmd) then fail_with NS_ERROR_SMTP_SERVER_ERROR cmd else authenticateUser.

Definition _actionCLIENTID (cmd : command) : act unit :=
  if negb (success cmd) then fail_with NS_ERROR_SMTP_SERVER_ERROR cmd else authenticateUser.

Definition _actionAUTH_LOGIN_USER (cmd : command) : act unit :=
  if negb (is_status cmd 334) || negb (data cmd ==s js "VXNlcm5hbWU6")
  then fail_with NS_ERROR_SMTP_AUTH_FAILURE cmd
  else
    set_action AAUTH_LOGIN_PASS >>
    (let! c := gets id in
     let! u := btoa_or_throw (username (_authenticator c)) in _sendCommand u).

(** [/^[\x00-\xFF]+$/.test(password)]. *)
Definition is_latin1 (s : jsstr) : bool := str_truthy s && forallb (λ c, c <? 256) s.

Definition _actionAUTH_LOGIN_PASS (cmd : command) : act unit :=
  if negb (is_status cmd 334)
     || (negb (data cmd ==s btoa (js "Password:")) && negb (data cmd ==s btoa (js "password:")))
  then fail_with NS_ERROR_SMTP_AUTH_FAILURE cmd
  else
    set_action AAUTHComplete >>
    (let! p := _getPassword in
     (* null is converted to a string by test, encode and btoa *)
     let pw := default (js "null") p in
     let pw := if negb (pref_login_latin1 ev) || negb (is_latin1 pw) then utf8 ev pw else pw in
     let! b := btoa_or_throw pw in _sendCommand b).

Definition _actionAUTH_CRAM (cmd : command) : act unit :=
  async
    (if negb (is_status cmd 334) then fail_with NS_ERROR_SMTP_AUTH_FAILURE cmd
     else
       set_action AAUTHComplete >>
       (let! p := _getPassword in
        let! t := auth_call (getCramMd5Token p (data cmd)) in _sendCommand t)).

Definition _actionAUTH_XOAUTH2 (cmd : command) : act unit :=
  if negb (success cmd) then _sendCommand [] >> set_action AAUTHComplete
  else _actionAUTHComplete (success cmd).

Definition _actionAUTH_GSSAPI (cmd : command) : act unit :=
  if success cmd then _actionAUTHComplete (success cmd)
  else if negb (is_status cmd 334) then fail_with NS_ERROR_SMTP_AUTH_GSSAPI cmd
  else
    let! t := catch (bind (auth_call (getNextGssapiToken (data cmd))) (λ t, ret (Some t)))
                (ret None) in
    match t with
    | Some t => set_action AAUTH_GSSAPI >> _sendCommand t
    | None => _actionAUTHComplete false
    end.

Definition _actionAUTH_NTLM (cmd : command) : act unit :=
  if success cmd then _actionAUTHComplete (success cmd)
  else if negb (is_status cmd 334) then fail_with NS_ERROR_SMTP_AUTH_FAILURE cmd
  else
    let! t := auth_call (getNextNtlmToken (data cmd)) in
    set_action AAUTH_NTLM >> _sendCommand t.

(** ** Replies: the message *)

Definition _actionIdle (cmd : command) : act unit := fail_with NS_ERROR_SMTP_SERVER_ERROR cmd.

Definition _getRCPTParameters (c : SmtpClient A) : jsstr :=
  if list_has (_capabilities c) (js "DSN") && requestDSN (_envelope c) then
    let notify :=
      if pref_dsn_request_never_on ev then [js "NEVER"]
      else (if pref_dsn_request_on_success_on ev then [js "SUCCESS"] else [])
           ++ (if pref_dsn_request_on_failure_on ev then [js "FAILURE"] else [])
           ++ (if pref_dsn_request_on_delay_on ev then [js "DELAY"] else []) in
    match notify with [] => [] | _ => js " NOTIFY=" ++ join (js ",") notify end
  else [].

(** Takes the next recipient of the queue and sends its RCPT. *)
Definition next_rcpt : act unit :=
  (this, _envelope ::= λ e,
     e <| curRecipient := default (js "undefined") (head (rcptQueue e)) |>
       <| rcptQueue := tail (rcptQueue e) |>) >>
  set_action ARCPT >>
  (let! c := gets id in
   _sendCommand (js "RCPT TO:<" ++ curRecipient (_envelope c) ++ js ">" ++ _getRCPTParameters c)).

Definition mail_error (cmd : command) : nserror :=
  if is_status cmd 452 || is_status cmd 451 then NS_ERROR_SMTP_TEMP_SIZE_EXCEEDED
  else if is_status cmd 552 then NS_ERROR_SMTP_PERM_SIZE_EXCEEDED_2
  else NS_ERROR_SENDING_FROM_COMMAND.

Definition _actionMAIL (cmd : command) : act unit :=
  if negb (success cmd)
  then _onNsError (mail_error cmd) (Some (data cmd)) None (statusCode cmd)
  else next_rcpt.

Definition _actionRCPT (cmd : command) : act unit :=
  let! c := gets id in
  if negb (success cmd)
  then _onNsError NS_ERROR_SENDING_RCPT_COMMAND (Some (data cmd))
         (Some (curRecipient (_envelope c))) (statusCode cmd)
  else
    (this, rcptCount := rcptCount c + 1) >>
    (this, _envelope ::= λ e, e <| responseQueue := responseQueue e ++ [curRecipient e] |>) >>
    match rcptQueue (_envelope c) with
    | _ :: _ => next_rcpt
    | [] => set_action ADATA >> _sendCommand (js "DATA")
    end.

Definition _actionDATA (cmd : command) : act unit :=
  if negb (is_status cmd 250 || is_status cmd 354)
  then fail_with NS_ERROR_SENDING_DATA_COMMAND cmd
  else
    (this, _dataMode := true) >> set_action AIdle >>
    (let! c := gets id in emit (OnReady (rcptFailed (_envelope c)))).

Definition stream_lmtp (cmd : command) : act bool :=
  let! c := gets id in
  let e := _envelope c in
  let rcpt := default (js "undefined") (head (responseQueue e)) in
  bind (this, _envelope := e <| responseQueue := tail (responseQueue e) |>) (λ _,
  bind (when (negb (success cmd))
          (this, _envelope ::= λ e, e <| rcptFailed := rcptFailed e ++ [rcpt] |>)) (λ _,
  match tail (responseQueue e) with
  | _ :: _ => bind (set_action AStream) (λ _, ret true)
  | [] => bind (set_action AIdle >> emit (OnDone 0)) (λ _, ret false)
  end)).

Definition stream_smtp (cmd : command) : act unit :=
  when (success cmd) (this, isRetry := false) >>
  (this, _numMessages ::= λ n, n + 1) >>
  (let! c := gets id in
   when ((99 <? rcptCount c)
         || ((0 <? _messagesPerConnection c) && (_messagesPerConnection c <=? _numMessages c)))
     (this, reuseConnection := false)) >>
  (let! reuse := gets reuseConnection in
   when reuse ((this, sendIsActive := false) >> (this, _quitTimer := true) >> emit StartQuitTimer)) >>
  set_action AIdle >>
  if success cmd then emit (OnDone 0) else fail_with NS_ERROR_SENDING_MESSAGE cmd.

Definition _actionStream (cmd : command) : act unit :=
  let! o := gets options in
  let! more := if lmtp o then stream_lmtp cmd else bind (stream_smtp cmd) (λ _, ret false) in
  if more : bool then skip else (this, _freed := true) >> emit OnFree.

(** The call of the current action. *)
Definition run_action (a : action) (cmd : command) : act unit :=
  match a with
  | AClose => close true           (* the command is the truthy argument *)
  | AGreeting => _actionGreeting cmd
  | ALHLO => _actionLHLO cmd
  | AEHLO => _actionEHLO cmd
  | ASTARTTLS => _actionSTARTTLS cmd
  | AHELO => _actionHELO cmd
  | ACLIENTID => _actionCLIENTID cmd
  | AAUTH_LOGIN_USER => _actionAUTH_LOGIN_USER cmd
  | AAUTH_LOGIN_PASS => _actionAUTH_LOGIN_PASS cmd
  | AAUTH_CRAM => _actionAUTH_CRAM cmd
  | AAUTH_XOAUTH2 => _actionAUTH_XOAUTH2 cmd
  | AAUTH_GSSAPI => _actionAUTH_GSSAPI cmd
  | AAUTH_NTLM => _actionAUTH_NTLM cmd
  | AAUTHComplete => _actionAUTHComplete (success cmd)
  | AIdle => _actionIdle cmd
  | AMAIL => _actionMAIL cmd
  | ARCPT => _actionRCPT cmd
  | ADATA => _actionDATA cmd
  | AStream => _actionStream cmd
  end.

Definition _onCommand (cmd : command) : act unit :=
  let! a := gets _currentAction in
  if is_status cmd 421 && bool_decide (a = Some AIdle) then close true
  else match a with Some a => run_action a cmd | None => skip end.

(** ** Sending a message *)

(** The scan of an address: the last "@" before the first invalid character,
    and that character's index. *)
Fixpoint scan_recipient (s : jsstr) (i : nat) (lastAt : option nat) : option nat * option nat :=
  match s with
  | [] => (lastAt, None)
  | c :: s' =>
      if c =? 64 then scan_recipient s' (S i) (Some i)
      else if ((c <? 32) || (126 <? c)) && negb (c =? 9) then (lastAt, Some i)
      else scan_recipient s' (S i) lastAt
  end.

(** The recipient to use, [None] when its local part is invalid. *)
Definition check_recipient (recipient : jsstr) : option jsstr :=
  match scan_recipient recipient 0 None with
  | (_, None) => Some recipient
  | (Some (S _ as i), Some _) =>
      Some (take i recipient ++ js "@" ++ convertUTF8toACE ev (drop (S i) recipient))
  | (_, Some _) => None                  (* lastAt is null or 0 *)
  end.

(** The loop on the recipients: those kept, and the invalid one it stops at. *)
Fixpoint check_recipients (l acc : list jsstr) : list jsstr * option jsstr :=
  match l with
  | [] => (acc, None)
  | r :: l' =>
      if negb (str_truthy r) then check_recipients l' acc
      else match check_recipient r with
           | Some r' => check_recipients l' (acc ++ [r'])
           | None => (acc, Some r)
           end
  end.

(** [[...new Set(l)]]. *)
Fixpoint unique (seen l : list jsstr) : list jsstr :=
  match l with
  | [] => []
  | x :: l' => if list_has seen x then unique seen l' else x :: unique (seen ++ [x]) l'
  end.

(** [/^[\x00-\x7F]+$/.test(s)]. *)
Definition is_ascii (s : jsstr) : bool := str_truthy s && forallb (λ c, c <? 128) s.

Definition mail_command (c : SmtpClient A) : jsstr :=
  let caps := _capabilities c in
  let e := _envelope c in
  js "MAIL FROM:<" ++ from e ++ js ">"
  ++ (if list_has caps (js "8BITMIME") && negb (pref_strictly_mime ev)
      then js " BODY=8BITMIME" else [])
  ++ (if list_has caps (js "SMTPUTF8") && existsb (λ x, negb (is_ascii x)) (from e :: to e)
      then js " SMTPUTF8" else [])
  ++ (if list_has caps (js "SIZE") then js " SIZE=" ++ num_str (size e) else [])
  ++ (if list_has caps (js "DSN") && requestDSN e
      then js " RET=" ++ (if pref_dsn_ret_full_on ev then js "FULL" else js "HDRS")
           ++ js " ENVID=" ++ messageId e
      else []).

Definition useEnvelope (e : envelope) : act unit :=
  (let! t := gets _quitTimer in
   when t (emit ClearQuitTimer >> (this, _quitTimer := false))) >>
  (this, _envelope := e <| from := if str_truthy (from e) then from e
                                   else js "anonymous@" ++ _getHelloArgument |>) >>
  (let! c := gets id in
   let checked := if list_has (_capabilities c) (js "SMTPUTF8") then (to e, None)
                  else check_recipients (to e) [] in
   (this, _envelope ::= λ e, e <| to := checked.1 |>) >>
   match checked.2 with
   | Some bad => _onNsError NS_ERROR_ILLEGAL_LOCALPART (Some bad) None None
   | None =>
       (this, _envelope ::= λ e, e <| rcptQueue := unique [] (to e) |>
                                   <| rcptFailed := [] |> <| responseQueue := [] |>) >>
       (let! c := gets id in
        match rcptQueue (_envelope c) with
        | [] => fail NS_MSG_NO_RECIPIENTS
        | _ => set_action AMAIL >> _sendCommand (mail_command c)
        end)
   end).

(** [s.substr(-1)]. *)
Definition last1 (s : jsstr) : jsstr := match last s with Some c => [c] | None => [] end.

(** The chunk with its dots escaped. *)
Definition escape_dots (lastBytes chunk : jsstr) : jsstr :=
  let chunk := replaceAll chunk [LF; DOT] [LF; DOT; DOT] in
  if ((last1 lastBytes ==s [LF]) || negb (str_truthy lastBytes)) && startsWith chunk [DOT]
  then DOT :: chunk else chunk.

(** The bytes kept after a chunk. *)
Definition update_last_bytes (lastBytes chunk : jsstr) : jsstr :=
  if 2 <? slen chunk then slice_from chunk (-2)
  else if slen chunk =? 1 then last1 lastBytes ++ chunk
  else lastBytes.

Definition _sendString (chunk : jsstr) : act bool :=
  let! c := gets id in
  let chunk := if disableEscaping (options c) then chunk
               else escape_dots (_lastDataBytes c) chunk in
  bind (this, _lastDataBytes := update_last_bytes (_lastDataBytes c) chunk) (λ _,
  bind (_send (byteStringToUint8Array chunk)) (λ r,
  bind (this, waitDrain := r) (λ _, ret r))).

Definition send (chunk : jsstr) : act bool :=
  let! d := gets _dataMode in if negb d then ret true else _sendString chunk.

(** The end of the data. *)
Definition data_end (lastBytes : jsstr) : jsstr :=
  if lastBytes ==s CRLF then DOT :: CRLF
  else if last1 lastBytes ==s [CR] then LF :: DOT :: CRLF
  else CRLF ++ DOT :: CRLF.

Definition end_ (chunk : jsstr) : act bool :=
  let! d := gets _dataMode in
  if negb d then ret true
  else
    bind (when (str_truthy chunk) (bind (send chunk) (λ _, skip))) (λ _,
    bind (set_action AStream) (λ _,
    let! c := gets id in
    bind (_send (data_end (_lastDataBytes c))) (λ r,
    bind (this, waitDrain := r) (λ _,
    bind (this, _dataMode := false) (λ _, ret r))))).

(** ** The socket's events *)

Definition _onOpen : act unit :=
  (let! c := gets id in
   match socket c with
   | Some s => this, socket := Some (mkTCPSocket Open (ssl s))
   | None => skip
   end) >>
  set_action AGreeting.

Definition _onDrain : act unit := (this, waitDrain := false) >> emit OnDrain.

(** A socket error has a code, and security information or not; other errors
    have no code. *)
Definition _onError (code : option Z) (secInfo : bool) : act unit :=
  async
    (let! freed := gets _freed in
     if freed then skip
     else
       _free >> quit >>
       match code with
       | Some n => when secInfo (emit CloseCachedConnections) >> emit (OnError (SocketError n) [])
       | None => emit (OnError NS_ERROR_FAILURE [])
       end).

(** The close event of the current socket.  That of a socket which [connect] has
    replaced meanwhile also calls [_onClose]; it is not an input of the model. *)
Definition _onClose : act unit :=
  (let! c := gets id in
   match socket c with
   | Some s => this, socket := Some (mkTCPSocket Closed (ssl s))
   | None => skip
   end) >>
  _free >>
  (let! a := gets _authenticating in when a _onAuthFailed).

(** The callback of the QUIT timer. *)
Definition quitTimerFired : act unit :=
  (let! c := gets id in when (is_open c && negb (sendIsActive c)) quit) >>
  (this, _quitTimer := false).

(** ** The inputs of the client *)

Inductive input :=
  | IConnect                                  (* the caller *)
  | IQuit
  | IClose (immediately : bool)
  | IUseEnvelope (e : envelope)
  | ISend (chunk : jsstr)
  | IEnd (chunk : jsstr)
  | IOpen                                     (* the socket *)
  | IReply (cmd : command)
  | IDrain
  | IError (code : option Z) (secInfo : bool)
  | ISocketClosed
  | IQuitTimer                                (* the timer *)
  | IOAuthToken (token : jsstr).              (* the authenticator *)

Definition handle (i : input) : act unit :=
  match i with
  | IConnect => connect
  | IQuit => quit
  | IClose b => close b
  | IUseEnvelope e => useEnvelope e
  | ISend chunk => bind (send chunk) (λ _, skip)
  | IEnd chunk => bind (end_ chunk) (λ _, skip)
  | IOpen => _onOpen
  | IReply cmd => _onCommand cmd
  | IDrain => _onDrain
  | IError code info => _onError code info
  | ISocketClosed => _onClose
  | IQuitTimer => quitTimerFired
  | IOAuthToken token => oauth_token_arrived token
  end.

(** The data handler: the parser over the replies' handler. *)
Definition _onData (text : jsstr) : eff (Parser * SmtpClient A) event unit :=
  async (_parse _onCommand text).

(** A run: what is thrown by one handler does not reach the next. *)
Definition run (inputs : list input) : act unit := for_each inputs (λ i, async (handle i)).
End Methods.

Lemma run_cons {A} `{Authenticator A} srv ev fuel i is' c :
  run srv ev fuel (i :: is') c
  = let '(c1, o1, _) := handle srv ev fuel i c in
    let '(c2, o2, r) := run srv ev fuel is' c1 in (c2, o1 ++ o2, r).
Proof.
  unfold run. cbn [for_each]. set (rest := for_each is' _). unfold bind, async, catch.
  destruct (handle srv ev fuel i c) as [[c1 o1] [[]|]]; [done|]. cbn.
  by rewrite app_nil_r.
Qed.

Lemma run_app {A} `{Authenticator A} srv ev fuel is1 is2 c :
  run srv ev fuel (is1 ++ is2) c
  = let '(c1, o1, _) := run srv ev fuel is1 c in
    let '(c2, o2, r) := run srv ev fuel is2 c1 in (c2, o1 ++ o2, r).
Proof.
  revert c. induction is1 as [|i is1 IH]; intros c.
  - cbn [app]. change (run srv ev fuel [] c) with (c, [] : list event, Some tt).
    cbn beta iota. by destruct (run srv ev fuel is2 c) as [[? ?] ?].
  - cbn [app]. rewrite !run_cons. destruct (handle srv ev fuel i c) as [[c1 o1] r1].
    rewrite IH. destruct (run srv ev fuel is1 c1) as [[c2 o2] r2].
    destruct (run srv ev fuel is2 c2) as [[c3 o3] r3]. by rewrite (assoc_L (++)).
Qed.

(** ** An instance of the outside, for examples *)

Definition sampleEnv : env :=
  mkEnv false false false false true false true (λ s, s) (λ s, s) None (λ _ _ _, [])
    (λ _, true) (λ _, Closing).

Definition sampleServer (t : nsMsgSocketType) (m : nsMsgAuthMethod) : SmtpServer :=
  mkSmtpServer t m (js "mx.example.org") 0 [] false [] 10.

(** A client in data mode. *)
Definition sampleDataClient : SmtpClient unit :=
  (newSmtpClient (sampleServer plain auth_none) tt)
    <| socket := Some (mkTCPSocket Open false) |> <| _dataMode := true |>
    <| _currentAction := Some AIdle |>.
