(* ===== verification/SmtpWire.v ===== *)
(** * SmtpWire: what the SMTP client puts on the wire for a message

    Theorems on [send] and [end] of SmtpClient.v: the chunks a message is sent
    in are dot-stuffed as the whole text, and the terminator makes the last line
    complete; with LineReader.v, the lines are those of the message. *)

From S2P Require Import Prelude Effects LineReader MimeUtils Net Auth SmtpParser SmtpClient.

(** The reference: a dot is doubled at the beginning of the text and after LF;
    [bol] tells whether the text starts at the beginning of a line. *)
Fixpoint dotstuff (bol : bool) (s : jsstr) : jsstr :=
  match s with
  | [] => []
  | c :: s' =>
      if bol && (c =? DOT) then DOT :: c :: dotstuff (c =? LF) s'
      else c :: dotstuff (c =? LF) s'
  end.

Definition ends_line (bol : bool) (s : jsstr) : bool :=
  match last s with Some c => c =? LF | None => bol end.

(** The last two characters of a text. *)
Definition tail2 (s : jsstr) : jsstr := drop (length s - 2) s.

(** The chunks for which the client keeps track of the last bytes. *)
Definition good_chunk (c : jsstr) : Prop := length c ≠ 2%nat ∧ c ≠ [DOT] ∧ bytes c.

(** ** Stuffing *)

Lemma dotstuff_app b s t : dotstuff b (s ++ t) = dotstuff b s ++ dotstuff (ends_line b s) t.
Proof.
  revert b. induction s as [|c s IH]; intros b; [done|]. cbn [dotstuff app].
  assert (E : ends_line b (c :: s) = ends_line (c =? LF) s).
  { unfold ends_line. destruct s as [|d s]; [done|]. rewrite last_cons_cons.
    destruct (last (d :: s)) eqn:El; [done|]. by apply last_None in El. }
  rewrite E. destruct (b && (c =? DOT)); rewrite IH; done.
Qed.

Lemma last_dotstuff b s : last (dotstuff b s) = last s.
Proof.
  revert b. induction s as [|c s IH]; intros b; [done|]. cbn [dotstuff].
  assert (Hl : last (c :: dotstuff (c =? LF) s) = last (c :: s)).
  { specialize (IH (c =? LF)). destruct s as [|d s]; [done|].
    destruct (dotstuff (c =? LF) (d :: s)) eqn:E; [|exact IH].
    exfalso. cbn [dotstuff] in E. by destruct (_ && _). }
  destruct (b && _); [|exact Hl]. rewrite <- Hl. by destruct (dotstuff _ s).
Qed.

Lemma dotstuff_bytes b s : bytes s → bytes (dotstuff b s).
Proof.
  intros H. revert b. induction H as [|c s Hc _ IH]; intros b; [constructor|]. cbn [dotstuff].
  destruct (b && _); repeat constructor; try lia; try apply IH; unfold DOT; lia.
Qed.

Lemma dotstuff_length b s : (length s ≤ length (dotstuff b s))%nat.
Proof.
  revert b. induction s as [|c s IH]; intros b; [done|]. cbn [dotstuff].
  specialize (IH (c =? LF)). destruct (b && _); simpl; lia.
Qed.

Lemma replace_dotstuff s :
  replaceAll s [LF; DOT] [LF; DOT; DOT] = dotstuff false s.
Proof.
  unfold replaceAll. assert (Hn : (length s ≤ length s)%nat) by lia.
  revert Hn. generalize (length s) at 2 3 as n. intros n. revert s.
  induction n as [|n IH]; intros [|c s] Hn; try done; try (simpl in Hn; lia).
  cbn [replaceAll_fuel]. simpl in Hn. destruct (startsWith (c :: s) [LF; DOT]) eqn:E.
  - apply startsWith_true in E as [r E]. injection E as -> ->. cbn.
    rewrite drop_0, IH; [done|]. simpl in Hn. lia.
  - cbn [dotstuff andb]. rewrite IH by lia. f_equal.
    destruct (Z.eqb_spec c LF) as [->|]; [|done]. destruct s as [|d s]; [done|].
    cbn [dotstuff]. destruct (Z.eqb_spec d DOT) as [->|]; [|done].
    by rewrite (proj2 (startsWith_true _ _)) in E by (by exists s).
Qed.

(** Whether the last bytes kept say that a line begins. *)
Definition line_begins (lastBytes : jsstr) : bool :=
  (last1 lastBytes ==s [LF]) || negb (str_truthy lastBytes).

Lemma escape_dots_spec lastBytes chunk :
  escape_dots lastBytes chunk = dotstuff (line_begins lastBytes) chunk.
Proof.
  unfold escape_dots. rewrite replace_dotstuff. fold (line_begins lastBytes).
  destruct (line_begins lastBytes), chunk as [|c s]; try done; simpl.
  destruct (Z.eqb_spec c DOT) as [->|Hc].
  - by rewrite (proj2 (startsWith_true _ _)) by (by eexists).
  - destruct (startsWith _ _) eqn:E; [|done]. apply startsWith_true in E as [r E].
    by simplify_eq/=.
Qed.

(** ** The last bytes *)

Lemma tail2_last s : last1 (tail2 s) = last1 s ∧ str_truthy (tail2 s) = str_truthy s.
Proof.
  unfold tail2. destruct s as [|a [|b s]]; [done..|].
  assert (E : drop (length (a :: b :: s) - 2) (a :: b :: s)
              = drop (length s) (a :: b :: s)) by (f_equal; simpl; lia).
  rewrite E. clear E. revert a b. induction s as [|c s IH]; intros a b; [done|].
  cbn [length drop]. apply IH.
Qed.

Lemma line_begins_tail2 s : line_begins (tail2 s) = ends_line true s.
Proof.
  destruct (tail2_last s) as [H1 H2]. unfold line_begins. rewrite H1, H2.
  unfold last1, ends_line. destruct s as [|a s]; [done|].
  destruct (last (a :: s)) as [c|] eqn:E.
  - simpl. rewrite orb_false_r. unfold jseq.
    destruct (Z.eqb_spec c LF) as [->|]; [done|]. apply bool_decide_eq_false_2. congruence.
  - by apply last_None in E.
Qed.

Lemma tail2_app_long s t : (2 ≤ length t)%nat → tail2 (s ++ t) = tail2 t.
Proof.
  intros H. unfold tail2. rewrite length_app, drop_app_ge by lia.
  f_equal. lia.
Qed.

Lemma update_last_bytes_spec T chunk :
  length chunk ≠ 2%nat → update_last_bytes (tail2 T) chunk = tail2 (T ++ chunk).
Proof.
  intros H. unfold update_last_bytes, slen.
  destruct (Z.ltb_spec 2 (Z.of_nat (length chunk))) as [Hl|Hl].
  - rewrite tail2_app_long by lia. unfold slice_from, slice, slen, tail2.
    destruct (Z.ltb_spec (-2) 0); [|lia]. destruct (Z.ltb_spec (Z.of_nat (length chunk)) 0); [lia|].
    rewrite Z.min_id, Z.max_r by lia.
    replace (Z.to_nat (Z.of_nat (length chunk) + -2)) with (length chunk - 2)%nat by lia.
    apply take_ge. rewrite length_drop. lia.
  - destruct chunk as [|a [|b [|? ?]]]; simpl in *; try lia; [by rewrite app_nil_r|].
    rewrite (proj1 (tail2_last T)). unfold last1, tail2. rewrite length_app. simpl.
    destruct (last T) as [c|] eqn:E; [|by apply last_None in E as ->].
    apply last_Some in E as [l ->]. rewrite length_app, <- (assoc_L (++)). simpl.
    by rewrite drop_app_length' by lia.
Qed.

(** ** Sending *)

Section Wire.
Context {A : Type} `{Authenticator A}.
Variable srv : SmtpServer.
Variable ev : env.
Variable fuel : nat.

(** The client in data mode on an open socket, after the text [P] was sent. *)
Record in_data (b : bool) (P : jsstr) (c : SmtpClient A) : Prop := {
  data_socket : socket c = Some (mkTCPSocket Open b);
  data_mode : _dataMode c = true;
  data_escape : disableEscaping (options c) = false;
  data_last : _lastDataBytes c = tail2 (dotstuff true P)
}.

Lemma escaped_length bol chunk :
  good_chunk chunk → length (dotstuff bol chunk) ≠ 2%nat.
Proof.
  intros (H1 & H2 & _). destruct chunk as [|x [|y [|z s]]]; cbn [dotstuff]; [done| |done|].
  - destruct (Z.eqb_spec x DOT); [congruence|]. by rewrite andb_false_r.
  - pose proof (dotstuff_length bol (x :: y :: z :: s)) as Hl. cbn [dotstuff length] in Hl. lia.
Qed.

Lemma send_step b P c chunk :
  in_data b P c → good_chunk chunk →
  ∃ c' r, send ev chunk c = (c', [Send b (dotstuff (ends_line true P) chunk)], Some r) ∧
          in_data b (P ++ chunk) c'.
Proof.
  intros [Hs Hm He Hl] Hg. unfold send, _sendString, _send, bind, gets, emit, modify, ret. cbn.
  rewrite Hm. cbn. rewrite He, Hs. cbn. rewrite Hl, escape_dots_spec, line_begins_tail2.
  assert (E : ends_line true (dotstuff true P) = ends_line true P)
    by (unfold ends_line; by rewrite last_dotstuff).
  rewrite E, (MimeUtils.to_uint8_bytes (dotstuff _ _)) by (apply dotstuff_bytes, Hg).
  do 2 eexists. split; [done|]. constructor; cbn; [done..|].
  rewrite update_last_bytes_spec by (by apply escaped_length).
  by rewrite dotstuff_app.
Qed.

Lemma sends_wire b P c chunks :
  in_data b P c → Forall good_chunk chunks →
  ∃ c' ds, run srv ev fuel (map ISend chunks) c = (c', map (Send b) ds, Some tt) ∧
           concat ds = dotstuff (ends_line true P) (concat chunks) ∧
           in_data b (P ++ concat chunks) c'.
Proof.
  intros Hd Hg. revert P c Hd. induction Hg as [|chunk chunks Hg _ IH]; intros P c Hd.
  - exists c, []. rewrite app_nil_r. done.
  - destruct (send_step b P c chunk Hd Hg) as (c1 & r & E1 & Hd1).
    destruct (IH _ _ Hd1) as (c2 & ds & E2 & Hc & Hd2).
    exists c2, (dotstuff (ends_line true P) chunk :: ds). split_and!.
    + cbn [map]. rewrite run_cons. cbn [handle]. unfold bind. rewrite E1. cbn. by rewrite E2.
    + cbn [concat]. rewrite Hc, dotstuff_app. do 2 f_equal.
      unfold ends_line. rewrite last_app. by destruct (last chunk).
    + cbn [concat]. by rewrite (assoc_L (++)).
Qed.

(** The terminator as the text's end requires. *)
Definition terminator (P : jsstr) : jsstr :=
  if endsWith P CRLF then DOT :: CRLF
  else if endsWith P [CR] then LF :: DOT :: CRLF else CRLF ++ DOT :: CRLF.

Lemma end_step b P c :
  in_data b P c →
  ∃ c' r, end_ ev [] c = (c', [Send b (data_end (tail2 (dotstuff true P)))], Some r) ∧
          _dataMode c' = false ∧ _currentAction c' = Some AStream ∧
          _lastDataBytes c' = tail2 (dotstuff true P).
Proof.
  intros [Hs Hm He Hl]. unfold end_, _send, bind, gets, emit, modify, ret, when, skip, ret. cbn.
  rewrite Hm. cbn. rewrite Hs. cbn. rewrite Hl. by do 2 eexists.
Qed.

Lemma dotstuff_crlf P : endsWith (dotstuff true P) CRLF = endsWith P CRLF.
Proof.
  apply eq_bool_prop_intro. split; intros Hp%Is_true_true; apply Is_true_true.
  - apply endsWith_true in Hp as [r Hr]. apply endsWith_true.
    destruct P as [|x P _] using rev_ind; [by destruct r|].
    assert (Hx : x = LF).
    { pose proof (last_dotstuff true (P ++ [x])) as Hl. rewrite Hr in Hl.
      change CRLF with ([CR] ++ [LF]) in Hl. rewrite (assoc_L (++)), !last_snoc in Hl.
      by simplify_eq. }
    subst x. destruct P as [|y P _] using rev_ind.
    { cbn in Hr. destruct r as [|? [|? ?]]; simplify_eq/=. }
    rewrite dotstuff_app in Hr. cbn in Hr. rewrite andb_false_r in Hr.
    change CRLF with ([CR] ++ [LF]) in Hr. rewrite (assoc_L (++)) in Hr.
    apply app_inj_tail in Hr as [Hr _].
    pose proof (last_dotstuff true (P ++ [y])) as Hl. rewrite Hr, !last_snoc in Hl.
    simplify_eq. exists P. by rewrite <- (assoc_L (++)).
  - apply endsWith_true in Hp as [r ->]. rewrite dotstuff_app. cbn.
    rewrite !andb_false_r. apply endsWith_true. by eexists.
Qed.

Lemma tail2_crlf s : (tail2 s ==s CRLF) = endsWith s CRLF.
Proof.
  apply eq_bool_prop_intro. split; intros Hp%Is_true_true; apply Is_true_true.
  - apply jseq_true in Hp. apply endsWith_true. exists (take (length s - 2) s).
    rewrite <- Hp. symmetry. apply take_drop.
  - apply endsWith_true in Hp as [r ->]. apply jseq_true. rewrite tail2_app_long; done.
Qed.

Lemma last1_char s c : (last1 s ==s [c]) = endsWith s [c].
Proof.
  apply eq_bool_prop_intro. split; intros Hp%Is_true_true; apply Is_true_true.
  - apply jseq_true in Hp. unfold last1 in Hp. destruct (last s) eqn:E; [|done].
    apply last_Some in E as [l ->]. apply endsWith_true. exists l. congruence.
  - apply endsWith_true in Hp as [r ->]. apply jseq_true. unfold last1. by rewrite last_snoc.
Qed.

Lemma data_end_spec P : data_end (tail2 (dotstuff true P)) = terminator P.
Proof.
  unfold data_end, terminator. rewrite tail2_crlf, dotstuff_crlf.
  rewrite (proj1 (tail2_last _)), <- last1_char. unfold last1. by rewrite last_dotstuff.
Qed.

Lemma run_message b P c chunks :
  in_data b P c → Forall good_chunk chunks →
  ∃ c' ds, run srv ev fuel (map ISend chunks ++ [IEnd []]) c = (c', map (Send b) ds, Some tt) ∧
           concat ds = dotstuff (ends_line true P) (concat chunks)
                       ++ terminator (P ++ concat chunks) ∧
           _dataMode c' = false ∧ _currentAction c' = Some AStream ∧
           _lastDataBytes c' = tail2 (dotstuff true (P ++ concat chunks)).
Proof.
  intros Hd Hg. destruct (sends_wire b P c chunks Hd Hg) as (c1 & ds & E1 & Hc & Hd1).
  destruct (end_step b _ c1 Hd1) as (c2 & r & E2 & Hm & Ha & Hb).
  exists c2, (ds ++ [terminator (P ++ concat chunks)]). split_and!; [|..|done|done|done].
  - rewrite run_app, E1, run_cons. cbn [handle]. unfold bind. rewrite E2, data_end_spec. cbn -[terminator].
    by rewrite map_app.
  - rewrite concat_app, Hc. cbn -[terminator dotstuff]. by rewrite app_nil_r.
Qed.

(** The last bytes with which the text of a message begins on a line of its own. *)
Lemma fresh_data b c :
  socket c = Some (mkTCPSocket Open b) → _dataMode c = true →
  disableEscaping (options c) = false → _lastDataBytes c = [] ∨ _lastDataBytes c = CRLF →
  ∃ P, in_data b P c ∧ ends_line true P = true.
Proof.
  intros Hs Hm He [Hl|Hl]; [exists []|exists CRLF]; by split.
Qed.

(** A text in lines without line-end characters is stuffed line by line. *)
Definition eol_free (l : jsstr) : Prop := Forall (λ c, c ≠ CR ∧ c ≠ LF) l.

Lemma dotstuff_eol_free b l :
  eol_free l → dotstuff b l = (if b && startsWith l [DOT] then DOT :: l else l).
Proof.
  assert (Hf : ∀ l, eol_free l → dotstuff false l = l).
  { clear. induction 1 as [|c l [_ Hc] Hl IH]; [done|]. cbn [dotstuff andb].
    apply Z.eqb_neq in Hc. by rewrite Hc, IH. }
  intros Hl. destruct b; [|by apply Hf]. destruct Hl as [|c l [_ Hc] Hl]; [done|].
  cbn [dotstuff andb]. apply Z.eqb_neq in Hc. rewrite Hc, Hf by done.
  destruct (Z.eqb_spec c DOT) as [->|Hd].
  - by rewrite (proj2 (startsWith_true _ _)) by (by eexists).
  - destruct (startsWith _ _) eqn:E; [|done]. apply startsWith_true in E as [r E].
    by simplify_eq/=.
Qed.

Lemma dotstuff_lines ls : Forall eol_free ls → dotstuff true (body ls) = body (map stuff ls).
Proof.
  induction 1 as [|l ls Hl _ IH]; [done|].
  change (body (l :: ls)) with ((l ++ CRLF) ++ body ls). rewrite dotstuff_app.
  assert (E : ends_line true (l ++ CRLF) = true).
  { unfold ends_line. change CRLF with ([CR] ++ [LF]). by rewrite (assoc_L (++)), last_snoc. }
  rewrite E, IH, dotstuff_app, dotstuff_eol_free by done.
  change (dotstuff (ends_line true l) CRLF) with
    (if ends_line true l && (CR =? DOT) then DOT :: CR :: [LF] else CR :: [LF]).
  rewrite andb_false_r. cbn [andb map].
  change (body (stuff l :: map stuff ls)) with ((stuff l ++ CRLF) ++ body (map stuff ls)).
  by do 2 f_equal.
Qed.

(** C4. When the last bytes remembered are none or a line end (as for a new
    client, and after a message that ended with a line end), a message in lines
    of bytes, sent on an open socket in any chunks other than a lone dot and
    chunks of exactly two characters, is on the wire as the dot-stuffed encoding
    of its lines, which is what LineReader decodes; the client then waits for the
    reply and remembers a line end, as the next message wants. *)
Theorem message_wire b c chunks ls :
  socket c = Some (mkTCPSocket Open b) → _dataMode c = true →
  disableEscaping (options c) = false → _lastDataBytes c = [] ∨ _lastDataBytes c = CRLF →
  Forall good_chunk chunks → Forall eol_free ls → ls ≠ [] → concat chunks = body ls →
  ∃ c' ds, run srv ev fuel (map ISend chunks ++ [IEnd []]) c = (c', map (Send b) ds, Some tt) ∧
           concat ds = encode ls ∧ _dataMode c' = false ∧ _currentAction c' = Some AStream ∧
           _lastDataBytes c' = CRLF.
Proof.
  intros Hs Hm He Hl Hg Hls Hne Hc.
  destruct (fresh_data b c Hs Hm He Hl) as (P & Hd & HP).
  destruct (run_message b P c chunks Hd Hg) as (c' & ds & E & Hds & Hm' & Ha & Hb).
  exists c', ds. rewrite HP in Hds. rewrite Hc in Hds, Hb. destruct ls as [|l ls _] using rev_ind; [done|].
  split_and!; [done| |done..|].
  - rewrite Hds, dotstuff_lines by done.
    unfold encode, terminator. by rewrite body_snoc, (assoc_L (++)), (assoc_L (++)), endsWith_app.
  - apply jseq_true. rewrite Hb, tail2_crlf, dotstuff_crlf.
    by rewrite body_snoc, (assoc_L (++)), (assoc_L (++)), endsWith_app.
Qed.

(** The last bytes are not forgotten between messages: after a message that did
    not end with a line end, a dot that begins the next message on the same
    connection is sent as it is, and the server takes it away. *)
Theorem next_message_dot_lost b c chunks rest :
  in_data b [] c → Forall good_chunk chunks → ends_line true (concat chunks) = false →
  ∃ c' ds, run srv ev fuel (map ISend chunks ++ [IEnd []]) c = (c', map (Send b) ds, Some tt) ∧
    ∀ c2 : SmtpClient A, socket c2 = Some (mkTCPSocket Open b) → _dataMode c2 = true →
      disableEscaping (options c2) = false → _lastDataBytes c2 = _lastDataBytes c' →
      bytes rest →
      ∃ c3 r, send ev (DOT :: rest) c2 = (c3, [Send b (DOT :: dotstuff false rest)], Some r).
Proof.
  intros Hd Hg Hend.
  destruct (run_message b [] c chunks Hd Hg) as (c' & ds & E & _ & _ & _ & Hb).
  exists c', ds. split; [done|]. intros c2 Hs Hm He Hl Hr.
  assert (Hlb : line_begins (_lastDataBytes c2) = false).
  { rewrite Hl, Hb. cbn [app]. rewrite line_begins_tail2. unfold ends_line.
    rewrite last_dotstuff. exact Hend. }
  unfold send, _sendString, _send, bind, gets, emit, modify, ret. cbn.
  rewrite Hm. cbn. rewrite He, Hs. cbn -[escape_dots]. rewrite escape_dots_spec, Hlb.
  rewrite to_uint8_bytes; [by do 2 eexists|]. apply dotstuff_bytes.
  constructor; [unfold DOT; lia|done].
Qed.

(** A chunk of exactly two characters is forgotten by the bookkeeping of the
    last bytes: after a text that does not end in LF, CRLF sent as a chunk of
    its own leaves the client unaware that a line begins, and a dot that starts
    the next chunk is not escaped; the server sees the end of the message. *)
Theorem two_char_chunk_ends_message b c t rest :
  socket c = Some (mkTCPSocket Open b) → _dataMode c = true →
  disableEscaping (options c) = false → _lastDataBytes c = [] →
  good_chunk t → t ≠ [] → ends_line true t = false → bytes rest →
  ∃ c', run srv ev fuel (map ISend [t; CRLF; DOT :: CRLF ++ rest]) c
        = (c', [Send b (dotstuff true t); Send b CRLF;
                Send b (DOT :: CRLF ++ dotstuff true rest)], Some tt).
Proof.
  intros Hs Hm He Hl Hg Hne Hend Hrest.
  destruct (send_step b [] c t) as (c1 & r1 & E1 & [Hs1 Hm1 He1 Hl1]); [by constructor|done|].
  assert (Hlb : line_begins (_lastDataBytes c1) = false).
  { rewrite Hl1. cbn [app]. rewrite line_begins_tail2. unfold ends_line. rewrite last_dotstuff.
    unfold ends_line in Hend. done. }
  cbn [map]. rewrite run_cons. cbn [handle]. unfold bind at 1. rewrite E1. cbn -[run send dotstuff app].
  assert (E2 : ∃ c2 r2, send ev CRLF c1 = (c2, [Send b CRLF], Some r2) ∧
    socket c2 = socket c1 ∧ _dataMode c2 = true ∧ disableEscaping (options c2) = false ∧
    _lastDataBytes c2 = _lastDataBytes c1).
  { unfold send, _sendString, _send, bind, gets, emit, modify, ret. cbn.
    rewrite Hm1. cbn. rewrite He1, Hs1. cbn. rewrite escape_dots_spec, Hlb.
    do 2 eexists. split; [done|]. by rewrite <- Hs1. }
  destruct E2 as (c2 & r2 & E2 & Hs2 & Hm2 & He2 & Hl2).
  rewrite run_cons. cbn [handle]. unfold bind at 1. rewrite E2. cbn -[run send dotstuff app].
  assert (E3 : ∃ c3 r3, send ev (DOT :: CRLF ++ rest) c2
            = (c3, [Send b (DOT :: CRLF ++ dotstuff true rest)], Some r3)).
  { unfold send, _sendString, _send, bind, gets, emit, modify, ret. cbn.
    rewrite Hm2. cbn. rewrite He2, Hs2, Hs1. cbn -[escape_dots].
    rewrite Hl2, escape_dots_spec, Hlb.
    rewrite to_uint8_bytes; [by do 2 eexists|]. apply dotstuff_bytes.
    do 3 (constructor; [unfold DOT; lia|]). done. }
  destruct E3 as (c3 & r3 & E3).
  rewrite run_cons. cbn [handle]. unfold bind. rewrite E3. by eexists.
Qed.
End Wire.

Ltac good_chunks := repeat constructor; try done; bytes_solve.

Lemma message_wire_witness :
  ∃ c' ds,
    run (sampleServer plain auth_none) sampleEnv 1
      (map ISend [js "Subject: x" ++ CRLF; CRLF ++ js ".dots"; js "x"; js "" ++ [CR]; [LF; DOT; CR; LF]]
       ++ [IEnd []]) sampleDataClient = (c', map (Send false) ds, Some tt) ∧
    concat ds = encode [js "Subject: x"; []; js ".dotsx"; js "."] ∧
    _dataMode c' = false ∧ _currentAction c' = Some AStream ∧ _lastDataBytes c' = CRLF.
Proof.
  apply (message_wire _ sampleEnv 1); try done.
  - by left.
  - good_chunks.
  - apply (bool_decide_unpack _). vm_compute. exact I.
Defined.

Lemma two_char_chunk_ends_message_witness :
  ∃ c', run (sampleServer plain auth_none) sampleEnv 1
      (map ISend [js "end"; CRLF; DOT :: CRLF ++ js "QUIT"]) sampleDataClient
    = (c', [Send false (js "end"); Send false CRLF;
            Send false (DOT :: CRLF ++ js "QUIT")], Some tt).
Proof.
  apply (two_char_chunk_ends_message _ sampleEnv 1 false sampleDataClient (js "end") (js "QUIT"));
    try done; [good_chunks|bytes_solve].
Defined.
