(* ===== verification/SmtpSafety.v ===== *)
(** * SmtpSafety: sequences of commands of the SMTP client

    Theorems on the state machine of SmtpClient.v: the commands of a message
    with its recipients; that nothing but the commands that lead to STARTTLS is
    sent in clear when the server's settings require STARTTLS; and the two ways
    a connection's data outlives it (the capabilities seen before STARTTLS, and
    a late OAuth2 token). *)

From S2P Require Import Prelude Effects MimeUtils Net Auth SmtpParser SmtpClient.

(** What [_sendCommand] puts on the wire. *)
Definition wire_line (ev : env) (str : jsstr) : jsstr :=
  utf8 ev (str ++ if endsWith str CRLF then [] else CRLF).

Section Safety.
Context {A : Type} `{Authenticator A}.
Variable srv : SmtpServer.
Variable ev : env.
Variable fuel : nat.
Abbreviation client := (SmtpClient A).
Abbreviation act := (eff client event).

(** ** Envelope *)

Definition rcpt_command (c : client) (r : jsstr) : jsstr :=
  js "RCPT TO:<" ++ r ++ js ">" ++ _getRCPTParameters ev c.

Lemma sendCommand_open (c : client) b str :
  socket c = Some (mkTCPSocket Open b) →
  _sendCommand ev str c
  = (c <| waitDrain := send_result ev (wire_line ev str) |>, [Send b (wire_line ev str)], Some tt).
Proof.
  intros Hs. unfold _sendCommand. rewrite bind_gets. unfold is_open. rewrite Hs.
  cbn [readyState]. rewrite bool_decide_eq_true_2 by done. cbn [when]. unfold _send.
  rewrite bind_assoc, bind_gets. unfold id. rewrite Hs. cbn [readyState].
  rewrite bool_decide_eq_true_2 by done. done.
Qed.

(** What RCPT does to the state. *)
Record rcpt_sent (c c' : client) (r : jsstr) (q : list jsstr) : Prop := {
  rs_socket : socket c' = socket c;
  rs_action : _currentAction c' = Some ARCPT;
  rs_queue : rcptQueue (_envelope c') = q;
  rs_current : curRecipient (_envelope c') = r;
  rs_responses : responseQueue (_envelope c') = responseQueue (_envelope c);
  rs_count : rcptCount c' = rcptCount c;
  rs_command : ∀ x, rcpt_command c' x = rcpt_command c x
}.

Lemma next_rcpt_open (c : client) b r q :
  socket c = Some (mkTCPSocket Open b) → rcptQueue (_envelope c) = r :: q →
  ∃ c', next_rcpt ev c = (c', [Send b (wire_line ev (rcpt_command c r))], Some tt) ∧
        rcpt_sent c c' r q.
Proof.
  intros Hs Hq. unfold next_rcpt. rewrite bind_modify. unfold set_action.
  rewrite bind_modify, bind_gets, (sendCommand_open _ b) by done. unfold id.
  cbn -[wire_line rcpt_command app]. rewrite Hq. cbn [head default tail].
  eexists. split; [done|]. constructor; cbn; rewrite ?Hq; done.
Qed.

(** The replies to the RCPT commands of the queue [q], a recipient having been
    sent. *)
Lemma rcpt_replies (c : client) b cmds q :
  socket c = Some (mkTCPSocket Open b) → _currentAction c = Some ARCPT →
  rcptQueue (_envelope c) = q → length cmds = S (length q) →
  Forall (λ cmd, success cmd = true) cmds →
  ∃ c', run srv ev fuel (map IReply cmds) c
        = (c', map (λ r, Send b (wire_line ev (rcpt_command c r))) q
               ++ [Send b (wire_line ev (js "DATA"))], Some tt) ∧
        responseQueue (_envelope c') = responseQueue (_envelope c) ++ curRecipient (_envelope c) :: q ∧
        rcptCount c' = rcptCount c + Z.of_nat (S (length q)) ∧ _currentAction c' = Some ADATA.
Proof.
  intros Hs Ha Hq Hl Hok. revert c cmds Hs Ha Hq Hl Hok.
  induction q as [|r q IH]; intros c [|cmd cmds] Hs Ha Hq Hl Hok; try done;
    injection Hl as Hl; apply Forall_cons in Hok as [Hc Hok]; cbn [map]; rewrite run_cons;
    cbn [handle]; unfold _onCommand; rewrite bind_gets, Ha, andb_false_r;
    cbn [run_action]; unfold _actionRCPT; rewrite bind_gets, Hc; cbn [negb];
    rewrite !bind_modify; unfold id; rewrite Hq.
  - destruct cmds; [|done]. unfold set_action.
    rewrite bind_modify, (sendCommand_open _ b) by done.
    eexists. split_and!; [done|done|reflexivity|done].
  - match goal with |- context [next_rcpt ev ?s] =>
      destruct (next_rcpt_open s b r q Hs Hq) as (c1 & -> & [H1 H2 H3 H4 H5 H6 H7]) end.
    destruct (IH c1 cmds) as (c' & E & Hr & Hn & Ha'); [by rewrite H1|done..|].
    rewrite E. exists c'. split_and!; [|rewrite Hr, H5, H4|rewrite Hn, H6|done].
    + rewrite (map_ext _ (λ r, Send b (wire_line ev (rcpt_command c r)))); [done|].
      intros x. by rewrite H7.
    + cbn. by rewrite <- (assoc_L (++)).
    + cbn. lia.
Qed.

Lemma unique_spec seen l :
  NoDup (unique seen l) ∧ ∀ x, x ∈ unique seen l ↔ x ∈ l ∧ x ∉ seen.
Proof.
  revert seen. induction l as [|y l IH]; intros seen; cbn [unique].
  - split; [constructor|]. set_solver.
  - unfold list_has. case_bool_decide as Hy.
    + destruct (IH seen) as [H1 H2]. split; [done|]. intros x. rewrite H2. set_solver.
    + destruct (IH (seen ++ [y])) as [H1 H2]. split.
      * constructor; [|done]. rewrite H2. set_solver.
      * intros x. rewrite elem_of_cons, H2. destruct (decide (x = y)); set_solver.
Qed.

(** The recipients a message goes to. *)
Definition accepted (c : client) (e : envelope) : list jsstr * option jsstr :=
  if list_has (_capabilities c) (js "SMTPUTF8") then (to e, None)
  else check_recipients ev (to e) [].

(** C8. With every reply successful, a message's envelope is sent as MAIL with
    its sender, one RCPT for each distinct accepted recipient, in order, and
    DATA; the recipients are then recorded as accepted and counted. *)
Theorem recipients_flow (c : client) b e tos cmds :
  socket c = Some (mkTCPSocket Open b) → _quitTimer c = false → from e ≠ [] →
  accepted c e = (tos, None) → tos ≠ [] →
  length cmds = S (length (unique [] tos)) → Forall (λ cmd, success cmd = true) cmds →
  ∃ c' params rcpt_params,
    run srv ev fuel (IUseEnvelope e :: map IReply cmds) c
    = (c', Send b (wire_line ev (js "MAIL FROM:<" ++ from e ++ js ">" ++ params))
           :: map (λ r, Send b (wire_line ev (js "RCPT TO:<" ++ r ++ js ">" ++ rcpt_params)))
                (unique [] tos)
           ++ [Send b (wire_line ev (js "DATA"))], Some tt) ∧
    NoDup (unique [] tos) ∧ (∀ x, x ∈ unique [] tos ↔ x ∈ tos) ∧
    responseQueue (_envelope c') = unique [] tos ∧
    rcptCount c' = rcptCount c + Z.of_nat (length (unique [] tos)) ∧
    _currentAction c' = Some ADATA.
Proof.
  intros Hs Ht Hf Ha Hne Hl Hok. destruct (unique_spec [] tos) as [Hnd Hel].
  destruct (unique [] tos) as [|r q] eqn:Eq.
  { destruct tos as [|x tos]; [done|]. destruct (proj2 (Hel x)); set_solver. }
  destruct cmds as [|cmd cmds]; [done|]. injection Hl as Hl.
  apply Forall_cons in Hok as [Hc Hok].
  rewrite run_cons. cbn [handle]. unfold useEnvelope.
  rewrite bind_assoc, bind_gets, Ht. cbn [when]. unfold skip. rewrite bind_ret_l, bind_modify.
  destruct (from e) as [|f0 f] eqn:Ef; [done|]. cbn [str_truthy]. rewrite bind_gets. unfold id.
  change (if list_has _ _ then _ else _) with (accepted c e). rewrite Ha. cbn [fst snd].
  rewrite !bind_modify, bind_gets. cbn [fst snd]. 
  match goal with |- context [match rcptQueue (_envelope ?s) with _ => _ end] => set (c1 := s) end.
  assert (Hq : rcptQueue (_envelope c1) = r :: q) by (subst c1; cbn; exact Eq).
  rewrite Hq. unfold set_action. rewrite bind_modify, (sendCommand_open _ b) by done.
  match goal with |- context [run srv ev fuel (map IReply (cmd :: cmds)) ?s] => set (c2 := s) end.
  cbn [map]. rewrite run_cons. cbn [handle]. unfold _onCommand. rewrite bind_gets.
  change (_currentAction c2) with (Some AMAIL). rewrite andb_false_r.
  cbn [run_action]. unfold _actionMAIL. rewrite Hc. cbn [negb].
  destruct (next_rcpt_open c2 b r q Hs Hq) as (c3 & -> & [H1 H2 H3 H4 H5 H6 H7]).
  destruct (rcpt_replies c3 b cmds q) as (c4 & -> & Hr & Hn & Ha'); [by rewrite H1|done..|].
  exists c4. eexists _, (_getRCPTParameters ev c2).
  split_and!; [|done| |by rewrite Hr, H5, H4|by rewrite Hn, H6|done].
  - rewrite (map_ext _ (λ r, Send b (wire_line ev (rcpt_command c2 r)))); [done|].
    intros x. by rewrite H7.
  - intros x. rewrite Hel. set_solver.
Qed.

(** ** Nothing in clear when STARTTLS is required *)

(** The connection is open and not secure. *)
Definition cleartext (c : client) : Prop := socket c = Some (mkTCPSocket Open false).
#[local] Instance cleartext_dec (c : client) : Decision (cleartext c).
Proof.
  unfold cleartext. destruct (socket c) as [[r b]|]; [|by right].
  destruct (decide (r = Open)) as [->|]; [destruct b; [by right|by left]|right; congruence].
Defined.

(** The actions that lead to STARTTLS, or close. *)
Definition early (a : option action) : Prop :=
  a ∈ [None; Some AClose; Some AGreeting; Some ALHLO; Some AEHLO; Some ASTARTTLS].

(** What is sent in clear: the greetings, STARTTLS and QUIT. *)
Definition early_command (str : jsstr) : Prop :=
  str ∈ [js "STARTTLS"; js "QUIT"; js "EHLO " ++ _getHelloArgument srv ev;
         js "LHLO " ++ _getHelloArgument srv ev].

Definition clear_ok (e : event) : Prop :=
  match e with
  | Send false d => ∃ str, early_command str ∧ d = wire_line ev str
  | _ => True
  end.

(** STARTTLS is required, and the client knows whether its socket is secure. *)
Definition base (o : options_t) (s : option TCPSocket) (sec : bool) : Prop :=
  alwaysSTARTTLS o = true ∧ requireTLS o = false ∧
  (sec = true → ∀ s0, s = Some s0 → ssl s0 = true).

(** [J]: the connection is not in clear.  [I]: when it is, the action is an
    early one. *)
Definition J (c : client) : Prop :=
  base (options c) (socket c) (_secureTransport c) ∧ ¬ cleartext c.
Definition I (c : client) : Prop :=
  base (options c) (socket c) (_secureTransport c) ∧ (cleartext c → early (_currentAction c)).

Lemma J_I c : J c → I c.
Proof. intros [H1 H2]. by split. Qed.

Lemma I_not_cleartext c : I c → ¬ cleartext c → J c.
Proof. intros [H1 _] H2. by split. Qed.

(** The documented behaviour of close: the socket is no longer open. *)
Hypothesis closing_not_open : ∀ b, closing ev b ≠ Open.

Ltac jkeep := apply safe_modify; intros s Hs; exact Hs.

Lemma J_send d : safe_from J clear_ok (_send ev d : act bool).
Proof.
  apply safe_bind_gets. intros c HJ. unfold id.
  destruct (socket c) as [[r b]|] eqn:Es; [|by apply (safe_throw J)]. cbn [readyState].
  case_bool_decide as Hr; [|by apply (safe_throw J)]. subst r. rewrite bind_emit. cbn.
  split; [done|]. apply Forall_singleton. destruct b; [done|]. by destruct HJ.
Qed.

Lemma J_sendCommand str : safe_from J clear_ok (_sendCommand ev str : act unit).
Proof.
  apply safe_bind; [apply safe_gets|]. intros b. apply safe_when. intros _.
  apply safe_bind; [apply J_send|]. intros r. jkeep.
Qed.

Lemma base_not_open o s s' sec :
  base o (Some s) sec → ssl s' = ssl s → base o (Some s') sec.
Proof.
  intros (H1 & H2 & H3) Hs. split_and!; [done..|]. intros Hsec s0 [= <-]. rewrite Hs. by apply H3.
Qed.

Lemma free_safe (P : client → Prop) :
  (∀ c, P c → P (c <| _freed := true |>)) → safe_from P clear_ok (_free : act unit).
Proof.
  intros HP. apply safe_bind; [apply safe_gets|]. intros b. apply safe_when. intros _.
  apply safe_bind; [by apply safe_modify|]. intros _. by apply safe_emit.
Qed.

(** Closing leaves the connection not in clear. *)
Lemma close_I b : safe_to I clear_ok J (close ev b : act unit).
Proof.
  apply safe_to_bind_gets. intros c [Hb Hc]. unfold id.
  destruct (socket c) as [[r sec]|] eqn:Es; [cbn [readyState]; case_bool_decide as Hr|].
  - intros c' [_ ->]. rewrite bind_modify, emit_run. split; [|by apply Forall_singleton; destruct b].
    split; [rewrite ?Es in Hb; by eapply base_not_open|].
    unfold cleartext. cbn. intros [= Hcl _]. by eapply closing_not_open.
  - intros c' [Hc' ->]. apply (free_safe J); [done|]. split; [by rewrite Es|].
    unfold cleartext. rewrite Es. congruence.
  - intros c' [Hc' ->]. apply (free_safe J); [done|]. split; [by rewrite Es|].
    unfold cleartext. by rewrite Es.
Qed.

Lemma close_J b : safe_from J clear_ok (close ev b : act unit).
Proof. eapply safe_to_weaken; [apply J_I|done|apply close_I]. Qed.

Lemma connect_safe (P : client → Prop) :
  (∀ c, P c → I c) → (∀ c, J c → P c) →
  (∀ c f m, P c → P (c <| _freed := f |> <| _messagesPerConnection := m |>)) →
  safe_from P clear_ok (connect srv : act unit).
Proof.
  intros HI HJ HP c Hc. unfold connect. rewrite bind_gets. unfold id.
  destruct (is_open c).
  - unfold bind, emit, modify. split; [by apply HP|by repeat constructor].
  - unfold bind, emit, modify. split; [|by repeat constructor]. apply HJ.
    destruct (HI c Hc) as [(H1 & H2 & _) _]. split; [|by unfold cleartext; cbn].
    split_and!; [done..|]. cbn. rewrite H2. done.
Qed.

Lemma connect_J : safe_from J clear_ok (connect srv : act unit).
Proof. by apply connect_safe; [apply J_I|..]. Qed.

Lemma connect_I : safe_from I clear_ok (connect srv : act unit).
Proof. by apply connect_safe; [|apply J_I|]. Qed.

Lemma free_J : safe_from J clear_ok (_free : act unit).
Proof. by apply free_safe. Qed.

Lemma auth_call_J {X} (f : A → A * option X) : safe_from J clear_ok (auth_call f : act X).
Proof. intros c Hc. unfold auth_call. by destruct (f (_authenticator c)) as [a r]. Qed.

(** Proves that a method preserves [J], with the lemmas [tac] applies. *)
Ltac jsafe_with tac :=
  safe_walk ltac:(first [ tac | apply J_sendCommand | apply close_J | apply connect_J
                        | apply free_J | apply auth_call_J ]).
Ltac jsafe := jsafe_with fail.

Lemma quit_J : safe_from J clear_ok (quit ev : act unit).
Proof. unfold quit, set_action. jsafe. Qed.

Lemma onNsError_J e p x n : safe_from J clear_ok (_onNsError srv ev e p x n : act unit).
Proof.
  apply safe_bind; [apply safe_gets|]. intros c. js_case.
  - jsafe_with ltac:(apply quit_J).
  - unfold report_error. jsafe.
Qed.

Lemma authenticateUser_J n : safe_from J clear_ok (_authenticateUser srv ev n : act unit).
Proof.
  induction n as [|n IH]; cbn [_authenticateUser]; [by apply safe_emit|].
  assert (Hf : safe_from J clear_ok (onAuthFailed_with srv ev (_authenticateUser srv ev n))).
  { unfold onAuthFailed_with, fail, fail_with. jsafe_with ltac:(first [exact IH | apply onNsError_J]). }
  unfold start_method, actionAUTHComplete_with, set_action. jsafe_with ltac:(exact Hf).
Qed.

Lemma onAuthFailed_J : safe_from J clear_ok (_onAuthFailed srv ev fuel : act unit).
Proof.
  unfold _onAuthFailed, onAuthFailed_with, fail.
  jsafe_with ltac:(first [apply authenticateUser_J | apply onNsError_J]).
Qed.

Lemma ehlo_line_J l : safe_from J clear_ok (ehlo_line l : act unit).
Proof. unfold ehlo_line. jsafe. Qed.

Lemma upgradeToSecure_safe : safe_to I clear_ok (λ c, J c ∧ ∀ s, socket c = Some s → ssl s = true)
  (upgradeToSecure : act unit).
Proof.
  apply safe_to_bind_gets. intros c [Hb Hc] c' [_ ->]. unfold id.
  destruct (socket c) as [s|] eqn:Es.
  - rewrite bind_modify, emit_run. destruct Hb as (H1 & H2 & H3).
    split; [|by repeat constructor]. split; [|by intros ? [= <-]].
    split; [|by unfold cleartext]. split_and!; [done..|]. by intros _ ? [= <-].
  - cbn. split; [|done]. split; [|by rewrite Es]. split; [by rewrite Es|].
    unfold cleartext. by rewrite Es.
Qed.

(** *** The early actions, from [I] *)

Lemma I_sendCommand str :
  early_command str → safe_from I clear_ok (_sendCommand ev str : act unit).
Proof.
  intros He c Hc. unfold _sendCommand. rewrite bind_gets. unfold is_open.
  destruct (socket c) as [[r b]|] eqn:Es; [cbn [readyState]; case_bool_decide as Hr|]; [|by split..].
  subst r. pose proof (sendCommand_open c b str Es) as Hrun. unfold _sendCommand in Hrun.
  rewrite bind_gets in Hrun. unfold is_open in Hrun. rewrite Es in Hrun. cbn [readyState] in Hrun.
  rewrite bool_decide_eq_true_2 in Hrun by done. rewrite Hrun.
  split; [exact Hc|]. apply Forall_singleton. destruct b; [done|]. by exists str.
Qed.

Lemma set_early a : early (Some a) → safe_from I clear_ok (set_action a : act unit).
Proof. intros Ha. apply safe_modify. intros c [Hb _]. by split. Qed.

Lemma I_modify (f : client → client) :
  (∀ c, options (f c) = options c ∧ socket (f c) = socket c ∧
        _secureTransport (f c) = _secureTransport c ∧ _currentAction (f c) = _currentAction c) →
  safe_from I clear_ok (modify f).
Proof.
  intros Hf. apply safe_modify. intros c [Hb Hc]. destruct (Hf c) as (H1 & H2 & H3 & H4).
  unfold I, cleartext. by rewrite H1, H2, H3, H4.
Qed.

Lemma quit_I : safe_from I clear_ok (quit ev : act unit).
Proof.
  unfold quit. apply safe_bind; [by apply I_modify|]. intros _.
  apply safe_bind; [apply I_sendCommand; unfold early_command; set_solver|]. intros _.
  apply set_early. unfold early. set_solver.
Qed.

Lemma onNsError_I e p x n : safe_to I clear_ok I (_onNsError srv ev e p x n : act unit).
Proof.
  apply safe_to_bind_gets. intros c _. eapply safe_to_weaken; [by intros ? [? _]|done|]. js_case.
  - apply safe_bind; [apply quit_I|]. intros _. apply safe_bind; [by apply I_modify|]. intros _.
    apply safe_bind; [|intros _; apply connect_I].
    eapply safe_to_weaken; [done|apply J_I|apply close_I].
  - apply safe_bind; [by apply safe_emit|]. intros _.
    eapply safe_to_weaken; [done|apply J_I|apply close_I].
Qed.

Lemma upgradeToSecure_J : safe_from J clear_ok (upgradeToSecure : act unit).
Proof.
  eapply safe_to_weaken; [apply J_I| |apply upgradeToSecure_safe]. by intros c [? _].
Qed.

Lemma starttls_rest_J str :
  safe_to (λ c, J c ∧ ∀ s, socket c = Some s → ssl s = true) clear_ok J
    ((this, _secureTransport := true) >> set_action AEHLO >> _sendCommand ev str : act unit).
Proof.
  eapply safe_to_bind_modify with (R := J).
  - intros c [[(H1 & H2 & H3) Hc] Hs]. split; [|exact Hc]. by split_and!.
  - unfold set_action. jsafe.
Qed.

Lemma actionSTARTTLS_J cmd : safe_from J clear_ok (_actionSTARTTLS srv ev cmd : act unit).
Proof.
  unfold _actionSTARTTLS. destruct (negb (success cmd)); [apply onNsError_J|].
  eapply safe_to_bind.
  - eapply safe_to_weaken; [apply J_I|intros c Hc; exact Hc|apply upgradeToSecure_safe].
  - by intros c [? _].
  - intros _. apply starttls_rest_J.
Qed.

Lemma actionSTARTTLS_I cmd : safe_to I clear_ok I (_actionSTARTTLS srv ev cmd : act unit).
Proof.
  unfold _actionSTARTTLS. destruct (negb (success cmd)).
  - apply onNsError_I.
  - eapply safe_to_weaken; [done|apply J_I|].
    eapply safe_to_bind; [apply upgradeToSecure_safe|by intros c [? _]|].
    intros _. apply starttls_rest_J.
Qed.

Ltac handler_J := jsafe_with ltac:(first
  [ apply onNsError_J | apply onAuthFailed_J | apply authenticateUser_J | apply ehlo_line_J
  | apply quit_J ]).

Lemma getPassword_J : safe_from J clear_ok (_getPassword ev : act (option jsstr)).
Proof. unfold _getPassword. handler_J. Qed.

Lemma authComplete_J ok : safe_from J clear_ok (_actionAUTHComplete srv ev fuel ok : act unit).
Proof. unfold _actionAUTHComplete, actionAUTHComplete_with, set_action. handler_J. Qed.

Lemma actionEHLO_J cmd : safe_from J clear_ok (_actionEHLO srv ev fuel cmd : act unit).
Proof. unfold _actionEHLO, fail, fail_with, set_action, authenticateUser. handler_J. Qed.

Lemma auth_actions_J a cmd :
  a ∈ [AHELO; ACLIENTID; AAUTH_LOGIN_USER; AAUTH_LOGIN_PASS; AAUTH_CRAM; AAUTH_XOAUTH2;
       AAUTH_GSSAPI; AAUTH_NTLM; AAUTHComplete] →
  safe_from J clear_ok (run_action srv ev fuel a cmd : act unit).
Proof.
  rewrite !elem_of_cons.
  intros Ha. repeat destruct Ha as [->|Ha]; [..|by apply elem_of_nil in Ha]; cbn [run_action];
    unfold _actionHELO, _actionCLIENTID, _actionAUTH_LOGIN_USER, _actionAUTH_LOGIN_PASS,
      _actionAUTH_CRAM, _actionAUTH_XOAUTH2, _actionAUTH_GSSAPI, _actionAUTH_NTLM,
      fail_with, set_action, authenticateUser, btoa_or_throw;
    jsafe_with ltac:(first [ apply authComplete_J | apply onNsError_J | apply authenticateUser_J
                           | apply getPassword_J ]).
Qed.

Lemma message_actions_J a cmd :
  a ∈ [AClose; AGreeting; AIdle; AMAIL; ARCPT; ADATA; AStream] →
  safe_from J clear_ok (run_action srv ev fuel a cmd : act unit).
Proof.
  rewrite !elem_of_cons.
  intros Ha. repeat destruct Ha as [->|Ha]; [..|by apply elem_of_nil in Ha]; cbn [run_action];
    unfold _actionGreeting, _actionIdle, _actionMAIL, _actionRCPT, _actionDATA, _actionStream,
      stream_lmtp, stream_smtp, next_rcpt, fail_with, set_action; handler_J.
Qed.

Lemma run_action_J a cmd : safe_from J clear_ok (run_action srv ev fuel a cmd : act unit).
Proof.
  destruct a;
    try (apply auth_actions_J; rewrite !elem_of_cons; tauto);
    try (apply message_actions_J; rewrite !elem_of_cons; tauto); cbn [run_action].
  - unfold _actionLHLO, fail_with. jsafe_with ltac:(first [apply onNsError_J | apply actionEHLO_J]).
  - apply actionEHLO_J.
  - apply actionSTARTTLS_J.
Qed.

Lemma actionGreeting_I cmd : safe_to I clear_ok I (_actionGreeting srv ev cmd : act unit).
Proof.
  unfold _actionGreeting. destruct (negb _); [apply onNsError_I|].
  apply safe_bind; [apply safe_gets|]. intros o.
  destruct (lmtp o); (apply safe_bind; [apply set_early; unfold early; set_solver|]);
    intros _; apply I_sendCommand; unfold early_command; set_solver.
Qed.

(** The reply to EHLO in clear leads to STARTTLS or to an error. *)
Definition K (c : client) : Prop :=
  base (options c) (socket c) (_secureTransport c) ∧ cleartext c ∧ early (_currentAction c).

Lemma K_I c : K c → I c.
Proof. intros (H1 & H2 & H3). by split. Qed.

Lemma K_insecure c : K c → _secureTransport c = false ∧ alwaysSTARTTLS (options c) = true.
Proof.
  intros ((H1 & _ & H3) & H2 & _). split; [|done].
  destruct (_secureTransport c); [|done]. specialize (H3 eq_refl _ H2). done.
Qed.

Lemma actionEHLO_K cmd : safe_to K clear_ok I (_actionEHLO srv ev fuel cmd : act unit).
Proof.
  apply safe_to_bind_gets. intros c0 Hc0. destruct (K_insecure c0 Hc0) as [_ Ho].
  eapply safe_to_weaken with (P := K); [by intros c [? _]|done|].
  rewrite Ho. cbn [andb]. js_case; try (eapply safe_to_weaken; [apply K_I|done|apply onNsError_I]).
  eapply safe_to_bind_modify with (R := K); [done|].
  eapply safe_to_bind with (R := K); [|apply K_I|].
  { apply safe_for_each. intros l _. unfold ehlo_line. js_case; by apply safe_modify. }
  intros _. apply safe_to_bind_gets. intros c1 Hc1. destruct (K_insecure c1 Hc1) as [Hs _].
  unfold id. rewrite Hs. cbn [negb andb].
  eapply safe_to_weaken with (P := I); [by intros c [? _]; apply K_I|done|]. js_case.
  - apply safe_bind; [apply set_early; unfold early; set_solver|]. intros _.
    apply I_sendCommand; unfold early_command; set_solver.
  - apply onNsError_I.
Qed.

Lemma run_action_K a cmd :
  early (Some a) → safe_to K clear_ok I (run_action srv ev fuel a cmd : act unit).
Proof.
  unfold early. rewrite !elem_of_cons. intros Ha.
  repeat destruct Ha as [[= ->]|Ha]; [..|by apply elem_of_nil in Ha]; cbn [run_action].
  - eapply safe_to_weaken; [apply K_I|apply J_I|apply close_I].
  - eapply safe_to_weaken; [apply K_I|done|apply actionGreeting_I].
  - unfold _actionLHLO. destruct (negb (success cmd)); [|apply actionEHLO_K].
    eapply safe_to_weaken; [apply K_I|done|apply onNsError_I].
  - apply actionEHLO_K.
  - eapply safe_to_weaken; [apply K_I|done|apply actionSTARTTLS_I].
Qed.

Lemma onCommand_I cmd : safe_to I clear_ok I (_onCommand srv ev fuel cmd : act unit).
Proof.
  apply safe_to_bind_gets. intros c0 Hc0. destruct (_ && _).
  { eapply safe_to_weaken with (P := I); [by intros c [? _]|apply J_I|apply close_I]. }
  destruct (_currentAction c0) as [a|] eqn:Ea; [|by intros c [Hc _]].
  destruct (decide (cleartext c0)) as [Hcl|Hcl].
  - eapply safe_to_weaken with (P := K); [|done|apply run_action_K].
    + intros c [Hc ->]. destruct Hc as [Hb Hc]. split_and!; [done..|by apply Hc].
    + rewrite <- Ea. by apply Hc0.
  - eapply safe_to_weaken with (P := J); [|apply J_I|apply run_action_J].
    intros c [Hc ->]. by apply I_not_cleartext.
Qed.

(** ** The inputs *)

(** The inputs that make sense before the caller was told that the connection
    is ready. *)
Definition login_input (i : input) : bool :=
  match i with IUseEnvelope _ | ISend _ | IEnd _ | IOAuthToken _ => false | _ => true end.

Lemma handle_J i :
  login_input i = false → safe_from J clear_ok (handle srv ev fuel i : act unit).
Proof.
  destruct i; intros Hi; try discriminate; cbn [handle];
    unfold useEnvelope, send, end_, _sendString, oauth_token_arrived, fail, set_action;
    jsafe_with ltac:(first [ apply onNsError_J | apply J_send ]).
Qed.

Lemma handle_I i :
  login_input i = true → safe_to I clear_ok I (handle srv ev fuel i : act unit).
Proof.
  destruct i; intros Hi; try discriminate; cbn [handle].
  - apply connect_I.
  - apply quit_I.
  - eapply safe_to_weaken; [done|apply J_I|apply close_I].
  - (* _onOpen *)
    intros c [(H1 & H2 & H3) Hc]. unfold _onOpen, set_action. rewrite bind_assoc, bind_gets. unfold id.
    destruct (socket c) as [s|] eqn:Es; cbn; (split; [split; [split_and!; cbn|]|]); try done.
    + intros Hs s0 [= <-]. cbn. by apply H3.
    + intros _. unfold early. set_solver.
    + by rewrite Es.
    + intros _. unfold early. set_solver.
  - apply onCommand_I.
  - unfold _onDrain. apply safe_bind; [by apply I_modify|]. intros _. by apply safe_emit.
  - unfold _onError. apply safe_async. apply safe_bind; [apply safe_gets|]. intros [|]; [apply safe_skip|].
    apply safe_bind; [by apply free_safe|]. intros _. apply safe_bind; [apply quit_I|]. intros _.
    destruct code; [apply safe_bind; [apply safe_when; intros _|intros _]|]; by apply safe_emit.
  - (* _onClose *)
    intros c [(H1 & H2 & H3) Hc]. unfold _onClose. rewrite bind_assoc, bind_gets. unfold id.
    assert (Hrest : safe_to J clear_ok I
      (_free >> (let! a := gets _authenticating in when a (_onAuthFailed srv ev fuel)) : act unit)).
    { eapply safe_to_weaken; [done|apply J_I|]. jsafe_with ltac:(apply onAuthFailed_J). }
    destruct (socket c) as [s|] eqn:Es.
    + rewrite bind_modify. apply Hrest. split; [|by unfold cleartext].
      split_and!; [done..|]. cbn. intros Hs s0 [= <-]. cbn. by apply H3.
    + unfold skip. rewrite bind_ret_l. apply Hrest. split; [split_and!; try done; by rewrite Es|].
      unfold cleartext. by rewrite Es.
  - unfold quitTimerFired. apply safe_bind; [|intros _; by apply I_modify].
    apply safe_bind; [apply safe_gets|]. intros c. apply safe_when. intros _. apply quit_I.
Qed.

(** A run in which the caller sends mail, and the token of the authenticator
    arrives, only on connections that are not in clear. *)
Inductive session : client → list event → client → Prop :=
  | session_nil c : session c [] c
  | session_step c o c1 i c2 o2 r :
      session c o c1 → (cleartext c1 → login_input i = true) →
      handle srv ev fuel i c1 = (c2, o2, r) → session c (o ++ o2) c2.

Lemma session_I c o c' : session c o c' → I c → I c' ∧ Forall clear_ok o.
Proof.
  intros Hs HI. induction Hs as [c|c o c1 i c2 o2 r _ IH Hi Hh]; [done|].
  destruct (IH HI) as [H1 H2].
  assert (Hc2 : I c2 ∧ Forall clear_ok o2).
  { destruct (login_input i) eqn:El.
    - pose proof (handle_I i El c1 H1) as Hi'. by rewrite Hh in Hi'.
    - assert (Hc : ¬ cleartext c1) by (intros Hc; by specialize (Hi Hc)).
      pose proof (handle_J i El c1 (I_not_cleartext _ H1 Hc)) as Hi'. rewrite Hh in Hi'.
      by destruct Hi' as [?%J_I ?]. }
  destruct Hc2. split; [done|]. by apply Forall_app.
Qed.

(** C1. When the server's settings require STARTTLS, whatever the server
    replies and however connections are lost and made again, what the client
    sends on a connection that is not secure is only the greeting, STARTTLS and
    QUIT: no credential and no mail. *)
Theorem nothing_in_clear auth o c :
  socketType srv = alwaysSTARTTLS_ ∨ socketType srv = trySTARTTLS →
  session (newSmtpClient srv auth) o c → Forall clear_ok o.
Proof.
  intros Ht Hs. apply (session_I _ _ _ Hs). split; [|done].
  unfold newSmtpClient. cbn. split_and!; [|by destruct Ht as [-> | ->]|done].
  by destruct Ht as [-> | ->].
Qed.
End Safety.

Section Capabilities.
Context {A : Type} `{Authenticator A}.
Variable srv : SmtpServer.
Variable ev : env.
Variable fuel : nat.

(** The server is taken to have the capability. *)
Definition announced (x : jsstr) (c : SmtpClient A) : Prop := x ∈ _capabilities c.

Abbreviation has x := (announced x).
Abbreviation any := (λ _ : event, True).

Lemma auth_call_caps {X} x (f : A → A * option X) : safe_from (has x) any (auth_call f).
Proof.
  intros c Hc. unfold auth_call. destruct (f (_authenticator c)) as [a r].
  split; [exact Hc|constructor].
Qed.

Lemma authenticateUser_caps x n :
  safe_from (has x) any (_authenticateUser srv ev n).
Proof.
  induction n as [|n IH]; cbn [_authenticateUser]; [by apply safe_emit|].
  assert (Hf : safe_from (has x) any (onAuthFailed_with srv ev (_authenticateUser srv ev n))).
  { unfold onAuthFailed_with. safe_unfold ltac:(first [exact IH | apply auth_call_caps]). }
  unfold start_method, actionAUTHComplete_with.
  safe_unfold ltac:(first [exact Hf | apply auth_call_caps]).
Qed.

Lemma ehlo_line_caps x l : safe_from (has x) any (ehlo_line l : eff (SmtpClient A) event unit).
Proof.
  unfold ehlo_line. destruct (startsWith _ _); apply safe_modify; intros c Hc; [exact Hc|].
  cbn. apply elem_of_app. by left.
Qed.

Ltac caps := safe_unfold ltac:(first
  [apply authenticateUser_caps | apply auth_call_caps | apply ehlo_line_caps]).

Lemma run_action_caps x a cmd : safe_from (has x) any (run_action srv ev fuel a cmd).
Proof.
  destruct a; cbn [run_action]; unfold _actionAUTHComplete, actionAUTHComplete_with,
    _onAuthFailed, onAuthFailed_with; caps.
Qed.

(** No input ever removes a capability: what a server (or whoever speaks
    for it) announced before STARTTLS, or on an earlier connection, is still
    taken as announced after. *)
Theorem capabilities_kept i x c :
  announced x c → let '(c', _, _) := handle srv ev fuel i c in announced x c'.
Proof.
  intros Hx. assert (Hs : safe_from (has x) any (handle srv ev fuel i)).
  { destruct i; cbn [handle]; unfold _onClose, _onAuthFailed, onAuthFailed_with;
      safe_unfold ltac:(first [apply run_action_caps | apply authenticateUser_caps
                             | apply auth_call_caps]). }
  specialize (Hs c Hx). destruct (handle srv ev fuel i c) as [[c' o] r]. by destruct Hs.
Qed.
End Capabilities.

(** ** Witnesses, and a token in clear *)

Definition ok_reply (n : Z) (d : jsstr) : command := mkCommand (Some n) d ((200 <=? n) && (n <? 300)).

(** A message of three recipients, one of them twice. *)
Definition sampleEnvelope : envelope :=
  noEnvelope <| from := js "a@x.org" |> <| to := [js "b@x.org"; js "c@x.org"; js "b@x.org"] |>.

Definition sampleOpenClient : SmtpClient unit :=
  sampleDataClient <| _dataMode := false |>.

Lemma recipients_flow_witness :
  ∃ c' params rcpt_params,
    run (sampleServer plain auth_none) sampleEnv 1
      (IUseEnvelope sampleEnvelope :: map IReply [ok_reply 250 []; ok_reply 250 []; ok_reply 251 []])
      sampleOpenClient
    = (c', Send false (wire_line sampleEnv (js "MAIL FROM:<a@x.org>" ++ params))
           :: map (λ r, Send false (wire_line sampleEnv (js "RCPT TO:<" ++ r ++ js ">" ++ rcpt_params)))
                [js "b@x.org"; js "c@x.org"]
           ++ [Send false (wire_line sampleEnv (js "DATA"))], Some tt) ∧
    responseQueue (_envelope c') = [js "b@x.org"; js "c@x.org"].
Proof.
  destruct (recipients_flow (sampleServer plain auth_none) sampleEnv 1 sampleOpenClient false
    sampleEnvelope [js "b@x.org"; js "c@x.org"; js "b@x.org"]
    [ok_reply 250 []; ok_reply 250 []; ok_reply 251 []])
    as (c' & p & rp & E & _ & _ & Hr & _); try done.
  - by repeat constructor.
  - by exists c', p, rp.
Defined.

Definition ehlo_text : jsstr := js "mx" ++ [LF] ++ js "STARTTLS" ++ [LF] ++ js "AUTH PLAIN".

(** A session up to the authentication. *)
Definition login_inputs : list input :=
  [IConnect; IOpen; IReply (ok_reply 220 []); IReply (ok_reply 250 ehlo_text);
   IReply (ok_reply 220 []); IReply (ok_reply 250 ehlo_text); IReply (ok_reply 235 [])].

Lemma session_run {A} `{Authenticator A} srv ev fuel inputs (c0 : SmtpClient A) o0 c :
  session srv ev fuel c0 o0 c → forallb login_input inputs = true →
  let '(c', o, _) := run srv ev fuel inputs c in session srv ev fuel c0 (o0 ++ o) c'.
Proof.
  revert o0 c. induction inputs as [|i inputs IH]; intros o0 c Hs Hi.
  - cbn. by rewrite app_nil_r.
  - apply andb_true_iff in Hi as [Hi Hr]. rewrite run_cons.
    destruct (handle srv ev fuel i c) as [[c1 o1] r1] eqn:E.
    specialize (IH (o0 ++ o1) c1). destruct (run srv ev fuel inputs c1) as [[c2 o2] r2].
    rewrite (assoc_L (++)). apply IH; [|done]. by eapply session_step.
Qed.

Lemma nothing_in_clear_witness :
  let srv := sampleServer alwaysSTARTTLS_ passwordCleartext in
  let o := (run srv sampleEnv 3 login_inputs (newSmtpClient srv tt)).1.2 in
  Send true (wire_line sampleEnv (js "AUTH PLAIN AHVzZXIAcHc=")) ∈ o ∧
  Forall (clear_ok srv sampleEnv) o.
Proof.
  cbn zeta. split; [apply (bool_decide_unpack _); vm_compute; exact Logic.I|].
  pose proof (session_run (sampleServer alwaysSTARTTLS_ passwordCleartext) sampleEnv 3
    login_inputs _ _ _ (session_nil _ _ _ (newSmtpClient
      (sampleServer alwaysSTARTTLS_ passwordCleartext) tt)) eq_refl) as Hs.
  destruct (run _ _ _ _ _) as [[c' o'] r'].
  refine (nothing_in_clear (sampleServer alwaysSTARTTLS_ passwordCleartext) sampleEnv 3
    _ tt o' c' _ Hs); [by intros [|]|by left].
Defined.

Lemma capabilities_kept_witness :
  let '(c', _, _) := handle (sampleServer alwaysSTARTTLS_ auth_none) sampleEnv 1
      (IReply (ok_reply 250 (js "mx")))
      (sampleOpenClient <| _capabilities := [js "SMTPUTF8"] |>
         <| _currentAction := Some AEHLO |> <| _secureTransport := true |>) in
  announced (js "SMTPUTF8") c'.
Proof.
  apply (capabilities_kept (sampleServer alwaysSTARTTLS_ auth_none) sampleEnv 1). cbn. by left.
Defined.

Definition oauthServer : SmtpServer := sampleServer alwaysSTARTTLS_ auth_OAuth2.

Definition oauth_ehlo : jsstr := js "mx" ++ [LF] ++ js "STARTTLS" ++ [LF] ++ js "AUTH XOAUTH2".

(** The server closes the connection while the token is awaited, the user
    retries, and the connection is open again when the token arrives. *)
Definition late_token_inputs : list input :=
  [IConnect; IOpen; IReply (ok_reply 220 []); IReply (ok_reply 250 oauth_ehlo);
   IReply (ok_reply 220 []); IReply (ok_reply 250 oauth_ehlo); ISocketClosed; IOpen].

(** The token of XOAUTH2 is sent when it arrives, on whatever connection is
    then open: when the connection was lost while it was awaited, it is sent in
    clear on the next one, although STARTTLS is required. *)
Theorem late_oauth_token_in_clear token :
  let '(_, o, _) := run oauthServer sampleEnv 3 (late_token_inputs ++ [IOAuthToken token])
                      (newSmtpClient oauthServer true) in
  Send false (wire_line sampleEnv (js "AUTH XOAUTH2 " ++ token)) ∈ o.
Proof.
  rewrite run_app.
  assert (H : ∃ c o r, run oauthServer sampleEnv 3 late_token_inputs (newSmtpClient oauthServer true)
                = (c, o, r) ∧ socket c = Some (mkTCPSocket Open false)).
  { do 3 eexists. split; [vm_compute; reflexivity|reflexivity]. }
  destruct H as (c & o & r & -> & Hs). rewrite run_cons. cbn [handle].
  unfold oauth_token_arrived, async, catch. rewrite (sendCommand_open _ _ _ _ Hs).
  cbn -[wire_line]. apply elem_of_app. right. by left.
Qed.
