(* ===== verification/SmtpAuth.v ===== *)
(** * SmtpAuth: the authentication of the SMTP client terminates

    [_authenticateUser], [_onAuthFailed] and [_actionAUTHComplete] call each
    other; a round ends by a command, by an error, or by a call with the next
    method or after the user asked to retry.  As long as the user does not retry
    for ever, the fuel of the model is not used up. *)

From S2P Require Import Prelude Effects Net Auth SmtpParser SmtpClient.

(** A bound on how often the user will still answer something else than
    "cancel". *)
Class BoundedRetries (A : Type) `{Authenticator A} := {
  retries : A → nat;
  retries_prompt a : (promptAuthFailed a).2 ≠ 1 →
    (retries (promptAuthFailed a).1 < retries a)%nat;
  retries_forget a : (retries (forgetPassword a) ≤ retries a)%nat;
  retries_ntlm_init a : (retries (initNtlmAuth a).1 ≤ retries a)%nat;
  retries_ntlm_token s a : (retries (getNextNtlmToken s a).1 ≤ retries a)%nat
}.

Section Auth.
Context {A : Type} `{BoundedRetries A}.
Variable srv : SmtpServer.
Variable ev : env.
Abbreviation client := (SmtpClient A).
Abbreviation act := (eff client event).

(** The methods left to try, the next one included. *)
Definition remaining (c : client) : nat :=
  match _nextAuthMethod c with
  | None => 0
  | Some m => length (_possibleAuthMethods c) - Z.to_nat (index_of (_possibleAuthMethods c) m)
  end.

(** The number of rounds there can still be. *)
Definition rounds (c : client) : nat :=
  retries (_authenticator c) * S (length (_possibleAuthMethods c)) + remaining c.

Definition methods_ok (c : client) : Prop :=
  NoDup (_possibleAuthMethods c) ∧
  ∀ m, _nextAuthMethod c = Some m → m ∈ _possibleAuthMethods c.

Definition fuelled (o : list event) : Prop := OutOfFuel ∉ o.
Definition ends {X} (m : act X) (c : client) : Prop := fuelled (m c).1.2.

(** The next method comes later in the list. *)
Lemma next_method_later l x y :
  NoDup l → x ∈ l → next_method l x = Some y →
  y ∈ l ∧ index_of l x < index_of l y.
Proof.
  intros Hnd Hx Hy. unfold next_method in Hy.
  destruct (index_of_elem l x Hx) as [H1 H2].
  assert (Hin : y ∈ l) by (eapply list_elem_of_lookup_2; exact Hy).
  split; [done|]. destruct (index_of_elem l y Hin) as [H3 H4].
  pose proof (NoDup_lookup _ _ _ _ Hnd Hy H4). lia.
Qed.

Lemma ends_bind {X Y} (m : act X) (k : X → act Y) c :
  ends m c → (∀ c' o x, m c = (c', o, Some x) → ends (k x) c') → ends (bind m k) c.
Proof.
  unfold ends, bind. destruct (m c) as [[c1 o1] [x|]] eqn:E; [|done].
  intros Hm Hk. specialize (Hk c1 o1 x eq_refl). destruct (k x c1) as [[c2 o2] r].
  cbn in *. unfold fuelled in *. rewrite elem_of_app. tauto.
Qed.

Lemma ends_async m c : ends m c → ends (async m) c.
Proof.
  unfold ends, async, catch. destruct (m c) as [[c1 o1] [[]|]]; [done|].
  cbn. by rewrite app_nil_r.
Qed.

Lemma ends_safe {X} (m : act X) c :
  safe_from (λ _, True) (λ e, e ≠ OutOfFuel) m → ends m c.
Proof.
  intros Hm. specialize (Hm c Logic.I). unfold ends, fuelled. destruct (m c) as [[c' o] r].
  destruct Hm as [_ Hm]. rewrite Forall_forall in Hm. intros Hin. by apply (Hm _ Hin).
Qed.

Ltac quiet :=
  repeat first
    [ progress intros
    | apply safe_bind | apply safe_when | apply safe_async | apply safe_catch
    | apply safe_ret | apply safe_throw | apply safe_gets | apply safe_skip
    | apply safe_emit; discriminate
    | apply safe_modify; done
    | match goal with
      | |- safe_from _ _ (if ?b then _ else _) => destruct b
      | |- safe_from _ _ (match ?x with _ => _ end) => destruct x
      end ].

Lemma quiet_auth_call {X} (f : A → A * option X) :
  safe_from (λ _, True) (λ e, e ≠ OutOfFuel) (auth_call f : act X).
Proof. intros c _. unfold auth_call. by destruct (f (_authenticator c)). Qed.

Lemma quiet_fail e : safe_from (λ _, True) (λ e, e ≠ OutOfFuel) (fail srv ev e : act unit).
Proof. unfold fail. quiet. Qed.

(** After the prompt there is one retry less; before it, one method less. *)
Lemma onAuthFailed_ends (au : act unit) c n :
  (∀ c', methods_ok c' → (rounds c' < n)%nat → ends au c') →
  methods_ok c →
  (rounds c < n ∨ _nextAuthMethod c = None ∧ rounds c ≤ n)%nat →
  ends (onAuthFailed_with srv ev au) c.
Proof.
  intros Hau Hok Hn. unfold ends, onAuthFailed_with. rewrite bind_gets. unfold id.
  set (prompt := bind _ _).
  assert (Hprompt : ends prompt c).
  { subst prompt. apply ends_bind; [apply ends_safe, quiet_auth_call|].
    intros c1 o choice Hp. unfold auth_call in Hp.
    pose proof (retries_prompt (_authenticator c)) as Hr.
    destruct (promptAuthFailed (_authenticator c)) as [a' k]. simplify_eq/=.
    destruct (Z.eqb_spec choice 1) as [->|Hne]; [apply ends_safe, quiet_fail|].
    specialize (Hr Hne).
    apply ends_bind; [apply ends_safe; destruct (choice =? 2); [apply quiet_auth_call|apply safe_skip]|].
    intros c2 o2 [] H2.
    assert (Hc2 : _possibleAuthMethods c2 = _possibleAuthMethods c ∧
                  (retries (_authenticator c2) < retries (_authenticator c))%nat).
    { destruct (choice =? 2); unfold when, skip, ret in H2; cbn in H2; simplify_eq/=; [|by split].
      split; [done|]. pose proof (retries_forget a'). lia. }
    destruct Hc2 as [Hp2 Hr2]. unfold ends. rewrite bind_gets. unfold id.
    destruct (_freed c2); [by apply ends_safe; unfold connect; quiet|].
    rewrite bind_modify. destruct (_ || _); [|apply not_elem_of_nil]. cbn [when].
    apply ends_async, Hau.
    - split; cbn; rewrite Hp2; [apply Hok|]. intros m Hm.
      destruct (_possibleAuthMethods c); [done|]. simplify_eq/=. left.
    - unfold rounds, remaining in *. cbn. rewrite Hp2.
      destruct (_possibleAuthMethods c) as [|m l]; cbn -[index_of Nat.mul];
        [|cbn [index_of]; rewrite jseq_refl; cbn -[Nat.mul]]; simpl length in *; nia. }
  destruct (_freed c); [exact Hprompt|].
  destruct (_nextAuthMethod c) as [m|] eqn:Em.
  - apply ends_async, Hau; [done|]. destruct Hn as [?|[? _]]; [done|congruence].
  - destruct (_currentAuthMethod c); [exact Hprompt|]. apply ends_safe, quiet_fail.
Qed.

(** What the calls of the NTLM case keep. *)
Definition tries_kept (c c' : client) : Prop :=
  _possibleAuthMethods c' = _possibleAuthMethods c ∧ _nextAuthMethod c' = _nextAuthMethod c ∧
  (retries (_authenticator c') ≤ retries (_authenticator c))%nat.

Definition stage_ok (n : nat) (c : client) : Prop :=
  methods_ok c ∧ (rounds c < n ∨ _nextAuthMethod c = None ∧ rounds c ≤ n)%nat.

Lemma stage_kept n c c' : tries_kept c c' → stage_ok n c → stage_ok n c'.
Proof.
  intros (Hp & Hn & Hr) [[H1 H2] H3].
  assert (Hle : (rounds c' ≤ rounds c)%nat) by (unfold rounds, remaining; rewrite Hp, Hn; nia).
  split; [split; rewrite Hp, ?Hn; done|]. rewrite Hn. destruct H3 as [?|[? ?]]; [left|right]; lia || (split; [done|lia]).
Qed.

Lemma start_method_ends m oaf c n :
  (∀ c', stage_ok n c' → ends oaf c') → stage_ok n c → ends (start_method ev m oaf) c.
Proof.
  intros Hoaf Hc. unfold start_method.
  repeat (match goal with |- ends (if ?b then _ else _) _ => destruct b end;
    [try (apply ends_safe; unfold set_action, _sendCommand, _send;
          repeat first [apply quiet_auth_call | progress quiet]; fail)|]); [|by apply Hoaf].
  apply ends_bind; [apply not_elem_of_nil|]. intros c1 o1 [] E1.
  unfold set_action, modify in E1. injection E1 as <- _.
  apply ends_bind; [apply ends_safe, quiet_auth_call|]. intros c2 o2 [] E2.
  apply ends_bind.
  { apply ends_safe, safe_catch; [|apply safe_ret].
    apply safe_bind; [apply quiet_auth_call|intros; apply safe_ret]. }
  intros c3 o3 t E3.
  assert (Hkept : tries_kept c c3).
  { unfold auth_call in E2. pose proof (retries_ntlm_init (_authenticator c)) as Hi.
    cbn in E2. destruct (initNtlmAuth (_authenticator c)) as [a2 r2].
    injection E2 as <- _ _.
    unfold catch, bind, auth_call, ret in E3. cbn in E3.
    pose proof (retries_ntlm_token [] a2) as Ht.
    destruct (getNextNtlmToken [] a2) as [a3 [t3|]] ; cbn in E3; injection E3 as <- _ _;
      unfold tries_kept; cbn in *; (split_and!; [done|done|lia]). }
  destruct t as [t|]; [apply ends_safe; unfold _sendCommand, _send; quiet|].
  unfold actionAUTHComplete_with, ends. rewrite bind_modify. apply Hoaf.
  eapply (stage_kept n c3); [done|]. by eapply stage_kept.
Qed.

Lemma authenticateUser_ends n c :
  methods_ok c → (rounds c < n)%nat → ends (_authenticateUser srv ev n) c.
Proof.
  revert c. induction n as [|n IH]; intros c Hok Hn; [lia|]. cbn [_authenticateUser].
  assert (Hoaf : ∀ c', stage_ok n c' → ends (onAuthFailed_with srv ev (_authenticateUser srv ev n)) c').
  { intros c' [H1 H2]. by eapply onAuthFailed_ends. }
  unfold ends. rewrite bind_gets. unfold id.
  destruct (_ || _); [by apply ends_safe; unfold set_action; quiet|].
  destruct (_nextAuthMethod c) as [m|] eqn:Em.
  - rewrite !bind_modify. apply (start_method_ends m _ _ n Hoaf).
    destruct Hok as [Hnd Hin]. specialize (Hin m Em).
    unfold stage_ok, methods_ok, rounds, remaining in *. cbn. rewrite Em in Hn.
    destruct (index_of_elem _ _ Hin) as [Hi _].
    destruct (next_method (_possibleAuthMethods c) m) as [y|] eqn:Ey.
    + destruct (next_method_later _ _ _ Hnd Hin Ey) as [Hy Hlt].
      destruct (index_of_elem _ _ Hy) as [Hj _].
      split; [split; [done|by intros ? [= <-]]|]. left. lia.
    + split; [by split|]. right. split; [done|lia].
  - apply Hoaf. split; [done|]. right. split; [done|lia].
Qed.

(** C36. If the user does not ask for ever to retry, authenticating ends: it
    sends a command, asks for a token, reports an error or reconnects, after at
    most as many rounds as there are methods left and retries, times the number
    of methods. *)
Theorem authentication_terminates n c :
  NoDup (_possibleAuthMethods c) →
  _nextAuthMethod c = head (_possibleAuthMethods c) →
  (S (retries (_authenticator c)) * S (length (_possibleAuthMethods c)) ≤ n)%nat →
  let '(_, o, _) := _authenticateUser srv ev n c in fuelled o.
Proof.
  intros Hnd Hnext Hn. pose proof (authenticateUser_ends n c) as He. unfold ends in He.
  destruct (_authenticateUser srv ev n c) as [[c' o] r]. apply He.
  - split; [done|]. intros m Hm. rewrite Hnext in Hm.
    destruct (_possibleAuthMethods c); simplify_eq/=. left.
  - unfold rounds, remaining. destruct (_nextAuthMethod c); lia.
Qed.
End Auth.

(** NTLM without a token, and a user who retries as often as the state says. *)
#[export] Instance ntlmAuthenticator : Authenticator nat := {|
  username := λ _, js "user";
  getPlainToken := λ a, (a, None);
  getPassword := λ a, (a, PasswordAborted);
  getCramMd5Token := λ _ _ a, (a, None);
  initGssapiAuth := λ a, (a, None);
  initNtlmAuth := λ a, (a, Some tt);
  getNextGssapiToken := λ _ a, (a, None);
  getNextNtlmToken := λ _ a, (a, None);
  promptAuthFailed := λ a, match a with O => (O, 1) | S n => (n, 0) end;
  forgetPassword := λ a, a
|}.
#[export] Instance ntlmBounded : BoundedRetries nat.
Proof. refine {| retries := id |}; [intros [|n]|..]; simpl; unfold id; done || lia. Defined.

Lemma authentication_terminates_witness :
  let srv := sampleServer SSL auth_NTLM in
  let c := (newSmtpClient srv 2%nat) <| _supportedAuthMethods := [js "NTLM"] |>
             <| _possibleAuthMethods := [js "NTLM"] |> <| _nextAuthMethod := Some (js "NTLM") |> in
  let '(_, o, _) := _authenticateUser srv sampleEnv 6 c in fuelled o.
Proof.
  apply (authentication_terminates (sampleServer SSL auth_NTLM) sampleEnv 6).
  - apply NoDup_singleton.
  - done.
  - cbn. lia.
Defined.
