(* ===== verification/Pop3State.v ===== *)
(** * Pop3State: popstate.dat, the POP3 client's memory of the server

    [_loadUidlState] and [_writeUidlState] of mailnews/local/src/
    Pop3Client.sys.mjs: the map from uidl to what was done with the message, as
    the JavaScript [Map] in its order, and its text file.  A field that the
    JavaScript leaves [undefined] is [None]; [receivedAt] is kept as the text
    that is read and written. *)

From S2P Require Import Prelude.

Definition UIDL_KEEP : jsstr := js "k".
Definition UIDL_DELETE : jsstr := js "d".
Definition UIDL_TOO_BIG : jsstr := js "b".
Definition UIDL_FETCH_BODY : jsstr := js "f".

(** A value of [_uidlMap], or an element of [_messagesToHandle], which has a
    message number too. *)
Record message := mkMessage {
  uidl : option jsstr;
  status : option jsstr;
  receivedAt : option jsstr;
  messageNumber : option jsstr
}.

Abbreviation uidlMap := (list (option jsstr * message)).

(** [this._lineSeparator]: LF, or CRLF on Windows; only its last character is
    special when the file is split. *)
Definition _lineSeparator : jsstr := [LF].

(** ** Reading *)

(** [const [status, uidl, receivedAt] = line.split(" ")]. *)
Definition parse_state_line (line : jsstr) : message :=
  let l := split_on SP line in
  mkMessage (l !! 1%nat) (l !! 0%nat) (l !! 2%nat) None.

(** The loop on the lines; [uidlLine] turns true after the "*" line. *)
Fixpoint load_lines (lines : list jsstr) (uidlLine : bool) (m : uidlMap) : uidlMap :=
  match lines with
  | [] => m
  | line :: lines' =>
      if negb (str_truthy line) then load_lines lines' uidlLine m
      else
        let m := if uidlLine then let e := parse_state_line line in mset m (uidl e) e else m in
        if startsWith line (js "#") then load_lines lines' uidlLine m
        else if startsWith line (js "*") then load_lines lines' true m
        else load_lines lines' uidlLine m
  end.

(** The file's content, [None] when it does not exist. *)
Definition load_uidl_state (content : option jsstr) : uidlMap :=
  match content with
  | None => []
  | Some c => load_lines (split_on LF c) false []
  end.

(** ** Writing *)

Definition header (hostName username : jsstr) : list jsstr :=
  [js "# POP3 State File"; js "# This is a generated file!  Do not edit."; [];
   js "*" ++ hostName ++ [SP] ++ username].

Definition state_line (e : message) : jsstr :=
  default undefined_str (status e) ++ [SP] ++ default undefined_str (uidl e) ++ [SP]
  ++ default [] (receivedAt e).

(** The lines of the messages that have a [receivedAt]. *)
Definition state_lines (m : uidlMap) : list jsstr :=
  omap (λ ke, if (str_truthy (default [] (receivedAt ke.2))) then Some (state_line ke.2) else None) m.

(** The messages still to handle are put back first. *)
Definition put_back (messagesToHandle : list message) (m : uidlMap) : uidlMap :=
  fold_left (λ m e, mset m (uidl e) e) messagesToHandle m.

Definition uidl_state_content (hostName username : jsstr) (m : uidlMap) : jsstr :=
  join _lineSeparator (header hostName username ++ state_lines m).

(** ** Round trip *)

(** A word of a line of the file. *)
Definition word (w : jsstr) : Prop := w ≠ [] ∧ (SP ∉ w) ∧ (LF ∉ w).

Definition state_of (u s r : jsstr) : message := mkMessage (Some u) (Some s) (Some r) None.

(** An entry that the file can hold. *)
Definition entry_ok (ke : option jsstr * message) : Prop :=
  ∃ u s r, ke = (Some u, state_of u s r) ∧
    word u ∧ word s ∧ word r ∧ head s ≠ Some 35 ∧ head s ≠ Some 42.

Lemma parse_state_line_ok u s r :
  word u → word s → word r → parse_state_line (state_line (state_of u s r)) = state_of u s r.
Proof.
  intros (_ & Hu & _) (_ & Hs & _) (_ & Hr & _). unfold parse_state_line.
  change (state_line _) with (s ++ SP :: u ++ SP :: r).
  rewrite split_on_app by done. rewrite split_on_app by done. by rewrite split_on_none by done.
Qed.

Lemma startsWith_head s c : startsWith s [c] = bool_decide (head s = Some c).
Proof.
  unfold startsWith. apply bool_decide_ext. split.
  - by intros [r ->].
  - destruct s as [|x s]; [done|]. intros [= ->]. by exists s.
Qed.

Lemma load_entries es m :
  Forall entry_ok es → NoDup (m.*1 ++ es.*1) → load_lines (state_lines es) true m = m ++ es.
Proof.
  intros Hes. revert m. induction Hes as [|ke es Hke _ IH]; intros m Hnd; [by rewrite app_nil_r|].
  destruct Hke as (u & s & r & -> & Hu & Hs & Hr & H1 & H2).
  assert (Hrt : str_truthy r = true) by (destruct r; [by destruct Hr|done]).
  assert (E : state_lines ((Some u, state_of u s r) :: es) = state_line (state_of u s r) :: state_lines es).
  { unfold state_lines. cbn. by rewrite Hrt. }
  rewrite E. cbn [load_lines].
  assert (Hhead : head (state_line (state_of u s r)) = head s)
    by (destruct s; [by destruct Hs|done]).
  assert (Htr : negb (str_truthy (state_line (state_of u s r))) = false)
    by (destruct s; [by destruct Hs|done]).
  rewrite Htr, !startsWith_head, Hhead.
  rewrite !bool_decide_eq_false_2 by done.
  rewrite (parse_state_line_ok u s r) by done. cbn [uidl state_of].
  rewrite IH.
  - assert (Hm : mset m (Some u) (state_of u s r) = m ++ [(Some u, state_of u s r)]).
    { assert (Hni : Some u ∉ m.*1) by (apply NoDup_app in Hnd as (_ & Hd & _); intros Hi; apply (Hd _ Hi); left).
      clear -Hni. induction m as [|[k v] m IH]; [done|]. csimpl. csimpl in Hni.
      apply not_elem_of_cons in Hni as [Hk Hm]. rewrite decide_False by congruence. by rewrite IH. }
    rewrite Hm. by rewrite <- (assoc_L (++)).
  - rewrite mset_fst. assert (Hni : Some u ∉ m.*1) by (apply NoDup_app in Hnd as (_ & Hd & _); intros Hi; apply (Hd _ Hi); left).
    unfold mhas. rewrite (proj2 (mget_None m (Some u))) by done.
    csimpl in Hnd. by rewrite <- (assoc_L (++)).
Qed.

Lemma state_lines_no_lf es : Forall entry_ok es → Forall (λ l, LF ∉ l) (state_lines es).
Proof.
  induction 1 as [|ke es (u & s & r & -> & (_ & _ & Hu) & (_ & _ & Hs) & (_ & _ & Hr) & _) _ IH];
    [constructor|]. unfold state_lines in *. cbn. destruct (str_truthy r); [|done].
  constructor; [|done]. change (state_line _) with (s ++ SP :: u ++ SP :: r).
  rewrite !not_elem_of_app, !not_elem_of_cons, not_elem_of_app, not_elem_of_cons.
  split_and!; try done; unfold LF, SP; lia.
Qed.

(** C37. Reading back the file gives the map that was written, in its order,
    provided the entries have a received date and their fields are words. *)
Theorem popstate_roundtrip host user m :
  LF ∉ host → LF ∉ user → Forall entry_ok m → NoDup m.*1 →
  load_uidl_state (Some (uidl_state_content host user m)) = m.
Proof.
  intros Hh Hu Hm Hnd. unfold load_uidl_state, uidl_state_content.
  unfold _lineSeparator. rewrite split_join; [|done|].
  - cbn. by apply (load_entries m []).
  - apply Forall_app. split; [|by apply state_lines_no_lf].
    unfold header. repeat (apply Forall_cons; split); [..|constructor].
    1-3: by apply (bool_decide_unpack _).
    rewrite !not_elem_of_app. set_unfold. by unfold LF, SP; naive_solver.
Qed.

Lemma popstate_roundtrip_witness :
  let m := [(Some (js "UID1"), state_of (js "UID1") (js "k") (js "1700000000"));
            (Some (js "#2"), state_of (js "#2") (js "b") (js "1700000001"))] in
  load_uidl_state (Some (uidl_state_content (js "pop.example.org") (js "me") m)) = m.
Proof.
  apply popstate_roundtrip.
  - by apply (bool_decide_unpack _).
  - by apply (bool_decide_unpack _).
  - repeat constructor; do 3 eexists; (split; [reflexivity|]);
      split_and!; try done; by apply (bool_decide_unpack _).
  - by apply (bool_decide_unpack _).
Defined.
