(* ===== verification/Pop3Client.v ===== *)
(** * Pop3Client: the POP3 client's state machine

    mailnews/local/src/Pop3Client.sys.mjs.  The fields are the record
    [Pop3Client] and every method is an [eff] over it.  The authenticator and
    the message sink are interfaces; the socket, the callers' callbacks and the
    user interface are events; popstate.dat is a field.  An [await] on something
    the outside answers at its own time - a password, the response to NOOP, the
    cleanup timer - splits the method, and what follows is an input of its own;
    the other awaits (on the file, on a send that is not held back) are taken to
    be answered before the next input. *)

From S2P Require Import Prelude Effects Net LineReader ReadLines MimeUtils Pop3State.

(** ** The outside *)

Record Pop3Server := mkPop3Server {
  hostName : jsstr;
  port : Z;
  socketType : nsMsgSocketType;
  authMethod : nsMsgAuthMethod;
  server_username : jsstr;
  leaveMessagesOnServer : bool;
  headersOnly : bool;
  deleteByAgeFromServer : bool;
  numDaysToLeaveOnServer : Z;
  limitOfflineMessageSize : bool;
  server_maxMessageSize : Z
}.

(** [nsresult], and the socket's error codes that have a message. *)
Inductive nsresult :=
  | NS_OK | NS_ERROR_FAILURE
  | NS_ERROR_UNKNOWN_HOST | NS_ERROR_UNKNOWN_PROXY_HOST | NS_ERROR_CONNECTION_REFUSED
  | NS_ERROR_PROXY_CONNECTION_REFUSED | NS_ERROR_NET_TIMEOUT | NS_ERROR_NET_RESET
  | NS_ERROR_NET_INTERRUPT | NS_ERROR_OTHER (code : Z).
#[export] Instance nsresult_eq : EqDecision nsresult.
Proof. solve_decision. Defined.

Record env := mkEnv {
  pref_login_latin1 : bool;
  utf8 : jsstr → jsstr;              (* MailStringUtils.stringToByteString *)
  md5_hex : jsstr → jsstr;           (* nsICryptoHash, in hex *)
  write_ok : jsstr → bool;           (* whether IOUtils.writeUTF8 succeeds *)
  write_failed : jsstr → option jsstr → option jsstr
                                     (* what it leaves of the file when it fails *)
}.

(** The synchronous part of Pop3Authenticator; [None] is a throw. *)
Class Pop3Auth (A : Type) := {
  username : A → jsstr;
  getCramMd5Token : jsstr → jsstr → A → A * option jsstr;
  initGssapiAuth : A → A * option unit;
  initNtlmAuth : A → A * option unit;
  getNextGssapiToken : jsstr → A → A * option jsstr;
  getNextNtlmToken : jsstr → A → A * option jsstr;
  promptAuthFailed : A → A * Z;
  forgetPassword : A → A
}.

Inductive delivery := DeliveryOk | DeliveryBusy | DeliveryFailed.

(** nsIPop3Sink; [false] is a throw. *)
Class Pop3Sink (S : Type) := {
  beginMailDelivery : option jsstr → S → S * delivery;
  incorporateBegin : option jsstr → bool → S → S * bool;    (* uidl, partial? *)
  incorporateWrite : jsstr → S → S * bool;
  incorporateComplete : num → S → S * bool;                 (* the size of a partial message *)
  incorporateAbort : S → S;
  endMailDelivery : S → S * option nsresult;                (* what it throws *)
  abortMailDelivery : S → S;
  warnIfLocalFileTooBig : num → S → bool
}.

(** What an awaited credential is for. *)
Inductive credential := CrApop | CrUserPass | CrPlain | CrLogin | CrCramMd5 (challenge : jsstr) | CrXoauth.
#[export] Instance credential_eq : EqDecision credential.
Proof. solve_decision. Defined.

Inductive event :=
  | Connect (host : jsstr) (port : Z) (useSecureTransport : bool)
  | Send (ssl : bool) (data : jsstr)
  | SocketClose
  | UpgradeToSecure
  | AskCredential (k : credential)
  | OnOpen
  | OnStartRunningUrl
  | OnStopRunningUrl (status : nsresult)
  | OnDone (status : nsresult)
  | Alert (name : jsstr) (params : list jsstr) (serverSaid : option jsstr)
  | AlertUser (name : jsstr)
  | Status (name : jsstr)
  | NotifyDownloadCompleted
  | SetBiffState (n : Z) (isNew : bool)
  | SetMsgsToDownload (n : Z).
#[export] Instance event_eq : EqDecision event.
Proof. solve_decision. Defined.

(** ** Responses *)

Record response := mkResponse {
  r_status : option jsstr;
  success : bool;
  statusText : option jsstr;
  data : jsstr
}.

Definition drop_space (s : jsstr) : jsstr :=
  match s with c :: s' => if c =? SP then s' else s | [] => [] end.

(** The regex of [_parse]: the indicator, at most one space, the text of the
    line, CRLF, and the rest. *)
Definition match_status (str : jsstr) : option (jsstr * jsstr * jsstr) :=
  let st := if startsWith str (js "+OK") then js "+OK"
            else if startsWith str (js "-ERR") then js "-ERR"
            else if startsWith str (js "+") then js "+" else [] in
  if str_truthy st then
    let rest := drop_space (drop (length st) str) in
    let text := until_eol rest in
    let tl := drop (length text) rest in
    if startsWith tl CRLF then Some (st, text, drop 2 tl) else None
  else None.

Definition parse_response (multiLine : bool) (str : jsstr) : response :=
  if multiLine then mkResponse None false None str
  else match match_status str with
       | Some (st, text, d) => mkResponse (Some st) (negb (st ==s js "-ERR")) (Some text) d
       | None => mkResponse None false None str
       end.

(** ** The state *)

(** The functions [_nextAction] can be, with what they close over. *)
Inductive nextAction :=
  | NGreeting | NCapa | NStls | NAuthResponse | NAuthUserPass | NAuthPlain | NAuthLoginUser
  | NAuthLoginPass | NAuthCramMd5 | NAuthGssapi (firstToken : jsstr)
  | NAuthNtlm (firstToken : jsstr) | NAuthXoauth | NStat | NList | NUidl | NTop | NRetr
  | NDelete | NClose | NCleanUp (status : nsresult).
#[export] Instance nextAction_eq : EqDecision nextAction.
Proof. solve_decision. Defined.

Inductive afterAuth := AfterStat | AfterDone.

(** What a method does after an [await this._send(...)]. *)
Inductive continuation := KNone | KReceiving | KQuit (next : option nsresult).

Record socket_t := mkSocket {
  readyState : readyState_t;
  ssl : bool;
  listening : bool          (* ondata is the client's handler, not the empty one *)
}.

Record Pop3Client (A S : Type) := mkPop3Client {
  _socket : option socket_t;
  _secureTransport : bool;
  _authenticator : A;
  _sink : S;
  _lineReader : LineReader;
  _pendingPayload : jsstr;
  _noopRespPending : bool;
  _timeOfSend : Z;                      (* in milliseconds *)
  now : Z;                              (* Date.now() *)
  deferred : list (jsstr * continuation);   (* sends that wait for NOOP's response *)
  _nextAction : option nextAction;
  _actionAfterAuth : afterAuth;
  quitting : bool;                      (* _onData and _onError are the empty functions *)
  _authenticating : bool;
  _destroyed : bool;
  _apopTimestamp : option jsstr;
  _supportedAuthMethods : list jsstr;
  _possibleAuthMethods : list jsstr;
  _preferredAuthMethods : list jsstr;
  _nextAuthMethod : option jsstr;
  _currentAuthMethod : option jsstr;
  _capabilities : list jsstr;
  _downloadMail : bool;
  _msgWindow : bool;
  _verifyLogon : bool;
  _singleUidlToDownload : option jsstr;
  _cutOffTimestamp : Z;                 (* in milliseconds *)
  _maxMessageSize : option Z;           (* None: Infinity *)
  popstate : option jsstr;              (* the content of popstate.dat *)
  _uidlMap : uidlMap;
  _uidlMapChanged : bool;
  _writeUidlPromise : bool;
  _newUidlMap : uidlMap;
  _messageSizeMap : list (jsstr * num);
  _messagesToHandle : list message;
  _messagesToDownload : option (list message);
  _currentMessage : option message;
  _newMessageTotal : Z;
  _newMessageDownloaded : Z;
  _totalDownloadSize : num;
  _totalReceivedSize : Z;
  _topFailed : bool;
  _folderLocked : bool;
  _done : bool;
  _cleanedUp : bool;
  cleanupTimer : option nsresult;
  serverBusy : bool;
  urlRunning : bool
}.
Arguments mkPop3Client {A S}.
Arguments _socket {A S}. Arguments _secureTransport {A S}. Arguments _authenticator {A S}.
Arguments _sink {A S}. Arguments _lineReader {A S}. Arguments _pendingPayload {A S}.
Arguments _noopRespPending {A S}. Arguments _timeOfSend {A S}. Arguments now {A S}.
Arguments deferred {A S}. Arguments _nextAction {A S}. Arguments _actionAfterAuth {A S}.
Arguments quitting {A S}. Arguments _authenticating {A S}. Arguments _destroyed {A S}.
Arguments _apopTimestamp {A S}. Arguments _supportedAuthMethods {A S}.
Arguments _possibleAuthMethods {A S}. Arguments _preferredAuthMethods {A S}.
Arguments _nextAuthMethod {A S}. Arguments _currentAuthMethod {A S}.
Arguments _capabilities {A S}. Arguments _downloadMail {A S}. Arguments _msgWindow {A S}.
Arguments _verifyLogon {A S}. Arguments _singleUidlToDownload {A S}.
Arguments _cutOffTimestamp {A S}. Arguments _maxMessageSize {A S}. Arguments popstate {A S}.
Arguments _uidlMap {A S}. Arguments _uidlMapChanged {A S}. Arguments _writeUidlPromise {A S}.
Arguments _newUidlMap {A S}. Arguments _messageSizeMap {A S}.
Arguments _messagesToHandle {A S}. Arguments _messagesToDownload {A S}.
Arguments _currentMessage {A S}. Arguments _newMessageTotal {A S}.
Arguments _newMessageDownloaded {A S}. Arguments _totalDownloadSize {A S}.
Arguments _totalReceivedSize {A S}. Arguments _topFailed {A S}. Arguments _folderLocked {A S}.
Arguments _done {A S}. Arguments _cleanedUp {A S}. Arguments cleanupTimer {A S}.
Arguments serverBusy {A S}. Arguments urlRunning {A S}.

#[export] Instance eta_Pop3Client A S : Settable (Pop3Client A S) := λ c,
  mkPop3Client (_socket c) (_secureTransport c) (_authenticator c) (_sink c) (_lineReader c)
    (_pendingPayload c) (_noopRespPending c) (_timeOfSend c) (now c) (deferred c)
    (_nextAction c) (_actionAfterAuth c) (quitting c) (_authenticating c) (_destroyed c)
    (_apopTimestamp c) (_supportedAuthMethods c) (_possibleAuthMethods c)
    (_preferredAuthMethods c) (_nextAuthMethod c) (_currentAuthMethod c) (_capabilities c)
    (_downloadMail c) (_msgWindow c) (_verifyLogon c) (_singleUidlToDownload c)
    (_cutOffTimestamp c) (_maxMessageSize c) (popstate c) (_uidlMap c) (_uidlMapChanged c)
    (_writeUidlPromise c) (_newUidlMap c) (_messageSizeMap c) (_messagesToHandle c)
    (_messagesToDownload c) (_currentMessage c) (_newMessageTotal c)
    (_newMessageDownloaded c) (_totalDownloadSize c) (_totalReceivedSize c) (_topFailed c)
    (_folderLocked c) (_done c) (_cleanedUp c) (cleanupTimer c) (serverBusy c)
    (urlRunning c).

#[export] Instance pop3_reader A S : HasReader (Pop3Client A S) := {|
  reader := _lineReader;
  with_reader := λ lr c, c <| _lineReader := lr |>
|}.

(** The table of the constructor. *)
Definition preferred (m : nsMsgAuthMethod) : list jsstr :=
  match m with
  | passwordCleartext => [js "USERPASS"; js "PLAIN"; js "LOGIN"]
  | passwordEncrypted => [js "CRAM-MD5"]
  | auth_GSSAPI => [js "GSSAPI"]
  | auth_NTLM => [js "NTLM"]
  | auth_OAuth2 => [js "XOAUTH2"]
  | secure => [js "CRAM-MD5"; js "GSSAPI"]
  | _ => []
  end.

(** The constructor, at a time and with the file's content. *)
Definition newPop3Client {A S} (srv : Pop3Server) (auth : A) (sink : S) (time : Z)
    (file : option jsstr) : Pop3Client A S :=
  mkPop3Client None false auth sink newLineReader [] false 0 time [] None AfterDone false
    false false None [] [] (preferred (authMethod srv)) None None [] false false false None
    (if deleteByAgeFromServer srv && negb (numDaysToLeaveOnServer srv =? 0)
     then time - numDaysToLeaveOnServer srv * 24 * 60 * 60 * 1000 else -1000)
    (if limitOfflineMessageSize srv
     then Some (if server_maxMessageSize srv =? 0 then 50 * 1024
                else server_maxMessageSize srv * 1024)
     else None)
    file [] false false [] [] [] None None 0 0 (Some 0) 0 false false false false None false false.

Section Methods.
Context {A Sk : Type} `{Pop3Auth A} `{Pop3Sink Sk}.
Variable srv : Pop3Server.
Variable ev : env.

Abbreviation act := (eff (Pop3Client A Sk) event).

Definition auth_call {X} (f : A → A * option X) : act X := λ c,
  let '(a, r) := f (_authenticator c) in (c <| _authenticator := a |>, [], r).

(** A method of the sink, with whether it returned. *)
Definition sink_call {X} (f : Sk → Sk * X) : act X := λ c,
  let '(s, r) := f (_sink c) in (c <| _sink := s |>, [], Some r).

Definition next (n : nextAction) : act unit := this, _nextAction := Some n.

(** ** popstate.dat *)

Definition _loadUidlState : act unit :=
  let! c := gets id in this, _uidlMap := load_uidl_state (popstate c).

(** Whether it returned. *)
Definition _writeUidlState (resetFlag : bool) : act bool :=
  let! changed := gets _uidlMapChanged in
  if negb changed then ret true
  else
    bind (modify (λ c, c <| _uidlMap := put_back (_messagesToHandle c) (_uidlMap c) |>)) (λ _,
    let! c := gets id in
    let content := uidl_state_content (hostName srv) (server_username srv) (_uidlMap c) in
    if write_ok ev content then
      bind (this, popstate := Some content) (λ _,
      bind (this, _writeUidlPromise := false) (λ _,
      bind (when resetFlag (this, _uidlMapChanged := false)) (λ _, ret true)))
    else
      bind (this, popstate := write_failed ev content (popstate c)) (λ _,
      bind (this, _writeUidlPromise := true) (λ _, ret false))).

(** ** Sending *)

Definition _updateStatus (name : jsstr) : act unit :=
  let! w := gets _msgWindow in when w (emit (Status name)).

(** [this._socket?.readyState == "open"]. *)
Definition is_open (c : Pop3Client A Sk) : bool :=
  match _socket c with Some s => bool_decide (readyState s = Open) | None => false end.

(** [this._socket.send(...)] throws when the socket is not open. *)
Definition socket_send (str : jsstr) : act unit :=
  let! c := gets id in
  match _socket c with
  | Some s => if bool_decide (readyState s = Open) then emit (Send (ssl s) (str ++ CRLF)) else throw
  | None => throw
  end.

Definition now_send (str : jsstr) : act unit :=
  socket_send str >> modify (λ c, c <| _timeOfSend := now c |>).

(** What follows the await. *)
Definition continue (k : continuation) : act unit :=
  match k with
  | KNone => skip
  | KReceiving =>
      modify (λ c, c <| _newMessageDownloaded := _newMessageDownloaded c + 1 |>) >>
      _updateStatus (js "receivingMessages")
  | KQuit None => next NClose
  | KQuit (Some status) => next (NCleanUp status) >> (this, cleanupTimer := Some status)
  end.

(** [await this._send(str)] and what follows it. *)
Definition _send (str : jsstr) (k : continuation) : act unit :=
  let! c := gets id in
  if negb (is_open c) then continue k
  else if _noopRespPending c then this, deferred ::= λ l, l ++ [(str, k)]
  else now_send str >> continue k.

(** The end of the wait for the response to NOOP, for the first waiting send. *)
Definition noop_wait_over : act unit :=
  let! l := gets deferred in
  match l with
  | [] => skip
  | (str, k) :: l' =>
      (this, deferred := l') >> (this, _noopRespPending := false) >>
      async (now_send str >> continue k)
  end.

Definition _sendNoopIfInactive : act unit :=
  let! c := gets id in
  when ((10000 <? now c - _timeOfSend c) && is_open c && negb (_noopRespPending c))
    ((this, _noopRespPending := true) >> now_send (js "NOOP")).

(** ** The end *)

(** [close]: the socket may be undefined. *)
Definition close : act unit :=
  let! c := gets id in
  match _socket c with
  | Some s =>
      (this, _socket := Some (mkSocket (if bool_decide (readyState s = Closed) then Closed else Closing)
                                (ssl s) (listening s))) >> emit SocketClose
  | None => throw
  end.

Definition _cleanUp (status : nsresult) : act unit :=
  (this, _cleanedUp := true) >>
  close >>
  (let! running := gets urlRunning in when running (emit (OnStopRunningUrl status))) >>
  (this, urlRunning := false) >>
  emit (OnDone status) >>
  (let! locked := gets _folderLocked in
   when locked
     (sink_call (λ s, (abortMailDelivery s, tt)) >> (this, _folderLocked := false))).

(** [quit(nextAction)]; the function is the clean-up with a status, whose timer
    [_actionDone] starts once QUIT was sent. *)
Definition quit (nextAction : option nsresult) : act unit :=
  (this, quitting := true) >>
  (let! o := gets is_open in
   if o then _send (js "QUIT") (KQuit nextAction)
   else match nextAction with
        | Some status => async (_cleanUp status) >> (this, cleanupTimer := Some status)
        | None => skip
        end).

Definition is_ok (status : nsresult) : bool := bool_decide (status = NS_OK).

Definition _actionDone (status : nsresult) : act unit :=
  let! d := gets _done in
  when (negb d)
    ((this, _done := true) >>
     (this, _authenticating := false) >>
     (let! c := gets id in
      if is_ok status then
        _updateStatus (if _newMessageTotal c =? 0 then js "noNewMessages" else js "receivedMsgs")
      else match _currentMessage c with
           | Some m => this, _messagesToHandle ::= λ l, m :: l
           | None => skip
           end) >>
     (let! written := _writeUidlState true in
      let status := if written then status else NS_ERROR_FAILURE in
      quit (Some status))).

(** The callback of the timer. *)
Definition cleanup_timer_fired : act unit :=
  let! c := gets id in
  match cleanupTimer c with
  | Some status => (this, cleanupTimer := None) >> when (negb (_cleanedUp c)) (_cleanUp status)
  | None => skip
  end.

Definition _actionError (name : jsstr) (params : list jsstr) (serverSaid : option jsstr) : act unit :=
  if name ==s js "pop3PasswordFailed" then skip
  else
    _actionDone NS_ERROR_FAILURE >>
    (let! w := gets _msgWindow in when w (emit (Alert name params serverSaid))).

Definition error (name : jsstr) : act unit := _actionError name [] None.
Definition error_said (name : jsstr) (res : response) : act unit :=
  _actionError name [] (statusText res).

(** ** Connecting *)

Definition connect : act unit :=
  emit (Connect (toLowerCase (hostName srv)) (port srv) (bool_decide (socketType srv = SSL))) >>
  (this, urlRunning := true) >>
  (this, serverBusy := true) >>
  (this, _secureTransport := bool_decide (socketType srv = SSL)) >>
  (this, _socket := Some (mkSocket Connecting (bool_decide (socketType srv = SSL)) false)) >>
  (this, _authenticating := false) >>
  (this, _destroyed := false) >>
  (this, _pendingPayload := []).

Definition _onOpen : act unit :=
  modify (λ c, c <| _socket := match _socket c with
                               | Some s => Some (mkSocket Open (ssl s) (negb (quitting c)))
                               | None => None
                               end |>) >>
  next NGreeting.

(** The characters up to 0x7F after "<". *)
Fixpoint ascii_run (s : jsstr) : jsstr :=
  match s with
  | c :: s' => if (0 <=? c) && (c <=? 127) then c :: ascii_run s' else []
  | [] => []
  end.

(** The index of the last ">" of a run. *)
Fixpoint last_gt (s : jsstr) (i : nat) (acc : option nat) : option nat :=
  match s with
  | [] => acc
  | c :: s' => last_gt s' (S i) (if c =? 62 then Some i else acc)
  end.

(** The APOP timestamp: from the first "<" that an "@" and a ">" follow, with
    something between, to the last such ">". *)
Fixpoint apop_timestamp (s : jsstr) : option jsstr :=
  match s with
  | [] => None
  | c :: s' =>
      let run := ascii_run s' in
      match (if c =? 60 then find_sub [64] (drop 1 run) else None), last_gt run 0 None with
      | Some i, Some q => if (i + 3 <=? q)%nat then Some (60 :: take (S q) run) else apop_timestamp s'
      | _, _ => apop_timestamp s'
      end
  end.

(** The response to the connection. *)
Definition on_greeting (res : response) : act unit :=
  match statusText res with
  | None => throw
  | Some t =>
      (match apop_timestamp t with
       | Some a => this, _apopTimestamp := Some a
       | None => skip
       end) >> emit OnOpen
  end.

(** ** Authentication *)

Definition _actionCapa : act unit :=
  next NCapa >> (this, _capabilities := []) >> (this, _newMessageDownloaded := 0) >>
  (this, _newMessageTotal := 0) >> _send (js "CAPA") KNone.

Definition next_method (l : list jsstr) (x : jsstr) : option jsstr :=
  l !! Z.to_nat (index_of l x + 1).

Definition ask (k : credential) : act unit := emit (AskCredential k).

(** The [switch] of [_actionAuth]. *)
Definition start_method (m : jsstr) : act unit :=
  if m ==s js "USERPASS" then
    next NAuthUserPass >>
    (let! c := gets id in _send (js "USER " ++ username (_authenticator c)) KNone)
  else if m ==s js "PLAIN" then next NAuthPlain >> _send (js "AUTH PLAIN") KNone
  else if m ==s js "LOGIN" then next NAuthLoginUser >> _send (js "AUTH LOGIN") KNone
  else if m ==s js "CRAM-MD5" then next NAuthCramMd5 >> _send (js "AUTH CRAM-MD5") KNone
  else if m ==s js "APOP" then ask CrApop
  else if m ==s js "GSSAPI" then
    auth_call initGssapiAuth >>
    (let! t := catch (bind (auth_call (getNextGssapiToken [])) (λ t, ret (Some t))) (ret None) in
     match t with
     | Some t => next (NAuthGssapi t) >> _send (js "AUTH GSSAPI") KNone
     | None => error (js "pop3GssapiFailure")
     end)
  else if m ==s js "NTLM" then
    auth_call initNtlmAuth >>
    (let! t := catch (bind (auth_call (getNextNtlmToken [])) (λ t, ret (Some t))) (ret None) in
     match t with
     | Some t => next (NAuthNtlm t) >> _send (js "AUTH NTLM") KNone
     | None => _actionDone NS_ERROR_FAILURE
     end)
  else if m ==s js "XOAUTH2" then next NAuthXoauth >> _send (js "AUTH XOAUTH2") KNone
  else _actionDone NS_OK.

Definition _actionAuth : act unit :=
  async
    (let! c := gets id in
     match _nextAuthMethod c with
     | None => _actionDone NS_ERROR_FAILURE
     | Some m =>
         if _destroyed c then connect
         else
           (this, _authenticating := true) >>
           (this, _currentAuthMethod := Some m) >>
           (this, _nextAuthMethod := next_method (_possibleAuthMethods c) m) >>
           next NAuthResponse >>
           start_method m
     end).

Definition starttls_required : bool :=
  bool_decide (socketType srv = trySTARTTLS ∨ socketType srv = alwaysSTARTTLS_).

(** The methods to try when none of the preferred ones is announced. *)
Definition fallback_methods (c : Pop3Client A Sk) : list jsstr :=
  match authMethod srv with
  | passwordCleartext => [js "USERPASS"]
  | passwordEncrypted => [if str_truthy (default [] (_apopTimestamp c)) then js "APOP" else js "CRAM-MD5"]
  | auth_GSSAPI => [js "GSSAPI"]
  | auth_NTLM => [js "NTLM"]
  | auth_OAuth2 => [js "XOAUTH2"]
  | _ => []
  end.

(** The hint when no method can be tried. *)
Definition auth_hint (c : Pop3Client A Sk) : jsstr :=
  if bool_decide (authMethod srv = passwordCleartext)
     && list_has (_supportedAuthMethods c) (js "CRAM-MD5")
  then js "pop3AuthChangePlainToEncrypt"
  else if bool_decide (authMethod srv = passwordEncrypted)
          && (list_has (_supportedAuthMethods c) (js "PLAIN")
              || list_has (_supportedAuthMethods c) (js "LOGIN"))
  then if _secureTransport c then js "pop3AuthChangeEncryptToPlainSSL"
       else js "pop3AuthChangeEncryptToPlainNoSSL"
  else js "pop3AuthMechNotSupported".

Definition _actionChooseFirstAuthMethod : act unit :=
  let! c := gets id in
  if starttls_required && negb (_secureTransport c) then
    if list_has (_capabilities c) (js "STLS")
    then next NStls >> _send (js "STLS") KNone
    else error (js "nsErrorCouldNotConnectViaTls")
  else
    let possible := filter (λ x, x ∈ _supportedAuthMethods c) (_preferredAuthMethods c) in
    let possible := match possible with [] => fallback_methods c | _ => possible end in
    (this, _possibleAuthMethods := possible) >>
    (this, _nextAuthMethod := match _nextAuthMethod c with Some m => Some m | None => head possible end) >>
    (let! c := gets id in
     match _nextAuthMethod c with
     | Some _ => _updateStatus (js "hostContact") >> _actionAuth
     | None => error (auth_hint c)
     end).

(** One line of the response to CAPA. *)
Definition capa_line (line : jsstr) : act unit :=
  let line := toUpperCase (trim line) in
  if line ==s js "USER" then this, _supportedAuthMethods ::= λ l, l ++ [js "USERPASS"]
  else if startsWith line (js "SASL ") then
    this, _supportedAuthMethods ::= λ l, l ++ split_on SP (slice_from line 5)
  else this, _capabilities ::= λ l, l ++ [default [] (head (split_on SP line))].

(** A negative status line. *)
Definition failed (res : response) : bool :=
  str_truthy (default [] (r_status res)) && negb (success res).

Definition _actionCapaResponse (res : response) : act unit :=
  if failed res then _actionChooseFirstAuthMethod
  else read_lines (data res) capa_line _actionChooseFirstAuthMethod.

Definition _actionStlsResponse (res : response) : act unit :=
  if negb (success res) then _actionDone NS_ERROR_FAILURE
  else
    (let! c := gets id in
     match _socket c with
     | Some s => (this, _socket := Some (mkSocket (readyState s) true (listening s))) >>
                 emit UpgradeToSecure
     | None => throw
     end) >>
    (this, _secureTransport := true) >> _actionCapa.

Definition _actionStat : act unit := next NStat >> _send (js "STAT") KNone.

Definition password_methods : list jsstr := [js "USERPASS"; js "PLAIN"; js "LOGIN"; js "CRAM-MD5"].

Definition _actionAuthResponse (res : response) : act unit :=
  (this, _authenticating := false) >>
  (let! c := gets id in
   if success res then
     match _actionAfterAuth c with AfterStat => _actionStat | AfterDone => _actionDone NS_OK end
   else match _nextAuthMethod c with
   | Some _ => _actionAuth
   | None =>
       if _verifyLogon c then _actionDone NS_ERROR_FAILURE
       else
         let m := default [] (_currentAuthMethod c) in
         if list_has password_methods m then
           _actionError (js "pop3PasswordFailed") [server_username srv] (statusText res) >>
           (let! choice := auth_call (λ a, let '(a', n) := promptAuthFailed a in (a', Some n)) in
            if choice =? 1 then _actionDone NS_ERROR_FAILURE
            else
              when (choice =? 2) (auth_call (λ a, (forgetPassword a, Some tt))) >>
              modify (λ c, c <| _nextAuthMethod := head (_possibleAuthMethods c) |>) >>
              _actionAuth)
         else if m ==s js "GSSAPI" then error_said (js "pop3GssapiFailure") res
         else if m ==s js "XOAUTH2" then
           emit (AlertUser (js "oAuth2Error")) >> _actionDone NS_ERROR_FAILURE
         else skip
   end).

(** The second steps ask for the credential. *)
Definition second_step (k : credential) (res : response) : act unit :=
  if negb (success res) then error_said (js "pop3UsernameFailure") res
  else next NAuthResponse >> ask k.

Definition _actionAuthUserPass (res : response) : act unit := second_step CrUserPass res.
Definition _actionAuthPlain (res : response) : act unit := second_step CrPlain res.
Definition _actionAuthLoginPass (res : response) : act unit := second_step CrLogin res.
Definition _actionAuthCramMd5 (res : response) : act unit :=
  second_step (CrCramMd5 (default undefined_str (statusText res))) res.

(** [btoa], which throws on characters above 255. *)
Definition btoa_or_throw (s : jsstr) : act jsstr :=
  if forallb (λ c, c <? 256) s then ret (btoa s) else throw.

Definition _actionAuthLoginUser : act unit :=
  async
    (next NAuthLoginPass >>
     (let! c := gets id in
      let! u := btoa_or_throw (username (_authenticator c)) in _send u KNone)).

(** GSSAPI and NTLM: the first token, then those that answer the challenges. *)
Definition token_step (again : nextAction) (token : jsstr → A → A * option jsstr)
    (firstToken : jsstr) (res : response) : act unit :=
  if negb (bool_decide (r_status res = Some (js "+"))) then _actionAuthResponse res
  else if str_truthy firstToken then next again >> _send firstToken KNone
  else
    let! t := catch (bind (auth_call (token (default undefined_str (statusText res))))
                       (λ t, ret (Some t))) (ret None) in
    match t with
    | Some t => _send t KNone
    | None => _actionAuthResponse (mkResponse None false None (js "AUTH"))
    end.

Definition _actionAuthGssapi (firstToken : jsstr) (res : response) : act unit :=
  token_step (NAuthGssapi []) getNextGssapiToken firstToken res.
Definition _actionAuthNtlm (firstToken : jsstr) (res : response) : act unit :=
  token_step (NAuthNtlm []) getNextNtlmToken firstToken res.

Definition _actionAuthXoauth (res : response) : act unit :=
  if negb (bool_decide (r_status res = Some (js "+"))) then _actionAuthResponse res
  else next NAuthResponse >> ask CrXoauth.

(** [/^[\x00-\xFF]+$/.test(password)]. *)
Definition is_latin1 (s : jsstr) : bool := str_truthy s && forallb (λ c, c <? 256) s.

(** What follows the await for a credential; the answer is the password, or the
    token for PLAIN and XOAUTH2. *)
Definition credential_arrived (k : credential) (answer : jsstr) : act unit :=
  async
    match k with
    | CrUserPass => _send (js "PASS " ++ answer) KNone
    | CrPlain | CrXoauth => _send answer KNone
    | CrLogin =>
        let pw := if negb (pref_login_latin1 ev) || negb (is_latin1 answer)
                  then utf8 ev answer else answer in
        let! b := btoa_or_throw pw in _send b KNone
    | CrCramMd5 challenge =>
        let! t := auth_call (getCramMd5Token answer challenge) in _send t KNone
    | CrApop =>
        let! c := gets id in
        _send (js "APOP " ++ username (_authenticator c) ++ [SP]
               ++ md5_hex ev (default undefined_str (_apopTimestamp c) ++ answer)) KNone
    end.

(** ** Messages *)

Definition _actionTop : act unit :=
  let! c := gets id in
  next NTop >>
  _send (js "TOP " ++ default undefined_str (_currentMessage c ≫= messageNumber) ++ [SP]
         ++ num_str (if headersOnly srv then 0 else 20)) KReceiving.

Definition _actionRetr : act unit :=
  let! c := gets id in
  next NRetr >>
  _send (js "RETR " ++ default undefined_str (_currentMessage c ≫= messageNumber)) KReceiving.

Definition _actionDelete : act unit :=
  let! c := gets id in
  next NDelete >>
  _send (js "DELE " ++ default undefined_str (_currentMessage c ≫= messageNumber)) KNone.

Definition status_is (m : message) (s : jsstr) : bool := bool_decide (status m = Some s).

(** Whether popstate.dat is to be written before the next message. *)
Definition time_to_save (c : Pop3Client A Sk) : bool :=
  let n := length (_messagesToHandle c) in
  (0 <? n)%nat && (n mod 20 =? 0)%nat && negb (_writeUidlPromise c).

Definition finish_delivery : act unit :=
  let! c := gets id in
  emit (SetBiffState (match _messagesToDownload c with
                      | Some l => Z.of_nat (length l)
                      | None => Z.of_nat (length (_messageSizeMap c))
                      end) false) >>
  (let! e := sink_call endMailDelivery in
   match e with
   | Some status => _actionDone (if is_ok status then NS_ERROR_FAILURE else status)
   | None => (this, _folderLocked := false) >> _actionDone NS_OK
   end).

Definition _actionHandleMessage : act unit :=
  modify (λ c, c <| _currentMessage := head (_messagesToHandle c) |>
                 <| _messagesToHandle := tail (_messagesToHandle c) |>) >>
  (let! c := gets id in
   let! saved := if time_to_save c then _writeUidlState false else ret true in
   if negb saved then _actionDone NS_ERROR_FAILURE
   else match _currentMessage c with
   | Some m =>
       if status_is m UIDL_TOO_BIG then (if _topFailed c then _actionRetr else _actionTop)
       else if status_is m UIDL_FETCH_BODY then _actionRetr
       else if status_is m UIDL_DELETE then _actionDelete
       else skip
   | None => finish_delivery
   end).

(** *** STAT and LIST *)

Definition _actionList : act unit :=
  (this, _messageSizeMap := []) >> next NList >> _send (js "LIST") KNone.

Definition _actionStatResponse (res : response) : act unit :=
  if negb (success res) then error_said (js "pop3StatFail") res
  else
    let! c := gets id in
    let n := parseInt (default undefined_str (statusText res)) in
    if negb (num_truthy n) then
      when (0 <? length (_uidlMap c))%nat ((this, _uidlMap := []) >> (this, _uidlMapChanged := true)) >>
      emit NotifyDownloadCompleted >> _actionDone NS_OK
    else if negb (_downloadMail c) && negb (leaveMessagesOnServer srv) then
      emit (SetBiffState (default 0 n) true) >> _actionDone NS_OK
    else if _downloadMail c then
      let! d := sink_call (beginMailDelivery (_singleUidlToDownload c)) in
      match d with
      | DeliveryOk => (this, _folderLocked := true) >> _actionList
      | DeliveryBusy => error (js "pop3ServerBusy")
      | DeliveryFailed => error (js "pop3MessageWriteError")
      end
    else _actionList.

Definition _actionUidl : act unit :=
  (this, _messagesToHandle := []) >> (this, _newUidlMap := []) >> next NUidl >>
  _send (js "UIDL") KNone.

(** One line of the response to LIST. *)
Definition list_line (line : jsstr) : act unit :=
  let l := split_on SP line in
  modify (λ c, c <| _messageSizeMap :=
    mset (_messageSizeMap c) (default undefined_str (l !! 0%nat))
         (match l !! 1%nat with Some s => toNumber s | None => None end) |>) >>
  _sendNoopIfInactive.

Definition _actionListResponse (res : response) : act unit :=
  if failed res then error_said (js "pop3ListFailure") res
  else read_lines (data res) list_line _actionUidl.

(** *** UIDL *)

(** [uidlState.receivedAt < this._cutOffTimestamp]. *)
Definition older (e : message) (cutOff : Z) : bool :=
  match receivedAt e with
  | Some r => match toNumber r with Some n => n * 1000 <? cutOff | None => false end
  | None => false
  end.

(** [this._messageSizeMap.get(messageNumber)]. *)
Definition size_of (c : Pop3Client A Sk) (number : jsstr) : num :=
  match mget (_messageSizeMap c) number with Some n => n | None => None end.

Definition too_big (c : Pop3Client A Sk) (number : jsstr) : bool :=
  match size_of c number, _maxMessageSize c with
  | Some n, Some m => m <? n
  | _, _ => false
  end.

(** What is to be done with the message of a line of the response: it is to be
    handled, or it is known and left alone. *)
Definition classify (c : Pop3Client A Sk) (number u : jsstr) : message + message :=
  match mget (_uidlMap c) (Some u) with
  | Some e =>
      if status_is e UIDL_KEEP
         && (negb (leaveMessagesOnServer srv) || older e (_cutOffTimestamp c))
      then inl (mkMessage (uidl e) (Some UIDL_DELETE) (receivedAt e) (Some number))
      else if status_is e UIDL_FETCH_BODY || status_is e UIDL_DELETE
      then inl (mkMessage (uidl e) (status e) (receivedAt e) (Some number))
      else inr e
  | None =>
      inl (mkMessage (Some u)
             (Some (if headersOnly srv || too_big c number then UIDL_TOO_BIG else UIDL_FETCH_BODY))
             None (Some number))
  end.

(** Whether the message counts as new. *)
Definition counts_as_new (c : Pop3Client A Sk) (u : jsstr) (m : message) : bool :=
  match mget (_uidlMap c) (Some u) with
  | Some e => negb (status_is e UIDL_KEEP
                    && (negb (leaveMessagesOnServer srv) || older e (_cutOffTimestamp c)))
  | None => true
  end.

Definition uidl_line (line : jsstr) : act unit :=
  let l := split_on SP line in
  match l !! 1%nat with
  | None => throw                      (* undefined.trim() *)
  | Some u =>
      let u := trim u in
      (let! c := gets id in
       match classify c (default [] (l !! 0%nat)) u with
       | inl m =>
           when (counts_as_new c u m) (this, _newMessageTotal := _newMessageTotal c + 1) >>
           (this, _messagesToHandle ::= λ q, q ++ [m])
       | inr e => this, _newUidlMap ::= λ n, mset n (Some u) e
       end) >>
      _sendNoopIfInactive
  end.

Definition is_download (m : message) : bool := status_is m UIDL_FETCH_BODY || status_is m UIDL_TOO_BIG.

(** The end of the response to UIDL. *)
Definition uidl_done : act unit :=
  let! c := gets id in
  if negb (_downloadMail c) then
    let n := length (filter (λ m, negb (str_truthy (default [] (receivedAt m)))) (_messagesToHandle c)) in
    when (0 <? n)%nat (emit (SetBiffState (Z.of_nat n) true)) >> _actionDone NS_OK
  else
    match _singleUidlToDownload c with
    | Some u =>
        (this, _messagesToHandle := filter (λ m, uidl m = Some u) (_messagesToHandle c)) >>
        (this, _newUidlMap := _uidlMap c)
    | None => skip
    end >>
    (let! c := gets id in
     let l := filter (λ m, is_download m) (_messagesToHandle c) in
     let total := fold_left (λ acc m,
       nadd acc (size_of c (default undefined_str (messageNumber m)))) l (Some 0) in
     (this, _messagesToDownload := Some l) >>
     (this, _totalDownloadSize := total) >>
     (this, _totalReceivedSize := 0) >>
     if warnIfLocalFileTooBig total (_sink c) then _actionDone NS_ERROR_FAILURE
     else
       (this, _uidlMapChanged := negb (length (_uidlMap c) =? length (_newUidlMap c))%nat
                                 || negb (length (_messagesToHandle c) =? 0)%nat) >>
       (this, _uidlMap := _newUidlMap c) >>
       emit (SetMsgsToDownload (Z.of_nat (length l))) >>
       _actionHandleMessage).

Definition _actionNoUidl : act unit :=
  let! c := gets id in
  if list_has (_capabilities c) (js "UIDL") then error (js "pop3TempServerError")
  else if leaveMessagesOnServer srv || headersOnly srv || limitOfflineMessageSize srv
          || str_truthy (default [] (_singleUidlToDownload c))
  then error (js "pop3ServerDoesNotSupportUidlEtc")
  else
    (this, _messagesToHandle ::= λ q, q ++
       map (λ kv, mkMessage None (Some UIDL_FETCH_BODY) None (Some kv.1)) (_messageSizeMap c)) >>
    _actionHandleMessage.

Definition _actionUidlResponse (res : response) : act unit :=
  if failed res then _actionNoUidl else read_lines (data res) uidl_line uidl_done.

(** *** TOP, RETR and DELE *)

(** The line with the line end of the system. *)
Definition native_line (line : jsstr) : jsstr := slice line 0 (-2) ++ _lineSeparator.

(** Remembers a message that was received. *)
Definition remember (st : jsstr) : act unit :=
  modify (λ c,
    let u := _currentMessage c ≫= uidl in
    c <| _uidlMap := mset (_uidlMap c) u
           (mkMessage u (Some st) (Some (num_str (now c / 1000))) None) |>
      <| _uidlMapChanged := true |>).

Definition state_is (c : Pop3Client A Sk) (s : jsstr) : bool :=
  match mget (_uidlMap c) (_currentMessage c ≫= uidl) with
  | Some e => status_is e s
  | None => false
  end.

Definition top_line (line : jsstr) : act unit :=
  let! ok := sink_call (incorporateWrite (native_line line)) in
  if ok : bool then _sendNoopIfInactive
  else error (js "pop3MessageWriteError") >> sink_call (λ s, (incorporateAbort s, tt)) >> throw.

Definition top_done : act unit :=
  let! c := gets id in
  let! ok := sink_call (incorporateComplete
    (size_of c (default undefined_str (_currentMessage c ≫= messageNumber)))) in
  if negb ok then error (js "pop3MessageWriteError")
  else if state_is c UIDL_FETCH_BODY then _actionRetr
  else if state_is c UIDL_DELETE then _actionDelete
  else remember UIDL_TOO_BIG >> _actionHandleMessage.

Definition _actionTopResponse (res : response) : act unit :=
  let! c := gets id in
  if str_truthy (default [] (r_status res)) then
    if success res then
      let! ok := sink_call (incorporateBegin (_currentMessage c ≫= uidl) true) in
      if negb ok then error (js "pop3MessageWriteError")
      else read_lines (data res) top_line top_done
    else (this, _topFailed := true) >> _actionRetr
  else read_lines (data res) top_line top_done.

Definition retr_line (line : jsstr) : act unit :=
  let! ok := sink_call (incorporateWrite (native_line line)) in
  if ok : bool then _sendNoopIfInactive
  else error (js "pop3MessageWriteError") >> throw.

Definition retr_done : act unit :=
  (this, _totalReceivedSize ::= λ n, n - 3) >>
  (let! ok := sink_call (incorporateComplete (Some 0)) in
   let! c := gets id in
   if negb ok then error (js "pop3MessageWriteError")
   else if leaveMessagesOnServer srv then
     if state_is c UIDL_DELETE then _actionDelete
     else remember UIDL_KEEP >> _actionHandleMessage
   else _actionDelete).

(** The reading of a response to RETR, and the count of what was received. *)
Definition retr_read (res : response) : act unit :=
  read_lines (data res) retr_line retr_done >>
  (this, _totalReceivedSize ::= λ n, n + slen (data res)).

Definition _actionRetrResponse (res : response) : act unit :=
  let! c := gets id in
  if str_truthy (default [] (r_status res)) then
    if negb (success res) then error_said (js "pop3RetrFailure") res
    else
      let! ok := sink_call (incorporateBegin (_currentMessage c ≫= uidl) false) in
      if negb ok then error (js "pop3MessageWriteError") else retr_read res
  else retr_read res.

Definition _actionDeleteResponse (res : response) : act unit :=
  if negb (success res) then error_said (js "pop3DeleFailure") res else _actionHandleMessage.

(** ** The socket's events *)

Definition run_next (n : nextAction) (res : response) : act unit :=
  match n with
  | NGreeting => on_greeting res
  | NCapa => _actionCapaResponse res
  | NStls => _actionStlsResponse res
  | NAuthResponse => _actionAuthResponse res
  | NAuthUserPass => _actionAuthUserPass res
  | NAuthPlain => _actionAuthPlain res
  | NAuthLoginUser => _actionAuthLoginUser
  | NAuthLoginPass => _actionAuthLoginPass res
  | NAuthCramMd5 => _actionAuthCramMd5 res
  | NAuthGssapi t => _actionAuthGssapi t res
  | NAuthNtlm t => _actionAuthNtlm t res
  | NAuthXoauth => _actionAuthXoauth res
  | NStat => _actionStatResponse res
  | NList => _actionListResponse res
  | NUidl => _actionUidlResponse res
  | NTop => _actionTopResponse res
  | NRetr => _actionRetrResponse res
  | NDelete => _actionDeleteResponse res
  | NClose => close
  | NCleanUp st => _cleanUp st
  end.

Definition _parse (str : jsstr) : act response :=
  gets (λ c, parse_response (receivingMultiLineResponse (_lineReader c)) str).

(** The data handler; the handler the socket has may be the empty one. *)
Definition _onData (payload : jsstr) : act unit :=
  let! c := gets id in
  when (match _socket c with Some s => listening s | None => false end)
    (let payload := _pendingPayload c ++ payload in
     if includes payload [LF] then
       (this, _pendingPayload := []) >>
       if _noopRespPending c then this, _noopRespPending := false
       else
         let! res := _parse payload in
         let! n := gets _nextAction in
         match n with Some n => run_next n res | None => skip end
     else this, _pendingPayload := payload).

Definition error_message (code : nsresult) : option jsstr :=
  match code with
  | NS_ERROR_UNKNOWN_HOST | NS_ERROR_UNKNOWN_PROXY_HOST => Some (js "unknownHostError")
  | NS_ERROR_CONNECTION_REFUSED | NS_ERROR_PROXY_CONNECTION_REFUSED =>
      Some (js "connectionRefusedError")
  | NS_ERROR_NET_TIMEOUT => Some (js "netTimeoutError")
  | NS_ERROR_NET_RESET => Some (js "netResetError")
  | NS_ERROR_NET_INTERRUPT => Some (js "netInterruptError")
  | _ => None
  end.

Definition _onError (code : nsresult) (secInfo : bool) : act unit :=
  (this, serverBusy := false) >>
  match error_message code with Some m => emit (AlertUser m) | None => skip end >>
  quit None >>
  when secInfo (emit (OnStopRunningUrl code) >> (this, urlRunning := false)) >>
  _actionDone code.

(** The close event of the current socket; that of a socket which [connect] has
    replaced meanwhile is not an input of the model. *)
Definition _onClose : act unit :=
  modify (λ c, c <| _socket := match _socket c with
                               | Some s => Some (mkSocket Closed (ssl s) (listening s))
                               | None => None
                               end |>) >>
  (this, serverBusy := false) >> (this, _destroyed := true) >>
  (let! a := gets _authenticating in
   if a then _actionAuthResponse (mkResponse None false None []) else _actionDone NS_OK).

(** ** The callers *)

Definition getMail (downloadMail msgWindow : bool) : act unit :=
  (this, _downloadMail := downloadMail) >> (this, _msgWindow := msgWindow) >>
  (this, _actionAfterAuth := AfterStat) >> emit OnStartRunningUrl >>
  _loadUidlState >> _actionCapa.

Definition verifyLogon (msgWindow : bool) : act unit :=
  (this, _msgWindow := msgWindow) >> (this, _verifyLogon := true) >>
  (this, _actionAfterAuth := AfterDone) >> _actionCapa.

Definition fetchBodyForUidl (sink : Sk) (u : jsstr) : act unit :=
  (this, _downloadMail := true) >> (this, _sink := sink) >> emit OnStartRunningUrl >>
  _loadUidlState >>
  (let! c := gets id in
   match mget (_uidlMap c) (Some u) with
   | None =>
       let! d := sink_call (beginMailDelivery None) in
       match d with
       | DeliveryOk =>
           (this, _folderLocked := true) >>
           (let! ok := sink_call (incorporateBegin (Some u) false) in
            if ok : bool then _actionDone NS_ERROR_FAILURE else error (js "pop3MessageWriteError"))
       | _ => error (js "pop3MessageWriteError")
       end
   | Some e =>
       if negb (status_is e UIDL_TOO_BIG) then _actionDone NS_ERROR_FAILURE
       else
         (this, _singleUidlToDownload := Some u) >>
         (this, _uidlMap := mset (_uidlMap c) (Some u)
            (mkMessage (uidl e) (Some UIDL_FETCH_BODY) (receivedAt e) (messageNumber e))) >>
         (this, _actionAfterAuth := AfterStat) >> _actionCapa
   end).

(** [{...uidlState, status}], where there may be no state. *)
Definition mark_message (us : jsstr * jsstr) : act unit :=
  modify (λ c,
    let e := default (mkMessage None None None None) (mget (_uidlMap c) (Some us.1)) in
    c <| _uidlMap := mset (_uidlMap c) (Some us.1)
           (mkMessage (uidl e) (Some us.2) (receivedAt e) (messageNumber e)) |>
      <| _uidlMapChanged := true |>).

(** [loaded] tells whether [_uidlMap] is defined. *)
Definition markMessages (loaded : bool) (l : list (jsstr * jsstr)) : act unit :=
  when (negb loaded) _loadUidlState >> for_each l mark_message >>
  (let! _w := _writeUidlState true in skip).

Definition checkMessage (c : Pop3Client A Sk) (u : jsstr) : bool := mhas (_uidlMap c) (Some u).

(** ** The inputs of the client *)

Inductive input :=
  | IConnect | IGetMail (downloadMail msgWindow : bool) | IVerifyLogon (msgWindow : bool)
  | IFetchBody (sink : Sk) (u : jsstr) | IMarkMessages (loaded : bool) (l : list (jsstr * jsstr))
  | IQuit
  | IOpen | IData (payload : jsstr) | IError (code : nsresult) (secInfo : bool) | ISocketClosed
  | INoopWaitOver | ICleanupTimer | ICredential (k : credential) (answer : jsstr)
  | ITime (t : Z).

Definition handle (i : input) : act unit :=
  match i with
  | IConnect => connect
  | IGetMail d w => getMail d w
  | IVerifyLogon w => verifyLogon w
  | IFetchBody s u => fetchBodyForUidl s u
  | IMarkMessages b l => markMessages b l
  | IQuit => quit None
  | IOpen => _onOpen
  | IData p => _onData p
  | IError code i => _onError code i
  | ISocketClosed => _onClose
  | INoopWaitOver => noop_wait_over
  | ICleanupTimer => cleanup_timer_fired
  | ICredential k a => credential_arrived k a
  | ITime t => this, now := t
  end.

Definition run (inputs : list input) : act unit := for_each inputs (λ i, async (handle i)).
End Methods.

Lemma pop3_run_cons {A Sk : Type} `{Pop3Auth A} `{Pop3Sink Sk} srv ev (i : @input Sk) inputs
    (c : Pop3Client A Sk) :
  run srv ev (i :: inputs) c
  = let '(c1, o1, _) := handle srv ev i c in
    let '(c2, o2, r) := run srv ev inputs c1 in (c2, o1 ++ o2, r).
Proof.
  unfold run. cbn [for_each]. unfold bind, async, catch, skip, ret.
  destruct (handle srv ev i c) as [[c1 o1] [[]|]]; [done|]. by rewrite app_nil_r.
Qed.

(** ** Instances *)

(** A user with a password that is right. *)
#[export] Instance fixedPop3Auth : Pop3Auth unit := {|
  username := λ _, js "user";
  getCramMd5Token := λ p c a, (a, Some (p ++ c));
  initGssapiAuth := λ a, (a, Some tt);
  initNtlmAuth := λ a, (a, Some tt);
  getNextGssapiToken := λ _ a, (a, Some []);
  getNextNtlmToken := λ _ a, (a, Some []);
  promptAuthFailed := λ a, (a, 0);
  forgetPassword := λ a, a
|}.

(** A sink that keeps what it is given. *)
Inductive sinkCall :=
  | SBegin (u : option jsstr) (partial : bool) | SWrite (l : jsstr) | SComplete | SAbort.
#[export] Instance sinkCall_eq : EqDecision sinkCall.
Proof. solve_decision. Defined.

#[export] Instance recordingSink : Pop3Sink (list sinkCall) := {|
  beginMailDelivery := λ _ s, (s, DeliveryOk);
  incorporateBegin := λ u p s, (s ++ [SBegin u p], true);
  incorporateWrite := λ l s, (s ++ [SWrite l], true);
  incorporateComplete := λ _ s, (s ++ [SComplete], true);
  incorporateAbort := λ s, s ++ [SAbort];
  endMailDelivery := λ s, (s, None);
  abortMailDelivery := λ s, s;
  warnIfLocalFileTooBig := λ _ _, false
|}.

Definition samplePop3Env : env := mkEnv false (λ s, s) (λ s, s) (λ _, true) (λ _ f, f).

Definition samplePop3Server (t : nsMsgSocketType) (leave : bool) : Pop3Server :=
  mkPop3Server (js "pop.example.org") 110 t passwordCleartext (js "user") leave false false 0
    false 0.

(** A session up to the response to UIDL; two messages, the first one known. *)
Definition line_in (s : jsstr) : @input (list sinkCall) := IData (s ++ CRLF).
Definition lines_in (ls : list jsstr) : @input (list sinkCall) := IData (js "+OK" ++ CRLF ++ encode ls).

Definition sampleLogin : list (@input (list sinkCall)) :=
  [IConnect; IOpen; line_in (js "+OK hi"); IGetMail true true;
   lines_in [js "STLS"; js "UIDL"]; line_in (js "+OK");
   lines_in [js "USER"; js "UIDL"]; line_in (js "+OK"); ICredential CrUserPass (js "pw");
   line_in (js "+OK"); line_in (js "+OK 2 300"); lines_in [js "1 100"; js "2 200"]].

Definition sampleListing : list (jsstr * jsstr) := [(js "1", js "A"); (js "2", js "B")].

(** [A] was received at 17 and is to be deleted. *)
Definition sampleState : jsstr :=
  uidl_state_content (js "pop.example.org") (js "user")
    [(Some (js "A"), state_of (js "A") UIDL_DELETE (js "17"))].

Definition samplePop3Client (srv : Pop3Server) (inputs : list (@input (list sinkCall))) :
    Pop3Client unit (list sinkCall) :=
  (run srv samplePop3Env inputs (newPop3Client srv tt [] 5000 (Some sampleState))).1.1.
