(* ===== verification/Pop3Safety.v ===== *)
(** * Pop3Safety: nothing in clear when the POP3 server requires STARTTLS

    The invariant of Pop3Client.v behind STARTTLS: with a server whose socket
    type requires it, the client sends CAPA, STLS and QUIT, and nothing else, on
    a connection that is not secure; and the ways around it that the code
    leaves open, a credential that arrives after the connection it was asked
    for, and the authentication methods announced in clear. *)

From S2P Require Import Prelude Effects Net LineReader ReadLines MimeUtils Pop3State Pop3Client.

Section Safety.
Context {A Sk : Type} `{Pop3Auth A} `{Pop3Sink Sk}.
Variable srv : Pop3Server.
Variable ev : env.
Abbreviation client := (Pop3Client A Sk).
Abbreviation act := (eff client event).

(** ** The invariants *)

(** The connection is open and not secure. *)
Definition cleartext (c : client) : Prop :=
  match _socket c with Some s => readyState s = Open ∧ ssl s = false | None => False end.
#[export] Instance cleartext_dec (c : client) : Decision (cleartext c).
Proof. unfold cleartext. destruct (_socket c); apply _. Defined.

(** The actions that lead to STLS, or close. *)
Definition early (a : option nextAction) : Prop :=
  match a with
  | None | Some (NGreeting | NCapa | NStls | NClose | NCleanUp _) => True
  | _ => False
  end.

(** What is sent in clear. *)
Definition early_command (str : jsstr) : Prop := str ∈ [js "CAPA"; js "STLS"; js "QUIT"].

Definition clear_ok (e : event) : Prop :=
  match e with Send false d => ∃ str, early_command str ∧ d = str ++ CRLF | _ => True end.

(** The client knows whether its socket is secure. *)
Definition base (c : client) : Prop :=
  _secureTransport c = true → ∀ s, _socket c = Some s → ssl s = true.

(** [J]: the connection is not in clear.  [I]: when it is, the action is an
    early one. *)
Definition J (c : client) : Prop := base c ∧ ¬ cleartext c.
Definition I (c : client) : Prop := base c ∧ (cleartext c → early (_nextAction c)).

Lemma nc_ok c : J c → I c.
Proof. intros [H1 H2]. by split. Qed.

Lemma ok_nc c : I c → ¬ cleartext c → J c.
Proof. intros [H1 _] H2. by split. Qed.

Hypothesis required : starttls_required srv = true.

(** ** The methods, on a connection that is not in clear *)

Lemma socket_send_nc d : safe_from J clear_ok (socket_send d : act unit).
Proof.
  apply safe_bind_gets. intros c HJ. unfold id. destruct (_socket c) as [s|] eqn:Es; [|by split].
  case_bool_decide as Hr; [|by split]. rewrite emit_run. split; [done|].
  apply Forall_singleton. destruct (ssl s) eqn:El; [done|]. destruct HJ as [_ HJ].
  destruct HJ. unfold cleartext. by rewrite Es.
Qed.

Lemma sink_call_safe {X} (P : client → Prop) Ev (f : Sk → Sk * X) :
  (∀ c s, P c → P (c <| _sink := s |>)) → safe_from P Ev (sink_call f : act X).
Proof.
  intros HP c Hc. unfold sink_call. destruct (f (_sink c)) as [s r]. split; [by apply HP|done].
Qed.

Lemma auth_call_safe {X} (P : client → Prop) Ev (f : A → A * option X) :
  (∀ c s, P c → P (c <| _authenticator := s |>)) → safe_from P Ev (auth_call f : act X).
Proof.
  intros HP c Hc. unfold auth_call. destruct (f (_authenticator c)) as [s r].
  split; [by apply HP|done].
Qed.

(** Connecting leaves the connection not in clear: it is not open yet. *)
Lemma connect_any : safe_to (λ _, True) clear_ok J (connect srv : act unit).
Proof.
  intros c _. unfold connect. rewrite bind_emit. rewrite !bind_modify, modify_run.
  split; [|by repeat constructor]. split; [|by unfold cleartext; cbn; intros [? _]].
  unfold base. cbn. by intros Hs s [= <-].
Qed.

Lemma connect_nc : safe_from J clear_ok (connect srv : act unit).
Proof. by eapply safe_to_weaken; [..|apply connect_any]. Qed.

(** So does closing. *)
Lemma close_ok : safe_to I clear_ok J (close : act unit).
Proof.
  apply safe_to_bind_gets. intros c [Hb Hc] c' [_ ->]. unfold id.
  destruct (_socket c) as [s|] eqn:Es.
  - rewrite bind_modify, emit_run. split; [|by repeat constructor]. split.
    + unfold base in *. cbn. rewrite Es in Hb. intros Hs s0 [= <-]. cbn. by apply Hb.
    + unfold cleartext. cbn. intros [Hr _]. destruct (bool_decide _) in Hr; discriminate Hr.
  - split; [|done]. split; [done|]. unfold cleartext. rewrite Es. tauto.
Qed.

Lemma close_nc : safe_from J clear_ok (close : act unit).
Proof. eapply safe_to_weaken; [apply nc_ok|done|apply close_ok]. Qed.

Ltac jsafe_with tac :=
  safe_walk ltac:(first
    [ tac | apply socket_send_nc | apply close_nc | apply connect_nc
    | apply sink_call_safe; intros ? ? Hc; exact Hc
    | apply auth_call_safe; intros ? ? Hc; exact Hc
    | apply read_lines_safe; [intros ? ? Hc; exact Hc| |] ]).
Ltac jsafe := jsafe_with fail.

Lemma continue_nc k : safe_from J clear_ok (continue k : act unit).
Proof. unfold continue, _updateStatus, next. jsafe. Qed.

Lemma send_nc str k : safe_from J clear_ok (_send str k : act unit).
Proof. unfold _send, now_send. jsafe_with ltac:(apply continue_nc). Qed.

Lemma noop_nc : safe_from J clear_ok (_sendNoopIfInactive : act unit).
Proof. unfold _sendNoopIfInactive, now_send. jsafe. Qed.

Lemma write_nc b : safe_from J clear_ok (_writeUidlState srv ev b : act bool).
Proof. unfold _writeUidlState. jsafe. Qed.

Lemma cleanUp_nc st : safe_from J clear_ok (_cleanUp st : act unit).
Proof. unfold _cleanUp. jsafe. Qed.

Lemma quit_nc n : safe_from J clear_ok (quit n : act unit).
Proof. unfold quit. jsafe_with ltac:(first [apply send_nc | apply cleanUp_nc]). Qed.

Lemma actionDone_nc st : safe_from J clear_ok (_actionDone srv ev st : act unit).
Proof.
  unfold _actionDone, _updateStatus. jsafe_with ltac:(first [apply quit_nc | apply write_nc]).
Qed.

Lemma actionError_nc n p s : safe_from J clear_ok (_actionError srv ev n p s : act unit).
Proof. unfold _actionError. jsafe_with ltac:(apply actionDone_nc). Qed.

Ltac handler_nc := jsafe_with ltac:(first
  [ apply send_nc | apply noop_nc | apply actionDone_nc | apply actionError_nc | apply write_nc
  | apply quit_nc | apply cleanUp_nc ]).

Lemma actionAuth_nc : safe_from J clear_ok (_actionAuth srv ev : act unit).
Proof. unfold _actionAuth, start_method, error, next, ask. handler_nc. Qed.

Lemma chooseFirst_nc : safe_from J clear_ok (_actionChooseFirstAuthMethod srv ev : act unit).
Proof.
  unfold _actionChooseFirstAuthMethod, error, next, _updateStatus.
  jsafe_with ltac:(first [apply actionAuth_nc | apply send_nc | apply actionError_nc]).
Qed.

Lemma handleMessage_nc : safe_from J clear_ok (_actionHandleMessage srv ev : act unit).
Proof.
  unfold _actionHandleMessage, finish_delivery, _actionTop, _actionRetr, _actionDelete, next.
  handler_nc.
Qed.

Lemma authResponse_nc res : safe_from J clear_ok (_actionAuthResponse srv ev res : act unit).
Proof.
  unfold _actionAuthResponse, _actionStat, error_said, next.
  jsafe_with ltac:(first [apply actionAuth_nc | apply send_nc | apply actionError_nc
                         | apply actionDone_nc]).
Qed.

Lemma actionCapa_nc : safe_from J clear_ok (_actionCapa : act unit).
Proof. unfold _actionCapa, next. handler_nc. Qed.

Lemma upgrade_safe (f : socket_t → client → client) :
  (∀ s c, ssl s = true → f s c = c <| _socket := Some s |>) →
  safe_to I clear_ok (λ c, J c ∧ ∀ s, _socket c = Some s → ssl s = true)
    (let! c := gets id in
     match _socket c with
     | Some s => modify (f (mkSocket (readyState s) true (listening s))) >> emit UpgradeToSecure
     | None => throw
     end : act unit).
Proof.
  intros Hf. apply safe_to_bind_gets. intros c [Hb Hc] c' [_ ->]. unfold id.
  destruct (_socket c) as [s|] eqn:Es.
  - rewrite bind_modify, emit_run, Hf by done. split; [|by repeat constructor].
    split; [|by cbn; intros s0 [= <-]]. split; [by intros _ s0 [= <-]|].
    unfold cleartext. cbn. by intros [_ ?].
  - split; [|done]. split; [|rewrite Es; done]. split; [done|]. unfold cleartext. rewrite Es. tauto.
Qed.

Lemma stlsResponse_ok res : safe_to I clear_ok J (_actionStlsResponse srv ev res : act unit) ∨
  success res = false.
Proof.
  unfold _actionStlsResponse. destruct (success res); [left|by right]. cbn [negb].
  eapply safe_to_bind.
  - by apply (upgrade_safe (λ s c, c <| _socket := Some s |>)).
  - by intros c [Hc _].
  - intros _. eapply safe_to_bind_modify with (R := J); [|apply actionCapa_nc].
    intros c [[_ Hc] Hs]. split; [|exact Hc]. intros _ s. apply Hs.
Qed.

Lemma capa_line_keeps (P : client → Prop) l :
  (∀ c s k, P c → P (c <| _supportedAuthMethods := s |> <| _capabilities := k |>)) →
  safe_from P clear_ok (capa_line l : act unit).
Proof.
  intros HP. unfold capa_line. js_case; apply safe_modify; intros c Hc.
  - exact (HP c _ (_capabilities c) Hc).
  - exact (HP c _ (_capabilities c) Hc).
  - exact (HP c (_supportedAuthMethods c) _ Hc).
Qed.

Lemma auth_steps_nc n res :
  match n with
  | NAuthResponse | NAuthUserPass | NAuthPlain | NAuthLoginUser | NAuthLoginPass
  | NAuthCramMd5 | NAuthGssapi _ | NAuthNtlm _ | NAuthXoauth => true | _ => false
  end = true → safe_from J clear_ok (run_next srv ev n res : act unit).
Proof.
  destruct n; intros Hn; try discriminate Hn; cbn [run_next];
    unfold _actionAuthUserPass, _actionAuthPlain, _actionAuthLoginPass, _actionAuthCramMd5,
      _actionAuthLoginUser, _actionAuthGssapi, _actionAuthNtlm, _actionAuthXoauth, second_step,
      token_step, btoa_or_throw, error_said, next, ask;
    jsafe_with ltac:(first [apply authResponse_nc | apply send_nc | apply actionError_nc]).
Qed.

Lemma list_line_nc l : safe_from J clear_ok (list_line l : act unit).
Proof. unfold list_line. handler_nc. Qed.

Lemma uidl_line_nc l : safe_from J clear_ok (uidl_line srv l : act unit).
Proof. unfold uidl_line. handler_nc. Qed.

Lemma uidl_done_nc : safe_from J clear_ok (uidl_done srv ev : act unit).
Proof.
  unfold uidl_done. jsafe_with ltac:(first [apply handleMessage_nc | apply actionDone_nc]).
Qed.

Lemma retr_nc : safe_from J clear_ok (_actionRetr : act unit).
Proof. unfold _actionRetr, next. handler_nc. Qed.

Lemma delete_nc : safe_from J clear_ok (_actionDelete : act unit).
Proof. unfold _actionDelete, next. handler_nc. Qed.

Ltac message_nc := jsafe_with ltac:(first
  [ apply handleMessage_nc | apply retr_nc | apply delete_nc | apply noop_nc | apply send_nc
  | apply actionDone_nc | apply actionError_nc ]).

Lemma transfer_nc :
  safe_from J clear_ok (top_done srv ev : act unit) ∧
  safe_from J clear_ok (retr_done srv ev : act unit) ∧
  (∀ l, safe_from J clear_ok (top_line srv ev l : act unit)) ∧
  (∀ l, safe_from J clear_ok (retr_line srv ev l : act unit)).
Proof.
  unfold top_done, retr_done, top_line, retr_line, error, remember. split_and!; message_nc.
Qed.

Lemma message_steps_nc n res :
  match n with NStat | NList | NUidl | NTop | NRetr | NDelete => true | _ => false end = true →
  safe_from J clear_ok (run_next srv ev n res : act unit).
Proof.
  destruct transfer_nc as (H1 & H2 & H3 & H4).
  destruct n; intros Hn; try discriminate Hn; cbn [run_next];
    unfold _actionStatResponse, _actionListResponse, _actionUidlResponse, _actionTopResponse,
      _actionRetrResponse, _actionDeleteResponse, retr_read, _actionList, _actionUidl,
      _actionNoUidl, error, error_said, next;
    jsafe_with ltac:(first
      [ apply H1 | apply H2 | apply H3 | apply H4 | apply list_line_nc | apply uidl_line_nc
      | apply uidl_done_nc | apply handleMessage_nc | apply retr_nc | apply send_nc
      | apply actionDone_nc | apply actionError_nc ]).
Qed.

Lemma run_next_nc n res : safe_from J clear_ok (run_next srv ev n res : act unit).
Proof.
  destruct n; try (by apply auth_steps_nc); try (by apply message_steps_nc); cbn [run_next].
  - unfold on_greeting. jsafe.
  - unfold _actionCapaResponse.
    jsafe_with ltac:(first [apply chooseFirst_nc | apply (capa_line_keeps J); intros ? ? ? Hc; exact Hc]).
  - destruct (stlsResponse_ok res) as [Hs|Hs].
    + eapply safe_to_weaken; [apply nc_ok|done|exact Hs].
    + unfold _actionStlsResponse. rewrite Hs. apply actionDone_nc.
  - apply close_nc.
  - apply cleanUp_nc.
Qed.

(** ** The early methods, in clear *)

Lemma modify_ok (f : client → client) :
  (∀ c, _socket (f c) = _socket c ∧ _secureTransport (f c) = _secureTransport c ∧
        (_nextAction (f c) = _nextAction c ∨ early (_nextAction (f c)))) →
  safe_from I clear_ok (modify f).
Proof.
  intros Hf. apply safe_modify. intros c [Hb Hc]. destruct (Hf c) as (H1 & H2 & H3).
  split; [unfold base; by rewrite H1, H2|]. unfold cleartext. rewrite H1. intros Hcl.
  destruct H3 as [-> | H3]; [by apply Hc|done].
Qed.

Ltac isafe_with tac :=
  safe_walk ltac:(first
    [ tac
    | solve [apply modify_ok; intros; split_and!; (reflexivity || (left; reflexivity) || (right; exact Logic.I))]
    | apply sink_call_safe; intros ? ? Hc; exact Hc
    | apply auth_call_safe; intros ? ? Hc; exact Hc
    | apply read_lines_safe; [intros ? ? Hc; exact Hc| |] ]).

Lemma connect_ok : safe_from I clear_ok (connect srv : act unit).
Proof. eapply safe_to_weaken; [..|apply connect_any]; [done|apply nc_ok]. Qed.

Lemma close_from_ok : safe_from I clear_ok (close : act unit).
Proof. eapply safe_to_weaken; [done|apply nc_ok|apply close_ok]. Qed.

Lemma socket_send_ok str : early_command str → safe_from I clear_ok (socket_send str : act unit).
Proof.
  intros He. apply safe_bind_gets. intros c Hc. unfold id.
  destruct (_socket c) as [s|]; [|by split]. case_bool_decide; [|by split].
  rewrite emit_run. split; [done|]. apply Forall_singleton. destruct (ssl s); [done|]. by exists str.
Qed.

Lemma continue_ok k : safe_from I clear_ok (continue k : act unit).
Proof. unfold continue, _updateStatus, next. isafe_with fail. Qed.

Lemma send_ok str k : early_command str → safe_from I clear_ok (_send str k : act unit).
Proof.
  intros He. unfold _send, now_send.
  isafe_with ltac:(first [apply continue_ok | by apply socket_send_ok]).
Qed.

Lemma early_CAPA : early_command (js "CAPA"). Proof. by left. Qed.
Lemma early_STLS : early_command (js "STLS"). Proof. right. by left. Qed.
Lemma early_QUIT : early_command (js "QUIT"). Proof. right. right. by left. Qed.

Lemma cleanUp_ok st : safe_from I clear_ok (_cleanUp st : act unit).
Proof. unfold _cleanUp. isafe_with ltac:(apply close_from_ok). Qed.

Lemma quit_ok n : safe_from I clear_ok (quit n : act unit).
Proof.
  unfold quit. isafe_with ltac:(first [apply send_ok, early_QUIT | apply cleanUp_ok]).
Qed.

Lemma actionDone_ok st : safe_from I clear_ok (_actionDone srv ev st : act unit).
Proof.
  unfold _actionDone, _updateStatus, _writeUidlState. isafe_with ltac:(apply quit_ok).
Qed.

Lemma actionError_ok n p s : safe_from I clear_ok (_actionError srv ev n p s : act unit).
Proof. unfold _actionError. isafe_with ltac:(apply actionDone_ok). Qed.

Lemma actionCapa_ok : safe_from I clear_ok (_actionCapa : act unit).
Proof. unfold _actionCapa, next. isafe_with ltac:(apply send_ok, early_CAPA). Qed.

Lemma insecure c : I c → cleartext c → _secureTransport c = false.
Proof.
  intros [Hb _] Hc. unfold cleartext in Hc. destruct (_socket c) as [s|] eqn:Es; [|done].
  destruct (_secureTransport c) eqn:E; [|done]. pose proof (Hb E s Es) as Hs.
  destruct Hc as [_ Hc]. by rewrite Hs in Hc.
Qed.

(** In clear, the choice of a method is STLS or an error. *)
Lemma chooseFirst_ok : safe_to I clear_ok I (_actionChooseFirstAuthMethod srv ev : act unit).
Proof.
  intros c0 Hc0. destruct (decide (cleartext c0)) as [Hc|Hc].
  - unfold _actionChooseFirstAuthMethod. rewrite bind_gets. unfold id.
    rewrite required, (insecure c0 Hc0 Hc). cbn [andb negb]. revert Hc0.
    enough (safe_from I clear_ok
      (if list_has (_capabilities c0) (js "STLS") then next NStls >> _send (js "STLS") KNone
       else error srv ev (js "nsErrorCouldNotConnectViaTls"))) as Hs by apply Hs.
    unfold next, error. js_case; [|apply actionError_ok].
    isafe_with ltac:(apply send_ok, early_STLS).
  - pose proof (chooseFirst_nc c0 (ok_nc _ Hc0 Hc)) as Hs.
    destruct (_actionChooseFirstAuthMethod srv ev c0) as [[c' o] r]. destruct Hs.
    split; [by apply nc_ok|done].
Qed.

Lemma run_early n res :
  early (Some n) → safe_to I clear_ok I (run_next srv ev n res : act unit).
Proof.
  destruct n; intros Hn; try done; cbn [run_next].
  - apply safe_to_from. unfold on_greeting. isafe_with fail.
  - unfold _actionCapaResponse. destruct (failed res); [apply chooseFirst_ok|].
    apply read_lines_safe_to; [intros ? ? Hc; exact Hc..|done| |apply chooseFirst_ok].
    intros l. apply capa_line_keeps. intros c s k Hc. exact Hc.
  - destruct (stlsResponse_ok res) as [Hs|Hs].
    + eapply safe_to_weaken; [done|apply nc_ok|exact Hs].
    + unfold _actionStlsResponse. rewrite Hs. apply actionDone_ok.
  - apply close_from_ok.
  - apply cleanUp_ok.
Qed.

Lemma onData_ok p : safe_to I clear_ok I (_onData srv ev p : act unit).
Proof.
  unfold _onData. apply safe_bind; [apply safe_gets|]. intros c. apply safe_when. intros _.
  destruct (includes _ _); [|isafe_with fail].
  apply safe_bind; [isafe_with fail|]. intros _. destruct (_noopRespPending c); [isafe_with fail|].
  apply safe_bind; [apply safe_gets|]. intros res. apply safe_to_bind_gets. intros c0 Hc0.
  destruct (_nextAction c0) as [n|] eqn:En; [|by intros s [? _]].
  destruct (decide (cleartext c0)) as [Hcl|Hcl].
  - eapply safe_to_weaken; [by intros s [Hs _]; exact Hs|done|]. apply run_early.
    rewrite <- En. by apply Hc0.
  - eapply safe_to_weaken; [|apply nc_ok|apply run_next_nc]. intros s [_ ->]. by apply ok_nc.
Qed.

(** ** The inputs *)

(** What arrives late: the answer to a request for a credential, and the end
    of the wait of a send that a NOOP held back. *)
Definition late (i : @input Sk) : bool :=
  match i with ICredential _ _ | INoopWaitOver => true | _ => false end.

Lemma handle_nc i : late i = true → safe_from J clear_ok (handle srv ev i : act unit).
Proof.
  destruct i; intros Hi; try discriminate; cbn [handle];
    unfold credential_arrived, noop_wait_over, btoa_or_throw, now_send;
    jsafe_with ltac:(first [apply send_nc | apply continue_nc]).
Qed.


Lemma onClose_ok : safe_from I clear_ok (_onClose srv ev : act unit).
Proof.
  unfold _onClose. intros c [Hb Hc]. rewrite bind_modify.
  assert (Hrest : safe_from J clear_ok
    ((this, serverBusy := false) >> (this, _destroyed := true) >>
     (let! a := gets _authenticating in
      if a then _actionAuthResponse srv ev (mkResponse None false None [])
      else _actionDone srv ev NS_OK) : act unit)).
  { jsafe_with ltac:(first [apply authResponse_nc | apply actionDone_nc]). }
  match goal with |- context [bind _ _ ?s] => set (c1 := s) end.
  assert (HJ : J c1).
  { subst c1. split; [|unfold cleartext; cbn; destruct (_socket c); cbn; [by intros [? _]|tauto]].
    unfold base. cbn. intros Hs s. destruct (_socket c) as [s0|] eqn:Es; [|done].
    intros [= <-]. cbn. by apply Hb. }
  specialize (Hrest c1 HJ). revert Hrest. destruct (bind _ _ c1) as [[c' o] r].
  intros [?%nc_ok ?]. by split.
Qed.

Lemma handle_ok i : late i = false → safe_from I clear_ok (handle srv ev i : act unit).
Proof.
  destruct i; intros Hi; try discriminate; cbn [handle].
  - apply connect_ok.
  - unfold getMail, _loadUidlState. isafe_with ltac:(apply actionCapa_ok).
  - unfold verifyLogon. isafe_with ltac:(apply actionCapa_ok).
  - unfold fetchBodyForUidl, _loadUidlState, error.
    isafe_with ltac:(first [apply actionCapa_ok | apply actionDone_ok | apply actionError_ok]).
  - unfold markMessages, mark_message, _loadUidlState, _writeUidlState. isafe_with fail.
  - apply quit_ok.
  - intros c [Hb Hc]. unfold _onOpen, next. rewrite bind_modify, modify_run. split; [|done].
    split; [|done]. unfold base. cbn. intros Hs s. destruct (_socket c) as [s0|] eqn:Es; [|done].
    intros [= <-]. cbn. by apply Hb.
  - apply onData_ok.
  - unfold _onError. isafe_with ltac:(first [apply quit_ok | apply actionDone_ok]).
  - apply onClose_ok.
  - unfold cleanup_timer_fired. isafe_with ltac:(apply cleanUp_ok).
  - isafe_with fail.
Qed.

(** A run in which what arrives late arrives on a connection that is not in
    clear. *)
Inductive session : client → list event → client → Prop :=
  | session_nil c : session c [] c
  | session_step c o c1 (i : @input Sk) c2 o2 r :
      session c o c1 → (cleartext c1 → late i = false) →
      handle srv ev i c1 = (c2, o2, r) → session c (o ++ o2) c2.

Lemma session_ok c o c' : session c o c' → I c → I c' ∧ Forall clear_ok o.
Proof.
  intros Hs HI. induction Hs as [c|c o c1 i c2 o2 r _ IH Hi Hh]; [done|].
  destruct (IH HI) as [H1 H2].
  assert (Hc2 : I c2 ∧ Forall clear_ok o2).
  { destruct (late i) eqn:El.
    - assert (Hc : ¬ cleartext c1) by (intros Hc; by specialize (Hi Hc)).
      pose proof (handle_nc i El c1 (ok_nc _ H1 Hc)) as Hi'. rewrite Hh in Hi'.
      by destruct Hi' as [?%nc_ok ?].
    - pose proof (handle_ok i El c1 H1) as Hi'. by rewrite Hh in Hi'. }
  destruct Hc2. split; [done|]. by apply Forall_app.
Qed.
End Safety.

(** C2. When the server's socket type requires STARTTLS, whatever the server
    answers and however connections are lost and made again, what the client
    sends on a connection that is not secure is only CAPA, STLS and QUIT: no
    user name, no credential, no command on a mailbox. *)
Theorem pop3_nothing_in_clear {A Sk : Type} `{Pop3Auth A} `{Pop3Sink Sk} srv ev auth
    (sink : Sk) time file o (c : Pop3Client A Sk) :
  starttls_required srv = true →
  session srv ev (newPop3Client srv auth sink time file) o c → Forall clear_ok o.
Proof. intros Hr Hs. by apply (session_ok srv ev Hr _ _ _ Hs). Qed.

(** ** The announced authentication methods *)

Section Methods_kept.
Context {A Sk : Type} `{Pop3Auth A} `{Pop3Sink Sk}.
Variable srv : Pop3Server.
Variable ev : env.
Abbreviation act := (eff (Pop3Client A Sk) event).

(** The server is taken to offer the method. *)
Definition offered (x : jsstr) (c : Pop3Client A Sk) : Prop := x ∈ _supportedAuthMethods c.

Abbreviation any := (λ _ : event, True).

Lemma capa_line_offered x l : safe_from (offered x) any (capa_line l : act unit).
Proof.
  unfold capa_line, offered. js_case; apply safe_modify; intros c Hc; cbn; [..|exact Hc];
    apply elem_of_app; by left.
Qed.

Ltac kept_with tac := safe_unfold ltac:(first
  [ tac | apply capa_line_offered
  | apply sink_call_safe; intros ? ? Hc; exact Hc
  | apply auth_call_safe; intros ? ? Hc; exact Hc
  | apply read_lines_safe; [intros ? ? Hc; exact Hc| |] ]).

Lemma actionDone_offered x st : safe_from (offered x) any (_actionDone srv ev st : act unit).
Proof. kept_with fail. Qed.

Lemma send_offered x str k : safe_from (offered x) any (_send str k : act unit).
Proof. kept_with fail. Qed.

Lemma noop_offered x : safe_from (offered x) any (_sendNoopIfInactive : act unit).
Proof. kept_with fail. Qed.

Lemma actionError_offered x n p said :
  safe_from (offered x) any (_actionError srv ev n p said : act unit).
Proof. kept_with ltac:(apply actionDone_offered). Qed.

Ltac offered_with tac := kept_with ltac:(first
  [ tac | apply actionDone_offered | apply send_offered | apply noop_offered
  | apply actionError_offered ]).

Lemma actionAuth_offered x : safe_from (offered x) any (_actionAuth srv ev : act unit).
Proof. offered_with fail. Qed.

Lemma handleMessage_offered x : safe_from (offered x) any (_actionHandleMessage srv ev : act unit).
Proof. offered_with fail. Qed.

Lemma run_next_offered x n res : safe_from (offered x) any (run_next srv ev n res : act unit).
Proof.
  destruct n; cbn [run_next];
    offered_with ltac:(first [apply actionAuth_offered | apply handleMessage_offered]).
Qed.

(** No input removes an authentication method: what was announced in clear
    before STLS, or on an earlier connection, is still taken as offered when
    the method is chosen. *)
Theorem methods_kept i x c :
  offered x c → let '(c', _, _) := handle srv ev i c in offered x c'.
Proof.
  intros Hx. assert (Hs : safe_from (offered x) any (handle srv ev i)).
  { destruct i; cbn [handle]; offered_with ltac:(first [apply run_next_offered | apply actionAuth_offered]). }
  specialize (Hs c Hx). destruct (handle srv ev i c) as [[c' o] r]. by destruct Hs.
Qed.
End Methods_kept.

(** Whether the inputs make a session. *)
Fixpoint timely {A Sk : Type} `{Pop3Auth A} `{Pop3Sink Sk} srv ev (inputs : list (@input Sk))
    (c : Pop3Client A Sk) : bool :=
  match inputs with
  | [] => true
  | i :: inputs' =>
      negb (bool_decide (cleartext c) && late i) && timely srv ev inputs' (handle srv ev i c).1.1
  end.

Lemma timely_session {A Sk : Type} `{Pop3Auth A} `{Pop3Sink Sk} srv ev inputs o0
    (c0 c : Pop3Client A Sk) :
  session srv ev c0 o0 c → timely srv ev inputs c = true →
  let '(c', o, _) := run srv ev inputs c in session srv ev c0 (o0 ++ o) c'.
Proof.
  revert o0 c. induction inputs as [|i inputs IH]; intros o0 c Hs Hi; [cbn; by rewrite app_nil_r|].
  cbn [timely] in Hi. apply andb_true_iff in Hi as [Hi Hr]. rewrite pop3_run_cons.
  destruct (handle srv ev i c) as [[c1 o1] r1] eqn:E. specialize (IH (o0 ++ o1) c1).
  destruct (run srv ev inputs c1) as [[c2 o2] r2]. rewrite (assoc_L (++)). apply IH; [|done].
  eapply session_step; [done| |done]. intros Hc. rewrite bool_decide_eq_true_2 in Hi by done.
  by destruct (late i).
Qed.

Lemma pop3_nothing_in_clear_witness :
  let srv := samplePop3Server trySTARTTLS true in
  let o := (run srv samplePop3Env sampleLogin
              (newPop3Client srv tt ([] : list sinkCall) 5000 (Some sampleState))).1.2 in
  Send true (js "PASS pw" ++ CRLF) ∈ o ∧ Forall clear_ok o.
Proof.
  cbn zeta. split; [apply (bool_decide_unpack _); vm_compute; exact Logic.I|].
  assert (Ht : timely (samplePop3Server trySTARTTLS true) samplePop3Env sampleLogin
    (newPop3Client (samplePop3Server trySTARTTLS true) tt ([] : list sinkCall) 5000
      (Some sampleState)) = true) by (vm_compute; reflexivity).
  pose proof (timely_session _ _ _ _ _ _ (session_nil _ _ _) Ht) as Hs.
  destruct (run _ _ _ _) as [[c' o'] r'].
  refine (pop3_nothing_in_clear _ _ _ _ _ _ o' c' _ Hs). reflexivity.
Defined.

(** ** A credential in clear *)

(** A method is tried; the password is asked for; the connection is lost
    meanwhile, and made again for the next method; the password arrives. *)
Definition lateInputs : list (@input (list sinkCall)) :=
  [IConnect; IOpen; line_in (js "+OK hi"); IGetMail true true; lines_in [js "STLS"];
   line_in (js "+OK"); lines_in [js "USER"; js "SASL PLAIN"]; line_in (js "+OK");
   ISocketClosed; IOpen; line_in (js "+OK hi"); ICredential CrUserPass (js "pw")].

(** The continuation of a wait for the password sends it on whatever
    connection is then open: after the first one was lost, it goes out in clear
    on the second, before STLS, although STARTTLS is required. *)
Theorem late_password_in_clear :
  let srv := samplePop3Server alwaysSTARTTLS_ true in
  starttls_required srv = true ∧
  Send false (js "PASS pw" ++ CRLF) ∈ (run srv samplePop3Env lateInputs
    (newPop3Client srv tt ([] : list sinkCall) 5000 None)).1.2.
Proof. split; [done|]. apply (bool_decide_unpack _). vm_compute. exact Logic.I. Qed.

Lemma methods_kept_witness :
  let '(c', _, _) := handle (samplePop3Server alwaysSTARTTLS_ true) samplePop3Env (lines_in [js "USER"])
    ((newPop3Client (samplePop3Server alwaysSTARTTLS_ true) tt ([] : list sinkCall) 0 None)
       <| _supportedAuthMethods := [js "PLAIN"] |> <| _nextAction := Some NCapa |>) in
  offered (js "PLAIN") c'.
Proof.
  apply (methods_kept (samplePop3Server alwaysSTARTTLS_ true) samplePop3Env).
  apply list_elem_of_here.
Defined.
