(* ===== verification/Pop3Mail.v ===== *)
(** * Pop3Mail: the mail a POP3 session moves

    Theorems on Pop3Client.v about messages: what a response in lines does, in
    whatever chunks it arrives; what of the server's listing is to be fetched,
    deleted or left; that a retrieved message reaches the sink line by line
    before it is deleted or remembered; and what popstate.dat holds when a
    session ends. *)

From S2P Require Import Prelude Effects Net LineReader ReadLines MimeUtils Pop3State Pop3Client.

Section Mail.
Context {A Sk : Type} `{Pop3Auth A} `{Pop3Sink Sk}.
Variable srv : Pop3Server.
Variable ev : env.
Abbreviation client := (Pop3Client A Sk).
Abbreviation act := (eff client event).
Abbreviation run := (run srv ev).

(** ** RETR *)

(** No NOOP is due. *)
Definition fresh (c : client) : Prop := now c - _timeOfSend c <= 10000.

Lemma noop_not_due (c : client) : fresh c → _sendNoopIfInactive c = (c, [], Some tt).
Proof.
  unfold fresh. intros Hf. unfold _sendNoopIfInactive. rewrite bind_gets. unfold id.
  by replace (10000 <? _) with false by (symmetry; apply Z.ltb_ge; lia).
Qed.

(** The sink after the lines of a message. *)
Definition written (ls : list jsstr) (s : Sk) : Sk :=
  fold_left (λ s l, (incorporateWrite (l ++ _lineSeparator) s).1) ls s.

Lemma native_line_crlf l : native_line (l ++ CRLF) = l ++ _lineSeparator.
Proof. unfold native_line. by rewrite (slice_0_neg _ CRLF 2) by (done || lia). Qed.

Lemma retr_lines ls (c : client) :
  fresh c → (∀ l s, (incorporateWrite l s).2 = true) →
  for_each (crlf_lines ls) (retr_line srv ev) c = (c <| _sink := written ls (_sink c) |>, [], Some tt).
Proof.
  intros Hf Hw. revert c Hf. induction ls as [|l ls IH]; intros c Hf; [by destruct c|].
  cbn [crlf_lines map for_each]. unfold retr_line at 1. rewrite native_line_crlf.
  unfold bind at 1 2, sink_call. specialize (Hw (l ++ _lineSeparator) (_sink c)) as Hl.
  destruct (incorporateWrite _ (_sink c)) as [s1 ok] eqn:E. cbn in Hl. subst ok.
  rewrite noop_not_due by done. fold (crlf_lines ls). rewrite IH by done.
  cbn. by rewrite E.
Qed.

(** The message is in the sink, complete. *)
Definition stored (u : option jsstr) (ls : list jsstr) (s : Sk) : Sk :=
  (incorporateComplete (Some 0) (written ls (incorporateBegin u false s).1)).1.

(** A RETR whose status line has been read, with [d] of the lines, [p] an
    incomplete payload and [n] characters counted. *)
Definition receiving (c : client) (d p : jsstr) (n : Z) : client :=
  c <| _lineReader := mkLineReader true d |> <| _pendingPayload := p |> <| _totalReceivedSize := n |>.

Definition waiting (c : client) : Prop :=
  (∃ s, _socket c = Some s ∧ listening s = true) ∧ _noopRespPending c = false ∧
  _nextAction c = Some NRetr.

Lemma receiving_data (c : client) d p n x :
  waiting c →
  handle srv ev (IData x) (receiving c d p n)
  = if includes (p ++ x) [LF]
    then retr_read srv ev (mkResponse None false None (p ++ x)) (receiving c d [] n)
    else (receiving c d (p ++ x) n, [], Some tt).
Proof.
  intros ((s & Hs & Hl) & Hn & Ha). cbn [handle]. unfold _onData. rewrite bind_gets. unfold id.
  cbn -[includes]. rewrite Hs, Hl. cbn -[includes]. destruct (includes (p ++ x) [LF]); [|done].
  rewrite bind_modify, Hn. unfold _parse. rewrite bind_gets, bind_gets. cbn -[retr_read run_next]. rewrite Ha.
  cbn [run_next]. unfold _actionRetrResponse, id. rewrite bind_gets. done.
Qed.

Lemma retr_read_incomplete ls (c : client) e rest :
  _pendingPayload c = [] → Forall crlf_free ls → rest ≠ [] →
  _data (_lineReader c) ++ e ++ rest = encode ls →
  retr_read srv ev (mkResponse None false None e) c
  = (receiving c (_data (_lineReader c) ++ e) [] (_totalReceivedSize c + slen e), [], Some tt).
Proof.
  intros Hp Hf Hr Hd. unfold retr_read, bind. cbn [data].
  rewrite (read_lines_incomplete _ _ ls _ rest) by done. destruct c. cbn in Hp. by subst.
Qed.

Lemma includes_last s : includes (s ++ [LF]) [LF] = true.
Proof.
  unfold includes. destruct (find_sub [LF] (s ++ [LF])) eqn:E; [done|].
  apply find_sub_None with (a := s) (b := []) in E. done.
Qed.

(** A non-empty end of an encoded response has a line feed. *)
Lemma encode_end ls q p x : x ≠ [] → q ++ p ++ x = encode ls → includes (p ++ x) [LF] = true.
Proof.
  intros Hx He. destruct x as [|z x _] using rev_ind; [done|].
  assert (z = LF) as ->; [|rewrite (assoc_L (++)); apply includes_last].
  apply (f_equal last) in He. rewrite !(assoc_L (++)), last_snoc in He.
  unfold encode, DOT_CRLF in He.
  change (DOT :: CRLF) with ([DOT; CR] ++ [LF]) in He.
  rewrite (assoc_L (++)), last_snoc in He. by injection He.
Qed.

Lemma retr_tail ls (c : client) chunks d p n :
  waiting c → Forall crlf_free ls → Forall (λ x, x ≠ []) chunks → chunks ≠ [] →
  d ++ p ++ concat chunks = encode ls →
  ∃ d' e n', d' ++ e = encode ls ∧
    run (map IData chunks) (receiving c d p n)
    = let '(c', o, _) := retr_read srv ev (mkResponse None false None e) (receiving c d' [] n') in
      (c', o, Some tt).
Proof.
  intros Hw Hf Hc. revert d p n. induction Hc as [|x chunks Hx Hc IH]; intros d p n Hne He; [done|].
  cbn [map]. rewrite pop3_run_cons, receiving_data by done. cbn [concat] in He.
  destruct chunks as [|y chunks].
  - rewrite app_nil_r in He. rewrite (encode_end ls d) by done.
    exists d, (p ++ x), n. split; [done|]. destruct (retr_read _ _ _ _) as [[c' o] r].
    cbn. by rewrite app_nil_r.
  - assert (Hr : concat (y :: chunks) ≠ []).
    { apply Forall_cons in Hc as [Hy _]. cbn. by destruct y. }
    rewrite !(assoc_L (++)) in He. rewrite <- !(assoc_L (++)) in He. destruct (includes _ _).
    + rewrite (retr_read_incomplete ls _ _ (concat (y :: chunks)))
        by (done || by rewrite <- (assoc_L (++))).
      change (receiving (receiving c d [] n) _ [] _)
        with (receiving c (d ++ p ++ x) [] (n + slen (p ++ x))).
      destruct (IH (d ++ p ++ x) [] (n + slen (p ++ x))) as (d' & e & n' & Hd & ->);
        [done|by rewrite <- !(assoc_L (++))|]. exists d', e, n'. split; [done|].
      by destruct (retr_read _ _ _ _) as [[c' o] r].
    + destruct (IH d (p ++ x) n) as (d' & e & n' & Hd & ->);
        [done|by rewrite <- !(assoc_L (++))|]. exists d', e, n'. split; [done|].
      by destruct (retr_read _ _ _ _) as [[c' o] r].
Qed.

Lemma includes_LF w : includes w [LF] = true ↔ LF ∈ w.
Proof.
  unfold includes. destruct (find_sub [LF] w) as [n|] eqn:E; split; try done.
  - intros _. apply find_sub_Some in E as (a & b & -> & _). set_solver.
  - intros (a & b & ->)%list_elem_of_split. by apply find_sub_None with (a := a) (b := b) in E.
Qed.

Lemma prefix_line w r a b :
  LF ∉ a → w ++ r = a ++ LF :: b → includes w [LF] = true → ∃ e, w = a ++ LF :: e ∧ e ++ r = b.
Proof.
  intros Ha Heq Hw%includes_LF. apply app_eq_inv in Heq as [(k & -> & Hk)|(k & -> & _)].
  - destruct k as [|z k]; [by rewrite app_nil_r in Hw|]. injection Hk as <- ->. by exists k.
  - exfalso. apply Ha, elem_of_app. by left.
Qed.

Lemma parse_ok_line text d :
  one_line text → ∃ t, parse_response false (js "+OK" ++ text ++ CRLF ++ d)
                       = mkResponse (Some (js "+OK")) true (Some t) d.
Proof.
  intros Ht. exists (drop_space text). unfold parse_response, match_status.
  rewrite startsWith_app. cbn [str_truthy].
  change (if str_truthy (js "+OK") then ?a else ?b) with a.
  rewrite drop_app_length.
  assert (Hd : drop_space (text ++ CRLF ++ d) = drop_space text ++ CRLF ++ d).
  { destruct text as [|c text]; [done|]. cbn [app drop_space]. by destruct (c =? SP). }
  assert (Hl : one_line (drop_space text)).
  { destruct Ht as [|c text Hc Ht]; [constructor|]. cbn. destruct (c =? SP); [done|by constructor]. }
  cbv zeta. rewrite Hd, until_eol_line by done. rewrite drop_app_length, startsWith_app.
  done.
Qed.

(** The client waits for the response to RETR of the current message. *)
Record awaiting_retr (c : client) (b : bool) : Prop := {
  ar_socket : _socket c = Some (mkSocket Open b true);
  ar_noop : _noopRespPending c = false;
  ar_next : _nextAction c = Some NRetr;
  ar_payload : _pendingPayload c = [];
  ar_reader : _lineReader c = newLineReader;
  ar_fresh : fresh c
}.

(** The sink takes everything. *)
Record accepting : Prop := {
  acc_begin : ∀ u p (s : Sk), (incorporateBegin u p s).2 = true;
  acc_write : ∀ l (s : Sk), (incorporateWrite l s).2 = true;
  acc_complete : ∀ n (s : Sk), (incorporateComplete n s).2 = true
}.

(** The current message begun in the sink. *)
Definition begun (c : client) : client :=
  c <| _sink := (incorporateBegin (_currentMessage c ≫= uidl) false (_sink c)).1 |>.

Lemma no_payload (c : client) p s :
  _pendingPayload c = [] →
  c <| _pendingPayload := p |> <| _pendingPayload := [] |> <| _sink := s |> = c <| _sink := s |>.
Proof. destruct c. by intros [= ->]. Qed.

(** The status line, possibly in pieces, with what follows it. *)
Lemma retr_head (c : client) b text enc chunks p :
  awaiting_retr c b → accepting → one_line text → Forall (λ x, x ≠ []) chunks → LF ∉ p →
  p ++ concat chunks = js "+OK" ++ text ++ CRLF ++ enc →
  ∃ e rest, e ++ concat rest = enc ∧ Forall (λ x, x ≠ []) rest ∧
    run (map IData chunks) (c <| _pendingPayload := p |>)
    = let '(c1, o1, _) := retr_read srv ev (mkResponse None false None e) (begun c) in
      let '(c2, o2, r) := run (map IData rest) c1 in (c2, o1 ++ o2, r).
Proof.
  intros Hc Hacc Ht Hch. destruct Hc as [Hs Hn Ha Hp Hr Hf]. revert p.
  assert (Hst : LF ∉ js "+OK" ++ text ++ [CR]).
  { rewrite !not_elem_of_app. split_and!; [by apply (bool_decide_unpack _)|
      |by apply (bool_decide_unpack _)].
    intros Hin. unfold one_line in Ht. rewrite Forall_forall in Ht. apply (Ht _ Hin). by left. }
  induction Hch as [|x chunks Hx Hch IH]; intros p Hp' Heq.
  { exfalso. apply Hp'. rewrite app_nil_r in Heq. rewrite Heq. unfold CRLF. set_solver. }
  cbn [map concat] in *. rewrite pop3_run_cons. cbn [handle]. unfold _onData. rewrite bind_gets.
  unfold id. cbn -[includes]. rewrite Hs. cbn -[includes].
  destruct (includes (p ++ x) [LF]) eqn:Ei.
  - clear IH. destruct (prefix_line (p ++ x) (concat chunks) (js "+OK" ++ text ++ [CR]) enc)
      as (e & He & Henc); [done| |done|].
    { rewrite <- (assoc_L (++)), Heq. unfold CRLF. by rewrite <- !(assoc_L (++)). }
    exists e, chunks. split_and!; [done..|].
    rewrite bind_modify. cbn -[parse_response run_next]. rewrite Hn. unfold _parse.
    rewrite !bind_gets. cbn -[parse_response run_next]. rewrite Hr. cbn [receivingMultiLineResponse newLineReader].
    destruct (parse_ok_line text e Ht) as [t Hpr].
    replace (p ++ x) with (js "+OK" ++ text ++ CRLF ++ e)
      by (rewrite He; unfold CRLF; by rewrite <- !(assoc_L (++))).
    rewrite Hpr, Ha. cbn [run_next]. unfold _actionRetrResponse. rewrite bind_gets. unfold id.
    change (str_truthy _) with true. cbn [success negb].
    unfold bind at 1, sink_call.
    pose proof (acc_begin Hacc (_currentMessage c ≫= uidl) false (_sink c)) as Hb.
    cbn -[retr_read]. destruct (incorporateBegin _ _ (_sink c)) as [s1 ok] eqn:Eb.
    cbn in Hb. subst ok. unfold begun. rewrite Eb. cbn -[retr_read].
    rewrite no_payload by done.
    match goal with |- context [retr_read _ _ ?r ?s] =>
      change (retr_read srv ev r s) with (retr_read srv ev (mkResponse None false None e) s) end.
    by destruct (retr_read _ _ _ _) as [[c1 o1] r1].
  - destruct (IH (p ++ x)) as (e & rest & He & Hrest & Hrun).
    { by rewrite <- includes_LF, Ei. }
    { by rewrite <- (assoc_L (++)). }
    exists e, rest. split_and!; [done..|]. rewrite <- Hrun. cbn -[Pop3Client.run].
    by destruct (run (map IData chunks) _) as [[c2 o2] r].
Qed.

(** What is done once the message is in the sink. *)
Definition leaves (c : client) : bool :=
  leaveMessagesOnServer srv && negb (state_is c UIDL_DELETE).

Definition after_retr : act unit :=
  let! c := gets id in
  if leaves c then remember UIDL_KEEP >> _actionHandleMessage srv ev else _actionDelete.

Lemma retr_done_run (c : client) :
  accepting →
  retr_done srv ev c
  = after_retr (c <| _totalReceivedSize ::= λ n, n - 3 |>
                  <| _sink := (incorporateComplete (Some 0) (_sink c)).1 |>).
Proof.
  intros Hacc. unfold retr_done. rewrite bind_modify. unfold bind at 1, sink_call.
  pose proof (acc_complete Hacc (Some 0) (_sink c)) as Hk.
  change (_sink (update _ c)) with (_sink c).
  destruct (incorporateComplete _ _) as [s1 ok]. cbn [snd] in Hk. subst ok.
  rewrite bind_gets. unfold after_retr. rewrite bind_gets. unfold leaves, id. cbn [fst negb].
  destruct (leaveMessagesOnServer srv); cbn [andb];
    [|by destruct (_actionDelete _) as [[? ?] ?]].
  destruct (state_is _ _); cbn [negb];
    [by destruct (_actionDelete _) as [[? ?] ?]|by destruct (bind _ _ _) as [[? ?] ?]].
Qed.

(** The end of the response, with the message in the sink. *)
Lemma retr_read_last ls (c : client) e :
  fresh c → accepting → Forall crlf_free ls → _data (_lineReader c) ++ e = encode ls →
  ∃ n k, retr_read srv ev (mkResponse None false None e) c
  = let '(c2, o, r) := after_retr (c <| _lineReader := newLineReader |>
        <| _sink := (incorporateComplete (Some 0) (written ls (_sink c))).1 |>
        <| _totalReceivedSize := n |>) in
    (c2 <| _lineReader := newLineReader |> <| _totalReceivedSize := k |>, o, r).
Proof.
  intros Hf Hacc Hls He. unfold retr_read, bind at 1. cbn [data].
  rewrite (read_lines_complete _ _ ls _ c (c <| _lineReader := newLineReader |>
      <| _sink := written ls (_sink c) |>) []);
    [|done|done|rewrite retr_lines; [reflexivity|exact Hf|apply Hacc]].
  rewrite retr_done_run by done. exists (_totalReceivedSize c - 3).
  match goal with |- context [after_retr ?x] => set (c1 := x) end.
  change (∃ k, match (let '(c2, o2, r) := after_retr c1 in
      (c2 <| _lineReader := newLineReader |>, [] ++ o2, r)) with
    | (s1, o1, Some x) =>
        let '(s2, o2, r2) := modify (λ c, c <| _totalReceivedSize ::= λ n, n + slen e |>) s1 in
        (s2, o1 ++ o2, r2)
    | (s1, o1, None) => (s1, o1, None)
    end = let '(c2, o, r) := after_retr c1 in
      (c2 <| _lineReader := newLineReader |> <| _totalReceivedSize := k |>, o, r)).
  destruct (after_retr c1) as [[c2 o] [[]|]]; cbn.
  - exists (_totalReceivedSize c2 + slen e). by rewrite app_nil_r.
  - exists (_totalReceivedSize c2). by destruct c2.
Qed.

Lemma retr_response (c : client) b text ls chunks :
  awaiting_retr c b → accepting → one_line text → Forall crlf_free ls →
  Forall (λ x, x ≠ []) chunks → concat chunks = js "+OK" ++ text ++ CRLF ++ encode ls →
  ∃ n k, run (map IData chunks) c
  = let '(c2, o, _) := after_retr (c <| _lineReader := newLineReader |>
        <| _sink := stored (_currentMessage c ≫= uidl) ls (_sink c) |>
        <| _totalReceivedSize := n |>) in
    (c2 <| _lineReader := newLineReader |> <| _totalReceivedSize := k |>, o, Some tt).
Proof.
  intros Hc Hacc Ht Hls Hch Heq.
  destruct (retr_head c b text (encode ls) chunks []) as (e & rest & He & Hrest & Hrun);
    [done..|apply not_elem_of_nil|done|].
  assert (Hp : c <| _pendingPayload := [] |> = c).
  { destruct Hc as [_ _ _ Hp _ _]. destruct c. cbn in Hp. by subst. }
  rewrite Hp in Hrun. rewrite Hrun. clear Hrun Heq.
  destruct Hc as [Hs Hn Ha Hp' Hr Hf].
  assert (Hd : _data (_lineReader (begun c)) = []) by (cbn; by rewrite Hr).
  destruct (decide (rest = [])) as [->|Hne].
  - rewrite app_nil_r in He. subst e.
    destruct (retr_read_last ls (begun c) (encode ls)) as (n & k & ->); [done..|by rewrite Hd|].
    exists n, k. cbn [map]. unfold Pop3Client.run, for_each, skip, ret.
    change (after_retr _) with (after_retr (c <| _lineReader := newLineReader |>
        <| _sink := stored (_currentMessage c ≫= uidl) ls (_sink c) |>
        <| _totalReceivedSize := n |>)).
    destruct (after_retr _) as [[c2 o] r]. by rewrite app_nil_r.
  - assert (Hcr : concat rest ≠ []).
    { destruct Hrest as [|y rest Hy]; [done|]. cbn. by destruct y. }
    rewrite (retr_read_incomplete ls _ e (concat rest)) by (done || by rewrite Hd).
    rewrite Hd, app_nil_l.
    destruct (retr_tail ls (begun c) rest e [] (_totalReceivedSize (begun c) + slen e))
      as (d' & e' & n' & He' & ->); [|done..|].
    { split_and!; [|done..]. eexists. split; [exact Hs|done]. }
    destruct (retr_read_last ls (receiving (begun c) d' [] n') e') as (n & k & ->); [done..|].
    exists n, k.
    replace (after_retr _) with (after_retr (c <| _lineReader := newLineReader |>
        <| _sink := stored (_currentMessage c ≫= uidl) ls (_sink c) |>
        <| _totalReceivedSize := n |>)).
    + by destruct (after_retr _) as [[c2 o] r].
    + f_equal. rewrite <- Hp at 1. done.
Qed.

Lemma delete_sent (c : client) b l :
  _socket c = Some (mkSocket Open b l) → _noopRespPending c = false →
  _actionDelete c
  = (c <| _nextAction := Some NDelete |> <| _timeOfSend := now c |>,
     [Send b ((js "DELE " ++ default undefined_str (_currentMessage c ≫= messageNumber)) ++ CRLF)],
     Some tt).
Proof.
  intros Hs Hn. unfold _actionDelete, next. rewrite bind_gets, bind_modify. unfold _send.
  rewrite bind_gets.
  match goal with |- context [is_open ?s] => assert (is_open s = true) as -> end.
  { unfold is_open. cbn. by rewrite Hs. }
  match goal with |- context [_noopRespPending ?s] =>
    change (_noopRespPending s) with (_noopRespPending c) end. rewrite Hn. cbn [negb].
  unfold now_send, socket_send. rewrite !bind_assoc, bind_gets. unfold id.
  match goal with |- context [_socket ?s] => change (_socket s) with (_socket c) end.
  rewrite Hs. cbn [readyState].
  by rewrite bool_decide_eq_true_2.
Qed.

(** C5. A successful response to RETR with a one-line status and the lines of a
    message, in whatever non-empty chunks, to a client that waits for it on an
    open socket, with no NOOP unanswered and none falling due during the
    download (the clock stands within ten seconds of the last send), and whose
    sink accepts everything: the message is in the sink whole - begun, every
    line once, in order, unstuffed and with the line end of the system, then
    completed - and nothing was sent meanwhile; then either the message is
    remembered as kept in the uidl map and the next one is handled, or DELE is
    sent for it. *)
Theorem retr_delivers (c : client) b m text ls chunks :
  awaiting_retr c b → accepting → one_line text → Forall crlf_free ls →
  Forall (λ x, x ≠ []) chunks → concat chunks = js "+OK" ++ text ++ CRLF ++ encode ls →
  _currentMessage c = Some m →
  if leaves c then
    ∃ c1 c2 o r n, _sink c1 = stored (uidl m) ls (_sink c) ∧
      mget (_uidlMap c1) (uidl m)
        = Some (mkMessage (uidl m) (Some UIDL_KEEP) (Some (num_str (now c / 1000))) None) ∧
      _uidlMapChanged c1 = true ∧ _messagesToHandle c1 = _messagesToHandle c ∧
      _actionHandleMessage srv ev c1 = (c2, o, r) ∧
      run (map IData chunks) c
        = (c2 <| _lineReader := newLineReader |> <| _totalReceivedSize := n |>, o, Some tt)
  else
    ∃ c', run (map IData chunks) c
      = (c', [Send b ((js "DELE " ++ default undefined_str (messageNumber m)) ++ CRLF)], Some tt) ∧
    _sink c' = stored (uidl m) ls (_sink c) ∧ _nextAction c' = Some NDelete ∧
    _uidlMap c' = _uidlMap c.
Proof.
  intros Hc Hacc Ht Hls Hch Heq Hm.
  destruct (retr_response c b text ls chunks Hc Hacc Ht Hls Hch Heq) as (n & k & ->).
  rewrite Hm. unfold after_retr. rewrite bind_gets. unfold id.
  change (leaves (update _ (update _ (update _ c)))) with (leaves c). destruct (leaves c).
  - unfold remember. rewrite bind_modify. cbn [mbind option_bind].
    match goal with |- context [_actionHandleMessage srv ev ?s] => set (c1 := s) end.
    destruct (_actionHandleMessage srv ev c1) as [[c2 o] r] eqn:E.
    exists c1, c2, o, r, k. split_and!; try done. subst c1. cbn. rewrite Hm. cbn.
    by rewrite mget_mset_eq.
  - destruct Hc as [Hs Hn Ha Hp Hr Hf].
    match goal with |- context [_actionDelete ?s] => rewrite (delete_sent s b true) by done end.
    eexists. split; [cbn; by rewrite Hm|done].
Qed.

(** ** The listing *)

(** A uidl of printable characters, and a message number. *)
Definition listed_ok (nu : jsstr * jsstr) : Prop :=
  (SP ∉ nu.1) ∧ (SP ∉ nu.2) ∧ Forall (λ c, is_space c = false) nu.2.

Definition listing (es : list (jsstr * jsstr)) : list jsstr := map (λ nu, nu.1 ++ SP :: nu.2) es.

Lemma trim_crlf u : Forall (λ c, is_space c = false) u → trim (u ++ CRLF) = u.
Proof.
  intros Hu. unfold trim, trimEnd.
  assert (Hs : trimStart (u ++ CRLF) = if decide (u = []) then [] else u ++ CRLF).
  { destruct Hu as [|c u Hc Hu]; [done|]. cbn. by rewrite Hc. }
  rewrite Hs. case_decide as E; [by subst|]. rewrite rev_app_distr. cbn.
  rewrite trimStart_id by (by apply Forall_rev). apply rev_involutive.
Qed.

(** What one line of the listing does. *)
Definition take_listed (c : client) (nu : jsstr * jsstr) : client :=
  match classify srv c nu.1 nu.2 with
  | inl m =>
      (if counts_as_new srv c nu.2 m then c <| _newMessageTotal ::= λ n, n + 1 |> else c)
        <| _messagesToHandle ::= λ q, q ++ [m] |>
  | inr e => c <| _newUidlMap ::= λ n, mset n (Some nu.2) e |>
  end.

Lemma uidl_line_run (c : client) nu :
  fresh c → listed_ok nu →
  uidl_line srv ((nu.1 ++ SP :: nu.2) ++ CRLF) c = (take_listed c nu, [], Some tt).
Proof.
  destruct nu as [n u]. intros Hf (Hn & Hu & Hs). cbn [fst snd] in *. unfold uidl_line.
  rewrite <- (assoc_L (++)). change ((SP :: u) ++ CRLF) with (SP :: (u ++ CRLF)).
  rewrite split_on_app by done. rewrite split_on_none
    by (rewrite not_elem_of_app; split; [done|by apply (bool_decide_unpack _)]).
  cbn [lookup list_lookup]. change (default [] ([n; u ++ CRLF] !! 0%nat)) with n.
  rewrite trim_crlf, bind_assoc, bind_gets by done. unfold take_listed. cbn [fst snd]. unfold id.
  cbv beta. cbn [from_option].
  destruct (classify srv c n u) as [m|e].
  - rewrite bind_assoc. destruct (counts_as_new srv c u m); cbn [when].
    + rewrite !bind_modify. by rewrite noop_not_due.
    + unfold skip. rewrite bind_ret_l, bind_modify. by rewrite noop_not_due.
  - rewrite bind_modify. by rewrite noop_not_due.
Qed.

Definition to_handle (c : client) (es : list (jsstr * jsstr)) : list message :=
  omap (λ nu, match classify srv c nu.1 nu.2 with inl m => Some m | inr _ => None end) es.

Definition left_alone (c : client) (es : list (jsstr * jsstr)) (m : uidlMap) : uidlMap :=
  fold_left (λ m nu, match classify srv c nu.1 nu.2 with
                     | inl _ => m | inr e => mset m (Some nu.2) e end) es m.

(** What the classification depends on, and the current message. *)
Definition same_rules (c c' : client) : Prop :=
  _uidlMap c' = _uidlMap c ∧ _messageSizeMap c' = _messageSizeMap c ∧
  _maxMessageSize c' = _maxMessageSize c ∧ _cutOffTimestamp c' = _cutOffTimestamp c ∧
  _currentMessage c' = _currentMessage c.

Lemma classify_same c c' n u : same_rules c c' → classify srv c' n u = classify srv c n u.
Proof. intros (H1 & H2 & H3 & H4 & _). unfold classify, too_big, size_of. by rewrite H1, H2, H3, H4. Qed.

Lemma take_listed_same c nu : same_rules c (take_listed c nu) ∧ (fresh c → fresh (take_listed c nu)).
Proof.
  unfold take_listed. destruct (classify _ _ _ _); [destruct (counts_as_new _ _ _ _)|]; done.
Qed.

Lemma listing_same c c' es :
  same_rules c c' →
  to_handle c' es = to_handle c es ∧ ∀ m, left_alone c' es m = left_alone c es m.
Proof.
  intros Hr. unfold to_handle, left_alone.
  induction es as [|nu es [IH1 IH2]]; [done|]. cbn. rewrite (classify_same c) by done.
  rewrite IH1. split; [done|]. intros m. apply IH2.
Qed.

Lemma listing_run es (c : client) :
  fresh c → Forall listed_ok es →
  ∃ c', for_each (crlf_lines (listing es)) (uidl_line srv) c = (c', [], Some tt) ∧
    same_rules c c' ∧
    _messagesToHandle c' = _messagesToHandle c ++ to_handle c es ∧
    _newUidlMap c' = left_alone c es (_newUidlMap c).
Proof.
  intros Hf Hes. revert c Hf. induction Hes as [|nu es Hnu _ IH]; intros c Hf.
  - exists c. cbn. by rewrite app_nil_r.
  - cbn [listing map crlf_lines for_each]. unfold bind. rewrite uidl_line_run by done.
    destruct (take_listed_same c nu) as [Hr Hf']. destruct (IH (take_listed c nu) (Hf' Hf))
      as (c' & Hrun & Hr' & Hq & Hm). unfold crlf_lines, listing in Hrun. rewrite Hrun.
    exists c'. split; [done|]. split.
    { destruct Hr as (? & ? & ? & ? & ?), Hr' as (? & ? & ? & ? & ?). unfold same_rules. by split_and!; etrans. }
    rewrite Hq, Hm.
    destruct (listing_same c (take_listed c nu) es Hr) as [E1 E2].
    rewrite E1, E2. unfold take_listed, to_handle, left_alone. cbn.
    destruct (classify srv c nu.1 nu.2); cbn; [|done].
    destruct (counts_as_new _ _ _ _); cbn; by rewrite <- (assoc_L (++)).
Qed.

(** What is put back decides. *)
Lemma put_back_spec (P : message → Prop) k q m :
  (∀ x, x ∈ q → uidl x = k → P x) →
  (∃ x, x ∈ q ∧ uidl x = k) ∨ (∃ y, mget m k = Some y ∧ P y) →
  ∃ y, mget (put_back q m) k = Some y ∧ P y.
Proof.
  unfold put_back. revert m. induction q as [|x q IH]; intros m HP Hor; cbn.
  - destruct Hor as [(x & Hx & _)|?]; [by apply elem_of_nil in Hx|done].
  - apply IH; [intros y Hy; apply HP; by right|].
    destruct (decide (uidl x = k)) as [<-|Hne].
    + right. exists x. rewrite mget_mset_eq. split; [done|]. apply HP; [by left|done].
    + rewrite mget_mset_ne by done. destruct Hor as [(y & Hy & Hk)|?]; [left|by right].
      apply elem_of_cons in Hy as [->|Hy]; [done|by exists y].
Qed.

Lemma classify_inr (c : client) n u e e' :
  mget (_uidlMap c) (Some u) = Some e → classify srv c n u = inr e' → e' = e.
Proof.
  intros He. unfold classify. rewrite He.
  destruct (status_is e UIDL_KEEP && _); [done|]. destruct (_ || _); [done|]. by intros [= ->].
Qed.

Lemma left_alone_spec (c : client) es u e m :
  mget (_uidlMap c) (Some u) = Some e →
  (∃ n e', (n, u) ∈ es ∧ classify srv c n u = inr e') ∨ mget m (Some u) = Some e →
  mget (left_alone c es m) (Some u) = Some e.
Proof.
  intros He. unfold left_alone. revert m.
  induction es as [|[n' u'] es IH]; intros m Hor; cbn [fold_left fst snd].
  - destruct Hor as [(n & e' & Hn & _)|?]; [by apply elem_of_nil in Hn|done].
  - apply IH. destruct Hor as [(n & e' & Hn & Hc)|Hm].
    + apply elem_of_cons in Hn as [Heq|Hn]; [right|left; by exists n, e'].
      injection Heq as <- <-. rewrite Hc, mget_mset_eq. by rewrite (classify_inr c n u e e').
    + right. destruct (classify srv c n' u') as [x|x] eqn:Hc; [done|].
      destruct (decide (u' = u)) as [->|Hne]; [|by rewrite mget_mset_ne by congruence].
      rewrite mget_mset_eq. by rewrite (classify_inr c n' u e x).
Qed.

(** Every entry of the uidl map is under its own uidl. *)
Definition own_keys (m : uidlMap) : Prop := ∀ u e, mget m (Some u) = Some e → uidl e = Some u.

(** What [classify] says of a message that is to be handled. *)
Lemma classify_inl (c : client) n u m :
  own_keys (_uidlMap c) → classify srv c n u = inl m →
  uidl m = Some u ∧ messageNumber m = Some n ∧
  match mget (_uidlMap c) (Some u) with
  | Some e => receivedAt m = receivedAt e ∧
      (status m = status e ∨
       status e = Some UIDL_KEEP ∧ status m = Some UIDL_DELETE ∧
       (leaveMessagesOnServer srv = false ∨ older e (_cutOffTimestamp c) = true))
  | None => is_download m = true
  end.
Proof.
  intros Hk Hc. unfold classify in Hc.
  destruct (mget (_uidlMap c) (Some u)) as [e|] eqn:He.
  - specialize (Hk u e He). destruct (status_is e UIDL_KEEP && _) eqn:E1.
    + injection Hc as <-. cbn. apply andb_true_iff in E1 as [E1 E2].
      apply bool_decide_eq_true in E1. split_and!; try done. right. split_and!; try done.
      apply orb_true_iff in E2 as [E2|E2]; [left; by apply negb_true_iff in E2|by right].
    + destruct (status_is e UIDL_FETCH_BODY || _); [|done]. injection Hc as <-. cbn. split_and!; try done. by left.
  - injection Hc as <-. cbn. split_and!; try done. unfold is_download, status_is. cbn.
    by destruct (headersOnly srv || too_big c n).
Qed.

(** The messages that are put back when the session ends with a status. *)
Definition unfinished (st : nsresult) (c : client) : list message :=
  if is_ok st then _messagesToHandle c
  else match _currentMessage c with Some m => m :: _messagesToHandle c | None => _messagesToHandle c end.

(** A message of uidl [u] is current, queued or in the uidl map, and it is as
    [Q] says. *)
Definition kept (u : option jsstr) (Q : message → Prop) (c : client) : Prop :=
  (∀ m, m ∈ unfinished NS_ERROR_FAILURE c → uidl m = u → Q m) ∧
  ((∃ m, m ∈ unfinished NS_ERROR_FAILURE c ∧ uidl m = u) ∨
   ∃ y, mget (_uidlMap c) u = Some y ∧ Q y).

Lemma unfinished_elem (c : client) m :
  m ∈ unfinished NS_ERROR_FAILURE c ↔ _currentMessage c = Some m ∨ m ∈ _messagesToHandle c.
Proof.
  unfold unfinished. change (is_ok NS_ERROR_FAILURE) with false. cbv iota.
  destruct (_currentMessage c) as [x|]; [rewrite elem_of_cons|]; naive_solver.
Qed.

Lemma kept_same u Q (c c' : client) :
  _currentMessage c' = _currentMessage c → _messagesToHandle c' = _messagesToHandle c →
  _uidlMap c' = _uidlMap c → kept u Q c → kept u Q c'.
Proof. unfold kept, unfinished. by intros -> -> ->. Qed.

(** The queue before the first message is taken from it. *)
Lemma kept_queue u Q (c c' : client) :
  _currentMessage c = None →
  unfinished NS_ERROR_FAILURE c' = _messagesToHandle c → _uidlMap c' = _uidlMap c →
  kept u Q c → kept u Q c'.
Proof.
  unfold kept. intros Hc Hq ->. rewrite Hq.
  by assert (unfinished NS_ERROR_FAILURE c = _messagesToHandle c) as -> by (unfold unfinished; by rewrite Hc).
Qed.

Lemma sink_call_kept u Q {X} (f : Sk → Sk * X) :
  safe_from (kept u Q) (λ _, True) (sink_call f : act X).
Proof.
  intros c Hc. unfold sink_call. destruct (f (_sink c)) as [s r]. split; [|constructor].
  by apply (kept_same u Q c).
Qed.

Ltac keep :=
  first [ apply sink_call_kept
        | solve [apply safe_modify; intros ? Hs; eapply kept_same; [| | |exact Hs]; done] ].

Lemma send_kept u Q str k : safe_from (kept u Q) (λ _, True) (_send str k : act unit).
Proof. safe_unfold keep. Qed.

Lemma write_kept u Q b : safe_from (kept u Q) (λ _, True) (_writeUidlState srv ev b : act bool).
Proof.
  safe_unfold ltac:(first [keep|apply safe_modify; intros c [H1 H2]]).
  split; [exact H1|]. destruct H2 as [(m & Hm & Hu)|Hy]; [left; by exists m|right].
  apply put_back_spec; [|by right]. intros m Hm. apply H1, unfinished_elem. by right.
Qed.

Lemma quit_kept u Q n : safe_from (kept u Q) (λ _, True) (quit n : act unit).
Proof. safe_unfold ltac:(first [apply send_kept|keep]). Qed.

Lemma put_current_kept u Q :
  safe_from (kept u Q) (λ _, True)
    (let! c := gets id in
     match _currentMessage c with
     | Some m => this, _messagesToHandle ::= λ l, m :: l
     | None => skip
     end : act unit).
Proof.
  apply safe_bind_gets. intros c Hc. unfold id.
  destruct (_currentMessage c) as [m|] eqn:Em; [|by split; [|constructor]].
  assert (Hu : ∀ x, x ∈ unfinished NS_ERROR_FAILURE (c <| _messagesToHandle ::= λ l, m :: l |>)
    ↔ x ∈ unfinished NS_ERROR_FAILURE c).
  { intros x. rewrite !unfinished_elem. cbn. rewrite Em, elem_of_cons. naive_solver. }
  split; [|constructor]. destruct Hc as [H1 H2].
  split; [intros x Hx; apply H1, Hu, Hx|]. destruct H2 as [(x & Hx & E)|Hy]; [left|by right].
  exists x. split; [by apply Hu|done].
Qed.

Lemma actionDone_kept u Q st : safe_from (kept u Q) (λ _, True) (_actionDone srv ev st : act unit).
Proof.
  unfold _actionDone. destruct (is_ok st);
    safe_unfold ltac:(first [apply write_kept|apply quit_kept|apply put_current_kept|keep]).
Qed.

Lemma handleMessage_kept u Q (c : client) :
  _currentMessage c = None → kept u Q c → kept u Q (_actionHandleMessage srv ev c).1.1.
Proof.
  intros Hc Hk. unfold _actionHandleMessage. rewrite bind_modify.
  match goal with |- context [bind (gets id) ?k ?s] => assert (Hk' : kept u Q s) end.
  { apply (kept_queue u Q c); [done| |done|done]. unfold unfinished. cbn. by destruct (_messagesToHandle c). }
  match goal with |- context [bind (gets id) ?k] =>
    assert (Hs : safe_from (kept u Q) (λ _, True) (bind (gets id) k)) end.
  { safe_unfold ltac:(first [apply write_kept|apply actionDone_kept|apply send_kept|keep]). }
  specialize (Hs _ Hk'). by destruct (bind _ _ _) as [[c' o] r]; destruct Hs.
Qed.

(** What the listing leaves for a message that was known. *)
Record listed_kept (u : option jsstr) (Q : message → Prop) (c : client) : Prop := {
  lk_current : _currentMessage c = None;
  lk_queue : ∀ m, m ∈ _messagesToHandle c → uidl m = u → Q m;
  lk_new : (∃ m, m ∈ _messagesToHandle c ∧ uidl m = u) ∨
           ∃ y, mget (_newUidlMap c) u = Some y ∧ Q y;
  lk_old : ∃ y, mget (_uidlMap c) u = Some y ∧ Q y
}.

Lemma listed_kept_old u Q (c : client) : listed_kept u Q c → kept u Q c.
Proof.
  intros [Hc Hq _ Ho]. split; [|by right]. intros m Hm. apply Hq.
  unfold unfinished in Hm. by rewrite Hc in Hm.
Qed.

Lemma listed_kept_new u Q (c c' : client) :
  listed_kept u Q c → _currentMessage c' = None →
  _messagesToHandle c' = _messagesToHandle c → _uidlMap c' = _newUidlMap c → kept u Q c'.
Proof.
  intros [Hc Hq Hn _] Hc' Eq Em.
  assert (E : unfinished NS_ERROR_FAILURE c' = _messagesToHandle c) by (unfold unfinished; by rewrite Hc').
  unfold kept. by rewrite E, Em.
Qed.

Lemma kept_run {X} u Q (m : act X) (c : client) :
  safe_from (kept u Q) (λ _, True) m → kept u Q c → kept u Q (m c).1.1.
Proof. intros Hm Hc. specialize (Hm c Hc). by destruct (m c) as [[c' o] r]; destruct Hm. Qed.

Lemma uidl_done_kept u Q (c : client) :
  listed_kept u Q c → kept u Q (uidl_done srv ev c).1.1.
Proof.
  intros Hl. unfold uidl_done. rewrite bind_gets. change (id c) with c. destruct (_downloadMail c); cbn [negb].
  2: { apply kept_run; [|by apply listed_kept_old].
       safe_unfold ltac:(first [apply actionDone_kept|keep]). }
  match goal with |- context [bind _ ?k c] => set (rest := k) end.
  assert (Hrest : ∀ s, listed_kept u Q s → kept u Q (rest tt s).1.1).
  { clear c Hl. intros c Hl. subst rest. cbv beta. rewrite bind_gets, !bind_modify. unfold id at 1 2 3 4.
    cbv zeta. destruct (warnIfLocalFileTooBig _ _).
    - apply kept_run; [apply actionDone_kept|]. by apply (kept_same u Q c), listed_kept_old.
    - rewrite !bind_modify. match goal with |- context [bind (emit ?e) ?k ?s] => rewrite (bind_emit e k s) end.
      match goal with |- context [_actionHandleMessage srv ev ?s] =>
        pose proof (handleMessage_kept u Q s) as Hh end.
      destruct (_actionHandleMessage srv ev _) as [[c' o] r]. apply Hh; [apply Hl|].
      by eapply (listed_kept_new u Q c); [|apply Hl|..]. }
  destruct (_singleUidlToDownload c) as [v|]; [|by unfold skip; rewrite bind_ret_l; apply Hrest].
  rewrite bind_assoc, !bind_modify. apply Hrest. destruct Hl as [Hc Hq _ Ho]. constructor; cbn; [done| |by right|done].
  intros m [_ Hm]%list_elem_of_filter. by apply Hq.
Qed.

(** A listed message that was known is among those to handle, or in the new
    uidl map. *)
Lemma known_listed (c c1 : client) es n u e :
  own_keys (_uidlMap c) → _currentMessage c1 = None → _uidlMap c1 = _uidlMap c →
  _messagesToHandle c1 = to_handle c es → _newUidlMap c1 = left_alone c es [] →
  (n, u) ∈ es → mget (_uidlMap c) (Some u) = Some e →
  listed_kept (Some u)
    (λ m, receivedAt m = receivedAt e ∧ (status m = status e ∨ status m = Some UIDL_DELETE)) c1.
Proof.
  intros Hk Hcur Hmap Hq Hn Hin He. constructor; [done|..].
  - rewrite Hq. intros x Hx Hu. apply list_elem_of_omap in Hx as ([n' u'] & Hin' & Hx). cbn in Hx.
    destruct (classify srv c n' u') as [m|] eqn:Hc; [|done]. injection Hx as ->.
    destruct (classify_inl c n' u' x Hk Hc) as (Hu' & _ & Hm).
    assert (u' = u) as -> by congruence. rewrite He in Hm. naive_solver.
  - rewrite Hq, Hn. destruct (classify srv c n u) as [m|e'] eqn:Hc.
    + left. exists m. split; [|by destruct (classify_inl c n u m Hk Hc)].
      apply list_elem_of_omap. exists (n, u). cbn. by rewrite Hc.
    + right. exists e. split; [|naive_solver]. apply left_alone_spec; [done|]. left. by exists n, e'.
  - rewrite Hmap. exists e. naive_solver.
Qed.

(** C17. The response to UIDL, in one chunk, to a client that has no message in
    hand and that owes no NOOP: of each listed message the uidl map knows,
    once the response is dealt with - the first message asked for, or the
    session at its end - the uidl map, with the messages put back that an end
    with an error puts back, has an entry with the same date of receipt and its
    status unchanged or turned to "delete"; each listed message it does not know
    is queued for download; and a message is queued for deletion only if it was
    known, as marked for deletion or as kept where it no longer is to be. The
    queue is the one before the end of the response is acted on. *)
Theorem listing_keeps_known (c : client) res es :
  fresh c → Forall listed_ok es → own_keys (_uidlMap c) → _currentMessage c = None →
  _messagesToHandle c = [] → _newUidlMap c = [] → _lineReader c = newLineReader →
  failed res = false → data res = encode (listing es) → Forall crlf_free (listing es) →
  (∀ n u e, (n, u) ∈ es → mget (_uidlMap c) (Some u) = Some e →
     let c' := (_actionUidlResponse srv ev res c).1.1 in
     ∃ m, mget (put_back (unfinished NS_ERROR_FAILURE c') (_uidlMap c')) (Some u) = Some m ∧
       receivedAt m = receivedAt e ∧ (status m = status e ∨ status m = Some UIDL_DELETE)) ∧
  ∃ c1, _actionUidlResponse srv ev res c
        = (let '(c2, o, r) := uidl_done srv ev c1 in (c2 <| _lineReader := newLineReader |>, o, r)) ∧
  (∀ n u, (n, u) ∈ es → mget (_uidlMap c) (Some u) = None →
     ∃ m, m ∈ _messagesToHandle c1 ∧ uidl m = Some u ∧ messageNumber m = Some n ∧
       is_download m = true) ∧
  (∀ m, m ∈ _messagesToHandle c1 → status m = Some UIDL_DELETE →
     ∃ n u e, (n, u) ∈ es ∧ uidl m = Some u ∧ messageNumber m = Some n ∧
       mget (_uidlMap c) (Some u) = Some e ∧
       (status e = Some UIDL_DELETE ∨ status e = Some UIDL_KEEP ∧
        (leaveMessagesOnServer srv = false ∨ older e (_cutOffTimestamp c) = true))).
Proof.
  intros Hf Hes Hk Hcur Hq Hn Hr Hok Hd Hcr.
  set (c0 := c <| _lineReader := newLineReader |>).
  destruct (listing_run es c0 Hf Hes) as (c1 & Hrun & (Hmap & _ & _ & _ & Hcur1) & Hq1 & Hn1).
  destruct (listing_same c c0 es) as [E1 E2]; [done|].
  assert (Hq2 : _messagesToHandle c1 = to_handle c es) by (rewrite Hq1, E1; cbn; by rewrite Hq).
  assert (Hn2 : _newUidlMap c1 = left_alone c es []) by (rewrite Hn1, E2; cbn; by rewrite Hn).
  clear Hq1 Hn1 E1 E2.
  assert (Hresp : _actionUidlResponse srv ev res c
    = (let '(c2, o, r) := uidl_done srv ev c1 in (c2 <| _lineReader := newLineReader |>, o, r))).
  { unfold _actionUidlResponse. rewrite Hok.
    rewrite (read_lines_complete _ _ (listing es) (data res) c c1 []);
      [done|done|cbn; by rewrite Hr|exact Hrun]. }
  split; [|exists c1; split; [done|rewrite Hq2; split]].
  - intros n u e Hin He. cbv zeta. rewrite Hresp.
    pose proof (uidl_done_kept (Some u)
      (λ m, receivedAt m = receivedAt e ∧ (status m = status e ∨ status m = Some UIDL_DELETE)) c1) as Hu.
    destruct (uidl_done srv ev c1) as [[c2 o] r]. destruct Hu as [H1 H2].
    + apply (known_listed c c1 es n); try done. by rewrite Hcur1.
    + apply put_back_spec; done.
  - intros n u Hin He. destruct (classify srv c n u) as [m|e'] eqn:Hc.
    + destruct (classify_inl c n u m Hk Hc) as (H1 & H2 & H3). rewrite He in H3.
      exists m. split_and!; try done. apply list_elem_of_omap. exists (n, u). cbn. by rewrite Hc.
    + unfold classify in Hc. by rewrite He in Hc.
  - intros m Hm Hs. apply list_elem_of_omap in Hm as ([n u] & Hin & Hx). cbn in Hx.
    destruct (classify srv c n u) as [m'|] eqn:Hc; [|done]. injection Hx as ->.
    destruct (classify_inl c n u m Hk Hc) as (H1 & H2 & H3). exists n, u.
    destruct (mget (_uidlMap c) (Some u)) as [e|].
    + exists e. split_and!; try done. destruct H3 as [_ [H3|(H3 & _ & H4)]]; [left; congruence|by right].
    + unfold is_download, status_is in H3. rewrite Hs in H3. by vm_compute in H3.
Qed.

(** ** The end of a session *)

Abbreviation saved x := (λ c : client, popstate c = x).

Lemma sink_call_saved {X} x (f : Sk → Sk * X) : safe_from (saved x) (λ _, True) (sink_call f : act X).
Proof. intros c Hc. unfold sink_call. destruct (f (_sink c)) as [s r]. done. Qed.

Lemma forall_true (o : list event) : Forall (λ _, True) o.
Proof. by apply Forall_true. Qed.

Lemma quit_saved x n : safe_from (saved x) (λ _, True) (quit n : act unit).
Proof. unfold quit. safe_unfold ltac:(apply sink_call_saved). Qed.

(** The content of popstate.dat with messages put back. *)
Definition state_with (c : client) (q : list message) : jsstr :=
  uidl_state_content (hostName srv) (server_username srv) (put_back q (_uidlMap c)).

(** What is in popstate.dat after it is written, and whether that succeeded. *)
Definition write_result (c : client) (q : list message) : option jsstr * bool :=
  if _uidlMapChanged c then
    if write_ok ev (state_with c q) then (Some (state_with c q), true)
    else (write_failed ev (state_with c q) (popstate c), false)
  else (popstate c, true).

Lemma write_run (c : client) :
  ∃ c', _writeUidlState srv ev true c = (c', [], Some (write_result c (_messagesToHandle c)).2) ∧
        popstate c' = (write_result c (_messagesToHandle c)).1 ∧
        _noopRespPending c' = _noopRespPending c.
Proof.
  unfold _writeUidlState, write_result. rewrite bind_gets. destruct (_uidlMapChanged c); cbn [negb].
  - rewrite bind_modify, bind_gets. unfold id. cbv zeta.
    match goal with |- context [write_ok ev ?x] =>
      change x with (state_with c (_messagesToHandle c)) end.
    destruct (write_ok ev _); rewrite !bind_modify; cbn [when]; [rewrite bind_modify|];
      (eexists; split; [reflexivity|done]).
  - by exists c.
Qed.

Lemma quit_timer (c : client) st :
  _noopRespPending c = false → cleanupTimer (quit (Some st) c).1.1 = Some st.
Proof.
  intros Hn. unfold quit. rewrite bind_modify, bind_gets.
  match goal with |- context [is_open ?s] => destruct (is_open s) eqn:Ho end.
  - unfold _send. rewrite bind_gets. unfold id. rewrite Ho. cbn [negb].
    match goal with |- context [_noopRespPending ?s] =>
      change (_noopRespPending s) with (_noopRespPending c) end. rewrite Hn.
    unfold now_send, socket_send. rewrite !bind_assoc, bind_gets. unfold id.
    unfold is_open in Ho. destruct (_socket _) as [s|]; [|done]. rewrite Ho. done.
  - unfold bind at 1, async, catch, skip, ret. destruct (_cleanUp st _) as [[c1 o1] [[]|]]; done.
Qed.

(** The end of a session: popstate.dat, and the status it ends with. *)
Lemma actionDone_saves (c : client) st :
  _done c = false →
  popstate (_actionDone srv ev st c).1.1 = (write_result c (unfinished st c)).1 ∧
  (_noopRespPending c = false →
   cleanupTimer (_actionDone srv ev st c).1.1
     = Some (if (write_result c (unfinished st c)).2 then st else NS_ERROR_FAILURE)).
Proof.
  intros Hd. unfold _actionDone. rewrite bind_gets, Hd. cbn [negb when]. rewrite !bind_modify.
  assert (Hrest : ∀ c1 : client, _messagesToHandle c1 = unfinished st c →
    _uidlMapChanged c1 = _uidlMapChanged c → _uidlMap c1 = _uidlMap c → popstate c1 = popstate c →
    _noopRespPending c1 = _noopRespPending c →
    let c2 := ((let! written := _writeUidlState srv ev true in
               quit (Some (if written then st else NS_ERROR_FAILURE))) c1).1.1 in
    popstate c2 = (write_result c (unfinished st c)).1 ∧
    (_noopRespPending c = false → cleanupTimer c2
       = Some (if (write_result c (unfinished st c)).2 then st else NS_ERROR_FAILURE))).
  { intros c1 H1 H2 H3 H4 H5.
    assert (Es : write_result c1 (_messagesToHandle c1) = write_result c (unfinished st c)).
    { unfold write_result, state_with. by rewrite H1, H2, H3, H4. }
    destruct (write_run c1) as (c2 & Hr & Hp & Hn). unfold bind. rewrite Hr, Es.
    match goal with |- context [quit (Some ?x) c2] =>
      pose proof (quit_saved (popstate c2) (Some x) c2 eq_refl) as Hq;
      pose proof (quit_timer c2 x) as Ht; destruct (quit (Some x) c2) as [[c3 o] r] end.
    cbn in *. destruct Hq as [-> _]. rewrite Hp, Es. split; [done|]. intros Hn'. apply Ht. by rewrite Hn, H5. }
  rewrite bind_assoc, bind_gets. unfold id. cbv beta.
  unfold unfinished in *. destruct (is_ok st).
  - unfold _updateStatus. rewrite bind_assoc, bind_gets.
    match goal with |- context [when ?b _] => destruct b end; cbn [when];
      [rewrite bind_emit|unfold skip; rewrite bind_ret_l; by apply Hrest].
    match goal with |- context [bind (_writeUidlState srv ev true) ?k ?s] =>
      specialize (Hrest s eq_refl eq_refl eq_refl eq_refl eq_refl);
      destruct (bind (_writeUidlState srv ev true) k s) as [[? ?] ?] end.
    exact Hrest.
  - match goal with |- context [_currentMessage ?s] =>
      change (_currentMessage s) with (_currentMessage c) end.
    destruct (_currentMessage c) as [m|];
      [rewrite bind_modify|unfold skip; rewrite bind_ret_l]; by apply Hrest.
Qed.

(** C34. When a session ends, popstate.dat is written if the uidl map changed,
    with the messages not yet handled put back, the one being handled among
    them unless the status is a success; otherwise the file is not touched. When
    the write fails the file is what the failed write leaves, whatever that is.
    Where no answer to a NOOP is awaited, the status the session goes on to
    clean up with is the given one, or a failure when the write failed. A
    session that has ended already is not ended again. *)
Theorem session_end_saves (c : client) st :
  let '(c', o, _) := _actionDone srv ev st c in
  if _done c then c' = c ∧ o = []
  else popstate c' = (write_result c (unfinished st c)).1 ∧
       (_noopRespPending c = false →
        cleanupTimer c' = Some (if (write_result c (unfinished st c)).2 then st else NS_ERROR_FAILURE)).
Proof.
  destruct (_done c) eqn:Hd.
  - unfold _actionDone. rewrite bind_gets, Hd. done.
  - pose proof (actionDone_saves c st Hd). by destruct (_actionDone srv ev st c) as [[c' o] r].
Qed.

Lemma mget_put_back_None k q m :
  mget m k = None → k ∉ uidl <$> q → mget (put_back q m) k = None.
Proof.
  unfold put_back. revert m. induction q as [|x q IH]; intros m Hm Hk; cbn; [done|].
  apply not_elem_of_cons in Hk as [Hne Hk]. apply IH; [|done]. by rewrite mget_mset_ne by done.
Qed.

(** When the server closes the connection while a known message is being
    fetched again or deleted, the session ends as a success and popstate.dat is
    written without that message: the next session takes it for a new one. *)
Theorem close_forgets_current (c : client) m :
  _done c = false → _authenticating c = false → _uidlMapChanged c = true →
  _currentMessage c = Some m →
  mget (_uidlMap c) (uidl m) = None → uidl m ∉ uidl <$> _messagesToHandle c →
  write_ok ev (state_with c (_messagesToHandle c)) = true →
  popstate (handle srv ev ISocketClosed c).1.1 = Some (state_with c (_messagesToHandle c)) ∧
  mget (put_back (_messagesToHandle c) (_uidlMap c)) (uidl m) = None ∧
  mget (put_back (unfinished NS_ERROR_FAILURE c) (_uidlMap c)) (uidl m) = Some m.
Proof.
  intros Hd Ha Hch Hm Hn Hq Hw. split_and!.
  - cbn [handle]. unfold _onClose. rewrite !bind_modify, bind_gets.
    match goal with |- context [_authenticating ?s] =>
      change (_authenticating s) with (_authenticating c) end. rewrite Ha.
    match goal with |- context [_actionDone srv ev NS_OK ?s] =>
      destruct (actionDone_saves s NS_OK Hd) as [-> _] end.
    unfold write_result. cbn. rewrite Hch.
    match goal with |- context [write_ok ev ?x] =>
      change x with (state_with c (_messagesToHandle c)) end.
    by rewrite Hw.
  - by apply mget_put_back_None.
  - unfold unfinished. rewrite Hm.
    change (is_ok NS_ERROR_FAILURE) with false. cbn iota.
    assert (Hb : put_back (m :: _messagesToHandle c) (_uidlMap c)
      = put_back (_messagesToHandle c) (mset (_uidlMap c) (uidl m) m)) by done.
    rewrite Hb. clear -Hq. revert Hq. unfold put_back.
    assert (Hg : ∀ q mm, uidl m ∉ uidl <$> q → mget mm (uidl m) = Some m →
      mget (fold_left (λ mm e, mset mm (uidl e) e) q mm) (uidl m) = Some m).
    { intros q. induction q as [|x q IH]; intros mm Hk Hmm; cbn; [done|].
      apply not_elem_of_cons in Hk as [Hne Hk]. apply IH; [done|]. by rewrite mget_mset_ne by done. }
    intros Hq. apply Hg; [done|]. by rewrite mget_mset_eq.
Qed.
End Mail.

(** ** Witnesses *)

Definition sampleSrv : Pop3Server := samplePop3Server trySTARTTLS false.

(** [A] is to be deleted; then [B] is being retrieved. *)
Definition atUidl : Pop3Client unit (list sinkCall) := samplePop3Client sampleSrv sampleLogin.
Definition atDele : Pop3Client unit (list sinkCall) :=
  samplePop3Client sampleSrv (sampleLogin ++ [lines_in (listing sampleListing)]).
Definition atRetr : Pop3Client unit (list sinkCall) :=
  samplePop3Client sampleSrv (sampleLogin ++ [lines_in (listing sampleListing); line_in (js "+OK")]).

Definition messageA : message :=
  mkMessage (Some (js "A")) (Some UIDL_DELETE) (Some (js "17")) (Some (js "1")).
Definition messageB : message :=
  mkMessage (Some (js "B")) (Some UIDL_FETCH_BODY) None (Some (js "2")).

Lemma recording_accepting : accepting (Sk := list sinkCall).
Proof. by constructor. Qed.

Lemma retr_delivers_witness :
  ∃ c', run sampleSrv samplePop3Env
      (map IData [js "+O"; js "K 20" ++ CRLF ++ js "..a"; CRLF ++ js "b" ++ CRLF; js "." ++ CRLF]) atRetr
    = (c', [Send true (js "DELE 2" ++ CRLF)], Some tt) ∧
    _sink c' = [SBegin (Some (js "B")) false; SWrite (js ".a" ++ [LF]); SWrite (js "b" ++ [LF]); SComplete].
Proof.
  assert (Hl : leaves sampleSrv atRetr = false) by (vm_compute; reflexivity).
  assert (Hc : awaiting_retr atRetr true).
  { constructor; [vm_compute; reflexivity..|]. vm_compute. discriminate. }
  assert (Hm : _currentMessage atRetr = Some messageB) by (vm_compute; reflexivity).
  assert (Hs : _sink atRetr = []) by (vm_compute; reflexivity).
  pose proof (retr_delivers sampleSrv samplePop3Env atRetr true messageB (js " 20") [js ".a"; js "b"]
    [js "+O"; js "K 20" ++ CRLF ++ js "..a"; CRLF ++ js "b" ++ CRLF; js "." ++ CRLF]
    Hc recording_accepting) as H.
  rewrite Hl, Hs in H. destruct H as (c' & Hr & Hsink & _).
  - by apply (bool_decide_unpack _); vm_compute.
  - by repeat constructor.
  - by repeat constructor.
  - by vm_compute.
  - exact Hm.
  - exists c'. split; [exact Hr|]. rewrite Hsink. by vm_compute.
Defined.

Lemma listing_keeps_known_witness :
  let c' := (_actionUidlResponse sampleSrv samplePop3Env
    (mkResponse (Some (js "+OK")) true (Some []) (encode (listing sampleListing))) atUidl).1.1 in
  ∃ m, mget (put_back (unfinished NS_ERROR_FAILURE c') (_uidlMap c')) (Some (js "A")) = Some m ∧
    receivedAt m = Some (js "17") ∧ status m = Some UIDL_DELETE.
Proof.
  assert (Hf : fresh atUidl) by (vm_compute; discriminate).
  assert (Hes : Forall listed_ok sampleListing) by (by repeat constructor; apply (bool_decide_unpack _); vm_compute).
  assert (Em : _uidlMap atUidl = [(Some (js "A"), state_of (js "A") UIDL_DELETE (js "17"))])
    by (vm_compute; reflexivity).
  assert (Hk : own_keys (_uidlMap atUidl)).
  { rewrite Em. intros u e Hu. cbn in Hu. destruct (decide _) as [E|] in Hu; [|done].
    by injection Hu as <-. }
  assert (Hcur : _currentMessage atUidl = None) by (vm_compute; reflexivity).
  assert (Hq : _messagesToHandle atUidl = []) by (vm_compute; reflexivity).
  assert (Hn : _newUidlMap atUidl = []) by (vm_compute; reflexivity).
  assert (Hr : _lineReader atUidl = newLineReader) by (vm_compute; reflexivity).
  assert (Hl : Forall crlf_free (listing sampleListing)) by (by repeat constructor).
  destruct (listing_keeps_known sampleSrv samplePop3Env atUidl
    (mkResponse (Some (js "+OK")) true (Some []) (encode (listing sampleListing))) sampleListing
    Hf Hes Hk Hcur Hq Hn Hr eq_refl eq_refl Hl) as [Hkn _].
  specialize (Hkn (js "1") (js "A") (state_of (js "A") UIDL_DELETE (js "17"))). rewrite Em in Hkn.
  destruct Hkn as (m & H1 & H2 & H3); [apply list_elem_of_here|reflexivity|].
  exists m. split; [exact H1|split; [exact H2|by destruct H3]].
Defined.

Lemma session_end_saves_witness :
  let '(c', _, _) := _actionDone sampleSrv samplePop3Env NS_ERROR_NET_RESET atDele in
  popstate c' = Some sampleState ∧ cleanupTimer c' = Some NS_ERROR_NET_RESET.
Proof.
  pose proof (session_end_saves sampleSrv samplePop3Env atDele NS_ERROR_NET_RESET) as Hs.
  destruct (_actionDone _ _ _ atDele) as [[c' o] r].
  assert (Hd : _done atDele = false) by (by vm_compute). rewrite Hd in Hs.
  assert (Hn : _noopRespPending atDele = false) by (vm_compute; reflexivity).
  destruct Hs as [-> Ht]. rewrite (Ht Hn). split; vm_compute; reflexivity.
Defined.

Lemma close_forgets_current_witness :
  let f := popstate (handle sampleSrv samplePop3Env ISocketClosed atDele).1.1 in
  f ≠ Some sampleState ∧ mget (load_uidl_state f) (Some (js "A")) = None.
Proof.
  assert (Hd : _done atDele = false) by (vm_compute; reflexivity).
  assert (Ha : _authenticating atDele = false) by (vm_compute; reflexivity).
  assert (Hch : _uidlMapChanged atDele = true) by (vm_compute; reflexivity).
  assert (Hm : _currentMessage atDele = Some messageA) by (vm_compute; reflexivity).
  assert (Hn : mget (_uidlMap atDele) (uidl messageA) = None) by (vm_compute; reflexivity).
  assert (Hq : uidl messageA ∉ uidl <$> _messagesToHandle atDele)
    by (apply (bool_decide_unpack _); vm_compute; exact I).
  destruct (close_forgets_current sampleSrv samplePop3Env atDele messageA Hd Ha Hch Hm Hn Hq eq_refl)
    as (-> & _ & _).
  split; vm_compute; [discriminate|reflexivity].
Defined.
