(* ===== verification/NntpNewsGroup.v ===== *)
(** * NntpNewsGroup: the articles of a newsgroup and their headers

    mailnews/news/src/NntpNewsGroup.sys.mjs.  Which articles are fetched is
    decided on the set of the articles known (MsgKeySet), which the database
    keeps as a string; the lines of XOVER, XHDR and HEAD make headers, which the
    filters see before they are added.  The message database is the interface
    [MsgDatabase], its header objects identified by numbers; the filter lists,
    the settings, the dialog and the parser of dates are fields of the
    environment. *)

From S2P Require Import Prelude Effects MsgKeySet.

(** ** The outside *)

(** An nsIMsgDBHdr; the attributes hold what was assigned to them. *)
Record msgHdr := mkMsgHdr {
  messageKey : jsstr;
  flags : list jsstr;
  subject : jsstr;
  author : jsstr;
  date : num;
  messageId : jsstr;
  references : jsstr;
  messageSize : jsstr;
  lineCount : jsstr;
  priority : jsstr;
  properties : list (jsstr * jsstr)
}.
#[export] Instance eta_msgHdr : Settable msgHdr := λ h,
  mkMsgHdr (messageKey h) (flags h) (subject h) (author h) (date h) (messageId h) (references h)
    (messageSize h) (lineCount h) (priority h) (properties h).

Definition newHdr (key : jsstr) : msgHdr := mkMsgHdr key [] [] [] None [] [] [] [] [] [].

(** nsIMsgDatabase, over the header objects. *)
Class MsgDatabase (D : Type) := {
  createNewHdr : jsstr → D → D * nat;
  getMsgHdrForKey : jsstr → D → option nat;              (* None: null *)
  hdr : nat → D → msgHdr;
  set_hdr : nat → (msgHdr → msgHdr) → D → D;
  containsKey : jsstr → D → bool;
  addNewHdrToDB : nat → D → D;
  lowWaterArticleNum : D → num;
  highWaterArticleNum : D → num
}.

Inductive filterAction :=
  | FDelete | FMarkRead | FMarkUnread | FKillThread | FKillSubthread | FWatchThread
  | FMarkFlagged | FChangePriority (p : jsstr) | FAddTag (t : jsstr) | FStopExecution
  | FCustom (name : jsstr) | FOther.

Record env := mkEnv {
  maxArticles : num;
  notifyOn : bool;
  markOldRead : bool;
  newsrcLine : jsstr;
  folderHeaders : jsstr;                       (* arbitraryHeaders of the filter lists *)
  serverHeaders : jsstr;
  hasTopmostWindow : bool;
  downloadDialog : num → option bool;          (* None: cancelled; is it for all articles? *)
  localizedRe : jsstr;
  parseDate : jsstr → num;                     (* new Date(s).valueOf() *)
  folderFilterCount : Z;
  serverFilterCount : Z;
  (* the filters of the folder's and of the server's list that match a header,
     with what the caller made of its author and subject *)
  folderMatches : msgHdr → jsstr → list (list filterAction);
  serverMatches : msgHdr → jsstr → list (list filterAction)
}.

Inductive event :=
  | ShowNoNewMessages
  | OpenDialog (count : num)
  | MsgAdded (key : jsstr)
  | MarkHdrRead (key : jsstr) (read : bool)
  | AddKeywords (key tag : jsstr)
  | CustomAction (key name : jsstr)
  | SetReadSetFromStr (ranges : jsstr)
  | FinishedDownloading
  | CommitAndClose.

(** ** The state *)

(** [dBFolderInfo]: the high water mark and the known articles. *)
Record groupInfo := mkGroupInfo { highWater : num; knownArtsSet : jsstr }.

Record NewsGroup (D : Type) := mkNewsGroup {
  _db : D;
  dBFolderInfo : option groupInfo;
  _getOldMessages : bool;
  _msgWindow : bool;
  _filterHeaders : list jsstr;
  _knownKeySet : option (list range);
  _readKeySet : option (list range);
  _msgHdrs : list nat;
  _msgHdr : option nat;
  _addHdrToDB : bool
}.
Arguments mkNewsGroup {D}. Arguments _db {D}. Arguments dBFolderInfo {D}.
Arguments _getOldMessages {D}. Arguments _msgWindow {D}. Arguments _filterHeaders {D}.
Arguments _knownKeySet {D}. Arguments _readKeySet {D}. Arguments _msgHdrs {D}.
Arguments _msgHdr {D}. Arguments _addHdrToDB {D}.
#[export] Instance eta_NewsGroup D : Settable (NewsGroup D) := λ g,
  mkNewsGroup (_db g) (dBFolderInfo g) (_getOldMessages g) (_msgWindow g) (_filterHeaders g)
    (_knownKeySet g) (_readKeySet g) (_msgHdrs g) (_msgHdr g) (_addHdrToDB g).

(** The constructor, and the setter [getOldMessages]. *)
Definition newNewsGroup {D} (db : D) (info : option groupInfo) : NewsGroup D :=
  mkNewsGroup db info false false [] None None [] None false.

(** [s.split(" ").filter(Boolean)], without duplicates. *)
Fixpoint header_set (l : list jsstr) (acc : list jsstr) : list jsstr :=
  match l with
  | [] => acc
  | x :: l' =>
      header_set l' (if str_truthy x && negb (bool_decide (x ∈ acc)) then acc ++ [x] else acc)
  end.

Section Methods.
Context {D : Type} `{MsgDatabase D}.
Variable ev : env.
Abbreviation act := (eff (NewsGroup D) event).

(** ** The range to fetch *)

(** The articles known before the fetch. *)
Definition load_known (lastPossible : num) : act (list range) :=
  let! g := gets id in
  match dBFolderInfo g with
  | Some info =>
      let info := if nlt lastPossible (highWater info)
                  then mkGroupInfo lastPossible (knownArtsSet info) else info in
      bind (this, dBFolderInfo := Some info) (λ _, ret (MsgKeySet (knownArtsSet info)))
  | None =>
      ret (addRange (MsgKeySet []) (lowWaterArticleNum (_db g)) (highWaterArticleNum (_db g)))
  end.

(** The array [a, b], where a missing or undefined element is [NaN]. *)
Abbreviation range_result := (num * num)%type.
Definition no_range : range_result := (None, None).

(** The answer of the dialog on how many articles to fetch. *)
Definition ask_range (firstPossible start e : num) : act range_result :=
  let count := nadd (nsub e start) (Some 1) in
  let! g := gets id in
  if negb (_msgWindow g) then throw
  else bind (emit (OpenDialog count)) (λ _,
  match downloadDialog ev count with
  | None => ret no_range
  | Some all =>
      let start := if all then start else nadd (nsub e (maxArticles ev)) (Some 1) in
      bind (when (markOldRead ev)
              (match split_on 58 (newsrcLine ev) !! 1%nat with
               | Some s => this, _readKeySet :=
                   Some (addRange (MsgKeySet (trim s)) firstPossible (nsub start (Some 1)))
               | None => throw
               end)) (λ _, ret (start, e))
  end).

(** The result, and whether there is a range to fetch. *)
Definition getArticlesRangeToFetch (msgWindow : bool) (firstPossible lastPossible : num) :
    act range_result :=
  bind (this, _msgWindow := msgWindow || hasTopmostWindow ev) (λ _,
  bind (this, _filterHeaders :=
          header_set (split_on SP (folderHeaders ev ++ [SP] ++ serverHeaders ev)) []) (λ _,
  let! known := load_known lastPossible in
  bind (this, _knownKeySet := Some known) (λ _,
  bind (when (has known lastPossible && msgWindow) (emit ShowNoNewMessages)) (λ _,
  let! old := gets _getOldMessages in
  if old || negb (has known lastPossible) then
    let '(start, e) := match getLastMissingRange known firstPossible lastPossible with
                       | Some r => r | None => no_range end in
    if old then ret (nmax start (nadd (nsub e (maxArticles ev)) (Some 1)), e)
    else if num_truthy start && nlt (maxArticles ev) (nsub e start) && notifyOn ev
    then ask_range firstPossible start e
    else ret (start, e)
  else ret no_range)))).

Definition addKnownArticles (start e : num) : act unit :=
  let! k := gets _knownKeySet in
  match k with
  | Some rs => this, _knownKeySet := Some (addRange rs start e)
  | None => throw
  end.

(** ** Headers *)

Definition set (id : nat) (f : msgHdr → msgHdr) : act unit := modify (λ g, g <| _db ::= set_hdr id f |>).

Definition orFlags (f : jsstr) (h : msgHdr) : msgHdr := h <| flags ::= λ l, l ++ [f] |>.

(** How the flag "i" compares characters. *)
Definition fold_case (c : Z) : Z := match upper_char c with [u] => u | _ => c end.

(** [s] without a prefix [p], letters compared without their case. *)
Definition drop_prefix (p s : jsstr) : option jsstr :=
  if map fold_case (take (length p) s) ==s map fold_case p
  then Some (drop (length p) s) else None.

Fixpoint first_prefix (ps : list jsstr) (s : jsstr) : option jsstr :=
  match ps with
  | [] => None
  | p :: ps' => match drop_prefix p s with Some r => Some r | None => first_prefix ps' s end
  end.

(** The regex [^(p: |q: )+], for prefixes without special characters: as many
    of them as there are; every round drops at least two characters. *)
Fixpoint strip_prefixes (fuel : nat) (ps : list jsstr) (s : jsstr) : jsstr :=
  match fuel with
  | O => s
  | S f => match first_prefix ps s with Some r => strip_prefixes f ps r | None => s end
  end.

Definition re_prefixes : list jsstr :=
  let prefixes := filter (λ p, str_truthy p = true) (split_on 44 (localizedRe ev)) in
  let prefixes := if bool_decide (js "Re" ∈ prefixes) then prefixes else prefixes ++ [js "Re"] in
  map (λ p, p ++ [58; SP]) prefixes.

Definition strip_re (s : jsstr) : jsstr := strip_prefixes (length s) re_prefixes s.

Definition setSubject (id : nat) (s : jsstr) : act unit :=
  let newSubject := strip_re s in
  set id (λ h, h <| subject := newSubject |>) >>
  when (negb (newSubject ==s s)) (set id (orFlags (js "HasRe"))).

Definition create (key : jsstr) : act nat := λ g,
  let '(d, id) := createNewHdr key (_db g) in (g <| _db := d |>, [], Some id).

Definition processXOverLine (line : jsstr) : act unit :=
  match split_on 9 line with
  | articleNumber :: subj :: from :: dt :: mid :: refs :: bytes :: lines :: _ =>
      let! id := create articleNumber in
      set id (orFlags (js "New")) >>
      setSubject id subj >>
      set id (λ h, h <| author := from |>) >>
      set id (λ h, h <| date := option_map (λ n, n * 1000) (parseDate ev dt) |>) >>
      set id (λ h, h <| messageId := mid |>) >>
      set id (λ h, h <| references := refs |>) >>
      set id (λ h, h <| messageSize := bytes |>) >>
      set id (λ h, h <| lineCount := lines |>) >>
      (this, _msgHdrs ::= λ l, l ++ [id])
  | _ => skip
  end.

Definition getXHdrFields (g : NewsGroup D) : list jsstr :=
  filter (λ x, x ∉ [js "message-id"; js "references"]) (_filterHeaders g).

Definition processXHdrLine (header line : jsstr) : act unit :=
  let spaceIndex := indexOf line [SP] in
  let articleNumber := slice line 0 spaceIndex in
  let value := trim (slice_from line spaceIndex) in
  let! g := gets id in
  match getMsgHdrForKey articleNumber (_db g) with
  | Some h => set h (λ x, x <| properties ::= λ m, mset m header value |>)
  | None => throw
  end.

Definition initHdr (articleNumber : num) : act unit :=
  (let! h := gets _msgHdr in
   match h with Some h => this, _msgHdrs ::= λ l, l ++ [h] | None => skip end) >>
  (if nle (Some 0) articleNumber
   then let! id := create (nstr articleNumber) in this, _msgHdr := Some id else skip).

(** An assignment to the header that HEAD is filling; it throws when there is
    none. *)
Definition on_hdr (f : nat → act unit) : act unit :=
  let! h := gets _msgHdr in match h with Some h => f h | None => throw end.

Definition processHeadLine (line : jsstr) : act unit :=
  let colonIndex := indexOf line [58] in
  let name := slice line 0 colonIndex in
  let value := trim (slice_from line (colonIndex + 1)) in
  if name ==s js "from" then on_hdr (λ h, set h (λ x, x <| author := value |>))
  else if name ==s js "date" then
    on_hdr (λ h, set h (λ x, x <| date := option_map (λ n, n * 1000) (parseDate ev value) |>))
  else if name ==s js "subject" then
    on_hdr (λ h, setSubject h value >> set h (orFlags (js "New")))
  else if name ==s js "message-id" then on_hdr (λ h, set h (λ x, x <| messageId := value |>))
  else if name ==s js "references" then on_hdr (λ h, set h (λ x, x <| references := value |>))
  else if name ==s js "bytes" then on_hdr (λ h, set h (λ x, x <| messageSize := value |>))
  else if name ==s js "lines" then on_hdr (λ h, set h (λ x, x <| lineCount := value |>))
  else
    let! g := gets id in
    when (bool_decide (name ∈ _filterHeaders g))
      (on_hdr (λ h, set h (λ x, x <| properties ::= λ m, mset m name value |>))).

(** ** Filters *)

(** One action of a filter on a header; the result is the new [applyMore]. *)
Definition apply_action (id : nat) (a : filterAction) (applyMore : bool) : act bool :=
  let! g := gets (λ g, g) in
  let key := messageKey (hdr id (_db g)) in
  match a with
  | FDelete => bind (this, _addHdrToDB := false) (λ _, ret applyMore)
  | FMarkRead => bind (emit (MarkHdrRead key true)) (λ _, ret applyMore)
  | FMarkUnread => bind (emit (MarkHdrRead key false)) (λ _, ret applyMore)
  | FKillThread =>
      bind (set id (λ h, h <| properties ::= λ m, mset m (js "ProtoThreadFlags") (js "Ignored") |>))
        (λ _, ret applyMore)
  | FKillSubthread => bind (set id (orFlags (js "Ignored"))) (λ _, ret applyMore)
  | FWatchThread => bind (set id (orFlags (js "Watched"))) (λ _, ret applyMore)
  | FMarkFlagged => bind (set id (orFlags (js "Marked"))) (λ _, ret applyMore)
  | FChangePriority p => bind (set id (λ h, h <| priority := p |>)) (λ _, ret applyMore)
  | FAddTag t => bind (emit (AddKeywords key t)) (λ _, ret applyMore)
  | FStopExecution => ret false
  | FCustom n => bind (emit (CustomAction key n)) (λ _, ret applyMore)
  | FOther => throw
  end.

Fixpoint apply_actions (id : nat) (l : list filterAction) (applyMore : bool) : act bool :=
  match l with
  | [] => ret applyMore
  | a :: l' => bind (apply_action id a applyMore) (λ more, apply_actions id l' more)
  end.

(** [applyFilterHit]. *)
Definition applyFilterHit (id : nat) (filter : list filterAction) : act bool :=
  apply_actions id filter true.

(** [applyFiltersToHdr] of a list of filters: the ones that match, in order, up
    to the first whose hit says to stop. *)
Fixpoint applyFiltersToHdr (id : nat) (filters : list (list filterAction)) : act unit :=
  match filters with
  | [] => skip
  | f :: filters' =>
      let! more := applyFilterHit id f in
      when more (applyFiltersToHdr id filters')
  end.

(** What the filters get of the headers: lines that end in NUL. *)
Definition filter_headers (h : msgHdr) : jsstr :=
  if negb (folderFilterCount ev =? 0) || negb (serverFilterCount ev =? 0) then
    (if str_truthy (author h) then js "From: " ++ author h ++ [0] else [])
    ++ (if str_truthy (subject h) then js "Subject: " ++ subject h ++ [0] else [])
  else [].

Definition filter_hdr (id : nat) : act unit :=
  (this, _addHdrToDB := true) >>
  (let! g := gets (λ g, g) in
   let headers := filter_headers (hdr id (_db g)) in
   when (negb (folderFilterCount ev =? 0))
     (applyFiltersToHdr id (folderMatches ev (hdr id (_db g)) headers)) >>
   (let! g := gets (λ g, g) in
    when (negb (serverFilterCount ev =? 0))
      (applyFiltersToHdr id (serverMatches ev (hdr id (_db g)) headers)))) >>
  (let! g := gets (λ g, g) in
   let key := messageKey (hdr id (_db g)) in
   when (_addHdrToDB g && negb (containsKey key (_db g)))
     ((this, _db ::= addNewHdrToDB id) >> emit (MsgAdded key))).

Definition _runFilters : act unit :=
  let! g := gets (λ g, g) in for_each (_msgHdrs g) filter_hdr.

Definition finishProcessingXOver : act unit :=
  _runFilters >>
  (let! g := gets (λ g, g) in
   match dBFolderInfo g with
   | Some info =>
       match _knownKeySet g with
       | Some rs => this, dBFolderInfo := Some (mkGroupInfo (highWater info) (toString rs))
       | None => throw
       end
   | None => skip
   end).

Definition cleanUp : act unit :=
  let! g := gets (λ g, g) in
  match _readKeySet g with
  | Some rs => emit (SetReadSetFromStr (toString rs))
  | None => skip
  end >> emit FinishedDownloading >> emit CommitAndClose.
End Methods.

(** ** An instance *)

(** The header objects made, and the keys of those added. *)
Record listDb := mkListDb { objects : list msgHdr; keys : list jsstr }.

Fixpoint find_hdr (k : jsstr) (l : list msgHdr) (i : nat) (acc : option nat) : option nat :=
  match l with
  | [] => acc
  | h :: l' => find_hdr k l' (S i) (if messageKey h ==s k then Some i else acc)
  end.

#[export] Instance listDb_database : MsgDatabase listDb := {|
  createNewHdr := λ k d, (mkListDb (objects d ++ [newHdr k]) (keys d), length (objects d));
  getMsgHdrForKey := λ k d, find_hdr k (objects d) 0 None;
  hdr := λ i d, default (newHdr []) (objects d !! i);
  set_hdr := λ i f d, mkListDb (alter f i (objects d)) (keys d);
  containsKey := λ k d, bool_decide (k ∈ keys d);
  addNewHdrToDB := λ i d,
    mkListDb (objects d) (keys d ++ [messageKey (default (newHdr []) (objects d !! i))]);
  lowWaterArticleNum := λ _, Some 1;
  highWaterArticleNum := λ _, Some 0
|}.

Definition sampleGroupEnv : env :=
  mkEnv (Some 3) true false (js "x: 1-2") [] [] true (λ _, Some false) (js "Re,Aw") (λ _, Some 0)
    0 0 (λ _ _, []) (λ _ _, []).

(** A group of which the articles 4 and 5 are known. *)
Definition sampleGroup (old : bool) : NewsGroup listDb :=
  (newNewsGroup (mkListDb [] []) (Some (mkGroupInfo (Some 5) (js "4-5"))))
    <| _getOldMessages := old |>.
