(* ===== verification/NntpFetch.v ===== *)
(** * NntpFetch: which articles of a newsgroup are fetched

    Theorems on NntpNewsGroup.v: the range to fetch holds no known article; the
    rounds of a reader who asks for older articles end with every article of the
    group known, through the string the database keeps; and what the fallback to
    HEAD does to the list of headers. *)

From S2P Require Import Prelude Effects MsgKeySet NntpNewsGroup.

Section Fetch.
Context {D : Type} `{MsgDatabase D}.
Variable ev : env.
Abbreviation group := (NewsGroup D).
Abbreviation act := (eff group event).

(** The articles the database knows. *)
Definition knows (g : group) (rs : list (Z * Z)) : Prop :=
  wf 0 rs ∧ ∃ hw, dBFolderInfo g = Some (mkGroupInfo hw (toString (inj rs))).

(** What the choice of a range depends on, and leaves alone. *)
Definition choice (g : group) : bool * list nat := (_getOldMessages g, _msgHdrs g).

Lemma load_known_run (g : group) rs last :
  knows g rs →
  ∃ g', load_known last g = (g', [], Some (inj rs)) ∧ knows g' rs ∧ choice g' = choice g ∧
    _msgWindow g' = _msgWindow g.
Proof.
  intros [Hw (hw & Hi)]. unfold load_known. rewrite bind_gets. unfold id. rewrite Hi.
  rewrite bind_modify. cbn [highWater knownArtsSet].
  destruct (nlt _ _); cbn [knownArtsSet]; rewrite toString_parse by done;
    (eexists; split; [reflexivity|]; split; [split; [done|by eexists]|done]).
Qed.

(** The range a call of [getArticlesRangeToFetch] starts from. *)
Definition missing (rs : list (Z * Z)) (low high : num) : num * num :=
  default no_range (getLastMissingRange (inj rs) low high).

Lemma range_run (g : group) rs w low high :
  knows g rs →
  ∃ g' o, knows g' rs ∧ choice g' = choice g ∧ _knownKeySet g' = Some (inj rs) ∧
    getArticlesRangeToFetch ev w low high g
    = let '(a, b) := missing rs low high in
      if _getOldMessages g
      then (g', o, Some (nmax a (nadd (nsub b (maxArticles ev)) (Some 1)), b))
      else if has (inj rs) high then (g', o, Some no_range)
      else if num_truthy a && nlt (maxArticles ev) (nsub b a) && notifyOn ev
      then let '(g2, o2, r) := ask_range ev low a b g' in (g2, o ++ o2, r)
      else (g', o, Some (a, b)).
Proof.
  intros Hk. unfold getArticlesRangeToFetch. rewrite !bind_modify.
  match goal with |- context [bind (load_known _) _ ?s] => set (g0 := s) end.
  assert (Hk0 : knows g0 rs) by exact Hk.
  destruct (load_known_run g0 rs high Hk0) as (g1 & Hr & Hk1 & Hc1 & _).
  unfold bind at 1. rewrite Hr. rewrite bind_modify.
  set (g2 := g1 <| _knownKeySet := Some (inj rs) |>).
  assert (Hk2 : knows g2 rs) by exact Hk1.
  assert (Hold : _getOldMessages g2 = _getOldMessages g) by (injection Hc1; intros _ E; exact E).
  exists g2, (if has (inj rs) high && w then [ShowNoNewMessages] else []).
  split_and!; [done|exact Hc1|done|]. unfold missing.
  destruct (has (inj rs) high && w); cbn [when]; [rewrite bind_emit|unfold skip; rewrite bind_ret_l];
    rewrite bind_gets, Hold; destruct (_getOldMessages g); cbn [orb];
    destruct (getLastMissingRange (inj rs) low high) as [[a b]|]; cbn [default from_option id];
    try reflexivity; destruct (has (inj rs) high); cbn [negb]; try reflexivity;
    destruct (_ && notifyOn ev); try reflexivity;
    destruct (ask_range _ _ _ _ _) as [[g3 o3] r]; reflexivity.
Qed.

(** The missing range, in numbers. *)
Lemma missing_spec rs low high :
  wf 0 rs → low <= high →
  match missing rs (Some low) (Some high) with
  | (Some a, Some b) => missing_ok rs low high a b
  | (a, b) => a = None ∧ b = None ∧
      ((∀ v, low <= v <= high → mem rs v) ∨ ∃ rs' s e, rs = rs' ++ [(s, e)] ∧ low < s ∧ high <= s)
  end.
Proof.
  intros Hw Hlh. pose proof (getLastMissingRange_spec rs low high Hw Hlh) as Hs. unfold missing.
  destruct (getLastMissingRange _ _ _) as [[a b]|]; cbn.
  - by destruct Hs as (x & y & -> & -> & Hs).
  - done.
Qed.

Lemma ask_range_run low a b (g : group) :
  match ask_range ev (Some low) (Some a) (Some b) g with
  | (_, _, Some (Some x, Some y)) =>
      y = b ∧ (x = a ∨ ∃ n, maxArticles ev = Some n ∧ x = b - n + 1)
  | _ => True
  end.
Proof.
  unfold ask_range. rewrite bind_gets. unfold id. destruct (negb (_msgWindow g)); [done|].
  rewrite bind_emit. destruct (downloadDialog ev _) as [all|]; [|done].
  set (st := if all then _ else _).
  assert (Hst : ∀ x, st = Some x → x = a ∨ ∃ n, maxArticles ev = Some n ∧ x = b - n + 1).
  { subst st. intros x. destruct all; [intros [= <-]; by left|].
    destruct (maxArticles ev) as [n|]; [|done]. cbn. intros [= <-]. right. by exists n. }
  destruct (markOldRead ev); cbn [when].
  - destruct (split_on 58 (newsrcLine ev) !! 1%nat) as [s|]; [|done]. rewrite bind_modify.
    cbn [ret]. unfold ret. destruct st as [x|]; [|done]. by split; [|apply Hst].
  - unfold skip. rewrite bind_ret_l. unfold ret. destruct st as [x|]; [|done]. by split; [|apply Hst].
Qed.

(** C31. Whatever the settings, and whatever the user answers to the dialog, the range
    that is to be fetched of a group whose known articles are in the database as the
    text of a well-formed set lies between the group's first and last article and
    holds no article that is known. *)
Theorem range_is_missing (g : group) rs w low high :
  knows g rs → low <= high →
  match getArticlesRangeToFetch ev w (Some low) (Some high) g with
  | (_, _, Some (Some a, Some b)) =>
      low <= a ∧ b <= high ∧ ∀ v, a <= v <= b → has (inj rs) (Some v) = false
  | _ => True
  end.
Proof.
  intros Hk Hlh. destruct (range_run g rs w (Some low) (Some high) Hk) as (g' & o & _ & _ & _ & ->).
  assert (Hw : wf 0 rs) by apply Hk.
  assert (Hin : ∀ x y a b, missing_ok rs low high a b → a <= x → y <= b →
    low <= x ∧ y <= high ∧ ∀ v, x <= v <= y → has (inj rs) (Some v) = false).
  { intros x y a b (H1 & H2 & H3 & H4 & _) Hx Hy. split_and!; try lia. intros v Hv.
    apply not_true_is_false. rewrite (has_inj 0) by done. apply H4. lia. }
  pose proof (missing_spec rs low high Hw Hlh) as Hm.
  destruct (missing rs (Some low) (Some high)) as [[a|] b].
  2: { destruct Hm as (_ & -> & _). destruct (_getOldMessages g); [done|]. by destruct (has _ _). }
  destruct b as [b|]; [|by destruct Hm as (? & _)].
  destruct (_getOldMessages g).
  - cbn. destruct (maxArticles ev) as [n|]; [|done]. cbn. apply (Hin _ _ a b Hm); lia.
  - destruct (has _ _); [done|].
    destruct (num_truthy (Some a) && nlt (maxArticles ev) (nsub (Some b) (Some a)) && notifyOn ev) eqn:E.
    + pose proof (ask_range_run low a b g') as Ha.
      destruct (ask_range _ _ _ _ g') as [[g2 o2] [[[x|] [y|]]|]]; try done.
      destruct Ha as [-> Ha]. apply (Hin _ _ a b Hm); [|lia].
      destruct Ha as [->|(n & Hn & ->)]; [lia|]. rewrite Hn in E. cbn [nsub nlt] in E.
      apply andb_true_iff in E as [[_ E%Z.ltb_lt]%andb_true_iff _]. lia.
    + apply (Hin _ _ a b Hm); lia.
Qed.

(** ** Rounds of older articles *)

(** One request for older articles and what it does to the group when the server
    delivers every header of the range and each is added to the database.  NntpClient
    makes these calls as the server answers; the composition is for the theorem. *)
Definition fetch_round (low high : num) : act unit :=
  let! r := getArticlesRangeToFetch ev true low high in
  when (num_truthy r.1 && num_truthy r.2)
    (addKnownArticles r.1 r.2 >> finishProcessingXOver ev).

Fixpoint rounds (n : nat) (low high : num) : act unit :=
  match n with O => skip | S n' => fetch_round low high >> rounds n' low high end.

(** Nothing above [high] begins a range. *)
Definition open_end (high : Z) (rs : list (Z * Z)) : Prop := ∀ v, high <= v → mem rs v → mem rs (v - 1).

Lemma open_end_last high rs rs' s e :
  wf 0 rs → open_end high rs → rs = rs' ++ [(s, e)] → high <= s → False.
Proof.
  intros Hw Ho -> Hs. apply wf_snoc in Hw as (Hw1 & Hw2 & Hw3 & Hw4).
  destruct (proj1 (mem_snoc rs' s e (s - 1))) as [Hm|Hm]; [|apply (mem_below _ _ _ Hw4) in Hm; lia|lia].
  apply Ho; [lia|]. apply mem_snoc. right. lia.
Qed.

Lemma missing_no_nesting rs x b :
  wf 0 rs → (∀ v, x <= v <= b → ¬ mem rs v) → x <= b → no_nesting x b rs.
Proof.
  intros Hw Hm Hxb. apply Forall_forall. intros [s e] Hin. destruct (wf_elem 0 rs s e Hw Hin).
  split; intros [? ?].
  - apply (Hm x); [lia|]. apply mem_elem. exists s, e. split; [done|lia].
  - apply (Hm s); [lia|]. apply mem_elem. exists s, e. split; [done|lia].
Qed.

(** What a round keeps, and what it brings: with every article above [t] known,
    the one at [t] is known after it. *)
Record progress (g : group) (rs : list (Z * Z)) (high t : Z) : Prop := {
  pr_knows : knows g rs;
  pr_choice : choice g = (true, []);
  pr_open : open_end high rs;
  pr_above : ∀ v, t < v <= high → mem rs v
}.

Lemma fetch_round_run (g : group) rs low high n t :
  maxArticles ev = Some n → 2 <= n → 0 < low < high → progress g rs high t → t <= high →
  ∃ g' o rs', fetch_round (Some low) (Some high) g = (g', o, Some tt) ∧
    (∀ v, mem rs v → mem rs' v) ∧
    (progress g' rs' high (t - 1) ∨ progress g' rs' high t ∧ ∀ v, low <= v <= high → mem rs' v).
Proof.
  intros Hn Hn2 Hlh [Hk Hc Ho Ht] Hth. assert (Hw : wf 0 rs) by apply Hk.
  destruct (range_run g rs true (Some low) (Some high) Hk) as (g1 & o & Hk1 & Hc1 & Hs1 & Hrun).
  assert (Hold : _getOldMessages g = true) by (injection Hc; done).
  rewrite Hold, Hn in Hrun. unfold fetch_round, bind at 1. rewrite Hrun.
  pose proof (missing_spec rs low high Hw ltac:(lia)) as Hm.
  destruct (missing rs (Some low) (Some high)) as [[a|] [b|]];
    try (destruct Hm as (? & ? & _); done).
  - destruct Hm as (H1 & H2 & H3 & H4 & H5 & H6). cbn [nmax nsub nadd fst snd].
    set (x := Z.max a (b - n + 1)).
    assert (Hx : num_truthy (Some x) = true) by (destruct x eqn:E; subst x; [lia|done..]).
    assert (Hb : num_truthy (Some b) = true) by (destruct b; [lia|done..]).
    rewrite Hx, Hb. cbn [andb when].
    destruct (addRange_inj rs x b) as (rs' & Ha & Hw' & Hv'); [lia|lia|done| |].
    { apply missing_no_nesting; [done| |lia]. intros v Hv. apply H4. lia. }
    unfold addKnownArticles. rewrite bind_assoc, bind_gets, Hs1, bind_modify, Ha.
    unfold finishProcessingXOver, _runFilters. rewrite bind_assoc, bind_gets.
    injection (eq_trans Hc1 Hc) as Hg1 Hh1. cbn [_msgHdrs].
    match goal with |- context [_msgHdrs ?s] => change (_msgHdrs s) with (_msgHdrs g1) end.
    rewrite Hh1. cbn [for_each]. unfold skip at 1. rewrite bind_ret_l, bind_gets.
    destruct Hk1 as [_ (hw & Hi)].
    match goal with |- context [dBFolderInfo ?s] => change (dBFolderInfo s) with (dBFolderInfo g1) end.
    rewrite Hi.
    match goal with |- context [_knownKeySet ?s] =>
      change (_knownKeySet s) with (Some (inj rs')) end.
    cbv beta iota. rewrite modify_run.
    eexists _, _, rs'. split; [reflexivity|]. split; [intros v Hv; apply Hv'; by right|]. left.
    split; [split; [done|by eexists]|by rewrite <- Hc, <- Hc1| |].
    + intros v Hv [Hr|Hr]%Hv'; apply Hv'; [|right; by apply Ho].
      assert (v = b ∧ b = high) as [-> ->] by lia.
      destruct (Z.le_gt_cases x (high - 1)); [left; lia|right].
      destruct H6 as [->|H6]; [lia|]. by replace (high - 1) with (a - 1) by lia.
    + intros v Hv. apply Hv'. destruct (Z.le_gt_cases v b); [left|right; apply H5; lia].
      assert (¬ t < b) by (intros ?; apply (H4 b); [lia|]; apply Ht; lia). lia.
  - cbn [nmax nsub nadd fst snd num_truthy andb when].
    eexists g1, _, rs. split; [reflexivity|]. split; [done|]. right. split.
    + split; [done|by rewrite Hc1|done|done].
    + destruct Hm as (_ & _ & [Hm|(rs' & s & e & E & _ & Hs)]); [done|].
      by destruct (open_end_last high rs rs' s e Hw Ho E).
Qed.

(** C30. A reader who keeps asking for older articles gets them all: starting
    from a set in which no range begins at or above the last article, with at
    least two articles per request, no headers pending in the group, and each time
    every header of the range delivered and added, as many requests as the group
    has article numbers leave, in the database's own string, a set with every one
    of them.  With one article per request, or from a set such as 4-5,9 where 9 is
    the last article, they need not. *)
Theorem old_articles_fetched (g : group) rs low high n :
  knows g rs → choice g = (true, []) → open_end high rs →
  maxArticles ev = Some n → 2 <= n → 0 < low < high →
  ∃ g' o rs', rounds (Z.to_nat (high - low + 1)) (Some low) (Some high) g = (g', o, Some tt) ∧
    knows g' rs' ∧ (∀ v, mem rs v → mem rs' v) ∧
    ∀ v, low <= v <= high → has (inj rs') (Some v) = true.
Proof.
  intros Hk Hc Ho Hn Hn2 Hlh.
  assert (Hgen : ∀ k g rs t, progress g rs high t → t <= high → low - 1 <= t →
    (t = low - 1 + Z.of_nat k ∨ ∀ v, low <= v <= high → mem rs v) →
    ∃ g' o rs', rounds k (Some low) (Some high) g = (g', o, Some tt) ∧ knows g' rs' ∧
      (∀ v, mem rs v → mem rs' v) ∧ ∀ v, low <= v <= high → mem rs' v).
  { intros k. induction k as [|k IH]; intros g0 rs0 t Hp Hth Htl Ht.
    - exists g0, [], rs0. split; [done|]. split; [apply Hp|]. split; [done|].
      destruct Ht as [->|Ht]; [|done]. intros v Hv. apply (pr_above _ _ _ _ Hp). lia.
    - cbn [rounds]. unfold bind.
      destruct (fetch_round_run g0 rs0 low high n t Hn Hn2 Hlh Hp Hth)
        as (g1 & o1 & rs1 & -> & Hsub & Hor).
      assert (Hnext : ∃ t', progress g1 rs1 high t' ∧ t' <= high ∧ low - 1 <= t' ∧
        (t' = low - 1 + Z.of_nat k ∨ ∀ v, low <= v <= high → mem rs1 v)).
      { destruct Ht as [Ht|Ht].
        - destruct Hor as [Hp1|[Hp1 Hall]].
          + exists (t - 1). split_and!; [done|lia..|left; lia].
          + exists t. split_and!; [done|lia..|by right].
        - destruct Hor as [Hp1|[Hp1 Hall]]; [|exists t; split_and!; try done; by right].
          exists (Z.max (low - 1) (t - 1)). split_and!; try lia; [|right; auto].
          destruct Hp1 as [? ? ? Ha]. split; [done..|]. intros v Hv. apply Ha. lia. }
      destruct Hnext as (t' & Hp1 & H1 & H2 & H3).
      destruct (IH g1 rs1 t' Hp1 H1 H2 H3) as (g2 & o2 & rs2 & -> & Hk2 & Hsub2 & Hall2).
      exists g2, (o1 ++ o2), rs2. split_and!; try done. auto. }
  destruct (Hgen (Z.to_nat (high - low + 1)) g rs high) as (g' & o & rs' & Hr & Hk' & Hsub & Hall);
    [by split; [..|intros v ?; lia]|lia|lia|left; lia|].
  exists g', o, rs'. split_and!; try done. intros v Hv. apply (has_inj 0); [done|apply Hk'|by apply Hall].
Qed.

(** ** Headers from HEAD *)

(** What the client does with the group for one article: the request, the lines
    of the response, its end. *)
Definition head_article (a : Z * list jsstr) : act unit :=
  initHdr (Some a.1) >> for_each a.2 (processHeadLine ev) >> initHdr (Some (-1)).

Lemma head_line_run line (g : group) i :
  _msgHdr g = Some i →
  ∃ g', processHeadLine ev line g = (g', [], Some tt) ∧ _msgHdr g' = Some i ∧ _msgHdrs g' = _msgHdrs g.
Proof.
  intros Hid.
  assert (Hset : ∀ f (g : group), _msgHdr g = Some i →
    ∃ g', on_hdr (λ h, set h f) g = (g', [], Some tt) ∧ _msgHdr g' = Some i ∧ _msgHdrs g' = _msgHdrs g).
  { intros f g0 Hg0. unfold on_hdr. rewrite bind_gets, Hg0. by eexists. }
  unfold processHeadLine.
  repeat match goal with
         | |- context [if ?x ==s ?y then _ else _] => destruct (x ==s y); [try by apply Hset|]
         end.
  - unfold on_hdr. rewrite bind_gets, Hid. unfold setSubject, set. rewrite bind_assoc, bind_modify.
    destruct (negb _); cbn [when]; [rewrite bind_modify|unfold skip; rewrite bind_ret_l];
      rewrite modify_run; by eexists.
  - rewrite bind_gets. unfold id. destruct (bool_decide _); cbn [when]; [by apply Hset|by exists g].
Qed.

Lemma head_lines_run lines (g : group) i :
  _msgHdr g = Some i →
  ∃ g', for_each lines (processHeadLine ev) g = (g', [], Some tt) ∧ _msgHdr g' = Some i ∧
    _msgHdrs g' = _msgHdrs g.
Proof.
  revert g. induction lines as [|line lines IH]; intros g Hid; [by exists g|].
  destruct (head_line_run line g i Hid) as (g1 & Hr & Hid1 & Hm1).
  destruct (IH g1 Hid1) as (g2 & Hr2 & Hid2 & Hm2). exists g2. cbn [for_each]. unfold bind.
  rewrite Hr, Hr2. split; [done|]. by rewrite Hm2.
Qed.

(** One article, after another or first. *)
Lemma head_article_run (g : group) a :
  0 <= a.1 →
  ∃ g' id, head_article a g = (g', [], Some tt) ∧ _msgHdr g' = Some id ∧
    _msgHdrs g' = _msgHdrs g ++ option_list (_msgHdr g) ++ [id].
Proof.
  destruct a as [n lines]. intros Hn. cbn [fst] in Hn. unfold head_article. cbn [fst snd].
  unfold initHdr at 1. rewrite bind_assoc, bind_assoc, bind_gets.
  set (g1 := match _msgHdr g with Some h => g <| _msgHdrs ::= λ l, l ++ [h] |> | None => g end).
  assert (E : ∀ X (k : unit → act X), bind (match _msgHdr g with
      | Some h => this, _msgHdrs ::= λ l, l ++ [h] | None => skip end) k g = k tt g1).
  { intros X k. subst g1. destruct (_msgHdr g); [by rewrite bind_modify|unfold skip; by rewrite bind_ret_l]. }
  rewrite E. cbn [nle]. replace (0 <=? n) with true by (symmetry; apply Z.leb_le; lia).
  rewrite bind_assoc. unfold bind at 1, create.
  destruct (createNewHdr (nstr (Some n)) (_db g1)) as [d id] eqn:Ec. rewrite bind_modify.
  match goal with |- context [bind (for_each _ _) _ ?s] => set (g2 := s) end.
  destruct (head_lines_run lines g2 id eq_refl) as (g3 & Hr & Hid & Hm).
  unfold bind at 1. rewrite Hr. unfold initHdr. rewrite bind_assoc, bind_gets, Hid.
  rewrite bind_modify. cbn [nle]. unfold skip, ret.
  eexists _, id. split; [reflexivity|]. split; [exact Hid|]. cbn. rewrite Hm. cbn.
  subst g1. destruct (_msgHdr g); cbn; by rewrite <- ?(assoc_L (++)).
Qed.

(** When headers are fetched with HEAD, article by article, every header
    but the last is put twice in the list that the filters go through: the
    header is pushed when its response ends, and again when the next article is
    begun. *)
Theorem head_headers_twice (g : group) a b :
  _msgHdr g = None → 0 <= a.1 → 0 <= b.1 →
  ∃ g' ida idb, (head_article a >> head_article b) g = (g', [], Some tt) ∧
    _msgHdrs g' = _msgHdrs g ++ [ida; ida; idb].
Proof.
  intros Hg Ha Hb. destruct (head_article_run g a Ha) as (g1 & ida & Hr & Hid & Hm).
  destruct (head_article_run g1 b Hb) as (g2 & idb & Hr2 & _ & Hm2).
  exists g2, ida, idb. unfold bind. rewrite Hr, Hr2. split; [done|].
  rewrite Hm2, Hm, Hg, Hid. cbn. by rewrite <- (assoc_L (++)).
Qed.
End Fetch.

(** ** Witnesses *)

Lemma sample_knows old : knows (sampleGroup old) [(4, 5)].
Proof. split; [simpl; lia|]. exists (Some 5). by vm_compute. Qed.

Lemma range_is_missing_witness :
  getArticlesRangeToFetch sampleGroupEnv true (Some 1) (Some 20) (sampleGroup false)
    = ((getArticlesRangeToFetch sampleGroupEnv true (Some 1) (Some 20) (sampleGroup false)).1.1,
       [OpenDialog (Some 15)], Some (Some 18, Some 20)) ∧
  1 <= 18 ∧ 20 <= 20 ∧ ∀ v, 18 <= v <= 20 → has (inj [(4, 5)]) (Some v) = false.
Proof.
  split; [by vm_compute|].
  pose proof (range_is_missing sampleGroupEnv (sampleGroup false) [(4, 5)] true 1 20
    (sample_knows false) ltac:(lia)) as Hr.
  vm_compute in Hr. destruct Hr as (_ & _ & Hr). split_and!; [lia|lia|]. exact Hr.
Defined.

Lemma old_articles_fetched_witness :
  ∃ g' o rs', rounds sampleGroupEnv (Z.to_nat (9 - 1 + 1)) (Some 1) (Some 9) (sampleGroup true)
      = (g', o, Some tt) ∧
    knows g' rs' ∧ (∀ v, mem [(4, 5)] v → mem rs' v) ∧
    ∀ v, 1 <= v <= 9 → has (inj rs') (Some v) = true.
Proof.
  apply (old_articles_fetched sampleGroupEnv (sampleGroup true) [(4, 5)] 1 9 3).
  - apply sample_knows.
  - reflexivity.
  - intros v Hv Hm. apply mem_cons in Hm as [Hm|Hm]; [lia|by apply Exists_nil in Hm].
  - reflexivity.
  - lia.
  - lia.
Defined.

Lemma head_headers_twice_witness :
  ∃ g' ida idb,
    (head_article sampleGroupEnv (7, [js "from: a" ++ CRLF]) >>
     head_article sampleGroupEnv (8, [js "from: b" ++ CRLF])) (sampleGroup false) = (g', [], Some tt) ∧
    _msgHdrs g' = [] ++ [ida; ida; idb].
Proof.
  apply (head_headers_twice sampleGroupEnv (sampleGroup false) (7, [js "from: a" ++ CRLF])
    (8, [js "from: b" ++ CRLF])); [reflexivity|simpl; lia|simpl; lia].
Defined.
