(* ===== verification/NntpClient.v ===== *)
(** * NntpClient: the NNTP client's state machine

    mailnews/news/src/NntpClient.sys.mjs.  The fields are the record
    [NntpClient], every method is an [eff] over it, and what it calls outside is
    an event.  The newsgroup of the request is the interface [GroupOps], which
    NntpNewsGroup.v implements; the folders of the account, which hold the
    credentials, are the interface [NewsFolders], with their state in the
    client's.  The caller's functions onOpen, onData and onDone are one field,
    [callbacks], that [_reset] clears: what the caller does in them is an input
    of its own. *)

From S2P Require Import Prelude Effects Net LineReader ReadLines MsgKeySet NntpNewsGroup.

(** ** The outside *)

Definition AUTH_ACCEPTED : Z := 281.
Definition AUTH_PASSWORD_REQUIRED : Z := 381.
Definition AUTH_REQUIRED : Z := 480.
Definition AUTH_FAILED : Z := 481.
Definition SERVICE_UNAVAILABLE : Z := 502.
Definition NOT_SUPPORTED : Z := 503.
Definition XPAT_OK : Z := 221.

Inductive nsresult :=
  | NS_OK | NS_ERROR_FAILURE | NS_ERROR_ABORT
  | NS_ERROR_UNKNOWN_HOST | NS_ERROR_UNKNOWN_PROXY_HOST | NS_ERROR_CONNECTION_REFUSED
  | NS_ERROR_PROXY_CONNECTION_REFUSED | NS_ERROR_NET_TIMEOUT | NS_ERROR_NET_RESET
  | NS_ERROR_NET_INTERRUPT | NS_ERROR_OTHER (code : Z).
#[export] Instance nntp_nsresult_eq : EqDecision nsresult.
Proof. solve_decision. Defined.

(** A folder of the account: its root, or a group's by its name. *)
Inductive folder := Root | Child (name : jsstr).
#[export] Instance folder_eq : EqDecision folder.
Proof. solve_decision. Defined.

Record NntpServer := mkNntpServer {
  hostName : jsstr;
  port : Z;
  isSecure : bool;
  pushAuth : bool;
  newgroupsTime : jsstr;                (* the time NEWGROUPS asks from *)
  encodeURIComponent : jsstr → jsstr
}.

(** nsIMsgNewsFolder, and the authenticator's prompt. *)
Class NewsFolders (F : Type) := {
  rawName : jsstr → F → option jsstr;           (* None: there is no such group *)
  groupUsername : folder → F → jsstr;
  groupPassword : folder → F → jsstr;
  getAuthenticationCredentials : folder → bool → F → F * bool;
  forgetAuthenticationCredentials : folder → F → F;
  getMessageIdForKey : folder → num → F → jsstr;
  folderURI : folder → F → jsstr;
  setAuthUsername : jsstr → F → F;              (* of the authenticator *)
  promptAuthFailed : F → F * Z
}.

(** What the client asks of a newsgroup; [E] are its own events. *)
Class GroupOps (G E : Type) := {
  new_group : jsstr → bool → G;                 (* the folder's name; getOldMessages *)
  group_range : bool → num → num → eff G E (num * num);
  group_known : num → num → eff G E unit;
  group_xover : jsstr → eff G E unit;
  group_fields : G → list jsstr;
  group_xhdr : jsstr → jsstr → eff G E unit;
  group_init : num → eff G E unit;
  group_head : jsstr → eff G E unit;
  group_finish : eff G E unit;
  group_cleanup : eff G E unit
}.

(** A newsgroup can always be closed. *)
Class GroupLaws (G E : Type) `{GroupOps G E} : Prop := {
  cleanup_returns (g : G) : ∃ g' o, group_cleanup (E := E) g = (g', o, Some tt)
}.

Inductive event (E : Type) :=
  | Connect (host : jsstr) (port : Z) (secure : bool)
  | Send (data : jsstr)
  | SocketClose
  | OnOpen
  | OnData (line : jsstr)
  | OnDone (status : nsresult)
  | OnReadyToPost
  | OnIdle
  | UrlStart
  | UrlStop (status : nsresult)
  | UrlState (running : bool) (status : nsresult)
  | FolderStop (f : folder) (status : nsresult)
  | UpdatingFolder
  | SeeOtherURI (uri : jsstr)
  | NotifyDownloadBegin (f : folder) (key : num)
  | NotifyDownloadedLine (f : folder) (line : jsstr)
  | NotifyDownloadEnd (f : folder) (status : nsresult)
  | UpdateSummary (f : folder) (low high count : option jsstr)
  | GroupNotFound (name : option jsstr)
  | AlertUser (name : jsstr)
  | PromptAlert (errorId : Z) (suffix : jsstr)
  | Group (e : E).
Arguments Connect {E}. Arguments Send {E}. Arguments SocketClose {E}. Arguments OnOpen {E}.
Arguments OnData {E}. Arguments OnDone {E}. Arguments OnReadyToPost {E}. Arguments OnIdle {E}.
Arguments UrlStart {E}. Arguments UrlStop {E}. Arguments UrlState {E}. Arguments FolderStop {E}.
Arguments UpdatingFolder {E}. Arguments SeeOtherURI {E}. Arguments NotifyDownloadBegin {E}.
Arguments NotifyDownloadedLine {E}. Arguments NotifyDownloadEnd {E}.
Arguments UpdateSummary {E}. Arguments GroupNotFound {E}. Arguments AlertUser {E}.
Arguments PromptAlert {E}. Arguments Group {E}.

(** ** Responses *)

Record response := mkResponse {
  status : option Z;
  statusText : option jsstr;
  data : jsstr
}.

(** The regex of [_parse]: three digits, a space, a text, CRLF, the rest. *)
Definition match_status (s : jsstr) : option (Z * jsstr * jsstr) :=
  match s with
  | a :: b :: c :: d :: rest =>
      let text := until_eol rest in
      let tl := drop (length text) rest in
      if is_digit a && is_digit b && is_digit c && (d =? SP)
         && str_truthy text && startsWith tl CRLF
      then Some (digits_val [a; b; c], text, drop 2 tl) else None
  | _ => None
  end.

Definition parse_response (multiLine : bool) (s : jsstr) : response :=
  if multiLine then mkResponse None None s
  else match match_status s with
       | Some (st, text, d) => mkResponse (Some st) (Some text) d
       | None => mkResponse None None s
       end.

Lemma parse_status a b c text d :
  is_digit a = true → is_digit b = true → is_digit c = true → one_line text → text ≠ [] →
  parse_response false ([a; b; c; SP] ++ text ++ CRLF ++ d)
  = mkResponse (Some (digits_val [a; b; c])) (Some text) d.
Proof.
  intros Ha Hb Hc Ht Hn. unfold parse_response, match_status. cbn [app].
  rewrite until_eol_line by done. rewrite drop_app_length, startsWith_app, Ha, Hb, Hc.
  assert (str_truthy text = true) as -> by (by destruct text). reflexivity.
Qed.

(** ** The state *)

(** What follows MODE READER. *)
Inductive action := ActList | ActNewgroups | ActGroup | ActArticle | ActListgroup (name : jsstr).

(** [_firstGroupCommand]. *)
Inductive groupCommand := GCXOver | GCArticle | GCPost | GCXPat.

(** [_currentAction], what is done again after the authentication. *)
Inductive currentAction := CurModeReader (a : action) | CurAction (a : action) | CurPost.

Inductive nextAction :=
  | NGreeting | NModeReader (a : action) | NReadData | NGroupResponse | NListgroup
  | NListgroupData | NXOver | NReadXOver | NXHdr | NReadHead | NArticle | NHandlePost
  | NAuthResult | NXPat | NClose.

Inductive loadAction := LList | LArticle (id : jsstr) | LGroup.

Inductive callbacks_t := CbNone | CbCaller | CbLoad (a : loadAction).

Record NntpClient (F G : Type) := mkNntpClient {
  _socket : option readyState_t;
  _lineReader : LineReader;
  _nextAction : option nextAction;
  _currentAction : option currentAction;
  _firstGroupCommand : option groupCommand;
  _nextGroupName : option jsstr;
  _currentGroupName : option jsstr;
  _inReadingMode : bool;
  _authenticated : bool;
  _done : bool;
  _articleNumber : num;
  _messageId : jsstr;
  _newsFolder : option folder;
  _newsGroup : option G;
  _startArticle : num;
  _endArticle : num;
  _xhdrFields : list jsstr;
  _curXHdrHeader : option jsstr;
  _xpatLines : list jsstr;
  _downloadingToFolder : bool;
  callbacks : callbacks_t;
  onReadyToPost : bool;
  runningUri : bool;
  urlListener : bool;
  _msgWindow : bool;
  folders : F
}.
Arguments mkNntpClient {F G}.
Arguments _socket {F G}. Arguments _lineReader {F G}. Arguments _nextAction {F G}.
Arguments _currentAction {F G}. Arguments _firstGroupCommand {F G}.
Arguments _nextGroupName {F G}. Arguments _currentGroupName {F G}.
Arguments _inReadingMode {F G}. Arguments _authenticated {F G}. Arguments _done {F G}.
Arguments _articleNumber {F G}. Arguments _messageId {F G}. Arguments _newsFolder {F G}.
Arguments _newsGroup {F G}. Arguments _startArticle {F G}. Arguments _endArticle {F G}.
Arguments _xhdrFields {F G}. Arguments _curXHdrHeader {F G}. Arguments _xpatLines {F G}.
Arguments _downloadingToFolder {F G}. Arguments callbacks {F G}. Arguments onReadyToPost {F G}. Arguments runningUri {F G}.
Arguments urlListener {F G}. Arguments _msgWindow {F G}. Arguments folders {F G}.
#[export] Instance eta_NntpClient F G : Settable (NntpClient F G) := λ c,
  mkNntpClient (_socket c) (_lineReader c) (_nextAction c) (_currentAction c)
    (_firstGroupCommand c) (_nextGroupName c) (_currentGroupName c) (_inReadingMode c)
    (_authenticated c) (_done c) (_articleNumber c) (_messageId c) (_newsFolder c)
    (_newsGroup c) (_startArticle c) (_endArticle c) (_xhdrFields c) (_curXHdrHeader c)
    (_xpatLines c) (_downloadingToFolder c) (callbacks c) (onReadyToPost c) (runningUri c) (urlListener c)
    (_msgWindow c) (folders c).

#[export] Instance nntp_reader F G : HasReader (NntpClient F G) := {|
  reader := _lineReader;
  with_reader := λ lr c, c <| _lineReader := lr |>
|}.

(** The constructor. *)
Definition newNntpClient {F G} (store : F) : NntpClient F G :=
  mkNntpClient None newLineReader None None None None None false false false None [] None None
    None None [] None [] false CbNone false false false false store.

Section Methods.
Context {F G E : Type} `{NewsFolders F} `{GroupOps G E}.
Variable srv : NntpServer.
Variable lineSeparator : jsstr.
Abbreviation client := (NntpClient F G).
Abbreviation act := (eff client (event E)).

Definition next (n : nextAction) : act unit := this, _nextAction := Some n.

(** A method of the folders of the account. *)
Definition folder_call {X} (f : F → F * X) : act X := λ c,
  let '(s, x) := f (folders c) in (c <| folders := s |>, [], Some x).

(** A method of [this._newsGroup], which may be undefined. *)
Definition group_call {X} (m : eff G E X) : act X := λ c,
  match _newsGroup c with
  | Some g => let '(g', o, r) := m g in (c <| _newsGroup := Some g' |>, map Group o, r)
  | None => (c, [], None)
  end.

(** A call on [this._newsFolder], which may be null. *)
Definition on_folder (f : folder → act unit) : act unit :=
  let! fd := gets _newsFolder in match fd with Some fd => f fd | None => throw end.
Definition on_folder_if (f : folder → act unit) : act unit :=
  let! fd := gets _newsFolder in match fd with Some fd => f fd | None => skip end.

(** ** Sending *)

(** [this._socket.send(...)], on a socket that is open. *)
Definition send (str : jsstr) : act unit := emit (Send str).

Definition _sendCommand (str : jsstr) : act unit :=
  let! s := gets _socket in
  match s with
  | Some st => when (bool_decide (st = Open)) (send (str ++ CRLF))
  | None => throw
  end.

(** [close]: the socket may be undefined. *)
Definition close : act unit :=
  let! s := gets _socket in
  match s with
  | Some st =>
      (this, _socket := Some (if bool_decide (st = Closed) then Closed else Closing)) >>
      emit SocketClose
  | None => throw
  end.

(** ** The end of a request *)

(** The callbacks of the caller. *)
Definition call_onDone (status : nsresult) : act unit :=
  let! cb := gets callbacks in
  match cb with CbNone => skip | _ => emit (OnDone status) end.

Definition call_onData (line : jsstr) : act unit :=
  let! cb := gets callbacks in
  match cb with CbNone => skip | _ => emit (OnData line) end.

Definition _reset : act unit :=
  (this, callbacks := CbNone) >> (this, runningUri := false) >> (this, urlListener := false) >>
  (this, _msgWindow := false) >> (this, _newsFolder := None).

Definition _actionDone (status : nsresult) : act unit :=
  let! d := gets _done in
  when (negb d)
    ((let! dl := gets _downloadingToFolder in
      when dl (on_folder_if (λ f, emit (NotifyDownloadEnd f NS_ERROR_FAILURE)) >>
               (this, _downloadingToFolder := false))) >>
     (this, _done := true) >>
     call_onDone status >>
     (let! g := gets _newsGroup in
      match g with Some _ => group_call group_cleanup | None => skip end) >>
     on_folder_if (λ f, emit (FolderStop f status)) >>
     (let! l := gets urlListener in when l (emit (UrlStop status))) >>
     (let! u := gets runningUri in if u then emit (UrlState false status) else throw) >>
     _reset >>
     emit OnIdle).

Definition quit (status : nsresult) : act unit :=
  _sendCommand (js "QUIT") >> next NClose >> close >> _actionDone status.

Definition NNTP_ERROR_MESSAGE : Z := -304.

(** [_actionError]: the number names the text of the prompt. *)
Definition _actionError (errorId : Z) (serverErrorMsg : option jsstr) : act unit :=
  let! w := gets _msgWindow in
  if negb w then _actionDone NS_ERROR_FAILURE
  else
    emit (PromptAlert errorId match serverErrorMsg with
                              | Some m => if str_truthy m then SP :: m else []
                              | None => []
                              end) >>
    _actionDone NS_ERROR_FAILURE.

(** ** Authentication *)

Definition _actionAuthUser : act unit :=
  (let! fd := gets _newsFolder in
   match fd with Some _ => skip | None => this, _newsFolder := Some Root end) >>
  (let! c := gets id in
   let fd := default Root (_newsFolder c) in
   let! ok := (if str_truthy (groupUsername fd (folders c)) then ret true
               else folder_call (getAuthenticationCredentials fd (_msgWindow c))) in
   if negb ok then _actionDone NS_ERROR_ABORT
   else
     let! user := gets (λ c, groupUsername fd (folders c)) in
     _sendCommand (js "AUTHINFO user " ++ user) >>
     next NAuthResult >>
     folder_call (λ s, (setAuthUsername user s, tt))).

Definition _actionAuthPassword : act unit :=
  on_folder (λ fd,
    let! pass := gets (λ c, groupPassword fd (folders c)) in
    _sendCommand (js "AUTHINFO pass " ++ pass)) >>
  next NAuthResult.

(** ** POST *)

Definition post_action : act unit := next NHandlePost >> _sendCommand (js "POST").

Definition post : act unit :=
  let! c := gets id in
  if pushAuth srv && negb (_authenticated c) then
    (this, _currentAction := Some CurPost) >> _actionAuthUser
  else post_action.

Definition _actionHandlePost (res : response) : act unit :=
  if bool_decide (status res = Some 340) then
    (let! r := gets onReadyToPost in if r then emit OnReadyToPost else throw)
  else if bool_decide (status res = Some 240) then _actionDone NS_OK
  else _actionError NNTP_ERROR_MESSAGE (statusText res).

(** ** XPAT *)

Definition _actionXPat : act unit :=
  let! c := gets id in
  match _xpatLines c with
  | l :: ls =>
      (this, _xpatLines := ls) >>
      (if str_truthy l then _sendCommand l >> next NXPat else _actionDone NS_OK)
  | [] => _actionDone NS_OK
  end.

Definition _actionXPatResponse (res : response) : act unit :=
  match status res with
  | Some st =>
      if negb (st =? 0) && negb (st =? XPAT_OK)
      then _actionError NNTP_ERROR_MESSAGE (statusText res)
      else read_lines (data res) call_onData _actionXPat
  | None => read_lines (data res) call_onData _actionXPat
  end.

(** ** Articles *)

Definition article_id (c : client) : jsstr :=
  if num_truthy (_articleNumber c) then nstr (_articleNumber c) else _messageId c.

Definition _actionArticle : act unit :=
  (let! c := gets id in _sendCommand (js "ARTICLE " ++ article_id c)) >>
  next NArticle >>
  (let! c := gets id in on_folder_if (λ f, emit (NotifyDownloadBegin f (_articleNumber c)))) >>
  (this, _downloadingToFolder := true).

Definition article_line (line : jsstr) : act unit :=
  on_folder_if (λ f, emit (NotifyDownloadedLine f (slice line 0 (-2) ++ lineSeparator))) >>
  call_onData line.

Definition article_done : act unit :=
  on_folder_if (λ f, emit (NotifyDownloadEnd f NS_OK)) >>
  (this, _downloadingToFolder := false) >>
  _actionDone NS_OK.

Definition _actionArticleResponse (res : response) : act unit :=
  read_lines (data res) article_line article_done.

Definition _actionReadData (res : response) : act unit :=
  read_lines (data res) call_onData (_actionDone NS_OK).

(** ** The headers of a group *)

Definition finish_headers : act unit := group_call group_finish >> _actionDone NS_OK.

Definition _actionHead : act unit :=
  let! c := gets id in
  if nle (_startArticle c) (_endArticle c) then
    next NReadHead >>
    _sendCommand (js "HEAD " ++ nstr (_startArticle c)) >>
    group_call (group_init (_startArticle c)) >>
    (this, _startArticle ::= λ n, nadd n (Some 1))
  else finish_headers.

Definition _actionReadHead (res : response) : act unit :=
  read_lines (data res) (λ l, group_call (group_head l))
    (group_call (group_init (Some (-1))) >> _actionHead).

Definition range_str (c : client) : jsstr :=
  nstr (_startArticle c) ++ js "-" ++ nstr (_endArticle c).

Definition _actionXHdr : act unit :=
  let! c := gets id in
  match _xhdrFields c with
  | h :: hs =>
      (this, _xhdrFields := hs) >> (this, _curXHdrHeader := Some h) >>
      (if str_truthy h
       then next NXHdr >> _sendCommand (js "XHDR " ++ h ++ js " " ++ range_str c)
       else finish_headers)
  | [] => (this, _curXHdrHeader := None) >> finish_headers
  end.

Definition _actionXHdrResponse (res : response) : act unit :=
  if bool_decide (status res = Some NOT_SUPPORTED) then _actionHead
  else
    read_lines (data res)
      (λ l, let! h := gets _curXHdrHeader in
            group_call (group_xhdr (default undefined_str h) l))
      _actionXHdr.

Definition _actionReadXOver (res : response) : act unit :=
  read_lines (data res) (λ l, group_call (group_xover l))
    ((let! g := gets _newsGroup in
      match g with Some g => this, _xhdrFields := group_fields g | None => throw end) >>
     _actionXHdr).

Definition _actionXOverResponse (res : response) : act unit :=
  if bool_decide (status res = Some 224) then
    next NReadXOver >>
    (let! c := gets id in group_call (group_known (_startArticle c) (_endArticle c))) >>
    _actionReadXOver res
  else _actionHead.

(** [Number] of a string that may be undefined. *)
Definition number_of (s : option jsstr) : num := s ≫= toNumber.

(** The response is undefined when [_actionGroup] skips GROUP. *)
Definition _actionXOver (res : option response) : act unit :=
  match res ≫= statusText with
  | None => throw
  | Some t =>
      let l := split_on SP t in
      let low := l !! 1%nat in let high := l !! 2%nat in
      on_folder (λ f, emit (UpdateSummary f low high (l !! 0%nat))) >>
      (let! w := gets _msgWindow in
       let! r := group_call (group_range w (number_of low) (number_of high)) in
       if num_truthy r.1 && num_truthy r.2 then
         (this, _startArticle := r.1) >> (this, _endArticle := r.2) >>
         next NXOver >>
         (let! c := gets id in _sendCommand (js "XOVER " ++ range_str c))
       else _actionDone NS_OK)
  end.

(** ** GROUP *)

(** [this._firstGroupCommand(res)]. *)
Definition first_group_command (res : option response) : act unit :=
  let! g := gets _firstGroupCommand in
  match g with
  | Some GCXOver => _actionXOver res
  | Some GCArticle => _actionArticle
  | Some GCPost => post
  | Some GCXPat => _actionXPat
  | None => throw
  end.

Definition _actionGroup : act unit :=
  (this, _firstGroupCommand ::= λ g, Some (default GCXOver g)) >>
  (let! c := gets id in
   if bool_decide (_nextGroupName c = _currentGroupName c) then first_group_command None
   else
     _sendCommand (js "GROUP " ++ default undefined_str (_nextGroupName c)) >>
     (this, _currentAction := Some (CurAction ActGroup)) >>
     (this, _currentGroupName := _nextGroupName c) >>
     next NGroupResponse).

Definition _actionGroupResponse (res : response) : act unit :=
  if bool_decide (status res = Some 411)
  then let! n := gets _currentGroupName in emit (GroupNotFound n)
  else first_group_command (Some res).

(** ** MODE READER and what follows *)

Definition _actionList : act unit :=
  _sendCommand (js "LIST") >> (this, _currentAction := Some (CurAction ActList)) >> next NReadData.

Definition _actionNewgroups : act unit :=
  _sendCommand (js "NEWGROUPS " ++ newgroupsTime srv ++ js " GMT") >>
  (this, _currentAction := Some (CurAction ActNewgroups)) >> next NReadData.

Definition run_action (a : action) : act unit :=
  match a with
  | ActList => _actionList
  | ActNewgroups => _actionNewgroups
  | ActGroup => _actionGroup
  | ActArticle => _actionArticle
  | ActListgroup name => next NListgroup >> _sendCommand (js "LISTGROUP " ++ name)
  end.

Definition _actionModeReader (a : action) : act unit :=
  let! r := gets _inReadingMode in
  if r : bool then run_action a
  else
    (this, _currentAction := Some (CurModeReader a)) >>
    _sendCommand (js "MODE READER") >>
    (this, _inReadingMode := true) >>
    next (NModeReader a).

(** The response to MODE READER. *)
Definition mode_reader_done (a : action) : act unit :=
  let! c := gets id in
  if pushAuth srv && negb (_authenticated c) then
    (this, _currentAction := Some (CurAction a)) >> _actionAuthUser
  else run_action a.

Definition run_current : act unit :=
  let! a := gets _currentAction in
  match a with
  | None => skip
  | Some (CurModeReader a) => (this, _inReadingMode := false) >> _actionModeReader a
  | Some (CurAction a) => run_action a
  | Some CurPost => post_action
  end.

Definition _actionAuthResult (res : response) : act unit :=
  match status res with
  | Some st =>
      if st =? AUTH_ACCEPTED then (this, _authenticated := true) >> run_current
      else if st =? AUTH_PASSWORD_REQUIRED then _actionAuthPassword
      else if st =? AUTH_FAILED then
        let! choice := folder_call promptAuthFailed in
        if choice =? 1 then _actionDone NS_OK
        else
          when (choice =? 2)
            (on_folder (λ fd, folder_call (λ s, (forgetAuthenticationCredentials fd s, tt)))) >>
          _actionAuthUser
      else skip
  | None => skip
  end.

(** ** LISTGROUP *)

Definition _actionListgroupDataResponse (res : response) : act unit :=
  read_lines (data res) call_onData (_actionDone NS_OK).

Definition _actionListgroupResponse (res : response) : act unit :=
  next NListgroupData >> when (str_truthy (data res)) (_actionListgroupDataResponse res).

(** ** The requests *)

(** [_getNewsFolder(name)], which throws when there is no such group. *)
Definition _getNewsFolder (name : jsstr) : act jsstr :=
  let! c := gets id in
  match rawName name (folders c) with Some r => ret r | None => throw end.

Definition getListOfGroups (getOnlyNew : bool) : act unit :=
  _actionModeReader (if getOnlyNew then ActNewgroups else ActList) >>
  (this, urlListener := true).

Definition getNewNews (groupName : jsstr) (getOld : bool) : act unit :=
  (this, _currentGroupName := None) >>
  (let! raw := _getNewsFolder groupName in
   (this, _newsFolder := Some (Child groupName)) >>
   (this, _newsGroup := Some (new_group groupName getOld)) >>
   (this, _nextGroupName := Some raw)) >>
  (let! u := gets runningUri in if u then emit UpdatingFolder else throw) >>
  (this, _firstGroupCommand := Some GCXOver) >>
  _actionModeReader ActGroup.

Definition getArticleByArticleNumber (groupName : jsstr) (articleNumber : num) : act unit :=
  (let! raw := _getNewsFolder groupName in
   (this, _newsFolder := Some (Child groupName)) >>
   (this, _nextGroupName := Some raw)) >>
  (this, _articleNumber := articleNumber) >>
  (this, _messageId := []) >>
  (this, _firstGroupCommand := Some GCArticle) >>
  _actionModeReader ActGroup.

Definition getArticleByMessageId (messageId : jsstr) : act unit :=
  (this, _messageId := (js "<" ++ messageId ++ js ">")) >>
  (this, _articleNumber := Some 0) >>
  _actionModeReader ActArticle.

(** [this._nextGroupName = this._getNextGroupName(groupName)]. *)
Definition set_next_group (groupName : jsstr) : act unit :=
  let! raw := _getNewsFolder groupName in this, _nextGroupName := Some raw.

Definition cancelArticle (groupName : jsstr) : act unit :=
  set_next_group groupName >>
  (this, _firstGroupCommand := Some GCPost) >> _actionModeReader ActGroup.

Definition search (groupName : jsstr) (xpatLines : list jsstr) : act unit :=
  set_next_group groupName >>
  (this, _xpatLines := xpatLines) >>
  (this, _firstGroupCommand := Some GCXPat) >> _actionModeReader ActGroup.

Definition listgroup (groupName : jsstr) : act unit := _actionModeReader (ActListgroup groupName).

(** [loadNewsUrl], on the path of the url without its slash. *)
Definition loadNewsUrl (path : jsstr) (msgWindow : bool) : act unit :=
  (if path ==s js "*" then this, callbacks := CbLoad LList
   else if includes path (js "@") then this, callbacks := CbLoad (LArticle path)
   else
     let! raw := _getNewsFolder path in
     (this, _newsFolder := Some (Child path)) >>
     (this, _newsGroup := Some (new_group path false)) >>
     (this, _nextGroupName := Some raw) >>
     (this, callbacks := CbLoad LGroup)) >>
  (this, _msgWindow := msgWindow).

Definition load_action (a : loadAction) : act unit :=
  match a with
  | LList => getListOfGroups false
  | LArticle path => getArticleByMessageId path
  | LGroup => _actionModeReader ActGroup
  end.

Definition call_onOpen : act unit :=
  let! cb := gets callbacks in
  match cb with
  | CbNone => skip
  | CbCaller => emit OnOpen
  | CbLoad a => emit OnOpen >> load_action a
  end.

Definition startRunningUrl (listener msgWindow : bool) : act unit :=
  (this, urlListener := listener) >> (this, _msgWindow := msgWindow) >>
  (this, runningUri := true) >>
  when listener (emit UrlStart) >> emit (UrlState true NS_OK).

(** ** The socket *)

Definition connect : act unit :=
  (this, _done := false) >>
  (let! c := gets id in
   if bool_decide (_socket c = Some Open) then call_onOpen
   else
     (this, _authenticated := false) >>
     (this, _socket := Some Connecting) >>
     emit (Connect (toLowerCase (hostName srv)) (port srv) (isSecure srv))).

Definition _onOpen : act unit :=
  (this, _inReadingMode := false) >> (this, _currentGroupName := None) >> next NGreeting.

Definition on_greeting (res : response) : act unit :=
  if bool_decide (status res = Some 200 ∨ status res = Some 201)
  then (this, _nextAction := None) >> call_onOpen
  else quit NS_ERROR_FAILURE.

(** [this.runningUri.seeOtherURI = uri]. *)
Definition seeOther (uri : jsstr) : act unit :=
  let! u := gets runningUri in if u : bool then emit (SeeOtherURI uri) else throw.

(** The address of the page that reports a failed article. *)
Definition error_uri (c : client) (text : jsstr) : jsstr :=
  js "about:newserror?r=" ++ text ++
  (if str_truthy (_messageId c) then js "&m=" ++ encodeURIComponent srv (_messageId c)
   else
     match _newsFolder c with
     | Some f =>
         let m := getMessageIdForKey f (_articleNumber c) (folders c) in
         if str_truthy m then js "&m=" ++ encodeURIComponent srv m else []
     | None => []
     end ++ js "&k=" ++ nstr (_articleNumber c)) ++
  match _newsFolder c with Some f => js "&f=" ++ folderURI f (folders c) | None => [] end.

Definition run_next (n : nextAction) (res : response) : act unit :=
  match n with
  | NGreeting => on_greeting res
  | NModeReader a => mode_reader_done a
  | NReadData => _actionReadData res
  | NGroupResponse => _actionGroupResponse res
  | NListgroup => _actionListgroupResponse res
  | NListgroupData => _actionListgroupDataResponse res
  | NXOver => _actionXOverResponse res
  | NReadXOver => _actionReadXOver res
  | NXHdr => _actionXHdrResponse res
  | NReadHead => _actionReadHead res
  | NArticle => _actionArticleResponse res
  | NHandlePost => _actionHandlePost res
  | NAuthResult => _actionAuthResult res
  | NXPat => _actionXPatResponse res
  | NClose => close
  end.

(** [try { this._nextAction?.(res) }]. *)
Definition do_next (res : response) : act unit :=
  catch (let! n := gets _nextAction in
         match n with Some n => run_next n res | None => skip end)
    (_actionDone NS_ERROR_FAILURE).

(** A status from 400 to 499 other than the ones handled apart. *)
Definition failure_status (st : Z) : bool :=
  negb (st =? AUTH_FAILED) && (400 <=? st) && (st <? 500).

Definition _onData (payload : jsstr) : act unit :=
  let! c := gets id in
  let res := parse_response (receivingMultiLineResponse (_lineReader c)) payload in
  match status res with
  | None => do_next res
  | Some st =>
      if st =? AUTH_REQUIRED then (this, _currentGroupName := None) >> _actionAuthUser
      else if st =? SERVICE_UNAVAILABLE then _actionError NNTP_ERROR_MESSAGE (statusText res)
      else if failure_status st then
        when (str_truthy (_messageId c) || num_truthy (_articleNumber c))
          (seeOther (error_uri c (default undefined_str (statusText res)))) >>
        _actionError NNTP_ERROR_MESSAGE (statusText res)
      else do_next res
  end.

Definition error_page (code : nsresult) : option (jsstr * jsstr) :=
  match code with
  | NS_ERROR_UNKNOWN_HOST | NS_ERROR_UNKNOWN_PROXY_HOST =>
      Some (js "unknownHostError", js "about:neterror?e=dnsNotFound")
  | NS_ERROR_CONNECTION_REFUSED =>
      Some (js "connectionRefusedError", js "about:neterror?e=connectionFailure")
  | NS_ERROR_PROXY_CONNECTION_REFUSED =>
      Some (js "connectionRefusedError", js "about:neterror?e=proxyConnectFailure")
  | NS_ERROR_NET_TIMEOUT => Some (js "netTimeoutError", js "about:neterror?e=netTimeout")
  | NS_ERROR_NET_RESET => Some (js "netResetError", js "about:neterror?e=netReset")
  | NS_ERROR_NET_INTERRUPT => Some (js "netInterruptError", js "about:neterror?e=netInterrupt")
  | _ => None
  end.

Definition _onError (code : nsresult) : act unit :=
  match error_page code with
  | Some (name, uri) =>
      emit (AlertUser name) >>
      (let! u := gets runningUri in when u (emit (SeeOtherURI uri)))
  | None => skip
  end >> quit code.

(** ** The inputs of the client *)

(** [ISocketState] is a change of the socket's own; [IOpen], [IData] and
    [IError] are its events, whose handlers do not look at which socket they are
    of. *)
Inductive input :=
  | IStartRunningUrl (listener msgWindow : bool)
  | ICallbacks (readyToPost : bool)
  | IConnect
  | ILoadNewsUrl (path : jsstr) (msgWindow : bool)
  | IGetListOfGroups (getOnlyNew : bool)
  | IGetNewNews (groupName : jsstr) (getOld : bool)
  | IGetArticleByNumber (groupName : jsstr) (articleNumber : num)
  | IGetArticleById (messageId : jsstr)
  | ICancelArticle (groupName : jsstr)
  | ISearch (groupName : jsstr) (xpatLines : list jsstr)
  | IListgroup (groupName : jsstr)
  | IPost
  | ISend (str : jsstr)
  | IQuit (status : nsresult)
  | ISocketState (st : readyState_t)
  | IOpen
  | IData (payload : jsstr)
  | IError (code : nsresult).

(** [send] from outside, as the messages of POST are. *)
Definition send_checked (str : jsstr) : act unit :=
  let! s := gets _socket in if bool_decide (s = Some Open) then send str else throw.

Definition handle (i : input) : act unit :=
  match i with
  | IStartRunningUrl l w => startRunningUrl l w
  | ICallbacks r => (this, callbacks := CbCaller) >> when r (this, onReadyToPost := true)
  | IConnect => connect
  | ILoadNewsUrl p w => loadNewsUrl p w
  | IGetListOfGroups n => getListOfGroups n
  | IGetNewNews g o => getNewNews g o
  | IGetArticleByNumber g n => getArticleByArticleNumber g n
  | IGetArticleById m => getArticleByMessageId m
  | ICancelArticle g => cancelArticle g
  | ISearch g l => search g l
  | IListgroup g => listgroup g
  | IPost => post
  | ISend s => send_checked s
  | IQuit st => quit st
  | ISocketState st => this, _socket ::= option_map (λ _, st)
  | IOpen => (this, _socket ::= option_map (λ _, Open)) >> _onOpen
  | IData p => _onData p
  | IError code => _onError code
  end.

Definition run (inputs : list input) : act unit := for_each inputs (λ i, async (handle i)).
End Methods.

Lemma nntp_run_cons {F G E : Type} `{NewsFolders F} `{GroupOps G E} srv sep (i : input) inputs
    (c : NntpClient F G) :
  run srv sep (i :: inputs) c
  = let '(c1, o1, _) := handle srv sep i c in
    let '(c2, o2, r) := run srv sep inputs c1 in (c2, o1 ++ o2, r).
Proof.
  unfold run. cbn [for_each]. unfold bind, async, catch, skip, ret.
  destruct (handle srv sep i c) as [[c1 o1] [[]|]]; [done|]. by rewrite app_nil_r.
Qed.

Lemma nntp_run_app {F G E : Type} `{NewsFolders F} `{GroupOps G E} srv sep (l l' : list input)
    (c : NntpClient F G) :
  run srv sep (l ++ l') c = bind (run srv sep l) (λ _, run srv sep l') c.
Proof. apply for_each_app. Qed.

(** ** Instances *)

(** NntpNewsGroup implements the newsgroup of a request; [stored] is what the
    database holds of a group when its object is made. *)
Definition newsGroupOps {D : Type} `{MsgDatabase D} (ev : env)
    (stored : jsstr → D * option groupInfo) : GroupOps (NewsGroup D) NntpNewsGroup.event := {|
  new_group := λ name old,
    (newNewsGroup (stored name).1 (stored name).2) <| _getOldMessages := old |>;
  group_range := λ w low high, getArticlesRangeToFetch ev w low high;
  group_known := addKnownArticles;
  group_xover := processXOverLine ev;
  group_fields := getXHdrFields;
  group_xhdr := processXHdrLine;
  group_init := initHdr;
  group_head := processHeadLine ev;
  group_finish := finishProcessingXOver ev;
  group_cleanup := cleanUp
|}.

Lemma newsGroupOps_laws {D : Type} `{MsgDatabase D} ev stored :
  GroupLaws (NewsGroup D) NntpNewsGroup.event (H := newsGroupOps ev stored).
Proof.
  split. intros g. cbn. unfold cleanUp. unfold bind, gets, emit, skip, ret.
  destruct (_readKeySet g); eexists _, _; reflexivity.
Qed.

#[export] Instance sampleGroupOps : GroupOps (NewsGroup listDb) NntpNewsGroup.event :=
  newsGroupOps sampleGroupEnv (λ _, (mkListDb [] [], Some (mkGroupInfo (Some 5) (js "4-5")))).

#[export] Instance sampleGroupLaws :
  GroupLaws (NewsGroup listDb) NntpNewsGroup.event := newsGroupOps_laws _ _.

(** An account with the group misc.test; the state is whether the user was
    asked, and the answer is always the right one. *)
#[export] Instance fixedFolders : NewsFolders bool := {|
  rawName := λ n _, if n ==s js "misc.test" then Some n else None;
  groupUsername := λ _ asked, if asked : bool then js "user" else [];
  groupPassword := λ _ asked, if asked : bool then js "pw" else [];
  getAuthenticationCredentials := λ _ _ _, (true, true);
  forgetAuthenticationCredentials := λ _ _, false;
  getMessageIdForKey := λ _ _ _, [];
  folderURI := λ _ _, js "news://host/misc.test";
  setAuthUsername := λ _ s, s;
  promptAuthFailed := λ s, (s, 0)
|}.

Definition sampleNntpServer (auth : bool) : NntpServer :=
  mkNntpServer (js "news.example.org") 119 false auth (js "20260101 000000") (λ s, s).

Definition sampleNntp (auth : bool) (inputs : list input) (c : NntpClient bool (NewsGroup listDb)) :
    NntpClient bool (NewsGroup listDb) * list (event NntpNewsGroup.event) * option () :=
  run (sampleNntpServer auth) [LF] inputs c.

Definition nntp_line (s : jsstr) : input := IData (s ++ CRLF).

(** A request of a caller on a new connection, up to the greeting. *)
Definition sampleStart : list input :=
  [IStartRunningUrl true true; ICallbacks false; IConnect; IOpen; nntp_line (js "200 hi")].
