(* ===== verification/NntpSessions.v ===== *)
(** * NntpSessions: what the NNTP client does over whole sessions

    Theorems on NntpClient.v: the completion of a request is reported once,
    whatever happens; a connection that was lost in the middle of a response
    makes every later attempt fail; the session is resumed after the server asks
    for the user, except for POST. *)

From S2P Require Import Prelude Effects Net LineReader ReadLines MsgKeySet NntpNewsGroup NntpClient.

(** ** Completion is reported once *)

Section Once.
Context {F G E : Type} `{NewsFolders F} `{GroupOps G E}.
Variable srv : NntpServer.
Variable sep : jsstr.
Abbreviation client := (NntpClient F G).

Definition completes (e : event E) : Prop := match e with OnDone _ => True | _ => False end.
#[export] Instance completes_dec e : Decision (completes e).
Proof. destruct e; solve_decision. Defined.

(** The reports of completion in a trace, and the ones still due. *)
Definition completions (o : list (event E)) : nat := length (filter completes o).
Definition due (c : client) : nat := if _done c then 0%nat else 1%nat.

Lemma completions_app o1 o2 : completions (o1 ++ o2) = (completions o1 + completions o2)%nat.
Proof. unfold completions. by rewrite filter_app, length_app. Qed.

(** Nothing is reported. *)
Definition silent (c : client) (o : list (event E)) (c' : client) : Prop :=
  completions o = 0%nat ∧ _done c' = _done c.
(** A report uses up what is due. *)
Definition once (c : client) (o : list (event E)) (c' : client) : Prop :=
  (completions o + due c' <= due c)%nat.

#[local] Instance silent_trace : TraceRel silent.
Proof.
  split; [by intros c; split|]. intros c1 o1 c2 o2 c3 [H1 H2] [H3 H4]. split; [|congruence].
  rewrite completions_app. lia.
Qed.
#[local] Instance once_trace : TraceRel once.
Proof.
  split; [intros c; unfold once; cbn; lia|]. intros c1 o1 c2 o2 c3. unfold once. rewrite completions_app. lia.
Qed.

Lemma once_refl c : once c [] c.
Proof. apply trace_refl. Qed.

Lemma silent_once {X} (m : eff client (event E) X) : respects silent m → respects once m.
Proof.
  intros Hm c. specialize (Hm c). destruct (m c) as [[c' o] r]. destruct Hm as [H1 H2].
  unfold once, due. rewrite H1, H2. done.
Qed.

Lemma silent_emit e : ¬ completes e → respects silent (emit e).
Proof. intros He c. split; [|done]. unfold completions. by rewrite filter_cons_False. Qed.

Lemma silent_modify f : (∀ c : client, _done (f c) = _done c) → respects silent (modify f).
Proof. intros Hf c. by split. Qed.

Lemma silent_group {X} (m : eff G E X) : respects silent (group_call m).
Proof.
  intros c. unfold group_call. destruct (_newsGroup c) as [g|]; [|done].
  destruct (m g) as [[g' o] r]. split; [|done]. unfold completions.
  induction o as [|e o IH]; [done|]. cbn [map]. by rewrite filter_cons_False by tauto.
Qed.

Lemma silent_folder {X} (f : F → F * X) : respects silent (folder_call f).
Proof. intros c. unfold folder_call. by destruct (f (folders c)). Qed.

Ltac silent_step :=
  first [ apply silent_group | apply silent_folder
        | apply silent_emit; cbn; tauto
        | apply silent_modify; intros; reflexivity ].

(** The one method that reports. *)
Lemma once_actionDone st : respects once (_actionDone st).
Proof.
  intros c. unfold _actionDone. rewrite bind_gets. destruct (_done c) eqn:Ed; [apply once_refl|].
  cbn [negb when].
  match goal with |- context [bind (let! _ := gets _downloadingToFolder in _) (λ _, ?k)] =>
    set (rest := k) end.
  assert (Hpre : respects silent (let! dl := gets (@_downloadingToFolder F G) in
    when dl (on_folder_if (λ f, emit (@NotifyDownloadEnd E f NS_ERROR_FAILURE)) >>
             (this, _downloadingToFolder := false)))) by (respects_walk silent_step).
  specialize (Hpre c). unfold bind at 1. destruct (bind (gets _) _ c) as [[c1 o1] [u|]].
  2: { destruct Hpre as [H1 H2]. unfold once, due. by rewrite H1, H2, Ed. }
  destruct Hpre as [H1 H2]. subst rest. rewrite bind_modify.
  match goal with |- context [bind (call_onDone st) (λ _, ?k)] => set (rest := k) end.
  assert (Hrest : respects silent rest) by (subst rest; respects_walk silent_step).
  set (c2 := c1 <| _done := true |>).
  assert (Hd : ∃ o2, call_onDone st c2 = (c2, o2, Some tt) ∧ (completions o2 <= 1)%nat).
  { unfold call_onDone. rewrite bind_gets. destruct (callbacks c2); eexists; split;
      try reflexivity; unfold completions; cbn; lia. }
  destruct Hd as (o2 & Hr & Ho2). unfold bind at 1. rewrite Hr.
  specialize (Hrest c2). destruct (rest c2) as [[c3 o3] r]. destruct Hrest as [H3 H4].
  unfold once, due. rewrite !completions_app, H1, H3, H4, Ed. cbn. lia.
Qed.

Ltac once_step :=
  first [ apply once_actionDone
        | apply silent_once; silent_step ].

Lemma once_read_lines d line_cb done_cb :
  (∀ l, respects once (line_cb l)) → respects once done_cb →
  respects once (read_lines d line_cb done_cb).
Proof. intros Hl Hd. apply read_lines_respects; [exact once_trace|intros c lr; exact (once_refl c)|done|done]. Qed.

Ltac once_base := respects_walk ltac:(first [once_step | apply once_read_lines]).

Lemma once_actionAuthUser : respects once (_actionAuthUser (F := F) (G := G) (E := E)).
Proof. once_base. Qed.

Lemma once_run_action a : respects once (run_action srv a (E := E)).
Proof. respects_walk ltac:(first [once_step | apply once_actionAuthUser]). Qed.

Ltac once_walk := respects_walk ltac:(first
  [ once_step | apply once_read_lines | apply once_actionAuthUser | apply once_run_action ]).

Lemma once_call_onOpen : respects once (call_onOpen srv (E := E)).
Proof. once_walk. Qed.

(** What an input adds to what is due: [connect] starts a request. *)
Definition starts (i : input) : nat := match i with IConnect => 1%nat | _ => 0%nat end.

Lemma once_connect (c : client) :
  let '(c', o, _) := connect srv (E := E) c in (completions o + due c' <= 1)%nat.
Proof.
  unfold connect. rewrite bind_modify.
  assert (Hr : respects once (let! c := gets id in
     if bool_decide (_socket c = Some Open) then call_onOpen srv (E := E)
     else (this, _authenticated := false) >> (this, _socket := Some Connecting) >>
       emit (Connect (toLowerCase (hostName srv)) (port srv) (isSecure srv)))).
  { respects_walk ltac:(first [apply once_call_onOpen | once_step]). }
  specialize (Hr (c <| _done := false |>)).
  match goal with |- context [bind (gets id) ?k ?s] => destruct (bind (gets id) k s) as [[c' o] r] end.
  exact Hr.
Qed.

Lemma once_run {X} (m : eff client (event E) X) c :
  respects once m → let '(c', o, _) := m c in (completions o + due c' <= due c + 0)%nat.
Proof. intros Hm. specialize (Hm c). destruct (m c) as [[c' o] r]. unfold once in Hm. lia. Qed.

Lemma once_handle i c :
  let '(c', o, _) := handle srv sep i c in (completions o + due c' <= due c + starts i)%nat.
Proof.
  destruct i; cbn [starts handle]; try (apply once_run; once_walk).
  pose proof (once_connect c) as Hc. destruct (connect srv c) as [[c' o] r]. lia.
Qed.

(** C16. However the caller, the server and the network behave, and in whatever
    order, the completion of a request is reported at most once: a session
    reports no more completions than it has made connections, and the ones it
    may still report are accounted for. *)
Theorem completion_once inputs (c : client) :
  let '(c', o, _) := run srv sep inputs c in
  (completions o + due c' <= due c + sum_list (map starts inputs))%nat.
Proof.
  revert c. induction inputs as [|i inputs IH]; intros c; [cbn; lia|]. rewrite nntp_run_cons.
  pose proof (once_handle i c) as Hi. destruct (handle srv sep i c) as [[c1 o1] r1].
  specialize (IH c1). destruct (run srv sep inputs c1) as [[c2 o2] r2].
  rewrite completions_app.
  change (sum_list (map starts (i :: inputs))) with (starts i + sum_list (map starts inputs))%nat.
  lia.
Qed.
End Once.

(** ** The end of a request *)

Section Ends.
Context {F G E : Type} `{NewsFolders F} `{GroupOps G E} `{!GroupLaws G E}.
Variable srv : NntpServer.
Variable sep : jsstr.
Abbreviation client := (NntpClient F G).

Definition folder_event (c : client) (f : folder → event E) : list (event E) :=
  match _newsFolder c with Some d => [f d] | None => [] end.

Definition report (c : client) (st : nsresult) : list (event E) :=
  match callbacks c with CbNone => [] | _ => [OnDone st] end.

(** What the caller, the folder, the listener, the url and the pool are told. *)
Definition done_events (c : client) (st : nsresult) (og : list E) : list (event E) :=
  (if _downloadingToFolder c
   then folder_event c (λ f, NotifyDownloadEnd f NS_ERROR_FAILURE) else []) ++
  report c st ++ map Group og ++ folder_event c (λ f, FolderStop f st) ++
  (if urlListener c then [UrlStop st] else []) ++ [UrlState false st; OnIdle].

Definition done_state (c : client) (g : option G) : client :=
  mkNntpClient (_socket c) (_lineReader c) (_nextAction c) (_currentAction c)
    (_firstGroupCommand c) (_nextGroupName c) (_currentGroupName c) (_inReadingMode c)
    (_authenticated c) true (_articleNumber c) (_messageId c) None g (_startArticle c)
    (_endArticle c) (_xhdrFields c) (_curXHdrHeader c) (_xpatLines c) false CbNone
    (onReadyToPost c) false false false (folders c).

Lemma actionDone_run (c : client) st :
  _done c = false → runningUri c = true →
  ∃ g og, _actionDone st c = (done_state c g, done_events c st og, Some tt).
Proof.
  intros Hd Hu. destruct c as [so lr na ca fg ng cg rm au dn an mi nf gr sa ea xf ch xl dl cb rp
    ru ul mw fs]. cbn in Hd, Hu. subst dn ru.
  assert (Hg : ∃ g og, match gr with
      | Some g0 => ∃ g1, g = Some g1 ∧ group_cleanup (E := E) g0 = (g1, og, Some tt)
      | None => g = None ∧ og = []
      end).
  { destruct gr as [g|]; [|by exists None, []]. destruct (cleanup_returns (E := E) g) as (g' & o & Hc).
    by exists (Some g'), o, g'. }
  destruct Hg as (g & og & Hg). exists g, og.
  unfold _actionDone, call_onDone, on_folder_if, done_events, folder_event, report, done_state,
    group_call, bind, gets, modify, emit, skip, ret, when.
  destruct gr as [gr|]; [destruct Hg as (g1 & -> & Hg)|destruct Hg as [-> ->]];
    destruct dl, nf as [nf|], cb, ul; cbn; rewrite ?Hg; cbn; rewrite <- ?(assoc_L (++)); reflexivity.
Qed.

Definition alert (c : client) (text : jsstr) : list (event E) :=
  if _msgWindow c then [PromptAlert NNTP_ERROR_MESSAGE (SP :: text)] else [].

Lemma actionError_run (c : client) text :
  _done c = false → runningUri c = true → text ≠ [] →
  ∃ g og, _actionError NNTP_ERROR_MESSAGE (Some text) c
          = (done_state c g, alert c text ++ done_events c NS_ERROR_FAILURE og, Some tt).
Proof.
  intros Hd Hu Ht. destruct (actionDone_run c NS_ERROR_FAILURE Hd Hu) as (g & og & Hr).
  exists g, og. unfold _actionError, alert. rewrite bind_gets.
  destruct (_msgWindow c); cbn [negb]; [|by rewrite Hr].
  rewrite bind_emit, Hr. by destruct text.
Qed.

(** The page that explains the failure of an article. *)
Definition see_other (c : client) (st : Z) (text : jsstr) : list (event E) :=
  if failure_status st && (str_truthy (_messageId c) || num_truthy (_articleNumber c))
  then [SeeOtherURI (error_uri srv c text)] else [].

(** The statuses that end the request. *)
Definition ends_request (st : Z) : bool :=
  negb (st =? AUTH_REQUIRED) && ((st =? SERVICE_UNAVAILABLE) || failure_status st).

(** A status line with a failure, whatever the request and whatever the
    client was about to do: the page and the prompt are shown, everyone is told
    once, with the failure, and the client is reset and handed back for the next
    request. *)
Theorem failed_response_ends (c : client) x y z text d :
  is_digit x = true → is_digit y = true → is_digit z = true → one_line text → text ≠ [] →
  ends_request (digits_val [x; y; z]) = true →
  receivingMultiLineResponse (_lineReader c) = false → _done c = false → runningUri c = true →
  ∃ g og, _onData srv sep ([x; y; z; SP] ++ text ++ CRLF ++ d) c
          = (done_state c g, see_other c (digits_val [x; y; z]) text ++ alert c text ++
             done_events c NS_ERROR_FAILURE og, Some tt).
Proof.
  intros Hx Hy Hz Ht Hn He Hl Hd Hu. destruct (actionError_run c text Hd Hu Hn) as (g & og & Hr).
  exists g, og. unfold _onData. rewrite bind_gets. unfold id. rewrite Hl, parse_status by done.
  cbn [status statusText]. set (st := digits_val [x; y; z]) in *. unfold ends_request in He.
  apply andb_true_iff in He as [He1%negb_true_iff He2]. rewrite He1. unfold see_other.
  destruct (st =? SERVICE_UNAVAILABLE) eqn:E5.
  - apply Z.eqb_eq in E5 as ->. exact Hr.
  - cbn [orb] in He2. rewrite He2. cbn [andb default]. destruct (str_truthy _ || _); cbn [when].
    + unfold seeOther, bind at 1. rewrite bind_gets, Hu. rewrite emit_run, Hr. done.
    + unfold skip. rewrite bind_ret_l. exact Hr.
Qed.

(** ** A response that was cut off *)

(** A client that is handed back, and whose reader waits for the rest of a
    response that will not come. *)
Definition stuck (c : client) : Prop :=
  receivingMultiLineResponse (_lineReader c) = true ∧ _done c = true ∧ _socket c ≠ Some Open.

Definition QUIT : event E := Send (js "QUIT" ++ CRLF).

(** A request on it: a new connection and whatever the server says first. *)
Definition attempt (greeting : jsstr) : list input :=
  [IStartRunningUrl true true; ICallbacks false; IConnect; IOpen; IData greeting].

(** The commands and the reports of a trace. *)
Definition outcome_event (e : event E) : Prop :=
  match e with Send _ | OnDone _ => True | _ => False end.
#[export] Instance outcome_event_dec e : Decision (outcome_event e).
Proof. destruct e; solve_decision. Defined.

Lemma filter_group (og : list E) : filter outcome_event (map Group og) = [].
Proof. induction og as [|e og IH]; [done|]. cbn [map]. by rewrite filter_cons_False by tauto. Qed.

Lemma filter_done_events (c : client) st og :
  filter outcome_event (done_events c st og) = report c st.
Proof.
  unfold done_events, folder_event, report. rewrite !filter_app, filter_group.
  by destruct (_downloadingToFolder c), (_newsFolder c), (callbacks c), (urlListener c).
Qed.

Lemma quit_run (c : client) st code :
  _socket c = Some st → _done c = false → runningUri c = true →
  ∃ c' o, quit code c = (c', o, Some tt) ∧ _done c' = true ∧ _lineReader c' = _lineReader c ∧
    _socket c' ≠ Some Open ∧
    filter outcome_event o = (if bool_decide (st = Open) then [QUIT] else []) ++ report c code.
Proof.
  intros Hs Hd Hu. unfold quit, _sendCommand, close, bind at 1. rewrite bind_gets, Hs.
  set (c2 := c <| _nextAction := Some NClose |>
               <| _socket := Some (if bool_decide (st = Closed) then Closed else Closing) |>).
  destruct (actionDone_run c2 code Hd Hu) as (g & og & Hr).
  exists (done_state c2 g),
    ((if bool_decide (st = Open) then [QUIT] else []) ++ SocketClose :: done_events c2 code og).
  split; [|split_and!].
  - destruct (bool_decide (st = Open)); cbn [when]; unfold send; rewrite ?emit_run; unfold skip, ret;
      unfold next; rewrite bind_modify; unfold bind at 1; rewrite bind_gets;
      cbn [_socket update]; change (_socket (c <| _nextAction := Some NClose |>)) with (_socket c);
      rewrite Hs, bind_modify, emit_run; fold c2; rewrite Hr; reflexivity.
  - done.
  - done.
  - cbn. by destruct (bool_decide (st = Closed)).
  - rewrite filter_app, filter_cons_False by (cbn; tauto). rewrite filter_done_events.
    by destruct (bool_decide (st = Open)).
Qed.

(** The client that waits for the greeting. *)
Definition opened (c : client) : client :=
  mkNntpClient (Some Open) (_lineReader c) (Some NGreeting) (_currentAction c)
    (_firstGroupCommand c) (_nextGroupName c) None false false false (_articleNumber c)
    (_messageId c) (_newsFolder c) (_newsGroup c) (_startArticle c) (_endArticle c)
    (_xhdrFields c) (_curXHdrHeader c) (_xpatLines c) (_downloadingToFolder c) CbCaller
    (onReadyToPost c) true true true (folders c).

Lemma open_run (c : client) rest :
  _socket c ≠ Some Open →
  run srv sep (IStartRunningUrl true true :: ICallbacks false :: IConnect :: IOpen :: rest) c
  = let '(c2, o2, r) := run srv sep rest (opened c) in
    (c2, [UrlStart; UrlState true NS_OK; Connect (toLowerCase (hostName srv)) (port srv) (isSecure srv)]
         ++ o2, r).
Proof.
  intros Hs. destruct c as [so lr na ca fg ng cg rm au dn an mi nf gr sa ea xf ch xl dl cb rp ru ul mw fs].
  cbn in Hs.
  assert (Hf : bool_decide (so = Some Open) = false) by by apply bool_decide_eq_false.
  do 4 (rewrite nntp_run_cons; unfold handle at 1, startRunningUrl, connect, _onOpen, next;
        unfold bind, modify, emit, when, skip, ret, gets, id;
        cbn -[bool_decide run toLowerCase opened]; rewrite ?Hf;
        cbn -[bool_decide run toLowerCase opened]).
  unfold opened. cbn -[run toLowerCase]. destruct (run _ _ rest _) as [[? ?] ?]. reflexivity.
Qed.

Lemma attempt_fails (c : client) p :
  stuck c →
  ∃ c' o, run srv sep (attempt p) c = (c', o, Some tt) ∧ stuck c' ∧
    filter outcome_event o = [QUIT; OnDone NS_ERROR_FAILURE].
Proof.
  intros (Hr & Hd & Hs). unfold attempt. rewrite open_run by done. rewrite nntp_run_cons.
  cbn [handle]. unfold _onData. rewrite bind_gets. unfold id.
  change (_lineReader (opened c)) with (_lineReader c). rewrite Hr. cbn [parse_response status].
  destruct (quit_run (opened c) Open NS_ERROR_FAILURE) as (c' & o & Hq & H1 & H2 & H3 & H4); try done.
  unfold do_next, catch. rewrite bind_gets. change (_nextAction (opened c)) with (Some NGreeting).
  cbn [run_next]. unfold on_greeting. rewrite bool_decide_eq_false_2 by (by intros [?|?]).
  rewrite Hq. eexists c', _. split; [reflexivity|]. split.
  - split_and!; [by rewrite H2|done|done].
  - rewrite filter_app, app_nil_r, H4. reflexivity.
Qed.

Lemma attempts_fail gs (c : client) :
  stuck c →
  ∃ c' o, run srv sep (flat_map attempt gs) c = (c', o, Some tt) ∧
    filter outcome_event o = flat_map (λ _, [QUIT; OnDone NS_ERROR_FAILURE]) gs.
Proof.
  revert c. induction gs as [|g gs IH]; intros c Hc; [by eexists c, _|].
  destruct (attempt_fails c g Hc) as (c1 & o1 & Hg & Hc1 & Ho1).
  destruct (IH c1 Hc1) as (c2 & o2 & Hgs & Ho2).
  exists c2, (o1 ++ o2). split; [|by rewrite filter_app, Ho1, Ho2].
  change (flat_map attempt (g :: gs)) with (attempt g ++ flat_map attempt gs).
  rewrite nntp_run_app. unfold bind. by rewrite Hg, Hgs.
Qed.

(** When a connection is lost in the middle of a multi-line response, the
    line reader keeps waiting for the rest of it, and what the server says first
    on a new connection is taken to be that rest: however often a request is
    tried again on this client, and whatever the server answers, the client
    sends QUIT and reports a failure. *)
Theorem lost_connection_sticks (c : client) code greetings :
  receivingMultiLineResponse (_lineReader c) = true → _done c = false → runningUri c = true →
  _socket c = Some Closed → callbacks c = CbCaller →
  let '(_, o, _) := run srv sep (IError code :: flat_map attempt greetings) c in
  filter outcome_event o
  = OnDone code :: flat_map (λ _, [QUIT; OnDone NS_ERROR_FAILURE]) greetings.
Proof.
  intros Hr Hd Hu Hs Hcb. rewrite nntp_run_cons. cbn [handle].
  assert (He : ∃ c' o, _onError code c = (c', o, Some tt) ∧ stuck c' ∧
    filter outcome_event o = [OnDone code]).
  { destruct (quit_run c Closed code Hs Hd Hu) as (c' & o & Hq & H1 & H2 & H3 & H4).
    unfold report in H4. rewrite Hcb in H4. cbn in H4. unfold _onError.
    destruct (error_page code) as [[name uri]|].
    - exists c', (AlertUser name :: SeeOtherURI uri :: o). split_and!; [|by split_and!; [rewrite H2| |]|].
      + unfold bind at 1. rewrite bind_emit, bind_gets, Hu. cbn [when]. rewrite emit_run, Hq. done.
      + rewrite !filter_cons_False by tauto. done.
    - exists c', o. split_and!; [|by split_and!; [rewrite H2| |]|done].
      unfold skip. by rewrite bind_ret_l. }
  destruct He as (c1 & o1 & -> & Hst & Ho1). clear Hr Hd Hu Hs Hcb.
  destruct (attempts_fail greetings c1 Hst) as (c2 & o2 & -> & Ho2).
  by rewrite filter_app, Ho1, Ho2.
Qed.
End Ends.

(** ** Witnesses *)

Definition articleStart : list input :=
  sampleStart ++ [IGetArticleById (js "a@b"); nntp_line (js "200 ok")].

(** A request for an article, before the response and in the middle of it. *)
Definition awaitingSample : NntpClient bool (NewsGroup listDb) :=
  (sampleNntp false articleStart (newNntpClient false)).1.1.

Definition cutSample : NntpClient bool (NewsGroup listDb) :=
  (sampleNntp false
     (articleStart ++ [nntp_line (js "220 0 <a@b>"); IData (js "Subject: x"); ISocketState Closed])
     (newNntpClient false)).1.1.

Lemma failed_response_ends_witness :
  ∃ g og, _onData (sampleNntpServer false) [LF] ((js "430 ") ++ js "none" ++ CRLF ++ []) awaitingSample
    = (done_state awaitingSample g,
       see_other (sampleNntpServer false) awaitingSample 430 (js "none") ++
       alert awaitingSample (js "none") ++ done_events awaitingSample NS_ERROR_FAILURE og, Some tt).
Proof.
  apply (failed_response_ends (sampleNntpServer false) [LF] awaitingSample 52 51 48 (js "none") []);
    try (vm_compute; reflexivity); [decide_line|done].
Defined.

Lemma lost_connection_sticks_witness :
  filter outcome_event
    (sampleNntp false (IError NS_ERROR_NET_RESET :: flat_map attempt [js "200 hi" ++ CRLF]) cutSample).1.2
  = OnDone NS_ERROR_NET_RESET ::
    flat_map (λ _, [QUIT; OnDone NS_ERROR_FAILURE]) [js "200 hi" ++ CRLF].
Proof.
  pose proof (lost_connection_sticks (sampleNntpServer false) [LF] cutSample NS_ERROR_NET_RESET
    [js "200 hi" ++ CRLF]) as Hl.
  unfold sampleNntp. destruct (run _ _ _ _) as [[c o] r]. apply Hl; vm_compute; reflexivity.
Defined.
