(* ===== verification/NntpArticles.v ===== *)
(** * NntpArticles: what the NNTP client does with the responses of one request

    Theorems on NntpClient.v: an article is given to its folder and to the
    caller line by line, however the response is cut into pieces, unless the cut
    is in the status line; when the server asks for the user in the middle of a
    request, the command is sent again, unless it is POST. *)

From S2P Require Import Prelude Effects Net LineReader ReadLines MsgKeySet NntpNewsGroup NntpClient NntpSessions.

Section Responses.
Context {F G E : Type} `{NewsFolders F} `{GroupOps G E}.
Variable srv : NntpServer.
Variable sep : jsstr.
Abbreviation client := (NntpClient F G).

(** ** A status line that is not a failure *)

Definition passes (st : Z) : bool :=
  negb (st =? AUTH_REQUIRED) && negb (st =? SERVICE_UNAVAILABLE) && negb (failure_status st).

Lemma onData_status (c : client) x y z text d :
  is_digit x = true → is_digit y = true → is_digit z = true → one_line text → text ≠ [] →
  receivingMultiLineResponse (_lineReader c) = false → passes (digits_val [x; y; z]) = true →
  _onData srv sep ([x; y; z; SP] ++ text ++ CRLF ++ d) c
  = do_next srv sep (mkResponse (Some (digits_val [x; y; z])) (Some text) d) c.
Proof.
  intros Hx Hy Hz Ht Hn Hl Hp. unfold _onData. rewrite bind_gets. unfold id.
  rewrite Hl, parse_status by done. cbn [status]. unfold passes in Hp.
  apply andb_true_iff in Hp as [[H1 H2]%andb_true_iff H3].
  apply negb_true_iff in H1, H2, H3. by rewrite H1, H2, H3.
Qed.

Lemma nntp_send_open (c : client) s :
  _socket c = Some Open → _sendCommand s c = (c, [Send (s ++ CRLF) : event E], Some tt).
Proof. intros Hs. unfold _sendCommand. rewrite bind_gets, Hs. done. Qed.

(** ** The authentication in the middle of a request *)

Definition auth_lines (t1 t2 t3 : jsstr) : list input :=
  [IData (js "480 " ++ t1 ++ CRLF); IData (js "381 " ++ t2 ++ CRLF); IData (js "281 " ++ t3 ++ CRLF)].

(** The folder whose credentials are used. *)
Definition auth_folder (c : client) : folder := default Root (_newsFolder c).

(** The client after the server has accepted the password. *)
Definition authed (c : client) : client :=
  mkNntpClient (_socket c) (_lineReader c) (Some NAuthResult) (_currentAction c)
    (_firstGroupCommand c) (_nextGroupName c) None (_inReadingMode c) true (_done c)
    (_articleNumber c) (_messageId c) (Some (auth_folder c)) (_newsGroup c) (_startArticle c)
    (_endArticle c) (_xhdrFields c) (_curXHdrHeader c) (_xpatLines c) (_downloadingToFolder c)
    (callbacks c) (onReadyToPost c) (runningUri c) (urlListener c) (_msgWindow c)
    (setAuthUsername (groupUsername (auth_folder c) (folders c)) (folders c)).

Definition dialogue (c : client) : list (event E) :=
  [Send (js "AUTHINFO user " ++ groupUsername (auth_folder c) (folders c) ++ CRLF);
   Send (js "AUTHINFO pass " ++ groupPassword (auth_folder c) (folders c) ++ CRLF)].

(** Which client may be asked: one that reads no multi-line response, on an open
    connection, with credentials. *)
Definition can_authenticate (c : client) : Prop :=
  receivingMultiLineResponse (_lineReader c) = false ∧ _socket c = Some Open ∧
  groupUsername (auth_folder c) (folders c) ≠ [].

Context (password_kept : ∀ u fd (s : F), groupPassword fd (setAuthUsername u s) = groupPassword fd s).

Lemma auth_dialogue (c : client) t1 t2 t3 :
  can_authenticate c → Forall one_line [t1; t2; t3] → Forall (λ t, t ≠ []) [t1; t2; t3] →
  run srv sep (auth_lines t1 t2 t3) c
  = let '(c', o, _) := catch (run_current srv) (_actionDone NS_ERROR_FAILURE) (authed c) in
    (c', dialogue c ++ o, Some tt).
Proof.
  intros (Hl & Hs & Hu) Hls Hns. rewrite !Forall_cons in Hls, Hns.
  destruct Hls as (L1 & L2 & L3 & _), Hns as (N1 & N2 & N3 & _).
  destruct c as [so lr na ca fg ng cg rm au dn an mi nf gr sa ea xf ch xl dl cb rp ru ul mw fs].
  unfold can_authenticate, auth_folder in *. cbn in Hl, Hs, Hu. subst so.
  set (fd := default Root nf) in *. unfold auth_lines.
  set (c1 := mkNntpClient (Some Open) lr (Some NAuthResult) ca fg ng None rm au dn an mi (Some fd)
    gr sa ea xf ch xl dl cb rp ru ul mw (setAuthUsername (groupUsername fd fs) fs) : client).
  set (c0 := mkNntpClient (Some Open) lr na ca fg ng cg rm au dn an mi nf gr sa ea xf ch xl dl cb
    rp ru ul mw fs : client).
  assert (H1 : _onData srv sep (js "480 " ++ t1 ++ CRLF) c0
    = (c1, [Send (js "AUTHINFO user " ++ groupUsername fd fs ++ CRLF)] : list (event E), Some tt)).
  { unfold _onData. rewrite bind_gets. unfold id. subst c0. cbn [_lineReader]. rewrite Hl.
    pose proof (parse_status 52 56 48 t1 [] eq_refl eq_refl eq_refl L1 N1) as Hp.
    rewrite app_nil_r in Hp. change (js "480 ") with [52; 56; 48; SP]. rewrite Hp. cbn [status].
    change (digits_val _ =? AUTH_REQUIRED) with true. cbv iota.
    unfold _actionAuthUser, folder_call, _sendCommand, next, send.
    assert (Ht : str_truthy (groupUsername fd fs) = true) by (by destruct (groupUsername fd fs)).
    unfold bind, gets, modify, emit, when, skip, ret, id. subst fd c1.
    destruct nf as [nf|]; cbn -[bool_decide str_truthy] in Ht |- *; rewrite Ht;
      cbn -[str_truthy]; rewrite <- ?(assoc_L (++)); reflexivity. }
  assert (Hd : ∀ x text (c : client), is_digit x = true → one_line text → text ≠ [] → lr = _lineReader c →
    passes (digits_val [x; 56; 49]) = true →
    _onData srv sep ([x; 56; 49; SP] ++ text ++ CRLF) c
    = do_next srv sep (mkResponse (Some (digits_val [x; 56; 49])) (Some text) []) c).
  { intros x text c Hx Ht Hn -> Hp.
    pose proof (onData_status c x 56 49 text [] Hx eq_refl eq_refl Ht Hn Hl Hp) as Ho.
    by rewrite app_nil_r in Ho. }
  rewrite nntp_run_cons. cbn [handle]. rewrite H1.
  rewrite nntp_run_cons. cbn [handle].
  change (js "381 ") with [51; 56; 49; SP]. rewrite (Hd 51 t2 c1) by done.
  assert (H2 : do_next srv sep (mkResponse (Some (digits_val [51; 56; 49])) (Some t2) []) c1
    = (c1, [Send (js "AUTHINFO pass " ++ groupPassword fd fs ++ CRLF)] : list (event E), Some tt)).
  { unfold do_next, catch. rewrite bind_gets. cbn [_nextAction c1 run_next]. unfold _actionAuthResult.
    cbn [status]. change (digits_val [51; 56; 49] =? AUTH_ACCEPTED) with false.
    change (digits_val [51; 56; 49] =? AUTH_PASSWORD_REQUIRED) with true. cbv iota.
    unfold _actionAuthPassword, on_folder, _sendCommand, next, send, bind, gets, modify, emit, when, ret.
    cbn. rewrite password_kept, <- ?(assoc_L (++)). reflexivity. }
  rewrite H2. cbv beta iota zeta. rewrite nntp_run_cons. cbn [handle]. change (js "281 ") with [50; 56; 49; SP].
  rewrite (Hd 50 t3 c1) by done.
  assert (H3 : do_next srv sep (mkResponse (Some (digits_val [50; 56; 49])) (Some t3) []) c1
    = catch (run_current srv) (_actionDone NS_ERROR_FAILURE) (authed c0)).
  { unfold do_next, catch. rewrite bind_gets. cbn [_nextAction c1 run_next]. unfold _actionAuthResult.
    cbn [status]. change (digits_val [50; 56; 49] =? AUTH_ACCEPTED) with true. cbv iota.
    rewrite bind_modify. reflexivity. }
  rewrite H3. destruct (catch _ _ (authed c0)) as [[c3 o3] r3]. cbn. by rewrite app_nil_r.
Qed.

(** What is sent. *)
Definition sent (o : list (event E)) : list jsstr :=
  omap (λ e, match e with Send s => Some s | _ => None end) o.

Lemma sent_app o1 o2 : sent (o1 ++ o2) = sent o1 ++ sent o2.
Proof. apply omap_app. Qed.

(** The command of an action, and the action that takes its response. *)
Definition command_of (a : currentAction) (c : client) : option jsstr :=
  match a with
  | CurModeReader _ => Some (js "MODE READER")
  | CurPost => Some (js "POST")
  | CurAction ActList => Some (js "LIST")
  | CurAction ActNewgroups => Some (js "NEWGROUPS " ++ newgroupsTime srv ++ js " GMT")
  | CurAction ActGroup => n ← _nextGroupName c; Some (js "GROUP " ++ n)
  | CurAction ActArticle => Some (js "ARTICLE " ++ article_id c)
  | CurAction (ActListgroup n) => Some (js "LISTGROUP " ++ n)
  end.

Definition awaited (a : currentAction) : nextAction :=
  match a with
  | CurModeReader a => NModeReader a
  | CurPost => NHandlePost
  | CurAction ActList | CurAction ActNewgroups => NReadData
  | CurAction ActGroup => NGroupResponse
  | CurAction ActArticle => NArticle
  | CurAction (ActListgroup _) => NListgroup
  end.

Lemma run_current_sends (c : client) a cmd :
  _socket c = Some Open → _currentGroupName c = None → _currentAction c = Some a →
  command_of a c = Some cmd →
  ∃ c' o, run_current srv c = (c', o, Some tt) ∧ sent o = [cmd ++ CRLF] ∧
    _nextAction c' = Some (awaited a) ∧ _authenticated c' = _authenticated c ∧ _done c' = _done c.
Proof.
  destruct c as [so lr na ca fg ng cg rm au dn an mi nf gr sa ea xf ch xl dl cb rp ru ul mw fs].
  cbn. intros -> -> ->.
  destruct a as [b|[| | | |n]|]; cbn; [| | |destruct ng as [n|]; cbn|destruct nf| |]; intros [= <-];
    eexists _, _; (split; [reflexivity|]); cbn; rewrite <- ?(assoc_L (++)); done.
Qed.

(** When the server asks for the user in the middle of a request, and then
    accepts the name and the password, exactly these are sent and then the
    command that was refused, and the client awaits the response to it. *)
Theorem auth_resumes (c : client) t1 t2 t3 a cmd :
  can_authenticate c → Forall one_line [t1; t2; t3] → Forall (λ t, t ≠ []) [t1; t2; t3] →
  _currentAction c = Some a → command_of a (authed c) = Some cmd →
  let '(c', o, _) := run srv sep (auth_lines t1 t2 t3) c in
  sent o = [js "AUTHINFO user " ++ groupUsername (auth_folder c) (folders c) ++ CRLF;
            js "AUTHINFO pass " ++ groupPassword (auth_folder c) (folders c) ++ CRLF;
            cmd ++ CRLF] ∧
  _nextAction c' = Some (awaited a) ∧ _authenticated c' = true ∧ _done c' = _done c.
Proof.
  intros Hc Hl Hn Ha Hcmd. rewrite auth_dialogue by done. destruct Hc as (_ & Hs & _).
  destruct (run_current_sends (authed c) a cmd Hs eq_refl Ha Hcmd)
    as (c' & o & Hr & Ho & H1 & H2 & H3).
  unfold catch. rewrite Hr. split_and!; [|done..]. by rewrite sent_app, Ho.
Qed.

(** POST does not set the action to repeat: on a connection that is used
    for nothing else, a server that asks for the user gets the name and the
    password, accepts them, and POST is never sent again; the request is neither
    reported as done nor as failed. *)
Theorem post_auth_hangs (c : client) t1 t2 t3 :
  pushAuth srv = false → can_authenticate c →
  Forall one_line [t1; t2; t3] → Forall (λ t, t ≠ []) [t1; t2; t3] → _currentAction c = None →
  let '(c', o, _) := run srv sep (IPost :: auth_lines t1 t2 t3) c in
  o = Send (js "POST" ++ CRLF) :: dialogue c ∧ _done c' = _done c ∧
  _nextAction c' = Some NAuthResult.
Proof.
  intros Hp Hc Hl Hn Ha. rewrite nntp_run_cons. cbn [handle]. unfold post. rewrite bind_gets, Hp.
  cbn [andb]. unfold post_action, next. rewrite bind_modify.
  set (c1 := c <| _nextAction := Some NHandlePost |>).
  rewrite (nntp_send_open c1) by apply Hc. rewrite auth_dialogue by done.
  unfold catch, run_current. rewrite bind_gets.
  change (_currentAction (authed c1)) with (_currentAction c). rewrite Ha. cbn.
  split_and!; [|done..]. reflexivity.
Qed.
End Responses.

(** ** The response to ARTICLE *)

Section Article.
Context {F G E : Type} `{NewsFolders F} `{GroupOps G E} `{!GroupLaws G E}.
Variable srv : NntpServer.
Variable sep : jsstr.
Abbreviation client := (NntpClient F G).

(** What the folder and the caller get of a line. *)
Definition line_events (c : client) (l : jsstr) : list (event E) :=
  folder_event c (λ f, NotifyDownloadedLine f (l ++ sep)) ++
  match callbacks c with CbNone => [] | _ => [OnData (l ++ CRLF)] end.

Definition article_events (c : client) (ls : list jsstr) (og : list E) : list (event E) :=
  flat_map (line_events c) ls ++ folder_event c (λ f, NotifyDownloadEnd f NS_OK) ++
  done_events (c <| _downloadingToFolder := false |>) NS_OK og.

Lemma article_lines_run ls (c : client) :
  for_each (crlf_lines ls) (article_line sep) c = (c, flat_map (line_events c) ls, Some tt).
Proof.
  induction ls as [|l ls IH]; [done|]. cbn [crlf_lines map for_each flat_map].
  assert (Hl : article_line sep (l ++ CRLF) c = (c, line_events c l, Some tt)).
  { unfold article_line, on_folder_if, call_onData, line_events, folder_event.
    rewrite (slice_0_neg _ CRLF 2) by (done || lia).
    unfold bind, gets, emit, skip, ret. by destruct (_newsFolder c), (callbacks c). }
  unfold bind. rewrite Hl. unfold crlf_lines in IH. by rewrite IH.
Qed.

(** A client that reads an article, of which [buf] has come. *)
Definition reading (c : client) (b : bool) (buf : jsstr) : client :=
  c <| _lineReader := mkLineReader b buf |>.

Definition awaiting (c : client) : Prop :=
  _nextAction c = Some NArticle ∧ _done c = false ∧ runningUri c = true.

Lemma article_part (c : client) b buf res ls rest :
  awaiting c → Forall crlf_free ls → rest ≠ [] → buf ++ data res ++ rest = encode ls →
  do_next srv sep res (reading c b buf) = (reading c true (buf ++ data res), [], Some tt).
Proof.
  intros (Hn & _) Hls Hr He. unfold do_next, catch. rewrite bind_gets.
  change (_nextAction (reading c b buf)) with (_nextAction c). rewrite Hn. cbn [run_next].
  unfold _actionArticleResponse. rewrite (read_lines_incomplete _ _ ls _ rest); done.
Qed.

Lemma article_last (c : client) b buf res ls :
  awaiting c → Forall crlf_free ls → buf ++ data res = encode ls →
  ∃ g og, do_next srv sep res (reading c b buf)
          = (done_state (reading c false []) g, article_events c ls og, Some tt).
Proof.
  intros (Hn & Hd & Hu) Hls He.
  set (c1 := (reading c false []) <| _downloadingToFolder := false |>).
  destruct (actionDone_run c1 NS_OK Hd Hu) as (g & og & Hr). exists g, og.
  unfold do_next, catch. rewrite bind_gets.
  change (_nextAction (reading c b buf)) with (_nextAction c). rewrite Hn. cbn [run_next].
  unfold _actionArticleResponse.
  rewrite (read_lines_complete _ _ ls _ _ (reading c false []) (flat_map (line_events c) ls));
    [|done|done|apply (article_lines_run ls (reading c false []))].
  assert (Ha : article_done (reading c false []) = (done_state c1 g,
    folder_event c (λ f, NotifyDownloadEnd f NS_OK) ++ done_events c1 NS_OK og, Some tt)).
  { unfold article_done, on_folder_if, folder_event, bind at 1. rewrite bind_gets.
    change (_newsFolder (reading c false [])) with (_newsFolder c).
    destruct (_newsFolder c); unfold skip; rewrite ?emit_run; unfold ret; rewrite bind_modify;
      fold c1; by rewrite Hr. }
  rewrite Ha. destruct c. reflexivity.
Qed.

Lemma article_chunks (c : client) buf chunks ls :
  awaiting c → Forall crlf_free ls → Forall (λ x, x ≠ []) chunks → chunks ≠ [] →
  buf ++ concat chunks = encode ls →
  ∃ g og, run srv sep (map IData chunks) (reading c true buf)
          = (done_state (reading c false []) g, article_events c ls og, Some tt).
Proof.
  intros Hc Hls Hch Hn. revert buf. induction Hch as [|x chunks Hx Hch IH]; intros buf He; [done|].
  cbn [map concat] in *. rewrite nntp_run_cons. cbn [handle]. unfold _onData. rewrite bind_gets.
  unfold id. change (receivingMultiLineResponse _) with true. cbn [parse_response status].
  destruct chunks as [|y chunks].
  - destruct (article_last c true buf (mkResponse None None x) ls Hc Hls) as (g & og & Hr).
    { cbn [data]. by rewrite <- He, app_nil_r. }
    exists g, og. rewrite Hr. cbn. by rewrite app_nil_r.
  - rewrite (article_part c true buf (mkResponse None None x) ls (concat (y :: chunks))); [|done|done| |done].
    2: { apply Forall_cons in Hch as [Hy _]. by destruct y. }
    destruct IH with (buf := buf ++ x) as (g & og & Hr); [done| |].
    { by rewrite <- He, <- (assoc_L (++)). }
    exists g, og. cbn [data]. by rewrite Hr.
Qed.

(** A response from its first piece on, of which [data res] is article text. *)
Lemma article_from (c : client) res chunks ls :
  awaiting c → _lineReader c = newLineReader → Forall crlf_free ls →
  Forall (λ x, x ≠ []) chunks → data res ++ concat chunks = encode ls →
  ∃ g og, (let '(c1, o1, _) := do_next srv sep res c in
           let '(c2, o2, r) := run srv sep (map IData chunks) c1 in (c2, o1 ++ o2, r))
          = (done_state c g, article_events c ls og, Some tt).
Proof.
  intros Hc Hl Hls Hch He.
  assert (Hid : reading c false [] = c) by (destruct c; cbn in Hl; by subst).
  destruct chunks as [|y chunks].
  - destruct (article_last c false [] res ls Hc Hls) as (g & og & Hr).
    { cbn in He. by rewrite <- He, app_nil_r. }
    rewrite Hid in Hr. exists g, og. rewrite Hr. cbn. by rewrite app_nil_r.
  - assert (Hp := article_part c false [] res ls (concat (y :: chunks)) Hc Hls). rewrite Hid in Hp.
    rewrite Hp; [|apply Forall_cons in Hch as [Hy _]; by destruct y|done].
    destruct (article_chunks c (data res) (y :: chunks) ls) as (g & og & Hr); [done..|].
    exists g, og. rewrite Hid in Hr. cbn [app]. by rewrite Hr.
Qed.

(** C9. The response to ARTICLE, cut into pieces in any way after its status
    line: each line of the article, its stuffed dots removed, is given to the
    folder and to the caller once and in order, then the folder is told the
    article is whole and the request ends well. *)
Theorem article_delivered (c : client) x y z text ls d chunks :
  awaiting c → _lineReader c = newLineReader →
  is_digit x = true → is_digit y = true → is_digit z = true → passes (digits_val [x; y; z]) = true →
  one_line text → text ≠ [] → Forall crlf_free ls →
  Forall (λ x, x ≠ []) chunks → d ++ concat chunks = encode ls →
  ∃ g og, run srv sep (map IData (([x; y; z; SP] ++ text ++ CRLF ++ d) :: chunks)) c
          = (done_state c g, article_events c ls og, Some tt).
Proof.
  intros Hc Hl Hx Hy Hz Hp Ht Hn Hls Hch He. cbn [map]. rewrite nntp_run_cons. cbn [handle].
  rewrite onData_status; [|done..|by rewrite Hl|done]. by apply article_from.
Qed.

Lemma no_status_in_piece p : LF ∉ p → parse_response false p = mkResponse None None p.
Proof.
  intros Hp. unfold parse_response, match_status. destruct p as [|a [|b [|c0 [|e rest]]]]; try done.
  destruct (startsWith (drop (length (until_eol rest)) rest) CRLF) eqn:Es; [|by rewrite andb_false_r].
  exfalso. apply startsWith_true in Es as [r Hr]. apply Hp. do 4 right.
  rewrite <- (take_drop (length (until_eol rest)) rest), Hr. unfold CRLF. set_solver.
Qed.

Lemma one_line_no (text : jsstr) a : a ∈ [LF; CR; 8232; 8233] → one_line text → a ∉ text.
Proof. intros Ha Ht Hin. unfold one_line in Ht. rewrite Forall_forall in Ht. by apply (Ht a). Qed.

(** The same response, cut within the status line: the status line is not
    recognised, and it is given to the folder and to the caller as the first
    line of the article. *)
Theorem split_status_delivered (c : client) x y z text ls p chunks :
  awaiting c → _lineReader c = newLineReader →
  is_digit x = true → is_digit y = true → is_digit z = true → one_line text →
  Forall crlf_free ls → p ≠ [] → p `prefix_of` [x; y; z; SP] ++ text ++ [CR] →
  Forall (λ x, x ≠ []) chunks →
  p ++ concat chunks = ([x; y; z; SP] ++ text ++ CRLF) ++ encode ls →
  ∃ g og, run srv sep (map IData (p :: chunks)) c
          = (done_state c g, article_events c (([x; y; z; SP] ++ text) :: ls) og, Some tt).
Proof.
  intros Hc Hl Hx Hy Hz Ht Hls Hp [k Hk] Hch He. cbn [map]. rewrite nntp_run_cons. cbn [handle].
  assert (Hdig : ∀ a v, is_digit a = true → v < 48 → a ≠ v).
  { intros a v Ha Hv ->. unfold is_digit in Ha. lia. }
  assert (Hd : ∀ v, v < 32 → v ∈ [LF; CR; 8232; 8233] → v ∉ [x; y; z; SP] ++ text).
  { intros v Hv Hin. rewrite not_elem_of_app, !not_elem_of_cons. unfold SP.
    pose proof (one_line_no text v Hin Ht). split_and!; try (apply not_eq_sym, Hdig; [done|lia]);
      [lia|apply not_elem_of_nil|done]. }
  assert (HLF : LF ∉ p).
  { intros Hin. apply (Hd LF); [done|set_solver|].
    assert (LF ∈ ([x; y; z; SP] ++ text ++ [CR])) as Hi by (rewrite Hk; set_solver).
    rewrite (assoc_L (++)) in Hi. apply elem_of_app in Hi as [Hi|Hi]; [done|].
    by apply list_elem_of_singleton in Hi. }
  unfold _onData. rewrite bind_gets. unfold id. rewrite Hl, no_status_in_piece by done.
  cbn [status]. apply article_from; try done.
  - apply Forall_cons. split; [|done]. apply no_CR_crlf_free, Hd; [done|set_solver].
  - cbn [data]. rewrite He. unfold encode. cbn [map].
    assert (stuff ([x; y; z; SP] ++ text) = [x; y; z; SP] ++ text) as ->.
    { unfold stuff. destruct (startsWith _ [DOT]) eqn:Es; [|done].
      apply startsWith_true in Es as [r Hr]. injection Hr as Hr _.
      by destruct (Hdig x DOT Hx ltac:(unfold DOT; lia)). }
    unfold body. cbn [concat map]. by rewrite <- !(assoc_L (++)).
Qed.
End Article.

(** ** Witnesses *)

(** GROUP was sent, for an article of misc.test; the user's name is known. *)
Definition groupSample : NntpClient bool (NewsGroup listDb) :=
  (sampleNntp false (sampleStart ++ [IGetArticleByNumber (js "misc.test") (Some 3); nntp_line (js "200 ok")])
     (newNntpClient true)).1.1.

(** A new connection. *)
Definition greetedSample : NntpClient bool (NewsGroup listDb) :=
  (sampleNntp false sampleStart (newNntpClient true)).1.1.

Lemma fixed_password_kept u fd (s : bool) : groupPassword fd (setAuthUsername u s) = groupPassword fd s.
Proof. done. Qed.

Ltac decide_lines := apply (bool_decide_unpack (Forall one_line _)); vm_compute; exact Logic.I.
Ltac decide_nonempty := repeat apply Forall_cons_2; try apply Forall_nil_2; discriminate.

Lemma auth_resumes_witness :
  let '(c', o, _) := run (sampleNntpServer false) [LF]
    (auth_lines (js "who") (js "go on") (js "ok")) groupSample in
  sent o = [js "AUTHINFO user " ++ js "user" ++ CRLF; js "AUTHINFO pass " ++ js "pw" ++ CRLF;
            js "GROUP misc.test" ++ CRLF] ∧
  _nextAction c' = Some NGroupResponse ∧ _authenticated c' = true ∧ _done c' = _done groupSample.
Proof.
  apply (auth_resumes (sampleNntpServer false) [LF] fixed_password_kept groupSample (js "who")
    (js "go on") (js "ok") (CurAction ActGroup) (js "GROUP misc.test")).
  - split_and!; [vm_compute; reflexivity..|vm_compute; discriminate].
  - decide_lines.
  - decide_nonempty.
  - vm_compute; reflexivity.
  - vm_compute; reflexivity.
Defined.

Lemma post_auth_hangs_witness :
  let '(c', o, _) := run (sampleNntpServer false) [LF]
    (IPost :: auth_lines (js "who") (js "go on") (js "ok")) greetedSample in
  o = Send (js "POST" ++ CRLF) :: dialogue greetedSample ∧ _done c' = _done greetedSample ∧
  _nextAction c' = Some NAuthResult.
Proof.
  apply (post_auth_hangs (sampleNntpServer false) [LF] fixed_password_kept).
  - reflexivity.
  - split_and!; [vm_compute; reflexivity..|vm_compute; discriminate].
  - decide_lines.
  - decide_nonempty.
  - vm_compute; reflexivity.
Defined.

Definition sampleArticle : list jsstr := [js "Subject: x"; []; js ".dot"].

Ltac decide_crlf_free := repeat apply Forall_cons_2; try apply Forall_nil_2; vm_compute; reflexivity.

Lemma article_delivered_witness :
  ∃ g og, run (sampleNntpServer false) [LF]
    (map IData [js "220 0" ++ CRLF; js "Subject: x" ++ CRLF ++ CRLF ++ js ".."; js "dot" ++ CRLF ++ js "."; CRLF])
    awaitingSample
  = (done_state awaitingSample g, article_events [LF] awaitingSample sampleArticle og, Some tt).
Proof.
  apply (article_delivered (sampleNntpServer false) [LF] awaitingSample 50 50 48 (js "0") sampleArticle []).
  all: try (vm_compute; reflexivity).
  - split_and!; vm_compute; reflexivity.
  - decide_line.
  - discriminate.
  - decide_crlf_free.
  - decide_nonempty.
Defined.

Lemma split_status_delivered_witness :
  ∃ g og, run (sampleNntpServer false) [LF]
    (map IData [js "220 "; js "0" ++ CRLF ++ encode sampleArticle]) awaitingSample
  = (done_state awaitingSample g,
     article_events [LF] awaitingSample ((js "220 0") :: sampleArticle) og, Some tt).
Proof.
  apply (split_status_delivered (sampleNntpServer false) [LF] awaitingSample 50 50 48 (js "0")
    sampleArticle (js "220 ")).
  all: try (vm_compute; reflexivity).
  - split_and!; vm_compute; reflexivity.
  - decide_line.
  - decide_crlf_free.
  - discriminate.
  - by exists [48; CR].
  - decide_nonempty.
Defined.
