(* ===== verification/ImapUtils.v ===== *)
(** * ImapUtils: flags as numbers and as strings

    mailnews/imap/src/ImapUtils.sys.mjs.  The bit operators of the language work
    on 32-bit integers with sign, and convert their operands ([to_int32]). *)

From S2P Require Import Prelude.

(** ** Bit operators *)

(** ToInt32. *)
Definition to_int32 (z : Z) : Z :=
  let m := z mod 2 ^ 32 in if m <? 2 ^ 31 then m else m - 2 ^ 32.

Definition bit_and (a b : Z) : Z := Z.land (to_int32 a) (to_int32 b).
Definition bit_or (a b : Z) : Z := Z.lor (to_int32 a) (to_int32 b).

(** ** Capabilities *)

Definition Quota : Z := 0x00040000.
Definition Gmail : Z := 0x400000000.

(** ImapCapFlags.stringsToFlags. *)
Definition cap_step (flags : Z) (str : jsstr) : Z :=
  if str ==s js "QUOTA" then bit_or flags Quota
  else if str ==s js "X-GM-EXT-1" then bit_or flags Gmail
  else flags.
Definition cap_stringsToFlags (arr : list jsstr) : Z := fold_left cap_step arr 0.

(** ** Message flags *)

Definition FLAG_NONE : Z := 0.
Definition FLAG_SEEN : Z := 0x0001.
Definition FLAG_ANSWERED : Z := 0x0002.
Definition FLAG_FLAGGED : Z := 0x0004.
Definition FLAG_DELETED : Z := 0x0008.
Definition FLAG_DRAFT : Z := 0x0010.
Definition FLAG_FORWARDED : Z := 0x0040.
Definition FLAG_MDN_SENT : Z := 0x0080.
Definition FLAG_LABEL : Z := 0x0e00.
Definition FLAG_SUPPORT_FORWARDED_FLAG : Z := 0x4000.
Definition FLAG_SUPPORT_USER_FLAG : Z := 0x8000.

(** The flags that have a string, in the order they are written. *)
Definition strFlags : list (jsstr * Z) :=
  [(js "\Seen", FLAG_SEEN); (js "\Answered", FLAG_ANSWERED); (js "\Flagged", FLAG_FLAGGED);
   (js "\Deleted", FLAG_DELETED); (js "\Draft", FLAG_DRAFT); (js "$Forwarded", FLAG_FORWARDED);
   (js "$MDNSent", FLAG_MDN_SENT)].

Definition flagsToString (flags supportedFlags : Z) : jsstr :=
  join [SP] (map fst (List.filter
    (λ x, negb (bit_and flags x.2 =? 0) && negb (bit_and supportedFlags x.2 =? 0)) strFlags)).

(** What the flag "\*" stands for. *)
Definition user_flags : Z :=
  bit_or (bit_or (bit_or FLAG_LABEL FLAG_MDN_SENT) FLAG_FORWARDED) FLAG_SUPPORT_USER_FLAG.

Definition stringToFlag (str : jsstr) : Z :=
  default FLAG_NONE (mget
    [(js "\SEEN", FLAG_SEEN); (js "\ANSWERED", FLAG_ANSWERED); (js "\FLAGGED", FLAG_FLAGGED);
     (js "\DELETED", FLAG_DELETED); (js "\DRAFT", FLAG_DRAFT); (js "\*", user_flags);
     (js "$MDNSENT", FLAG_MDN_SENT); (js "$FORWARDED", FLAG_FORWARDED)] (toUpperCase str)).

Definition stringsToFlags (arr : list jsstr) : Z :=
  fold_left (λ flags str, bit_or flags (stringToFlag str)) arr 0.

(** ** Lemmas on bits *)

Lemma to_int32_testbit z i : 0 <= i < 32 → Z.testbit (to_int32 z) i = Z.testbit z i.
Proof.
  intros Hi. unfold to_int32. destruct (Z.ltb_spec (z mod 2 ^ 32) (2 ^ 31)) as [Hlt|Hge].
  - by rewrite Z.mod_pow2_bits_low by lia.
  - rewrite <- (Z.mod_pow2_bits_low (z mod 2 ^ 32 - 2 ^ 32) 32 i) by lia.
    replace (z mod 2 ^ 32 - 2 ^ 32) with (z mod 2 ^ 32 + (-1) * 2 ^ 32) by lia.
    rewrite Z.mod_add, Z.mod_mod by lia.
    by rewrite Z.mod_pow2_bits_low by lia.
Qed.

Lemma to_int32_small z : 0 <= z < 2 ^ 31 → to_int32 z = z.
Proof.
  intros Hz. unfold to_int32. rewrite Z.mod_small by lia. by rewrite (proj2 (Z.ltb_lt z _)) by lia.
Qed.

Lemma land_pow2 x i : 0 <= i → Z.land x (2 ^ i) = if Z.testbit x i then 2 ^ i else 0.
Proof.
  intros Hi. apply Z.bits_inj'. intros n Hn. rewrite Z.land_spec, Z.pow2_bits_eqb by lia.
  destruct (Z.eqb_spec i n) as [->|Hne].
  - rewrite andb_true_r. destruct (Z.testbit x n) eqn:E; [by rewrite Z.pow2_bits_true|].
    by rewrite Z.bits_0.
  - rewrite andb_false_r. destruct (Z.testbit x i); [by rewrite Z.pow2_bits_false|by rewrite Z.bits_0].
Qed.

Lemma bit_and_pow2 z i :
  0 <= i < 31 → negb (bit_and z (2 ^ i) =? 0) = Z.testbit z i.
Proof.
  intros Hi. unfold bit_and.
  rewrite (to_int32_small (2 ^ i)) by (split; [lia|apply Z.pow_lt_mono_r; lia]).
  rewrite land_pow2, to_int32_testbit by lia.
  destruct (Z.testbit z i); [|done]. by rewrite (proj2 (Z.eqb_neq (2 ^ i) 0)) by lia.
Qed.

(** The flags with a string. *)
Definition named_flags : Z := 223.

Lemma named_flags_bits x :
  Z.land x named_flags
  = fold_left Z.lor (map (λ i, if Z.testbit x i then 2 ^ i else 0) [0; 1; 2; 3; 4; 6; 7]) 0.
Proof.
  assert (named_flags = fold_left Z.lor (map (Z.pow 2) [0; 1; 2; 3; 4; 6; 7]) 0) as -> by done.
  cbn [map fold_left]. rewrite !Z.land_lor_distr_r, !land_pow2 by lia. by rewrite Z.land_0_r.
Qed.

(** ** Theorems *)

(** The flags written for the server and read back are those of the message
    that have a string and that the server supports. *)
Theorem flags_roundtrip flags supported :
  stringsToFlags (split_on SP (flagsToString flags supported))
  = Z.land (Z.land flags supported) named_flags.
Proof.
  rewrite named_flags_bits. unfold flagsToString, strFlags.
  change FLAG_SEEN with (2 ^ 0). change FLAG_ANSWERED with (2 ^ 1). change FLAG_FLAGGED with (2 ^ 2).
  change FLAG_DELETED with (2 ^ 3). change FLAG_DRAFT with (2 ^ 4).
  change FLAG_FORWARDED with (2 ^ 6). change FLAG_MDN_SENT with (2 ^ 7).
  cbn [map List.filter snd]. rewrite !bit_and_pow2 by lia. rewrite !Z.land_spec.
  generalize (Z.testbit flags 0 && Z.testbit supported 0) as b0,
    (Z.testbit flags 1 && Z.testbit supported 1) as b1,
    (Z.testbit flags 2 && Z.testbit supported 2) as b2,
    (Z.testbit flags 3 && Z.testbit supported 3) as b3,
    (Z.testbit flags 4 && Z.testbit supported 4) as b4,
    (Z.testbit flags 6 && Z.testbit supported 6) as b5,
    (Z.testbit flags 7 && Z.testbit supported 7) as b6.
  intros [] [] [] [] [] [] []; vm_compute; reflexivity.
Qed.

(** Bits above the 31st do not survive the bit operators: whatever the
    capabilities of the server, the flag of Gmail is never in the number they
    are turned into, which is 0x40000 when QUOTA is among them and 0 otherwise. *)
Theorem gmail_flag_lost arr :
  cap_stringsToFlags arr = (if bool_decide (js "QUOTA" ∈ arr) then Quota else 0) ∧
  Z.land (cap_stringsToFlags arr) Gmail = 0.
Proof.
  assert (Hs : ∀ arr f, f = 0 ∨ f = Quota →
    fold_left cap_step arr f = if bool_decide (js "QUOTA" ∈ arr) then Quota else f).
  { clear arr. induction arr as [|s arr IH]; intros f Hf; [done|]. cbn [fold_left].
    unfold cap_step at 2. destruct (s ==s js "QUOTA") eqn:E1.
    - apply jseq_true in E1 as ->. rewrite IH by (right; by destruct Hf as [-> | ->]).
      rewrite (bool_decide_eq_true_2 (_ ∈ _ :: _)) by left.
      destruct (bool_decide (js "QUOTA" ∈ arr)); [done|by destruct Hf as [-> | ->]].
    - apply jseq_false in E1.
      assert (bool_decide (js "QUOTA" ∈ s :: arr) = bool_decide (js "QUOTA" ∈ arr)) as ->.
      { apply bool_decide_ext. rewrite elem_of_cons. naive_solver. }
      destruct (s ==s js "X-GM-EXT-1"); [|by apply IH].
      rewrite IH by (destruct Hf as [-> | ->]; first [by left|by right]).
      destruct (bool_decide _); [done|by destruct Hf as [-> | ->]]. }
  unfold cap_stringsToFlags. rewrite Hs by (by left). by destruct (bool_decide _).
Qed.
