(* ===== verification/ImapResponse.v ===== *)
(** * ImapResponse: the responses of an IMAP server

    mailnews/imap/src/ImapResponse.sys.mjs.  A line becomes flat tokens and then
    a nested array of strings ([value]); a constructor that throws is [None].
    The object's fields are the record [ImapResponse], [parse] an [eff] over it,
    and a message given to onMessage an event: what the
    caller's function does is not known here, only whether it throws.  A message whose body is not
    complete is the same object in [messages] and in [_pendingMessage]: here the
    second is its index in the first.  The attributes a response code assigns by
    name ([this[field] = ...]) are kept apart; where the name is one of the
    object's own fields or methods, [Overwrites] says so and the model ends there
    as if by a throw. *)

From S2P Require Import Prelude Effects ImapUtils.

(** ** Tokens *)

Inductive value := Str (s : jsstr) | Arr (l : list value).

(** The conversion of a value to a string. *)
Fixpoint to_str (v : value) : jsstr :=
  match v with Str s => s | Arr l => join [44] (map to_str l) end.

Definition is_separator (c : Z) : bool := bool_decide (c ∈ [40; 41; 91; 93; QUOTE; SP]).

(** The text before the first separator, the separator and the rest. *)
Fixpoint find_separator (line : jsstr) : jsstr * option (Z * jsstr) :=
  match line with
  | [] => ([], None)
  | c :: line' =>
      if is_separator c then ([], Some (c, line'))
      else let '(t, r) := find_separator line' in (c :: t, r)
  end.

(** The loop over a quoted string, after its first quote: the token and the
    rest.  An escaped quote continues it, and drops two characters at least. *)
Fixpoint quoted (fuel : nat) (str line : jsstr) : jsstr * jsstr :=
  let index := indexOf line [QUOTE] in
  let str' := str ++ slice line 0 (index + 1) in
  let line' := slice_from line (index + 1) in
  match fuel with
  | S f => if bool_decide (charAt line (index - 1) = Some BACKSLASH) then quoted f str' line'
           else (str', line')
  | O => (str', line')
  end.

Fixpoint tokenize_loop (fuel : nat) (line : jsstr) : list jsstr :=
  match fuel, line with
  | O, _ | _, [] => []
  | S f, _ =>
      match find_separator line with
      | (_, None) => [line]
      | (token, Some (sep, rest)) =>
          (if str_truthy token then [token] else []) ++
          (if sep =? QUOTE then
             let '(str, rest') := quoted (length rest) [sep] rest in str :: tokenize_loop f rest'
           else (if sep =? SP then [] else [[sep]]) ++ tokenize_loop f rest)
      end
  end.

(** Every iteration drops a character. *)
Definition _tokenize (line : jsstr) : list jsstr := tokenize_loop (length line) line.

(** [arr.at(-1)], [depth] times, and the push. *)
Fixpoint push_at (depth : nat) (v : value) (arr : list value) : option (list value) :=
  match depth with
  | O => Some (arr ++ [v])
  | S d =>
      match last arr with
      | Some (Arr l) => l' ← push_at d v l; Some (removelast arr ++ [Arr l'])
      | _ => None
      end
  end.

Definition is_open_token (t : jsstr) : bool := (t ==s js "(") || (t ==s js "[").
Definition is_close_token (t : jsstr) : bool := (t ==s js ")") || (t ==s js "]").

(** The loop of [_parseLine]: the tokens and [arrayDepth]. *)
Fixpoint nest (ts : list jsstr) (tokens : list value) (arrayDepth : Z) : option (list value) :=
  match ts with
  | [] => Some tokens
  | t :: ts' =>
      if is_open_token t then
        tokens' ← push_at (Z.to_nat arrayDepth) (Arr []) tokens; nest ts' tokens' (arrayDepth + 1)
      else if is_close_token t then nest ts' tokens (arrayDepth - 1)
      else tokens' ← push_at (Z.to_nat arrayDepth) (Str t) tokens; nest ts' tokens' arrayDepth
  end.

Definition _parseLine (line : jsstr) : option (list value) := nest (_tokenize line) [] 0.

(** ** The structures *)

(** [v[i]] and [v.length] of a value: of a string, its characters. *)
Definition elements (v : value) : list value :=
  match v with Arr l => l | Str s => map (λ c, Str [c]) s end.

(** A value that must be a string: its methods throw on an array. *)
Definition the_string (v : option value) : option jsstr :=
  match v with Some (Str s) => Some s | _ => None end.

Definition strings (l : list value) : option (list jsstr) := mapM (λ v, the_string (Some v)) l.

(** [+v] and [Number(v)]. *)
Definition number (v : option value) : num := v ≫= λ v, toNumber (to_str v).

(** The regex [{(\d+)}], anywhere. *)
Fixpoint find_size (s : jsstr) : option Z :=
  match s with
  | [] => None
  | c :: s' =>
      let ds := take_digits s' in
      if (c =? 123) && str_truthy ds && startsWith (drop (length ds) s') [125]
      then Some (digits_val ds) else find_size s'
  end.

Record CapabilityData := mkCapabilityData { cap_names : list jsstr; cap_auth : list jsstr }.

Definition newCapabilityData (tokens : list value) : option CapabilityData :=
  caps ← strings tokens;
  let caps := map toUpperCase caps in
  let auth := λ c, startsWith c (js "AUTH=") in
  Some (mkCapabilityData (List.filter (λ c, negb (auth c)) caps)
                         (map (λ c, slice_from c 5) (List.filter auth caps))).

Record MessageData := mkMessageData {
  sequence : num;
  uid : option num;
  m_flags : option Z;
  keywords : option jsstr;
  bodySection : option value;
  bodySize : option Z;
  body : option jsstr;
  size : option num;
  customAttributes : list (jsstr * option value)
}.
#[export] Instance eta_MessageData : Settable MessageData := λ m,
  mkMessageData (sequence m) (uid m) (m_flags m) (keywords m) (bodySection m) (bodySize m)
    (body m) (size m) (customAttributes m).

(** [stringsToFlags] of a value of the response. *)
Definition value_flags (v : option value) : option Z :=
  v ← v; l ← strings (elements v); Some (stringsToFlags l).

Definition add_flags (v : option value) (m : MessageData) : option MessageData :=
  f ← value_flags v;
  match v with
  | Some (Arr l) =>
      ss ← strings l;
      Some (m <| m_flags := Some f |>
              <| keywords := Some (join [SP] (List.filter (λ s, negb (startsWith s [BACKSLASH])) ss)) |>)
  | _ => None
  end.

Fixpoint attributes_loop (fuel : nat) (i : nat) (l : list value) (m : MessageData) :
    option MessageData :=
  match fuel with
  | O => Some m
  | S f =>
      if (length l <=? i)%nat then Some m
      else
        name ← the_string (l !! i);
        let n := toUpperCase name in
        let v := l !! S i in
        if n ==s js "UID" then attributes_loop f (i + 2) l (m <| uid := Some (number v) |>)
        else if n ==s js "FLAGS" then m' ← add_flags v m; attributes_loop f (i + 2) l m'
        else if n ==s js "BODY" then
          t ← the_string (l !! S (S i));
          let m := m <| bodySection := v |> in
          attributes_loop f (i + 3) l
            (match find_size t with
             | Some z => m <| bodySize := Some z |> <| body := Some [] |>
             | None => m
             end)
        else if n ==s js "RFC822.SIZE" then attributes_loop f (i + 2) l (m <| size := Some (number v) |>)
        else attributes_loop f (i + 2) l (m <| customAttributes ::= λ a, mset a name v |>)
  end.

Definition newMessageData (seq : num) (tokens : option value) : option MessageData :=
  v ← tokens;
  attributes_loop (length (elements v)) 0 (elements v)
    (mkMessageData seq None None None None None None None []).

Record MailboxData := mkMailboxData { mb_flags : Z; delimiter : jsstr; name : jsstr }.

Definition mailbox_flag (str : jsstr) : Z :=
  default 0 (mget
    [(js "\MARKED", 0x01); (js "\UNMARKED", 0x02); (js "\NOINFERIORS", bit_or 0x04 0x200000);
     (js "\NOSELECT", 0x08); (js "\TRASH", bit_or 0x10 0x10000); (js "\SENT", 0x2000);
     (js "\DRAFTS", 0x800); (js "\SPAM", 0x1000); (js "\JUNK", 0x1000); (js "\ARCHIVE", 0x400000);
     (js "\ALL", 0x8000); (js "\ALLMAIL", 0x8000); (js "\INBOX", 0x4000);
     (js "\NONEXISTENT", bit_or 0x20000 0x08); (js "\SUBSCRIBED", 0x40000); (js "\REMOTE", 0x80000);
     (js "\HASCHILDREN", 0x100000); (js "\HASNOCHILDREN", 0x200000)] (toUpperCase str)).

(** [MailboxData._stringsToFlags]. *)
Definition _stringsToFlags (v : option value) : option Z :=
  v ← v; l ← strings (elements v); Some (fold_left (λ flags str, bit_or flags (mailbox_flag str)) l 0).

(** A leading and a trailing quote are dropped, escaped quotes unescaped. *)
Definition unwrapString (s : jsstr) : jsstr :=
  let s := if startsWith s [QUOTE] then drop 1 s else s in
  let s := if endsWith s [QUOTE] then take (length s - 1) s else s in
  replaceAll s [BACKSLASH; QUOTE] [QUOTE].

Definition newMailboxData (tokens : list value) : option MailboxData :=
  f ← _stringsToFlags (tokens !! 2%nat);
  d ← the_string (tokens !! 3%nat);
  n ← the_string (tokens !! 4%nat);
  Some (mkMailboxData f (unwrapString d) (unwrapString n)).

Abbreviation attrs := (list (jsstr * option value)).

Fixpoint status_loop (fuel : nat) (i : nat) (l : list value) (a : attrs) : option attrs :=
  match fuel with
  | O => Some a
  | S f =>
      if (length l <=? i)%nat then Some a
      else
        type ← the_string (l !! i);
        status_loop f (i + 2) l (mset a (toLowerCase type) (l !! S i))
  end.

(** StatusData: its attributes. *)
Definition newStatusData (tokens : list value) : option attrs :=
  mb ← the_string (tokens !! 2%nat);
  v ← last tokens;
  status_loop (length (elements v)) 0 (elements v) [(js "mailbox", Some (Str (unwrapString mb)))].

(** ** The object *)

Inductive field_value := FTrue | FValue (v : option value).

Record ImapResponse := mkImapResponse {
  mailboxes : list MailboxData;
  messages : list MessageData;
  attributes : attrs;
  expunged : list num;
  _response : jsstr;
  _pendingMessage : option nat;
  done : bool;
  tag : option value;
  status : option value;
  statusText : option jsstr;
  capabilities : option (list jsstr);
  authMethods : option (list jsstr);
  flags : option Z;
  permanentflags : option Z;
  supportedUserFlags : option Z;
  id_line : option jsstr;                        (* this.id *)
  quotaRoots : option (list value);
  quotas : option (list (option value * list value));
  search : option (list num);
  exists_count : num;                            (* this.exists *)
  fields : list (jsstr * field_value);
  onMessage : option nat                         (* how many calls return before one throws;
                                                    None: all do *)
}.
#[export] Instance eta_ImapResponse : Settable ImapResponse := λ r,
  mkImapResponse (mailboxes r) (messages r) (attributes r) (expunged r) (_response r)
    (_pendingMessage r) (done r) (tag r) (status r) (statusText r) (capabilities r)
    (authMethods r) (flags r) (permanentflags r) (supportedUserFlags r) (id_line r)
    (quotaRoots r) (quotas r) (search r) (exists_count r) (fields r) (onMessage r).

(** The constructor. *)
Definition newImapResponse : ImapResponse :=
  mkImapResponse [] [] [] [] [] None false None None None None None None None None None None None
    None None [] None.

Inductive event := OnMessage (m : MessageData) | Overwrites (field : jsstr).

(** The fields and methods whose names are in lower case. *)
Definition own_names : list jsstr :=
  [js "mailboxes"; js "messages"; js "attributes"; js "expunged"; js "_response"; js "done"; js "tag";
   js "status"; js "capabilities"; js "flags"; js "permanentflags"; js "id"; js "quotas"; js "search";
   js "exists"; js "parse"; js "_parse"; js "_advance"; js "_tokenize"].

Abbreviation act := (eff ImapResponse event).

(** What a constructor returns, or its throw. *)
Definition from_ctor {X} (x : option X) : act X :=
  match x with Some x => ret x | None => throw end.

Definition _advance (n : Z) : act unit := this, _response ::= λ s, slice_from s n.

Definition CLOSE : jsstr := js ")" ++ CRLF.

(** The message at an index gets a body. *)
Definition set_body (i : nat) (f : jsstr → jsstr) : act unit :=
  this, messages ::= alter (λ m, m <| body := Some (f (default [] (body m))) |>) i.

Definition call_onMessage (i : nat) : act unit :=
  let! r := gets id in
  match messages r !! i with
  | Some m =>
      emit (OnMessage m) >>
      match onMessage r with
      | None => skip
      | Some O => throw
      | Some (S n) => this, onMessage := Some n
      end
  | None => throw
  end.

(** [this.supportedUserFlags] when "\*" is among the flags. *)
Definition user_flags_supported : Z :=
  bit_or (bit_or (bit_or FLAG_LABEL FLAG_MDN_SENT) FLAG_SUPPORT_FORWARDED_FLAG) FLAG_SUPPORT_USER_FLAG.

(** [v.includes("\*")], of a string or an array. *)
Definition includes_star (v : value) : bool :=
  match v with
  | Str s => includes s (js "\*")
  | Arr l => existsb (λ x, match x with Str s => s ==s js "\*" | Arr _ => false end) l
  end.

Definition note_user_flags (v : option value) : act unit :=
  match v with
  | Some v => when (includes_star v) (this, supportedUserFlags := Some user_flags_supported)
  | None => throw
  end.

Definition note_capabilities (l : list value) : act unit :=
  let! c := from_ctor (newCapabilityData l) in
  (this, capabilities := Some (cap_names c)) >> (this, authMethods := Some (cap_auth c)).

(** The case FETCH. *)
Definition on_fetch (intValue : num) (v : option value) : act unit :=
  let! m := from_ctor (newMessageData intValue v) in
  let! i := gets (λ r, length (messages r)) in
  (this, messages ::= λ l, l ++ [m]) >>
  match bodySize m with
  | Some (Zpos n) =>
      (let! resp := gets _response in
       if Zpos n + slen CLOSE <=? slen resp
       then set_body i (λ _, slice resp 0 (Zpos n)) >> call_onMessage i
       else set_body i (λ _, resp) >> (this, _pendingMessage := Some i) >> (this, done := false)) >>
      _advance (Zpos n + slen CLOSE)
  | _ => call_onMessage i
  end.

Definition _parseNumbered (tokens : list value) : act unit :=
  let intValue := number (tokens !! 1%nat) in
  let! t := from_ctor (the_string (tokens !! 2%nat)) in
  let type := toUpperCase t in
  if type ==s js "FETCH" then on_fetch intValue (tokens !! 3%nat)
  else if type ==s js "EXISTS" then this, exists_count := intValue
  else if type ==s js "EXPUNGE" then this, expunged ::= λ l, l ++ [intValue]
  else if type ==s js "RECENT" then skip
  else throw.

(** The switch on an untagged response; whether it was parsed. *)
Definition parse_untagged (line : jsstr) (tokens : list value) : act bool :=
  let! t := from_ctor (the_string (tokens !! 1%nat)) in
  let type := toUpperCase t in
  let parsed := λ m : act unit, bind m (λ _, ret true) in
  if type ==s js "CAPABILITY" then parsed (note_capabilities (drop 2 tokens))
  else if type ==s js "FLAGS" then
    parsed ((let! f := from_ctor (value_flags (tokens !! 2%nat)) in this, flags := Some f) >>
            note_user_flags (tokens !! 2%nat))
  else if type ==s js "ID" then parsed (this, id_line := Some (slice_from line 5))
  else if (type ==s js "LIST") || (type ==s js "LSUB") then
    parsed (let! m := from_ctor (newMailboxData tokens) in this, mailboxes ::= λ l, l ++ [m])
  else if type ==s js "QUOTAROOT" then parsed (this, quotaRoots := Some (drop 3 tokens))
  else if type ==s js "QUOTA" then
    parsed ((this, quotas ::= λ q, Some (default [] q)) >>
            match tokens !! 3%nat with
            | Some v => this, quotas ::= option_map (λ q, q ++ [(tokens !! 2%nat, elements v)])
            | None => throw
            end)
  else if type ==s js "SEARCH" then
    parsed (this, search := Some (map (λ v, number (Some v)) (drop 2 tokens)))
  else if type ==s js "STATUS" then
    parsed (let! a := from_ctor (newStatusData tokens) in this, attributes := a)
  else match number (tokens !! 1%nat) with
       | Some _ => parsed (_parseNumbered tokens)
       | None => ret false
       end.

(** [this[field] = v]. *)
Definition set_field (field : jsstr) (v : field_value) : act unit :=
  if bool_decide (field ∈ own_names) then emit (Overwrites field) >> throw
  else this, fields ::= λ l, mset l field v.

(** The response code between brackets. *)
Definition parse_code (code : list value) : act unit :=
  let! t := from_ctor (the_string (code !! 0%nat)) in
  let type := toUpperCase t in
  if type ==s js "CAPABILITY" then note_capabilities (drop 1 code)
  else if type ==s js "PERMANENTFLAGS" then
    (let! f := from_ctor (value_flags (code !! 1%nat)) in this, permanentflags := Some f) >>
    note_user_flags (code !! 1%nat)
  else
    let field := toLowerCase type in
    if (length code =? 1)%nat then set_field field FTrue
    else if (length code =? 2)%nat then set_field field (FValue (code !! 1%nat))
    else this, attributes ::= λ a, mset a field (Some (Arr (drop 1 code))).

(** [this.tag == t]: of an array, its conversion to a string is compared. *)
Definition tag_is (r : ImapResponse) (t : jsstr) : bool :=
  match tag r with Some v => to_str v ==s t | None => false end.

(** One line; whether the loop ends with it. *)
Definition parse_line (line : jsstr) : act bool :=
  let! tokens := from_ctor (_parseLine line) in
  (this, tag := tokens !! 0%nat) >> (this, status := tokens !! 1%nat) >>
  (let! r := gets id in
   when (tag_is r (js "+")) (this, statusText := Some (join [SP] (map to_str (drop 1 tokens)))) >>
   if tag_is r (js "+") && negb (str_truthy (_response r)) then
     bind (this, done := true) (λ _, ret true)
   else
     let! parsed := (if tag_is r (js "*") then parse_untagged line tokens else ret false) in
     bind (match tokens !! 2%nat with
           | Some (Arr code) => when (negb parsed) (parse_code code)
           | _ => skip
           end) (λ _, ret false)).

(** [_parse], which calls itself after each line; a line drops two characters of
    [_response] at least. *)
Fixpoint parse_loop (fuel : nat) : act unit :=
  match fuel with
  | O => skip
  | S f =>
      let! r := gets id in
      if negb (str_truthy (_response r)) && negb (tag_is r (js "*")) then this, done := true
      else
        let index := indexOf (_response r) CRLF in
        if index =? -1 then this, done := false
        else
          let line := slice (_response r) 0 index in
          _advance (index + 2) >>
          (let! ended := parse_line line in if ended : bool then skip else parse_loop f)
  end.

Definition _parse : act unit := let! r := gets id in parse_loop (S (length (_response r))).

Definition parse (str : jsstr) : act unit :=
  (this, _response ::= λ s, s ++ str) >>
  (let! r := gets id in
   match _pendingMessage r with
   | Some i =>
       match messages r !! i with
       | None => throw
       | Some m =>
           let remaining := default 0 (bodySize m) - slen (default [] (body m)) in
           if remaining + slen CLOSE <=? slen (_response r) then
             set_body i (λ b, b ++ slice (_response r) 0 remaining) >> call_onMessage i >>
             (this, _pendingMessage := None) >> _advance (remaining + slen CLOSE) >> _parse
           else this, done := false
       end
   | None => _parse
   end).
