(* ===== verification/ImapFetch.v ===== *)
(** * ImapFetch: what ImapResponse does with chunks and lines

    Theorems on ImapResponse.v: the loop over the lines ends, a FETCH response is
    given to onMessage once and with its body whole, however it is cut into
    chunks, unless a cut is in the three characters that close it. *)

From S2P Require Import Prelude Effects ImapUtils ImapResponse.

(** ** The loop over the lines *)

Definition shrinks (r : ImapResponse) (o : list event) (r' : ImapResponse) : Prop :=
  (length (_response r') <= length (_response r))%nat.

#[export] Instance shrinks_trace : TraceRel shrinks.
Proof. split; unfold shrinks; intros; lia. Qed.

Lemma length_slice_from s n : 0 <= n → (length (slice_from s n) <= length s)%nat.
Proof.
  intros Hn. rewrite <- (Z2Nat.id n) by done. rewrite slice_from_drop, length_drop. lia.
Qed.

Lemma shrinks_modify f : (∀ r, _response (f r) = _response r) → respects shrinks (modify f).
Proof. intros Hf r. unfold shrinks. cbn. by rewrite Hf. Qed.

Lemma shrinks_emit e : respects shrinks (emit e).
Proof. intros r. unfold shrinks. cbn. lia. Qed.

Lemma shrinks_advance n : 0 <= n → respects shrinks (_advance n).
Proof. intros Hn r. unfold shrinks. cbn. by apply length_slice_from. Qed.

Lemma shrinks_parse_line line : respects shrinks (parse_line line).
Proof.
  respects_walk ltac:(first
    [ apply shrinks_emit
    | apply shrinks_advance; unfold CLOSE, slen; lia
    | apply shrinks_modify; intros; reflexivity ]).
Qed.

Lemma drop_line (r : ImapResponse) :
  indexOf (_response r) CRLF ≠ -1 →
  (length (slice_from (_response r) (indexOf (_response r) CRLF + 2)) < length (_response r))%nat.
Proof.
  unfold indexOf. destruct (find_sub CRLF (_response r)) as [i|] eqn:E; [|done]. intros _.
  apply find_sub_Some in E as (a & b & E & _).
  replace (Z.of_nat i + 2) with (Z.of_nat (i + 2)) by lia. rewrite slice_from_drop, length_drop.
  rewrite E. unfold CRLF. rewrite !length_app. cbn. lia.
Qed.

Lemma parse_loop_fuel f1 f2 r :
  (length (_response r) < f1)%nat → (length (_response r) < f2)%nat →
  parse_loop f1 r = parse_loop f2 r.
Proof.
  revert f2 r. induction f1 as [|f1 IH]; intros [|f2] r H1 H2; try lia. cbn [parse_loop].
  rewrite !bind_gets. unfold id.
  destruct (negb (str_truthy (_response r)) && negb (tag_is r (js "*"))); [done|].
  destruct (Z.eqb_spec (indexOf (_response r) CRLF) (-1)) as [|Hi]; [done|].
  pose proof (drop_line r Hi) as Hd. unfold _advance. rewrite !bind_modify.
  match goal with |- bind _ _ ?s = _ => set (r1 := s) end.
  assert (Hr1 : (length (_response r1) < length (_response r))%nat) by exact Hd.
  pose proof (shrinks_parse_line (slice (_response r) 0 (indexOf (_response r) CRLF)) r1) as Hs.
  unfold bind. destruct (parse_line _ r1) as [[r2 o2] [[]|]]; [done| |done].
  unfold shrinks in Hs. rewrite (IH f2 r2) by lia. done.
Qed.

(** [_parse] calls itself: what the recursion of the source does. *)
Lemma parse_unfold r :
  _parse r
  = (let index := indexOf (_response r) CRLF in
     if negb (str_truthy (_response r)) && negb (tag_is r (js "*")) then this, done := true
     else if index =? -1 then this, done := false
     else
       let line := slice (_response r) 0 index in
       _advance (index + 2) >>
       (let! ended := parse_line line in if ended : bool then skip else _parse)) r.
Proof.
  unfold _parse at 1. rewrite bind_gets. unfold id at 1. cbn [parse_loop]. rewrite bind_gets.
  change (id r) with r. cbv zeta.
  destruct (negb (str_truthy (_response r)) && negb (tag_is r (js "*"))); [done|].
  destruct (Z.eqb_spec (indexOf (_response r) CRLF) (-1)) as [|Hi]; [done|].
  pose proof (drop_line r Hi) as Hd. unfold _advance. rewrite !bind_modify.
  match goal with |- bind _ _ ?s = _ => set (r1 := s) end.
  assert (Hr1 : (length (_response r1) < length (_response r))%nat) by exact Hd.
  pose proof (shrinks_parse_line (slice (_response r) 0 (indexOf (_response r) CRLF)) r1) as Hs.
  unfold bind at 1. match goal with |- _ = bind ?m ?k ?s => unfold bind at 1 end.
  destruct (parse_line _ r1) as [[r2 o2] [[]|]]; [done| |done].
  unfold shrinks in Hs. unfold _parse. rewrite bind_gets. unfold id.
  rewrite (parse_loop_fuel (length (_response r)) (S (length (_response r2))) r2) by lia. done.
Qed.

(** ** FETCH *)

(** The fields a FETCH response changes; the others are those of [r]. *)
Definition upd (r : ImapResponse) (ms : list MessageData) (resp : jsstr) (pend : option nat)
    (dn : bool) (tg st : option value) : ImapResponse :=
  mkImapResponse (mailboxes r) ms (attributes r) (expunged r) resp pend dn tg st (statusText r)
    (capabilities r) (authMethods r) (flags r) (permanentflags r) (supportedUserFlags r)
    (id_line r) (quotaRoots r) (quotas r) (search r) (exists_count r) (fields r) (onMessage r).

(** The line of a FETCH response with a body of [k] characters: its tokens, the
    sequence number, and the message without its body. *)
Record fetch_line (h num : jsstr) (k : positive) (m : MessageData) : Prop := mkFetchLine {
  fl_crlf : crlf_free h;
  fl_tokens : ∃ word attrs,
    _parseLine h = Some [Str (js "*"); Str num; Str word; attrs] ∧
    toUpperCase word = js "FETCH" ∧ newMessageData (Some (digits_val num)) (Some attrs) = Some m;
  fl_num : num ≠ [] ∧ Forall (λ c, is_digit c = true) num;
  fl_size : bodySize m = Some (Zpos k) ∧ body m = Some []
}.

Definition with_body (m : MessageData) (text : jsstr) : MessageData :=
  mkMessageData (sequence m) (uid m) (m_flags m) (keywords m) (bodySection m) (bodySize m)
    (Some text) (size m) (customAttributes m).

Lemma digits_upper s : Forall (λ c, is_digit c = true) s → toUpperCase s = s.
Proof.
  unfold toUpperCase. induction 1 as [|c s Hc _ IH]; [done|]. cbn [flat_map]. rewrite IH.
  unfold is_digit in Hc. unfold upper_char.
  repeat match goal with |- context [if ?b then _ else _] => destruct b eqn:?; [exfalso; lia|] end.
  done.
Qed.

Lemma number_digits s : s ≠ [] → Forall (λ c, is_digit c = true) s → number (Some (Str s)) = Some (digits_val s).
Proof.
  intros Hn Hs. unfold number. cbn. by apply toNumber_digits.
Qed.

Lemma bind_ctor {X Y} (x : X) (k : X → eff ImapResponse event Y) r :
  bind (from_ctor (Some x)) k r = k x r.
Proof. apply bind_ret_l. Qed.

Lemma parse_untagged_fetch line num word attrs r :
  num ≠ [] → Forall (λ c, is_digit c = true) num → toUpperCase word = js "FETCH" →
  parse_untagged line [Str (js "*"); Str num; Str word; attrs] r
  = bind (on_fetch (Some (digits_val num)) (Some attrs)) (λ _, ret true) r.
Proof.
  intros Hn Hd Hw. unfold parse_untagged.
  change (the_string ([Str (js "*"); Str num; Str word; attrs] !! 1%nat)) with (Some num).
  rewrite bind_ctor. cbv zeta. rewrite digits_upper by done.
  assert (Hne : ∀ x, match x with c :: _ => is_digit c = false | [] => False end → (num ==s x) = false).
  { intros [|c s]; [done|]. intros Hc. apply jseq_false. intros ->.
    apply Forall_cons in Hd as [Hd _]. congruence. }
  rewrite !Hne by reflexivity. cbn [orb].
  change ([Str (js "*"); Str num; Str word; attrs] !! 1%nat) with (Some (Str num)).
  rewrite number_digits by done. apply bind_ext_l. unfold _parseNumbered.
  change (the_string ([Str (js "*"); Str num; Str word; attrs] !! 2%nat)) with (Some word).
  change ([Str (js "*"); Str num; Str word; attrs] !! 1%nat) with (Some (Str num)).
  rewrite bind_ctor, number_digits by done. by rewrite Hw.
Qed.

Lemma set_body_run f m ms r resp pend dn tg st :
  set_body (length ms) f (upd r (ms ++ [m]) resp pend dn tg st)
  = (upd r (ms ++ [with_body m (f (default [] (body m)))]) resp pend dn tg st, [], Some tt).
Proof.
  unfold set_body. rewrite modify_run.
  match goal with |- (?x, _, _) = _ =>
    change x with (upd r (alter (λ m, with_body m (f (default [] (body m)))) (length ms) (ms ++ [m]))
                     resp pend dn tg st) end.
  rewrite alter_app_r_alt by done. by rewrite Nat.sub_diag.
Qed.

Lemma onMessage_run m ms r resp pend dn tg st :
  onMessage r = None →
  call_onMessage (length ms) (upd r (ms ++ [m]) resp pend dn tg st)
  = (upd r (ms ++ [m]) resp pend dn tg st, [OnMessage m], Some tt).
Proof.
  intros Hr. unfold call_onMessage. rewrite bind_gets. unfold id.
  change (messages (upd _ ?x _ _ _ _ _)) with x. rewrite list_lookup_middle by done.
  change (onMessage (upd r _ _ _ _ _ _)) with (onMessage r). by rewrite Hr.
Qed.

(** What a FETCH line does, after which [resp] is to be read. *)
Lemma parse_line_fetch h num k m r ms resp dn tg st :
  onMessage r = None → fetch_line h num k m →
  parse_line h (upd r ms resp None dn tg st)
  = (let n := Zpos k in
     let b := if n + 3 <=? slen resp then slice resp 0 n else resp in
     let r' := upd r (ms ++ [with_body m b]) (slice_from resp (n + 3))
                 (if n + 3 <=? slen resp then None else Some (length ms))
                 (if n + 3 <=? slen resp then dn else false) (Some (Str (js "*"))) (Some (Str num)) in
     (r', if n + 3 <=? slen resp then [OnMessage (with_body m b)] else [], Some false)).
Proof.
  intros Hok [Hcr (word & attrs & Ht & Hw & Hm) [Hn Hd] [Hs Hb]]. unfold parse_line. rewrite Ht, bind_ctor.
  rewrite !bind_modify. rewrite bind_gets.
  change ([Str (js "*"); Str num; Str word; attrs] !! 0%nat) with (Some (Str (js "*"))).
  change ([Str (js "*"); Str num; Str word; attrs] !! 1%nat) with (Some (Str num)).
  change (update _ (update _ (upd r ms resp None dn tg st)))
    with (upd r ms resp None dn (Some (Str (js "*"))) (Some (Str num))).
  set (r1 := upd r ms resp None dn (Some (Str (js "*"))) (Some (Str num))). unfold id.
  change (tag_is r1 (js "+")) with false. change (tag_is r1 (js "*")) with true. cbn [when andb].
  unfold skip at 1. rewrite bind_ret_l. unfold bind at 1. rewrite parse_untagged_fetch by done.
  rewrite (bind_ext_l _ (λ r, let n := Zpos k in
    let b := if n + 3 <=? slen resp then slice resp 0 n else resp in
    (upd r (ms ++ [with_body m b]) (slice_from resp (n + 3))
       (if n + 3 <=? slen resp then None else Some (length ms))
       (if n + 3 <=? slen resp then dn else false) (Some (Str (js "*"))) (Some (Str num)),
     if n + 3 <=? slen resp then [OnMessage (with_body m b)] else [], Some tt)) _ r1).
  { change ([Str (js "*"); Str num; Str word; attrs] !! 2%nat) with (Some (Str word)).
    unfold ret, bind, skip. cbv beta iota zeta. unfold ret. cbv beta iota. by rewrite !app_nil_r. }
  unfold on_fetch. rewrite Hm, bind_ctor, bind_gets, bind_modify, Hs.
  change (update _ r1) with (upd r (ms ++ [m]) resp None dn (Some (Str (js "*"))) (Some (Str num))).
  change (length (messages r1)) with (length ms). change (slen CLOSE) with 3.
  unfold bind at 1. rewrite bind_gets. change (_response (upd _ _ resp _ _ _ _)) with resp.
  destruct (Z.pos k + 3 <=? slen resp).
  - unfold bind. rewrite set_body_run, onMessage_run by done. reflexivity.
  - unfold bind. rewrite set_body_run. reflexivity.
Qed.

(** ** Chunks *)

Definition star : option value := Some (Str (js "*")).

(** A line that is not complete is kept. *)
Lemma parse_rest r ms s pend dn tg st :
  find_sub CRLF s = None → s ≠ [] ∨ tag_is (upd r ms s pend dn tg st) (js "*") = true →
  _parse (upd r ms s pend dn tg st) = (upd r ms s pend false tg st, [], Some tt).
Proof.
  intros Hc Hs. rewrite parse_unfold. cbv zeta. change (_response (upd r ms s pend dn tg st)) with s.
  assert (negb (str_truthy s) && negb (tag_is (upd r ms s pend dn tg st) (js "*")) = false) as ->.
  { destruct Hs as [Hs| ->]; [by destruct s|by rewrite andb_false_r]. }
  unfold indexOf. by rewrite Hc.
Qed.

(** The whole line has come, with what follows it. *)
Lemma parse_fetch h num k m r ms resp dn tg st :
  onMessage r = None → fetch_line h num k m →
  _parse (upd r ms (h ++ CRLF ++ resp) None dn tg st)
  = (let n := Zpos k in
     let b := if n + 3 <=? slen resp then slice resp 0 n else resp in
     let '(r', o, x) := _parse (upd r (ms ++ [with_body m b]) (slice_from resp (n + 3))
       (if n + 3 <=? slen resp then None else Some (length ms))
       (if n + 3 <=? slen resp then dn else false) star (Some (Str num))) in
     (r', (if n + 3 <=? slen resp then [OnMessage (with_body m b)] else []) ++ o, x)).
Proof.
  intros Hok Hl. rewrite parse_unfold. cbv zeta.
  change (_response (upd r ms ?s None dn tg st)) with s.
  assert (Hi : indexOf (h ++ CRLF ++ resp) CRLF = Z.of_nat (length h)).
  { unfold indexOf. rewrite find_CRLF; [done|]. apply (fl_crlf _ _ _ _ Hl). }
  rewrite Hi. assert (str_truthy (h ++ CRLF ++ resp) = true) as -> by (by destruct h).
  cbn [negb andb]. rewrite (proj2 (Z.eqb_neq _ (-1))) by lia.
  unfold _advance. rewrite bind_modify.
  assert (slice (h ++ CRLF ++ resp) 0 (Z.of_nat (length h)) = h) as ->.
  { by rewrite slice_0_take, take_app_length. }
  match goal with |- bind _ _ ?s = _ =>
    change s with (upd r ms (slice_from (h ++ CRLF ++ resp) (Z.of_nat (length h) + 2)) None dn tg st) end.
  assert (slice_from (h ++ CRLF ++ resp) (Z.of_nat (length h) + 2) = resp) as ->.
  { replace (Z.of_nat (length h) + 2) with (Z.of_nat (length (h ++ CRLF)))
      by (rewrite length_app; cbn; lia).
    by rewrite slice_from_drop, (assoc_L (++)), drop_app_length. }
  unfold bind. rewrite (parse_line_fetch _ _ _ _ _ _ _ _ _ _ Hok Hl). reflexivity.
Qed.

(** A chunk while the body is not complete: [b] is known, and [y] is to be read. *)
Lemma parse_pending k m r ms b y x dn num :
  onMessage r = None → bodySize m = Some (Zpos k) →
  parse x (upd r (ms ++ [with_body m b]) y (Some (length ms)) dn star (Some (Str num)))
  = (let rem := Zpos k - slen b in
     if rem + 3 <=? slen (y ++ x) then
       let m' := with_body m (b ++ slice (y ++ x) 0 rem) in
       let '(r', o, z) := _parse (upd r (ms ++ [m']) (slice_from (y ++ x) (rem + 3)) None dn star (Some (Str num))) in
       (r', OnMessage m' :: o, z)
     else (upd r (ms ++ [with_body m b]) (y ++ x) (Some (length ms)) false star (Some (Str num)), [], Some tt)).
Proof.
  intros Hok Hs. unfold parse. rewrite bind_modify, bind_gets.
  match goal with |- context [id ?s] =>
    change s with (upd r (ms ++ [with_body m b]) (y ++ x) (Some (length ms)) dn star (Some (Str num))) end.
  unfold id. change (_pendingMessage (upd _ _ _ ?p _ _ _)) with p. cbv iota.
  change (messages (upd _ ?l _ _ _ _ _)) with l. rewrite list_lookup_middle by done. cbv iota zeta.
  change (bodySize (with_body m b)) with (bodySize m). change (body (with_body m b)) with (Some b).
  rewrite Hs. cbn [default from_option]. change (slen CLOSE) with 3. unfold id.
  change (_response (upd _ _ ?s _ _ _ _)) with s.
  destruct (Z.pos k - slen b + 3 <=? slen (y ++ x)); [|done].
  unfold bind at 1. rewrite set_body_run. change (default [] (body (with_body m b))) with b.
  match goal with |- context [with_body (with_body m b) ?s] =>
    change (with_body (with_body m b) s) with (with_body m s) end.
  unfold bind at 1. rewrite onMessage_run by done. rewrite bind_modify. unfold _advance. rewrite bind_modify.
  match goal with |- context [update ?f (update ?g ?s)] =>
    change (update f (update g s)) with (upd r (ms ++ [with_body m (b ++ slice (y ++ x) 0 (Zpos k - slen b))])
      (slice_from (y ++ x) (Zpos k - slen b + 3)) None dn star (Some (Str num))) end.
  cbv zeta. destruct (_parse _) as [[r' o] z]. reflexivity.
Qed.

(** The state after a FETCH response alone. *)
Definition fetched (r : ImapResponse) (m : MessageData) (num text : jsstr) : ImapResponse :=
  upd r (messages r ++ [with_body m text]) [] None false star (Some (Str num)).

Lemma body_taken (b z text : jsstr) k :
  b ++ z = text ++ CLOSE → slen text = Zpos k → slen b <= Zpos k →
  b ++ slice z 0 (Zpos k - slen b) = text ∧ slice_from z (Zpos k - slen b + 3) = [] ∧
  slen z = Zpos k - slen b + 3.
Proof.
  intros He Ht Hb. pose proof (f_equal slen He) as Hl. rewrite !slen_app, Ht in Hl.
  change (slen CLOSE) with 3 in Hl.
  pose proof Hb as Hb'. unfold slen in Hb, Ht, Hl.
  assert (Hz : Zpos k - slen b = Z.of_nat (length text - length b)) by (unfold slen; lia).
  split_and!; [| |unfold slen; lia].
  - rewrite Hz, slice_0_take.
    apply (f_equal (take (length text))) in He. rewrite take_app_length in He.
    rewrite take_app in He. rewrite (take_ge b) in He by lia. exact He.
  - replace (Zpos k - slen b + 3) with (Z.of_nat (length z)) by (unfold slen; lia).
    by rewrite slice_from_drop, drop_all.
Qed.

Lemma parse_rest_pending r ms pend dn num :
  _parse (upd r ms [] pend dn star (Some (Str num)))
  = (upd r ms [] pend false star (Some (Str num)), [], Some tt).
Proof. apply parse_rest; [done|by right]. Qed.

Lemma parse_nothing r ms dn num :
  _parse (upd r ms [] None dn star (Some (Str num)))
  = (upd r ms [] None false star (Some (Str num)), [], Some tt).
Proof. apply parse_rest_pending. Qed.

Lemma pending_chunks k m r ms b y post num text dn :
  onMessage r = None → bodySize m = Some (Zpos k) → slen text = Zpos k → slen b <= Zpos k →
  Forall (λ x, x ≠ []) post → post ≠ [] → b ++ y ++ concat post = text ++ CLOSE →
  for_each post parse (upd r (ms ++ [with_body m b]) y (Some (length ms)) dn star (Some (Str num)))
  = (upd r (ms ++ [with_body m text]) [] None false star (Some (Str num)),
     [OnMessage (with_body m text)], Some tt).
Proof.
  intros Hok Hs Ht Hb Hne. revert y dn. induction Hne as [|x post Hx Hne IH]; intros y dn Hp He; [done|].
  cbn [for_each concat] in *. unfold bind. rewrite (parse_pending k) by done. cbv zeta.
  assert (Hl : slen b + slen (y ++ x) + slen (concat post) = Zpos k + 3).
  { pose proof (f_equal slen He) as Hl. rewrite !slen_app, Ht in Hl. change (slen CLOSE) with 3 in Hl.
    rewrite slen_app. lia. }
  destruct post as [|x' post].
  - change (concat []) with (@nil Z) in He, Hl. rewrite app_nil_r in He. change (slen []) with 0 in Hl.
    destruct (body_taken b (y ++ x) text k He Ht Hb) as (H1 & H2 & H3).
    rewrite (proj2 (Z.leb_le _ _)) by lia. rewrite H1, H2, parse_nothing. done.
  - assert (0 < slen (concat (x' :: post))).
    { apply Forall_cons in Hne as [Hx' _]. cbn [concat]. rewrite slen_app. unfold slen.
      destruct x'; [done|]. cbn. lia. }
    rewrite (proj2 (Z.leb_gt _ _)) by lia.
    rewrite (IH (y ++ x) false); [done|done|]. by rewrite <- (assoc_L (++)).
Qed.

Lemma crlf_free_CR h : crlf_free h → crlf_free (h ++ [CR]).
Proof.
  unfold crlf_free. rewrite !find_sub_None. intros Hh a b He.
  destruct b as [|z b _] using rev_ind.
  - rewrite app_nil_r in He. change CRLF with ([CR] ++ [LF]) in He. rewrite (assoc_L (++)) in He.
    by apply app_inj_tail in He as [_ He].
  - rewrite !(assoc_L (++)) in He. apply app_inj_tail in He as [He _]. apply (Hh a b).
    by rewrite <- (assoc_L (++)) in He.
Qed.

(** The chunks before the line is complete. *)
Lemma line_chunks pre r ms s tg st dn h :
  crlf_free h → Forall (λ x, x ≠ []) pre → s ++ concat pre `prefix_of` h ++ [CR] →
  ∃ dn', for_each pre parse (upd r ms s None dn tg st)
         = (upd r ms (s ++ concat pre) None dn' tg st, [], Some tt).
Proof.
  intros Hh Hne. revert s dn. induction Hne as [|x pre Hx Hne IH]; intros s dn Hp.
  - exists dn. cbn. by rewrite app_nil_r.
  - cbn [for_each concat] in *. rewrite (assoc_L (++)) in Hp.
    destruct (IH (s ++ x) false Hp) as (dn' & Hr). exists dn'.
    assert (Hc : find_sub CRLF (s ++ x) = None).
    { destruct Hp as [u Hu]. rewrite <- (assoc_L (++)) in Hu.
      apply (crlf_free_app_inv (s ++ x) (concat pre ++ u)). rewrite <- Hu. by apply crlf_free_CR. }
    unfold bind. unfold parse at 1. rewrite bind_modify, bind_gets.
    match goal with |- context [id ?q] => change q with (upd r ms (s ++ x) None dn tg st) end.
    unfold id. change (_pendingMessage (upd _ _ _ ?p _ _ _)) with p. cbv iota.
    rewrite parse_rest by (done || (left; by destruct s, x)).
    rewrite Hr. by rewrite (assoc_L (++)).
Qed.

Lemma upd_id r : _response r = [] → _pendingMessage r = None →
  upd r (messages r) [] None (done r) (tag r) (status r) = r.
Proof. destruct r. cbn. by intros -> ->. Qed.

(** The chunk that completes the line. *)
Lemma line_completed r ms s c dn tg st h num k m resp :
  fetch_line h num k m → s ++ c = h ++ CRLF ++ resp →
  parse c (upd r ms s None dn tg st) = _parse (upd r ms (h ++ CRLF ++ resp) None dn tg st).
Proof.
  intros _ He. unfold parse. rewrite bind_modify, bind_gets.
  match goal with |- context [id ?q] => change q with (upd r ms (s ++ c) None dn tg st) end.
  unfold id. by rewrite He.
Qed.

Lemma run_to_body r h num k m pre c post resp :
  fetch_line h num k m → _response r = [] → _pendingMessage r = None →
  Forall (λ x, x ≠ []) pre → concat pre `prefix_of` h ++ [CR] →
  concat pre ++ c = h ++ CRLF ++ resp →
  ∃ dn, for_each (pre ++ c :: post) parse r
        = bind (λ _, _parse (upd r (messages r) (h ++ CRLF ++ resp) None dn (tag r) (status r)))
            (λ _, for_each post parse) r.
Proof.
  intros Hl Hr Hp Hne Hpre Hc.
  destruct (line_chunks pre r (messages r) [] (tag r) (status r) (done r) h) as (dn & Hrun);
    [apply Hl|done..|].
  rewrite upd_id in Hrun by done. exists dn. rewrite for_each_app. unfold bind at 1. rewrite Hrun.
  cbn [for_each app]. unfold bind. rewrite (line_completed _ _ _ _ _ _ _ _ _ _ _ _ Hl Hc).
  destruct (_parse _) as [[r2 o2] [u|]]; [|done]. by destruct (for_each post parse r2) as [[r3 o3] z].
Qed.

(** C10. A FETCH response with a body, cut into chunks in any way that does not
    leave a part of the closing ")" CRLF with the chunk that completes the first
    line: the message is given to onMessage once, its body whole and without the
    parenthesis, and nothing is left to be parsed. *)
Theorem fetch_delivered r h num k m text pre c post resp :
  onMessage r = None → fetch_line h num k m → slen text = Zpos k → _response r = [] → _pendingMessage r = None →
  Forall (λ x, x ≠ []) pre → Forall (λ x, x ≠ []) post →
  concat pre `prefix_of` h ++ [CR] → concat pre ++ c = h ++ CRLF ++ resp →
  resp ++ concat post = text ++ CLOSE → slen resp <= Zpos k ∨ post = [] →
  for_each (pre ++ c :: post) parse r
  = (fetched r m num text, [OnMessage (with_body m text)], Some tt).
Proof.
  intros Hok Hl Ht Hr Hp Hpre Hpost Hpp Hc He Hcut.
  destruct (run_to_body r h num k m pre c post resp) as (dn & ->); [done..|].
  unfold bind. rewrite (parse_fetch _ _ _ _ _ _ _ _ _ _ Hok Hl). cbv zeta.
  pose proof (f_equal slen He) as Hlen. rewrite !slen_app, Ht in Hlen. change (slen CLOSE) with 3 in Hlen.
  destruct Hl as [_ _ _ [Hs _]]. destruct post as [|x post].
  - cbn [concat app] in He, Hlen. rewrite app_nil_r in He. change (slen []) with 0 in Hlen.
    rewrite (proj2 (Z.leb_le _ _)) by lia.
    destruct (body_taken [] resp text k He Ht) as (H1 & H2 & H3); [change (slen []) with 0; lia|].
    change (slen []) with 0 in H1, H2. rewrite Z.sub_0_r in H1, H2. cbn [app] in H1.
    rewrite H1, H2, parse_nothing. done.
  - destruct Hcut as [Hcut|]; [|done]. rewrite (proj2 (Z.leb_gt _ _)) by lia.
    assert (slice_from resp (Zpos k + 3) = []) as ->.
    { replace (Zpos k + 3) with (Z.of_nat (Z.to_nat (Zpos k + 3))) by lia.
      rewrite slice_from_drop. apply drop_ge. unfold slen in Hcut. lia. }
    rewrite parse_rest_pending. cbn [app].
    rewrite (pending_chunks k m r (messages r) resp [] (x :: post) num text false); done.
Qed.

Lemma slice_0_minus s (n : nat) :
  (0 < n)%nat → slice s 0 (- Z.of_nat n) = take (length s - n) s.
Proof.
  intros Hn. unfold slice, slen. rewrite (proj2 (Z.ltb_lt (- Z.of_nat n) 0)) by lia.
  rewrite Z.ltb_irrefl, Z.min_l, drop_0 by lia. f_equal. lia.
Qed.

(** The same response, when the chunk that completes the first line ends
    within the closing ")" CRLF: what has come of it stays in the body, and the
    next chunk is added to the body up to its last one or two characters. *)
Theorem fetch_cut_in_close r h num k m text pre c j more :
  onMessage r = None → fetch_line h num k m → slen text = Zpos k → _response r = [] → _pendingMessage r = None →
  Forall (λ x, x ≠ []) pre → concat pre `prefix_of` h ++ [CR] → (j = 1 ∨ j = 2)%nat →
  concat pre ++ c = h ++ CRLF ++ text ++ take j CLOSE →
  let next := drop j CLOSE ++ more in
  ∃ r' o x, for_each (pre ++ [c; next]) parse r
    = (r', OnMessage (with_body m (text ++ take j CLOSE ++ take (length next - j) next)) :: o, x).
Proof.
  intros Hok Hl Ht Hr Hp Hpre Hpp Hj Hc next.
  assert (Hn : (3 - j <= length next)%nat).
  { unfold next. rewrite length_app, length_drop. cbn. lia. }
  clearbody next.
  destruct (run_to_body r h num k m pre c [next] (text ++ take j CLOSE)) as (dn & ->); [done..|].
  unfold bind. rewrite (parse_fetch _ _ _ _ _ _ _ _ _ _ Hok Hl). cbv zeta.
  assert (Hlen : slen (text ++ take j CLOSE) = Zpos k + Z.of_nat j).
  { rewrite slen_app, Ht. by destruct Hj as [-> | ->]. }
  destruct Hl as [_ _ _ [Hs _]]. rewrite (proj2 (Z.leb_gt _ _)) by lia.
  assert (slice_from (text ++ take j CLOSE) (Zpos k + 3) = []) as ->.
  { replace (Zpos k + 3) with (Z.of_nat (Z.to_nat (Zpos k + 3))) by lia.
    rewrite slice_from_drop. apply drop_ge. unfold slen in Hlen. lia. }
  rewrite parse_rest_pending. cbn [for_each app]. unfold bind. rewrite (parse_pending k) by done. cbv zeta.
  cbn [app]. rewrite Hlen.
  rewrite (proj2 (Z.leb_le _ _)) by (unfold slen; lia).
  replace (Zpos k - (Zpos k + Z.of_nat j)) with (- Z.of_nat j) by lia.
  assert (slice next 0 (- Z.of_nat j) = take (length next - j) next) as ->.
  { apply slice_0_minus. lia. }
  rewrite <- (assoc_L (++) text).
  destruct (_parse _) as [[r' o] [u|]]; eexists _, _, _; reflexivity.
Qed.

(** ** Sample responses *)

Definition sample_line : jsstr := js "* 1 FETCH (UID 5 BODY[] {3}".
Definition sample_message : MessageData :=
  mkMessageData (Some 1) (Some (Some 5)) None None (Some (Arr [])) (Some 3) (Some []) None [].

Lemma sample_fetch_line : fetch_line sample_line (js "1") 3 sample_message.
Proof.
  split; [by vm_compute| |split; [done|by repeat constructor]|done].
  by exists (js "FETCH"), (Arr [Str (js "UID"); Str (js "5"); Str (js "BODY"); Arr []; Str (js "{3}")]).
Qed.

Lemma fetch_delivered_witness :
  for_each [js "* 1 FETCH (UID 5 "; js "BODY[] {3}" ++ CRLF ++ js "a"; js "bc)"; CRLF] parse newImapResponse
  = (fetched newImapResponse sample_message (js "1") (js "abc"),
     [OnMessage (with_body sample_message (js "abc"))], Some tt).
Proof.
  apply (fetch_delivered newImapResponse sample_line (js "1") 3 sample_message (js "abc")
           [js "* 1 FETCH (UID 5 "] (js "BODY[] {3}" ++ CRLF ++ js "a") [js "bc)"; CRLF] (js "a"));
    try done; try (repeat constructor; done).
  - exact sample_fetch_line.
  - by exists (js "BODY[] {3}" ++ [CR]).
Defined.

Lemma fetch_cut_in_close_witness :
  ∃ r' o x, for_each [sample_line ++ CRLF ++ js "abc)"; CRLF] parse newImapResponse
    = (r', OnMessage (with_body sample_message (js "abc)" ++ [CR])) :: o, x).
Proof.
  apply (fetch_cut_in_close newImapResponse sample_line (js "1") 3 sample_message (js "abc")
           [] (sample_line ++ CRLF ++ js "abc)") 1 []); try done.
  - exact sample_fetch_line.
  - by exists (sample_line ++ [CR]).
  - by left.
Defined.
