(* ===== verification/ImapLines.v ===== *)
(** * ImapLines: a line and the nested array it is parsed into

    Theorems on the tokens of ImapResponse.v: every line is parsed, and an array
    of words and quoted strings that is written with spaces and parentheses is
    parsed into itself. *)

From S2P Require Import Prelude Effects ImapUtils ImapResponse.

Section ValueInd.
Variable P : value → Prop.
Hypothesis str_case : ∀ s, P (Str s).
Hypothesis arr_case : ∀ l, Forall P l → P (Arr l).

Fixpoint value_rect (v : value) : P v :=
  match v with
  | Str s => str_case s
  | Arr l => arr_case l ((fix go l := match l return Forall P l with
                                      | [] => Forall_nil_2 P
                                      | v :: l' => Forall_cons_2 P v l' (value_rect v) (go l')
                                      end) l)
  end.
End ValueInd.

(** ** The nesting *)

(** There is an array to push to at a depth. *)
Fixpoint openable (d : nat) (tokens : list value) : Prop :=
  match d with
  | O => True
  | S d => ∃ l, last tokens = Some (Arr l) ∧ openable d l
  end.

Lemma openable_down d tokens : openable (S d) tokens → openable d tokens.
Proof.
  revert tokens. induction d as [|d IH]; intros tokens; [done|].
  intros (l & Hl & Ho). exists l. split; [done|]. by apply IH.
Qed.

Lemma push_openable d v tokens :
  openable d tokens →
  ∃ t', push_at d v tokens = Some t' ∧ openable d t' ∧ (∀ l, v = Arr l → openable (S d) t').
Proof.
  revert tokens. induction d as [|d IH]; intros tokens.
  - intros _. exists (tokens ++ [v]). split_and!; [done|done|]. intros l ->. exists l.
    by rewrite last_snoc.
  - intros (l & Hl & Ho). destruct (IH l Ho) as (l' & Hp & H1 & H2). cbn [push_at]. rewrite Hl, Hp.
    eexists. split; [reflexivity|]. split.
    + exists l'. by rewrite last_snoc.
    + intros w ->. exists l'. rewrite last_snoc. split; [done|]. by apply (H2 w).
Qed.

Lemma nest_total ts tokens depth :
  openable (Z.to_nat depth) tokens → ∃ l, nest ts tokens depth = Some l.
Proof.
  revert tokens depth. induction ts as [|t ts IH]; intros tokens depth Ho; [by exists tokens|].
  cbn [nest]. destruct (is_open_token t); [|destruct (is_close_token t)].
  - destruct (push_openable _ (Arr []) _ Ho) as (t' & Hp & H1 & H2). rewrite Hp. cbn. apply IH.
    destruct (Z.le_gt_cases 0 depth).
    + replace (Z.to_nat (depth + 1)) with (S (Z.to_nat depth)) by lia. by apply (H2 []).
    + by replace (Z.to_nat (depth + 1)) with O by lia.
  - apply IH. destruct (Z.le_gt_cases depth 0).
    + by replace (Z.to_nat (depth - 1)) with O by lia.
    + apply openable_down. by replace (S (Z.to_nat (depth - 1))) with (Z.to_nat depth) by lia.
  - destruct (push_openable _ (Str t) _ Ho) as (t' & Hp & H1 & H2). rewrite Hp. cbn. by apply IH.
Qed.

(** C40. Every line is parsed into an array, however its parentheses, brackets
    and quotes are balanced: the place a token is pushed to is always an array,
    and [_parseLine] never throws. *)
Theorem parseLine_total line : ∃ l, _parseLine line = Some l.
Proof. apply nest_total. exact Logic.I. Qed.

(** ** The tokens *)

Lemma length_quoted f str line : (length (quoted f str line).2 <= length line)%nat.
Proof.
  assert (Hs : ∀ s, (length (slice_from s (indexOf s [QUOTE] + 1)) <= length s)%nat).
  { intros s. unfold indexOf. destruct (find_sub [QUOTE] s) as [i|].
    - replace (Z.of_nat i + 1) with (Z.of_nat (S i)) by lia. rewrite slice_from_drop, length_drop. lia.
    - change (-1 + 1) with (Z.of_nat 0). by rewrite slice_from_drop, drop_0. }
  revert str line. induction f as [|f IH]; intros str line; cbn [quoted]; [apply Hs|].
  destruct (bool_decide _); [|apply Hs]. etrans; [apply IH|apply Hs].
Qed.

Lemma find_separator_length line t c rest :
  find_separator line = (t, Some (c, rest)) → (length rest < length line)%nat.
Proof.
  revert t. induction line as [|a line IH]; intros t; [done|]. cbn [find_separator].
  destruct (is_separator a); [intros [= <- <- <-]; cbn; lia|].
  destruct (find_separator line) as [t' r]. intros [= <- ->]. specialize (IH _ eq_refl). cbn. lia.
Qed.

Lemma tokenize_fuel f line : (length line <= f)%nat → tokenize_loop f line = _tokenize line.
Proof.
  unfold _tokenize. assert (∀ f1 f2 line, (length line <= f1)%nat → (length line <= f2)%nat →
    tokenize_loop f1 line = tokenize_loop f2 line) as Hf; [|intros; by apply Hf].
  clear f line. induction f1 as [|f1 IH]; intros [|f2] [|a line] H1 H2; cbn in H1, H2; try lia; try done.
  cbn [tokenize_loop]. destruct (find_separator (a :: line)) as [t [[c rest]|]] eqn:E; [|done].
  apply find_separator_length in E. cbn in E. f_equal. destruct (c =? QUOTE).
  - pose proof (length_quoted (length rest) [c] rest) as Hq. destruct (quoted _ _ _) as [q rest'].
    cbn in Hq. f_equal. apply IH; lia.
  - f_equal. apply IH; lia.
Qed.

Lemma tokenize_step line :
  _tokenize line
  = match line with
    | [] => []
    | _ =>
        match find_separator line with
        | (_, None) => [line]
        | (token, Some (sep, rest)) =>
            (if str_truthy token then [token] else []) ++
            (if sep =? QUOTE then
               let '(str, rest') := quoted (length rest) [sep] rest in str :: _tokenize rest'
             else (if sep =? SP then [] else [[sep]]) ++ _tokenize rest)
        end
    end.
Proof.
  destruct line as [|a line]; [done|]. unfold _tokenize at 1. cbn [length tokenize_loop].
  destruct (find_separator (a :: line)) as [t [[c rest]|]] eqn:E; [|done].
  apply find_separator_length in E. cbn in E. f_equal. destruct (c =? QUOTE).
  - pose proof (length_quoted (length rest) [c] rest) as Hq. destruct (quoted _ _ _) as [q rest'].
    cbn in Hq. f_equal. apply tokenize_fuel. lia.
  - f_equal. apply tokenize_fuel. lia.
Qed.

(** ** Writing *)

(** A word: no separator in it. *)
Definition word (s : jsstr) : Prop := s ≠ [] ∧ Forall (λ c, is_separator c = false) s.

(** A quoted string, its quotes included: no quote within, and no backslash
    before the last quote. *)
Definition quoted_word (s : jsstr) : Prop :=
  ∃ t, s = [QUOTE] ++ t ++ [QUOTE] ∧ (QUOTE ∉ t) ∧ last t ≠ Some BACKSLASH.

Inductive writable : value → Prop :=
  | WStr s : word s ∨ quoted_word s → writable (Str s)
  | WArr l : Forall writable l → writable (Arr l).

Fixpoint write (v : value) : jsstr :=
  match v with Str s => s | Arr l => js "(" ++ (join [SP] (map write l) ++ js ")") end.
Definition write_line (l : list value) : jsstr := join [SP] (map write l).

Fixpoint flat (v : value) : list jsstr :=
  match v with Str s => [s] | Arr l => js "(" :: (concat (map flat l) ++ [js ")"]) end.

(** *** The tokens of what was written *)

(** What may follow a token: the end, or a separator. *)
Definition stops (r : jsstr) : Prop :=
  match r with [] => True | c :: _ => is_separator c = true ∧ c ≠ QUOTE end.

Lemma find_separator_word s r :
  Forall (λ c, is_separator c = false) s → stops r →
  find_separator (s ++ r) = (s, match r with [] => None | c :: r' => Some (c, r') end).
Proof.
  intros Hs Hr. induction Hs as [|c s Hc _ IH]; cbn [app].
  - destruct r as [|c r]; [done|]. cbn [find_separator]. destruct Hr as [-> _]. done.
  - cbn [find_separator]. by rewrite Hc, IH.
Qed.

Lemma tokenize_separator c r :
  is_separator c = true → c ≠ QUOTE →
  _tokenize (c :: r) = (if c =? SP then [] else [[c]]) ++ _tokenize r.
Proof.
  intros Hc Hq. rewrite tokenize_step. cbn [find_separator]. rewrite Hc.
  by rewrite (proj2 (Z.eqb_neq c QUOTE)).
Qed.

Lemma tokenize_word s r : word s → stops r → _tokenize (s ++ r) = s :: _tokenize r.
Proof.
  intros [Hn Hs] Hr. rewrite tokenize_step, find_separator_word by done.
  assert (Ht : str_truthy s = true) by (by destruct s).
  destruct r as [|c r].
  - rewrite app_nil_r. by destruct s.
  - destruct Hr as [Hc Hq]. rewrite Ht, (proj2 (Z.eqb_neq c QUOTE)), tokenize_separator by done.
    by destruct s.
Qed.

Lemma find_quote t r : QUOTE ∉ t → find_sub [QUOTE] (t ++ QUOTE :: r) = Some (length t).
Proof.
  induction t as [|c t IH]; intros Ht.
  - apply (find_sub_prefix [QUOTE] r).
  - rewrite not_elem_of_cons in Ht. destruct Ht as [Hc Ht]. cbn [app find_sub length].
    rewrite bool_decide_eq_false_2; [by rewrite IH|].
    intros [k Hk]. injection Hk as Hk _. by apply Hc.
Qed.

Lemma quoted_run n t r :
  QUOTE ∉ t → last t ≠ Some BACKSLASH →
  quoted n [QUOTE] (t ++ QUOTE :: r) = ([QUOTE] ++ t ++ [QUOTE], r).
Proof.
  intros Ht Hl.
  assert (Hi : indexOf (t ++ QUOTE :: r) [QUOTE] = Z.of_nat (length t)).
  { unfold indexOf. by rewrite find_quote. }
  assert (Hs : slice (t ++ QUOTE :: r) 0 (Z.of_nat (length t) + 1) = t ++ [QUOTE]).
  { replace (Z.of_nat (length t) + 1) with (Z.of_nat (length (t ++ [QUOTE])))
      by (rewrite length_app; cbn; lia).
    rewrite slice_0_take. replace (t ++ QUOTE :: r) with ((t ++ [QUOTE]) ++ r)
      by (by rewrite <- (assoc_L (++))). apply take_app_length. }
  assert (Hd : slice_from (t ++ QUOTE :: r) (Z.of_nat (length t) + 1) = r).
  { replace (Z.of_nat (length t) + 1) with (Z.of_nat (length (t ++ [QUOTE])))
      by (rewrite length_app; cbn; lia).
    rewrite slice_from_drop. replace (t ++ QUOTE :: r) with ((t ++ [QUOTE]) ++ r)
      by (by rewrite <- (assoc_L (++))). apply drop_app_length. }
  assert (Hc : bool_decide (charAt (t ++ QUOTE :: r) (Z.of_nat (length t) - 1) = Some BACKSLASH) = false).
  { apply bool_decide_eq_false. unfold charAt. destruct t as [|x t _] using rev_ind; [done|].
    rewrite last_snoc in Hl. rewrite length_app. cbn [length].
    replace (Z.of_nat (length t + 1) - 1) with (Z.of_nat (length t)) by lia.
    rewrite (proj2 (Z.ltb_ge _ 0)), Nat2Z.id by lia.
    rewrite <- (assoc_L (++)). cbn [app]. by rewrite list_lookup_middle. }
  destruct n as [|n]; cbn [quoted]; rewrite Hi, Hs, Hd; [done|]. by rewrite Hc.
Qed.

Lemma tokenize_quoted s r : quoted_word s → _tokenize (s ++ r) = s :: _tokenize r.
Proof.
  intros (t & -> & Ht & Hl). rewrite tokenize_step. cbn [app find_separator].
  change (is_separator QUOTE) with true. cbv iota. cbn [str_truthy]. change (QUOTE =? QUOTE) with true.
  cbv iota. rewrite <- (assoc_L (++)). cbn [app]. by rewrite quoted_run.
Qed.

Lemma tokenize_array (l : list value) r :
  Forall (λ v, ∀ r, stops r → _tokenize (write v ++ r) = flat v ++ _tokenize r) l → stops r →
  _tokenize (join [SP] (map write l) ++ r) = concat (map flat l) ++ _tokenize r.
Proof.
  intros Hl Hr. induction Hl as [|v l Hv Hl IH]; [done|].
  destruct l as [|w l].
  - cbn [map join concat]. rewrite app_nil_r. by apply Hv.
  - change (join [SP] (map write (v :: w :: l)))
      with (write v ++ SP :: join [SP] (map write (w :: l))).
    change (concat (map flat (v :: w :: l))) with (flat v ++ concat (map flat (w :: l))).
    rewrite <- !(assoc_L (++)), <- IH. cbn [app]. by rewrite Hv.
Qed.

Lemma tokenize_write v r : writable v → stops r → _tokenize (write v ++ r) = flat v ++ _tokenize r.
Proof.
  intros Hw. revert r. induction v as [s|l IH] using value_rect; intros r Hr; inversion Hw; subst.
  - destruct H0; [by apply tokenize_word|by apply tokenize_quoted].
  - cbn [write flat app]. rewrite tokenize_separator by done. cbn [app]. f_equal.
    rewrite <- !(assoc_L (++)). change (js ")" ++ r) with (41 :: r).
    rewrite tokenize_array; [by rewrite tokenize_separator| |done].
    apply Forall_forall. intros v Hv. rewrite Forall_forall in IH, H0. auto.
Qed.

Lemma tokenize_write_line l : Forall writable l → _tokenize (write_line l) = concat (map flat l).
Proof.
  intros Hl. unfold write_line. rewrite <- (app_nil_r (join _ _)), tokenize_array; [|idtac|done].
  - by rewrite app_nil_r.
  - apply Forall_forall. intros v Hv r Hr. rewrite Forall_forall in Hl. apply tokenize_write; auto.
Qed.

(** ** The nesting of what was written *)

Lemma push_is_some d v w tokens t :
  push_at d v tokens = Some t → ∃ t', push_at d w tokens = Some t'.
Proof.
  revert tokens t. induction d as [|d IH]; intros tokens t; cbn [push_at]; [by eauto|].
  destruct (last tokens) as [[|l]|]; [done| |done]. destruct (push_at d v l) as [l'|] eqn:E; [|done].
  intros _. destruct (IH l l' E) as [t' ->]. by eexists.
Qed.

(** A push into the array just pushed. *)
Lemma push_open d a w tokens t :
  push_at d (Arr a) tokens = Some t → push_at (S d) w t = push_at d (Arr (a ++ [w])) tokens.
Proof.
  revert tokens t. induction d as [|d IH]; intros tokens t.
  - intros [= <-]. cbn [push_at]. by rewrite last_snoc, removelast_last.
  - cbn [push_at]. destruct (last tokens) as [[|l]|]; [done| |done].
    destruct (push_at d (Arr a) l) as [l'|] eqn:E; [|done]. intros [= <-].
    rewrite last_snoc, removelast_last. specialize (IH l l' E). cbn [push_at] in IH. by rewrite IH.
Qed.

(** The tokens of [v], read at depth [d], push [v] there. *)
Definition nests (v : value) : Prop :=
  ∀ (d : nat) tokens t ts,
    push_at d v tokens = Some t → nest (flat v ++ ts) tokens (Z.of_nat d) = nest ts t (Z.of_nat d).

Lemma nest_array l d a tokens t0 t1 ts :
  Forall nests l → push_at d (Arr a) tokens = Some t0 → push_at d (Arr (a ++ l)) tokens = Some t1 →
  nest (concat (map flat l) ++ ts) t0 (Z.of_nat (S d)) = nest ts t1 (Z.of_nat (S d)).
Proof.
  intros Hl. revert a t0. induction Hl as [|v l Hv _ IH]; intros a t0 H0 H1.
  - rewrite app_nil_r, H0 in H1. by injection H1 as ->.
  - destruct (push_is_some _ _ (Arr (a ++ [v])) _ _ H0) as [t' Ht'].
    pose proof (push_open _ _ v _ _ H0) as Hp. rewrite Ht' in Hp.
    cbn [map concat]. rewrite <- (assoc_L (++)), (Hv _ _ _ _ Hp). apply (IH (a ++ [v])); [done|].
    by rewrite <- (assoc_L (++)).
Qed.

Lemma word_bracket s : word s ∨ quoted_word s → is_open_token s = false ∧ is_close_token s = false.
Proof.
  intros [[Hn Hs]|(t & -> & _)].
  - destruct s as [|c s]; [done|]. apply Forall_cons in Hs as [Hc _].
    unfold is_open_token, is_close_token, jseq. apply bool_decide_eq_false in Hc.
    split; apply orb_false_iff; split; apply bool_decide_eq_false; intros [= ->]; apply Hc;
      vm_compute; set_solver.
  - done.
Qed.

Lemma nest_write v : writable v → nests v.
Proof.
  intros Hw. induction v as [s|l IH] using value_rect; inversion Hw; subst; intros d tokens t ts Hp.
  - destruct (word_bracket s H0) as [Ho Hc]. cbn [flat app nest]. rewrite Ho, Hc, Nat2Z.id, Hp. done.
  - destruct (push_is_some _ _ (Arr []) _ _ Hp) as [t0 H00].
    cbn [flat app nest]. change (is_open_token (js "(")) with true. cbv iota.
    rewrite Nat2Z.id, H00. cbn [mbind option_bind]. rewrite <- (assoc_L (++)).
    replace (Z.of_nat d + 1) with (Z.of_nat (S d)) by lia.
    rewrite (nest_array l d [] tokens t0 t); [|idtac|done|done].
    + cbn [app nest]. change (is_open_token (js ")")) with false.
      change (is_close_token (js ")")) with true. cbv iota.
      by replace (Z.of_nat (S d) - 1) with (Z.of_nat d) by lia.
    + apply Forall_forall. intros v Hv. rewrite Forall_forall in IH, H0. auto.
Qed.

Lemma nest_write_line l acc :
  Forall writable l → nest (concat (map flat l)) acc 0 = Some (acc ++ l).
Proof.
  intros Hl. revert acc. induction Hl as [|v l Hv _ IH]; intros acc; cbn [map concat].
  - by rewrite app_nil_r.
  - rewrite (nest_write v Hv O acc (acc ++ [v])) by done. cbn [Z.of_nat]. rewrite IH.
    by rewrite <- (assoc_L (++)).
Qed.

Lemma parseLine_write l : Forall writable l → _parseLine (write_line l) = Some l.
Proof. intros Hl. unfold _parseLine. by rewrite tokenize_write_line, nest_write_line. Qed.

(** C22. Round trip: an array of words, quoted strings and such arrays, written
    with a space between two values and parentheses around an inner array, is
    parsed into itself, at every depth.  So no such value of a response is lost,
    joined with another or moved to another array.  Words are not empty and have no
    separators, and quoted strings have no quote within and do not end in a backslash
    ([backslash_delimiter_misread] is one that does). *)
Theorem parseLine_roundtrip l : Forall writable l → _parseLine (write_line l) = Some l.
Proof. apply parseLine_write. Qed.

Lemma parseLine_roundtrip_witness :
  let l := [Str (js "*"); Str (js "1"); Str (js "FETCH");
            Arr [Str (js "FLAGS"); Arr [Str (js "\Seen")]; Str (js "BODY"); Arr [Arr []];
                 Str ([QUOTE] ++ js "a (b)" ++ [QUOTE])]] in
  write_line l = js "* 1 FETCH (FLAGS (\Seen) BODY (()) " ++ [QUOTE] ++ js "a (b)" ++ [QUOTE] ++ js ")" ∧
  _parseLine (write_line l) = Some l.
Proof.
  assert (Hw : ∀ s, s ≠ [] → forallb (λ c, negb (is_separator c)) s = true → writable (Str s)).
  { intros s Hn Hs. constructor. left. split; [done|]. apply Forall_forall. intros c Hc.
    rewrite forallb_forall in Hs. apply negb_true_iff, Hs. by apply list_elem_of_In. }
  split; [reflexivity|]. apply parseLine_roundtrip.
  repeat first [ apply Forall_nil_2 | apply Forall_cons_2 | apply WArr
               | apply Hw; [discriminate|reflexivity] ].
  constructor. right. exists (js "a (b)"). split_and!; [done|vm_compute; set_solver|done].
Defined.

(** *** An escaped backslash at the end of a quoted string *)

(** The second backslash of an escaped backslash is taken for an escape of the
    closing quote.  A server whose hierarchy delimiter is the backslash sends it
    as a quoted escaped backslash: its LIST responses, with the name quoted, lose
    the token boundary between the delimiter and the name. *)
Definition backslash_list : jsstr :=
  js "* LIST () " ++ [QUOTE; BACKSLASH; BACKSLASH; QUOTE] ++ js " " ++
  [QUOTE] ++ js "my mail" ++ [QUOTE].

Lemma backslash_delimiter_misread :
  _parseLine backslash_list
  = Some [Str (js "*"); Str (js "LIST"); Arr [];
          Str [QUOTE; BACKSLASH; BACKSLASH; QUOTE; SP; QUOTE]; Str (js "my"); Str (js "mail");
          Str [QUOTE]] ∧
  (newMailboxData <$> _parseLine backslash_list)
  = Some (Some (mkMailboxData 0 [BACKSLASH; QUOTE; SP] (js "my"))).
Proof. done. Qed.
