(* ===== verification/ImapText.v ===== *)
(** * ImapText: a response without bodies, in chunks

    What ImapResponse.v makes of a response that is some lines which begin with a
    star and a last line with a tag: the effects of its lines, in order, however
    the text is cut into chunks; and the effects of the lines the theorems on the
    client need (FETCH of flags, LIST). *)

From S2P Require Import Prelude Effects ImapUtils ImapResponse ImapFetch ImapLines.

(** ** Lines *)

(** The object with other text to read and another [done]. *)
Definition reading (r : ImapResponse) (s : jsstr) (d : bool) : ImapResponse :=
  r <| _response := s |> <| done := d |>.

(** Nothing pending, and an onMessage that returns. *)
Definition calm (r : ImapResponse) : Prop := onMessage r = None ∧ _pendingMessage r = None.

(** A line with its effect on the object and the messages it completes. *)
Record uline := mkUline { text : jsstr; effect : ImapResponse → ImapResponse; given : list MessageData }.

Record untagged (l : uline) : Prop := {
  un_crlf : crlf_free (text l);
  un_calm r : calm r → calm (effect l r);
  un_tag r : tag (effect l r) = star;
  un_run r s d : calm r →
    parse_line (text l) (reading r s d) = (reading (effect l r) s d, map OnMessage (given l), Some false)
}.

Definition wire (ls : list uline) : jsstr := concat (map (λ l, text l ++ CRLF) ls).
Definition effects (ls : list uline) (r : ImapResponse) : ImapResponse :=
  fold_left (λ r l, effect l r) ls r.
Definition all_given (ls : list uline) : list MessageData := concat (map given ls).

(** The last line: its tag, its status and a word. *)
Definition tagged (t s x : jsstr) : jsstr := write_line [Str t; Str s; Str x].

Definition finished (r : ImapResponse) (t s : jsstr) : ImapResponse :=
  r <| tag := Some (Str t) |> <| status := Some (Str s) |> <| _response := [] |> <| done := true |>.

Lemma effects_calm ls r : Forall untagged ls → calm r → calm (effects ls r).
Proof.
  intros Hl. revert r. induction Hl as [|l ls Hu _ IH]; intros r Hr; [done|]. apply IH.
  by apply Hu.
Qed.

Lemma effects_tag ls r : Forall untagged ls → ls ≠ [] ∨ tag r = star → tag (effects ls r) = star.
Proof.
  intros Hl. revert r. induction Hl as [|l ls Hu _ IH]; intros r Hr; [by destruct Hr|].
  apply IH. right. by apply Hu.
Qed.

(** The first line of the text. *)
Lemma parse_first h rest r d :
  crlf_free h →
  _parse (reading r (h ++ CRLF ++ rest) d)
  = bind (parse_line h) (λ ended : bool, if ended then skip else _parse) (reading r rest d).
Proof.
  intros Hh. rewrite parse_unfold. cbv zeta. change (_response (reading r ?x d)) with x.
  assert (str_truthy (h ++ CRLF ++ rest) = true) as -> by (by destruct h). cbn [negb andb].
  assert (Hi : indexOf (h ++ CRLF ++ rest) CRLF = Z.of_nat (length h)).
  { unfold indexOf. by rewrite find_CRLF. }
  rewrite Hi, (proj2 (Z.eqb_neq _ (-1))) by lia. unfold _advance. rewrite bind_modify.
  rewrite slice_0_take, take_app_length.
  match goal with |- bind _ _ ?q = _ =>
    change q with (reading r (slice_from (h ++ CRLF ++ rest) (Z.of_nat (length h) + 2)) d) end.
  replace (Z.of_nat (length h) + 2) with (Z.of_nat (length (h ++ CRLF)))
    by (rewrite length_app; cbn; lia).
  by rewrite slice_from_drop, (assoc_L (++)), drop_app_length.
Qed.

Lemma parse_untagged_line l rest r d :
  untagged l → calm r →
  _parse (reading r (text l ++ CRLF ++ rest) d)
  = let '(r', o, x) := _parse (reading (effect l r) rest d) in (r', map OnMessage (given l) ++ o, x).
Proof.
  intros Hu Hr. rewrite parse_first by apply Hu. unfold bind. by rewrite (un_run l Hu).
Qed.

Lemma parse_wire ls r s d :
  Forall untagged ls → calm r → crlf_free s → s ≠ [] ∨ ls ≠ [] ∨ tag r = star →
  _parse (reading r (wire ls ++ s) d)
  = (reading (effects ls r) s false, map OnMessage (all_given ls), Some tt).
Proof.
  intros Hl. revert r d. induction Hl as [|l ls Hu Hl IH]; intros r d Hr Hs Ht.
  - cbn [wire map concat app effects all_given fold_left]. rewrite parse_unfold. cbv zeta.
    change (_response (reading r s d)) with s.
    assert (negb (str_truthy s) && negb (tag_is (reading r s d) (js "*")) = false) as ->.
    { destruct Ht as [Ht|[Ht|Ht]]; [by destruct s|done|]. unfold tag_is.
      change (tag (reading r s d)) with (tag r). rewrite Ht. by rewrite andb_false_r. }
    unfold indexOf. rewrite Hs. reflexivity.
  - unfold wire. cbn [map concat]. rewrite <- !(assoc_L (++)). fold (wire ls).
    rewrite parse_untagged_line, IH; [|by apply Hu|done|right; right; by apply Hu|done|done].
    unfold all_given. cbn [map concat effects fold_left]. by rewrite map_app.
Qed.

Lemma reading_id r : reading r (_response r) (done r) = r.
Proof. by destruct r. Qed.

Lemma parse_reading x r s d : calm r → parse x (reading r s d) = _parse (reading r (s ++ x) d).
Proof.
  intros [_ Hp]. unfold parse. rewrite bind_modify, bind_gets.
  match goal with |- context [id ?q] => change q with (reading r (s ++ x) d) end. unfold id.
  change (_pendingMessage (reading r _ _)) with (_pendingMessage r). by rewrite Hp.
Qed.

(** *** The last line *)

(** A word without control characters of a line. *)
Definition plain_word (s : jsstr) : Prop := word s ∧ CR ∉ s.

Lemma word_writable s : word s → writable (Str s).
Proof. intros Hs. constructor. by left. Qed.

Lemma CR_join l : Forall (λ s, CR ∉ s) l → CR ∉ join [SP] l.
Proof.
  induction 1 as [|s l Hs Hl IH]; [by intros ?%elem_of_nil|]. destruct l as [|s' l]; [done|].
  change (join [SP] (s :: s' :: l)) with (s ++ [SP] ++ join [SP] (s' :: l)).
  rewrite !elem_of_app, list_elem_of_singleton. by intros [?|[?|?]].
Qed.

Lemma tagged_line t s x r d :
  plain_word t → plain_word s → plain_word x → t ≠ js "*" → t ≠ js "+" →
  parse_line (tagged t s x) (reading r [] d)
  = (reading (r <| tag := Some (Str t) |> <| status := Some (Str s) |>) [] d, [], Some false).
Proof.
  intros [Ht _] [Hs _] [Hx _] H1 H2. unfold parse_line.
  assert (Hp : _parseLine (tagged t s x) = Some [Str t; Str s; Str x]).
  { apply parseLine_write. repeat apply Forall_cons_2; try done; by apply word_writable. }
  rewrite Hp, bind_ctor. cbn [head]. rewrite !bind_modify, bind_gets. unfold id.
  match goal with |- context [tag_is ?q] =>
    change q with (reading (r <| tag := Some (Str t) |> <| status := Some (Str s) |>) [] d) end.
  set (r1 := reading _ _ _).
  assert (Hne : ∀ y, t ≠ y → tag_is r1 y = false).
  { intros y Hy. unfold tag_is. cbn. by apply jseq_false. }
  rewrite !Hne by done. cbn [when andb]. unfold skip at 1. rewrite bind_ret_l.
  rewrite bind_ret_l. reflexivity.
Qed.

Lemma tagged_CR t s x : plain_word t → plain_word s → plain_word x → CR ∉ tagged t s x.
Proof. intros [_ Ht] [_ Hs] [_ Hx]. apply CR_join. by repeat constructor. Qed.

Lemma str_truthy_app s t : t ≠ [] → str_truthy (s ++ t) = true.
Proof. by destruct s, t. Qed.

Lemma parse_finished ls r d t s x :
  Forall untagged ls → calm r → plain_word t → plain_word s → plain_word x →
  t ≠ js "*" → t ≠ js "+" →
  _parse (reading r (wire ls ++ tagged t s x ++ CRLF) d)
  = (finished (effects ls r) t s, map OnMessage (all_given ls), Some tt).
Proof.
  intros Hl. revert r d. induction Hl as [|l ls Hu Hl IH]; intros r d Hr Ht Hs Hx H1 H2.
  - cbn [wire map concat app effects all_given fold_left].
    rewrite <- (app_nil_r CRLF), parse_first by (by apply no_CR_crlf_free, tagged_CR).
    unfold bind. rewrite tagged_line by done. rewrite parse_unfold. cbv zeta.
    set (r1 := reading (r <| tag := Some (Str t) |> <| status := Some (Str s) |>) [] d).
    assert (tag_is r1 (js "*") = false) as ->.
    { unfold tag_is. cbn. by apply jseq_false. }
    reflexivity.
  - unfold wire. cbn [map concat]. rewrite <- !(assoc_L (++)). fold (wire ls).
    rewrite parse_untagged_line, IH; [|by apply Hu|done..].
    unfold all_given. cbn [map concat effects fold_left]. by rewrite map_app.
Qed.

(** ** Chunks *)

Lemma part_crlf_free h z y : z ++ y = h ++ CRLF → y ≠ [] → crlf_free h → crlf_free z.
Proof.
  intros Hz Hy Hh. destruct y as [|c y _] using rev_ind; [done|].
  change CRLF with ([CR] ++ [LF]) in Hz. rewrite !(assoc_L (++)) in Hz.
  apply app_inj_tail in Hz as [Hz _]. apply crlf_free_CR in Hh. rewrite <- Hz in Hh.
  by apply crlf_free_app_inv in Hh as [? _].
Qed.

(** A part of a text of lines, cut anywhere: some whole lines and the beginning of
    the next one. *)
Lemma cut_lines ls last z y :
  z ++ y = wire ls ++ last ++ CRLF → y ≠ [] →
  Forall untagged ls → crlf_free last →
  ∃ ls1 ls2 s, ls = ls1 ++ ls2 ∧ z = wire ls1 ++ s ∧ s ++ y = wire ls2 ++ last ++ CRLF ∧ crlf_free s.
Proof.
  intros Hz Hy Hl Hlast. revert z Hz. induction Hl as [|l ls Hu Hl IH]; intros z Hz.
  - exists [], [], z. split_and!; [done..|]. by apply (part_crlf_free last _ y).
  - unfold wire in Hz. cbn [map concat] in Hz. rewrite <- (assoc_L (++)) in Hz. fold (wire ls) in Hz.
    destruct (app_eq_inv _ _ _ _ Hz) as [(k & -> & Hk)|(k & Hh & Hk)].
    + symmetry in Hk. destruct (IH k Hk) as (ls1 & ls2 & s & -> & -> & Hs & Hc).
      exists (l :: ls1), ls2, s. split_and!; [done| |done|done].
      unfold wire. cbn [map concat]. by rewrite <- !(assoc_L (++)).
    + destruct k as [|c k].
      * rewrite app_nil_r in Hh. subst z. cbn [app] in Hk.
        exists [l], ls, []. split_and!; [done| |done|done]. unfold wire. cbn. by rewrite !app_nil_r.
      * exists [], (l :: ls), z. split_and!; [done|done| |].
        -- rewrite Hk. unfold wire. cbn [map concat]. rewrite Hh, <- !(assoc_L (++)). done.
        -- apply (part_crlf_free (text l) _ (c :: k)); [done|done|apply Hu].
Qed.

(** ** Lines of a server *)

(** Decides a proposition about given texts. *)
Ltac closed := apply (bool_decide_unpack _); vm_compute; exact Logic.I.

Lemma word_dec s : (str_truthy s && forallb (λ c, negb (is_separator c)) s) = true → word s.
Proof.
  intros [Hs Hf]%andb_true_iff. split; [by destruct s|]. apply Forall_forall. intros c Hc.
  rewrite forallb_forall in Hf. apply negb_true_iff, Hf. by apply list_elem_of_In.
Qed.

(** A line that begins with a star and is known. *)
Lemma star_line h w rest r s d r' o :
  _parseLine h = Some (Str (js "*") :: w :: rest) →
  parse_untagged h (Str (js "*") :: w :: rest) (reading (r <| tag := star |> <| status := Some w |>) s d)
  = (r', o, Some true) →
  parse_line h (reading r s d) = (r', o, Some false).
Proof.
  intros Hp Hu. unfold parse_line. rewrite Hp, bind_ctor. cbn [lookup list_lookup].
  rewrite !bind_modify, bind_gets. unfold id.
  match goal with |- context [tag_is ?q] =>
    change q with (reading (r <| tag := star |> <| status := Some w |>) s d) end.
  set (r1 := reading _ _ _) in *.
  change (tag_is r1 (js "+")) with false. change (tag_is r1 (js "*")) with true. cbn [when andb].
  unfold skip at 1. rewrite bind_ret_l. unfold bind at 1. rewrite Hu. cbn [negb when].
  assert (Hs : ∀ (v : option value),
    bind (match v with Some (Arr code) => when false (parse_code code) | _ => skip end)
      (λ _, ret false) r' = (r', [], Some false)) by (by intros [[|]|]).
  rewrite Hs. by rewrite app_nil_r.
Qed.

Lemma strings_map l : strings (map Str l) = Some l.
Proof. unfold strings. induction l as [|s l IH]; [done|]. cbn [map mapM]. by rewrite IH. Qed.

(** FETCH of the UID and the flags of a message. *)
Definition flags_message (q u : Z) (fl : list jsstr) : MessageData :=
  mkMessageData (Some q) (Some (Some u)) (Some (stringsToFlags fl))
    (Some (join [SP] (List.filter (λ s, negb (startsWith s [BACKSLASH])) fl)))
    None None None None [].

Definition flags_attrs (u : Z) (fl : list jsstr) : value :=
  Arr [Str (js "UID"); Str (num_str u); Str (js "FLAGS"); Arr (map Str fl)].

Definition flags_line (q u : Z) (fl : list jsstr) : uline := {|
  text := write_line [Str (js "*"); Str (num_str q); Str (js "FETCH"); flags_attrs u fl];
  effect := λ r, r <| messages ::= (λ l, l ++ [flags_message q u fl]) |> <| tag := star |>
                   <| status := Some (Str (num_str q)) |>;
  given := [flags_message q u fl]
|}.

Lemma newMessageData_flags q u fl :
  0 <= u → newMessageData (Some q) (Some (flags_attrs u fl)) = Some (flags_message q u fl).
Proof.
  intros Hu. unfold newMessageData, flags_attrs. cbn [mbind option_bind elements length attributes_loop].
  cbn [Nat.leb lookup list_lookup the_string mbind option_bind Nat.add].
  change (toUpperCase (js "UID") ==s js "UID") with true. cbv iota. cbn [attributes_loop].
  cbn [Nat.leb lookup list_lookup the_string mbind option_bind Nat.add].
  change (toUpperCase (js "FLAGS") ==s js "UID") with false.
  change (toUpperCase (js "FLAGS") ==s js "FLAGS") with true. cbv iota.
  unfold add_flags, value_flags. cbn [mbind option_bind elements]. rewrite strings_map.
  cbn [mbind option_bind attributes_loop length Nat.leb]. unfold number. cbn [mbind option_bind to_str].
  by rewrite toNumber_num_str.
Qed.

Lemma CR_write_strings l : Forall (λ s, CR ∉ s) l → CR ∉ write (Arr (map Str l)).
Proof.
  intros Hl. cbn [write]. rewrite map_map. cbn [write]. rewrite map_id.
  rewrite !elem_of_app, !list_elem_of_singleton. intros [?|[?|?]]; [done| |done]. by apply (CR_join l).
Qed.

Lemma num_str_word n : 0 <= n → plain_word (num_str n).
Proof.
  intros Hn. destruct (num_str_spec n Hn) as (H1 & H2 & _). split; [|by apply num_str_not_elem].
  split; [done|]. eapply Forall_impl; [done|]. intros c Hc%digit_range. unfold is_separator.
  apply bool_decide_eq_false. rewrite !elem_of_cons, elem_of_nil. unfold QUOTE, SP. lia.
Qed.

Lemma plain_words_CR l : Forall plain_word l → Forall (λ s, CR ∉ s) l.
Proof. intros Hl. eapply Forall_impl; [done|]. by intros s [_ ?]. Qed.

Lemma plain_words_writable l : Forall plain_word l → writable (Arr (map Str l)).
Proof.
  intros Hl. constructor. apply Forall_map. eapply Forall_impl; [done|]. intros s [? _].
  by apply word_writable.
Qed.

Lemma flags_untagged q u fl :
  0 <= q → 0 <= u → Forall plain_word fl → untagged (flags_line q u fl).
Proof.
  intros Hq Hu Hfl. constructor.
  - apply no_CR_crlf_free. unfold flags_line, write_line. cbn [text map].
    apply CR_join. repeat apply Forall_cons_2; [..|apply Forall_nil_2].
    + closed.
    + by apply num_str_word.
    + closed.
    + unfold flags_attrs. cbn [write map]. rewrite !elem_of_app, !list_elem_of_singleton.
      intros [?|[Hj|?]]; [done| |done]. revert Hj. apply CR_join.
      repeat apply Forall_cons_2; [..|apply Forall_nil_2].
      * closed.
      * by apply num_str_word.
      * closed.
      * by apply CR_write_strings, plain_words_CR.
  - done.
  - done.
  - intros r s d [Hm Hp]. eapply star_line.
    + apply parseLine_write. repeat apply Forall_cons_2; [..|apply Forall_nil_2];
        try (apply word_writable; by apply num_str_word).
      * by apply word_writable, word_dec.
      * by apply word_writable, word_dec.
      * constructor. repeat apply Forall_cons_2; [..|apply Forall_nil_2];
          try (apply word_writable; by apply num_str_word); try by apply plain_words_writable.
        -- by apply word_writable, word_dec.
        -- by apply word_writable, word_dec.
    + destruct (num_str_spec q Hq) as (H1 & H2 & H3).
      rewrite parse_untagged_fetch, H3 by done. unfold on_fetch.
      unfold bind at 1. rewrite newMessageData_flags, bind_ctor by done. rewrite bind_gets, bind_modify.
      cbn [bodySize flags_message]. unfold call_onMessage. rewrite bind_gets. unfold id.
      set (r1 := reading _ _ _).
      change (messages (update _ r1)) with (messages r ++ [flags_message q u fl]).
      change (length (messages r1)) with (length (messages r)).
      rewrite list_lookup_middle by done. rewrite bind_emit. change (onMessage (update _ r1)) with (onMessage r).
      rewrite Hm. reflexivity.
Qed.

(** LIST of a mailbox, its name between quotes, with the delimiter "/". *)
Definition in_quotes (s : jsstr) : jsstr := [QUOTE] ++ s ++ [QUOTE].

Definition quotable (s : jsstr) : Prop := (QUOTE ∉ s) ∧ (CR ∉ s) ∧ last s ≠ Some BACKSLASH.

Definition listed (fl : list jsstr) (n : jsstr) : MailboxData :=
  mkMailboxData (fold_left (λ flags str, bit_or flags (mailbox_flag str)) fl 0) (js "/") n.

Definition list_line (fl : list jsstr) (n : jsstr) : uline := {|
  text := write_line [Str (js "*"); Str (js "LIST"); Arr (map Str fl); Str (in_quotes (js "/"));
                      Str (in_quotes n)];
  effect := λ r, r <| mailboxes ::= (λ l, l ++ [listed fl n]) |> <| tag := star |>
                   <| status := Some (Str (js "LIST")) |>;
  given := []
|}.

Lemma replaceAll_absent s p r c : c ∈ p → c ∉ s → replaceAll s p r = s.
Proof.
  intros Hp Hs. unfold replaceAll. generalize (length s) as f. intros f. revert s Hs.
  induction f as [|f IH]; intros s Hs; [done|]. destruct s as [|x s]; [done|]. cbn [replaceAll_fuel].
  unfold startsWith. rewrite bool_decide_eq_false_2.
  - by rewrite IH by (by rewrite not_elem_of_cons in Hs; destruct Hs).
  - intros [k Hk]. rewrite Hk in Hs. apply Hs, elem_of_app. by left.
Qed.

Lemma unwrap_quotes s : quotable s → unwrapString (in_quotes s) = s.
Proof.
  intros (Hq & _ & _). unfold unwrapString, in_quotes.
  assert (startsWith ([QUOTE] ++ s ++ [QUOTE]) [QUOTE] = true) as ->.
  { apply bool_decide_eq_true. by eexists. }
  cbv zeta iota. change (drop 1 ([QUOTE] ++ s ++ [QUOTE])) with (s ++ [QUOTE]).
  assert (endsWith (s ++ [QUOTE]) [QUOTE] = true) as ->.
  { apply bool_decide_eq_true. by eexists. }
  cbv iota. rewrite length_app. cbn [length]. rewrite Nat.add_sub, take_app_length.
  apply (replaceAll_absent _ _ _ QUOTE); [by right; left|done].
Qed.

Lemma list_untagged fl n : Forall plain_word fl → quotable n → untagged (list_line fl n).
Proof.
  intros Hfl Hn. constructor.
  - apply no_CR_crlf_free. unfold list_line, write_line. cbn [text map].
    apply CR_join. repeat apply Forall_cons_2; [..|apply Forall_nil_2].
    + closed.
    + closed.
    + by apply CR_write_strings, plain_words_CR.
    + closed.
    + cbn [write]. unfold in_quotes. rewrite !elem_of_app, !list_elem_of_singleton.
      intros [?|[?|?]]; [done|by destruct Hn as (_ & ? & _)|done].
  - done.
  - done.
  - intros r s d _. eapply star_line.
    + apply parseLine_write. repeat apply Forall_cons_2; [..|apply Forall_nil_2].
      * by apply word_writable, word_dec.
      * by apply word_writable, word_dec.
      * by apply plain_words_writable.
      * constructor. right. exists (js "/"). split_and!; [done|closed|done].
      * constructor. right. exists n. destruct Hn as (? & _ & ?). by split_and!.
    + unfold parse_untagged. cbn [lookup list_lookup the_string]. rewrite bind_ctor. cbv zeta.
      change (toUpperCase (js "LIST") ==s js "CAPABILITY") with false.
      change (toUpperCase (js "LIST") ==s js "FLAGS") with false.
      change (toUpperCase (js "LIST") ==s js "ID") with false.
      change (toUpperCase (js "LIST") ==s js "LIST") with true. cbn [orb]. cbv iota.
      assert (newMailboxData [Str (js "*"); Str (js "LIST"); Arr (map Str fl); Str (in_quotes (js "/"));
                              Str (in_quotes n)] = Some (listed fl n)) as ->.
      { unfold newMailboxData, _stringsToFlags. cbn [lookup list_lookup mbind option_bind elements the_string].
        rewrite strings_map. cbn [mbind option_bind].
        rewrite !unwrap_quotes; [done|done|]. split_and!; [closed|closed|done]. }
      reflexivity.
Qed.
