(* ===== verification/ImapClient.v ===== *)
(** * ImapClient: the IMAP client's state machine

    mailnews/imap/src/ImapClient.sys.mjs, every method.  The client's fields are
    the record [ImapClient]; a function kept in [_nextAction] is a constructor of
    [nextAction], with what it closes over, and those kept for later
    ([_actionAfterSelectFolder], the callbacks of a LIST and of [endIdle]) have
    types of their own.  The outside is:
    - the folders and the server's database, C++ and ImapIncomingServer, through
      [ImapFolders]: what the client reads of them may depend on every event so
      far ([sees]);
    - the authenticator, [Authenticator] of Auth.v; what is awaited of it
      (passwords, tokens) is asked by an event and comes as an input;
    - sinks, listeners, the caller's callbacks, timers and the socket: events.

    The calls of sinks are taken to return.  [onReady] and [onFree] are assigned
    by withClient of ImapIncomingServer before it connects the client, and are
    events: what their owner does comes as inputs, after the method that called
    them. *)

From S2P Require Import Prelude Effects Net Auth MimeUtils ImapUtils ImapResponse.

(** ** The outside *)

(** A folder, by its identity. *)
Abbreviation folder := nat.

Inductive nsresult :=
  | NS_OK | NS_ERROR_FAILURE | NS_ERROR_ABORT | NS_MSG_ERROR_IMAP_COMMAND_FAILED
  | NS_ERROR_NET_TIMEOUT | NetworkError (code : Z).
#[export] Instance nsresult_eq : EqDecision nsresult.
Proof. solve_decision. Defined.

(** The attributes of a running URL the client reads. *)
Record url := mkUrl { liteSelectFolder : bool; storeResultsOffline : bool }.

(** What [flagAndUidState] looks at: [_messageUids] and [_messages]. *)
Abbreviation flag_state := (gmap num (option num) * list (option num * MessageData))%type.

(** nsIMailboxSpec. *)
Record mailboxSpec := mkMailboxSpec {
  folder_UIDVALIDITY : option field_value;
  box_flags : option Z;
  spec_userFlags : option Z;
  nextUID : option value;
  numMessages : Z;
  numUnseenMessages : option value;
  flagState : flag_state
}.

(** Why a password is awaited. *)
Inductive password_use := UseOldLogin | UseLoginPass | UseCramMd5 (challenge : option jsstr).

Inductive quota_action := INVALIDATE_QUOTA | STORE_QUOTA | VALIDATE_QUOTA.

Inductive event :=
  | Connect (host : jsstr) (port : Z) (useSecureTransport : bool)
  | Send (ssl suppressLogging : bool) (data : jsstr)  (* socket.send; is the socket secure? *)
  | SetTimeout (seconds : Z)
  | SocketClose
  | UpgradeToSecure
  | StartIdleTimer
  | ClearIdleTimer
  | OnReady                                           (* the caller *)
  | OnFree
  | OnDone (status : nsresult)
  | OnData (data : jsstr)
  | OnSearch (uids : option (list num))
  | OnStartRunningUrl (u : url)
  | OnStopRunningUrl (u : option url) (status : nsresult)
  | SetUrlState (running : bool) (status : nsresult)
  | CustomAttributeResult (v : option value)
  | FailedSecInfo
  | ReadFromLocalCache
  | Alert (errorName host : jsstr)
  | ServerCapabilities (l : option (list jsstr))      (* the server *)
  | ServerIsGMail
  | UserAuthenticated
  | ServerID (id : option jsstr)
  | Utf8AcceptEnabled (b : bool)
  | DoingLsub (b : bool)
  | PerformExpand
  | CloseCachedConnections
  | PossibleImapMailbox (name delimiter : jsstr) (flags : Z)
  | DiscoveryDone
  | OnlineFolderRename (old new : jsstr)
  | AskPassword (use : password_use)                  (* awaited *)
  | AskPlainToken
  | AskOAuthToken
  | AskSecurityInfo (code : Z)
  | ReadFile (mailbox : jsstr) (dst : folder) (copyState : nat) (isDraft : bool)
  | SetAppendMsgUid (f : folder) (uid : option value) (* a folder's sinks *)
  | CopyNextStreamMessage (f : folder) (copyState : nat)
  | UpdateImapMailboxStatus (f : folder) (nextUID : option value) (numMessages : Z)
      (numUnseen : option value)
  | ClearMsgDatabase (f : folder)
  | SetFolderQuotaData (f : folder) (a : quota_action) (name usage limit : option value)
  | QuotaCommandIssued (f : folder)
  | UpdateImapMailboxInfo (f : folder) (spec : mailboxSpec)
  | HeaderFetchCompleted (f : folder)
  | NotifyMessageFlags (f : folder) (flags : Z) (keywords : option jsstr) (uid : num)
      (highestmodseq : option field_value)
  | StartMessage (f : folder)
  | ParseMsgHdrs (f : folder) (uid : option num) (size : option num) (hdrs : jsstr)
  | ParseAdoptedMsgLine (f : folder) (body : jsstr) (uid : option num)
  | NormalEndMsgWriteStream (f : folder) (uid : option num) (len : Z)
  | EndMessage (f : folder) (uid : option num)
  | PerformingBiff (f : folder)
  | ResponseOverwrites (field : jsstr).               (* see ImapResponse.v *)

(** nsIMsgFolder and the server's database, as far as the client reads them. *)
Class ImapFolders (F : Type) := {
  isServer : folder → F → bool;
  onlineName : folder → F → jsstr;
  hierarchyDelimiter : folder → F → jsstr;
  URI : folder → F → jsstr;
  folderName : folder → F → jsstr;
  hasMsgOffline : folder → Z → F → bool;
  shouldStoreMsgOffline : folder → option num → F → option bool;     (* None: it throws *)
  highestRecordedUID : folder → F → Z;
  notifiedBodys : folder → F → option (list Z);    (* NotifyBodysToDownload, called back by
                                                      headerFetchCompleted *)
  curMoveCopyMessageInfo : folder → F → Z * jsstr;
  hasDiscoveredFolders : F → bool;
  sees : event → F → F
}.

(** nsIImapIncomingServer. *)
Record ImapServer := mkImapServer {
  socketType : nsMsgSocketType;
  authMethod : nsMsgAuthMethod;
  hostName : jsstr;
  port : Z;
  clientid : jsstr;
  allowUTF8Accept : bool;
  trashFolderName : jsstr;
  rootFolder : folder
}.

Record env := mkEnv {
  tcpTimeout : Z;
  appName : jsstr;
  appVersion : jsstr;
  unicodeToMutf7 : jsstr → jsstr;
  utf8 : jsstr → jsstr;                (* new TextEncoder().encode *)
  utf8_decode : jsstr → jsstr;         (* new TextDecoder().decode *)
  closing : readyState_t               (* readyState after close *)
}.

(** ** The state *)

(** [_actionAfterSelectFolder]. *)
Inductive in_folder :=
  | FUidFetch | FDeleteAll (f : folder) | FSearch (command : jsstr)
  | FFetchMessage (uid : Z) (size : option Z)
  | FStoreFlags (action ids : jsstr) (flags : Z)
  | FExpunge | FCopy (command : jsstr) | FKeywords (add subtract uids : jsstr)
  | FHeaders (uids : list jsstr).

(** [actionAfterResponse] of a LIST. *)
Inductive list_after := LDone | LFinish | LTrash (name : jsstr) | LTrashCreated (name : jsstr).

Inductive nextAction :=
  | NGreeting | NCapability | NStarttls | NClientId
  | NAuthResponse | NAuthPlain | NAuthLoginUser | NAuthLoginPass | NAuthCramMd5
  | NAuthGssapi | NAuthNtlm | NAuthCapability | NId | NEnableUtf8
  | NDiscoverExtended | NDiscoverList | NDiscoverLsub (list : list MailboxData)
  | NAllLsub | NAllList (lsub : list MailboxData)
  | NSelect (f : option folder) | NQuota
  | NRename (old new : jsstr) (isMove : bool) | NRenameSubscribed (old new : jsstr) (isMove : bool)
  | NRenameUnsubscribed (old new : jsstr) (isMove : bool)
  | NList (after : list_after) | NTrashCreated (name : jsstr) | NFinish
  | NDeleteList (f : folder)
  | NDeleteNext (f : folder) (selfName : jsstr) (mbs : list MailboxData) (selfIncluded : bool)
  | NEnsure (name : jsstr) | NCreated (name : jsstr) | NSubscribed (name : jsstr)
  | NPerformExpand | NAttribute (attribute : jsstr) | NExpunge (f : folder) | NSearch
  | NFetch | NFetchHeader | NFetchBody | NNoop | NDone | NSubtract (subtract uids : jsstr)
  | NAppend (dst : folder) (copyState : nat) (content : jsstr) | NAppended (dst : folder) (copyState : nat)
  | NStatus (f : folder) | NIdle
  | NEndIdle (k : end_idle)
with end_idle :=
  | EINoop
  | EISend (next : option nextAction) (str : jsstr) (suppressLogging : bool).

Record ImapClient (A F : Type) := mkImapClient {
  _authenticator : A;
  folders : F;
  _socket : option TCPSocket;
  _supportedAuthMethods : list jsstr;
  _possibleAuthMethods : list jsstr;
  _preferredAuthMethods : list jsstr;
  _nextAuthMethod : option jsstr;
  _currentAuthMethod : option jsstr;
  _tag : Z;
  _messageUids : gmap num (option num);
  _messages : list (option num * MessageData);
  _nextAction : option nextAction;
  _actionAfterSelectFolder : option in_folder;
  _actionAfterDiscoverAllFolders : bool;       (* it is onReady *)
  onData : option bool;                        (* undefined, or is it the caller's? *)
  onDone : option bool;
  channel : bool;
  _urlListener : bool;
  _msgWindow : bool;
  runningUri : option url;
  _authenticating : bool;
  verifyLogon : bool;
  _idling : bool;
  _idleTimer : bool;
  busy : bool;
  _greeted : bool;
  _capabilities : option (list jsstr);
  _secureTransport : bool;
  isGMailServer : bool;                        (* of this._server *)
  _utf8Enabled : bool;
  folder_ : option folder;                     (* this.folder *)
  _folderSink : option folder;
  _folderState : option ImapResponse;
  _supportedFlags : option Z;
  _bodysToDownload : option (list Z);
  _hasInbox : bool;
  _hasTrash : bool;
  _listInboxSent : bool;
  _listTrashSent : bool;
  _response : option ImapResponse;
  deferred : list jsstr                        (* data events whose handler awaits its timer *)
}.
Arguments mkImapClient {A F}.
Arguments _authenticator {A F}. Arguments folders {A F}. Arguments _socket {A F}.
Arguments _supportedAuthMethods {A F}. Arguments _possibleAuthMethods {A F}.
Arguments _preferredAuthMethods {A F}. Arguments _nextAuthMethod {A F}.
Arguments _currentAuthMethod {A F}. Arguments _tag {A F}. Arguments _messageUids {A F}.
Arguments _messages {A F}. Arguments _nextAction {A F}. Arguments _actionAfterSelectFolder {A F}.
Arguments _actionAfterDiscoverAllFolders {A F}. Arguments onData {A F}. Arguments onDone {A F}.
Arguments channel {A F}. Arguments _urlListener {A F}. Arguments _msgWindow {A F}.
Arguments runningUri {A F}. Arguments _authenticating {A F}. Arguments verifyLogon {A F}.
Arguments _idling {A F}. Arguments _idleTimer {A F}. Arguments busy {A F}.
Arguments _greeted {A F}. Arguments _capabilities {A F}. Arguments _secureTransport {A F}.
Arguments isGMailServer {A F}. Arguments _utf8Enabled {A F}. Arguments folder_ {A F}.
Arguments _folderSink {A F}. Arguments _folderState {A F}. Arguments _supportedFlags {A F}.
Arguments _bodysToDownload {A F}. Arguments _hasInbox {A F}. Arguments _hasTrash {A F}.
Arguments _listInboxSent {A F}. Arguments _listTrashSent {A F}. Arguments _response {A F}.
Arguments deferred {A F}.

#[export] Instance eta_ImapClient A F : Settable (ImapClient A F) := λ c,
  mkImapClient (_authenticator c) (folders c) (_socket c) (_supportedAuthMethods c)
    (_possibleAuthMethods c) (_preferredAuthMethods c) (_nextAuthMethod c) (_currentAuthMethod c)
    (_tag c) (_messageUids c) (_messages c) (_nextAction c) (_actionAfterSelectFolder c)
    (_actionAfterDiscoverAllFolders c) (onData c) (onDone c) (channel c) (_urlListener c)
    (_msgWindow c) (runningUri c) (_authenticating c) (verifyLogon c) (_idling c) (_idleTimer c)
    (busy c) (_greeted c) (_capabilities c) (_secureTransport c) (isGMailServer c)
    (_utf8Enabled c) (folder_ c) (_folderSink c) (_folderState c) (_supportedFlags c)
    (_bodysToDownload c) (_hasInbox c) (_hasTrash c) (_listInboxSent c) (_listTrashSent c)
    (_response c) (deferred c).

(** The table of the constructor. *)
Definition preferred (m : nsMsgAuthMethod) : list jsstr :=
  match m with
  | passwordCleartext => [js "PLAIN"; js "LOGIN"]
  | passwordEncrypted => [js "CRAM-MD5"]
  | auth_GSSAPI => [js "GSSAPI"]
  | auth_NTLM => [js "NTLM"]
  | auth_OAuth2 => [js "XOAUTH2"]
  | auth_External => [js "EXTERNAL"]
  | _ => []
  end.

(** The constructor; [tag] is its random number below 100. *)
Definition newImapClient {A F} (server : ImapServer) (gmail : bool) (tag : Z) (auth : A)
    (store : F) : ImapClient A F :=
  mkImapClient auth store None [] [] (preferred (authMethod server)) None None tag ∅ []
    None None false None None false false false None false false false false false false None false
    gmail false None None None None None false false false false None [].

(** ** Helpers of the language *)

(** [v == s] of a value that may be undefined. *)
Definition value_is (v : option value) (s : jsstr) : bool :=
  match v with Some v => to_str v ==s s | None => false end.

Definition value_truthy (v : option value) : bool :=
  match v with Some (Str s) => str_truthy s | Some (Arr _) => true | None => false end.

(** A value in a template string. *)
Definition value_text (v : option value) : jsstr :=
  match v with Some v => to_str v | None => js "undefined" end.

(** [status == "OK"], and [tag == t]. *)
Definition status_is (r : ImapResponse) (s : jsstr) : bool := value_is (status r) s.

(** [["OK", "+"].includes(status)]. *)
Definition status_ok (r : ImapResponse) : bool :=
  match status r with Some (Str s) => (s ==s js "OK") || (s ==s js "+") | _ => false end.

(** [s.replaceAll(p, r)], where an empty pattern is found around each character. *)
Definition replaceAll_any (s p r : jsstr) : jsstr :=
  if str_truthy p then replaceAll s p r else r ++ flat_map (λ c, c :: r) s.

Definition escape_quotes (s : jsstr) : jsstr := replaceAll s [QUOTE] [BACKSLASH; QUOTE].

(** [s] between quotes. *)
Definition quote (s : jsstr) : jsstr := QUOTE :: s ++ [QUOTE].

(** [s.split("/").slice(0, -1)]. *)
Definition ancestors (path : jsstr) : list jsstr := removelast (split_on 47 path).

(** The characters before a "/" or to the end. *)
Fixpoint until_slash (s : jsstr) : jsstr :=
  match s with c :: s' => if c =? 47 then [] else c :: until_slash s' | [] => [] end.

(** The group of [/imap:\/\/[^/]+\/(.+)/], anywhere in the string. *)
Fixpoint folder_path (s : jsstr) : option jsstr :=
  let rest := drop (length (js "imap://")) s in
  let host := until_slash rest in
  let path := until_eol (drop (S (length host)) rest) in
  if startsWith s (js "imap://") && str_truthy host && str_truthy path then Some path
  else match s with [] => None | _ :: s' => folder_path s' end.

Definition is_word (c : Z) : bool :=
  is_digit c || ((65 <=? c) && (c <=? 90)) || ((97 <=? c) && (c <=? 122)) || (c =? 95).

Definition opt_word (c : option Z) : bool := match c with Some c => is_word c | None => false end.

(** [/\b\Draft\b/.test(s)]: the class of what is not a digit, and "raft",
    between two word boundaries; [prev] is the character before [s]. *)
Fixpoint draft_re (prev : option Z) (s : jsstr) : bool :=
  match s with
  | [] => false
  | c :: s' =>
      (xorb (opt_word prev) (is_word c) && negb (is_digit c) && startsWith s' (js "raft")
       && negb (opt_word (drop 4 s' !! 0%nat)))
      || draft_re (Some c) s'
  end.

(** An array sorted by [(x, y) => y.name.length - x.name.length]; equal ones keep
    their order. *)
Fixpoint insert_longest (x : MailboxData) (l : list MailboxData) : list MailboxData :=
  match l with
  | [] => [x]
  | y :: l' => if (length (name y) <=? length (name x))%nat then x :: l
               else y :: insert_longest x l'
  end.
Definition sort_longest (l : list MailboxData) : list MailboxData := foldr insert_longest [] l.

(** [array.at(-1)] of [_messageUids]: the element of the greatest index. *)
Definition is_index (k : num) : bool :=
  match k with Some i => (0 <=? i) && (i <? 2 ^ 32 - 1) | None => false end.
Definition last_uid (m : gmap num (option num)) : option num :=
  let top := map_fold (λ k _ (i : Z), if is_index k then Z.max (default 0 k) i else i) (-1) m in
  default None (m !! Some top).

(** [latest > highest] where the first may be undefined. *)
Definition uid_gt (latest : option num) (highest : Z) : option Z :=
  match latest with Some (Some n) => if highest <? n then Some n else None | _ => None end.

Definition uid_truthy (u : option num) : bool :=
  match u with Some n => num_truthy n | None => false end.

(** [map(m => m.customAttributes[a]).flat()]. *)
Definition attribute_results (a : jsstr) (l : list MessageData) : list (option value) :=
  flat_map (λ m, match default None (mget (customAttributes m) a) with
                 | Some (Arr vs) => map Some vs
                 | v => [v]
                 end) l.

Definition join_values (l : list (option value)) : jsstr :=
  join [SP] (map (λ v, match v with Some v => to_str v | None => [] end) l).

(** The headers of a message from its text, for parseMsgHdrs. *)
Definition msgHdrs (body : jsstr) : jsstr :=
  let sepIndex := indexOf body (CRLF ++ CRLF) in
  if sepIndex =? -1 then body ++ CRLF else slice body 0 (sepIndex + 2).

(** [bodySection.length == 1 && bodySection[0] == "HEADER"]. *)
Definition is_header_section (v : value) : bool :=
  match elements v with [x] => to_str x ==s js "HEADER" | _ => false end.

(** In the LSUB responses the flags of a mailbox of the LIST responses count. *)
Definition merge_flags (lists lsubs : list MailboxData) : list MailboxData :=
  map (λ mb, match List.find (λ x, name x ==s name mb) lists with
             | Some x => if mb_flags x =? 0 then mb else mkMailboxData (mb_flags x) (delimiter mb) (name mb)
             | None => mb
             end) lsubs.

Definition FLAG_IMAP_TRASH : Z := 0x10.
Definition FLAG_IMAP_INBOX : Z := 0x4000.

Definition has_flag (flag : Z) (mb : MailboxData) : bool := negb (bit_and (mb_flags mb) flag =? 0).

(** The first mailbox of that name gets the flag. *)
Fixpoint mark_trash (name_ : jsstr) (l : list MailboxData) : bool * list MailboxData :=
  match l with
  | [] => (false, [])
  | mb :: l' =>
      if toLowerCase (name mb) ==s name_
      then (true, mkMailboxData (bit_or (mb_flags mb) FLAG_IMAP_TRASH) (delimiter mb) (name mb) :: l')
      else let '(b, l'') := mark_trash name_ l' in (b, mb :: l'')
  end.

(** ** Methods *)

Section Methods.
Context {A F : Type} `{Authenticator A} `{ImapFolders F}.
Variable srv : ImapServer.
Variable ev : env.
Abbreviation client := (ImapClient A F).
Abbreviation act := (eff client event).

(** An event, which what is outside sees. *)
Definition tell (e : event) : act unit := (this, folders ::= sees e) >> emit e.

Definition next (n : nextAction) : act unit := this, _nextAction := Some n.

(** A method of the authenticator. *)
Definition auth_call {X} (f : A → A * option X) : act X := λ c,
  let '(a, r) := f (_authenticator c) in (c <| _authenticator := a |>, [], r).

(** Something read of the folders. *)
Definition ask {X} (f : F → X) : act X := gets (λ c, f (folders c)).

(** [try { x } catch { }] with a value: the result, or not. *)
Definition attempt {X} (m : act X) : act (option X) :=
  catch (bind m (λ x, ret (Some x))) (ret None).

Definition or_throw {X} (x : option X) : act X := match x with Some x => ret x | None => throw end.

(** [this._capabilities.includes(x)]. *)
Definition has_cap (x : jsstr) : act bool :=
  let! l := gets _capabilities in
  match l with Some l => ret (list_has l x) | None => throw end.

(** ** The socket *)

(** [get isOnline()]. *)
Definition isOnline (c : client) : bool :=
  match _socket c with Some s => bool_decide (readyState s = Open) | None => false end.

Definition _setSocketTimeout (timeout : Z) : act unit :=
  let! s := gets _socket in match s with Some _ => tell (SetTimeout timeout) | None => throw end.

(** [this._socket.close()]. *)
Definition socket_close : act unit :=
  let! s := gets _socket in
  match s with
  | Some s =>
      (this, _socket := Some (mkTCPSocket (if bool_decide (readyState s = Closed) then Closed
                                           else closing ev) (ssl s))) >>
      tell SocketClose
  | None => throw
  end.

Definition connect : act unit :=
  let! c := gets id in
  if isOnline c then tell OnReady >> _setSocketTimeout (tcpTimeout ev)
  else
    let secure := bool_decide (socketType srv = SSL) in
    (this, _greeted := false) >> (this, _capabilities := None) >> (this, _secureTransport := secure) >>
    (this, _socket := Some (mkTCPSocket Connecting secure)) >>
    tell (Connect (toLowerCase (hostName srv)) (port srv) secure).

(** The bytes of a string on the wire. *)
Definition encode (c : client) (str : jsstr) : jsstr :=
  if _utf8Enabled c then utf8 ev str else byteStringToUint8Array str.

Definition _send (str : jsstr) (suppressLogging : bool) : act unit :=
  let! c := gets id in
  match _socket c with
  | Some s => when (isOnline c) (tell (Send (ssl s) suppressLogging (encode c (str ++ CRLF))))
  | None => skip
  end.

Definition _getNextTag : act Z :=
  bind (this, _tag ::= λ t, (t + 1) mod 100) (λ _, gets _tag).

Definition endIdle (k : end_idle) : act unit :=
  next (NEndIdle k) >> _send (js "DONE") false >> (this, _idling := false) >> (this, busy := true) >>
  tell ClearIdleTimer >> (this, _idleTimer := false).

Definition _sendTagged (str : jsstr) (suppressLogging : bool) : act unit :=
  let! c := gets id in
  if _idling c then endIdle (EISend (_nextAction c) str suppressLogging)
  else let! tag := _getNextTag in _send (num_str tag ++ SP :: str) suppressLogging.

(** A command whose text may be logged. *)
Definition command (str : jsstr) : act unit := _sendTagged str false.

Definition logout : act unit := command (js "LOGOUT") >> socket_close.

(** ** The end of a request *)

Definition call_onData (data : jsstr) : act unit :=
  let! f := gets onData in when (default false f) (tell (OnData data)).

Definition _reset : act unit :=
  (this, onData := Some false) >> (this, onDone := Some false) >>
  (this, _actionAfterDiscoverAllFolders := false) >> (this, channel := false) >>
  (this, _urlListener := false) >> (this, _msgWindow := false) >> (this, _authenticating := false) >>
  (this, verifyLogon := false) >> (this, _idling := false) >>
  (let! t := gets _idleTimer in when t (tell ClearIdleTimer >> (this, _idleTimer := false))).

Definition _actionDone (status : nsresult) : act unit :=
  (this, _nextAction := None) >>
  (let! c := gets id in
   when (_urlListener c) (tell (OnStopRunningUrl (runningUri c) status)) >>
   match runningUri c with Some _ => tell (SetUrlState false status) | None => throw end) >>
  (let! f := gets onDone in when (default false f) (tell (OnDone status))) >>
  _reset >>
  tell OnFree.

Definition _actionError (errorName : jsstr) : act unit :=
  let! w := gets _msgWindow in when w (tell (Alert errorName (hostName srv))).

Definition startRunningUrl (urlListener msgWindow : bool) (u : option url) : act unit :=
  let u := default (mkUrl false false) u in
  (this, _urlListener := urlListener) >> (this, _msgWindow := msgWindow) >>
  (this, runningUri := Some u) >>
  when urlListener (tell (OnStartRunningUrl u)) >>
  tell (SetUrlState true NS_OK).

(** ** The names of folders *)

Definition _getAncestorFolderNames (f : folder) : act (list jsstr) :=
  let! uri := ask (URI f) in
  match folder_path uri with Some p => ret (ancestors p) | None => throw end.

Definition _encodeMailboxName (name : jsstr) : act jsstr :=
  let! c := gets id in ret (if _utf8Enabled c then name else unicodeToMutf7 ev name).

(** [hierarchyDelimiter || "/"]. *)
Definition delimiter_of (f : folder) : act jsstr :=
  let! d := ask (hierarchyDelimiter f) in ret (if str_truthy d then d else js "/").

Definition _getServerFolderName (f : folder) : act jsstr :=
  let! root := ask (isServer f) in
  let! online := ask (onlineName f) in
  if root : bool then ret []
  else if str_truthy online then ret (escape_quotes online)
  else
    let! d := delimiter_of f in
    let! names := _getAncestorFolderNames f in
    let! n := ask (folderName f) in
    let! e := _encodeMailboxName (join d (names ++ [n])) in
    ret (escape_quotes e).

Definition _getServerSubFolderName (parent : folder) (name : jsstr) : act jsstr :=
  let! e := _encodeMailboxName name in
  let! mailboxName := _getServerFolderName parent in
  let! d := ask (hierarchyDelimiter parent) in
  ret (if str_truthy mailboxName
       then mailboxName ++ (if negb (str_truthy d) || (d ==s js "^") then js "/" else d) ++ e
       else e).

(** ** In a folder *)

Definition select (f : folder) (then_ : in_folder) : act unit :=
  (this, _actionAfterSelectFolder := Some then_) >> next (NSelect (Some f)) >>
  (let! n := _getServerFolderName f in command (js "SELECT " ++ quote n)).

Definition _actionNoop : act unit := next NNoop >> command (js "NOOP").

(** [this.folder == f]. *)
Definition in_ (f : folder) (c : client) : bool := bool_decide (folder_ c = Some f).

Definition selectFolder (f : folder) : act unit :=
  let! here := gets (in_ f) in if here : bool then _actionNoop else select f FUidFetch.

(** [headers] of a header fetch, with Gmail's. *)
Definition header_items (c : client) : jsstr :=
  js "(UID " ++ (if isGMailServer c then js "X-GM-MSGID X-GM-THRID X-GM-LABELS " else [])
  ++ js "RFC822.SIZE FLAGS BODY.PEEK[HEADER])".

Definition _actionUidFetch : act unit :=
  let! u := gets runningUri in
  match u with
  | Some u => next (if liteSelectFolder u then NDone else NFetch) >>
              command (js "UID FETCH 1:* (FLAGS)")
  | None => throw
  end.

Definition fetch_body_command (uid : Z) (size : option Z) : jsstr :=
  js "UID FETCH " ++ num_str uid ++
  match size with
  | Some (Zpos _ as n) | Some (Zneg _ as n) =>
      js " (UID RFC822.SIZE FLAGS BODY.PEEK[HEADER.FIELDS (Content-Type Content-Transfer-Encoding)] BODY.PEEK[TEXT]<0."
      ++ num_str n ++ js ">)"
  | _ => js " (UID RFC822.SIZE FLAGS BODY.PEEK[])"
  end.

(** [subtractFlags] of storeCustomKeywords. *)
Definition subtractFlags (subtract uids : jsstr) : act unit :=
  if str_truthy subtract then
    next NDone >> command (js "UID STORE " ++ uids ++ js " -FLAGS (" ++ subtract ++ js ")")
  else _actionDone NS_OK.

(** The call of an action kept for after the SELECT. *)
Definition run_in_folder (a : in_folder) : act unit :=
  match a with
  | FUidFetch => _actionUidFetch
  | FDeleteAll f =>
      let! m := gets _messages in
      match m with
      | [] => _actionDone NS_OK
      | _ => next (NExpunge f) >> command (js "UID STORE 1:* +FLAGS.SILENT (\Deleted)")
      end
  | FSearch cmd => next NSearch >> command (js "UID " ++ cmd)
  | FFetchMessage uid size => next NFetchBody >> command (fetch_body_command uid size)
  | FStoreFlags action ids flags =>
      next NDone >>
      (let! supported := gets _supportedFlags in
       command (js "UID STORE " ++ ids ++ SP :: action ++ js "FLAGS ("
                ++ flagsToString flags (default 0 supported) ++ js ")"))
  | FExpunge => next NDone >> command (js "EXPUNGE")
  | FCopy cmd => next NNoop >> command cmd
  | FKeywords add subtract uids =>
      if str_truthy add then
        next (NSubtract subtract uids) >>
        command (js "UID STORE " ++ uids ++ js " +FLAGS (" ++ add ++ js ")")
      else subtractFlags subtract uids
  | FHeaders uids =>
      next NFetchHeader >>
      (let! c := gets id in
       command (js "UID FETCH " ++ join (js ",") uids ++ SP :: header_items c))
  end.

Definition _actionInFolder (f : folder) (a : in_folder) : act unit :=
  let! here := gets (in_ f) in if here : bool then run_in_folder a else select f a.

(** [this._actionAfterSelectFolder()]. *)
Definition after_select : act unit :=
  let! a := gets _actionAfterSelectFolder in
  match a with Some a => run_in_folder a | None => throw end.

Definition expunge (f : folder) : act unit := _actionInFolder f FExpunge.
Definition deleteAllMessages (f : folder) : act unit := _actionInFolder f (FDeleteAll f).
Definition search (f : folder) (cmd : jsstr) : act unit := _actionInFolder f (FSearch cmd).
Definition updateMessageFlags (action : jsstr) (f : folder) (ids : jsstr) (flags : Z) : act unit :=
  _actionInFolder f (FStoreFlags action ids flags).
Definition storeCustomKeywords (f : folder) (add subtract uids : jsstr) : act unit :=
  _actionInFolder f (FKeywords add subtract uids).
Definition getHeaders (f : folder) (uids : list jsstr) : act unit := _actionInFolder f (FHeaders uids).

Definition fetchMessage (f : folder) (uid : Z) (size : option Z) : act unit :=
  let! offline := ask (hasMsgOffline f uid) in
  if offline : bool then
    (this, onDone := Some false) >>
    (let! ch := gets channel in when ch (tell ReadFromLocalCache)) >>
    _actionDone NS_OK
  else _actionInFolder f (FFetchMessage uid size).

Definition copy (f dst : folder) (ids : jsstr) (idsAreUids isMove : bool) : act unit :=
  let! move := (if isMove then has_cap (js "MOVE") else ret false) in
  let! n := _getServerFolderName dst in
  _actionInFolder f (FCopy ((if idsAreUids then js "UID " else [])
                            ++ (if move : bool then js "MOVE " else js "COPY ")
                            ++ ids ++ SP :: quote n)).

Definition fetchMsgAttribute (uids attribute : jsstr) : act unit :=
  next (NAttribute attribute) >>
  command (js "UID FETCH " ++ uids ++ js " (" ++ attribute ++ js ")").

(** The comparison with [this._folder], which no method assigns, fails. *)
Definition updateFolderStatus (f : folder) : act unit :=
  next (NStatus f) >>
  (let! n := _getServerFolderName f in
   command (js "STATUS " ++ quote n ++ js " (UIDNEXT MESSAGES UNSEEN)")).

(** ** Mailboxes *)

Definition possibleImapMailbox (mb : MailboxData) : act unit :=
  tell (PossibleImapMailbox (replaceAll_any (name mb) (delimiter mb) (js "/")) (delimiter mb) (mb_flags mb)).

Definition list_command (name : jsstr) : jsstr := js "LIST " ++ quote [] ++ SP :: quote name.

Definition _actionList (folderName : jsstr) (after : list_after) : act unit :=
  next (NList after) >> command (list_command folderName).

(** [_actionListOrLsub], which is given a mailbox. *)
Definition _actionListOrLsub (mailbox : jsstr) : act unit :=
  next (NList LFinish) >>
  (let! ext := has_cap (js "LIST-EXTENDED") in
   let! special := has_cap (js "SPECIAL-USE") in
   command ((if ext : bool then js "LIST (SUBSCRIBED)" else js "LSUB") ++ SP :: quote [] ++ SP :: quote mailbox
            ++ (if special : bool then js " RETURN (SPECIAL-USE)" else []))) >>
  (this, _listInboxSent := false).

Definition _actionCreateTrashFolderIfNeeded : act unit :=
  _actionList (trashFolderName srv) (LTrash (trashFolderName srv)) >> (this, _listTrashSent := true).

Definition _actionFinishFolderDiscovery : act unit :=
  let! c := gets id in
  if negb (_hasInbox c) && negb (_listInboxSent c) then
    _actionList (js "INBOX") LFinish >> (this, _listInboxSent := true)
  else if negb (_hasTrash c) && negb (_listTrashSent c) then _actionCreateTrashFolderIfNeeded
  else
    tell DiscoveryDone >>
    (let! c := gets id in
     if _actionAfterDiscoverAllFolders c then tell OnReady else _actionDone NS_OK).

(** The callback of a LIST. *)
Definition run_list_after (a : list_after) (res : ImapResponse) : act unit :=
  match a with
  | LDone => _actionDone NS_OK
  | LFinish => _actionFinishFolderDiscovery
  | LTrash name =>
      let found := (0 <? length (mailboxes res))%nat in
      (this, _hasTrash := found) >>
      if found then _actionFinishFolderDiscovery
      else next (NTrashCreated name) >> command (js "CREATE " ++ quote name)
  | LTrashCreated name => next NFinish >> command (js "SUBSCRIBE " ++ quote name)
  end.

Definition _actionListResponse (after : list_after) (res : ImapResponse) : act unit :=
  (let! c := gets id in
   when (negb (_hasInbox c)) (this, _hasInbox := existsb (has_flag FLAG_IMAP_INBOX) (mailboxes res))) >>
  for_each (mailboxes res) possibleImapMailbox >>
  run_list_after after res.

(** [handleListResponse] of discoverAllFolders. *)
Definition handleListResponse (l : list MailboxData) : act unit :=
  let has := existsb (has_flag FLAG_IMAP_TRASH) l in
  let '(marked, l') := if has then (true, l) else mark_trash (toLowerCase (trashFolderName srv)) l in
  (this, _hasTrash := has || marked) >> for_each l' possibleImapMailbox.

(** The command of a LIST of everything, with what [RETURN] there is. *)
Definition discover_command (str : jsstr) : act unit :=
  let! special := has_cap (js "SPECIAL-USE") in
  command (str ++ if special : bool then js " RETURN (SPECIAL-USE)" else []).

Definition discoverAllFolders : act unit :=
  let! ext := has_cap (js "LIST-EXTENDED") in
  if ext : bool then next NDiscoverExtended >> discover_command (js "LIST (SUBSCRIBED) " ++ quote [] ++ SP :: quote (js "*"))
  else next NDiscoverList >> discover_command (list_command (js "*")).

Definition lsub_command : jsstr := js "LSUB " ++ quote [] ++ SP :: quote (js "*").

Definition discoverAllAndSubscribedFolders : act unit :=
  next NAllLsub >> command lsub_command >> tell (DoingLsub true).

Definition _discoverAllFoldersIfNecessary : act unit :=
  let! discovered := ask hasDiscoveredFolders in
  if discovered : bool then tell OnReady
  else (this, _actionAfterDiscoverAllFolders := true) >> discoverAllFolders.

Definition rename_command (old new : jsstr) : act unit :=
  command (js "RENAME " ++ quote old ++ SP :: quote new).

Definition renameFolder (f : folder) (newName : jsstr) : act unit :=
  let! d := delimiter_of f in
  let! names := _getAncestorFolderNames f in
  let! old := _getServerFolderName f in
  let! new := _encodeMailboxName (join d (names ++ [newName])) in
  next (NRename old new false) >> rename_command old new.

Definition moveFolder (src dst : folder) : act unit :=
  let! old := _getServerFolderName src in
  let! n := ask (folderName src) in
  let! new := _getServerSubFolderName dst n in
  next (NRename old new true) >> rename_command old new.

Definition listFolder (f : folder) : act unit :=
  let! n := _getServerFolderName f in _actionList n LDone.

Definition deleteFolder (f : folder) : act unit :=
  next (NDeleteList f) >> (let! n := _getServerFolderName f in command (list_command n)).

(** The function of the DELETEs. *)
Definition delete_next (f : folder) (selfName : jsstr) (mbs : list MailboxData) (selfIncluded : bool) :
    act unit :=
  match mbs with
  | mb :: mbs' =>
      next (NDeleteNext f selfName mbs' (selfIncluded || (selfName ==s name mb))) >>
      command (js "DELETE " ++ quote (name mb))
  | [] =>
      if selfIncluded then _actionDone NS_OK
      else next NDone >> (let! n := _getServerFolderName f in command (js "DELETE " ++ quote n))
  end.

Definition _actionCreateAndSubscribe (name : jsstr) : act unit :=
  next (NCreated name) >> command (js "CREATE " ++ quote name).

Definition ensureFolderExists (parent : folder) (folderName : jsstr) : act unit :=
  let! n := _getServerSubFolderName parent folderName in
  next (NEnsure n) >> command (list_command n).

Definition createFolder (parent : folder) (folderName : jsstr) : act unit :=
  let! n := _getServerSubFolderName parent folderName in _actionCreateAndSubscribe n.

Definition subscribeFolder (folderName : jsstr) : act unit :=
  next NPerformExpand >> command (js "SUBSCRIBE " ++ quote folderName).
Definition unsubscribeFolder (folderName : jsstr) : act unit :=
  next NPerformExpand >> command (js "UNSUBSCRIBE " ++ quote folderName).

(** [_actionRenameResponse(oldName, newName, isMove)] and its two steps. *)
Definition _actionRenameResponse (old new : jsstr) (isMove : bool) : act unit :=
  next (NRenameSubscribed old new isMove) >> command (js "SUBSCRIBE " ++ quote new).
Definition rename_subscribed (old new : jsstr) (isMove : bool) : act unit :=
  next (NRenameUnsubscribed old new isMove) >> command (js "UNSUBSCRIBE " ++ quote old).
Definition rename_unsubscribed (old new : jsstr) (isMove : bool) : act unit :=
  tell (OnlineFolderRename old new) >>
  if isMove then _actionDone NS_OK else _actionListOrLsub new.

(** ** Uploading *)

(** uploadMessageFromFile up to the file's content, which is awaited. *)
Definition uploadMessageFromFile (dst : folder) (copyState : nat) (isDraft : bool) : act unit :=
  let! mailbox := _getServerFolderName dst in tell (ReadFile mailbox dst copyState isDraft).

Definition file_arrived (mailbox : jsstr) (dst : folder) (copyState : nat) (isDraft : bool)
    (content : jsstr) : act unit :=
  next (NAppend dst copyState content) >>
  (let! info := ask (curMoveCopyMessageInfo dst) in
   let! c := gets id in
   let flagString := flagsToString info.1 (default 0 (_supportedFlags c)) in
   let flagString := flagString ++ (if isDraft && negb (draft_re None flagString)
                                    then js " \Draft" else []) in
   let flagString := flagString ++ (if str_truthy info.2 then SP :: info.2 else []) in
   command (js "APPEND " ++ quote mailbox ++ js " (" ++ trim flagString ++ js ") "
            ++ (if _utf8Enabled c then js "UTF8 (~{" else js "{")
            ++ num_str (slen content) ++ js "}")).

Definition append_response (dst : folder) (copyState : nat) (content : jsstr) (res : ImapResponse) :
    act unit :=
  if negb (tag_is res (js "+")) then _actionDone NS_ERROR_FAILURE
  else
    next (NAppended dst copyState) >>
    (let! u := gets _utf8Enabled in _send (content ++ if u : bool then js ")" else []) false).

Definition appended (dst : folder) (copyState : nat) (res : ImapResponse) : act unit :=
  (this, _folderSink := Some dst) >>
  (let! uidplus := has_cap (js "UIDPLUS") in
   let v := default None (mget (attributes res) (js "appenduid")) in
   match v with
   | Some v' => when (uidplus && value_truthy v) (tell (SetAppendMsgUid dst (elements v' !! 1%nat)))
   | None => skip
   end) >>
  _actionDone NS_OK >>
  when (num_truthy (exists_count res)) (this, folder_ := None) >>
  (let! sink := gets _folderSink in
   match sink with Some f => tell (CopyNextStreamMessage f copyState) | None => skip end).

(** ** IDLE *)

Definition PR_UINT32_MAX : Z := 0xffffffff.

Definition idle : act unit :=
  let! f := gets folder_ in
  match f with
  | None => _actionDone NS_OK
  | Some _ =>
      next NIdle >> command (js "IDLE") >> _setSocketTimeout PR_UINT32_MAX >>
      (this, _idling := true) >> (this, _idleTimer := true) >> tell StartIdleTimer
  end.

(** The timer of [idle]. *)
Definition idleTimerFired : act unit := endIdle EINoop.

(** ** Authentication *)

Definition _actionCapability : act unit := next NCapability >> command (js "CAPABILITY").

Definition next_method (l : list jsstr) (x : jsstr) : option jsstr := l !! Z.to_nat (index_of l x + 1).

(** The [switch] of [_actionAuth]. *)
Definition start_method (m : jsstr) : act unit :=
  let token_method := λ (n : nextAction) (init : A → A * option unit)
      (get : jsstr → A → A * option jsstr) (cmd : jsstr),
    next n >> auth_call init >>
    (let! t := attempt (auth_call (get [])) in
     match t with
     | Some t => _sendTagged (cmd ++ t) true
     | None => _actionDone NS_ERROR_FAILURE
     end) in
  if m ==s js "OLDLOGIN" then next NAuthResponse >> tell (AskPassword UseOldLogin)
  else if m ==s js "PLAIN" then next NAuthPlain >> command (js "AUTHENTICATE PLAIN")
  else if m ==s js "LOGIN" then next NAuthLoginUser >> command (js "AUTHENTICATE LOGIN")
  else if m ==s js "CRAM-MD5" then next NAuthCramMd5 >> command (js "AUTHENTICATE CRAM-MD5")
  else if m ==s js "GSSAPI" then
    token_method NAuthGssapi initGssapiAuth getNextGssapiToken (js "AUTHENTICATE GSSAPI ")
  else if m ==s js "NTLM" then
    token_method NAuthNtlm initNtlmAuth getNextNtlmToken (js "AUTHENTICATE NTLM ")
  else if m ==s js "XOAUTH2" then next NAuthResponse >> tell AskOAuthToken
  else if m ==s js "EXTERNAL" then
    next NAuthResponse >>
    (let! c := gets id in command (js "AUTHENTICATE EXTERNAL " ++ username (_authenticator c)))
  else _actionDone NS_OK.

Definition _actionAuth : act unit :=
  async
    (let! c := gets id in
     match _nextAuthMethod c with
     | None => socket_close >> _actionDone NS_ERROR_FAILURE
     | Some m =>
         (this, _authenticating := true) >> (this, _currentAuthMethod := Some m) >>
         (this, _nextAuthMethod := next_method (_possibleAuthMethods c) m) >>
         start_method m
     end).

Definition _actionChooseFirstAuthMethod : act unit :=
  let! c := gets id in
  if bool_decide (socketType srv = trySTARTTLS ∨ socketType srv = alwaysSTARTTLS_)
     && negb (_secureTransport c) then
    let! tls := has_cap (js "STARTTLS") in
    if tls : bool then next NStarttls >> command (js "STARTTLS")
    else _actionError (js "imapServerDisconnected") >> _actionDone NS_ERROR_FAILURE
  else
    let possible := List.filter (list_has (_supportedAuthMethods c)) (_preferredAuthMethods c) in
    (this, _possibleAuthMethods := possible) >>
    when (bool_decide (possible = []) && bool_decide (authMethod srv = passwordCleartext))
      (let! disabled := has_cap (js "LOGINDISABLED") in
       when (negb disabled) (this, _possibleAuthMethods := [js "OLDLOGIN"])) >>
    (let! c := gets id in
     (this, _nextAuthMethod := head (_possibleAuthMethods c)) >>
     (let! cid := has_cap (js "CLIENTID") in
      if cid && str_truthy (clientid srv)
      then next NClientId >> command (js "CLIENTID UUID " ++ clientid srv)
      else _actionAuth)).

(** The new capabilities of the server, which may be missing. *)
Definition set_capabilities (l : option (list jsstr)) : act unit :=
  (this, _capabilities := l) >> tell (ServerCapabilities l).

Definition _actionCapabilityResponse (res : ImapResponse) : act unit :=
  match capabilities res with
  | Some l =>
      set_capabilities (Some l) >>
      when (list_has l (js "X-GM-EXT-1")) ((this, isGMailServer := true) >> tell ServerIsGMail) >>
      (this, _supportedAuthMethods := default [] (authMethods res)) >>
      _actionChooseFirstAuthMethod
  | None => _actionCapability
  end.

(** [!res.status == "OK"] compares a boolean with "OK", and fails. *)
Definition _actionStarttlsResponse : act unit :=
  (let! s := gets _socket in
   match s with
   | Some s => (this, _socket := Some (mkTCPSocket (readyState s) true)) >> tell UpgradeToSecure
   | None => throw
   end) >>
  (this, _secureTransport := true) >> _actionCapability.

(** The default actions after ID and ENABLE. *)
Definition _actionEnableUtf8 : act unit :=
  let! accept := (if allowUTF8Accept srv then
                    let! a := has_cap (js "UTF8=ACCEPT") in
                    if a : bool then ret true else has_cap (js "UTF8=ONLY")
                  else ret false) in
  if accept : bool then
    next NEnableUtf8 >> command (js "ENABLE UTF8=ACCEPT")
  else (this, _utf8Enabled := false) >> _discoverAllFoldersIfNecessary.

Definition _actionId : act unit :=
  let! i := has_cap (js "ID") in
  if i && str_truthy (appName ev) then
    next NId >>
    command (js "ID (" ++ quote (js "name") ++ SP :: quote (appName ev) ++ SP :: quote (js "version")
             ++ SP :: quote (appVersion ev) ++ js ")")
  else _actionEnableUtf8.

Definition password_methods : list jsstr := [js "OLDLOGIN"; js "PLAIN"; js "LOGIN"; js "CRAM-MD5"].

Definition _actionAuthResponse (res : ImapResponse) : act unit :=
  (this, _authenticating := false) >>
  (let! c := gets id in
   if verifyLogon c then _actionDone (if status_is res (js "OK") then NS_OK else NS_ERROR_FAILURE)
   else if status_is res (js "OK") then
     tell UserAuthenticated >>
     match capabilities res with
     | Some l => set_capabilities (Some l) >> _actionId
     | None => next NAuthCapability >> command (js "CAPABILITY")
     end
   else if match _currentAuthMethod c with Some m => list_has password_methods m | None => false end then
     let! action := auth_call (λ a, let '(a', n) := promptAuthFailed a in (a', Some n)) in
     if action =? 1 then socket_close >> _actionDone NS_ERROR_FAILURE
     else
       when (action =? 2) (auth_call (λ a, (forgetPassword a, Some tt))) >>
       (this, _nextAuthMethod := head (_possibleAuthMethods c)) >>
       _actionAuth
   else _actionDone NS_ERROR_FAILURE).

(** [btoa], which throws on characters above 255. *)
Definition btoa_or_throw (s : jsstr) : act jsstr :=
  if forallb (λ c, c <? 256) s then ret (btoa s) else throw.

(** The continuations of [await this._getPassword()]. *)
Definition password_used (use : password_use) (pw : jsstr) : act unit :=
  match use with
  | UseOldLogin =>
      let! c := gets id in
      _sendTagged (js "LOGIN " ++ username (_authenticator c) ++ SP :: pw) true
  | UseLoginPass => let! b := btoa_or_throw (utf8 ev pw) in _send b true
  | UseCramMd5 challenge =>
      let! t := auth_call (getCramMd5Token (Some pw) (default [] challenge)) in _send t true
  end.

(** [_getPassword] when the authenticator has answered. *)
Definition password_arrived (use : password_use) (r : password) : act unit :=
  match r with
  | Password pw => password_used use pw
  | PasswordAborted => _actionDone NS_ERROR_ABORT >> throw
  | PasswordThrew => throw
  end.

(** The ends of [await getPlainToken()] and [await getOAuthToken()]. *)
Definition plain_token_arrived (token : option jsstr) : act unit :=
  match token with Some t => _send t true | None => throw end.
Definition oauth_token_arrived (token : option jsstr) : act unit :=
  match token with Some t => _sendTagged (js "AUTHENTICATE XOAUTH2 " ++ t) true | None => throw end.

Definition _actionAuthPlain : act unit := next NAuthResponse >> tell AskPlainToken.

Definition _actionAuthLoginUser : act unit :=
  next NAuthLoginPass >>
  (let! c := gets id in
   let! u := btoa_or_throw (username (_authenticator c)) in _send u true).

Definition _actionAuthLoginPass : act unit := next NAuthResponse >> tell (AskPassword UseLoginPass).

Definition _actionAuthCramMd5 (res : ImapResponse) : act unit :=
  next NAuthResponse >> tell (AskPassword (UseCramMd5 (statusText res))).

(** The next step of GSSAPI and NTLM; a missing challenge is passed as it is. *)
Definition next_token (get : jsstr → A → A * option jsstr) (res : ImapResponse) : act unit :=
  if negb (tag_is res (js "+")) then _actionAuthResponse res
  else
    let! t := attempt (auth_call (get (default [] (statusText res)))) in
    match t with Some t => _send t true | None => _actionAuthResponse res end.

Definition _actionAuthGssapi (res : ImapResponse) : act unit := next_token getNextGssapiToken res.
Definition _actionAuthNtlm (res : ImapResponse) : act unit := next_token getNextNtlmToken res.

Definition clientid_response (res : ImapResponse) : act unit :=
  if status_is res (js "OK") then _actionAuth else _actionDone NS_ERROR_FAILURE.

Definition auth_capability (res : ImapResponse) : act unit :=
  set_capabilities (capabilities res) >> _actionId.

Definition id_response (res : ImapResponse) : act unit :=
  tell (ServerID (id_line res)) >> _actionEnableUtf8.

Definition utf8_response (res : ImapResponse) : act unit :=
  let ok := status_is res (js "OK") in
  (this, _utf8Enabled := ok) >> tell (Utf8AcceptEnabled ok) >> _discoverAllFoldersIfNecessary.

(** ** Messages and the state of a folder *)

(** A call on [this.folder], which may be null. *)
Definition on_folder (k : folder → act unit) : act unit :=
  let! f := gets folder_ in match f with Some f => k f | None => throw end.

Definition response_field (r : ImapResponse) (x : jsstr) : option field_value := mget (fields r) x.
Definition attribute_of (r : ImapResponse) (x : jsstr) : option value := default None (mget (attributes r) x).

Definition _getMailboxSpec : act mailboxSpec :=
  let! c := gets id in
  let! st := or_throw (_folderState c) in
  ret (mkMailboxSpec (response_field st (js "uidvalidity")) (flags st) (supportedUserFlags st)
         (attribute_of st (js "uidnext")) (Z.of_nat (length (_messages c)))
         (attribute_of st (js "unseen")) (_messageUids c, _messages c)).

(** [folder.headerFetchCompleted(this)], which may call [NotifyBodysToDownload]. *)
Definition headerFetchCompleted (f : folder) : act unit :=
  tell (HeaderFetchCompleted f) >>
  (let! keys := ask (notifiedBodys f) in
   match keys with Some keys => this, _bodysToDownload := Some keys | None => skip end).

(** The end of a header fetch: the bodies the folder wants, or the request is done. *)
Definition fetch_bodys : act unit :=
  let! keys := gets _bodysToDownload in
  let! keys := or_throw keys in
  match keys with
  | [] => _actionDone NS_OK
  | _ => next NFetchBody >>
         command (js "UID FETCH " ++ join (js ",") (map num_str keys)
                  ++ js " (UID RFC822.SIZE FLAGS BODY.PEEK[])")
  end.

Definition _actionUidFetchHeaderResponse : act unit := on_folder headerFetchCompleted >> fetch_bodys.

Definition _actionUidFetchResponse : act unit :=
  on_folder (λ f,
    let! highestUid := ask (highestRecordedUID f) in
    (this, _folderSink := Some f) >>
    (let! spec := _getMailboxSpec in tell (UpdateImapMailboxInfo f spec)) >>
    (let! c := gets id in
     match uid_gt (last_uid (_messageUids c)) highestUid with
     | Some latestUid =>
         next NFetchHeader >>
         command (js "UID FETCH " ++ num_str (highestUid + 1) ++ js ":" ++ num_str latestUid
                  ++ SP :: header_items c)
     | None => headerFetchCompleted f >> fetch_bodys
     end)).

Definition _actionUidFetchBodyResponse : act unit := _actionDone NS_OK.

Definition _actionGetQuotaData : act unit :=
  on_folder (λ f,
    (this, _folderSink := Some f) >> next NQuota >>
    (let! n := _getServerFolderName f in command (js "GETQUOTAROOT " ++ quote n)) >>
    tell (QuotaCommandIssued f)).

(** A row of QUOTA: [mailbox ? `${mailbox} / ${resource}` : resource]. *)
Definition quota_data (f : folder) (q : option value * list value) : act unit :=
  let resource := q.2 !! 0%nat in
  tell (SetFolderQuotaData f STORE_QUOTA
    (if value_truthy q.1 then Some (Str (value_text q.1 ++ js " / " ++ value_text resource))
     else resource) (q.2 !! 1%nat) (q.2 !! 2%nat)).

Definition quota_response (res : ImapResponse) : act unit :=
  (let! sink := gets _folderSink in
   let! f := or_throw sink in
   for_each (default [] (quotaRoots res)) (λ root,
     tell (SetFolderQuotaData f INVALIDATE_QUOTA (Some root) (Some (Str (js "0"))) (Some (Str (js "0"))))) >>
   for_each (default [] (quotas res)) (quota_data f) >>
   tell (SetFolderQuotaData f VALIDATE_QUOTA (Some (Str [])) (Some (Str (js "0"))) (Some (Str (js "0"))))) >>
  after_select.

(** [permanentflags || flags]. *)
Definition supported_flags (res : ImapResponse) : option Z :=
  match permanentflags res with Some (Zpos _ as n) | Some (Zneg _ as n) => Some n | _ => flags res end.

Definition _actionSelectResponse (f : option folder) (res : ImapResponse) : act unit :=
  match f with Some f => this, folder_ := Some f | None => skip end >>
  (this, _supportedFlags := supported_flags res) >>
  (this, _folderState := Some res) >>
  (let! quota := has_cap (js "QUOTA") in if quota : bool then _actionGetQuotaData else after_select).

(** The flags of a message. *)
Definition message_flags (f : folder) (msg : MessageData) : act unit :=
  match m_flags msg with
  | Some fl =>
      when (uid_truthy (uid msg) || num_truthy (sequence msg))
        ((if uid_truthy (uid msg) && num_truthy (sequence msg) then
            (this, _messageUids ::= <[sequence msg := uid msg]>) >>
            (this, _messages ::= λ l, mset l (uid msg) msg)
          else skip) >>
         (let! c := gets id in
          let u := if uid_truthy (uid msg) then uid msg
                   else default None (_messageUids c !! sequence msg) in
          match u with
          | Some n =>
              when (num_truthy n)
                (let! st := or_throw (_folderState c) in
                 tell (NotifyMessageFlags f fl (keywords msg) n (response_field st (js "highestmodseq"))))
          | None => skip
          end))
  | None => skip
  end.

Definition message_header (f : folder) (msg : MessageData) (body : jsstr) : act unit :=
  (this, _messageUids ::= <[sequence msg := uid msg]>) >>
  (this, _messages ::= λ l, mset l (uid msg) msg) >>
  tell (StartMessage f) >>
  tell (ParseMsgHdrs f (uid msg) (size msg) (msgHdrs body)).

Definition message_body (f : folder) (msg : MessageData) (body : jsstr) : act unit :=
  (let! keep := ask (shouldStoreMsgOffline f (uid msg)) in
   let! c := gets id in
   let! keep := (if default false keep then ret true
                 else let! u := or_throw (runningUri c) in ret (storeResultsOffline u)) in
   when keep
     (tell (StartMessage f) >> tell (ParseAdoptedMsgLine f body (uid msg)) >>
      tell (NormalEndMsgWriteStream f (uid msg) (slen body)) >> tell (EndMessage f (uid msg)))) >>
  call_onData body.

Definition _onMessage (msg : MessageData) : act unit :=
  on_folder (λ f,
    (this, _folderSink := Some f) >>
    message_flags f msg >>
    (let body := default [] (body msg) in
     when (str_truthy body)
       (let body := if endsWith body CRLF then body else body ++ CRLF in
        let! section := or_throw (bodySection msg) in
        if is_header_section section then message_header f msg body else message_body f msg body))).

(** [folder.UpdateImapMailboxInfo] of an empty folder; the messages are forgotten. *)
Definition forget_messages : act unit := (this, _messageUids := ∅) >> (this, _messages := []).

Definition resync_needed (exists_ : num) (st : option ImapResponse) : act bool :=
  if num_truthy exists_ then
    let! st := or_throw st in ret (negb (bool_decide (exists_ = exists_count st)))
  else ret false.

Definition _actionNoopResponse (res : ImapResponse) : act unit :=
  let! st := gets _folderState in
  let gone := (0 <? length (expunged res))%nat in
  let! changed := resync_needed (exists_count res) st in
  if changed || gone then
    (let! st := or_throw st in
     this, _folderState := Some (st <| exists_count := exists_count res |>)) >>
    (this, _actionAfterSelectFolder := Some FUidFetch) >> next (NSelect None) >>
    when gone forget_messages >>
    on_folder (λ f, (this, folder_ := None) >> selectFolder f)
  else if (0 <? length (messages res))%nat || num_truthy (exists_count res) then
    on_folder (λ f,
      let! highestUid := ask (highestRecordedUID f) in
      next NFetch >> command (js "UID FETCH " ++ num_str (highestUid + 1) ++ js ":* (FLAGS)"))
  else
    when (bool_decide (exists_count res = Some 0))
      (forget_messages >>
       on_folder (λ f, let! spec := _getMailboxSpec in tell (UpdateImapMailboxInfo f spec))) >>
    (let! i := gets _idling in when (negb i) (_actionDone NS_OK)).

(** ** Responses *)

Definition attribute_response (attribute : jsstr) (res : ImapResponse) : act unit :=
  when (done res)
    (let results := attribute_results attribute (messages res) in
     (let! u := gets runningUri in
      match u with
      | Some _ =>
          tell (CustomAttributeResult
            (if (1 <? length results)%nat
             then Some (Str (js "(" ++ join_values results ++ js ")"))
             else default None (head results)))
      | None => throw
      end) >>
     _actionDone NS_OK).

(** [res.attributes.messages.length]: of a string, its number of characters. *)
Definition status_response (f : folder) (res : ImapResponse) : act unit :=
  when (status_is res (js "OK"))
    (let! m := or_throw (attribute_of res (js "messages")) in
     tell (UpdateImapMailboxStatus f (attribute_of res (js "uidnext")) (Z.of_nat (length (elements m)))
             (attribute_of res (js "unseen"))) >>
     tell (ClearMsgDatabase f)) >>
  _actionDone NS_OK.

Definition search_response (res : ImapResponse) : act unit :=
  (let! f := gets onData in
   match f with
   | Some b => when b (tell (OnSearch (ImapResponse.search res)))
   | None => throw
   end) >>
  _actionDone NS_OK.

Definition idle_response (res : ImapResponse) : act unit :=
  when (tag_is res (js "*"))
    (on_folder (λ f, tell (PerformingBiff f)) >> _actionNoopResponse res).

Definition run_end_idle (k : end_idle) : act unit :=
  match k with
  | EINoop => _actionNoop
  | EISend n str s => (this, _nextAction := n) >> _sendTagged str s
  end.

Definition idle_ended (k : end_idle) (res : ImapResponse) : act unit :=
  when (status_is res (js "OK")) (run_end_idle k).

(** The call of [_nextAction]. *)
Definition run_next (n : nextAction) (res : ImapResponse) : act unit :=
  match n with
  | NGreeting => (this, _greeted := true) >> _actionCapabilityResponse res
  | NCapability => _actionCapabilityResponse res
  | NStarttls => _actionStarttlsResponse
  | NClientId => clientid_response res
  | NAuthResponse => _actionAuthResponse res
  | NAuthPlain => _actionAuthPlain
  | NAuthLoginUser => _actionAuthLoginUser
  | NAuthLoginPass => _actionAuthLoginPass
  | NAuthCramMd5 => _actionAuthCramMd5 res
  | NAuthGssapi => _actionAuthGssapi res
  | NAuthNtlm => _actionAuthNtlm res
  | NAuthCapability => auth_capability res
  | NId => id_response res
  | NEnableUtf8 => utf8_response res
  | NDiscoverExtended => handleListResponse (mailboxes res) >> _actionFinishFolderDiscovery
  | NDiscoverList => next (NDiscoverLsub (mailboxes res)) >> command lsub_command
  | NDiscoverLsub lists =>
      handleListResponse (merge_flags lists (mailboxes res)) >> _actionFinishFolderDiscovery
  | NAllLsub =>
      for_each (mailboxes res) possibleImapMailbox >> tell (DoingLsub false) >>
      next (NAllList (mailboxes res)) >> command (list_command (js "*"))
  | NAllList lsubs =>
      for_each (merge_flags lsubs (mailboxes res)) possibleImapMailbox >> _actionDone NS_OK
  | NSelect f => _actionSelectResponse f res
  | NQuota => quota_response res
  | NRename old new m => _actionRenameResponse old new m
  | NRenameSubscribed old new m => rename_subscribed old new m
  | NRenameUnsubscribed old new m => rename_unsubscribed old new m
  | NList after => _actionListResponse after res
  | NTrashCreated n => _actionList n (LTrashCreated n)
  | NFinish => _actionFinishFolderDiscovery
  | NDeleteList f =>
      let! n := _getServerFolderName f in delete_next f n (sort_longest (mailboxes res)) false
  | NDeleteNext f self mbs b => delete_next f self mbs b
  | NEnsure n =>
      match mailboxes res with [] => _actionCreateAndSubscribe n | _ => _actionDone NS_OK end
  | NCreated n => next (NSubscribed n) >> command (js "SUBSCRIBE " ++ quote n)
  | NSubscribed n => _actionList n LDone
  | NPerformExpand => tell PerformExpand
  | NAttribute a => attribute_response a res
  | NExpunge f => expunge f
  | NSearch => search_response res
  | NFetch => _actionUidFetchResponse
  | NFetchHeader => _actionUidFetchHeaderResponse
  | NFetchBody => _actionUidFetchBodyResponse
  | NNoop => _actionNoopResponse res
  | NDone => _actionDone NS_OK
  | NSubtract sub uids => subtractFlags sub uids
  | NAppend dst cs content => append_response dst cs content res
  | NAppended dst cs => appended dst cs res
  | NStatus f => status_response f res
  | NIdle => idle_response res
  | NEndIdle k => idle_ended k res
  end.

(** The messages a parse gave to [_onMessage], which may throw: then the index of
    the one that did. *)
Fixpoint deliver (i : nat) (o : list ImapResponse.event) : act (option nat) :=
  match o with
  | [] => ret None
  | OnMessage m :: o' =>
      let! ok := attempt (_onMessage m) in
      match ok with Some _ => deliver (S i) o' | None => ret (Some i) end
  | Overwrites x :: o' => tell (ResponseOverwrites x) >> deliver i o'
  end.

(** [this._response.parse(str)] with [_onMessage] as its onMessage, which does not
    touch the response: where it throws, so does the parser there. *)
Definition parse_response (r : ImapResponse) (str : jsstr) : act unit :=
  let result := λ k, parse str (r <| onMessage := k |>) in
  let keep := λ r' : ImapResponse, this, _response := Some (r' <| onMessage := None |>) in
  let '(r1, o, x) := result None in
  let! k := deliver 0 o in
  match k with
  | Some _ => keep (result k).1.1 >> throw
  | None => keep r1 >> match x with Some _ => skip | None => throw end
  end.

(** The response the next data belongs to: a new one when the last is done, and
    for every chunk while idling. *)
Definition current_response (c : client) : ImapResponse :=
  match _response c with
  | Some r => if _idling c || done r then newImapResponse else r
  | None => newImapResponse
  end.

Definition failed (c : client) (r : ImapResponse) : bool :=
  negb (_authenticating c) && done r && value_truthy (status r) && negb (tag_is r (js "+"))
  && negb (status_ok r).

(** [_onData] from its timer on. *)
Definition on_chunk (data : jsstr) : act unit :=
  (let! c := gets id in
   let stringPayload := if _utf8Enabled c then utf8_decode ev data else data in
   (this, _response := Some (current_response c)) >>
   parse_response (current_response c) stringPayload) >>
  (let! c := gets id in
   let! r := or_throw (_response c) in
   if failed c r then _actionDone NS_MSG_ERROR_IMAP_COMMAND_FAILED
   else when (negb (_greeted c) || _idling c || done r)
          match _nextAction c with Some n => run_next n r | None => skip end).

(** [_onData] up to its timer, and the timers of the data events, in order. *)
Definition _onData (data : jsstr) : act unit := this, deferred ::= λ l, l ++ [data].
Definition run_deferred : act unit :=
  let! l := gets deferred in
  match l with
  | [] => skip
  | data :: l' => (this, deferred := l') >> on_chunk data
  end.

(** ** The socket's events *)

Definition set_readyState (st : readyState_t) : act unit :=
  this, _socket ::= option_map (λ s, mkTCPSocket st (ssl s)).

Definition _onOpen : act unit :=
  set_readyState Open >> next NGreeting >> _setSocketTimeout (tcpTimeout ev).

(** A timeout, or another error, whose security information is awaited. *)
Definition _onError (timeout : bool) (code : Z) : act unit :=
  if timeout then _actionError (js "imapNetTimeoutError") >> _actionDone NS_ERROR_NET_TIMEOUT
  else tell (AskSecurityInfo code).

Definition security_info_arrived (code : Z) (secInfo : bool) : act unit :=
  (if secInfo then
     (let! u := gets runningUri in match u with Some _ => tell FailedSecInfo | None => throw end) >>
     tell CloseCachedConnections
   else logout) >>
  _actionDone (NetworkError code).

(** The close event of the current socket; that of a socket which [connect] has
    replaced meanwhile is not an input of the model. *)
Definition _onClose : act unit := set_readyState Closed >> (this, folder_ := None).

(** ** The inputs of the client *)

Inductive request :=
  | DiscoverAllFolders | DiscoverAllAndSubscribedFolders | SelectFolder (f : folder)
  | RenameFolder (f : folder) (newName : jsstr) | MoveFolder (src dst : folder)
  | ListFolder (f : folder) | DeleteFolder (f : folder)
  | EnsureFolderExists (parent : folder) (name : jsstr) | CreateFolder (parent : folder) (name : jsstr)
  | SubscribeFolder (name : jsstr) | UnsubscribeFolder (name : jsstr)
  | FetchMsgAttribute (uids attribute : jsstr) | DeleteAllMessages (f : folder)
  | Search (f : folder) (cmd : jsstr) | FetchMessage (f : folder) (uid : Z) (size : option Z)
  | UpdateMessageFlags (action : jsstr) (f : folder) (ids : jsstr) (flags : Z)
  | Expunge (f : folder) | Copy (f dst : folder) (ids : jsstr) (idsAreUids isMove : bool)
  | UploadMessageFromFile (dst : folder) (copyState : nat) (isDraft : bool)
  | UpdateFolderStatus (f : folder) | StoreCustomKeywords (f : folder) (add subtract uids : jsstr)
  | GetHeaders (f : folder) (uids : list jsstr) | Idle.

Definition run_request (r : request) : act unit :=
  match r with
  | DiscoverAllFolders => discoverAllFolders
  | DiscoverAllAndSubscribedFolders => discoverAllAndSubscribedFolders
  | SelectFolder f => selectFolder f
  | RenameFolder f n => renameFolder f n
  | MoveFolder src dst => moveFolder src dst
  | ListFolder f => listFolder f
  | DeleteFolder f => deleteFolder f
  | EnsureFolderExists p n => ensureFolderExists p n
  | CreateFolder p n => createFolder p n
  | SubscribeFolder n => subscribeFolder n
  | UnsubscribeFolder n => unsubscribeFolder n
  | FetchMsgAttribute uids a => fetchMsgAttribute uids a
  | DeleteAllMessages f => deleteAllMessages f
  | Search f cmd => search f cmd
  | FetchMessage f uid size => fetchMessage f uid size
  | UpdateMessageFlags action f ids flags => updateMessageFlags action f ids flags
  | Expunge f => expunge f
  | Copy f dst ids a b => copy f dst ids a b
  | UploadMessageFromFile dst cs d => uploadMessageFromFile dst cs d
  | UpdateFolderStatus f => updateFolderStatus f
  | StoreCustomKeywords f a s uids => storeCustomKeywords f a s uids
  | GetHeaders f uids => getHeaders f uids
  | Idle => idle
  end.

Inductive input :=
  | IConnect                                  (* the caller *)
  | IStartRunningUrl (urlListener msgWindow : bool) (u : option url)
  | ISetUrl (u : url)                         (* attributes of the running URL *)
  | ISetOnData | ISetOnDone | ISetChannel | IVerifyLogon | IForgetFolder
  | IRequest (r : request)
  | ILogout
  | IOpen                                     (* the socket *)
  | IData (data : jsstr)
  | IDeferred                                 (* the timer of a data event *)
  | IError (timeout : bool) (code : Z)
  | IClosed
  | IIdleTimer
  | IPassword (use : password_use) (r : password)   (* what was awaited *)
  | IPlainToken (token : option jsstr)
  | IOAuthToken (token : option jsstr)
  | ISecurityInfo (code : Z) (secInfo : bool)
  | IFile (mailbox : jsstr) (dst : folder) (copyState : nat) (isDraft : bool) (content : jsstr).

Definition handle (i : input) : act unit :=
  match i with
  | IConnect => connect
  | IStartRunningUrl l w u => startRunningUrl l w u
  | ISetUrl u => this, runningUri := Some u
  | ISetOnData => this, onData := Some true
  | ISetOnDone => this, onDone := Some true
  | ISetChannel => this, channel := true
  | IVerifyLogon => this, verifyLogon := true
  | IForgetFolder => this, folder_ := None
  | IRequest r => run_request r
  | ILogout => logout
  | IOpen => _onOpen
  | IData data => _onData data
  | IDeferred => run_deferred
  | IError timeout code => _onError timeout code
  | IClosed => _onClose
  | IIdleTimer => idleTimerFired
  | IPassword use r => password_arrived use r
  | IPlainToken t => plain_token_arrived t
  | IOAuthToken t => oauth_token_arrived t
  | ISecurityInfo code b => security_info_arrived code b
  | IFile mailbox dst cs d content => file_arrived mailbox dst cs d content
  end.

(** A run: what is thrown by one handler does not reach the next. *)
Definition run (inputs : list input) : act unit := for_each inputs (λ i, async (handle i)).
End Methods.

Lemma imap_run_cons {A F} `{Authenticator A} `{ImapFolders F} srv ev i is' (c : ImapClient A F) :
  run srv ev (i :: is') c
  = let '(c1, o1, _) := handle srv ev i c in
    let '(c2, o2, r) := run srv ev is' c1 in (c2, o1 ++ o2, r).
Proof.
  unfold run. cbn [for_each]. set (rest := for_each is' _). unfold bind, async, catch.
  destruct (handle srv ev i c) as [[c1 o1] [[]|]]; [done|]. cbn. by rewrite app_nil_r.
Qed.

Lemma imap_run_app {A F} `{Authenticator A} `{ImapFolders F} srv ev is1 is2 (c : ImapClient A F) :
  run srv ev (is1 ++ is2) c
  = let '(c1, o1, _) := run srv ev is1 c in
    let '(c2, o2, r) := run srv ev is2 c1 in (c2, o1 ++ o2, r).
Proof.
  revert c. induction is1 as [|i is1 IH]; intros c.
  - cbn [app]. change (run srv ev [] c) with (c, [] : list event, Some tt).
    cbn beta iota. by destruct (run srv ev is2 c) as [[? ?] ?].
  - cbn [app]. rewrite !imap_run_cons. destruct (handle srv ev i c) as [[c1 o1] r1].
    rewrite IH. destruct (run srv ev is1 c1) as [[c2 o2] r2].
    destruct (run srv ev is2 c2) as [[c3 o3] r3]. by rewrite (assoc_L (++)).
Qed.

(** ** An instance of the outside, for examples *)

(** Two folders, INBOX and another; nothing is stored. *)
#[export] Instance sampleFolders : ImapFolders unit := {|
  isServer := λ _ _, false;
  onlineName := λ f _, if bool_decide (f = 0%nat) then js "INBOX" else js "Work";
  hierarchyDelimiter := λ _ _, js "/";
  URI := λ f _, if bool_decide (f = 0%nat) then js "imap://user@mx/INBOX" else js "imap://user@mx/Work";
  folderName := λ f _, if bool_decide (f = 0%nat) then js "INBOX" else js "Work";
  hasMsgOffline := λ _ _ _, false;
  shouldStoreMsgOffline := λ _ _ _, Some false;
  highestRecordedUID := λ _ _, 0;
  notifiedBodys := λ _ _, Some [];
  curMoveCopyMessageInfo := λ _ _, (0, []);
  hasDiscoveredFolders := λ _, true;
  sees := λ _ s, s
|}.

Definition sampleEnv : env := mkEnv 100 [] [] (λ s, s) (λ s, s) (λ s, s) Closing.

Definition sampleServer (t : nsMsgSocketType) (m : nsMsgAuthMethod) : ImapServer :=
  mkImapServer t m (js "mx.example.org") 143 [] false (js "Trash") 7.

(** A client of [sampleServer]. *)
Definition sampleClient (t : nsMsgSocketType) (m : nsMsgAuthMethod) : ImapClient unit unit :=
  newImapClient (sampleServer t m) false 0 tt tt.

(** A chunk of data, and its handler. *)
Definition chunk (s : jsstr) : list input := [IData s; IDeferred].
Definition line (s : jsstr) : list input := chunk (s ++ CRLF).
