(* ===== verification/ImapSafety.v ===== *)
(** * ImapSafety: what the IMAP client sends in clear

    Theorems on the state machine of ImapClient.v: that nothing but the commands
    that lead to STARTTLS is sent on an insecure connection when the server's
    settings require STARTTLS, and the ways the code escapes its own intention. *)

From S2P Require Import Prelude Effects MimeUtils Net Auth ImapUtils ImapResponse ImapClient.

Section Safety.
Context {A F : Type} `{Authenticator A} `{ImapFolders F}.
Variable srv : ImapServer.
Variable ev : env.
Abbreviation client := (ImapClient A F).
Abbreviation act := (eff client event).

(** ** Invariants *)

(** The connection is open and not secure. *)
Definition cleartext (c : client) : Prop := _socket c = Some (mkTCPSocket Open false).
#[local] Instance cleartext_dec (c : client) : Decision (cleartext c).
Proof.
  unfold cleartext. destruct (_socket c) as [[r b]|]; [|by right].
  destruct (decide (r = Open)) as [->|]; [destruct b; [by right|by left]|right; congruence].
Defined.

(** What is sent in clear, without the tag. *)
Definition early_command (str : jsstr) : Prop :=
  str ∈ [js "CAPABILITY"; js "STARTTLS"; js "LOGOUT"].

(** The functions that lead to STARTTLS, and those of a DONE sent before such a
    command. *)
Inductive early : option nextAction → Prop :=
  | early_none : early None
  | early_greeting : early (Some NGreeting)
  | early_capability : early (Some NCapability)
  | early_starttls : early (Some NStarttls)
  | early_end_idle n str :
      early n → early_command str → early (Some (NEndIdle (EISend n str false))).

(** A line on the wire. *)
Definition wire_of (d str : jsstr) : Prop :=
  d = utf8 ev (str ++ CRLF) ∨ d = byteStringToUint8Array (str ++ CRLF).

Definition clear_ok (e : event) : Prop :=
  match e with
  | Send false suppressed d =>
      suppressed = false ∧
      (wire_of d (js "DONE") ∨ ∃ tag str, early_command str ∧ wire_of d (num_str tag ++ SP :: str))
  | _ => True
  end.

(** The client knows whether its socket is secure. *)
Definition base (s : option TCPSocket) (sec : bool) : Prop :=
  sec = true → ∀ s0, s = Some s0 → ssl s0 = true.

(** [J]: the connection is not in clear.  [I]: when it is, the next action is an
    early one. *)
Definition J (c : client) : Prop := base (_socket c) (_secureTransport c) ∧ ¬ cleartext c.
Definition I (c : client) : Prop :=
  base (_socket c) (_secureTransport c) ∧ (cleartext c → early (_nextAction c)).

Lemma imap_J_I c : J c → I c.
Proof. intros [H1 H2]. by split. Qed.

Lemma imap_I_not_cleartext c : I c → ¬ cleartext c → J c.
Proof. intros [H1 _] H2. by split. Qed.

Hypothesis starttls : socketType srv = trySTARTTLS ∨ socketType srv = alwaysSTARTTLS_.
(** The documented behaviour of close: the socket is no longer open. *)
Hypothesis closing_not_open : closing ev ≠ Open.

Lemma tell_safe (P : client → Prop) e :
  (∀ c f, P c → P (c <| folders := f |>)) → clear_ok e → safe_from P clear_ok (tell e : act unit).
Proof.
  intros HP He. unfold tell. apply safe_bind; [|intros _; by apply safe_emit].
  apply safe_modify. intros c Hc. by apply HP.
Qed.

Lemma tell_J e : clear_ok e → safe_from J clear_ok (tell e : act unit).
Proof. by apply tell_safe. Qed.

Lemma tell_I e : clear_ok e → safe_from I clear_ok (tell e : act unit).
Proof. by apply tell_safe. Qed.

Lemma send_J str s : safe_from J clear_ok (_send ev str s : act unit).
Proof.
  apply safe_bind_gets. intros c HJ. unfold id.
  destruct (_socket c) as [[r b]|] eqn:Es; [|by apply (safe_skip J)].
  unfold isOnline. rewrite Es. cbn [readyState ssl]. case_bool_decide as Hr; [|by apply (safe_skip J)].
  cbn [when]. apply tell_J; [|done]. subst r. destruct b; [done|]. by destruct HJ.
Qed.

Lemma socket_close_I : safe_to I clear_ok J (socket_close ev : act unit).
Proof.
  apply safe_to_bind_gets. intros c [Hb Hc] c' [_ ->].
  destruct (_socket c) as [s|] eqn:Es.
  - rewrite bind_modify. apply tell_J; [done|]. split; cbn.
    + intros Hs s0 [= <-]. cbn. by apply Hb.
    + unfold cleartext. cbn. intros [= Hcl _]. case_bool_decide; [done|by apply closing_not_open].
  - cbn. split; [|done]. split; [by rewrite Es|]. unfold cleartext. by rewrite Es.
Qed.

Lemma socket_close_J : safe_from J clear_ok (socket_close ev : act unit).
Proof. eapply safe_to_weaken; [apply imap_J_I|done|apply socket_close_I]. Qed.

Lemma imap_auth_call_J {X} (f : A → A * option X) : safe_from J clear_ok (auth_call f : act X).
Proof. intros c Hc. unfold auth_call. by destruct (f (_authenticator c)) as [a r]. Qed.

Lemma imap_connect_safe (P : client → Prop) :
  (∀ c, P c → I c) → (∀ c, J c → P c) → (∀ c f, P c → P (c <| folders := f |>)) →
  safe_from P clear_ok (connect srv ev : act unit).
Proof.
  intros HI HJ HP c Hc. unfold connect. rewrite bind_gets. unfold id. destruct (isOnline c).
  - eapply (safe_bind P); [by apply tell_safe|intros _|exact Hc].
    apply safe_bind; [apply safe_gets|]. intros [s|]; [by apply tell_safe|apply safe_throw].
  - rewrite !bind_modify. apply tell_safe; [done|done|]. apply HJ. split; cbn.
    + rewrite bool_decide_eq_false_2 by (destruct starttls; congruence). done.
    + by unfold cleartext; cbn.
Qed.

(** Proves that a method preserves [J]. *)
Ltac jsafe_with tac :=
  safe_unfold ltac:(first [ tac | apply tell_J; exact Logic.I | apply send_J | apply socket_close_J
                          | apply imap_auth_call_J ]).

Lemma imap_upgrade_safe : safe_to I clear_ok (λ c, J c ∧ ∀ s, _socket c = Some s → ssl s = true)
  ((let! s := gets _socket in
    match s with
    | Some s => (this, _socket := Some (mkTCPSocket (readyState s) true)) >> tell UpgradeToSecure
    | None => throw
    end) : act unit).
Proof.
  apply safe_to_bind_gets. intros c [Hb Hc] c' [_ ->].
  destruct (_socket c) as [s|] eqn:Es.
  - rewrite bind_modify. unfold tell. rewrite bind_modify, emit_run. split; [|by repeat constructor].
    split; [|by intros ? [= <-]]. split; [by intros _ ? [= <-]|by unfold cleartext].
  - cbn. split; [|done]. split; [|by rewrite Es]. split; [by rewrite Es|]. unfold cleartext. by rewrite Es.
Qed.

Lemma J_starttls : safe_to I clear_ok J (_actionStarttlsResponse ev : act unit).
Proof.
  unfold _actionStarttlsResponse. eapply safe_to_bind; [apply imap_upgrade_safe|by intros c [? _]|].
  intros _. eapply safe_to_bind_modify with (R := J).
  - intros c [[_ Hc] Hs]. split; [|exact Hc]. intros _. apply Hs.
  - jsafe_with fail.
Qed.

Lemma J_done s : safe_from J clear_ok (_actionDone s : act unit).
Proof. jsafe_with fail. Qed.

(** ** Not in clear: every method *)

Lemma J_sendTagged str s : safe_from J clear_ok (_sendTagged ev str s : act unit).
Proof. jsafe_with fail. Qed.

Lemma J_actionAuth : safe_from J clear_ok (_actionAuth ev : act unit).
Proof. jsafe_with ltac:(first [apply J_sendTagged | apply J_done]). Qed.

Lemma J_in_folder a : safe_from J clear_ok (run_in_folder ev a : act unit).
Proof. jsafe_with ltac:(first [apply J_sendTagged | apply J_done]). Qed.

Lemma J_serverFolderName f : safe_from J clear_ok (_getServerFolderName ev f : act jsstr).
Proof. jsafe_with fail. Qed.

Ltac jmethods := jsafe_with ltac:(first
  [ apply J_sendTagged | apply J_done | apply J_actionAuth | apply J_in_folder
  | apply J_serverFolderName ]).

Lemma J_select f a : safe_from J clear_ok (select ev f a : act unit).
Proof. jmethods. Qed.

Lemma J_request r : safe_from J clear_ok (run_request ev r : act unit).
Proof. destruct r; cbn [run_request]; jmethods. Qed.

Lemma J_capability res : safe_from J clear_ok (_actionCapabilityResponse srv ev res : act unit).
Proof. jmethods. Qed.

Lemma J_finish : safe_from J clear_ok (_actionFinishFolderDiscovery srv ev : act unit).
Proof. jmethods. Qed.

Lemma J_id : safe_from J clear_ok (_actionId srv ev : act unit).
Proof. jmethods. Qed.

Lemma J_authResponse res : safe_from J clear_ok (_actionAuthResponse srv ev res : act unit).
Proof. jsafe_with ltac:(first [apply J_id | apply J_sendTagged | apply J_done | apply J_actionAuth]). Qed.

Lemma J_run_next n res : safe_from J clear_ok (run_next srv ev n res : act unit).
Proof.
  destruct n; cbn [run_next]; jsafe_with ltac:(first
    [ apply J_capability | apply J_finish | apply J_id | apply J_authResponse | apply J_sendTagged
    | apply J_done | apply J_actionAuth | apply J_in_folder | apply J_serverFolderName
    | eapply safe_to_weaken; [apply imap_J_I|done|apply J_starttls] ]).
Qed.

(** ** Data *)

(** A message of the response touches neither the socket nor the next action. *)
Lemma onMessage_safe (P : client → Prop) m :
  P = J ∨ P = I → safe_from P clear_ok (_onMessage m : act unit).
Proof.
  intros [-> | ->]; safe_unfold ltac:(first [apply tell_J; exact Logic.I | apply tell_I; exact Logic.I]).
Qed.

Lemma deliver_safe (P : client → Prop) i o :
  P = J ∨ P = I → safe_from P clear_ok (deliver i o : act (option nat)).
Proof.
  intros HP. revert i. induction o as [|[m|x] o IH]; intros i; cbn [deliver]; [apply safe_ret|..].
  - apply safe_bind.
    + apply safe_catch; [apply safe_bind; [by apply onMessage_safe|intros; apply safe_ret]|apply safe_ret].
    + intros [[]|]; [apply IH|apply safe_ret].
  - apply safe_bind; [destruct HP as [-> | ->]; [by apply tell_J|by apply tell_I]|intros _; apply IH].
Qed.

Lemma parse_response_safe (P : client → Prop) r str :
  P = J ∨ P = I → safe_from P clear_ok (parse_response r str : act unit).
Proof.
  intros HP. unfold parse_response. destruct (parse _ _) as [[r1 o] x].
  assert (Hk : ∀ r', safe_from P clear_ok ((this, _response := Some r') : act unit)).
  { intros r'. apply safe_modify. intros c Hc. by destruct HP as [-> | ->]. }
  apply safe_bind; [by apply deliver_safe|]. intros [k|]; (apply safe_bind; [apply Hk|]); intros _.
  - apply safe_throw.
  - destruct x; [apply safe_skip|apply safe_throw].
Qed.

Lemma chunk_J data : safe_from J clear_ok (on_chunk srv ev data : act unit).
Proof.
  jsafe_with ltac:(first [apply parse_response_safe; by left | apply J_run_next | apply J_done]).
Qed.

(** *** The early actions, from [I] *)

Lemma send_I str :
  (str = js "DONE" ∨ ∃ tag str', early_command str' ∧ str = num_str tag ++ SP :: str') →
  safe_from I clear_ok (_send ev str false : act unit).
Proof.
  intros Hstr. apply safe_bind_gets. intros c HI. unfold id.
  destruct (_socket c) as [[r b]|] eqn:Es; [|by apply (safe_skip I)].
  unfold isOnline. rewrite Es. cbn [readyState ssl]. case_bool_decide as Hr; [|by apply (safe_skip I)].
  cbn [when]. apply tell_I; [|done]. destruct b; [done|]. split; [done|].
  assert (Hw : ∀ x, x = str → wire_of (encode ev c (str ++ CRLF)) x).
  { intros x ->. unfold wire_of, encode. destruct (_utf8Enabled c); [by left|by right]. }
  destruct Hstr as [Hd|(tag & str' & He & Hd)]; [left; by apply Hw|right].
  exists tag, str'. split; [done|]. by apply Hw.
Qed.

Lemma next_I n : early (Some n) → safe_from I clear_ok (next n : act unit).
Proof. intros Hn. apply safe_modify. intros c [Hb _]. by split. Qed.

(** A command sent in clear is early, and so is the next action, which may be kept
    while a DONE is answered. *)
Lemma sendTagged_I str :
  early_command str →
  safe_to (λ c, I c ∧ early (_nextAction c)) clear_ok I (command ev str : act unit).
Proof.
  intros Hs. unfold command, _sendTagged. apply safe_to_bind_gets. intros c [Hc He]. unfold id.
  eapply safe_to_weaken with (P := I); [by intros ? [[? _] _]|done|]. destruct (_idling c).
  - unfold endIdle. apply safe_bind; [apply next_I; by constructor|]. intros _.
    apply safe_bind; [apply send_I; by left|]. intros _.
    safe_walk ltac:(apply tell_I; exact Logic.I).
  - apply safe_bind; [unfold _getNextTag; safe_walk fail|]. intros tag.
    apply send_I. right. by exists tag, str.
Qed.

Lemma command_I n str :
  early n → early_command str →
  safe_from I clear_ok ((this, _nextAction := n) >> command ev str : act unit).
Proof.
  intros Hn Hs. eapply safe_to_bind_modify; [|by apply sendTagged_I].
  intros c [Hb Hc]. by split.
Qed.

(** With the next action as it is. *)
Lemma command_keep_I str : early_command str → safe_from I clear_ok (command ev str : act unit).
Proof.
  intros Hs c Hc. destruct (decide (cleartext c)) as [Hcl|Hcl].
  - apply sendTagged_I; [done|]. split; [done|]. by apply Hc.
  - pose proof (J_sendTagged str false c (imap_I_not_cleartext c Hc Hcl)) as HJ. unfold command.
    destruct (_sendTagged ev str false c) as [[c1 o] r]. by destruct HJ as [?%imap_J_I ?].
Qed.

Lemma none_I : safe_from I clear_ok ((this, _nextAction := None) : act unit).
Proof. apply safe_modify. intros c [Hb _]. split; [exact Hb|]. intros _. constructor. Qed.

Ltac isafe_with tac := safe_unfold ltac:(first [tac | apply tell_I; exact Logic.I | apply none_I]).

Lemma done_I s : safe_from I clear_ok (_actionDone s : act unit).
Proof. isafe_with fail. Qed.

Lemma error_I x : safe_from I clear_ok (_actionError srv x : act unit).
Proof. isafe_with fail. Qed.

Lemma capability_I : safe_from I clear_ok (_actionCapability ev : act unit).
Proof. apply command_I; [constructor|unfold early_command; set_solver]. Qed.

(** The connection is in clear: then the client knows that it is not secure. *)
Definition K (c : client) : Prop := I c ∧ cleartext c.

Lemma imap_K_I c : K c → I c.
Proof. by intros [? _]. Qed.

Lemma imap_K_insecure c : K c → _secureTransport c = false.
Proof.
  intros [[Hb _] Hc]. destruct (_secureTransport c) eqn:E; [|done]. by specialize (Hb eq_refl _ Hc).
Qed.

Lemma chooseFirst_K : safe_to K clear_ok I (_actionChooseFirstAuthMethod srv ev : act unit).
Proof.
  apply safe_to_bind_gets. intros c Hc. unfold id. rewrite (imap_K_insecure _ Hc).
  rewrite bool_decide_eq_true_2 by done. cbn [negb andb].
  eapply safe_to_weaken with (P := I); [by intros ? [[? _] _]|done|].
  apply safe_bind; [unfold has_cap; safe_walk fail|]. intros [|].
  - apply command_I; [constructor|unfold early_command; set_solver].
  - apply safe_bind; [apply error_I|intros _; apply done_I].
Qed.

Lemma capabilityResponse_K res : safe_to K clear_ok I (_actionCapabilityResponse srv ev res : act unit).
Proof.
  unfold _actionCapabilityResponse. destruct (capabilities res) as [l|].
  - assert (Ht : ∀ e, clear_ok e → safe_from K clear_ok (tell e : act unit)).
    { intros e He. by apply tell_safe. }
    eapply safe_to_bind; [|apply imap_K_I|intros _].
    { unfold set_capabilities. safe_walk ltac:(apply Ht; exact Logic.I). }
    eapply safe_to_bind; [|apply imap_K_I|intros _].
    { safe_walk ltac:(apply Ht; exact Logic.I). }
    eapply safe_to_bind_modify with (R := K); [done|]. apply chooseFirst_K.
  - eapply safe_to_weaken; [apply imap_K_I|done|apply capability_I].
Qed.

Lemma run_next_K n res :
  early (Some n) → safe_to K clear_ok I (run_next srv ev n res : act unit).
Proof.
  inversion 1 as [| | | |n' str Hn Hs]; subst; cbn [run_next].
  - eapply safe_to_bind_modify with (R := K); [done|]. apply capabilityResponse_K.
  - apply capabilityResponse_K.
  - eapply safe_to_weaken; [apply imap_K_I|apply imap_J_I|apply J_starttls].
  - eapply safe_to_weaken; [apply imap_K_I|done|]. unfold idle_ended. apply safe_when. intros _.
    by apply command_I.
Qed.

Lemma chunk_I data : safe_to I clear_ok I (on_chunk srv ev data : act unit).
Proof.
  unfold on_chunk. apply safe_bind.
  { apply safe_bind; [apply safe_gets|]. intros c. apply safe_bind; [by apply safe_modify|].
    intros _. apply parse_response_safe. by right. }
  intros _. apply safe_to_bind_gets. intros c Hc. unfold id.
  eapply safe_to_bind with (R := λ s, I s ∧ s = c); [|by intros ? [? _]|].
  { unfold or_throw. destruct (_response c); by intros ? ?. }
  intros r. destruct (failed c r).
  { eapply safe_to_weaken; [|done|apply done_I]. by intros ? [? _]. }
  destruct (_ || done r); [cbn [when]|by intros ? [? _]].
  destruct (_nextAction c) as [n|] eqn:En; [|by intros ? [? _]].
  destruct (decide (cleartext c)) as [Hcl|Hcl].
  - eapply safe_to_weaken; [|done|apply run_next_K].
    + intros ? [? ->]. by split.
    + rewrite <- En. by apply Hc.
  - eapply safe_to_weaken; [|apply imap_J_I|apply J_run_next].
    intros ? [? ->]. by apply imap_I_not_cleartext.
Qed.

Lemma logout_I : safe_from I clear_ok (logout ev : act unit).
Proof.
  unfold logout. apply safe_bind; [apply command_keep_I; unfold early_command; set_solver|].
  intros _. eapply safe_to_weaken; [done|apply imap_J_I|apply socket_close_I].
Qed.

(** ** The inputs *)

(** The inputs that make sense before the caller was told that the connection
    is ready. *)
Definition login_input (i : input) : bool :=
  match i with
  | IRequest _ | IIdleTimer | IPassword _ _ | IPlainToken _ | IOAuthToken _
  | IFile _ _ _ _ _ => false
  | _ => true
  end.

Lemma imap_handle_J i :
  login_input i = false → safe_from J clear_ok (handle srv ev i : act unit).
Proof.
  destruct i; intros Hi; try discriminate; cbn [handle]; [apply J_request|..];
    jsafe_with ltac:(first [apply J_sendTagged | apply J_done]).
Qed.

Lemma readyState_closed_I : safe_to I clear_ok J (set_readyState Closed : act unit).
Proof.
  intros c [Hb Hc]. unfold set_readyState. rewrite modify_run. split; [|done]. split; cbn.
  - intros Hs s0. destruct (_socket c) as [s|] eqn:E; [|done]. intros [= <-]. cbn. by apply Hb.
  - unfold cleartext. cbn. by destruct (_socket c).
Qed.

Lemma open_I : safe_from I clear_ok (_onOpen ev : act unit).
Proof.
  unfold _onOpen, set_readyState. eapply safe_to_bind_modify with (R := λ c, base (_socket c) (_secureTransport c)).
  { intros c [Hb _] Hs s0. cbn in Hs |- *. destruct (_socket c) as [s|] eqn:E; [|done].
    intros [= <-]. cbn. by apply Hb. }
  eapply safe_to_bind_modify with (R := I).
  { intros c Hb. split; [exact Hb|]. intros _. constructor. }
  isafe_with fail.
Qed.

Lemma deferred_I : safe_from I clear_ok (run_deferred srv ev : act unit).
Proof.
  unfold run_deferred. apply safe_bind; [apply safe_gets|]. intros [|data l]; [apply safe_skip|].
  apply safe_bind; [by apply safe_modify|]. intros _. apply chunk_I.
Qed.

Lemma imap_close_I : safe_from I clear_ok (_onClose : act unit).
Proof.
  eapply safe_to_bind; [apply readyState_closed_I|apply imap_J_I|intros _].
  eapply safe_to_weaken; [apply imap_J_I|done|]. by apply safe_modify.
Qed.

Lemma imap_handle_I i :
  login_input i = true → safe_from I clear_ok (handle srv ev i : act unit).
Proof.
  destruct i; intros Hi; try discriminate; cbn [handle];
    isafe_with ltac:(first [ apply imap_connect_safe; [done|apply imap_J_I|done] | apply open_I
                           | apply deferred_I | apply imap_close_I | apply logout_I | apply done_I ]).
Qed.

(** A run in which the caller makes requests, and what was awaited for a login or
    an IDLE arrives, only on connections that are not in clear. *)
Inductive session : client → list event → client → Prop :=
  | session_nil c : session c [] c
  | session_step c o c1 i c2 o2 r :
      session c o c1 → (cleartext c1 → login_input i = true) →
      handle srv ev i c1 = (c2, o2, r) → session c (o ++ o2) c2.

Lemma imap_session_I c o c' : session c o c' → I c → I c' ∧ Forall clear_ok o.
Proof.
  intros Hs HI. induction Hs as [c|c o c1 i c2 o2 r _ IH Hi Hh]; [done|].
  destruct (IH HI) as [H1 H2].
  assert (Hc2 : I c2 ∧ Forall clear_ok o2).
  { destruct (login_input i) eqn:El.
    - pose proof (imap_handle_I i El c1 H1) as Hi'. by rewrite Hh in Hi'.
    - assert (Hc : ¬ cleartext c1) by (intros Hc; by specialize (Hi Hc)).
      pose proof (imap_handle_J i El c1 (imap_I_not_cleartext _ H1 Hc)) as Hi'. rewrite Hh in Hi'.
      by destruct Hi' as [?%imap_J_I ?]. }
  destruct Hc2. split; [done|]. by apply Forall_app.
Qed.

(** C3. When the server's settings require STARTTLS, whatever the server replies
    and however connections are lost and made again, what the IMAP client sends
    on a connection that is not secure is only CAPABILITY, STARTTLS, LOGOUT and a
    DONE: nothing it would keep out of its log, no credential and no request - in
    sessions in which the caller makes requests, a password, token or file that
    was awaited arrives, and the idle timer fires, only on connections that are
    not in clear. Without that it does not hold: see [imap_late_password_in_clear]
    in ImapFaults.v. *)
Theorem imap_nothing_in_clear gmail tag auth store o c :
  session (newImapClient srv gmail tag auth store) o c → Forall clear_ok o.
Proof.
  intros Hs. apply (imap_session_I _ _ _ Hs). split; [done|]. intros _. constructor.
Qed.
End Safety.

Lemma imap_session_run {A F} `{Authenticator A} `{ImapFolders F} srv ev inputs (c c1 : ImapClient A F) o :
  session srv ev c o c1 → forallb login_input inputs = true →
  let '(c2, o2, _) := run srv ev inputs c1 in session srv ev c (o ++ o2) c2.
Proof.
  revert o c1. induction inputs as [|i inputs IH]; intros o c1 Hs Hl.
  - change (run srv ev [] c1) with (c1, [] : list event, Some tt). cbn. by rewrite app_nil_r.
  - cbn [forallb] in Hl. apply andb_true_iff in Hl as [Hi Hl]. rewrite imap_run_cons.
    destruct (handle srv ev i c1) as [[c2 o1] r1] eqn:E. specialize (IH (o ++ o1) c2).
    destruct (run srv ev inputs c2) as [[c3 o3] r3]. rewrite (assoc_L (++)). apply IH; [|done].
    by eapply session_step.
Qed.

(** A connection whose server offers STARTTLS and a login in clear, up to the
    handshake. *)
Definition tls_inputs : list input :=
  [IStartRunningUrl true false None; IConnect; IOpen] ++
  line (js "* OK [CAPABILITY IMAP4rev1 STARTTLS AUTH=PLAIN] hi") ++ line (js "1 OK go") ++
  line (js "* CAPABILITY IMAP4rev1 AUTH=PLAIN") ++ line (js "2 OK done").

Lemma imap_nothing_in_clear_witness :
  let srv := sampleServer alwaysSTARTTLS_ passwordCleartext in
  let o := (run srv sampleEnv tls_inputs (sampleClient alwaysSTARTTLS_ passwordCleartext)).1.2 in
  Send true false (js "3 AUTHENTICATE PLAIN" ++ CRLF) ∈ o ∧ Forall (clear_ok sampleEnv) o.
Proof.
  cbn zeta. split; [vm_compute; repeat constructor|].
  pose proof (imap_session_run (sampleServer alwaysSTARTTLS_ passwordCleartext) sampleEnv tls_inputs
    _ _ _ (session_nil _ _ (sampleClient alwaysSTARTTLS_ passwordCleartext)) eq_refl) as Hs.
  destruct (run _ _ _ _) as [[c' o'] r'].
  refine (imap_nothing_in_clear (sampleServer alwaysSTARTTLS_ passwordCleartext) sampleEnv
    (or_intror eq_refl) _ false 0 tt tt o' c' Hs). done.
Defined.
