(* ===== verification/ImapRequests.v ===== *)
(** * ImapRequests: what the IMAP client does with a response

    The response to a command, in any chunks, reaches the function that awaits it,
    after each of its messages was given to [_onMessage] ([response_chunks]).  On
    this stand the theorems on requests: a folder is selected before a command
    that needs it, an IDLE is ended before, a folder is deleted after those in it,
    and what a SELECT leaves behind. *)

From Stdlib Require Import Sorted.
From S2P Require Import Prelude Effects MimeUtils Net Auth ImapUtils ImapResponse ImapFetch ImapLines.
From S2P Require Import ImapText ImapClient.

Section Requests.
Context {A F : Type} `{Authenticator A} `{ImapFolders F}.
Variable srv : ImapServer.
Variable ev : env.
Abbreviation client := (ImapClient A F).
Abbreviation act := (eff client event).

(** ** [_onMessage] leaves the rest of the client alone *)

Definition with_response (c : client) (r : ImapResponse) : client := c <| _response := Some r |>.

(** A method that neither looks at nor changes [_response]. *)
Definition framed {X} (m : act X) : Prop :=
  ∀ c r, m (with_response c r) = let '(c', o, x) := m c in (with_response c' r, o, x).

Lemma framed_ret {X} (x : X) : framed (ret x).
Proof. by intros c r. Qed.
Lemma framed_throw {X} : framed (throw : act X).
Proof. by intros c r. Qed.
Lemma framed_emit e : framed (emit e).
Proof. by intros c r. Qed.
Lemma framed_modify (f : client → client) :
  (∀ c r, f (with_response c r) = with_response (f c) r) → framed (modify f).
Proof. intros Hf c r. unfold modify. by rewrite Hf. Qed.
Lemma framed_gets {X} (f : client → X) : (∀ c r, f (with_response c r) = f c) → framed (gets f).
Proof. intros Hf c r. unfold gets. by rewrite Hf. Qed.
Lemma framed_bind {X Y} (m : act X) (k : X → act Y) :
  framed m → (∀ x, framed (k x)) → framed (bind m k).
Proof.
  intros Hm Hk c r. unfold bind. rewrite Hm. destruct (m c) as [[c1 o1] [x|]]; [|done].
  rewrite Hk. by destruct (k x c1) as [[c2 o2] y].
Qed.
Lemma framed_gets_id {Y} (k : client → act Y) :
  (∀ c r, k (with_response c r) = k c) → (∀ c, framed (k c)) → framed (bind (gets id) k).
Proof. intros He Hk c r. rewrite !bind_gets. unfold id. rewrite He. apply Hk. Qed.
Lemma framed_when b m : framed m → framed (when b m : act unit).
Proof. destruct b; [done|]. intros _. apply framed_ret. Qed.
Lemma framed_for_each {X} (l : list X) (f : X → act unit) : (∀ x, framed (f x)) → framed (for_each l f).
Proof.
  intros Hf. induction l as [|x l IH]; [apply framed_ret|]. apply framed_bind; [apply Hf|by intros _].
Qed.

Lemma onMessage_framed m : framed (_onMessage m : act unit).
Proof.
  repeat first
    [ progress intros
    | apply framed_gets_id; [intros ? ?; reflexivity|]
    | apply framed_bind | apply framed_when | apply framed_ret | apply framed_throw | apply framed_emit
    | apply framed_modify; intros; reflexivity | apply framed_gets; intros; reflexivity
    | match goal with
      | |- framed (if ?b then _ else _) => destruct b
      | |- framed (match ?x with _ => _ end) => destruct x
      | |- framed (let x := _ in _) => cbv zeta
      | |- framed ?m => let h := head_of m in unfold h
      end ].
Qed.

(** The fields that decide what becomes of a chunk. *)
Definition deciding (c : client) : option nextAction * bool * bool * bool * bool * list jsstr :=
  (_nextAction c, _idling c, _greeted c, _authenticating c, _utf8Enabled c, deferred c).

Definition decides_same (c : client) (o : list event) (c' : client) : Prop := deciding c' = deciding c.

#[local] Instance decides_same_trace : TraceRel decides_same.
Proof. split; unfold decides_same; congruence. Qed.

Lemma onMessage_deciding m : respects decides_same (_onMessage m : act unit).
Proof. respects_walk ltac:(first [intros ?; reflexivity]). Qed.

Lemma messages_deciding ms c c' o x :
  for_each ms _onMessage c = (c', o, x) → deciding c' = deciding c.
Proof.
  intros Hr. pose proof (respects_for_each decides_same ms (_onMessage : _ → act unit)
    (λ m _, onMessage_deciding m) c) as Hd. by rewrite Hr in Hd.
Qed.

(** ** A chunk *)

(** The client takes responses: nothing is pending in it. *)
Record attending (c : client) : Prop := {
  at_greeted : _greeted c = true;
  at_idling : _idling c = false;
  at_authenticating : _authenticating c = false;
  at_utf8 : _utf8Enabled c = false;
  at_deferred : deferred c = []
}.

Lemma attending_same c c' : attending c → deciding c' = deciding c → attending c'.
Proof. intros [] [= H1 H2 H3 H4 H5 H6]. constructor; congruence. Qed.

(** What follows the parse of a chunk. *)
Definition respond (n : option nextAction) (r : ImapResponse) : act unit :=
  if value_truthy (status r) && negb (tag_is r (js "+")) && negb (status_ok r)
  then _actionDone NS_MSG_ERROR_IMAP_COMMAND_FAILED
  else match n with Some n => run_next srv ev n r | None => skip end.

Lemma deliver_all i ms c c' o r :
  for_each ms _onMessage c = (c', o, Some tt) →
  deliver i (map OnMessage ms) (with_response c r) = (with_response c' r, o, Some None).
Proof.
  intros Hm. revert i c o Hm. induction ms as [|m ms IH]; intros i c o Hm; cbn [map deliver for_each] in *.
  - by injection Hm as <- <-.
  - unfold bind at 1. unfold attempt, catch. unfold bind at 1. rewrite onMessage_framed.
    unfold bind in Hm. destruct (_onMessage m c) as [[c1 o1] [[]|]]; [|done].
    destruct (for_each ms _onMessage c1) as [[c2 o2] y] eqn:E. injection Hm as <- <- ->.
    unfold ret. cbn iota beta. rewrite (IH (S i) c1 o2 E). by rewrite app_nil_r.
Qed.

Lemma calm_id r : calm r → r <| onMessage := None |> = r.
Proof. intros [Hr _]. destruct r. cbn in *. by subst. Qed.

Lemma on_chunk_run x c c' o r r1 ms :
  attending c → current_response c = r → calm r → calm r1 →
  parse x r = (r1, map OnMessage ms, Some tt) → for_each ms _onMessage c = (c', o, Some tt) →
  on_chunk srv ev x c
  = let '(c2, o2, y) := when (done r1) (respond (_nextAction c) r1) (with_response c' r1) in
    (c2, o ++ o2, y).
Proof.
  intros Ha Hc Hr Hr1 Hp Hm. unfold on_chunk. rewrite bind_assoc, bind_gets. unfold id.
  rewrite (at_utf8 c Ha), Hc, bind_assoc, bind_modify.
  change (c <| _response := Some r |>) with (with_response c r).
  unfold parse_response. rewrite calm_id by done. rewrite Hp.
  rewrite bind_assoc. unfold bind at 1. rewrite (deliver_all 0 ms c c' o) by done. cbv iota beta.
  rewrite bind_assoc, bind_modify, calm_id by done.
  change ((with_response c' r) <| _response := Some r1 |>) with (with_response c' r1).
  unfold skip at 1. rewrite bind_ret_l, bind_gets. unfold id.
  change (_response (with_response c' r1)) with (Some r1). cbn [or_throw]. rewrite bind_ret_l.
  pose proof (messages_deciding _ _ _ _ _ Hm) as Hd. injection Hd as H1 H2 H3 H4 H5 H6.
  unfold failed.
  change (_authenticating (with_response c' r1)) with (_authenticating c').
  change (_greeted (with_response c' r1)) with (_greeted c').
  change (_idling (with_response c' r1)) with (_idling c').
  change (_nextAction (with_response c' r1)) with (_nextAction c').
  rewrite H1, H2, H3, H4, (at_greeted c Ha), (at_idling c Ha), (at_authenticating c Ha).
  cbn [negb orb andb]. unfold respond.
  destruct (done r1); cbn [andb when].
  - rewrite <- !andb_assoc. by destruct (_ && _).
  - done.
Qed.

Lemma run_chunk x c :
  deferred c = [] →
  run srv ev (chunk x) c = let '(c1, o1, _) := on_chunk srv ev x c in (c1, o1, Some tt).
Proof.
  intros Hd. unfold chunk. rewrite imap_run_cons. cbn [handle]. unfold _onData. rewrite modify_run.
  rewrite imap_run_cons. cbn [handle]. unfold run_deferred. rewrite bind_gets.
  assert (∀ l, deferred (c <| deferred ::= l |>) = l (deferred c)) as Hl by done.
  cbn [app]. rewrite Hl, Hd. cbn [app]. rewrite bind_modify.
  assert ((c <| deferred ::= λ l, l ++ [x] |>) <| deferred := [] |> = c) as ->.
  { destruct c. cbn in *. by subst. }
  destruct (on_chunk srv ev x c) as [[c1 o1] y]. cbn. by rewrite app_nil_r.
Qed.

Lemma all_given_app ls1 ls2 : all_given (ls1 ++ ls2) = all_given ls1 ++ all_given ls2.
Proof. unfold all_given. by rewrite map_app, concat_app. Qed.

Lemma effects_app ls1 ls2 r : effects (ls1 ++ ls2) r = effects ls2 (effects ls1 r).
Proof. apply fold_left_app. Qed.

Lemma finished_calm r t s : calm r → calm (finished r t s).
Proof. done. Qed.

Lemma for_each_split {X} (l1 l2 : list X) (f : X → act unit) c c' o :
  for_each (l1 ++ l2) f c = (c', o, Some tt) →
  ∃ c1 o1 o2, for_each l1 f c = (c1, o1, Some tt) ∧ for_each l2 f c1 = (c', o2, Some tt) ∧ o = o1 ++ o2.
Proof.
  rewrite for_each_app. unfold bind. destruct (for_each l1 f c) as [[c1 o1] [[]|]]; [|done].
  destruct (for_each l2 f c1) as [[c2 o2] y] eqn:E. intros [= <- <- ->]. by exists c1, o1, o2.
Qed.

(** The words of the last line. *)
Record last_line (t s x : jsstr) : Prop := {
  ll_tag : plain_word t;
  ll_status : plain_word s;
  ll_word : plain_word x;
  ll_star : t ≠ js "*";
  ll_plus : t ≠ js "+"
}.

Lemma for_each_framed ms c c' o r :
  for_each ms _onMessage c = (c', o, Some tt) →
  for_each ms _onMessage (with_response c r) = (with_response c' r, o, Some tt).
Proof.
  intros Hm. pose proof (framed_for_each ms (_onMessage : _ → act unit) onMessage_framed c r) as Hf.
  by rewrite Hm in Hf.
Qed.

Lemma chunks_from chunks c c' o r s0 d ls t s x :
  attending c → current_response c = reading r s0 d → calm r → Forall untagged ls → last_line t s x →
  Forall (λ x, x ≠ []) chunks → chunks ≠ [] →
  s0 ++ concat chunks = wire ls ++ tagged t s x ++ CRLF →
  for_each (all_given ls) _onMessage c = (c', o, Some tt) →
  run srv ev (flat_map chunk chunks) c
  = let '(c2, o2, _) := respond (_nextAction c) (finished (effects ls r) t s)
                          (with_response c' (finished (effects ls r) t s)) in
    (c2, o ++ o2, Some tt).
Proof.
  revert c c' o r s0 d ls. induction chunks as [|y chunks IH]; [done|].
  intros c c' o r s0 d ls Ha Hc Hr Hl Hll Hne _ Ht Hm. apply Forall_cons in Hne as [Hy Hne].
  cbn [flat_map concat] in *. rewrite imap_run_app, run_chunk by apply Ha.
  destruct (decide (chunks = [])) as [->|Hch].
  - cbn [flat_map concat] in *. rewrite app_nil_r in Ht.
    assert (Hp : parse y (reading r s0 d)
      = (finished (effects ls r) t s, map OnMessage (all_given ls), Some tt)).
    { rewrite parse_reading, Ht by done. destruct Hll. by apply parse_finished. }
    rewrite (on_chunk_run y c c' o (reading r s0 d) _ _ Ha Hc Hr
      (finished_calm _ _ _ (effects_calm ls r Hl Hr)) Hp Hm).
    cbn [done finished when]. change (done (finished (effects ls r) t s)) with true. cbn [when].
    destruct (respond _ _ _) as [[c2 o2] z]. cbn. by rewrite !app_nil_r.
  - rewrite (assoc_L (++)) in Ht.
    destruct (cut_lines ls (tagged t s x) (s0 ++ y) (concat chunks) Ht)
      as (ls1 & ls2 & s1 & -> & Hz & Hs1 & Hcf).
    { destruct chunks as [|y' chunks]; [done|]. apply Forall_cons in Hne as [Hy' _]. by destruct y'. }
    { done. }
    { destruct Hll. by apply no_CR_crlf_free, tagged_CR. }
    apply Forall_app in Hl as [Hl1 Hl2]. rewrite all_given_app in Hm.
    destruct (for_each_split _ _ _ _ _ _ Hm) as (c1 & o1 & o2 & Hm1 & Hm2 & ->).
    set (r1 := reading (effects ls1 r) s1 false).
    assert (Hr1 : calm (effects ls1 r)) by (by apply effects_calm).
    assert (Hp : parse y (reading r s0 d) = (r1, map OnMessage (all_given ls1), Some tt)).
    { rewrite parse_reading, Hz by done. apply parse_wire; [done..|].
      destruct s1; [|by left]. right. left. intros ->. cbn in Hz. by destruct s0, y. }
    rewrite (on_chunk_run y c c1 o1 _ r1 _ Ha Hc Hr Hr1 Hp Hm1).
    change (done r1) with false. cbn [when]. unfold skip, ret.
    pose proof (messages_deciding _ _ _ _ _ Hm1) as Hd.
    assert (Ha1 : attending (with_response c1 r1)) by (by eapply (attending_same c)).
    rewrite (IH (with_response c1 r1) (with_response c' r1) o2 (effects ls1 r) s1 false ls2); [|done| |done..|].
    + change (_nextAction (with_response c1 r1)) with (_nextAction c1). injection Hd as -> _.
      rewrite effects_app. change (with_response (with_response c' r1) ?q) with (with_response c' q).
      destruct (respond _ _ _) as [[c2 o3] z]. by rewrite app_nil_r, (assoc_L (++)).
    + unfold current_response. change (_response (with_response c1 r1)) with (Some r1).
      rewrite (at_idling _ Ha1). done.
    + by apply for_each_framed.
Qed.

(** No response is being read. *)
Definition between (c : client) : Prop :=
  match _response c with Some r => done r = true | None => True end.

(** A response, in any chunks: its messages are given to [_onMessage] in order, and
    then it is given to the function that awaits it, or its status ends the
    request. *)
Lemma response_chunks chunks c c' o ls t s x :
  attending c → between c → Forall untagged ls → last_line t s x →
  Forall (λ x, x ≠ []) chunks → concat chunks = wire ls ++ tagged t s x ++ CRLF →
  for_each (all_given ls) _onMessage c = (c', o, Some tt) →
  run srv ev (flat_map chunk chunks) c
  = let r := finished (effects ls newImapResponse) t s in
    let '(c2, o2, _) := respond (_nextAction c) r (with_response c' r) in (c2, o ++ o2, Some tt).
Proof.
  intros Ha Hb Hl Hll Hne Ht Hm. cbv zeta.
  apply (chunks_from _ _ _ _ newImapResponse [] false ls t s x); try done.
  - unfold current_response. destruct (_response c) as [r|] eqn:E; [|done].
    unfold between in Hb. rewrite E in Hb. by rewrite Hb, orb_true_r.
  - intros ->. symmetry in Ht. apply app_eq_nil in Ht as [_ [_ ?]%app_eq_nil]. done.
Qed.

(** A response that is one line in one chunk. *)
Lemma response_line t s x c :
  attending c → between c → last_line t s x →
  run srv ev (chunk (tagged t s x ++ CRLF)) c
  = let r := finished newImapResponse t s in
    let '(c2, o2, _) := respond (_nextAction c) r (with_response c r) in (c2, o2, Some tt).
Proof.
  intros Ha Hb Hll. pose proof (response_chunks [tagged t s x ++ CRLF] c c [] [] t s x Ha Hb) as Hr.
  cbn [flat_map] in Hr. rewrite app_nil_r in Hr. apply Hr; [by constructor|done| |by cbn [concat app]; rewrite app_nil_r|done].
  constructor; [|constructor]. intros [_ ?]%app_eq_nil. done.
Qed.

(** ** Commands *)

(** The line of a command. *)
Definition command_line (c : client) (str : jsstr) : jsstr :=
  byteStringToUint8Array ((num_str ((_tag c + 1) mod 100) ++ SP :: str) ++ CRLF).

Lemma respond_ok n r t x :
  last_line t (js "OK") x →
  respond n (finished r t (js "OK"))
  = match n with Some n => run_next srv ev n (finished r t (js "OK")) | None => skip end.
Proof. intros Hl. unfold respond. change (status_ok (finished r t (js "OK"))) with true. by rewrite andb_false_r. Qed.

Lemma command_open (c : client) b str :
  _socket c = Some (mkTCPSocket Open b) → _idling c = false → _utf8Enabled c = false →
  ∃ w, command ev str c
       = (c <| _tag := (_tag c + 1) mod 100 |> <| folders := w |>,
          [Send b false (command_line c str)], Some tt).
Proof.
  intros Hs Hi Hu. unfold command, _sendTagged. rewrite bind_gets. unfold id. rewrite Hi.
  unfold _getNextTag. rewrite bind_assoc, bind_modify, bind_gets. unfold _send. rewrite bind_gets. unfold id.
  change (_socket (update _ c)) with (_socket c). rewrite Hs. unfold isOnline.
  change (_socket (update _ c)) with (_socket c). rewrite Hs. cbn [readyState ssl].
  rewrite bool_decide_eq_true_2 by done. cbn [when]. unfold tell. rewrite bind_modify, emit_run.
  unfold encode. change (_utf8Enabled (update _ c)) with (_utf8Enabled c). rewrite Hu.
  eexists. reflexivity.
Qed.


(** ** Selecting a folder *)

(** The requests that are a command in a folder. *)
Definition folder_request (r : request) : option (folder * in_folder) :=
  match r with
  | SelectFolder f => Some (f, FUidFetch)
  | DeleteAllMessages f => Some (f, FDeleteAll f)
  | Search f cmd => Some (f, FSearch cmd)
  | UpdateMessageFlags a f ids flags => Some (f, FStoreFlags a ids flags)
  | Expunge f => Some (f, FExpunge)
  | StoreCustomKeywords f add sub uids => Some (f, FKeywords add sub uids)
  | GetHeaders f uids => Some (f, FHeaders uids)
  | _ => None
  end.

(** The folder's name on the server, whatever happens outside. *)
Definition online (f : folder) (n : jsstr) : Prop :=
  str_truthy n = true ∧ ∀ w, isServer f w = false ∧ onlineName f w = n.

Definition select_command (n : jsstr) : jsstr := js "SELECT " ++ quote (escape_quotes n).

Lemma serverFolderName_run f n (c : client) :
  online f n → _getServerFolderName ev f c = (c, [], Some (escape_quotes n)).
Proof.
  intros [Hn Ho]. unfold _getServerFolderName, ask. rewrite !bind_gets.
  destruct (Ho (folders c)) as [-> ->]. by rewrite Hn.
Qed.

Lemma request_selects r f a n (c : client) :
  folder_request r = Some (f, a) → folder_ c ≠ Some f → online f n →
  run_request ev r c
  = command ev (select_command n)
      (c <| _actionAfterSelectFolder := Some a |> <| _nextAction := Some (NSelect (Some f)) |>).
Proof.
  intros Hr Hf Hn.
  assert (Hs : ∀ c' : client, bind (_getServerFolderName ev f) (λ n, command ev (js "SELECT " ++ quote n)) c'
    = command ev (select_command n) c').
  { intros c'. unfold bind at 1. rewrite (serverFolderName_run f n) by done. cbn [app].
    by destruct (command _ _ c') as [[? ?] ?]. }
  destruct r; cbn [folder_request] in Hr; try discriminate; injection Hr as <- <-;
    cbn [run_request]; unfold selectFolder, deleteAllMessages, search, updateMessageFlags, expunge,
      storeCustomKeywords, getHeaders, _actionInFolder; rewrite bind_gets; unfold in_;
    rewrite bool_decide_eq_false_2 by done; unfold select, next; by rewrite !bind_modify, Hs.
Qed.

(** The answer to a SELECT. *)
Lemma select_answered c f a caps chunks ls t x :
  attending c → between c → _nextAction c = Some (NSelect (Some f)) →
  _actionAfterSelectFolder c = Some a → _capabilities c = Some caps → list_has caps (js "QUOTA") = false →
  Forall untagged ls → all_given ls = [] → last_line t (js "OK") x →
  Forall (λ x, x ≠ []) chunks → concat chunks = wire ls ++ tagged t (js "OK") x ++ CRLF →
  let r := finished (effects ls newImapResponse) t (js "OK") in
  run srv ev (flat_map chunk chunks) c
  = let '(c', o, _) := run_in_folder ev a
      (c <| _response := Some r |> <| folder_ := Some f |> <| _supportedFlags := supported_flags r |>
         <| _folderState := Some r |>) in (c', o, Some tt).
Proof.
  intros Ha Hb Hn Haf Hc Hq Hl Hg Hll Hne Ht r.
  rewrite (response_chunks chunks c c [] ls t (js "OK") x) by (done || by rewrite Hg). cbv zeta.
  rewrite Hn, (respond_ok _ _ t x) by done. cbn [run_next]. fold r. unfold _actionSelectResponse.
  rewrite !bind_modify. unfold has_cap. rewrite bind_assoc, bind_gets.
  match goal with |- context [match _capabilities ?s with _ => _ end] =>
    change (_capabilities s) with (_capabilities c) end.
  rewrite Hc, bind_ret_l, Hq. unfold after_select. rewrite bind_gets.
  match goal with |- context [match _actionAfterSelectFolder ?s with _ => _ end] =>
    change (_actionAfterSelectFolder s) with (_actionAfterSelectFolder c) end.
  rewrite Haf. unfold with_response. by destruct (run_in_folder _ _ _) as [[c2 o2] y].
Qed.

(** The connection of a client that can be used. *)
Record usable (b : bool) (c : client) : Prop := {
  us_socket : _socket c = Some (mkTCPSocket Open b);
  us_greeted : _greeted c = true;
  us_authenticating : _authenticating c = false;
  us_utf8 : _utf8Enabled c = false;
  us_deferred : deferred c = [];
  us_between : between c
}.

Lemma usable_attending b c : usable b c → _idling c = false → attending c.
Proof. intros [] ?. by constructor. Qed.

Lemma send_open b (c : client) str :
  usable b c →
  ∃ w, _send ev str false c
       = (c <| folders := w |>, [Send b false (byteStringToUint8Array (str ++ CRLF))], Some tt).
Proof.
  intros [Hs _ _ Hu _ _]. unfold _send. rewrite bind_gets. unfold id. rewrite Hs. unfold isOnline.
  rewrite Hs. cbn [readyState ssl]. rewrite bool_decide_eq_true_2 by done. cbn [when]. unfold tell.
  rewrite bind_modify, emit_run. unfold encode. rewrite Hu. eexists. reflexivity.
Qed.

(** A command while idling: DONE, and the command is kept. *)
Lemma command_idling b (c : client) str :
  usable b c → _idling c = true →
  ∃ w, command ev str c
       = (c <| _nextAction := Some (NEndIdle (EISend (_nextAction c) str false)) |> <| _idling := false |>
            <| busy := true |> <| folders := w |> <| _idleTimer := false |>,
          [Send b false (byteStringToUint8Array (js "DONE" ++ CRLF)); ClearIdleTimer], Some tt).
Proof.
  intros Hu Hi. unfold command, _sendTagged. rewrite bind_gets. unfold id. rewrite Hi.
  unfold endIdle, next. rewrite bind_modify.
  match goal with |- context [bind (_send ev _ false) _ ?s] =>
    destruct (send_open b s (js "DONE")) as [w Hw]; [by destruct Hu|] end.
  unfold bind at 1. rewrite Hw. rewrite !bind_modify. unfold tell. rewrite bind_assoc, bind_modify, bind_emit.
  rewrite modify_run. eexists. reflexivity.
Qed.

(** The bytes of DONE. *)
Definition done_line : jsstr := byteStringToUint8Array (js "DONE" ++ CRLF).

(** C12. A request that [folder_request] lists (select, delete all messages,
    search, update flags, expunge, store keywords, get headers) for a folder with
    a name on the server, made while the client is idling in another, on a usable
    connection (open, greeted, logged in, UTF8=ACCEPT not enabled) to a server
    without QUOTA: DONE is sent and the request waits; the successful answer to
    DONE sends the SELECT of the request's folder; and the successful answer to
    this, with any untagged responses but FETCH, in any non-empty chunks, runs the
    request's command, with that folder selected and its state taken from that
    answer. *)
Theorem request_from_idle b r f a n c caps t1 x1 chunks ls t2 x2 :
  usable b c → _idling c = true → folder_request r = Some (f, a) → folder_ c ≠ Some f → online f n →
  _capabilities c = Some caps → list_has caps (js "QUOTA") = false →
  last_line t1 (js "OK") x1 → Forall untagged ls → all_given ls = [] → last_line t2 (js "OK") x2 →
  Forall (λ x, x ≠ []) chunks → concat chunks = wire ls ++ tagged t2 (js "OK") x2 ++ CRLF →
  ∃ c1, run srv ev (IRequest r :: chunk (tagged t1 (js "OK") x1 ++ CRLF) ++ flat_map chunk chunks) c
        = (let '(c', o, _) := run_in_folder ev a c1 in
           (c', Send b false done_line :: ClearIdleTimer
                :: Send b false (command_line c (select_command n)) :: o, Some tt)) ∧
        folder_ c1 = Some f ∧ _folderState c1 = Some (finished (effects ls newImapResponse) t2 (js "OK")) ∧
        _idling c1 = false ∧ usable b c1.
Proof.
  intros Hu Hi Hr Hf Hn Hc Hq Hl1 Hls Hg Hl2 Hne Ht.
  rewrite imap_run_cons. cbn [handle]. rewrite (request_selects r f a n) by done.
  set (c2 := c <| _actionAfterSelectFolder := _ |> <| _nextAction := _ |>).
  destruct (command_idling b c2 (select_command n)) as [w ->]; [by destruct Hu|done|].
  rewrite imap_run_app. set (c3 := update _ _).
  assert (Hu3 : usable b c3) by (by destruct Hu).
  rewrite (response_line t1 (js "OK") x1 c3 (usable_attending _ _ Hu3 eq_refl) (us_between _ _ Hu3) Hl1).
  cbv zeta. change (_nextAction c3) with (Some (NEndIdle (EISend (Some (NSelect (Some f))) (select_command n) false))).
  rewrite (respond_ok _ _ t1 x1) by done. cbn [run_next].
  set (r1 := finished _ _ _). unfold idle_ended. change (status_is r1 (js "OK")) with true. cbn [when run_end_idle].
  rewrite bind_modify. change (_sendTagged ev ?str false) with (@command A F _ ev str).
  match goal with |- context [command ev _ ?s] => set (c4 := s) end.
  destruct (command_open c4 b (select_command n)) as [w4 ->]; [apply Hu|done|apply Hu|].
  set (c5 := update _ (update _ c4)).
  rewrite (select_answered c5 f a caps chunks ls t2 x2); try done.
  2: { constructor; try apply Hu; done. }
  cbv zeta. match goal with |- context [run_in_folder ev a ?s] => exists s; destruct (run_in_folder ev a s) as [[c6 o6] y] end.
  split_and!; [done|done|done|done|]. by destruct Hu.
Qed.

(** The end of a request sends nothing and leaves the connection and the folder. *)
Definition no_send (e : event) : Prop := match e with Send _ _ _ => False | _ => True end.

Definition standing (c : client) :=
  (folder_ c, _socket c, _tag c, _greeted c, _utf8Enabled c, deferred c, _response c).

Definition ends (c : client) (o : list event) (c' : client) : Prop :=
  standing c' = standing c ∧ Forall no_send o ∧
  (_idling c = false → _idling c' = false) ∧ (_authenticating c = false → _authenticating c' = false).

#[local] Instance ends_trace : TraceRel ends.
Proof.
  split; [by intros s; split_and!|]. intros s1 o1 s2 o2 s3 (H1 & H2 & H3 & H4) (H5 & H6 & H7 & H8).
  split_and!; [congruence|by apply Forall_app|auto|auto].
Qed.

Lemma ends_modify (f : client → client) :
  (∀ c, standing (f c) = standing c ∧ (_idling c = false → _idling (f c) = false) ∧
        (_authenticating c = false → _authenticating (f c) = false)) →
  respects ends (modify f).
Proof. intros Hf c. destruct (Hf c) as (? & ? & ?). by split_and!. Qed.

Lemma ends_emit e : no_send e → respects ends (emit e : act unit).
Proof. intros He c. split_and!; [done|by constructor|done|done]. Qed.

Lemma actionDone_ends s : respects ends (_actionDone s : act unit).
Proof.
  respects_walk ltac:(first [apply ends_emit; exact Logic.I | apply ends_modify; intros ?; by split_and!]).
Qed.

Lemma startRunningUrl_ends l w u : respects ends (startRunningUrl l w u : act unit).
Proof.
  respects_walk ltac:(first [apply ends_emit; exact Logic.I | apply ends_modify; intros ?; by split_and!]).
Qed.

(** What sending a command leaves as it was. *)
Definition fixed (c : client) :=
  (_nextAction c, _actionAfterSelectFolder c, _capabilities c, runningUri c, folder_ c, _folderState c,
   _messages c, _messageUids c).

Lemma command_sent b (c : client) str :
  usable b c → _idling c = false →
  ∃ c', command ev str c = (c', [Send b false (command_line c str)], Some tt) ∧
        usable b c' ∧ _idling c' = false ∧ fixed c' = fixed c ∧ _tag c' = (_tag c + 1) mod 100.
Proof.
  intros Hu Hi. destruct (command_open c b str) as [w ->]; [apply Hu|done|apply Hu|].
  eexists. split; [reflexivity|]. by destruct Hu.
Qed.

(** A SELECT that fails leaves no mailbox selected on the server, but the
    client keeps the folder it had: when SELECT of another folder is refused, the
    next command for the old folder is sent without a SELECT. *)
Theorem failed_select_keeps_folder b r f a n g c t x l w :
  usable b c → _idling c = false → folder_request r = Some (f, a) → folder_ c = Some g → g ≠ f →
  online f n → last_line t (js "NO") x →
  ∃ c' o1 tag,
    run srv ev (IRequest r :: chunk (tagged t (js "NO") x ++ CRLF)
                ++ [IStartRunningUrl l w None; IRequest (Expunge g)]) c
    = (c', Send b false (command_line c (select_command n)) :: o1 ++
           [Send b false (byteStringToUint8Array ((num_str tag ++ SP :: js "EXPUNGE") ++ CRLF))], Some tt) ∧
    Forall no_send o1.
Proof.
  intros Hu Hi Hr Hf Hgf Hn Hl.
  rewrite imap_run_cons. cbn [handle]. rewrite (request_selects r f a n) by (congruence || done).
  set (c2 := c <| _actionAfterSelectFolder := _ |> <| _nextAction := _ |>).
  destruct (command_open c2 b (select_command n)) as [w2 ->]; [apply Hu|done|apply Hu|].
  rewrite imap_run_app. set (c3 := update _ (update _ c2)).
  assert (Hu3 : usable b c3) by (by destruct Hu).
  rewrite (response_line t (js "NO") x c3 (usable_attending _ _ Hu3 Hi) (us_between _ _ Hu3) Hl).
  cbv zeta. set (r1 := finished _ _ _).
  assert (respond (_nextAction c3) r1 = _actionDone NS_MSG_ERROR_IMAP_COMMAND_FAILED) as ->.
  { unfold respond. change (status_ok r1) with false. change (value_truthy (status r1)) with true.
    assert (tag_is r1 (js "+") = false) as ->; [|done]. unfold tag_is. cbn. apply jseq_false, Hl. }
  set (c4 := with_response c3 r1).
  pose proof (actionDone_ends NS_MSG_ERROR_IMAP_COMMAND_FAILED c4) as He4.
  destruct (_actionDone _ c4) as [[c5 o5] y5]. destruct He4 as (S5 & O5 & I5 & A5).
  rewrite imap_run_cons. cbn [handle]. pose proof (startRunningUrl_ends l w None c5) as He5.
  destruct (startRunningUrl l w None c5) as [[c6 o6] y6]. destruct He5 as (S6 & O6 & I6 & A6).
  rewrite S5 in S6. injection S6 as F6 K6 T6 G6 U6 D6 R6.
  rewrite imap_run_cons. cbn [handle run_request]. unfold expunge, _actionInFolder. rewrite bind_gets.
  unfold in_. rewrite bool_decide_eq_true_2 by (rewrite F6; exact Hf). cbn [run_in_folder].
  unfold next. rewrite bind_modify.
  destruct (command_open (c6 <| _nextAction := Some NDone |>) b (js "EXPUNGE")) as [w7 ->].
  - change (_socket c6 = Some (mkTCPSocket Open b)). rewrite K6. apply Hu.
  - apply I6, I5, Hi.
  - change (_utf8Enabled c6 = false). rewrite U6. apply Hu.
  - change (run srv ev [] ?s) with (s, [] : list event, Some tt).
    eexists _, (o5 ++ o6), _. split; [|by apply Forall_app]. cbn [app]. rewrite <- (assoc_L (++)). done.
Qed.

(** ** Deleting a folder *)

(** The mailboxes sorted for the deletion: the same ones, the longest names first. *)
Lemma insert_longest_perm x l : insert_longest x l ≡ₚ x :: l.
Proof.
  induction l as [|y l IH]; cbn [insert_longest]; [done|]. destruct (_ <=? _)%nat; [done|].
  rewrite IH. apply perm_swap.
Qed.

Lemma sort_longest_perm l : sort_longest l ≡ₚ l.
Proof. induction l as [|x l IH]; [done|]. cbn. by rewrite insert_longest_perm, IH. Qed.

Definition longer (x y : MailboxData) : Prop := (length (name y) <= length (name x))%nat.

Lemma insert_longest_sorted x l :
  StronglySorted longer l → StronglySorted longer (insert_longest x l).
Proof.
  induction 1 as [|y l Hs IH Hy]; cbn [insert_longest]; [by repeat constructor|].
  destruct (Nat.leb_spec (length (name y)) (length (name x))) as [Hle|Hlt].
  - constructor; [by constructor|]. constructor; [done|]. eapply Forall_impl; [done|].
    unfold longer. intros z Hz. lia.
  - constructor; [done|]. rewrite insert_longest_perm. constructor; [unfold longer; lia|done].
Qed.

Lemma sort_longest_sorted l : StronglySorted longer (sort_longest l).
Proof. induction l as [|x l IH]; [constructor|]. by apply insert_longest_sorted. Qed.

(** The answers to the DELETEs: lines that say OK. *)
Definition ok_lines (answers : list (jsstr * jsstr)) : list input :=
  flat_map (λ a, chunk (tagged a.1 (js "OK") a.2 ++ CRLF)) answers.

Definition good_answer (a : jsstr * jsstr) : Prop := last_line a.1 (js "OK") a.2.

(** The commands, with their tags. *)
Fixpoint delete_sends (b : bool) (tag : Z) (names : list jsstr) : list event :=
  match names with
  | [] => []
  | n :: names' =>
      let tag' := (tag + 1) mod 100 in
      Send b false (byteStringToUint8Array ((num_str tag' ++ SP :: js "DELETE " ++ quote n) ++ CRLF))
      :: delete_sends b tag' names'
  end.

(** What is deleted: the mailboxes, and the folder itself when it is not one. *)
Definition delete_names (self : jsstr) (l : list MailboxData) (included : bool) : list jsstr :=
  map name l ++ (if included || existsb (λ mb, self ==s name mb) l then [] else [self]).

Lemma delete_step f n self b l inc (c : client) :
  usable b c → _idling c = false → online f n → self = escape_quotes n →
  delete_names self l inc ≠ [] →
  ∃ c' x l' inc',
    delete_names self l inc = x :: tail (delete_names self l inc) ∧
    delete_next ev f self l inc c = (c', delete_sends b (_tag c) [x], Some tt) ∧
    _tag c' = (_tag c + 1) mod 100 ∧ runningUri c' = runningUri c ∧ usable b c' ∧ _idling c' = false ∧
    ((_nextAction c' = Some (NDeleteNext f self l' inc') ∧
      delete_names self l' inc' = tail (delete_names self l inc) ∧ (length l' < length l)%nat)
     ∨ (_nextAction c' = Some NDone ∧ l = [] ∧ tail (delete_names self l inc) = [])).
Proof.
  intros Hu Hi Hn -> Hne. destruct l as [|mb l].
  - destruct inc; [done|]. cbn [delete_next]. unfold next. rewrite bind_modify.
    unfold bind. rewrite (serverFolderName_run f n) by done.
    destruct (command_open (c <| _nextAction := Some NDone |>) b (js "DELETE " ++ quote (escape_quotes n)))
      as [w ->]; [apply Hu|done|apply Hu|].
    eexists _, _, [], false. split_and!; [done|reflexivity|done|done|by destruct Hu|done|by right].
  - cbn [delete_next]. unfold next. rewrite bind_modify.
    match goal with |- context [command ev ?str ?s] =>
      destruct (command_open s b str) as [w ->]; [apply Hu|done|apply Hu|] end.
    eexists _, (name mb), l, _. split_and!; [done|reflexivity|done|done|by destruct Hu|done|].
    left. split_and!; [done| |cbn; lia]. unfold delete_names. cbn [map tail app existsb].
    by rewrite orb_assoc.
Qed.

(** What is still to be deleted. *)
Definition to_delete (f : folder) (self : jsstr) (names : list jsstr) (c : client) : Prop :=
  (∃ l inc, _nextAction c = Some (NDeleteNext f self l inc) ∧ delete_names self l inc = names) ∨
  (_nextAction c = Some NDone ∧ names = []).

Lemma actionDone_frees s (c : client) u :
  runningUri c = Some u → let '(_, o, _) := _actionDone s c in OnFree ∈ o.
Proof.
  intros Hu. unfold _actionDone. rewrite bind_modify.
  match goal with |- context [bind _ (λ _, bind _ (λ _, bind _reset _)) ?s] => set (c1 := s) end.
  assert (Hm : ∃ c2 o2, ((let! c := gets id in
      when (_urlListener c) (tell (OnStopRunningUrl (runningUri c) s)) >>
      match runningUri c with Some _ => tell (SetUrlState false s) | None => throw end) : act unit) c1
      = (c2, o2, Some tt)).
  { rewrite bind_gets. unfold id. change (runningUri c1) with (runningUri c). rewrite Hu.
    destruct (_urlListener c1); eexists _, _; reflexivity. }
  destruct Hm as (c2 & o2 & Hm). unfold bind at 1. rewrite Hm.
  assert (Hd : ∃ c3 o3, ((let! f := gets onDone in when (default false f) (tell (OnDone s))) : act unit) c2
    = (c3, o3, Some tt)).
  { rewrite bind_gets. destruct (default false _); eexists _, _; reflexivity. }
  destruct Hd as (c3 & o3 & Hd). unfold bind at 1. rewrite Hd.
  assert (Hr : ∃ c4 o4, (_reset : act unit) c3 = (c4, o4, Some tt)).
  { unfold _reset. rewrite !bind_modify, bind_gets. destruct (_idleTimer _); eexists _, _; reflexivity. }
  destruct Hr as (c4 & o4 & Hr). unfold bind at 1. rewrite Hr. cbn.
  rewrite !elem_of_app. right. right. right. by left.
Qed.

Lemma usable_response b c r : usable b c → done r = true → usable b (with_response c r).
Proof. intros [] Hr. by constructor. Qed.

Lemma answer_run b c t x :
  usable b c → _idling c = false → last_line t (js "OK") x →
  ∃ r, done r = true ∧
  run srv ev (chunk (tagged t (js "OK") x ++ CRLF)) c
  = let '(c2, o2, _) := match _nextAction c with Some n => run_next srv ev n r | None => skip end
                          (with_response c r) in (c2, o2, Some tt).
Proof.
  intros Hu Hi Hl. exists (finished newImapResponse t (js "OK")). split; [done|].
  rewrite (response_line _ _ x) by (done || by eapply usable_attending || apply Hu).
  cbv zeta. by rewrite (respond_ok _ _ t x).
Qed.

Lemma delete_loop f n self b names answers (c : client) u :
  usable b c → _idling c = false → online f n → self = escape_quotes n → runningUri c = Some u →
  to_delete f self names c → length answers = S (length names) → Forall good_answer answers →
  ∃ c' o, run srv ev (ok_lines answers) c = (c', delete_sends b (_tag c) names ++ o, Some tt) ∧
          Forall no_send o ∧ OnFree ∈ o.
Proof.
  intros Hu Hi Hn Hs Huri Hp Hlen Hok. revert names c Hu Hi Huri Hp Hlen.
  induction Hok as [|[t x] answers Ha _ IH]; intros names c Hu Hi Huri Hp Hlen; [done|].
  cbn [ok_lines flat_map fst snd]. rewrite imap_run_app. fold (ok_lines answers).
  change (last_line t (js "OK") x) in Ha.
  destruct (answer_run b c t x Hu Hi Ha) as (r & Hr & ->). set (c1 := with_response c r).
  assert (Hu1 : usable b c1) by (by apply usable_response).
  injection Hlen as Hlen. destruct names as [|y names].
  - assert (match _nextAction c with Some n => run_next srv ev n r | None => skip end
            = _actionDone NS_OK) as ->.
    { destruct Hp as [(l & inc & -> & Hnames)|[-> _]]; [|done]. unfold delete_names in Hnames.
      apply app_eq_nil in Hnames as [Hl Hinc]. destruct l; [|done]. by destruct inc. }
    destruct answers; [|done]. pose proof (actionDone_ends NS_OK c1) as He.
    pose proof (actionDone_frees NS_OK c1 u Huri) as Hf.
    destruct (_actionDone NS_OK c1) as [[c2 o2] z]. destruct He as (_ & Ho & _).
    exists c2, o2. cbn. by rewrite app_nil_r.
  - destruct Hp as [(l & inc & -> & Hnames)|[_ [=]]]. cbn [run_next].
    destruct (delete_step f n self b l inc c1 Hu1 Hi Hn Hs) as
      (c2 & y' & l' & inc' & Hy & -> & Ht & Hr2 & Hu2 & Hi2 & Hnext); [by rewrite Hnames|].
    rewrite Hnames in Hy, Hnext. injection Hy as <-. cbn [tail] in Hnext.
    destruct (IH names c2) as (c3 & o3 & -> & Ho3 & Hf3); [done|done|by rewrite Hr2|..|done|].
    { destruct Hnext as [(H1 & H2 & _)|(H1 & _ & H2)]; [left; by exists l', inc'|by right]. }
    exists c3, o3. split; [|done]. cbn [delete_sends app]. by rewrite Ht.
Qed.

(** *** The theorem *)

(** The mailboxes of a LIST response, by their flags and names. *)
Definition list_lines (L : list (list jsstr * jsstr)) : list uline := map (λ x, list_line x.1 x.2) L.
Definition listed_all (L : list (list jsstr * jsstr)) : list MailboxData := map (λ x, listed x.1 x.2) L.
Definition good_mailbox (x : list jsstr * jsstr) : Prop := Forall plain_word x.1 ∧ quotable x.2.

Lemma list_lines_untagged L : Forall good_mailbox L → Forall untagged (list_lines L).
Proof. intros HL. apply Forall_map. eapply Forall_impl; [done|]. intros x [? ?]. by apply list_untagged. Qed.

Lemma list_lines_given L : all_given (list_lines L) = [].
Proof. unfold all_given, list_lines. by induction L. Qed.

Lemma list_lines_mailboxes L r : mailboxes (effects (list_lines L) r) = mailboxes r ++ listed_all L.
Proof.
  revert r. induction L as [|x L IH]; intros r; [by rewrite app_nil_r|].
  cbn [list_lines map effects fold_left]. unfold effects, list_lines in IH. rewrite IH. cbn.
  by rewrite <- (assoc_L (++)).
Qed.

(** C13. Deleting a folder: after its LIST, in any chunks, one DELETE is sent for
    each mailbox listed, each when the one before was answered, the longer names
    before the shorter, so that what is in a folder goes before it; then, when the
    folder itself was not listed, its own; and when the last is answered the
    request ends. *)
Theorem delete_leaves_first b f n u (c : client) L chunks t x answers :
  usable b c → _idling c = false → online f n → runningUri c = Some u →
  Forall good_mailbox L → last_line t (js "OK") x → Forall (λ x, x ≠ []) chunks →
  concat chunks = wire (list_lines L) ++ tagged t (js "OK") x ++ CRLF →
  let self := escape_quotes n in
  let mbs := sort_longest (listed_all L) in
  let names := map name mbs ++ (if existsb (λ mb, self ==s name mb) mbs then [] else [self]) in
  length answers = length names → Forall good_answer answers →
  ∃ c' o,
    run srv ev (IRequest (DeleteFolder f) :: flat_map chunk chunks ++ ok_lines answers) c
    = (c', Send b false (command_line c (list_command self))
           :: delete_sends b ((_tag c + 1) mod 100) names ++ o, Some tt) ∧
    Forall no_send o ∧ OnFree ∈ o ∧
    mbs ≡ₚ listed_all L ∧ StronglySorted longer mbs.
Proof.
  intros Hu Hi Hn Huri HL Hl Hne Ht self mbs names Hlen Hok.
  rewrite imap_run_cons. cbn [handle run_request]. unfold deleteFolder, next. rewrite bind_modify.
  unfold bind at 1. rewrite (serverFolderName_run f n) by done. cbn [app]. fold self.
  destruct (command_open (c <| _nextAction := Some (NDeleteList f) |>) b (list_command self)) as [w ->];
    [apply Hu|done|apply Hu|].
  set (c1 := update _ (update _ (c <| _nextAction := _ |>))).
  assert (Hu1 : usable b c1) by (by destruct Hu).
  rewrite imap_run_app, (response_chunks chunks c1 c1 [] (list_lines L) t (js "OK") x);
    try done; [|by eapply usable_attending|apply Hu1|by apply list_lines_untagged|by rewrite list_lines_given].
  cbv zeta. change (_nextAction c1) with (Some (NDeleteList f)). rewrite (respond_ok _ _ t x) by done.
  cbn [run_next]. set (r := finished _ _ _). set (c2 := with_response c1 r).
  assert (Hu2 : usable b c2) by (by apply usable_response).
  unfold bind at 1. rewrite (serverFolderName_run f n) by done. fold self.
  change (mailboxes r) with (mailboxes (effects (list_lines L) newImapResponse)).
  rewrite list_lines_mailboxes. cbn [mailboxes newImapResponse app]. fold mbs.
  assert (Hnames : delete_names self mbs false = names) by done.
  destruct (delete_step f n self b mbs false c2 Hu2 Hi Hn eq_refl) as
    (c3 & y & l' & inc' & Hy & -> & Htag & Hr3 & Hu3 & Hi3 & Hnext).
  { rewrite Hnames. subst names. destruct mbs; [done|]. by destruct (existsb _ _). }
  rewrite Hnames in Hy, Hnext.
  destruct (delete_loop f n self b (tail names) answers c3 u) as (c4 & o4 & -> & Ho4 & Hf4);
    [done|done|done|done|by rewrite Hr3| | |done|].
  { destruct Hnext as [(H1 & H2 & _)|(H1 & _ & H2)]; [left; by exists l', inc'|by right]. }
  { rewrite Hlen, Hy. done. }
  exists c4, o4. split_and!; [|done|done|apply sort_longest_perm|apply sort_longest_sorted].
  rewrite Hy at 2. cbn [delete_sends app tail]. by rewrite Htag.
Qed.
End Requests.

(** ** The theorems at a client of the sample server *)

(** It is connected, and serves a URL. *)
Definition sampleOnline : ImapClient unit unit :=
  (sampleClient plain passwordCleartext)
    <| _socket := Some (mkTCPSocket Open false) |> <| _greeted := true |>
    <| _capabilities := Some [] |> <| runningUri := Some (mkUrl false false) |>.

Lemma sampleOnline_usable : usable false sampleOnline.
Proof. by constructor. Qed.

Lemma sample_online : @online unit sampleFolders 1 (js "Work").
Proof. by split. Qed.

Lemma sample_last s : plain_word s → last_line (js "1") s (js "done").
Proof. intros Hs. constructor; [split; [by apply word_dec|closed]|done|split; [by apply word_dec|closed]|done|done]. Qed.

Lemma plain_OK : plain_word (js "OK").
Proof. split; [by apply word_dec|closed]. Qed.

Lemma plain_NO : plain_word (js "NO").
Proof. split; [by apply word_dec|closed]. Qed.

Definition sample_run (l : list input) : eff (ImapClient unit unit) event unit :=
  run (sampleServer plain passwordCleartext) sampleEnv l.
Definition ok_text : jsstr := tagged (js "1") (js "OK") (js "done") ++ CRLF.

Lemma request_from_idle_witness :
  let c := sampleOnline <| _idling := true |> in
  ∃ c1 : ImapClient unit unit,
    sample_run (IRequest (Expunge 1) :: chunk ok_text ++ flat_map chunk [ok_text]) c
    = (let '(c', o, _) := run_in_folder sampleEnv FExpunge c1 in
       (c', Send false false done_line :: ClearIdleTimer
            :: Send false false (command_line c (select_command (js "Work"))) :: o, Some tt)) ∧
    folder_ c1 = Some 1%nat.
Proof.
  intros c. destruct (request_from_idle (sampleServer plain passwordCleartext) sampleEnv false
    (Expunge 1) 1 FExpunge (js "Work") c [] (js "1") (js "done") [ok_text] [] (js "1") (js "done"))
    as (c1 & He & Hf & _); try done; try (by apply sample_last, plain_OK); [by repeat constructor|].
  by exists c1.
Defined.

Lemma failed_select_keeps_folder_witness :
  let c := sampleOnline <| folder_ := Some 0%nat |> in
  ∃ c' o1 tag,
    sample_run (IRequest (SelectFolder 1) :: chunk (tagged (js "1") (js "NO") (js "done") ++ CRLF)
                ++ [IStartRunningUrl true true None; IRequest (Expunge 0)]) c
    = (c', Send false false (command_line c (select_command (js "Work"))) :: o1 ++
           [Send false false (byteStringToUint8Array ((num_str tag ++ SP :: js "EXPUNGE") ++ CRLF))],
       Some tt) ∧
    Forall no_send o1.
Proof.
  apply (failed_select_keeps_folder (sampleServer plain passwordCleartext) sampleEnv false
    (SelectFolder 1) 1 FUidFetch (js "Work") 0); try done. apply sample_last, plain_NO.
Defined.

Definition sample_mailboxes : list (list jsstr * jsstr) := [([], js "Work"); ([], js "Work/Old")].
Definition sample_answers : list (jsstr * jsstr) := [(js "1", js "done"); (js "1", js "done")].

Lemma sample_mailboxes_good : Forall good_mailbox sample_mailboxes.
Proof.
  constructor; [split; [constructor|split_and!; closed]|].
  constructor; [split; [constructor|split_and!; closed]|constructor].
Qed.

Lemma sample_answers_good : Forall good_answer sample_answers.
Proof. constructor; [|constructor; [|constructor]]; apply (sample_last _ plain_OK). Qed.

Lemma sample_chunks_ne : Forall (λ x, x ≠ []) [wire (list_lines sample_mailboxes) ++ ok_text].
Proof. constructor; [|constructor]. by vm_compute. Qed.

Lemma sample_chunks_concat :
  concat [wire (list_lines sample_mailboxes) ++ ok_text] = wire (list_lines sample_mailboxes) ++ ok_text.
Proof. apply app_nil_r. Qed.

Lemma delete_leaves_first_witness :
  ∃ (c' : ImapClient unit unit) o,
    sample_run (IRequest (DeleteFolder 1)
      :: flat_map chunk [wire (list_lines sample_mailboxes) ++ ok_text] ++ ok_lines sample_answers) sampleOnline
    = (c', Send false false (command_line sampleOnline (list_command (escape_quotes (js "Work"))))
           :: delete_sends false 1 [js "Work/Old"; js "Work"] ++ o, Some tt) ∧
    OnFree ∈ o.
Proof.
  destruct (delete_leaves_first (sampleServer plain passwordCleartext) sampleEnv false 1 (js "Work")
    (mkUrl false false) sampleOnline sample_mailboxes _ _ _ sample_answers
    sampleOnline_usable eq_refl sample_online eq_refl sample_mailboxes_good (sample_last _ plain_OK)
    sample_chunks_ne sample_chunks_concat ltac:(vm_compute; reflexivity) sample_answers_good)
    as (c' & o & He & _ & Ho & _).
  exists c', o. split; [exact He|exact Ho].
Defined.
