(* ===== verification/ImapSync.v ===== *)
(** * ImapSync: what the folders are told of the messages

    The answer to UID FETCH (FLAGS), in any chunks, reaches the folder message by
    message, and then as a whole; the map of UIDs and messages the client keeps is
    coherent in every session; and it outlives the folder it belongs to. *)

From S2P Require Import Prelude Effects MimeUtils Net Auth ImapUtils ImapResponse ImapFetch ImapLines.
From S2P Require Import ImapText ImapClient ImapRequests.

Section Sync.
Context {A F : Type} `{Authenticator A} `{ImapFolders F}.
Variable srv : ImapServer.
Variable ev : env.
Abbreviation client := (ImapClient A F).
Abbreviation act := (eff client event).

(** ** Flags *)

(** FETCH responses for messages, given by UID and flags, from the number [q] on. *)
Fixpoint flag_lines (q : Z) (msgs : list (Z * list jsstr)) : list uline :=
  match msgs with
  | [] => []
  | (u, fl) :: msgs' => flags_line q u fl :: flag_lines (q + 1) msgs'
  end.

(** What the folder is told of a message. *)
Definition notice (f : folder) (st : ImapResponse) (m : Z * list jsstr) : event :=
  NotifyMessageFlags f (stringsToFlags m.2)
    (Some (join [SP] (List.filter (λ s, negb (startsWith s [BACKSLASH])) m.2))) (Some m.1)
    (response_field st (js "highestmodseq")).

Fixpoint uids_from (q : Z) (msgs : list (Z * list jsstr)) (m : gmap num (option num)) :
    gmap num (option num) :=
  match msgs with
  | [] => m
  | (u, _) :: msgs' => uids_from (q + 1) msgs' (<[Some q := Some (Some u)]> m)
  end.

Fixpoint messages_from (q : Z) (msgs : list (Z * list jsstr)) (l : list (option num * MessageData)) :
    list (option num * MessageData) :=
  match msgs with
  | [] => l
  | (u, fl) :: msgs' => messages_from (q + 1) msgs' (mset l (Some (Some u)) (flags_message q u fl))
  end.

(** What is outside after some events. *)
Definition seen (o : list event) (w : F) : F := fold_left (λ w e, sees e w) o w.

(** The fields messages do not touch. *)
Definition kept (c c' : client) : Prop :=
  runningUri c' = runningUri c ∧ _socket c' = _socket c ∧ _tag c' = _tag c ∧
  isGMailServer c' = isGMailServer c.

Lemma kept_trans c1 c2 c3 : kept c1 c2 → kept c2 c3 → kept c1 c3.
Proof. intros (? & ? & ? & ?) (? & ? & ? & ?). repeat split; congruence. Qed.

(** A UID and flags that are words. *)
Definition good_message (m : Z * list jsstr) : Prop := 0 < m.1 ∧ Forall plain_word m.2.

Lemma flag_lines_untagged q msgs :
  0 <= q → Forall good_message msgs → Forall untagged (flag_lines q msgs).
Proof.
  intros Hq Hm. revert q Hq. induction Hm as [|[u fl] msgs [Hu Hfl] _ IH]; intros q Hq; cbn [flag_lines].
  - constructor.
  - constructor; [apply flags_untagged; [done|cbn in Hu; lia|done]|]. apply IH. lia.
Qed.

Lemma truthy_pos q : 0 < q → num_truthy (Some q) = true.
Proof. by destruct q. Qed.

Lemma onMessage_flags q u fl (c : client) f st :
  0 < q → 0 < u → folder_ c = Some f → _folderState c = Some st →
  ∃ c' : client, _onMessage (flags_message q u fl) c = (c', [notice f st (u, fl)], Some tt) ∧
        folder_ c' = Some f ∧ _folderState c' = Some st ∧ kept c c' ∧
        _messageUids c' = <[Some q := Some (Some u)]> (_messageUids c) ∧
        _messages c' = mset (_messages c) (Some (Some u)) (flags_message q u fl) ∧
        folders c' = sees (notice f st (u, fl)) (folders c).
Proof.
  intros Hq Hu Hf Hst. unfold _onMessage, on_folder. rewrite bind_gets, Hf, bind_modify.
  unfold message_flags. cbn [m_flags flags_message uid sequence uid_truthy body default str_truthy].
  rewrite !truthy_pos by done. cbn [orb andb when]. unfold bind at 1.
  rewrite bind_assoc, bind_modify, bind_modify, bind_gets. unfold id.
  change (_folderState (update _ _)) with (_folderState c). rewrite Hst. cbn [or_throw when].
  rewrite bind_ret_l. unfold tell. rewrite bind_modify, emit_run. cbn [app skip ret].
  eexists. split; [reflexivity|]. by split_and!.
Qed.

Lemma flags_delivered q msgs (c : client) f st :
  0 < q → Forall good_message msgs → folder_ c = Some f → _folderState c = Some st →
  ∃ c' : client, for_each (all_given (flag_lines q msgs)) _onMessage c
        = (c', map (notice f st) msgs, Some tt) ∧
        folder_ c' = Some f ∧ _folderState c' = Some st ∧ kept c c' ∧
        _messageUids c' = uids_from q msgs (_messageUids c) ∧
        _messages c' = messages_from q msgs (_messages c) ∧
        folders c' = seen (map (notice f st) msgs) (folders c).
Proof.
  intros Hq Hm. revert q c Hq. induction Hm as [|[u fl] msgs [Hu _] _ IH]; intros q c Hq Hf Hst.
  - exists c. by split_and!.
  - destruct (onMessage_flags q u fl c f st Hq Hu Hf Hst) as (c1 & E1 & Hf1 & Hst1 & Hr1 & Hu1 & Hm1 & Hw1).
    destruct (IH (q + 1) c1) as (c2 & E2 & Hf2 & Hst2 & Hr2 & Hu2 & Hm2 & Hw2); [lia|done|done|].
    exists c2. split_and!; [|done|done|by eapply kept_trans|by rewrite Hu2, Hu1|by rewrite Hm2, Hm1|].
    2: { rewrite Hw2, Hw1. done. }
    unfold all_given in *. cbn [flag_lines map concat given flags_line app for_each].
    unfold bind. by rewrite E1, E2.
Qed.

(** *** The maps *)

Lemma uids_from_lookup q msgs m k :
  uids_from q msgs m !! Some k
  = if (q <=? k) && (k <? q + Z.of_nat (length msgs))
    then (λ x : Z * list jsstr, Some (Some x.1)) <$> msgs !! Z.to_nat (k - q) else m !! Some k.
Proof.
  revert q m. induction msgs as [|[u fl] msgs IH]; intros q m; cbn [uids_from length].
  - destruct (Z.leb_spec q k), (Z.ltb_spec k (q + Z.of_nat 0)); try lia; done.
  - rewrite IH. destruct (Z.leb_spec (q + 1) k), (Z.leb_spec q k); try lia.
    + replace (q + Z.of_nat (S (length msgs))) with (q + 1 + Z.of_nat (length msgs)) by lia.
      cbn [andb]. destruct (Z.ltb_spec k (q + 1 + Z.of_nat (length msgs))).
      * replace (Z.to_nat (k - q)) with (S (Z.to_nat (k - (q + 1)))) by lia. done.
      * by rewrite lookup_insert_ne by (intros [= ->]; lia).
    + assert (k = q) as -> by lia. cbn [andb]. rewrite lookup_insert_eq.
      rewrite (proj2 (Z.ltb_lt _ _)) by lia. by rewrite Z.sub_diag.
    + cbn [andb]. by rewrite lookup_insert_ne by (intros [= ->]; lia).
Qed.

Lemma uids_from_None q msgs m : uids_from q msgs m !! None = m !! None.
Proof.
  revert q m. induction msgs as [|[u fl] msgs IH]; intros q m; cbn [uids_from]; [done|].
  by rewrite IH, lookup_insert_ne.
Qed.

Lemma messages_from_lookup q msgs l i u fl :
  NoDup msgs.*1 → msgs !! i = Some (u, fl) →
  mget (messages_from q msgs l) (Some (Some u)) = Some (flags_message (q + Z.of_nat i) u fl).
Proof.
  assert (Hout : ∀ msgs q l, u ∉ msgs.*1 →
    mget (messages_from q msgs l) (Some (Some u)) = mget l (Some (Some u))).
  { clear. induction msgs as [|[u' fl'] msgs IH]; intros q l Hu; [done|].
    cbn [messages_from]. rewrite fmap_cons, not_elem_of_cons in Hu. destruct Hu as [Hne Hu].
    rewrite IH by done. apply mget_mset_ne. intros [= ->]. done. }
  revert q l i. induction msgs as [|[u' fl'] msgs IH]; intros q l i Hnd Hi; [done|].
  rewrite fmap_cons in Hnd. apply NoDup_cons in Hnd as [Hn Hnd]. destruct i as [|i].
  - injection Hi as -> ->. cbn [messages_from]. rewrite Hout by done.
    rewrite mget_mset_eq. by rewrite Z.add_0_r.
  - cbn [messages_from]. rewrite (IH (q + 1) _ i) by done. do 2 f_equal. lia.
Qed.

Lemma messages_from_length q msgs l :
  NoDup msgs.*1 → (∀ u, u ∈ msgs.*1 → mget l (Some (Some u)) = None) →
  length (messages_from q msgs l) = (length l + length msgs)%nat.
Proof.
  revert q l. induction msgs as [|[u fl] msgs IH]; intros q l Hnd Hl; cbn [messages_from length]; [lia|].
  rewrite fmap_cons in Hnd. apply NoDup_cons in Hnd as [Hn Hnd]. rewrite IH; [|done|].
  - assert (Hf : ∀ v, length (mset l (Some (Some u)) v) = S (length l)).
    { intros v. rewrite <- (length_fmap fst), mset_fst. unfold mhas. rewrite Hl by (by left).
      rewrite length_app, length_fmap. cbn. lia. }
    rewrite Hf. lia.
  - intros u' Hu'. rewrite mget_mset_ne by (intros [= ->]; done). apply Hl. by right.
Qed.

(** The greatest index of a map that has one. *)
Lemma top_index (m : gmap num (option num)) n :
  m !! Some n ≠ None → is_index (Some n) = true →
  (∀ k, is_index (Some k) = true → m !! Some k ≠ None → k <= n) →
  map_fold (λ k _ (i : Z), if is_index k then Z.max (default 0 k) i else i) (-1) m = n.
Proof.
  set (step := λ (k : num) (_ : option num) (i : Z), if is_index k then Z.max (default 0 k) i else i).
  assert (Hf : ∀ m : gmap num (option num),
    (∀ k, is_index (Some k) = true → m !! Some k ≠ None → k <= map_fold step (-1) m) ∧
    (map_fold step (-1) m = -1 ∨ m !! Some (map_fold step (-1) m) ≠ None ∧
       is_index (Some (map_fold step (-1) m)) = true)).
  { apply (map_fold_weak_ind (λ r (m : gmap num (option num)),
      (∀ k, is_index (Some k) = true → m !! Some k ≠ None → k <= r) ∧
      (r = -1 ∨ m !! Some r ≠ None ∧ is_index (Some r) = true))).
    - split; [by intros k _ ?; rewrite lookup_empty in *|by left].
    - intros i x m' r Hi [H1 H2]. unfold step. destruct (is_index i) eqn:Ei.
      + destruct i as [i|]; [|done]. cbn [from_option id]. split.
        * intros k Hk Hm. destruct (decide (i = k)) as [->|Hne]; [lia|].
          rewrite lookup_insert_ne in Hm by congruence. specialize (H1 k Hk Hm). lia.
        * right. destruct (Z.max_spec i r) as [[Hlt ->]|[Hle ->]].
          -- destruct H2 as [->|[H2 H3]]; [apply andb_true_iff in Ei; lia|]. split; [|done].
             rewrite lookup_insert_ne; [done|]. intros [= ->]. lia.
          -- by rewrite lookup_insert_eq.
      + split.
        * intros k Hk Hm. rewrite lookup_insert_ne in Hm by (intros ->; congruence). by apply H1.
        * destruct H2 as [->|[H2 H3]]; [by left|]. right. split; [|done].
          rewrite lookup_insert_ne; [done|]. intros ->. congruence. }
  intros Hn Hi Hmax. destruct (Hf m) as [H1 H2]. specialize (H1 n Hi Hn).
  destruct H2 as [H2|[H2 H3]].
  - rewrite H2 in H1. apply andb_true_iff in Hi. lia.
  - specialize (Hmax _ H3 H2). lia.
Qed.

Lemma last_uid_from msgs u fl :
  Z.of_nat (length msgs) < 2 ^ 32 - 1 → last msgs = Some (u, fl) →
  last_uid (uids_from 1 msgs ∅) = Some (Some u).
Proof.
  intros Hlen Hlast. assert (Hpos : (0 < length msgs)%nat) by (destruct msgs; [done|cbn; lia]).
  assert (Hl : uids_from 1 msgs ∅ !! Some (Z.of_nat (length msgs)) = Some (Some (Some u))).
  { rewrite uids_from_lookup, (proj2 (Z.leb_le _ _)), (proj2 (Z.ltb_lt _ _)) by lia. cbn [andb].
    replace (Z.to_nat (Z.of_nat (length msgs) - 1)) with (pred (length msgs)) by lia.
    by rewrite <- last_lookup, Hlast. }
  unfold last_uid. rewrite (top_index _ (Z.of_nat (length msgs))); [by rewrite Hl|by rewrite Hl| |].
  - unfold is_index. apply andb_true_iff. lia.
  - intros k _ Hk. rewrite uids_from_lookup in Hk.
    destruct (Z.leb_spec 1 k), (Z.ltb_spec k (1 + Z.of_nat (length msgs))); cbn [andb] in Hk;
      rewrite ?lookup_empty in Hk; try done; lia.
Qed.

(** ** A folder's messages *)

(** The specification of the mailbox the folder is given. *)
Definition spec_of (st : ImapResponse) (uids : gmap num (option num))
    (l : list (option num * MessageData)) : mailboxSpec :=
  mkMailboxSpec (response_field st (js "uidvalidity")) (flags st) (supportedUserFlags st)
    (attribute_of st (js "uidnext")) (Z.of_nat (length l)) (attribute_of st (js "unseen")) (uids, l).

(** The state in which a folder's flags were asked for. *)
Record syncing (c : client) (f : folder) (st : ImapResponse) : Prop := {
  sy_attending : attending c;
  sy_between : between c;
  sy_folder : folder_ c = Some f;
  sy_state : _folderState c = Some st;
  sy_action : _nextAction c = Some NFetch
}.

Lemma fetchResponse_run (c : client) f st :
  folder_ c = Some f → _folderState c = Some st →
  let w := folders c in
  let spec := spec_of st (_messageUids c) (_messages c) in
  let '(c2, o2, _) := _actionUidFetchResponse ev c in
  ∃ o3, o2 = UpdateImapMailboxInfo f spec :: o3 ∧
  (∀ b latest, _socket c = Some (mkTCPSocket Open b) → _idling c = false → _utf8Enabled c = false →
     uid_gt (last_uid (_messageUids c)) (highestRecordedUID f w) = Some latest →
     o3 = [Send b false (command_line c (js "UID FETCH " ++ num_str (highestRecordedUID f w + 1)
             ++ js ":" ++ num_str latest ++ SP :: header_items c))]).
Proof.
  intros Hf Hst. cbv zeta. unfold _actionUidFetchResponse, on_folder, ask.
  rewrite bind_gets, Hf, bind_gets, bind_modify, bind_assoc. unfold _getMailboxSpec at 1.
  rewrite bind_assoc, bind_gets. unfold id at 1.
  change (_folderState (update _ c)) with (_folderState c). rewrite Hst. cbn [or_throw].
  rewrite bind_assoc, bind_ret_l, bind_ret_l. unfold tell at 1. rewrite bind_assoc, bind_modify, bind_emit.
  change (_messages (update _ c)) with (_messages c). change (_messageUids (update _ c)) with (_messageUids c).
  fold (spec_of st (_messageUids c) (_messages c)). rewrite bind_gets. unfold id.
  set (c1 := c <| _folderSink := Some f |> <| folders ::= _ |>).
  change (_messageUids c1) with (_messageUids c).
  destruct (uid_gt _ _) as [latest|] eqn:Eu.
  - unfold next. rewrite bind_modify.
    match goal with |- context [command ev ?str ?s] => set (c3 := s); set (str0 := str) end.
    destruct (command ev str0 c3) as [[c4 o4] y] eqn:E. exists o4. split; [done|].
    intros b l Hs Hi Hu [= <-]. destruct (command_open ev c3 b str0 Hs Hi Hu) as [w E5].
    rewrite E5 in E. by injection E as <- <- <-.
  - destruct (bind _ _ c1) as [[c4 o4] y]. exists o4. split; [done|]. by intros b l _ _ _ [=].
Qed.

(** C11. Synchronising a folder, when nothing is kept of a folder selected before
    (the maps of UIDs and messages are empty): the successful answer to UID FETCH
    (FLAGS), which the client, logged in, not idling and without UTF8=ACCEPT, awaits
    with the folder selected, of messages numbered from 1 with UIDs that are positive and distinct, in
    any non-empty chunks, tells the folder the flags and keywords of each message, in
    order, and then once the whole: under its number its UID, under its UID its flags,
    and how many they are.  When the last message is newer than the newest the folder
    has and the socket is open, the headers from the one after that to the last are
    asked for, and nothing else. *)
Theorem flags_synced c f st msgs chunks t x :
  syncing c f st → _messageUids c = ∅ → _messages c = [] →
  Forall good_message msgs → NoDup msgs.*1 → Z.of_nat (length msgs) < 2 ^ 32 - 1 →
  last_line t (js "OK") x → Forall (λ x, x ≠ []) chunks →
  concat chunks = wire (flag_lines 1 msgs) ++ tagged t (js "OK") x ++ CRLF →
  let highest := highestRecordedUID f (seen (map (notice f st) msgs) (folders c)) in
  ∃ c' spec o',
    run srv ev (flat_map chunk chunks) c
    = (c', map (notice f st) msgs ++ UpdateImapMailboxInfo f spec :: o', Some tt) ∧
    numMessages spec = Z.of_nat (length msgs) ∧
    (∀ i u fl, msgs !! i = Some (u, fl) →
       (flagState spec).1 !! Some (Z.of_nat i + 1) = Some (Some (Some u)) ∧
       mget (flagState spec).2 (Some (Some u)) = Some (flags_message (Z.of_nat i + 1) u fl)) ∧
    (∀ b u fl, _socket c = Some (mkTCPSocket Open b) → last msgs = Some (u, fl) → highest < u →
       o' = [Send b false (command_line c (js "UID FETCH " ++ num_str (highest + 1) ++ js ":"
               ++ num_str u ++ SP :: header_items c))]).
Proof.
  intros [Ha Hb Hf Hst Hn] Hu0 Hm0 Hg Hnd Hlen Hll Hne Ht. cbv zeta.
  destruct (flags_delivered 1 msgs c f st) as (c1 & E1 & Hf1 & Hst1 & (K1 & K2 & K3 & K4) & Hu1 & Hm1 & Hw1);
    [lia|done..|]. rewrite Hu0 in Hu1. rewrite Hm0 in Hm1.
  pose proof (messages_deciding _ _ _ _ _ E1) as Hd. injection Hd as D1 D2 D3 D4 D5 D6.
  rewrite (response_chunks srv ev chunks c c1 _ _ t _ x Ha Hb (flag_lines_untagged 1 msgs ltac:(lia) Hg)
    Hll Hne Ht E1).
  cbv zeta. rewrite Hn, (respond_ok srv ev _ _ t x) by done. cbn [run_next].
  set (r := finished _ _ _). set (c2 := with_response c1 r).
  pose proof (fetchResponse_run c2 f st Hf1 Hst1) as Hw. cbv zeta in Hw.
  destruct (_actionUidFetchResponse ev c2) as [[c3 o3] y]. destruct Hw as (o' & -> & Ho').
  change (_messageUids c2) with (_messageUids c1) in *. change (_messages c2) with (_messages c1) in *.
  change (folders c2) with (folders c1) in *. rewrite Hu1, Hm1, Hw1 in *.
  eexists c3, _, o'. split; [done|]. split_and!.
  - cbn [numMessages spec_of]. rewrite messages_from_length; [done..|].
    done.
  - intros i u fl Hi. cbn [flagState spec_of fst snd]. split.
    + rewrite uids_from_lookup, (proj2 (Z.leb_le _ _)) by lia. apply lookup_lt_Some in Hi as Hlt.
      rewrite (proj2 (Z.ltb_lt _ _)) by lia. cbn [andb].
      replace (Z.to_nat (Z.of_nat i + 1 - 1)) with i by lia. by rewrite Hi.
    + rewrite (messages_from_lookup 1 msgs [] i u fl) by done. do 2 f_equal. lia.
  - intros b u fl Hs Hl Hh.
    assert (command_line c = command_line c2 ∧ header_items c = header_items c2) as [-> ->].
    { unfold command_line, header_items. change (_tag c2) with (_tag c1).
      change (isGMailServer c2) with (isGMailServer c1). by rewrite K3, K4. }
    apply (Ho' b u).
    + change (_socket c2) with (_socket c1). congruence.
    + change (_idling c2) with (_idling c1). rewrite D2. apply Ha.
    + change (_utf8Enabled c2) with (_utf8Enabled c1). rewrite D5. apply Ha.
    + rewrite (last_uid_from msgs u fl) by done. cbn. by rewrite (proj2 (Z.ltb_lt _ _)).
Qed.

(** The map of a folder's messages outlives the folder: after another folder
    is selected and its messages are asked for, it is told the messages of the
    folder before as if they were its own - their number, their UIDs and their
    flags - although its server sent none. *)
Theorem messages_outlive_folder b f n caps u (c : client) chunks ls t1 x1 t2 x2 :
  usable b c → _idling c = false → folder_ c ≠ Some f → online f n →
  _capabilities c = Some caps → list_has caps (js "QUOTA") = false →
  runningUri c = Some u → liteSelectFolder u = false →
  Forall untagged ls → all_given ls = [] → last_line t1 (js "OK") x1 → last_line t2 (js "OK") x2 →
  Forall (λ x, x ≠ []) chunks → concat chunks = wire ls ++ tagged t1 (js "OK") x1 ++ CRLF →
  ∃ c' o spec,
    run srv ev (IRequest (SelectFolder f) :: flat_map chunk chunks ++ chunk (tagged t2 (js "OK") x2 ++ CRLF)) c
    = (c', o, Some tt) ∧
    UpdateImapMailboxInfo f spec ∈ o ∧
    numMessages spec = Z.of_nat (length (_messages c)) ∧ flagState spec = (_messageUids c, _messages c).
Proof.
  intros Hu Hi Hf Hn Hc Hq Huri Hlite Hls Hg Hl1 Hl2 Hne Ht.
  rewrite imap_run_cons. cbn [handle]. rewrite (request_selects ev (SelectFolder f) f FUidFetch n) by done.
  set (c1 := c <| _actionAfterSelectFolder := _ |> <| _nextAction := _ |>).
  destruct (command_sent ev b c1 (select_command n)) as (c2 & -> & Hu2 & Hi2 & Hx2 & _); [by destruct Hu|done|].
  injection Hx2 as Hn2 Ha2 Hc2 Huri2 _ _ Hm2 Huids2.
  rewrite imap_run_app, (select_answered srv ev c2 f FUidFetch caps chunks ls t1 x1);
    [|by eapply usable_attending|apply Hu2|done|done|by rewrite Hc2|done..].
  cbv zeta. set (st := finished _ _ _).
  match goal with |- context [run_in_folder ev FUidFetch ?s] => set (c3 := s) end.
  assert (usable b c3 ∧ _idling c3 = false ∧ folder_ c3 = Some f ∧ _folderState c3 = Some st ∧
    runningUri c3 = runningUri c2 ∧ _messages c3 = _messages c2 ∧ _messageUids c3 = _messageUids c2)
    as (Hu3 & Hi3 & Hf3 & Hst3 & Huri3 & Hm3 & Huids3) by (by destruct Hu2).
  clearbody c3 st. cbn [run_in_folder]. unfold _actionUidFetch.
  rewrite bind_gets, Huri3, Huri2. change (runningUri c1) with (runningUri c). rewrite Huri, Hlite.
  unfold next. rewrite bind_modify.
  destruct (command_sent ev b (c3 <| _nextAction := Some NFetch |>) (js "UID FETCH 1:* (FLAGS)"))
    as (c4 & -> & Hu4 & Hi4 & Hx4 & _); [by destruct Hu3|done|].
  injection Hx4 as Hn4 _ _ _ Hf4 Hst4 Hm4 Huids4.
  destruct (answer_run srv ev b c4 t2 x2 Hu4 Hi4 Hl2) as (r & Hr & ->).
  rewrite Hn4. cbn [run_next].
  pose proof (fetchResponse_run (with_response c4 r) f st) as Hw.
  specialize (Hw (eq_trans Hf4 Hf3) (eq_trans Hst4 Hst3)).
  cbv zeta in Hw. destruct (_actionUidFetchResponse ev _) as [[c6 o6] y]. destruct Hw as (o3 & -> & _).
  eexists _, _, _. split_and!; [done| | |].
  - rewrite !elem_of_app. do 2 right. by left.
  - cbn. rewrite Hm4. cbn. by rewrite Hm3, Hm2.
  - cbn. rewrite Hm4, Huids4. cbn. by rewrite Hm3, Huids3, Hm2, Huids2.
Qed.

(** ** The map is coherent *)

(** A UID a message number has is that of a message kept. *)
Definition coherent (c : client) : Prop :=
  ∀ q u, _messageUids c !! q = Some u → is_Some (mget (_messages c) u).

Abbreviation any := (λ _ : event, True).

Lemma coherent_note (c : client) q u m :
  coherent c → coherent (c <| _messageUids ::= <[q := u]> |> <| _messages ::= λ l, mset l u m |>).
Proof.
  intros Hc q' u'. cbn. intros Hq. rewrite mget_mset. case_decide; [done|].
  destruct (decide (q = q')) as [->|Hne].
  - rewrite lookup_insert_eq in Hq. by injection Hq as ->.
  - rewrite lookup_insert_ne in Hq by done. by apply (Hc q').
Qed.

Lemma note_safe {X} q u m (k : unit → act X) :
  safe_from coherent any (k tt) →
  safe_from coherent any ((this, _messageUids ::= <[q := u]>) >> bind (this, _messages ::= λ l, mset l u m) k).
Proof. intros Hk c Hc. rewrite !bind_modify. apply Hk. by apply coherent_note. Qed.

Lemma note_only_safe q u m :
  safe_from coherent any
    ((this, _messageUids ::= <[q := u]>) >> (this, _messages ::= λ l, mset l u m) : act unit).
Proof. intros c Hc. rewrite bind_modify, modify_run. split; [by apply coherent_note|done]. Qed.

Lemma forget_safe : safe_from coherent any (forget_messages : act unit).
Proof.
  intros c _. unfold forget_messages. rewrite bind_modify, modify_run. split; [|done].
  intros q u. cbn. by rewrite lookup_empty.
Qed.

Lemma auth_call_coherent {X} (f : A → A * option X) : safe_from coherent any (auth_call f : act X).
Proof. intros c Hc. unfold auth_call. destruct (f (_authenticator c)) as [a r]. by split. Qed.

Ltac cmethods_with tac := safe_unfold ltac:(first
  [ tac | apply forget_safe | apply auth_call_coherent ]).

Lemma onMessage_coherent m : safe_from coherent any (_onMessage m : act unit).
Proof. cmethods_with ltac:(first [apply note_only_safe | apply note_safe]). Qed.

Lemma deliver_coherent i o : safe_from coherent any (deliver i o : act (option nat)).
Proof.
  revert i. induction o as [|[m|x] o IH]; intros i; cbn [deliver]; [apply safe_ret|..].
  - apply safe_bind; [|intros [[]|]; [apply IH|apply safe_ret]].
    apply safe_catch; [apply safe_bind; [apply onMessage_coherent|intros; apply safe_ret]|apply safe_ret].
  - apply safe_bind; [cmethods_with fail|intros _; apply IH].
Qed.

Lemma sendTagged_coherent str s : safe_from coherent any (_sendTagged ev str s : act unit).
Proof. cmethods_with fail. Qed.

Lemma actionDone_coherent s : safe_from coherent any (_actionDone s : act unit).
Proof. cmethods_with fail. Qed.

Ltac csafe := cmethods_with ltac:(first [apply sendTagged_coherent | apply actionDone_coherent]).

Lemma serverFolderName_coherent f : safe_from coherent any (_getServerFolderName ev f : act jsstr).
Proof. csafe. Qed.

Lemma in_folder_coherent a : safe_from coherent any (run_in_folder ev a : act unit).
Proof. csafe. Qed.

Lemma actionAuth_coherent : safe_from coherent any (_actionAuth ev : act unit).
Proof. csafe. Qed.

Ltac cmethods := cmethods_with ltac:(first
  [ apply sendTagged_coherent | apply actionDone_coherent | apply serverFolderName_coherent
  | apply in_folder_coherent | apply actionAuth_coherent ]).

Lemma finish_coherent : safe_from coherent any (_actionFinishFolderDiscovery srv ev : act unit).
Proof. cmethods. Qed.

Lemma capability_coherent res : safe_from coherent any (_actionCapabilityResponse srv ev res : act unit).
Proof. cmethods. Qed.

Lemma id_coherent : safe_from coherent any (_actionId srv ev : act unit).
Proof. cmethods. Qed.

Lemma authResponse_coherent res : safe_from coherent any (_actionAuthResponse srv ev res : act unit).
Proof. cmethods_with ltac:(first [apply id_coherent | apply sendTagged_coherent | apply actionDone_coherent
                                | apply actionAuth_coherent]). Qed.

Lemma run_next_coherent n res : safe_from coherent any (run_next srv ev n res : act unit).
Proof.
  destruct n; cbn [run_next]; cmethods_with ltac:(first
    [ apply finish_coherent | apply capability_coherent | apply id_coherent | apply authResponse_coherent
    | apply sendTagged_coherent | apply actionDone_coherent | apply serverFolderName_coherent
    | apply in_folder_coherent | apply actionAuth_coherent ]).
Qed.

Lemma request_coherent r : safe_from coherent any (run_request ev r : act unit).
Proof. destruct r; cbn [run_request]; cmethods. Qed.

Lemma handle_coherent i : safe_from coherent any (handle srv ev i : act unit).
Proof.
  destruct i; cbn [handle]; [..|idtac]; cmethods_with ltac:(first
    [ apply request_coherent | apply run_next_coherent | apply deliver_coherent
    | apply sendTagged_coherent | apply actionDone_coherent | apply serverFolderName_coherent
    | apply actionAuth_coherent ]).
Qed.

(** C14. In every session - any requests, data, errors and reconnections - a UID
    that the map of message numbers has is that of a message kept, so that its flags
    and keywords are found by its number. Not every number below the number of
    messages has a UID: see [number_without_uid]. *)
Theorem messages_coherent inputs gmail tag auth store :
  coherent (run srv ev inputs (newImapClient srv gmail tag auth store)).1.1.
Proof.
  assert (Hr : ∀ c, coherent c → coherent (run srv ev inputs c).1.1).
  { induction inputs as [|i inputs IH]; intros c Hc; [done|]. rewrite imap_run_cons.
    pose proof (handle_coherent i c Hc) as Hh. destruct (handle srv ev i c) as [[c1 o1] y].
    destruct Hh as [Hh _]. specialize (IH c1 Hh). by destruct (run srv ev inputs c1) as [[c2 o2] z]. }
  apply Hr. intros q u. cbn. by rewrite lookup_empty.
Qed.

(** The message numbers the folder goes through, those below the number of
    messages, need not have UIDs: when the first the server says of a folder is
    the flags of a message other than its first, there is one message, and
    [getUidOfMessage(0)] is missing. *)
Theorem number_without_uid q u fl (c : client) f st :
  1 < q → 0 < u → folder_ c = Some f → _folderState c = Some st →
  _messageUids c = ∅ → _messages c = [] →
  ∃ c' : client, _onMessage (flags_message q u fl) c = (c', [notice f st (u, fl)], Some tt) ∧
    let spec := spec_of st (_messageUids c') (_messages c') in
    numMessages spec = 1 ∧ (flagState spec).1 !! Some 1 = None.
Proof.
  intros Hq Hu Hf Hst Hi Hm.
  destruct (onMessage_flags q u fl c f st) as (c' & E & _ & _ & _ & Eu & Em & _); [lia|done..|].
  exists c'. split; [done|]. cbn [spec_of numMessages flagState fst]. rewrite Eu, Em, Hi, Hm.
  split; [done|]. by rewrite lookup_insert_ne by (intros [= ?]; lia).
Qed.
End Sync.

(** ** The theorems at a client of the sample server *)

Definition sample_messages : list (Z * list jsstr) := [(4, [js "\Seen"]); (9, [])].

(** INBOX is selected and the flags of its messages are awaited. *)
Definition sampleSyncing : ImapClient unit unit :=
  sampleOnline <| folder_ := Some 0%nat |> <| _folderState := Some newImapResponse |>
    <| _nextAction := Some NFetch |>.

Lemma sample_messages_good : Forall good_message sample_messages.
Proof.
  constructor; [split; [done|]|constructor; [split; [done|constructor]|constructor]].
  constructor; [|constructor]. split; [by apply word_dec|closed].
Qed.

Lemma flags_synced_witness :
  let o := map (notice 0 newImapResponse) sample_messages in
  ∃ c' spec o',
    sample_run (flat_map chunk [wire (flag_lines 1 sample_messages) ++ ok_text]) sampleSyncing
    = (c', o ++ UpdateImapMailboxInfo 0 spec :: o', Some tt) ∧
    numMessages spec = 2 ∧
    o' = [Send false false (command_line sampleSyncing
            (js "UID FETCH 1:9 " ++ header_items sampleSyncing))].
Proof.
  intros o.
  assert (Hsync : syncing sampleSyncing 0 newImapResponse) by (constructor; done || by constructor).
  assert (Hnd : NoDup sample_messages.*1) by (apply (bool_decide_unpack _); vm_compute; exact Logic.I).
  assert (Hne : Forall (λ x, x ≠ []) [wire (flag_lines 1 sample_messages) ++ ok_text]).
  { constructor; [by vm_compute|constructor]. }
  destruct (flags_synced (sampleServer plain passwordCleartext) sampleEnv sampleSyncing 0 newImapResponse
    sample_messages [wire (flag_lines 1 sample_messages) ++ ok_text] (js "1") (js "done") Hsync eq_refl
    eq_refl sample_messages_good Hnd eq_refl (sample_last _ plain_OK) Hne (app_nil_r _))
    as (c' & spec & o' & He & Hnum & _ & Ho').
  exists c', spec, o'. split; [exact He|]. split; [exact Hnum|].
  exact (Ho' false 9 [] eq_refl eq_refl eq_refl).
Defined.

Lemma messages_outlive_folder_witness :
  let c := sampleSyncing <| _messages := [(Some (Some 4), flags_message 1 4 [])] |> in
  ∃ c' o spec,
    sample_run (IRequest (SelectFolder 1) :: flat_map chunk [ok_text] ++ chunk ok_text) c
    = (c', o, Some tt) ∧
    UpdateImapMailboxInfo 1 spec ∈ o ∧ numMessages spec = 1.
Proof.
  intros c.
  destruct (messages_outlive_folder (sampleServer plain passwordCleartext) sampleEnv false 1 (js "Work") []
    (mkUrl false false) c [ok_text] [] (js "1") (js "done") (js "1") (js "done"))
    as (c' & o & spec & He & Ho & Hn & _); try done; try (by apply sample_last, plain_OK).
  - by repeat constructor.
  - by exists c', o, spec.
Defined.
