(* ===== verification/ImapFaults.v ===== *)
(** * ImapFaults: where the IMAP client does not do what it means to

    Sessions of ImapClient.v, run: a password that comes late goes out in clear; what
    was received in clear is handled as if it had come after STARTTLS; a push of the
    server that comes in two parts while the client idles is lost; an IDLE survives
    the connection it was on; a subscription never frees the client. *)

From S2P Require Import Prelude Effects Net Auth MimeUtils ImapUtils ImapResponse ImapText ImapClient.
From S2P Require Import ImapSafety ImapRequests.

(** ** Sessions *)

Abbreviation sample := (ImapClient unit unit).

Definition session_of (t : nsMsgSocketType) (inputs : list input) : sample * list event :=
  (run (sampleServer t passwordCleartext) sampleEnv inputs (sampleClient t passwordCleartext)).1.

(** A request is started, and the connection made. *)
Definition connecting : list input := [IStartRunningUrl true false None; IConnect; IOpen].

Definition tls_greeting : list input := line (js "* OK [CAPABILITY IMAP4rev1 STARTTLS] hi").

(** STARTTLS, on a server that only knows LOGIN: then a password is asked for. *)
Definition password_awaited : list input :=
  connecting ++ tls_greeting ++ line (js "1 OK go") ++
  chunk (js "* CAPABILITY IMAP4rev1" ++ CRLF ++ js "2 OK done" ++ CRLF).

(** The connection fails and another is made. *)
Definition reconnected : list input :=
  [IError false 1; ISecurityInfo 1 false; IClosed] ++ connecting.

(** A login on a connection without STARTTLS, up to an IDLE in INBOX. *)
Definition logged_in : list input :=
  connecting ++ line (js "* OK [CAPABILITY IMAP4rev1 AUTH=PLAIN] hi") ++ line (js "+ ") ++
  [IPlainToken (Some (js "abc"))] ++ line (js "3 OK [CAPABILITY IMAP4rev1 IDLE] done").

Definition idling_in_inbox : list input :=
  logged_in ++ [IRequest (SelectFolder 0)] ++ line (js "4 OK x") ++ line (js "5 OK x") ++
  [IRequest Idle] ++ line (js "+ idling").

Lemma run_split {A F} `{Authenticator A} `{ImapFolders F} srv ev is1 is2 (c : ImapClient A F) c1 o1 :
  (run srv ev is1 c).1 = (c1, o1) →
  (run srv ev (is1 ++ is2) c).1
  = ((run srv ev is2 c1).1.1, o1 ++ (run srv ev is2 c1).1.2).
Proof.
  intros H1. rewrite imap_run_app. destruct (run srv ev is1 c) as [[c1' o1'] r1]. injection H1 as -> ->.
  by destruct (run srv ev is2 c1) as [[c2 o2] r2].
Qed.

Lemma session_app t is1 is2 :
  (session_of t (is1 ++ is2)).2
  = (session_of t is1).2
    ++ (run (sampleServer t passwordCleartext) sampleEnv is2 (session_of t is1).1).1.2.
Proof.
  unfold session_of. generalize (sampleServer t passwordCleartext), (sampleClient t passwordCleartext).
  intros srv c. by rewrite (run_split srv sampleEnv is1 is2 c _ _ (surjective_pairing _)).
Qed.

(** ** Theorems *)

(** A password asked for STARTTLS is still awaited on the next connection. *)
Lemma late_client :
  let c := (session_of alwaysSTARTTLS_ (password_awaited ++ reconnected)).1 in
  _socket c = Some (mkTCPSocket Open false) ∧ _idling c = false ∧ _utf8Enabled c = false ∧ _tag c = 3.
Proof. vm_compute. by split_and!. Qed.

Lemma password_sent {A F} `{Authenticator A} `{ImapFolders F} srv ev (c : ImapClient A F) b pw :
  _socket c = Some (mkTCPSocket Open b) → _idling c = false → _utf8Enabled c = false →
  Send b true (byteStringToUint8Array ((num_str ((_tag c + 1) mod 100) ++ SP :: js "LOGIN " ++
    username (_authenticator c) ++ SP :: pw) ++ CRLF))
  ∈ (run srv ev [IPassword UseOldLogin (Password pw)] c).1.2.
Proof.
  intros Hs Hi Hu. rewrite imap_run_cons.
  cbn [handle password_arrived password_used]. rewrite bind_gets. unfold id, _sendTagged.
  rewrite bind_gets. unfold id. rewrite Hi. unfold _getNextTag.
  rewrite bind_assoc, bind_modify, bind_gets. unfold _send. rewrite bind_gets. unfold id.
  change (_socket (update _ c)) with (_socket c). rewrite Hs. unfold isOnline.
  change (_socket (update _ c)) with (_socket c). rewrite Hs. cbn [readyState ssl].
  rewrite bool_decide_eq_true_2 by done. cbn [when]. unfold tell. rewrite bind_modify, emit_run.
  unfold encode. change (_utf8Enabled (update _ c)) with (_utf8Enabled c). rewrite Hu.
  change (_tag (update _ c)) with ((_tag c + 1) mod 100). by left.
Qed.

(** The password of a LOGIN is sent when it arrives, on whatever connection is then
    open: when the connection was lost while the user was asked, it is sent in
    clear on the next one, although STARTTLS is required. *)
Theorem imap_late_password_in_clear pw :
  Send false true (byteStringToUint8Array ((js "4 LOGIN user " ++ pw) ++ CRLF))
  ∈ (session_of alwaysSTARTTLS_
       (password_awaited ++ reconnected ++ [IPassword UseOldLogin (Password pw)])).2.
Proof.
  rewrite (assoc_L (++)), session_app. apply elem_of_app. right.
  destruct late_client as (Hs & Hi & Hu & Ht).
  pose proof (password_sent (sampleServer alwaysSTARTTLS_ passwordCleartext) sampleEnv _ false pw
    Hs Hi Hu) as Hp.
  rewrite Ht in Hp. revert Hp. generalize (session_of alwaysSTARTTLS_ (password_awaited ++ reconnected)).1.
  intros c Hp. exact Hp.
Qed.

(** Data is handled after a timer, and the connection may be made secure between its
    arrival and its handling: capabilities that came in clear, in a chunk of their
    own after the answer to STARTTLS, are taken for the answer to the CAPABILITY sent
    after the handshake, and decide how the client authenticates. *)
Theorem cleartext_capabilities_used :
  let o := (session_of alwaysSTARTTLS_
      (connecting ++ tls_greeting ++
       [IData (js "1 OK go" ++ CRLF);
        IData (js "* CAPABILITY IMAP4rev1 AUTH=PLAIN" ++ CRLF ++ js "2 OK done" ++ CRLF)] ++
       [IDeferred; IDeferred])).2 in
  ∃ o1 o2 o3, o = o1 ++ UpgradeToSecure :: o2
                  ++ Send true false (js "3 AUTHENTICATE PLAIN" ++ CRLF) :: o3.
Proof.
  eexists [_; _; _; _; _; _], [_; _], []. vm_compute. reflexivity.
Qed.

(** The folder is told that there is something to fetch. *)
Definition biff (o : list event) : bool :=
  existsb (λ e, match e with PerformingBiff _ => true | _ => false end) o.

Definition push : jsstr := js "* 3 EXISTS" ++ CRLF.

Lemma push_cut k :
  (0 < k < 12)%nat →
  biff (session_of plain (idling_in_inbox ++ chunk (take k push) ++ chunk (drop k push))).2 = false.
Proof.
  intros Hk. rewrite session_app.
  set (told := λ k, biff ((session_of plain idling_in_inbox).2 ++
    (run (sampleServer plain passwordCleartext) sampleEnv
         (chunk (take k push) ++ chunk (drop k push)) (session_of plain idling_in_inbox).1).1.2)).
  assert (Hall : forallb (λ k, negb (told k)) (seq 1 11) = true) by (vm_compute; reflexivity).
  change (told k = false). clearbody told. rewrite forallb_forall in Hall.
  apply negb_true_iff, Hall, in_seq. lia.
Qed.

(** While the client idles every chunk is a response of its own.  So a push of
    the server that arrives in two parts, wherever it is cut, is lost: the folder is
    not told, and nothing is asked of the server; in one part, it would be. *)
Theorem idle_push_lost x y :
  x ++ y = push → x ≠ [] → y ≠ [] →
  biff (session_of plain (idling_in_inbox ++ chunk push)).2 = true ∧
  biff (session_of plain (idling_in_inbox ++ chunk x ++ chunk y)).2 = false.
Proof.
  intros He Hx Hy. split; [vm_compute; reflexivity|].
  assert (Hlen : (0 < length x < 12)%nat).
  { apply (f_equal length) in He. rewrite length_app in He. cbn in He.
    destruct x, y; try done; cbn in *; lia. }
  replace x with (take (length x) push) by (by rewrite <- He, take_app_length).
  replace y with (drop (length x) push) by (by rewrite <- He, drop_app_length).
  by apply push_cut.
Qed.

Lemma idle_push_lost_witness :
  js "* 3" ++ js " EXISTS" ++ CRLF = push ∧
  biff (session_of plain (idling_in_inbox ++ chunk push)).2 = true ∧
  biff (session_of plain (idling_in_inbox ++ chunk (js "* 3") ++ chunk (js " EXISTS" ++ CRLF))).2 = false.
Proof. split; [reflexivity|]. by apply idle_push_lost. Defined.

(** An IDLE survives its connection: after the server has closed it, the client
    begins the next one with DONE, before it has logged in, and waits for its answer
    with the command of the login kept back. *)
Theorem idle_survives_close :
  let '(c, o) := session_of plain
    (idling_in_inbox ++ [IClosed] ++ connecting ++
     line (js "* OK [CAPABILITY IMAP4rev1 AUTH=PLAIN] hi")) in
  last (List.filter (λ e, match e with Send _ _ _ => true | _ => false end) o)
  = Some (Send false false (js "DONE" ++ CRLF)) ∧
  _nextAction c = Some (NEndIdle (EISend (Some NAuthPlain) (js "AUTHENTICATE PLAIN") false)).
Proof. vm_compute. by split. Qed.

Section Subscribe.
Context {A F : Type} `{Authenticator A} `{ImapFolders F}.
Variable srv : ImapServer.
Variable ev : env.

(** A subscription never ends: whatever OK responses arrive after it, the client is
    not freed, and each of them lists the folders of the server anew. *)
Theorem subscribe_never_frees b n answers (c : ImapClient A F) :
  usable b c → _idling c = false → Forall good_answer answers →
  ∃ c', run srv ev (IRequest (SubscribeFolder n) :: ok_lines answers) c
        = (c', Send b false (command_line c (js "SUBSCRIBE " ++ quote n))
               :: map (λ _, PerformExpand) answers, Some tt) ∧
        _nextAction c' = Some NPerformExpand.
Proof.
  intros Hu Hi Hok. rewrite imap_run_cons. cbn [handle run_request]. unfold subscribeFolder, next.
  rewrite bind_modify.
  destruct (command_sent ev b (c <| _nextAction := Some NPerformExpand |>) (js "SUBSCRIBE " ++ quote n))
    as (c1 & -> & Hu1 & Hi1 & Hx & _); [by destruct Hu|done|].
  injection Hx as Hn _ _ _ _ _ _ _.
  assert (Hloop : ∃ c', run srv ev (ok_lines answers) c1 = (c', map (λ _, PerformExpand) answers, Some tt) ∧
    _nextAction c' = Some NPerformExpand).
  { clear Hu Hi. revert c1 Hu1 Hi1 Hn. induction Hok as [|[t x] answers Ha _ IH]; intros c1 Hu1 Hi1 Hn.
    - by exists c1.
    - cbn [ok_lines flat_map fst snd map]. rewrite imap_run_app. fold (ok_lines answers).
      destruct (answer_run srv ev b c1 t x Hu1 Hi1 Ha) as (r & Hr & ->). rewrite Hn. cbn [run_next].
      unfold tell. rewrite bind_modify, emit_run.
      match goal with |- context [run srv ev (ok_lines answers) ?s] => set (c2 := s) end.
      destruct (IH c2) as (c3 & -> & Hn3); [|done|done|by exists c3].
      assert (usable b (with_response c1 r)) as Hu2 by (by apply usable_response). by destruct Hu2. }
  destruct Hloop as (c2 & -> & Hn2). by exists c2.
Qed.
End Subscribe.
