(* ===== verification/SuffixTree.v ===== *)
(** * SuffixTree: the suffix tree of several strings

    mailnews/db/gloda/modules/SuffixTree.sys.mjs, which the completion of
    contacts and tags searches.  The states are objects that refer to each other
    and are changed in place: here they are a list, the heap, and a reference is
    an index in it; the root is the first.  [null] is [None], and a suffix that
    was never assigned is [undefined].  A method that throws, which is what
    reading a property of [null] or [undefined] does, is [None]. *)

From S2P Require Import Prelude.

(** ** States *)

(** A reference to a state, or [null]. *)
Abbreviation ref := (option nat).

Inductive suffix_field := Undefined | Suffix (r : ref).

Record State := mkState {
  start : Z;
  end_ : Z;
  suffix : suffix_field;
  edges : list (jsstr * nat)      (* the attributes added, in their order *)
}.

(** [new State(aStartIndex, aEndIndex)]. *)
Definition newState (aStartIndex aEndIndex : Z) : State := mkState aStartIndex aEndIndex Undefined [].

Definition state_length (st : State) : Z := end_ st - start st.

Definition set_start (v : Z) (st : State) : State := mkState v (end_ st) (suffix st) (edges st).
Definition set_suffix (r : ref) (st : State) : State := mkState (start st) (end_ st) (Suffix r) (edges st).
Definition set_edge (key : jsstr) (n : nat) (st : State) : State :=
  mkState (start st) (end_ st) (suffix st) (mset (edges st) key n).

Abbreviation heap := (list State).

Definition root : nat := 0.

(** The attribute name [str[i]]. *)
Definition key_at (str : jsstr) (i : Z) : jsstr :=
  match charAt str i with Some c => [c] | None => undefined_str end.

(** [aState[str[i]]]; throws on [null]. *)
Definition edge_at (str : jsstr) (h : heap) (aState : ref) (i : Z) : option nat :=
  n ← aState; st ← h !! n; mget (edges st) (key_at str i).

(** ** The construction *)

Section Construct.
Variables (str : jsstr) (infinity : Z).

(** The loop of [_canonize]. *)
Fixpoint canonize_loop (fuel : nat) (h : heap) (aState : ref) (statePrime : nat) (aStart aEnd : Z) :
    option (ref * Z) :=
  match fuel with
  | O => None
  | S f =>
      sp ← h !! statePrime;
      if state_length sp <=? aEnd - aStart then
        let aStart := aStart + state_length sp in
        if aStart <? aEnd then
          statePrime' ← edge_at str h (Some statePrime) aStart;
          canonize_loop f h (Some statePrime) statePrime' aStart aEnd
        else canonize_loop f h (Some statePrime) statePrime aStart aEnd
      else Some (aState, aStart)
  end.

(** Every iteration moves [aStart] forward. *)
Definition _canonize (h : heap) (aState : ref) (aStart aEnd : Z) : option (ref * Z) :=
  if aEnd <=? aStart then Some (aState, aStart)
  else
    statePrime ← match aState with
                 | None => Some root
                 | Some _ => edge_at str h aState aStart
                 end;
    canonize_loop (S (S (Z.to_nat (aEnd - aStart)))) h aState statePrime aStart aEnd.

(** What a split does to the heap: aState -> rState -> statePrime. *)
Definition split_heap (h : heap) (n statePrime : nat) (sp : State) (length_ : Z) : heap :=
  let r := length h in
  let rState := newState (start sp) (start sp + length_) in
  let h := alter (set_edge (key_at str (start sp)) r) n h in
  let h := alter (set_start (start sp + length_)) statePrime h in
  h ++ [set_edge (key_at str (start sp + length_)) statePrime rState].

Definition _testAndSplit (h : heap) (aState : ref) (aStart aEnd : Z) (aChar : jsstr) :
    option (heap * (bool * ref)) :=
  if aStart <? aEnd then
    n ← aState;
    statePrime ← edge_at str h aState aStart;
    sp ← h !! statePrime;
    let length_ := aEnd - aStart in
    if aChar ==s key_at str (start sp + length_) then Some (h, (true, aState))
    else Some (split_heap h n statePrime sp length_, (false, Some (length h)))
  else
    match aState with
    | None => Some (h, (true, aState))
    | Some n => st ← h !! n; Some (h, (mhas (edges st) aChar, aState))
    end.

(** The loop of [_update]. *)
Fixpoint update_loop (fuel : nat) (h : heap) (aIndex : Z) (oldR : nat) (aState : ref) (aStart : Z)
    (endPoint : bool) (rState : ref) : option (heap * nat * ref * Z) :=
  match fuel with
  | O => None
  | S f =>
      if endPoint then Some (h, oldR, aState, aStart)
      else
        r ← rState;
        let rPrime := length h in
        let h := alter (set_edge (key_at str aIndex) rPrime) r h ++ [newState aIndex infinity] in
        let h := if (oldR =? root)%nat then h else alter (set_suffix (Some r)) oldR h in
        n ← aState; st ← h !! n;
        '(aState, aStart) ← match suffix st with
                            | Undefined => None
                            | Suffix s => _canonize h s aStart aIndex
                            end;
        '(h, (endPoint, rState)) ← _testAndSplit h aState aStart aIndex (key_at str aIndex);
        update_loop f h aIndex r aState aStart endPoint rState
  end.

(** Every iteration leaves one suffix fewer. *)
Definition _update (h : heap) (aState : ref) (aStart aIndex : Z) : option (heap * ref * Z) :=
  '(h, (endPoint, rState)) ← _testAndSplit h aState aStart aIndex (key_at str aIndex);
  '(h, oldR, aState, aStart) ← update_loop (S (S (length str))) h aIndex root aState aStart endPoint rState;
  let h := if (oldR =? root)%nat then h else alter (set_suffix aState) oldR h in
  Some (h, aState, aStart).

(** The loop of [_construct], from character [i] on. *)
Fixpoint construct_loop (n : nat) (i : Z) (h : heap) (state : ref) (start : Z) : option (heap * ref * Z) :=
  match n with
  | O => Some (h, state, start)
  | S n =>
      '(h, state, start) ← _update h state start i;
      '(state, start) ← _canonize h state start (i + 1);
      construct_loop n (i + 1) h state start
  end.

Definition new_root : State := mkState (-1) 0 (Suffix None) [].

Definition _construct : option heap :=
  '(h, _, _) ← construct_loop (length str) 0 [new_root] (Some root) 0; Some h.
End Construct.

(** ** The tree *)

(** One entry of [_offsetsToItems], which the source keeps flat: the start and
    the end of a string in [_str], and its item. *)
Record origin (Item : Type) := mkOrigin { o_start : Z; o_end : Z; o_item : Item }.
Arguments mkOrigin {Item}.
Arguments o_start {Item}.
Arguments o_end {Item}.
Arguments o_item {Item}.

Record tree (Item : Type) := mkTree {
  _str : jsstr;
  _infinity : Z;
  _heap : heap;
  _offsetsToItems : list (origin Item);
  _numItems : Z
}.
Arguments mkTree {Item}.
Arguments _str {Item}.
Arguments _infinity {Item}.
Arguments _heap {Item}.
Arguments _offsetsToItems {Item}.
Arguments _numItems {Item}.

(** [_infinity] of a string. *)
Definition infinity_of (s : jsstr) : Z := slen s + 1.

Section Tree.
Context {Item : Type}.

(** The loop of the constructor: [s] and [offsetsToItems]. *)
Fixpoint add_strings (l : list (jsstr * Item)) (s : jsstr) (offsets : list (origin Item)) :
    jsstr * list (origin Item) :=
  match l with
  | [] => (s, offsets)
  | (str, item) :: l => add_strings l (s ++ str) (offsets ++ [mkOrigin (slen s) (slen (s ++ str)) item])
  end.

Definition MultiSuffixTree (aStrings : list jsstr) (aItems : list Item) : option (tree Item) :=
  if (length aStrings =? length aItems)%nat then
    let '(s, offsetsToItems) := add_strings (zip aStrings aItems) [] [] in
    h ← _construct s (infinity_of s);
    Some (mkTree s (infinity_of s) h offsetsToItems (Z.of_nat (length aItems)))
  else None.

(** *** Searching *)

Variable t : tree Item.

(** The binary search: [mid], [stringStart] and the item there, of the last
    iteration. *)
Fixpoint find_string (fuel : nat) (low high patternLast : Z) (found : option (origin Item)) :
    option (origin Item) :=
  match fuel with
  | O => found
  | S f =>
      if high <? low then found
      else
        let mid := low + (high - low) / 2 in
        match _offsetsToItems t !! Z.to_nat mid with
        | None => None
        | Some o =>
            let startDelta := o_start o - patternLast in
            let endDelta := o_end o - patternLast in
            if 0 <? startDelta then find_string f low (mid - 1) patternLast (Some o)
            else if endDelta <=? 0 then find_string f (mid + 1) high patternLast (Some o)
            else Some o
        end
  end.

Definition search_string (patternLast : Z) : option (origin Item) :=
  find_string (S (length (_offsetsToItems t))) 0 (_numItems t - 1) patternLast None.

(** The results and [aPresence], after a state whose match ends at
    [patternLast].  Without a string, [stringStart] is undefined and no
    comparison with it is true. *)
Definition note_match (aPatLength : Z) (acc : list Item * list Z) (patternLast : Z) : list Item * list Z :=
  let '(aResults, aPresence) := acc in
  let patternFirst := patternLast - (aPatLength - 1) in
  match search_string patternLast with
  | Some o =>
      if (o_start o <=? patternFirst) && negb (bool_decide (o_start o ∈ aPresence))
      then (aResults ++ [o_item o], aPresence ++ [o_start o])
      else acc
  | None => acc
  end.

(** The order of [for ... in]: the digits, and then the others as they were
    added. *)
Definition is_digit_key (e : jsstr * nat) : bool :=
  match e.1 with [c] => is_digit c | _ => false end.
Definition digit_edges (es : list (jsstr * nat)) : list (jsstr * nat) :=
  flat_map (λ d, List.filter (λ e, e.1 ==s [d]) es) [48; 49; 50; 51; 52; 53; 54; 55; 56; 57].
Definition children (st : State) : list nat :=
  map snd (List.filter (λ e, length e.1 =? 1)%nat
    (digit_edges (edges st) ++ List.filter (λ e, negb (is_digit_key e)) (edges st))).

Fixpoint _resultGather (fuel : nat) (aState : nat) (acc : list Item * list Z) (aPatLength aDelta : Z) :
    option (list Item * list Z) :=
  match fuel with
  | O => None
  | S f =>
      st ← _heap t !! aState;
      foldl (λ acc statePrime, acc ← acc;
               _resultGather f statePrime acc aPatLength (aDelta + state_length st))
            (Some (note_match aPatLength acc (start st - aDelta))) (children st)
  end.

(** The loop of [findMatches]: where the edges of [aSubstring] lead, and how
    far; nowhere is [None]. *)
Fixpoint follow (fuel : nat) (aSubstring : jsstr) (state : nat) (index : Z) : option (option (nat * Z)) :=
  match fuel with
  | O => None
  | S f =>
      let end_ := slen aSubstring in
      if index <? end_ then
        st ← _heap t !! state;
        match mget (edges st) (key_at aSubstring index) with
        | None => Some None
        | Some state =>
            st ← _heap t !! state;
            let actualTraverseLength := Z.min (state_length st) (end_ - index) in
            if substring (_str t) (start st) (start st + actualTraverseLength)
               ==s substring aSubstring index (index + actualTraverseLength)
            then follow f aSubstring state (index + state_length st)
            else Some None
        end
      else Some (Some (state, index))
  end.

(** Every edge is longer than zero, and so is every step down the tree. *)
Definition findMatches (aSubstring : jsstr) : option (list Item) :=
  r ← follow (S (length aSubstring)) aSubstring root 0;
  match r with
  | None => Some []
  | Some (state, index) =>
      st ← _heap t !! state;
      let delta := index - state_length st - slen aSubstring + 1 in
      '(results, _) ← _resultGather (S (S (length (_str t)))) state ([], []) (slen aSubstring) delta;
      Some results
  end.
End Tree.
