(* ===== verification/SuffixTreeInv.v ===== *)
(** * SuffixTreeInv: what the construction of the suffix tree keeps

    The invariant of the construction in SuffixTree.v, after Ukkonen: which words
    the states stand for ([lab]), which edges there are, and where the suffix
    links lead.  Positions and lengths are natural numbers, and a word is where
    the string has it. *)

From S2P Require Import Prelude SuffixTree.

(** ** Words of a string *)

Lemma prefix_take_eq {A} (u v : list A) : u `prefix_of` v → take (length u) v = u.
Proof. intros [r ->]. by rewrite take_app_length. Qed.

Lemma prefix_same_length {A} (u v : list A) :
  u `prefix_of` v → (length v <= length u)%nat → u = v.
Proof. intros Hp Hl. rewrite <- (prefix_take_eq u v Hp). by apply take_ge. Qed.

Lemma prefix_snoc_take {A} (u v : list A) c q :
  u ++ [c] `prefix_of` v → q = S (length u) → take q v = u ++ [c].
Proof. intros Hp ->. rewrite <- (prefix_take_eq _ _ Hp). f_equal. rewrite length_app. cbn. lia. Qed.

Lemma take_prefix_le {A} (l : list A) n m : (n <= m)%nat → take n l `prefix_of` take m l.
Proof. intros. replace n with (n `min` m)%nat by lia. rewrite <- take_take. apply prefix_take. Qed.

Section Words.
Variable s : jsstr.

(** The characters from [j] to [e]. *)
Definition sub (j e : nat) : jsstr := take (e - j) (drop j s).

(** [v] is at position [j]. *)
Definition at_pos (v : jsstr) (j : nat) : Prop := v `prefix_of` drop j s.

Lemma length_sub j e : (j <= e)%nat → (e <= length s)%nat → length (sub j e) = (e - j)%nat.
Proof. intros. unfold sub. rewrite length_take, length_drop. lia. Qed.

Lemma sub_at j e : at_pos (sub j e) j.
Proof. unfold at_pos, sub. eexists. by rewrite take_drop. Qed.

Lemma at_take v j : at_pos v j → v = take (length v) (drop j s).
Proof. intros [r ->]. by rewrite take_app_length. Qed.

Lemma at_sub v j e : at_pos v j → (j + length v = e)%nat → v = sub j e.
Proof. intros Hv <-. unfold sub. rewrite (at_take v j Hv) at 1. f_equal. lia. Qed.

Lemma at_length v j : at_pos v j → v ≠ [] → (j + length v <= length s)%nat.
Proof.
  intros Hv%prefix_length Hn. rewrite length_drop in Hv. destruct v; [done|]. cbn in *. lia.
Qed.

Lemma at_prefix u v j : u `prefix_of` v → at_pos v j → at_pos u j.
Proof. unfold at_pos. intros. by trans v. Qed.

Lemma at_compare u v j : at_pos u j → at_pos v j → (length u <= length v)%nat → u `prefix_of` v.
Proof.
  intros Hu Hv Hl. destruct (prefix_weak_total _ _ _ Hu Hv) as [|Hp]; [done|].
  pose proof (prefix_length _ _ Hp). destruct Hp as [k ->]. rewrite length_app in *.
  destruct k; [by rewrite app_nil_r|cbn in *; lia].
Qed.

Lemma at_snoc v c j : at_pos (v ++ [c]) j ↔ at_pos v j ∧ s !! (j + length v)%nat = Some c.
Proof.
  unfold at_pos. rewrite <- lookup_drop. split.
  - intros [r ->]. rewrite <- (assoc_L (++)). split; [by eexists|].
    cbn [app]. by rewrite list_lookup_middle.
  - intros [[r ->] Hc]. rewrite lookup_app_r, Nat.sub_diag in Hc by done.
    destruct r as [|d r]; [done|]. injection Hc as ->. exists r. by rewrite <- (assoc_L (++)).
Qed.

Lemma at_tail a v j : at_pos (a :: v) j → at_pos v (S j).
Proof.
  unfold at_pos. intros [r Hr]. exists r. replace (S j) with (j + 1)%nat by lia.
  by rewrite <- drop_drop, Hr.
Qed.

Lemma sub_snoc j i t : (j <= i)%nat → s !! i = Some t → sub j (S i) = sub j i ++ [t].
Proof.
  intros Hj Hi. pose proof (lookup_lt_Some _ _ _ Hi).
  symmetry. apply at_sub; [|rewrite length_app, length_sub; cbn; lia].
  apply at_snoc. split; [apply sub_at|]. rewrite length_sub by lia.
  by replace (j + (i - j))%nat with i by lia.
Qed.

Lemma at_app u v j : at_pos (u ++ v) j ↔ at_pos u j ∧ at_pos v (j + length u).
Proof.
  unfold at_pos. rewrite <- drop_drop. split.
  - intros [r ->]. rewrite <- (assoc_L (++)), drop_app_length. split; by eexists.
  - intros [[r ->] Hv]. rewrite drop_app_length in Hv. by apply prefix_app.
Qed.

Lemma sub_split k j e :
  (k <= j)%nat → (j <= e)%nat → (e <= length s)%nat → sub k e = sub k j ++ sub j e.
Proof.
  intros. symmetry. apply at_sub; [|rewrite length_app, !length_sub by lia; lia].
  apply at_app. split; [apply sub_at|]. rewrite length_sub by lia.
  replace (k + (j - k))%nat with j by lia. apply sub_at.
Qed.

Lemma sub_cons k e :
  (1 <= k)%nat → (k <= e)%nat → (e <= length s)%nat → ∃ b, sub (k - 1) e = b :: sub k e.
Proof.
  intros. rewrite (sub_split (k - 1) k e) by lia.
  assert (length (sub (k - 1) k) = 1)%nat as Hl by (rewrite length_sub; lia).
  destruct (sub (k - 1) k) as [|b [|b' l]]; [done|by exists b|done].
Qed.

Lemma sub_nil i : sub i i = [].
Proof. unfold sub. by rewrite Nat.sub_diag. Qed.

(** The character after a word that is shorter than [sub k e]. *)
Lemma sub_next w k e :
  w `prefix_of` sub k e → (length w < e - k)%nat → (e <= length s)%nat →
  ∃ c, s !! (k + length w)%nat = Some c ∧ w ++ [c] `prefix_of` sub k e.
Proof.
  intros Hw Hl He.
  assert (Hw' : at_pos w k) by (eapply at_prefix; [done|apply sub_at]).
  destruct (lookup_lt_is_Some_2 s (k + length w)) as [c Hc]; [lia|]. exists c. split; [done|].
  apply (at_compare _ _ k); [by apply at_snoc|apply sub_at|].
  rewrite length_app, length_sub by lia. cbn. lia.
Qed.

(** ** Occurrences *)

(** [v] occurs in the first [e] characters. *)
Definition occ (e : nat) (v : jsstr) : Prop := ∃ j, at_pos v j ∧ (j + length v <= e)%nat.

(** [v] occurs in the first [i] characters, or ends with the next and starts
    before [k]: what the tree stands for while character [i] is added and the
    suffixes before [k] have it. *)
Definition occ_at (i k : nat) (v : jsstr) : Prop :=
  occ i v ∨ ∃ j, at_pos v j ∧ (j < k)%nat ∧ (j + length v = S i)%nat.

(** A set of words closed under prefixes. *)
Definition closed (O : jsstr → Prop) : Prop := ∀ u v, u `prefix_of` v → O v → O u.

Lemma occ_closed e : closed (occ e).
Proof.
  intros u v Hu (j & Hv & Hj). exists j. split; [by eapply at_prefix|].
  apply prefix_length in Hu. lia.
Qed.

Lemma occ_at_closed i k : closed (occ_at i k).
Proof.
  intros u v Hu [Hv|(j & Hv & Hj & He)]; [left; by eapply occ_closed|].
  pose proof (prefix_length _ _ Hu). destruct (decide (length u = length v)).
  - right. exists j. split_and!; [by eapply at_prefix|done|lia].
  - left. exists j. split; [by eapply at_prefix|lia].
Qed.

Lemma occ_tail e a v : occ e (a :: v) → occ e v.
Proof. intros (j & Hj%at_tail & He). exists (S j). split; [done|]. cbn in He. lia. Qed.

Lemma occ_sub k e : (k <= e)%nat → (e <= length s)%nat → occ e (sub k e).
Proof. intros. exists k. split; [apply sub_at|]. rewrite length_sub by lia. lia. Qed.

(** *** Suffixes that occur once *)

(** No suffix of the first [e] characters that starts before [k] occurs at an
    earlier position. *)
Definition fresh (e k : nat) : Prop := ∀ j j', (j' < j)%nat → (j < k)%nat → ¬ at_pos (sub j e) j'.

Lemma fresh_S e k : (k <= e)%nat → (S e <= length s)%nat → fresh e k → fresh (S e) k.
Proof.
  intros Hk He Hf j j' Hj' Hj Ha. apply (Hf j j'); [done..|].
  eapply at_prefix; [|exact Ha]. apply (at_compare _ _ j); [apply sub_at..|].
  rewrite !length_sub by lia. lia.
Qed.

(** Where two positions before [k] have a common word that reaches the end at
    the one, they are the same. *)
Lemma fresh_same e k j p x :
  fresh e k → (j < k)%nat → (p < k)%nat → at_pos x j → at_pos x p → (e <= j + length x)%nat → p = j.
Proof.
  assert (∀ j p, fresh e k → (p < j)%nat → (j < k)%nat → at_pos x j → at_pos x p →
    (e <= j + length x)%nat → False) as Hlt.
  { intros j' p' Hf Hlt Hk Hj Hp He. apply (Hf j' p'); [done..|]. eapply at_prefix; [|exact Hp].
    apply (at_compare _ _ j'); [apply sub_at|done|]. unfold sub. rewrite length_take. lia. }
  intros Hf Hj Hp Hxj Hxp He. destruct (Nat.lt_trichotomy p j) as [|[|]]; [|done|].
  - destruct (Hlt j p); done.
  - destruct (Hlt p j); try done. lia.
Qed.
End Words.

(** ** The invariant *)

Section Tree.
Variable s : jsstr.

Abbreviation labels := (gmap nat jsstr).

(** From the state [n] of the word [w] there is an edge for [c] to [m], whose
    word is [L]: a state with edges of its own, or a leaf, whose word goes to the
    end of the string.  The word was found at [pos]. *)
Record edge (h : heap) (lab : labels) (k : nat) (n : nat) (w : jsstr) (c : Z) (m pos : nat)
    (L : jsstr) : Prop := mkEdge {
  e_from : lab !! n = Some w;
  e_edge : ∃ st, h !! n = Some st ∧ mget (edges st) [c] = Some m;
  e_state : ∃ sp, h !! m = Some sp ∧ start sp = Z.of_nat (pos + length w) ∧
    (lab !! m = Some L ∧ end_ sp = Z.of_nat (pos + length L) ∨
     lab !! m = None ∧ L = drop pos s ∧ end_ sp = infinity_of s ∧ edges sp = []);
  e_word : w ++ [c] `prefix_of` L;
  e_at : at_pos s L pos;
  e_pos : (pos < k)%nat
}.

(** The tree is the one of the words [O]. *)
Record tree_inv (h : heap) (lab : labels) (k : nat) (O : jsstr → Prop) : Prop := mkTreeInv {
  t_root : lab !! root = Some [];
  t_root_state : ∃ st, h !! root = Some st ∧ start st = -1 ∧ end_ st = 0;
  t_states : ∀ n w, lab !! n = Some w → ∃ st, h !! n = Some st;
  t_inj : ∀ n m w, lab !! n = Some w → lab !! m = Some w → n = m;
  t_keys : ∀ n w st key m, lab !! n = Some w → h !! n = Some st → mget (edges st) key = Some m →
    ∃ c pos L, key = [c] ∧ edge h lab k n w c m pos L;
  t_edges : ∀ n w st c, lab !! n = Some w → h !! n = Some st →
    (mhas (edges st) [c] = true ↔ O (w ++ [c]));
  t_inner : ∀ n w c m pos L x d, edge h lab k n w c m pos L → w ++ [c] `prefix_of` x →
    x `prefix_of` L → x ≠ L → O (x ++ [d]) → x ++ [d] `prefix_of` L;
  t_parent : ∀ n w c m pos L n' w' c' pos' L', edge h lab k n w c m pos L →
    edge h lab k n' w' c' m pos' L' → n = n' ∧ c = c'
}.

(** The states but the root, and but [e], have two edges. *)
Definition branching (lab : labels) (O : jsstr → Prop) (e : ref) : Prop :=
  ∀ n w, lab !! n = Some w → n ≠ root → Some n ≠ e →
  ∃ d d', d ≠ d' ∧ O (w ++ [d]) ∧ O (w ++ [d']).

(** The suffix link of [n] leads to the word without its first character. *)
Definition link (h : heap) (lab : labels) (n : nat) : Prop :=
  ∃ st a v m, h !! n = Some st ∧ suffix st = Suffix (Some m) ∧ lab !! n = Some (a :: v) ∧
              lab !! m = Some v.

Definition links (h : heap) (lab : labels) (e : gset nat) : Prop :=
  (∃ st, h !! root = Some st ∧ suffix st = Suffix None) ∧
  ∀ n w, lab !! n = Some w → n ≠ root → n ∉ e → link h lab n.

(** Where [_canonize] leaves the suffix from [k] to [e]: at a state, or within
    an edge of a state; beyond the root for the suffix after the last. *)
Definition located (h : heap) (lab : labels) (k : nat) (st : ref) (a : Z) (kk e : nat) : Prop :=
  (st = None ∧ kk = S e ∧ a = Z.of_nat e) ∨
  (kk <= e)%nat ∧
  ∃ n w, st = Some n ∧ lab !! n = Some w ∧ w `prefix_of` sub s kk e ∧
    a = Z.of_nat (kk + length w) ∧
    (w = sub s kk e ∨
     ∃ c m pos L, edge h lab k n w c m pos L ∧ sub s kk e `prefix_of` L ∧ sub s kk e ≠ L ∧
                  w ++ [c] `prefix_of` sub s kk e).
End Tree.
