(* ===== verification/SuffixTreeWalk.v ===== *)
(** * SuffixTreeWalk: following the edges of the tree

    What [_canonize] of SuffixTree.v does on a tree with the invariant of
    SuffixTreeInv.v. *)

From S2P Require Import Prelude SuffixTree SuffixTreeInv.

Section Walk.
Variable s : jsstr.
Variables (h : heap) (lab : gmap nat jsstr) (k : nat) (O : jsstr → Prop).
Hypothesis T : tree_inv s h lab k O.
Hypothesis OC : closed O.

Abbreviation edge := (edge s h lab k).

(** ** Edges *)

Lemma edge_longer n w c m pos L : edge n w c m pos L → (length w < length L)%nat.
Proof. intros E. pose proof (prefix_length _ _ (e_word _ _ _ _ _ _ _ _ _ _ E)). rewrite length_app in *. cbn in *. lia. Qed.

(** A word of the tree that enters an edge follows it. *)
Lemma edge_compare n w c m pos L v :
  edge n w c m pos L → w ++ [c] `prefix_of` v → O v → L `prefix_of` v ∨ v `prefix_of` L.
Proof.
  intros E Hv HO.
  assert (∀ q, (q <= length L)%nat → (q <= length v)%nat → (length w < q)%nat → take q v = take q L) as Ht.
  { induction q as [|q IH]; intros H1 H2 H3; [lia|].
    destruct (decide (q = length w)) as [->|Hq].
    - rewrite (prefix_snoc_take w v c), (prefix_snoc_take w L c); [done|apply E|done..].
    - destruct (lookup_lt_is_Some_2 v q) as [d Hd]; [lia|].
      assert (Hp : take (S q) v = take q L ++ [d]).
      { rewrite (take_S_r _ _ d) by done. by rewrite IH by lia. }
      rewrite Hp. assert (Hx : take q L ++ [d] `prefix_of` L).
      { apply (t_inner _ _ _ _ _ T n w c m pos L); [done| |apply prefix_take| |].
        - rewrite <- (prefix_snoc_take w L c _ (e_word _ _ _ _ _ _ _ _ _ _ E) eq_refl).
          apply take_prefix_le; lia.
        - intros He. apply (f_equal length) in He. rewrite length_take in He. lia.
        - rewrite <- Hp. eapply OC; [|exact HO]. apply prefix_take. }
      symmetry. apply prefix_snoc_take; [done|]. rewrite length_take. lia. }
  pose proof (edge_longer _ _ _ _ _ _ E). apply prefix_length in Hv. rewrite length_app in Hv. cbn in Hv.
  destruct (decide (length L <= length v)%nat).
  - left. rewrite <- (take_ge L (length L)), <- Ht by lia. apply prefix_take.
  - right. rewrite <- (take_ge v (length v)), Ht by lia. apply prefix_take.
Qed.

(** A word of the tree that goes beyond a state enters an edge of it. *)
Lemma edge_enter n w c v :
  lab !! n = Some w → w ++ [c] `prefix_of` v → O v → ∃ m pos L, edge n w c m pos L.
Proof.
  intros Hn Hv HO. destruct (t_states _ _ _ _ _ T n w Hn) as [st Hst].
  assert (Hm : mhas (edges st) [c] = true).
  { apply (t_edges _ _ _ _ _ T n w st); [done..|]. by eapply OC. }
  unfold mhas in Hm. destruct (mget (edges st) [c]) as [m|] eqn:Hg; [|done].
  destruct (t_keys _ _ _ _ _ T n w st [c] m Hn Hst Hg) as (c' & pos & L & [= <-] & E). eauto.
Qed.

Lemma edge_step n w c m pos L i :
  edge n w c m pos L → 0 <= i → s !! Z.to_nat i = Some c →
  edge_at s h (Some n) i = Some m ∧
  ∃ sp, h !! m = Some sp ∧ start sp = Z.of_nat (pos + length w) ∧
        (lab !! m = Some L ∧ state_length sp = Z.of_nat (length L - length w) ∨
         lab !! m = None ∧ L = drop pos s ∧
         state_length sp = Z.of_nat (length s) + 1 - Z.of_nat (pos + length w)).
Proof.
  intros E Hi Hc. destruct (e_edge _ _ _ _ _ _ _ _ _ _ E) as (st & Hst & Hg).
  pose proof (edge_longer _ _ _ _ _ _ E).
  split.
  - unfold edge_at. cbn. rewrite Hst. cbn. unfold key_at, charAt.
    by rewrite (proj2 (Z.ltb_ge _ _)) by lia; rewrite Hc.
  - destruct (e_state _ _ _ _ _ _ _ _ _ _ E) as (sp & Hsp & Hstart & Hend).
    exists sp. split_and!; [done..|]. unfold state_length. rewrite Hstart.
    destruct Hend as [[Hm He]|(Hm & HL & He & _)]; rewrite He; [left|right].
    + split; [done|]. lia.
    + split_and!; [done..|]. unfold infinity_of, slen. lia.
Qed.

(** ** [_canonize] *)

(** The suffix from [kk] to [e], all of it a word of the tree; [v] is a name for it. *)
Variables (kk e : nat).
Hypothesis Hkk : (kk <= e)%nat.
Hypothesis He : (e <= length s)%nat.
Hypothesis Hk : (k <= kk)%nat.
Hypothesis HO : O (sub s kk e).

Abbreviation v := (sub s kk e).

Lemma length_v : length v = (e - kk)%nat.
Proof. by apply length_sub. Qed.

Lemma canonize_loop_spec f n w c m pos L :
  edge n w c m pos L → w ++ [c] `prefix_of` v → (e - kk - length w < f)%nat →
  ∃ st a, canonize_loop s (S f) h (Some n) m (Z.of_nat (kk + length w)) (Z.of_nat e) = Some (st, a) ∧
          located s h lab k st a kk e.
Proof.
  revert n w c m pos L. induction f as [|f IH]; intros n w c m pos L E Hv Hf; [lia|].
  pose proof (prefix_length _ _ Hv) as Hl. rewrite length_app, length_v in Hl. cbn in Hl.
  assert (Hc : s !! (kk + length w)%nat = Some c).
  { eapply (at_snoc s w c kk), at_prefix; [exact Hv|apply sub_at]. }
  destruct (edge_step _ _ _ _ _ _ (Z.of_nat (kk + length w)) E) as (_ & sp & Hsp & Hstart & Hlen);
    [lia|by rewrite Nat2Z.id|].
  pose proof (edge_longer _ _ _ _ _ _ E) as HL.
  remember (S f) as f' eqn:Ef'. cbn [canonize_loop]. rewrite Hsp. cbn [mbind option_bind].
  destruct (Z.leb_spec (state_length sp) (Z.of_nat e - Z.of_nat (kk + length w))) as [Hle|Hgt].
  - destruct Hlen as [[Hm Hlen]|(Hm & HLd & Hlen)].
    + assert (HLv : L `prefix_of` v).
      { destruct (edge_compare _ _ _ _ _ _ v E Hv HO) as [|Hp]; [done|].
        rewrite (prefix_same_length _ _ Hp); [done|]. rewrite length_v. lia. }
      pose proof (prefix_length _ _ HLv) as HLl. rewrite length_v in HLl.
      rewrite Hlen. replace (Z.of_nat (kk + length w) + Z.of_nat (length L - length w))
        with (Z.of_nat (kk + length L)) by lia.
      destruct (Z.ltb_spec (Z.of_nat (kk + length L)) (Z.of_nat e)) as [Hlt|Hge].
      * destruct (sub_next s L kk e HLv) as (d & Hd & HLd); [lia..|].
        destruct (edge_enter m L d v Hm HLd HO) as (m' & pos' & L' & E').
        destruct (edge_step _ _ _ _ _ _ (Z.of_nat (kk + length L)) E') as [-> _];
          [lia|by rewrite Nat2Z.id|]. cbn [mbind option_bind].
        subst f'. apply (IH m L d m' pos' L'); [done..|lia].
      * subst f'. cbn [canonize_loop]. rewrite Hsp. cbn [mbind option_bind].
        rewrite (proj2 (Z.leb_gt _ _)) by lia. eexists _, _. split; [done|].
        right. split; [done|]. exists m, L. split_and!; [done..|].
        left. apply prefix_same_length; [done|]. rewrite length_v. lia.
    + exfalso. pose proof (e_pos _ _ _ _ _ _ _ _ _ _ E). lia.
  - eexists _, _. split; [done|]. right. split; [done|]. exists n, w.
    split_and!; [done|apply E| |done|].
    { trans (w ++ [c]); [by eexists|done]. }
    right. exists c, m, pos, L.
    assert (HvL : v `prefix_of` L ∧ v ≠ L).
    { destruct Hlen as [[Hm Hlen]|(Hm & HLd & Hlen)].
      - assert ((length v < length L)%nat) by (rewrite length_v; lia).
        destruct (edge_compare _ _ _ _ _ _ v E Hv HO) as [Hp|Hp];
          [apply prefix_length in Hp; lia|]. split; [done|]. intros Hx. rewrite Hx in *. lia.
      - pose proof (e_pos _ _ _ _ _ _ _ _ _ _ E).
        assert ((length v < length L)%nat) by (rewrite length_v, HLd, length_drop; lia).
        destruct (edge_compare _ _ _ _ _ _ v E Hv HO) as [Hp|Hp];
          [apply prefix_length in Hp; lia|]. split; [done|]. intros Hx. rewrite Hx in *. lia. }
    destruct HvL. done.
Qed.

(** From a state above. *)
Lemma canonize_spec n w :
  lab !! n = Some w → w `prefix_of` v →
  ∃ st a, _canonize s h (Some n) (Z.of_nat (kk + length w)) (Z.of_nat e) = Some (st, a) ∧
          located s h lab k st a kk e.
Proof.
  intros Hn Hw. pose proof (prefix_length _ _ Hw) as Hl. rewrite length_v in Hl. unfold _canonize.
  destruct (Z.leb_spec (Z.of_nat e) (Z.of_nat (kk + length w))) as [Hle|Hlt].
  - eexists _, _. split; [done|]. right. split; [done|]. exists n, w. split_and!; [done..|]. left.
    apply prefix_same_length; [done|]. rewrite length_v. lia.
  - destruct (sub_next s w kk e Hw) as (c & Hc & Hwc); [lia..|].
    destruct (edge_enter n w c v Hn Hwc HO) as (m & pos & L & E).
    destruct (edge_step _ _ _ _ _ _ (Z.of_nat (kk + length w)) E) as [-> _]; [lia|by rewrite Nat2Z.id|].
    cbn [mbind option_bind]. apply (canonize_loop_spec _ n w c m pos L); [done..|lia].
Qed.

(** From above the root, from where every character leads to it. *)
Lemma canonize_bottom a :
  a = Z.of_nat kk - 1 →
  ∃ st b, _canonize s h None a (Z.of_nat e) = Some (st, b) ∧ located s h lab k st b kk e.
Proof.
  intros ->. unfold _canonize. rewrite (proj2 (Z.leb_gt _ _)) by lia. cbn [mbind option_bind].
  destruct (t_root_state _ _ _ _ _ T) as (st & Hst & Hs & Hen).
  replace (S (S (Z.to_nat (Z.of_nat e - (Z.of_nat kk - 1))))) with (S (S (S (e - kk)))) by lia.
  remember (S (S (e - kk))) as f eqn:Ef. cbn [canonize_loop]. rewrite Hst. cbn [mbind option_bind].
  unfold state_length. rewrite Hs, Hen. rewrite (proj2 (Z.leb_le _ _)) by lia.
  replace (Z.of_nat kk - 1 + (0 - -1)) with (Z.of_nat kk) by lia.
  destruct (Z.ltb_spec (Z.of_nat kk) (Z.of_nat e)) as [Hlt|Hge].
  - destruct (sub_next s [] kk e) as (c & Hc & Hwc); [apply prefix_nil|cbn; lia|done|].
    destruct (edge_enter root [] c v (t_root _ _ _ _ _ T) Hwc HO) as (m & pos & L & E).
    cbn [length] in Hc. rewrite Nat.add_0_r in Hc.
    destruct (edge_step _ _ _ _ _ _ (Z.of_nat kk) E) as [-> _]; [lia|by rewrite Nat2Z.id|].
    cbn [mbind option_bind]. subst f.
    destruct (canonize_loop_spec (S (e - kk)) root [] c m pos L E Hwc) as (st' & b & Hr & Hloc);
      [cbn; lia|]. cbn [length] in Hr. rewrite Nat.add_0_r in Hr. eauto.
  - subst f. cbn [canonize_loop]. rewrite Hst. cbn [mbind option_bind]. unfold state_length.
    rewrite Hs, Hen, (proj2 (Z.leb_gt _ _)) by lia. eexists _, _. split; [done|].
    right. split; [done|]. exists root, []. assert (kk = e) as -> by lia.
    split_and!; [done|apply T|apply prefix_nil|cbn; lia|]. left. by rewrite sub_nil.
Qed.
End Walk.
