(* ===== verification/SuffixTreeSteps.v ===== *)
(** * SuffixTreeSteps: the changes the construction makes to the tree

    A split, a new leaf, a suffix link, and the step from one character to the
    next, each with what it does to the invariant of SuffixTreeInv.v. *)

From S2P Require Import Prelude SuffixTree SuffixTreeInv SuffixTreeWalk.

(** ** The words of the tree *)

Section Phases.
Variables (s : jsstr) (h : heap) (lab : gmap nat jsstr).

Lemma tree_inv_iff k O O' :
  (∀ v, O v ↔ O' v) → tree_inv s h lab k O → tree_inv s h lab k O'.
Proof.
  intros HO T. destruct T as [T1 T2 T3 T4 T5 T6 T7 T8]. split; try done.
  - intros n w st c Hn Hst. rewrite <- HO. by apply (T6 n w).
  - intros n w c m pos L x d E H1 H2 H3. rewrite <- HO. by eapply T7.
Qed.

Lemma branching_mono O O' e : (∀ v, O v → O' v) → branching lab O e → branching lab O' e.
Proof.
  intros HO HB n w Hn Hr He. destruct (HB n w Hn Hr He) as (d & d' & Hd & H1 & H2).
  exists d, d'. auto.
Qed.

Lemma occ_occ_at i k v : occ s i v → occ_at s i k v.
Proof. by left. Qed.

(** The words before the suffixes from [k] on get their next character: the leaves
    have it, since the source lets them end at infinity. *)
Lemma phase_start i k :
  (k <= i)%nat → fresh s i k → branching lab (occ s i) None →
  tree_inv s h lab k (occ s i) → tree_inv s h lab k (occ_at s i k).
Proof.
  intros Hk Hf HB T. destruct T as [T1 T2 T3 T4 T5 T6 T7 T8]. split; try done.
  - intros n w st c Hn Hst. rewrite (T6 n w) by done. split; [by left|].
    intros [|(j & Hj & Hjk & He)]; [done|]. exfalso.
    rewrite length_app in He. cbn in He.
    destruct (decide (n = root)) as [->|Hr].
    { rewrite T1 in Hn. injection Hn as <-. cbn in He. lia. }
    destruct (HB n w Hn Hr) as (d & _ & _ & (j' & Hj' & He') & _); [done|].
    rewrite length_app in He'. cbn in He'. apply at_snoc in Hj as [Hj _]. apply at_snoc in Hj' as [Hj' _].
    apply (Hf j j'); [lia|done|]. eapply at_prefix; [|exact Hj'].
    apply (at_compare s _ _ j); [apply sub_at|done|]. unfold sub. rewrite length_take. lia.
  - intros n w c m pos L x d E H1 H2 H3 [|(j & Hj & Hjk & He)]; [by eapply T7|].
    apply at_snoc in Hj as [Hj Hd]. rewrite length_app in He. cbn in He.
    assert (pos = j) as ->.
    { apply (fresh_same s i k j pos x); try done; [apply E| |lia].
      eapply at_prefix; [exact H2|apply E]. }
    apply (at_compare s _ _ j); [by apply at_snoc|apply E|].
    pose proof (prefix_length _ _ H2). rewrite length_app. cbn.
    destruct (decide (length x = length L)); [|lia]. exfalso. apply H3, prefix_same_length; [done|lia].
Qed.

Lemma occ_app_r e u v : occ s e (u ++ v) → occ s e v.
Proof. induction u as [|a u IH]; [done|]. intros H%occ_tail. auto. Qed.

(** The suffixes from [k] on have the character too when the one from [k] has. *)
Lemma phase_end_words i k v :
  (S i <= length s)%nat → (k <= i)%nat ∧ occ s i (sub s k (S i)) ∨ k = S i →
  occ_at s i k v ↔ occ s (S i) v.
Proof.
  intros Hi Hend. split.
  - intros [(j & Hj & He)|(j & Hj & _ & He)]; exists j; (split; [done|lia]).
  - intros (j & Hj & He). destruct (decide (j + length v <= i)%nat); [left; by exists j|].
    destruct (decide (j < k)%nat); [right; exists j; split_and!; [done..|lia]|].
    left. destruct Hend as [[Hk Ho]| ->].
    + assert (v = sub s j (S i)) as -> by (apply at_sub; [done|lia]).
      apply (occ_app_r i (sub s k j)). rewrite <- sub_split by lia. done.
    + destruct v; [|cbn in *; lia]. exists O. split; [apply prefix_nil|cbn; lia].
Qed.

Lemma fresh_next i k :
  (k <= i)%nat → (S i <= length s)%nat → fresh s (S i) k → ¬ occ s i (sub s k (S i)) → fresh s (S i) (S k).
Proof.
  intros Hk Hi Hf Ho j j' Hj' Hj. destruct (decide (j = k)) as [->|]; [|apply Hf; lia].
  intros Ha. apply Ho. exists j'. split; [done|]. rewrite length_sub by lia. lia.
Qed.

Lemma occ_at_S i k v :
  occ_at s i (S k) v ↔ occ_at s i k v ∨ at_pos s v k ∧ (k + length v = S i)%nat.
Proof.
  unfold occ_at. split.
  - intros [|(j & Hj & Hjk & He)]; [tauto|]. destruct (decide (j = k)) as [->|]; [by right|].
    left. right. exists j. split_and!; [done|lia|done].
  - intros [[|(j & Hj & Hjk & He)]|[H1 H2]]; [tauto| |].
    + right. exists j. split_and!; [done|lia|done].
    + right. exists k. split_and!; [done|lia|done].
Qed.

Lemma occ_at_next i k : occ_at s i k (sub s k (S i)) → (k <= i)%nat → (S i <= length s)%nat →
  occ s i (sub s k (S i)).
Proof.
  intros [|(j & Hj & Hjk & He)] Hk Hi; [done|]. rewrite length_sub in He by lia. lia.
Qed.

(** A word with two continuations is not within an edge. *)
Lemma two_next k O x d d' n w c m pos L :
  tree_inv s h lab k O → d ≠ d' → O (x ++ [d]) → O (x ++ [d']) →
  edge s h lab k n w c m pos L → w ++ [c] `prefix_of` x → x `prefix_of` L → x = L.
Proof.
  intros T Hd Ho Ho' E H1 H2. destruct (decide (x = L)) as [|Hne]; [done|]. exfalso.
  apply Hd. pose proof (t_inner _ _ _ _ _ T _ _ _ _ _ _ x d E H1 H2 Hne Ho) as [r Hp].
  pose proof (t_inner _ _ _ _ _ T _ _ _ _ _ _ x d' E H1 H2 Hne Ho') as [r' Hp'].
  rewrite Hp, <- !(assoc_L (++)) in Hp'. apply app_inv_head in Hp'. by injection Hp'.
Qed.

(** A state that branches is not within an edge. *)
Lemma not_inner k O n0 x n w c m pos L :
  tree_inv s h lab k O → branching lab O None → lab !! n0 = Some x →
  edge s h lab k n w c m pos L → w ++ [c] `prefix_of` x → x `prefix_of` L → x = L.
Proof.
  intros T HB Hx E H1 H2. destruct (decide (n0 = root)) as [->|Hr].
  - rewrite (t_root _ _ _ _ _ T) in Hx. injection Hx as <-. apply prefix_length in H1.
    rewrite length_app in H1. cbn in H1. lia.
  - destruct (HB n0 x Hx Hr) as (d & d' & Hd & Ho & Ho'); [done|].
    by apply (two_next k O x d d' n w c m pos L).
Qed.
End Phases.

(** ** The split of an edge *)

(** Suffix links that stay. *)
Definition suffixes_kept (h h' : heap) : Prop :=
  ∀ n st, h !! n = Some st → ∃ st', h' !! n = Some st' ∧ suffix st' = suffix st.

Lemma suffixes_kept_alter f n (h : heap) :
  (∀ st, suffix (f st) = suffix st) → suffixes_kept h (alter f n h).
Proof.
  intros Hf q st Hq. destruct (decide (n = q)) as [->|].
  - exists (f st). by rewrite list_lookup_alter_eq, Hq.
  - exists st. by rewrite list_lookup_alter_ne.
Qed.

Lemma suffixes_kept_app (h h' : heap) : suffixes_kept h (h ++ h').
Proof. intros n st Hn. exists st. split; [by apply lookup_app_l_Some|done]. Qed.

Lemma suffixes_kept_trans h1 h2 h3 : suffixes_kept h1 h2 → suffixes_kept h2 h3 → suffixes_kept h1 h3.
Proof.
  intros H1 H2 n st Hn. destruct (H1 n st Hn) as (st' & Hn' & <-). by apply H2.
Qed.

Lemma link_kept h h' lab lab' n :
  suffixes_kept h h' → lab ⊆ lab' → link h lab n → link h' lab' n.
Proof.
  intros Hs Hl (st & a & v & m & Hn & Hst & Hw & Hm). destruct (Hs n st Hn) as (st' & Hn' & He).
  exists st', a, v, m. rewrite He. split_and!; [done..| |]; by eapply lookup_weaken.
Qed.

Section Split.
Variables (s : jsstr) (h : heap) (lab : gmap nat jsstr) (k : nat) (O : jsstr → Prop).
Hypothesis T : tree_inv s h lab k O.
Hypothesis HB : branching lab O None.
Variables (n : nat) (w : jsstr) (c : Z) (m pos : nat) (L x : jsstr) (d : Z).
Hypothesis E : edge s h lab k n w c m pos L.
Hypothesis Hwx : w ++ [c] `prefix_of` x.
Hypothesis HxL : x ++ [d] `prefix_of` L.
Hypothesis HO : O (x ++ [d]).
Hypothesis OC : closed O.
Variables (st sp : State).
Hypothesis Hst : h !! n = Some st.
Hypothesis Hsp : h !! m = Some sp.

(** Two edges do not have a common inner word. *)
Lemma inner_unique n1 w1 c1 m1 pos1 L1 n2 w2 c2 m2 pos2 L2 u :
  edge s h lab k n1 w1 c1 m1 pos1 L1 → edge s h lab k n2 w2 c2 m2 pos2 L2 →
  w1 ++ [c1] `prefix_of` u → u `prefix_of` L1 → u ≠ L1 →
  w2 ++ [c2] `prefix_of` u → u `prefix_of` L2 → u ≠ L2 → m1 = m2 ∧ n1 = n2.
Proof.
  assert (∀ n1 w1 c1 m1 pos1 L1 n2 w2 c2 m2 pos2 L2,
    edge s h lab k n1 w1 c1 m1 pos1 L1 → edge s h lab k n2 w2 c2 m2 pos2 L2 →
    w1 ++ [c1] `prefix_of` u → u `prefix_of` L1 → u ≠ L1 → w2 ++ [c2] `prefix_of` u →
    (length w1 < length w2)%nat → False) as Hlt.
  { intros a wa ca ma pa La b wb cb mb pb Lb Ea Eb Ha1 Ha2 Ha3 Hb1 Hl.
    assert (Hwb : wb `prefix_of` u) by (trans (wb ++ [cb]); [by eexists|done]).
    assert (wb = La) as ->; [|pose proof (prefix_length _ _ Hb1) as Hp; rewrite length_app in Hp; cbn in Hp;
      apply prefix_length in Ha2; lia].
    apply (not_inner s h lab k O b wb a wa ca ma pa La); try done; [apply Eb| |by trans u].
    destruct (prefix_weak_total _ _ _ Ha1 Hwb) as [|Hq]; [done|].
    rewrite <- (prefix_same_length _ _ Hq); [done|]. rewrite length_app. cbn. lia. }
  intros E1 E2 H1 H2 H3 H4 H5 H6.
  destruct (Nat.lt_trichotomy (length w1) (length w2)) as [Hl|[Hl|Hl]];
    [exfalso; by eapply (Hlt n1 w1 c1 m1 pos1 L1 n2 w2)| |
     exfalso; by eapply (Hlt n2 w2 c2 m2 pos2 L2 n1 w1)].
  pose proof (prefix_snoc_take _ _ _ _ H1 eq_refl) as Ht1.
  pose proof (prefix_snoc_take _ _ _ _ H4 eq_refl) as Ht2. rewrite Hl, Ht2 in Ht1.
  apply app_inj_tail in Ht1 as [-> ->].
  assert (n2 = n1) as -> by (eapply (t_inj _ _ _ _ _ T); [apply E2|apply E1]).
  destruct (e_edge _ _ _ _ _ _ _ _ _ _ E1) as (st1 & Hst1 & Hg1).
  destruct (e_edge _ _ _ _ _ _ _ _ _ _ E2) as (st2 & Hst2 & Hg2).
  split; [|done]. congruence.
Qed.

Definition split_st : heap := split_heap s h n m sp (Z.of_nat (length x - length w)).
Definition split_lab : gmap nat jsstr := <[length h := x]> lab.

Abbreviation r := (length h).

Lemma split_lengths : (length w < length x)%nat ∧ (length x < length L)%nat.
Proof.
  pose proof (prefix_length _ _ Hwx) as H1. pose proof (prefix_length _ _ HxL) as H2.
  rewrite length_app in H1, H2. cbn in H1, H2. lia.
Qed.

Lemma split_inner : x `prefix_of` L ∧ x ≠ L.
Proof.
  split; [trans (x ++ [d]); [by eexists|done]|]. intros Hx. pose proof split_lengths. rewrite Hx in *. lia.
Qed.

Lemma split_ne : n ≠ m.
Proof.
  pose proof split_lengths. pose proof (e_from _ _ _ _ _ _ _ _ _ _ E) as Hn.
  destruct (e_state _ _ _ _ _ _ _ _ _ _ E) as (sp' & _ & _ & [[Hm _]|[Hm _]]); intros ->; [|congruence].
  assert (w = L) as -> by congruence. lia.
Qed.

Lemma fresh_r : lab !! r = None.
Proof.
  destruct (lab !! r) as [u|] eqn:Hu; [|done].
  destruct (t_states _ _ _ _ _ T r u Hu) as [st' Hl%lookup_lt_Some]. lia.
Qed.

Lemma split_start : start sp = Z.of_nat (pos + length w).
Proof.
  destruct (e_state _ _ _ _ _ _ _ _ _ _ E) as (sp' & Hsp' & Hs & _). congruence.
Qed.

Lemma split_key1 : key_at s (start sp) = [c].
Proof.
  rewrite split_start. unfold key_at, charAt. rewrite (proj2 (Z.ltb_ge _ _)), Nat2Z.id by lia.
  assert (at_pos s (w ++ [c]) pos) as [_ ->]%at_snoc; [|done].
  eapply at_prefix; [|apply E]. apply E.
Qed.

Lemma split_key2 : key_at s (start sp + Z.of_nat (length x - length w)) = [d].
Proof.
  rewrite split_start. pose proof split_lengths. unfold key_at, charAt.
  rewrite (proj2 (Z.ltb_ge _ _)) by lia.
  replace (Z.to_nat _) with (pos + length x)%nat by lia.
  assert (at_pos s (x ++ [d]) pos) as [_ ->]%at_snoc; [|done]. eapply at_prefix; [exact HxL|apply E].
Qed.

Definition split_parent : State := set_edge [c] r st.
Definition split_child : State := set_start (Z.of_nat (pos + length x)) sp.
Definition split_new : State :=
  mkState (Z.of_nat (pos + length w)) (Z.of_nat (pos + length x)) Undefined [([d], m)].

Lemma split_lookups :
  split_st !! n = Some split_parent ∧ split_st !! m = Some split_child ∧
  split_st !! r = Some split_new ∧ (∀ q, q ≠ n → q ≠ m → q ≠ r → split_st !! q = h !! q).
Proof.
  pose proof split_ne. pose proof split_lengths. unfold split_st, split_heap.
  pose proof (lookup_lt_Some _ _ _ Hst). pose proof (lookup_lt_Some _ _ _ Hsp).
  rewrite split_key1, split_key2, split_start.
  replace (Z.of_nat (pos + length w) + Z.of_nat (length x - length w)) with (Z.of_nat (pos + length x)) by lia.
  split_and!.
  - rewrite lookup_app_l by (rewrite !length_alter; lia).
    by rewrite list_lookup_alter_ne, list_lookup_alter_eq, Hst by done.
  - rewrite lookup_app_l by (rewrite !length_alter; lia).
    by rewrite list_lookup_alter_eq, list_lookup_alter_ne, Hsp by done.
  - rewrite lookup_app_r by (rewrite !length_alter; lia).
    by rewrite !length_alter, Nat.sub_diag.
  - intros q Hqn Hqm Hqr. destruct (decide (q < r)%nat).
    + rewrite lookup_app_l by (rewrite !length_alter; lia). by rewrite !list_lookup_alter_ne.
    + rewrite (lookup_ge_None_2 h) by lia. apply lookup_ge_None_2. rewrite length_app, !length_alter. cbn. lia.
Qed.

Lemma split_suffixes : suffixes_kept h split_st.
Proof.
  eapply suffixes_kept_trans; [|apply suffixes_kept_app].
  eapply suffixes_kept_trans; by apply suffixes_kept_alter.
Qed.

Lemma split_lab_ne q : q ≠ r → split_lab !! q = lab !! q.
Proof. intros. unfold split_lab. by rewrite lookup_insert_ne. Qed.

Lemma split_lab_r : split_lab !! r = Some x.
Proof. unfold split_lab. by rewrite lookup_insert_eq. Qed.

Lemma split_lab_sub : lab ⊆ split_lab.
Proof. apply insert_subseteq, fresh_r. Qed.

(** *** The edges after it *)

Abbreviation edge' := (edge s split_st split_lab k).

Lemma split_bounds : (n < r)%nat ∧ (m < r)%nat.
Proof. split; by eapply lookup_lt_Some. Qed.

(** A leaf or a state of its own: what the split keeps of [m]. *)
Lemma split_child_edge n0 w0 c0 :
  n0 = r → w0 = x → c0 = d → edge' n0 w0 c0 m pos L.
Proof.
  intros -> -> ->. destruct split_lookups as (Hn' & Hm' & Hr' & _). pose proof split_bounds.
  split; try apply E; [apply split_lab_r| | |done].
  - exists split_new. split; [done|]. cbn. by rewrite decide_True.
  - exists split_child. split_and!; [done|done|]. rewrite split_lab_ne by lia.
    destruct (e_state _ _ _ _ _ _ _ _ _ _ E) as (sp' & Hsp' & _ & Hend).
    assert (sp' = sp) as -> by congruence. exact Hend.
Qed.

Lemma split_parent_edge : edge' n w c r pos x.
Proof.
  destruct split_lookups as (Hn' & Hm' & Hr' & _). pose proof split_bounds.
  split; [|idtac|idtac|done| |apply E].
  - rewrite split_lab_ne by lia. apply E.
  - exists split_parent. split; [done|]. cbn. apply mget_mset_eq.
  - exists split_new. split_and!; [done|done|]. left. split; [apply split_lab_r|done].
  - eapply at_prefix; [|apply E]. apply split_inner.
Qed.

Lemma split_old_edge n0 w0 c0 m0 pos0 L0 :
  edge s h lab k n0 w0 c0 m0 pos0 L0 → m0 ≠ m → edge' n0 w0 c0 m0 pos0 L0.
Proof.
  intros E0 Hm0. destruct split_lookups as (Hn' & Hm' & Hr' & Hq'). pose proof split_bounds.
  destruct (e_edge _ _ _ _ _ _ _ _ _ _ E0) as (st0 & Hst0 & Hg0).
  destruct (e_state _ _ _ _ _ _ _ _ _ _ E0) as (sp0 & Hsp0 & Hs0 & He0).
  pose proof (lookup_lt_Some _ _ _ Hst0). pose proof (lookup_lt_Some _ _ _ Hsp0).
  split; try apply E0.
  - rewrite split_lab_ne by lia. apply E0.
  - destruct (decide (n0 = n)) as [->|Hn0].
    + exists split_parent. split; [done|]. cbn. rewrite mget_mset_ne; [congruence|].
      intros [= ->]. apply Hm0. destruct (e_edge _ _ _ _ _ _ _ _ _ _ E) as (st1 & Hst1 & Hg1). congruence.
    + destruct (decide (n0 = m)) as [->|Hn0'].
      * exists split_child. split; [done|]. cbn. congruence.
      * exists st0. by rewrite Hq' by lia.
  - rewrite split_lab_ne by lia. destruct (decide (m0 = n)) as [->|Hm0'].
    + exists split_parent. split; [done|]. cbn. assert (sp0 = st) as -> by congruence.
      split; [done|]. destruct He0 as [|(Hno & _)]; [by left|].
      exfalso. pose proof (e_from _ _ _ _ _ _ _ _ _ _ E). congruence.
    + exists sp0. rewrite Hq' by (done || lia). done.
Qed.

(** An edge of the heap before, and what it is after. *)
Lemma split_edge_back n0 w0 c0 m0 pos0 L0 st0 :
  edge' n0 w0 c0 m0 pos0 L0 → lab !! n0 = Some w0 → h !! n0 = Some st0 →
  mget (edges st0) [c0] = Some m0 → (n0, c0) ≠ (n, c) →
  edge s h lab k n0 w0 c0 m0 pos0 L0 ∧ m0 ≠ m.
Proof.
  intros E0 Hl0 Hst0 Hg0 Hne. destruct split_lookups as (Hn' & Hm' & Hr' & Hq').
  pose proof split_bounds as [Hnr Hmr].
  destruct (t_keys _ _ _ _ _ T n0 w0 st0 [c0] m0) as (c1 & pos1 & L1 & [= <-] & E1); [done..|].
  assert (Hm0 : m0 ≠ m).
  { intros ->. apply Hne. destruct (t_parent _ _ _ _ _ T _ _ _ _ _ _ _ _ _ _ _ E E1) as [-> ->]. done. }
  assert (Hm0r : m0 ≠ r).
  { destruct (e_state _ _ _ _ _ _ _ _ _ _ E1) as (sp1 & Hl%lookup_lt_Some & _). lia. }
  split; [|done]. destruct (e_state _ _ _ _ _ _ _ _ _ _ E0) as (sp0 & Hsp0 & Hs0 & He0).
  rewrite split_lab_ne in He0 by done.
  split; try apply E0; [done|by exists st0|]. destruct (decide (m0 = n)) as [->|Hm0n].
  - rewrite Hn' in Hsp0. injection Hsp0 as <-. exists st. split_and!; [done|done|].
    destruct He0 as [|(Hno & _)]; [by left|]. pose proof (e_from _ _ _ _ _ _ _ _ _ _ E). congruence.
  - exists sp0. rewrite Hq' in Hsp0 by done. done.
Qed.

(** These are all of them. *)
Lemma split_edge_inv n0 w0 c0 m0 pos0 L0 :
  edge' n0 w0 c0 m0 pos0 L0 →
  (n0 = r ∧ w0 = x ∧ c0 = d ∧ m0 = m ∧ pos0 = pos ∧ L0 = L) ∨
  (n0 = n ∧ w0 = w ∧ c0 = c ∧ m0 = r ∧ pos0 = pos ∧ L0 = x) ∨
  (edge s h lab k n0 w0 c0 m0 pos0 L0 ∧ m0 ≠ m).
Proof.
  intros E0. destruct split_lookups as (Hn' & Hm' & Hr' & Hq'). pose proof split_bounds as [Hnr Hmr].
  destruct (e_edge _ _ _ _ _ _ _ _ _ _ E0) as (st0 & Hst0 & Hg0).
  destruct (e_state _ _ _ _ _ _ _ _ _ _ E0) as (sp0 & Hsp0 & Hs0 & He0).
  pose proof (e_from _ _ _ _ _ _ _ _ _ _ E0) as Hf0.
  destruct (decide (n0 = r)) as [->|Hn0r].
  - left. rewrite split_lab_r in Hf0. injection Hf0 as <-. rewrite Hr' in Hst0. injection Hst0 as <-.
    cbn in Hg0. case_decide as Hc; [|done]. injection Hc as ->. injection Hg0 as <-.
    rewrite Hm' in Hsp0. injection Hsp0 as <-. cbn in Hs0. assert (pos0 = pos) as -> by lia.
    rewrite split_lab_ne in He0 by lia.
    destruct (e_state _ _ _ _ _ _ _ _ _ _ E) as (sp' & Hsp' & _ & Hend).
    assert (sp' = sp) as -> by congruence. cbn in He0.
    split_and!; try done.
    destruct He0 as [[H1 _]|(H1 & H2 & _)], Hend as [[H3 _]|(H3 & H4 & _)]; congruence.
  - right. rewrite split_lab_ne in Hf0 by done. destruct (decide (n0 = n)) as [->|Hn0].
    + rewrite Hn' in Hst0. injection Hst0 as <-. cbn in Hg0.
      assert (w0 = w) as -> by (pose proof (e_from _ _ _ _ _ _ _ _ _ _ E); congruence).
      destruct (decide (c0 = c)) as [->|Hc0].
      * left. rewrite mget_mset_eq in Hg0. injection Hg0 as <-. rewrite Hr' in Hsp0. injection Hsp0 as <-.
        cbn in Hs0. rewrite split_lab_r in He0. split_and!; try done; [lia|].
        by destruct He0 as [[[= ->] _]|[? _]].
      * right. rewrite mget_mset_ne in Hg0 by congruence. apply (split_edge_back n w c0 m0 pos0 L0 st); try done. intros [= Hc]. done.
    + right. assert (∃ st1, h !! n0 = Some st1 ∧ mget (edges st1) [c0] = Some m0) as (st1 & Hst1 & Hg1).
      { destruct (decide (n0 = m)) as [->|Hn0'].
        - rewrite Hm' in Hst0. injection Hst0 as <-. by exists sp.
        - rewrite Hq' in Hst0 by done. by exists st0. }
      apply (split_edge_back n0 w0 c0 m0 pos0 L0 st1); try done. intros [= Hc _]. done.
Qed.

(** *** The invariant after it *)

Lemma split_x_new n0 : lab !! n0 ≠ Some x.
Proof.
  intros Hx. destruct split_inner as [H1 H2]. apply H2.
  by apply (not_inner s h lab k O n0 x n w c m pos L).
Qed.

Lemma split_target n0 w0 c0 m0 pos0 L0 :
  edge s h lab k n0 w0 c0 m0 pos0 L0 → (m0 < r)%nat.
Proof. intros E0. destruct (e_state _ _ _ _ _ _ _ _ _ _ E0) as (? & ?%lookup_lt_Some & _). done. Qed.

Lemma root_r : (root < r)%nat.
Proof. destruct (t_root_state _ _ _ _ _ T) as (? & ?%lookup_lt_Some & _). done. Qed.

Lemma root_m : root ≠ m.
Proof.
  intros <-. pose proof split_lengths. pose proof (t_root _ _ _ _ _ T) as Hr.
  destruct (e_state _ _ _ _ _ _ _ _ _ _ E) as (? & _ & _ & [[Hm _]|[Hm _]]); [|congruence].
  rewrite Hr in Hm. injection Hm as <-. cbn in *. lia.
Qed.

(** The state a labelled state was. *)
Lemma split_old_state n0 w0 st0 :
  split_lab !! n0 = Some w0 → split_st !! n0 = Some st0 →
  (n0 = r ∧ w0 = x ∧ st0 = split_new) ∨
  lab !! n0 = Some w0 ∧ ∃ st1, h !! n0 = Some st1 ∧
    edges st0 = (if decide (n0 = n) then mset (edges st1) [c] r else edges st1).
Proof.
  intros Hl H0. destruct split_lookups as (Hn' & Hm' & Hr' & Hq').
  destruct (decide (n0 = r)) as [->|Hn0r].
  - left. rewrite split_lab_r in Hl. rewrite Hr' in H0. injection Hl as <-. by injection H0 as <-.
  - right. rewrite split_lab_ne in Hl by done. split; [done|]. destruct (decide (n0 = n)) as [->|Hn0].
    + exists st. rewrite Hn' in H0. by injection H0 as <-.
    + destruct (decide (n0 = m)) as [->|Hn0m].
      * exists sp. rewrite Hm' in H0. by injection H0 as <-.
      * exists st0. by rewrite Hq' in H0 by done.
Qed.

Lemma split_keys n0 w0 st0 key m0 :
  split_lab !! n0 = Some w0 → split_st !! n0 = Some st0 → mget (edges st0) key = Some m0 →
  ∃ c0 pos0 L0, key = [c0] ∧ edge' n0 w0 c0 m0 pos0 L0.
Proof.
  intros Hl H0 Hg. destruct (split_old_state _ _ _ Hl H0) as [(-> & -> & ->)|(Hl' & st1 & H1 & He)].
  - cbn in Hg. case_decide as Hk; [|done]. injection Hg as <-. subst key.
    exists d, pos, L. split; [done|]. by apply split_child_edge.
  - assert (Hold : mget (edges st1) key = Some m0 → (n0, key) ≠ (n, [c]) →
      ∃ c0 pos0 L0, key = [c0] ∧ edge' n0 w0 c0 m0 pos0 L0).
    { intros Hg1 Hne. destruct (t_keys _ _ _ _ _ T n0 w0 st1 key m0) as (c0 & pos0 & L0 & -> & E0); [done..|].
      exists c0, pos0, L0. split; [done|]. apply split_old_edge; [done|]. intros ->.
      destruct (t_parent _ _ _ _ _ T _ _ _ _ _ _ _ _ _ _ _ E E0) as [-> ->]. done. }
    rewrite He in Hg. destruct (decide (n0 = n)) as [->|Hn0]; [|apply Hold; [done|congruence]].
    destruct (decide (key = [c])) as [->|Hkc].
    + rewrite mget_mset_eq in Hg. injection Hg as <-.
      assert (w0 = w) as -> by (pose proof (e_from _ _ _ _ _ _ _ _ _ _ E); congruence).
      exists c, pos, x. split; [done|]. apply split_parent_edge.
    + rewrite mget_mset_ne in Hg by done. apply Hold; [done|congruence].
Qed.

Lemma split_edges n0 w0 st0 c0 :
  split_lab !! n0 = Some w0 → split_st !! n0 = Some st0 →
  mhas (edges st0) [c0] = true ↔ O (w0 ++ [c0]).
Proof.
  intros Hl H0. destruct (split_old_state _ _ _ Hl H0) as [(-> & -> & ->)|(Hl' & st1 & H1 & He)].
  - unfold mhas. cbn. case_decide as Hc.
    + injection Hc as <-. by split.
    + split; [done|]. intros Ho. exfalso. apply Hc. f_equal. destruct split_inner as [H1 H2].
      pose proof (t_inner _ _ _ _ _ T _ _ _ _ _ _ x c0 E Hwx H1 H2 Ho) as Hp.
      pose proof (prefix_snoc_take _ _ _ _ Hp eq_refl) as Ht.
      rewrite (prefix_snoc_take _ _ _ _ HxL eq_refl) in Ht. apply app_inv_head in Ht. by injection Ht.
  - rewrite <- (t_edges _ _ _ _ _ T n0 w0 st1 c0) by done. rewrite He. unfold mhas.
    destruct (decide (n0 = n)) as [->|]; [|done]. rewrite mget_mset. case_decide as Hc; [|done].
    injection Hc as <-. split; [|done]. intros _.
    destruct (e_edge _ _ _ _ _ _ _ _ _ _ E) as (st2 & Hst2 & Hg2). assert (st2 = st1) as -> by congruence.
    by rewrite Hg2.
Qed.

Lemma split_inner_words n0 w0 c0 m0 pos0 L0 x0 d0 :
  edge' n0 w0 c0 m0 pos0 L0 → w0 ++ [c0] `prefix_of` x0 → x0 `prefix_of` L0 → x0 ≠ L0 →
  O (x0 ++ [d0]) → x0 ++ [d0] `prefix_of` L0.
Proof.
  intros E0 H1 H2 H3 Ho.
  destruct (split_edge_inv _ _ _ _ _ _ E0) as [(-> & -> & -> & -> & -> & ->)|[(-> & -> & -> & -> & -> & ->)|[E1 _]]].
  - eapply (t_inner _ _ _ _ _ T); [exact E| |done..]. trans (x ++ [d]); [|done].
    trans x; [done|by eexists].
  - destruct split_inner as [Hi1 Hi2]. pose proof (prefix_length _ _ H2) as Hl.
    assert (length x0 ≠ length x) by (intros Hx; apply H3, prefix_same_length; [done|lia]).
    assert (Hp : x0 ++ [d0] `prefix_of` L).
    { eapply (t_inner _ _ _ _ _ T); [exact E|done|by trans x| |done].
      intros ->. pose proof split_lengths. lia. }
    destruct (prefix_weak_total _ _ _ Hp Hi1) as [|Hq]; [done|].
    rewrite (prefix_same_length _ _ Hq); [done|]. rewrite length_app. cbn. lia.
  - by eapply (t_inner _ _ _ _ _ T).
Qed.

Lemma split_tree : tree_inv s split_st split_lab k O.
Proof.
  destruct split_lookups as (Hn' & Hm' & Hr' & Hq'). pose proof root_r as Hrr. split.
  - rewrite split_lab_ne by lia. apply T.
  - destruct (t_root_state _ _ _ _ _ T) as (st0 & Hst0 & Hs & He).
    destruct (decide (root = n)) as [Hrn|Hrn].
    + exists split_parent. rewrite Hrn. split; [done|]. rewrite Hrn in Hst0.
      assert (st0 = st) as -> by congruence. done.
    + exists st0. rewrite Hq'; [done|done|apply root_m|lia].
  - intros q u Hq. destruct (lookup_lt_is_Some_2 split_st q) as [st0 ?]; [|by eauto].
    unfold split_st, split_heap. rewrite length_app, !length_alter. cbn.
    destruct (decide (q = r)) as [->|]; [lia|]. rewrite split_lab_ne in Hq by done.
    destruct (t_states _ _ _ _ _ T q u Hq) as (? & ?%lookup_lt_Some). lia.
  - intros q1 q2 u H1 H2.
    destruct (decide (q1 = r)) as [->|Hq1], (decide (q2 = r)) as [->|Hq2]; [done|..].
    + rewrite split_lab_r in H1. rewrite split_lab_ne in H2 by done. injection H1 as <-.
      by apply split_x_new in H2.
    + rewrite split_lab_r in H2. rewrite split_lab_ne in H1 by done. injection H2 as <-.
      by apply split_x_new in H1.
    + rewrite split_lab_ne in H1, H2 by done. by eapply (t_inj _ _ _ _ _ T).
  - exact split_keys.
  - exact split_edges.
  - exact split_inner_words.
  - intros n0 w0 c0 m0 pos0 L0 n1 w1 c1 pos1 L1 E0 E1.
    destruct (split_edge_inv _ _ _ _ _ _ E0) as [(-> & -> & -> & -> & -> & ->)|[(-> & -> & -> & -> & -> & ->)|[E0' Hm0]]],
      (split_edge_inv _ _ _ _ _ _ E1) as [(-> & -> & -> & Hx & -> & ->)|[(-> & -> & -> & Hx & -> & ->)|[E1' Hm1]]];
      try done; try (pose proof split_bounds; lia).
    + pose proof (split_target _ _ _ _ _ _ E1'). lia.
    + pose proof (split_target _ _ _ _ _ _ E0'). lia.
    + by eapply (t_parent _ _ _ _ _ T).
Qed.

(** The new state is not within an edge. *)
Lemma split_x_not_inner n0 w0 c0 m0 pos0 L0 :
  edge' n0 w0 c0 m0 pos0 L0 → w0 ++ [c0] `prefix_of` x → x `prefix_of` L0 → x = L0.
Proof.
  intros E0 H1 H2.
  destruct (split_edge_inv _ _ _ _ _ _ E0) as [(-> & -> & -> & -> & -> & ->)|[(-> & -> & -> & -> & -> & ->)|[E1 Hm0]]].
  - apply prefix_length in H1. rewrite length_app in H1. cbn in H1. lia.
  - done.
  - destruct (decide (x = L0)) as [|Hne]; [done|]. exfalso. apply Hm0.
    destruct (inner_unique n0 w0 c0 m0 pos0 L0 n w c m pos L x) as [-> _]; try done; apply split_inner.
Qed.
End Split.
