(* ===== verification/SuffixTreeBuild.v ===== *)
(** * SuffixTreeBuild: the construction ends, with the tree of the string

    The new leaf and the suffix link, the loop of [_update], and the loop of
    [_construct] of SuffixTree.v. *)

From S2P Require Import Prelude SuffixTree SuffixTreeInv SuffixTreeWalk SuffixTreeSteps.

(** ** A new leaf *)

Section Leaf.
Variables (s : jsstr) (h : heap) (lab : gmap nat jsstr) (i k : nat) (t : Z).
Hypothesis Hi : s !! i = Some t.
Hypothesis Hk : (k <= i)%nat.
Abbreviation O := (occ_at s i k).
Abbreviation O' := (occ_at s i (S k)).
Hypothesis T : tree_inv s h lab k O.
Abbreviation x := (sub s k i).
Variables (r : nat) (st : State).
Hypothesis Hr : lab !! r = Some x.
Hypothesis Hst : h !! r = Some st.
Hypothesis Hnew : ¬ O (x ++ [t]).
Hypothesis Hinner : ∀ n w c m pos L, edge s h lab k n w c m pos L →
  w ++ [c] `prefix_of` x → x `prefix_of` L → x = L.

Abbreviation leaf := (length h).
Definition leaf_st : heap := alter (set_edge [t] leaf) r h ++ [newState (Z.of_nat i) (infinity_of s)].
Abbreviation edge0 := (edge s h lab k).
Abbreviation edge1 := (edge s leaf_st lab (S k)).

Lemma leaf_i : (S i <= length s)%nat.
Proof. by apply lookup_lt_Some in Hi. Qed.

Lemma leaf_x : length x = (i - k)%nat.
Proof. pose proof leaf_i. rewrite length_sub; lia. Qed.

Lemma leaf_xt : x ++ [t] = sub s k (S i).
Proof. symmetry. by apply sub_snoc. Qed.

Lemma leaf_words v : O' v ↔ O v ∨ v = x ++ [t].
Proof.
  rewrite occ_at_S, leaf_xt. split; (intros [|Hv]; [by left|right]).
  - apply at_sub; apply Hv.
  - rewrite Hv. split; [apply sub_at|]. pose proof leaf_i. rewrite length_sub by lia. lia.
Qed.

Lemma leaf_fresh : lab !! leaf = None.
Proof. by apply (fresh_r s h lab k O). Qed.

Lemma leaf_r : (r < leaf)%nat.
Proof. by eapply lookup_lt_Some. Qed.

Lemma leaf_lookups :
  leaf_st !! r = Some (set_edge [t] leaf st) ∧
  leaf_st !! leaf = Some (newState (Z.of_nat i) (infinity_of s)) ∧
  ∀ q, q ≠ r → q ≠ leaf → leaf_st !! q = h !! q.
Proof.
  pose proof leaf_r. unfold leaf_st. split_and!.
  - rewrite lookup_app_l by (rewrite length_alter; lia). by rewrite list_lookup_alter_eq, Hst.
  - rewrite lookup_app_r by (rewrite length_alter; lia). by rewrite length_alter, Nat.sub_diag.
  - intros q H1 H2. destruct (decide (q < leaf)%nat).
    + rewrite lookup_app_l by (rewrite length_alter; lia). by rewrite list_lookup_alter_ne.
    + rewrite (lookup_ge_None_2 h) by lia. apply lookup_ge_None_2. rewrite length_app, length_alter. cbn. lia.
Qed.

Lemma leaf_suffixes : suffixes_kept h leaf_st.
Proof. eapply suffixes_kept_trans; [|apply suffixes_kept_app]. by apply suffixes_kept_alter. Qed.

(** A state after it, and the same before. *)
Lemma leaf_state q sq :
  leaf_st !! q = Some sq → q ≠ leaf →
  ∃ sq0, h !! q = Some sq0 ∧ start sq = start sq0 ∧ end_ sq = end_ sq0 ∧
         edges sq = (if decide (q = r) then mset (edges sq0) [t] leaf else edges sq0).
Proof.
  intros Hq Hl. destruct leaf_lookups as (H1 & _ & H3). destruct (decide (q = r)) as [->|Hqr].
  - exists st. rewrite H1 in Hq. injection Hq as <-. by rewrite Hst.
  - exists sq. rewrite H3 in Hq by done. done.
Qed.

Lemma leaf_state_new q sq0 :
  h !! q = Some sq0 →
  ∃ sq, leaf_st !! q = Some sq ∧ start sq = start sq0 ∧ end_ sq = end_ sq0 ∧
        edges sq = (if decide (q = r) then mset (edges sq0) [t] leaf else edges sq0).
Proof.
  intros Hq. destruct leaf_lookups as (H1 & _ & H3). pose proof (lookup_lt_Some _ _ _ Hq).
  destruct (decide (q = r)) as [->|Hqr].
  - eexists. split; [done|]. assert (sq0 = st) as -> by congruence. done.
  - exists sq0. rewrite H3 by (done || lia). done.
Qed.

(** *** The edges *)

Lemma leaf_no_edge w c m pos L : edge0 r w c m pos L → c ≠ t.
Proof.
  intros E ->. apply Hnew. destruct (e_edge _ _ _ _ _ _ _ _ _ _ E) as (st1 & Hst1 & Hg).
  apply (t_edges _ _ _ _ _ T r x st1 t); [done..|]. unfold mhas. by rewrite Hg.
Qed.

Lemma leaf_old_edge n w c m pos L : edge0 n w c m pos L → edge1 n w c m pos L.
Proof.
  intros E. destruct (e_edge _ _ _ _ _ _ _ _ _ _ E) as (st1 & Hst1 & Hg1).
  destruct (e_state _ _ _ _ _ _ _ _ _ _ E) as (sp1 & Hsp1 & Hs1 & He1).
  destruct (leaf_state_new n st1 Hst1) as (st2 & Hst2 & _ & _ & Hed2).
  destruct (leaf_state_new m sp1 Hsp1) as (sp2 & Hsp2 & Hs2 & He2 & Hed2').
  split; try apply E.
  - exists st2. split; [done|]. rewrite Hed2. destruct (decide (n = r)) as [->|]; [|done].
    rewrite mget_mset_ne; [done|]. intros [= Ht]. by apply (leaf_no_edge _ _ _ _ _ E).
  - exists sp2. rewrite Hs2, He2. split_and!; [done..|].
    destruct He1 as [|(Hm & HL & Hen & Hed)]; [by left|right]. split_and!; [done..|].
    rewrite Hed2'. destruct (decide (m = r)) as [->|]; [congruence|done].
  - pose proof (e_pos _ _ _ _ _ _ _ _ _ _ E). lia.
Qed.

Lemma leaf_edge : edge1 r x t leaf k (drop k s).
Proof.
  destruct leaf_lookups as (H1 & H2 & _). pose proof leaf_i.
  split; [done| | | |by exists []; rewrite app_nil_r|lia].
  - eexists. split; [exact H1|]. apply mget_mset_eq.
  - eexists. split; [exact H2|]. split.
    + cbn. rewrite leaf_x. f_equal. lia.
    + right. split_and!; [apply leaf_fresh|done..].
  - rewrite leaf_xt. apply sub_at.
Qed.

Lemma leaf_edge_inv n w c m pos L :
  edge1 n w c m pos L →
  (n = r ∧ w = x ∧ c = t ∧ m = leaf ∧ pos = k ∧ L = drop k s) ∨ (edge0 n w c m pos L ∧ m ≠ leaf).
Proof.
  intros E. destruct (e_edge _ _ _ _ _ _ _ _ _ _ E) as (st1 & Hst1 & Hg1).
  destruct (e_state _ _ _ _ _ _ _ _ _ _ E) as (sp1 & Hsp1 & Hs1 & He1).
  pose proof (e_from _ _ _ _ _ _ _ _ _ _ E) as Hf.
  assert (Hn : n ≠ leaf) by (intros ->; rewrite leaf_fresh in Hf; done).
  destruct (leaf_state n st1 Hst1 Hn) as (st0 & Hst0 & _ & _ & Hed0).
  rewrite Hed0 in Hg1.
  assert (Hold : mget (edges st0) [c] = Some m → edge0 n w c m pos L ∧ m ≠ leaf).
  { intros Hg0. destruct (t_keys _ _ _ _ _ T n w st0 [c] m) as (c' & pos' & L' & [= <-] & E0); [done..|].
    destruct (e_state _ _ _ _ _ _ _ _ _ _ E0) as (sp0 & Hsp0 & Hs0 & He0).
    pose proof (lookup_lt_Some _ _ _ Hsp0).
    destruct (leaf_state m sp1 Hsp1) as (sp0' & Hsp0' & H1 & H2 & H3); [lia|].
    assert (sp0' = sp0) as -> by congruence. rewrite H1, H2 in *.
    assert (pos' = pos) as -> by lia.
    assert (L' = L) as ->.
    { destruct He0 as [[Ha _]|(Ha & Hb & _)], He1 as [[Hc _]|(Hc & Hd & _)]; congruence. }
    split; [done|lia]. }
  destruct (decide (n = r)) as [->|]; [|right; auto].
  destruct (decide (c = t)) as [->|Hc]; [|right; rewrite mget_mset_ne in Hg1 by congruence; auto].
  left. rewrite mget_mset_eq in Hg1. injection Hg1 as <-.
  assert (w = x) as -> by congruence. destruct leaf_lookups as (_ & H2 & _).
  rewrite H2 in Hsp1. injection Hsp1 as <-. cbn in Hs1. rewrite leaf_x in Hs1.
  assert (pos = k) as -> by lia. split_and!; try done.
  destruct He1 as [[Ha _]|(Ha & Hb & _)]; [by rewrite leaf_fresh in Ha|done].
Qed.

Lemma leaf_target n w c m pos L : edge0 n w c m pos L → m ≠ leaf.
Proof.
  intros E ->. destruct (e_state _ _ _ _ _ _ _ _ _ _ E) as (? & Hl%lookup_lt_Some & _). lia.
Qed.

(** *** The invariant *)

Lemma leaf_inner n w c m pos L y d :
  edge1 n w c m pos L → w ++ [c] `prefix_of` y → y `prefix_of` L → y ≠ L → O' (y ++ [d]) →
  y ++ [d] `prefix_of` L.
Proof.
  intros E H1 H2 H3 Ho%leaf_words. destruct (leaf_edge_inv _ _ _ _ _ _ E) as [(-> & -> & -> & -> & -> & ->)|[E0 _]].
  - exfalso. destruct Ho as [Ho|Hy].
    + apply Hnew. eapply occ_at_closed; [|exact Ho]. trans y; [done|by eexists].
    + apply app_inj_tail in Hy as [-> _]. apply prefix_length in H1. rewrite length_app in H1. cbn in H1. lia.
  - destruct Ho as [Ho|Hy]; [by eapply (t_inner _ _ _ _ _ T)|].
    apply app_inj_tail in Hy as [-> _]. exfalso. apply H3. by eapply Hinner.
Qed.

Lemma leaf_edges n w sn c :
  lab !! n = Some w → leaf_st !! n = Some sn → mhas (edges sn) [c] = true ↔ O' (w ++ [c]).
Proof.
  intros Hn Hsn. assert (Hnl : n ≠ leaf) by (intros ->; rewrite leaf_fresh in Hn; done).
  destruct (leaf_state n sn Hsn Hnl) as (st0 & Hst0 & _ & _ & ->).
  rewrite leaf_words, <- (t_edges _ _ _ _ _ T n w st0 c) by done.
  unfold mhas. destruct (decide (n = r)) as [->|Hnr].
  - assert (w = x) as -> by congruence. rewrite mget_mset. case_decide as Hc.
    + injection Hc as <-. split; [by right|done].
    + split; [by left|]. intros [|Hx]; [done|]. apply app_inj_tail in Hx as [_ ->]. done.
  - split; [by left|]. intros [|Hx]; [done|]. exfalso. apply app_inj_tail in Hx as [-> _].
    apply Hnr. by eapply (t_inj _ _ _ _ _ T).
Qed.

Lemma leaf_tree : tree_inv s leaf_st lab (S k) O'.
Proof.
  split.
  - apply T.
  - destruct (t_root_state _ _ _ _ _ T) as (st0 & Hst0 & <- & <-).
    destruct (leaf_state_new root st0 Hst0) as (st1 & Hst1 & Hs1 & He1 & _). eauto.
  - intros n w Hn. destruct (t_states _ _ _ _ _ T n w Hn) as (st0 & Hst0).
    destruct (leaf_state_new n st0 Hst0) as (st1 & Hst1 & _). eauto.
  - apply T.
  - intros n w sn key m Hn Hsn Hg. assert (Hnl : n ≠ leaf) by (intros ->; rewrite leaf_fresh in Hn; done).
    destruct (leaf_state n sn Hsn Hnl) as (st0 & Hst0 & _ & _ & He). rewrite He in Hg.
    assert (Hold : mget (edges st0) key = Some m → ∃ c pos L, key = [c] ∧ edge1 n w c m pos L).
    { intros Hg0. destruct (t_keys _ _ _ _ _ T n w st0 key m) as (c & pos & L & -> & E); [done..|].
      exists c, pos, L. split; [done|]. by apply leaf_old_edge. }
    destruct (decide (n = r)) as [->|]; [|by apply Hold].
    rewrite mget_mset in Hg. case_decide as Hkey; [|by apply Hold]. injection Hg as <-. subst key.
    assert (w = x) as -> by congruence. eexists _, _, _. split; [done|]. apply leaf_edge.
  - exact leaf_edges.
  - exact leaf_inner.
  - intros n w c m pos L n' w' c' pos' L' E1 E2.
    destruct (leaf_edge_inv _ _ _ _ _ _ E1) as [(-> & -> & -> & -> & -> & ->)|[E1' Hm1]],
      (leaf_edge_inv _ _ _ _ _ _ E2) as [(-> & -> & -> & Hm & -> & ->)|[E2' Hm2]]; try done.
    by eapply (t_parent _ _ _ _ _ T).
Qed.

Lemma leaf_branching e :
  branching lab O e → (e = None ∨ e = Some r) → (r ≠ root → ∃ d, d ≠ t ∧ O (x ++ [d])) →
  branching lab O' None.
Proof.
  intros HB He Hd n w Hn Hrt _. destruct (decide (Some n = e)) as [Hne|Hne].
  - destruct He as [->| ->]; [done|]. injection Hne as ->. destruct (Hd Hrt) as (d & Hdt & Ho).
    assert (w = x) as -> by congruence. exists d, t. split_and!; [done| |]; apply leaf_words; auto.
  - destruct (HB n w Hn Hrt Hne) as (d & d' & Hdd & H1 & H2).
    exists d, d'. split_and!; [done| |]; apply leaf_words; auto.
Qed.
End Leaf.

(** ** A suffix link *)

Section SuffixLink.
Variables (s : jsstr) (h : heap) (lab : gmap nat jsstr) (k : nat) (O : jsstr → Prop).

Lemma set_suffix_state n v q sq :
  h !! q = Some sq →
  ∃ sq', alter (set_suffix v) n h !! q = Some sq' ∧ start sq' = start sq ∧ end_ sq' = end_ sq ∧
         edges sq' = edges sq.
Proof.
  intros Hq. destruct (decide (n = q)) as [->|].
  - eexists. rewrite list_lookup_alter_eq, Hq. done.
  - exists sq. by rewrite list_lookup_alter_ne.
Qed.

Lemma set_suffix_state_inv n v q sq' :
  alter (set_suffix v) n h !! q = Some sq' →
  ∃ sq, h !! q = Some sq ∧ start sq' = start sq ∧ end_ sq' = end_ sq ∧ edges sq' = edges sq.
Proof.
  intros Hq. assert (is_Some (h !! q)) as [sq Hsq].
  { apply lookup_lt_is_Some. apply lookup_lt_Some in Hq. by rewrite length_alter in Hq. }
  exists sq. destruct (set_suffix_state n v q sq Hsq) as (sq1 & Hsq1 & ?). split; [done|].
  assert (sq1 = sq') as -> by congruence. done.
Qed.

Lemma set_suffix_edge n v n0 w c m pos L :
  edge s (alter (set_suffix v) n h) lab k n0 w c m pos L ↔ edge s h lab k n0 w c m pos L.
Proof.
  split; intros E; (split; try apply E).
  - destruct (e_edge _ _ _ _ _ _ _ _ _ _ E) as (st & Hst & Hg).
    destruct (set_suffix_state_inv _ _ _ _ Hst) as (st0 & Hst0 & _ & _ & He). exists st0. by rewrite <- He.
  - destruct (e_state _ _ _ _ _ _ _ _ _ _ E) as (st & Hst & Hs & Hg).
    destruct (set_suffix_state_inv _ _ _ _ Hst) as (st0 & Hst0 & Hs0 & Hen & He). exists st0.
    by rewrite <- Hs0, <- He, <- Hen.
  - destruct (e_edge _ _ _ _ _ _ _ _ _ _ E) as (st & Hst & Hg).
    destruct (set_suffix_state n v _ _ Hst) as (st0 & Hst0 & _ & _ & He). exists st0. by rewrite He.
  - destruct (e_state _ _ _ _ _ _ _ _ _ _ E) as (st & Hst & Hs & Hg).
    destruct (set_suffix_state n v _ _ Hst) as (st0 & Hst0 & Hs0 & Hen & He). exists st0.
    by rewrite Hs0, He, Hen.
Qed.

Lemma set_suffix_tree n v : tree_inv s h lab k O → tree_inv s (alter (set_suffix v) n h) lab k O.
Proof.
  intros T. split; try apply T.
  - destruct (t_root_state _ _ _ _ _ T) as (st & Hst & <- & <-).
    destruct (set_suffix_state n v _ _ Hst) as (st' & Hst' & ? & ? & ?). eauto.
  - intros q w Hq. destruct (t_states _ _ _ _ _ T q w Hq) as (st & Hst).
    destruct (set_suffix_state n v _ _ Hst) as (st' & Hst' & ?). eauto.
  - intros q w st key m Hq Hst Hg. destruct (set_suffix_state_inv _ _ _ _ Hst) as (st0 & Hst0 & _ & _ & He).
    rewrite He in Hg. destruct (t_keys _ _ _ _ _ T q w st0 key m) as (c & pos & L & -> & E); [done..|].
    exists c, pos, L. split; [done|]. by apply set_suffix_edge.
  - intros q w st c Hq Hst. destruct (set_suffix_state_inv _ _ _ _ Hst) as (st0 & Hst0 & _ & _ & ->).
    by apply (t_edges _ _ _ _ _ T q w).
  - intros q w c m pos L x d E%set_suffix_edge. by apply (t_inner _ _ _ _ _ T q w c m pos).
  - intros q w c m pos L q' w' c' pos' L' E%set_suffix_edge E'%set_suffix_edge.
    by eapply (t_parent _ _ _ _ _ T).
Qed.

Lemma set_suffix_located n v st a kk e :
  located s h lab k st a kk e → located s (alter (set_suffix v) n h) lab k st a kk e.
Proof.
  intros [|(Hk & q & w & Hq & Hw & Hp & Ha & Hc)]; [by left|right]. split; [done|].
  exists q, w. split_and!; [done..|]. destruct Hc as [|(c & m & pos & L & E & Hr)]; [by left|right].
  exists c, m, pos, L. split; [by apply set_suffix_edge|done].
Qed.

End SuffixLink.

(** The link that was missing. *)
Lemma set_suffix_links h (lab : gmap nat jsstr) n a v m (e : gset nat) :
  n ≠ root → lab !! n = Some (a :: v) → lab !! m = Some v → is_Some (h !! n) →
  links h lab (e ∪ {[n]}) → links (alter (set_suffix (Some m)) n h) lab e.
Proof.
  intros Hn Hl Hm [st Hst] [(sr & Hsr & Hr) HL]. split.
  - exists sr. by rewrite list_lookup_alter_ne.
  - intros q w Hq Hqr Hqe. destruct (decide (q = n)) as [->|Hqn].
    + exists (set_suffix (Some m) st), a, v, m. by rewrite list_lookup_alter_eq, Hst.
    + destruct (HL q w Hq Hqr) as (sq & b & u & p & H1 & H2 & H3 & H4); [set_solver|].
      exists sq, b, u, p. by rewrite list_lookup_alter_ne.
Qed.

Lemma links_kept h h' lab lab' (e e' : gset nat) :
  suffixes_kept h h' → lab ⊆ lab' → e ⊆ e' →
  (∀ n, is_Some (lab' !! n) → lab !! n = None → n ∈ e') → links h lab e → links h' lab' e'.
Proof.
  intros Hs Hl He Hnew [(sr & Hsr & Hr) HL]. split.
  - destruct (Hs _ _ Hsr) as (sr' & Hsr' & Hr'). exists sr'. by rewrite Hr'.
  - intros n w Hn Hnr Hne. destruct (lab !! n) as [w'|] eqn:Hw.
    + apply (link_kept h h' lab); [done..|]. apply (HL n w'); [done..|set_solver].
    + exfalso. apply Hne. by apply Hnew.
Qed.

(** ** [_testAndSplit] *)

Section Update.
Variables (s : jsstr) (i : nat) (t : Z).
Hypothesis Hi : s !! i = Some t.

Lemma i_bound : (S i <= length s)%nat.
Proof. by apply lookup_lt_Some in Hi. Qed.

Lemma key_i : key_at s (Z.of_nat i) = [t].
Proof. unfold key_at, charAt. by rewrite (proj2 (Z.ltb_ge _ _)), Nat2Z.id, Hi by lia. Qed.

(** The suffix from [k] has no edge for the character yet, and [r] is its state. *)
Record to_grow (h : heap) (lab : gmap nat jsstr) (k : nat) (r : nat) : Prop := mkToGrow {
  g_k : (k <= i)%nat;
  g_tree : tree_inv s h lab k (occ_at s i k);
  g_label : lab !! r = Some (sub s k i);
  g_new : ¬ occ_at s i k (sub s k i ++ [t]);
  g_inner : ∀ n w c m pos L, edge s h lab k n w c m pos L →
    w ++ [c] `prefix_of` sub s k i → sub s k i `prefix_of` L → sub s k i = L;
  g_branching : branching lab (occ_at s i k) (Some r);
  g_next : r ≠ root → ∃ d, d ≠ t ∧ occ_at s i k (sub s k i ++ [d])
}.

Lemma branching_except lab O e : branching lab O None → branching lab O e.
Proof. intros HB n w Hn Hr _. by apply (HB n w). Qed.

(** At a state. *)
Lemma test_explicit h lab k n w :
  tree_inv s h lab k (occ_at s i k) → branching lab (occ_at s i k) None → (k <= i)%nat →
  lab !! n = Some w → w = sub s k i →
  ∃ b, _testAndSplit s h (Some n) (Z.of_nat i) (Z.of_nat i) [t] = Some (h, (b, Some n)) ∧
       if b : bool then occ s i (sub s k (S i)) else to_grow h lab k n.
Proof.
  intros T HB Hk Hn ->. pose proof i_bound. unfold _testAndSplit. rewrite Z.ltb_irrefl.
  destruct (t_states _ _ _ _ _ T _ _ Hn) as (st & Hst). rewrite Hst. cbn [mbind option_bind].
  eexists. split; [done|]. destruct (mhas (edges st) [t]) eqn:Hm.
  - apply (t_edges _ _ _ _ _ T n (sub s k i) st) in Hm; [|done..]. rewrite <- (sub_snoc s k i t) in Hm by done.
    by apply (occ_at_next s i k).
  - assert (Hno : ¬ occ_at s i k (sub s k i ++ [t])).
    { intros Ho. apply (t_edges _ _ _ _ _ T n (sub s k i) st) in Ho; [|done..]. congruence. }
    split; try done.
    + intros n' w c m pos L E H1 H2. by apply (not_inner s h lab k (occ_at s i k) n (sub s k i) n' w c m pos L).
    + by apply branching_except.
    + intros Hr. destruct (HB n (sub s k i) Hn Hr) as (d & d' & Hd & H1 & H2); [done|].
      destruct (decide (d = t)) as [->|]; [exists d'|exists d]; split; try done; congruence.
Qed.

(** Within an edge. *)
Lemma test_inner h lab k n w c m pos L :
  tree_inv s h lab k (occ_at s i k) → branching lab (occ_at s i k) None → (k <= i)%nat →
  edge s h lab k n w c m pos L → w ++ [c] `prefix_of` sub s k i →
  sub s k i `prefix_of` L → sub s k i ≠ L →
  _testAndSplit s h (Some n) (Z.of_nat (k + length w)) (Z.of_nat i) [t] = Some (h, (true, Some n)) ∧
    occ s i (sub s k (S i)) ∨
  ∃ h' lab', _testAndSplit s h (Some n) (Z.of_nat (k + length w)) (Z.of_nat i) [t]
             = Some (h', (false, Some (length h))) ∧
    to_grow h' lab' k (length h) ∧ lab' = <[length h := sub s k i]> lab ∧ suffixes_kept h h' ∧
    lab !! length h = None.
Proof.
  intros T HB Hk E H1 H2 H3. pose proof i_bound as Hib.
  pose proof (prefix_length _ _ H1) as Hl. rewrite length_app, length_sub in Hl by lia. cbn in Hl.
  assert (HLl : (length (sub s k i) < length L)%nat).
  { pose proof (prefix_length _ _ H2). destruct (decide (length (sub s k i) = length L)); [|lia].
    exfalso. apply H3, prefix_same_length; [done|lia]. }
  destruct (lookup_lt_is_Some_2 L (length (sub s k i))) as [d Hd]; [done|].
  assert (HxL : sub s k i ++ [d] `prefix_of` L).
  { destruct H2 as [r Hr]. rewrite Hr in Hd. rewrite lookup_app_r, Nat.sub_diag in Hd by done.
    destruct r as [|b r]; [done|]. injection Hd as ->. rewrite Hr. exists r.
    by rewrite <- (assoc_L (++)). }
  pose proof (e_pos _ _ _ _ _ _ _ _ _ _ E) as Hpos.
  assert (Hxd : at_pos s (sub s k i ++ [d]) pos) by (eapply at_prefix; [exact HxL|apply E]).
  assert (Ho : occ s i (sub s k i ++ [d])).
  { exists pos. split; [done|]. rewrite length_app, length_sub by lia. cbn. lia. }
  destruct (e_state _ _ _ _ _ _ _ _ _ _ E) as (sp & Hsp & Hstart & _).
  destruct (e_edge _ _ _ _ _ _ _ _ _ _ E) as (st & Hst & Hg).
  assert (Hlx : length (sub s k i) = (i - k)%nat) by (rewrite length_sub; lia).
  assert (Hkey : key_at s (start sp + Z.of_nat (length (sub s k i) - length w)) = [d]).
  { apply (split_key2 s h lab k n w c m pos L (sub s k i) d E H1 HxL sp Hsp). }
  assert (Hc : s !! (k + length w)%nat = Some c).
  { eapply (at_snoc s w c k), at_prefix; [exact H1|apply sub_at]. }
  unfold _testAndSplit. rewrite (proj2 (Z.ltb_lt _ _)) by lia. cbn [mbind option_bind].
  destruct (edge_step s h lab k n w c m pos L (Z.of_nat (k + length w)) E) as [He _];
    [lia|by rewrite Nat2Z.id|]. rewrite He. cbn [mbind option_bind]. rewrite Hsp. cbn [mbind option_bind].
  replace (Z.of_nat i - Z.of_nat (k + length w)) with (Z.of_nat (length (sub s k i) - length w)) by lia.
  rewrite Hkey. destruct (decide (d = t)) as [->|Hdt].
  - left. assert (([t] ==s [t]) = true) as -> by (by apply jseq_true).
    split; [done|]. by rewrite (sub_snoc s k i t) by done.
  - right. assert (([t] ==s [d]) = false) as -> by (apply jseq_false; congruence).
    eexists _, _. split; [reflexivity|]. split; [|split_and!; [done| |]].
    + assert (Hso : occ_at s i k (sub s k i ++ [d])) by (by left).
      split; [done| |apply split_lab_r| |idtac|idtac|by exists d].
      * by eapply (split_tree s h lab k (occ_at s i k) T HB n w c m pos L (sub s k i) d E); eauto using occ_at_closed.
      * intros Hot. apply Hdt. pose proof (t_inner _ _ _ _ _ T _ _ _ _ _ _ _ t E H1 H2 H3 Hot) as Hp.
        pose proof (prefix_snoc_take _ _ _ _ Hp eq_refl) as Ht.
        rewrite (prefix_snoc_take _ _ _ _ HxL eq_refl) in Ht. apply app_inv_head in Ht. by injection Ht.
      * by eapply (split_x_not_inner s h lab k (occ_at s i k) T HB n w c m pos L (sub s k i) d E); eauto.
      * intros q u Hq Hqr Hqe. unfold split_lab in Hq. rewrite lookup_insert_ne in Hq by congruence.
        by apply (HB q u).
    + eapply suffixes_kept_trans; [|apply suffixes_kept_app].
      eapply suffixes_kept_trans; by apply suffixes_kept_alter.
    + by apply (fresh_r s h lab k (occ_at s i k)).
Qed.
End Update.
