(* ===== verification/SuffixTreeConstruct.v ===== *)
(** * SuffixTreeConstruct: the loops of the construction

    [_update] and [_construct] of SuffixTree.v return, and what they return is
    the tree of the string. *)

From S2P Require Import Prelude SuffixTree SuffixTreeInv SuffixTreeWalk SuffixTreeSteps SuffixTreeBuild.

(** ** [_update] *)

Section Update.
Variables (s : jsstr) (i : nat) (t : Z).
Hypothesis Hi : s !! i = Some t.

Abbreviation labels := (gmap nat jsstr).

(** Before [_testAndSplit]: the suffixes before [k] have the character, and the
    suffix link of [oldR] may be missing. *)
Record before (h : heap) (lab : labels) (k oldR : nat) (st : ref) (a : Z) : Prop := mkBefore {
  b_k : (k <= S i)%nat;
  b_tree : tree_inv s h lab k (occ_at s i k);
  b_branching : branching lab (occ_at s i k) None;
  b_links : links h lab {[oldR]};
  b_fresh : fresh s (S i) k;
  b_located : located s h lab k st a k i;
  b_old : oldR = root ∨ (1 <= k)%nat ∧ lab !! oldR = Some (sub s (k - 1) i)
}.

(** The suffix from [k] has the character: nothing more to do. *)
Definition ended (k : nat) : Prop := k = S i ∨ (k <= i)%nat ∧ occ s i (sub s k (S i)).

(** The suffix from [k] is at [r], and gets a leaf. *)
Record growing (h : heap) (lab : labels) (k oldR n : nat) (a : Z) (r : nat) : Prop := mkGrowing {
  w_grow : to_grow s i t h lab k r;
  w_links : links h lab {[oldR; r]};
  w_fresh : fresh s (S i) k;
  w_old : oldR = root ∨ (1 <= k)%nat ∧ lab !! oldR = Some (sub s (k - 1) i);
  w_state : ∃ w, lab !! n = Some w ∧ w `prefix_of` sub s k i ∧ a = Z.of_nat (k + length w);
  w_link : n ≠ root → link h lab n
}.

(** A state above the suffix from [k] is not the last one made. *)
Lemma above_old h lab k oldR n w O :
  tree_inv s h lab k O → (k <= i)%nat →
  oldR = root ∨ (1 <= k)%nat ∧ lab !! oldR = Some (sub s (k - 1) i) →
  lab !! n = Some w → w `prefix_of` sub s k i → n ≠ root → n ≠ oldR.
Proof.
  intros T Hk Hold Hn Hp%prefix_length Hr ->. destruct Hold as [->|[Hk1 Hl]]; [done|].
  rewrite Hl in Hn. injection Hn as <-. pose proof (i_bound s i t Hi).
  rewrite !length_sub in Hp by lia. lia.
Qed.

Lemma test_spec h lab k oldR st a :
  before h lab k oldR st a →
  ∃ h' b rs, _testAndSplit s h st a (Z.of_nat i) [t] = Some (h', (b, rs)) ∧
    if b : bool then h' = h ∧ ended k
    else ∃ lab' n r, st = Some n ∧ rs = Some r ∧ growing h' lab' k oldR n a r.
Proof.
  intros [Hk T HB HL Hf Hloc Hold]. destruct Hloc as [(-> & -> & ->)|(Hki & n & w & -> & Hn & Hw & -> & Hat)].
  - exists h, true, None. unfold _testAndSplit. rewrite Z.ltb_irrefl. split; [done|]. split; [done|by left].
  - assert (Hlink : n ≠ root → link h lab n).
    { intros Hr. apply (proj2 HL n w); [done..|].
      pose proof (above_old h lab k oldR n w _ T Hki Hold Hn Hw Hr). set_solver. }
    destruct Hat as [Hx|(c & m & pos & L & E & H2 & H3 & H1)].
    + destruct (test_explicit s i t Hi h lab k n w T HB Hki Hn Hx) as (b & Ht & Hb).
      pose proof (i_bound s i t Hi). assert (Z.of_nat (k + length w) = Z.of_nat i) as ->.
      { rewrite Hx, length_sub by lia. lia. }
      exists h, b, (Some n). split; [done|]. destruct b; [split; [done|by right]|].
      exists lab, n, n. split_and!; [done..|]. split; try done.
      * apply (links_kept h h lab lab {[oldR]}); try done; [by intros q sq ?; exists sq|set_solver|].
        intros q [u Hq] Hq'. congruence.
      * exists w. split_and!; [done..|]. rewrite Hx, length_sub by lia. lia.
    + destruct (test_inner s i t Hi h lab k n w c m pos L T HB Hki E H1 H2 H3)
        as [[Ht Ho]|(h' & lab' & Ht & Hg & -> & Hs & Hnew)].
      * exists h, true, (Some n). split; [done|]. split; [done|by right].
      * exists h', false, (Some (length h)). split; [done|].
        exists (<[length h := sub s k i]> lab), n, (length h). split_and!; [done..|].
        assert (Hsub : lab ⊆ <[length h := sub s k i]> lab) by by apply insert_subseteq.
        split; [done| |done| | |].
        -- apply (links_kept h h' lab _ {[oldR]}); [done..|set_solver| |done].
           intros q Hq Hq'. destruct (decide (q = length h)) as [->|]; [set_solver|].
           rewrite lookup_insert_ne in Hq by congruence. destruct Hq. congruence.
        -- destruct Hold as [|[Hk1 Ho]]; [by left|right]. split; [done|]. by eapply lookup_weaken.
        -- exists w. split_and!; [by eapply lookup_weaken|done..].
        -- intros Hr. by apply (link_kept h h' lab); auto.
Qed.

(** The heap after the loop's body, before it follows the suffix link. *)
Definition grown (h : heap) (oldR r : nat) : heap :=
  let h := leaf_st s h i t r in if (oldR =? root)%nat then h else alter (set_suffix (Some r)) oldR h.

Lemma grown_tree h lab k oldR n a r :
  growing h lab k oldR n a r →
  tree_inv s (grown h oldR r) lab (S k) (occ_at s i (S k)) ∧ branching lab (occ_at s i (S k)) None.
Proof.
  intros [[Hk T Hr Hnew Hin HB Hd] _ _ _ _ _].
  destruct (t_states _ _ _ _ _ T r _ Hr) as (st & Hst). split.
  - assert (tree_inv s (leaf_st s h i t r) lab (S k) (occ_at s i (S k))) by by eapply leaf_tree.
    unfold grown. destruct (oldR =? root)%nat; [done|]. by apply set_suffix_tree.
  - apply (leaf_branching s lab i k t Hi Hk r Hr (Some r)); auto.
Qed.

Lemma grown_links h lab k oldR n a r :
  growing h lab k oldR n a r →
  links (grown h oldR r) lab {[r]} ∧ (n ≠ root → link (grown h oldR r) lab n).
Proof.
  intros [[Hk T Hr Hnew Hin HB Hd] HL Hf Hold (w & Hn & Hw & Ha) Hlink].
  destruct (t_states _ _ _ _ _ T r _ Hr) as (st & Hst).
  assert (Hs : suffixes_kept h (leaf_st s h i t r)) by apply leaf_suffixes.
  assert (HL' : links (leaf_st s h i t r) lab {[oldR; r]}).
  { apply (links_kept h _ lab lab {[oldR; r]}); try done. intros q [u Hq] Hq'. congruence. }
  assert (Hlink' : n ≠ root → link (leaf_st s h i t r) lab n).
  { intros Hnr. apply (link_kept h _ lab lab); auto. }
  unfold grown. destruct (Nat.eqb_spec oldR root) as [->|Hor].
  - split; [|done]. split; [apply HL'|]. intros q u Hq Hqr Hqe. apply (proj2 HL' q u); [done..|set_solver].
  - destruct Hold as [|[Hk1 Ho]]; [done|].
    assert (Hlo : ∃ b, sub s (k - 1) i = b :: sub s k i) by (pose proof (i_bound s i t Hi); apply sub_cons; lia).
    destruct Hlo as [b Hb]. rewrite Hb in Ho. split.
    + apply (set_suffix_links (leaf_st s h i t r) lab oldR b (sub s k i) r); [done..| |].
      * destruct (t_states _ _ _ _ _ T oldR _ Ho) as (so & Hso). destruct (Hs _ _ Hso) as (so' & Hso' & _).
        by exists so'.
      * by replace ({[r]} ∪ {[oldR]} : gset nat) with ({[oldR; r]} : gset nat) by set_solver.
    + intros Hnr. destruct (Hlink' Hnr) as (sn & b' & v & m & H1 & H2 & H3 & H4).
      exists sn, b', v, m. rewrite list_lookup_alter_ne; [done|].
      intros ->. apply (above_old h lab k n n w (occ_at s i k)); try done. right. by rewrite Hb.
Qed.

(** Then the loop follows the suffix link to the next suffix. *)
Lemma grow_spec h lab k oldR n a r :
  growing h lab k oldR n a r →
  ∃ st sf st' a', grown h oldR r !! n = Some st ∧ suffix st = Suffix sf ∧
    _canonize s (grown h oldR r) sf a (Z.of_nat i) = Some (st', a') ∧
    before (grown h oldR r) lab (S k) r st' a'.
Proof.
  intros G. destruct (grown_tree _ _ _ _ _ _ _ G) as [T' HB']. destruct (grown_links _ _ _ _ _ _ _ G) as [HL' Hlink'].
  destruct G as [[Hk T Hr Hnew Hin HB Hd] HL Hf Hold (w & Hn & Hw & ->) Hlink]. clear HL Hlink.
  pose proof (i_bound s i t Hi) as Hib. set (h' := grown h oldR r) in *.
  assert (Hf' : fresh s (S i) (S k)).
  { apply fresh_next; [done..|]. intros Ho. apply Hnew. left. by rewrite <- (sub_snoc s k i t). }
  assert (Hrest : ∀ st' a', located s h' lab (S k) st' a' (S k) i → before h' lab (S k) r st' a').
  { intros st' a' Hloc. split; try done; [lia|]. right. split; [lia|].
    by replace (S k - 1)%nat with k by lia. }
  destruct (decide (n = root)) as [->|Hnr].
  - destruct HL' as [(sr & Hsr & Hsuf) _]. exists sr, None.
    rewrite (t_root _ _ _ _ _ T) in Hn. injection Hn as <-. cbn [length]. rewrite Nat.add_0_r.
    destruct (decide (k = i)) as [->|Hki].
    + exists None, (Z.of_nat i). split_and!; [done..| |].
      * unfold _canonize. by rewrite (proj2 (Z.leb_le _ _)) by lia.
      * apply Hrest. by left.
    + destruct (canonize_bottom s h' lab (S k) (occ_at s i (S k)) T' (occ_at_closed s i (S k)) (S k) i)
        with (a := Z.of_nat k) as (st' & a' & Hc & Hloc); [lia|lia|lia| |lia|].
      * left. apply occ_sub; lia.
      * exists st', a'. auto.
  - destruct (Hlink' Hnr) as (st & b & v & m & Hst & Hsuf & Hbv & Hm).
    assert (w = b :: v) as -> by congruence. exists st, (Some m).
    pose proof (prefix_length _ _ Hw) as Hl. rewrite length_sub in Hl by lia. cbn [length] in *.
    assert (Hv : v `prefix_of` sub s (S k) i).
    { apply (at_compare s _ _ (S k)); [|apply sub_at|rewrite length_sub by lia; lia].
      apply (at_tail s b). eapply at_prefix; [exact Hw|apply sub_at]. }
    destruct (canonize_spec s h' lab (S k) (occ_at s i (S k)) T' (occ_at_closed s i (S k)) (S k) i)
      with (n := m) (w := v) as (st' & a' & Hc & Hloc); [lia|lia|lia| |done|done|].
    + left. apply occ_sub; lia.
    + exists st', a'. replace (Z.of_nat (k + S (length v))) with (Z.of_nat (S k + length v)) by lia. auto.
Qed.

Lemma update_loop_spec f h lab k oldR st a b rs :
  (S i - k < f)%nat →
  (if b : bool then before h lab k oldR st a ∧ ended k
   else ∃ n r, st = Some n ∧ rs = Some r ∧ growing h lab k oldR n a r) →
  ∃ h' lab' k' oldR' st' a',
    update_loop s (infinity_of s) f h (Z.of_nat i) oldR st a b rs = Some (h', oldR', st', a') ∧
    before h' lab' k' oldR' st' a' ∧ ended k'.
Proof.
  revert h lab k oldR st a b rs. induction f as [|f IH]; intros h lab k oldR st a b rs Hf Hb; [lia|].
  cbn [update_loop]. destruct b; [by eexists _, lab, k, _, _, _|].
  destruct Hb as (n & r & -> & -> & G). cbn [mbind option_bind]. rewrite (key_i s i t Hi).
  change (alter (set_edge [t] (length h)) r h ++ [newState (Z.of_nat i) (infinity_of s)]) with (leaf_st s h i t r).
  destruct (grow_spec _ _ _ _ _ _ _ G) as (sn & sf & st' & a' & Hn & Hsuf & Hc & HB).
  unfold grown in Hn, Hc, HB. rewrite Hn. cbn [mbind option_bind]. rewrite Hsuf, Hc. cbn [mbind option_bind].
  destruct (test_spec _ _ _ _ _ _ HB) as (h' & b & rs & Ht & Hb). rewrite Ht. cbn [mbind option_bind].
  pose proof (g_k _ _ _ _ _ _ _ (w_grow _ _ _ _ _ _ _ G)) as Hk.
  destruct b.
  - destruct Hb as [-> Hend]. apply (IH _ lab (S k)); [lia|done].
  - destruct Hb as (lab' & n' & r' & -> & -> & G'). apply (IH _ lab' (S k)); [lia|eauto].
Qed.

(** At the end the state of the suffix from [k] is the one the last link leads to. *)
Lemma old_next h lab k oldR st a :
  before h lab k oldR st a → ended k → oldR ≠ root → ∃ n, st = Some n ∧ lab !! n = Some (sub s k i).
Proof.
  intros [Hk T HB HL Hf Hloc Hold] Hend Hor. destruct Hold as [|[Hk1 Ho]]; [done|].
  pose proof (i_bound s i t Hi) as Hib.
  assert (Hki : (k <= i)%nat).
  { destruct (decide (k = S i)) as [->|]; [|lia]. replace (S i - 1)%nat with i in Ho by lia.
    rewrite sub_nil in Ho. exfalso. apply Hor. by eapply (t_inj _ _ _ _ _ T); [|apply T]. }
  destruct Hend as [|[_ Hend]]; [lia|].
  destruct Hloc as [(_ & -> & _)|(_ & n & w & -> & Hn & _ & _ & [->|(c & m & pos & L & E & H2 & H3 & H1)])];
    [lia|by exists n|]. exfalso. apply H3.
  destruct (HB oldR _ Ho Hor) as (d & d' & Hd & Hd1 & Hd2); [done|].
  assert (Hnext : ∀ d, occ_at s i k (sub s (k - 1) i ++ [d]) → occ_at s i k (sub s k i ++ [d])).
  { intros e Hoe. left.
    assert (Hcons : sub s (k - 1) i = sub s (k - 1) k ++ sub s k i) by (apply sub_split; lia).
    destruct Hoe as [Hoe|(j & Hj & Hjk & Hje)].
    - apply (occ_app_r s i (sub s (k - 1) k)). by rewrite (assoc_L (++)), <- Hcons.
    - rewrite length_app, length_sub in Hje by lia. cbn in Hje. assert (j = k - 1)%nat as -> by lia.
      apply at_snoc in Hj as [_ Hc]. rewrite length_sub in Hc by lia.
      replace (k - 1 + (i - (k - 1)))%nat with i in Hc by lia. rewrite Hi in Hc. injection Hc as <-.
      by rewrite <- (sub_snoc s k i t). }
  by apply (two_next s h lab k (occ_at s i k) _ d d' n w c m pos L); auto.
Qed.
End Update.

(** ** One character after the other *)

Section Construct.
Variable s : jsstr.

(** Between two characters: the tree of the first [i] characters, with a leaf
    for each suffix before [k]; the suffix from [k] is not new. *)
Record phase (i : nat) (h : heap) (lab : gmap nat jsstr) (k : nat) (st : ref) (a : Z) : Prop := mkPhase {
  p_k : (k <= i)%nat;
  p_tree : tree_inv s h lab k (occ s i);
  p_branching : branching lab (occ s i) None;
  p_links : links h lab ∅;
  p_fresh : fresh s i k;
  p_located : located s h lab k st a k i;
  p_repeated : k = i ∨ ∃ j, (j < k)%nat ∧ at_pos s (sub s k i) j
}.

Lemma update_spec i t h lab k st a :
  s !! i = Some t → phase i h lab k st a →
  ∃ h' lab' k' st' a',
    _update s (infinity_of s) h st a (Z.of_nat i) = Some (h', st', a') ∧
    (k' <= S i)%nat ∧ tree_inv s h' lab' k' (occ_at s i k') ∧ branching lab' (occ_at s i k') None ∧
    links h' lab' ∅ ∧ fresh s (S i) k' ∧ located s h' lab' k' st' a' k' i ∧ ended s i k'.
Proof.
  intros Hi [Hk T HB HL Hf Hloc _]. pose proof (i_bound s i t Hi) as Hib.
  assert (HBe : before s i h lab k root st a).
  { split; [lia| | | | |done|by left].
    - by apply phase_start.
    - eapply branching_mono; [|exact HB]. by left.
    - split; [apply HL|]. intros n w Hn Hr _. by apply (proj2 HL n w).
    - by apply fresh_S. }
  destruct (test_spec s i t Hi _ _ _ _ _ _ HBe) as (h1 & b & rs & Ht & Hb).
  unfold _update. rewrite (key_i s i t Hi), Ht. cbn [mbind option_bind].
  assert (∃ lab1, if b : bool then before s i h1 lab1 k root st a ∧ ended s i k
    else ∃ n r, st = Some n ∧ rs = Some r ∧ growing s i t h1 lab1 k root n a r) as [lab1 Hb1].
  { destruct b; [exists lab; by destruct Hb as [-> ?]|].
    destruct Hb as (lab' & n & r & -> & -> & G). exists lab'. eauto. }
  destruct (update_loop_spec s i t Hi (S (S (length s))) h1 lab1 k root st a b rs) as
    (h2 & lab2 & k2 & oldR & st2 & a2 & Hu & HB2 & Hend); [lia|done|].
  rewrite Hu. cbn [mbind option_bind].
  eexists _, lab2, k2, st2, a2. split; [done|].
  pose proof (old_next s i t Hi _ _ _ _ _ _ HB2 Hend) as Hold.
  destruct HB2 as [Hk2 T2 HB2 HL2 Hf2 Hloc2 Hold2]. split; [done|].
  destruct (Nat.eqb_spec oldR root) as [->|Hor].
  - split_and!; try done. split; [apply HL2|]. intros n w Hn Hr _. apply (proj2 HL2 n w); [done..|set_solver].
  - destruct (Hold Hor) as (n & -> & Hn). destruct Hold2 as [|[Hk1 Ho]]; [done|].
    split_and!; try done; [by apply set_suffix_tree| |by apply set_suffix_located].
    assert (k2 <= i)%nat as Hki.
    { destruct Hloc2 as [(? & _)|[? _]]; done. }
    assert (Hlo : ∃ b, sub s (k2 - 1) i = b :: sub s k2 i) by (apply sub_cons; lia).
    destruct Hlo as [c Hc]. rewrite Hc in Ho.
    apply (set_suffix_links h2 lab2 oldR c (sub s k2 i) n); [done..| |].
    + by apply (t_states _ _ _ _ _ T2) in Ho.
    + by rewrite (left_id_L ∅ (∪)).
Qed.

Lemma phase_next i h lab k st a :
  (S i <= length s)%nat → phase i h lab k st a →
  ∃ h1 st1 a1 lab' k' st' a',
    _update s (infinity_of s) h st a (Z.of_nat i) = Some (h1, st1, a1) ∧
    _canonize s h1 st1 a1 (Z.of_nat i + 1) = Some (st', a') ∧ phase (S i) h1 lab' k' st' a'.
Proof.
  intros Hi P. destruct (lookup_lt_is_Some_2 s i) as [t Ht]; [lia|].
  destruct (update_spec i t h lab k st a Ht P) as
    (h1 & lab1 & k1 & st1 & a1 & Hu & Hk1 & T & HB & HL & Hf & Hloc & Hend).
  assert (Hw : ∀ v, occ_at s i k1 v ↔ occ s (S i) v).
  { intros v. apply phase_end_words; [done|]. destruct Hend; tauto. }
  apply (tree_inv_iff _ _ _ _ _ (occ s (S i)) Hw) in T.
  assert (HB' : branching lab1 (occ s (S i)) None) by (eapply branching_mono; [|exact HB]; apply Hw).
  assert (Hrest : ∀ st' a', located s h1 lab1 k1 st' a' k1 (S i) → phase (S i) h1 lab1 k1 st' a').
  { intros st' a' Hl. split; try done. destruct Hend as [->|[Hki (j & Hj & He)]]; [by left|right].
    exists j. split; [|done]. rewrite length_sub in He by lia. lia. }
  replace (Z.of_nat i + 1) with (Z.of_nat (S i)) by lia.
  assert (Ho : occ s (S i) (sub s k1 (S i))) by (apply occ_sub; lia).
  destruct Hloc as [(-> & -> & ->)|(Hki & n & w & -> & Hn & Hp & -> & _)].
  - destruct (canonize_bottom s h1 lab1 (S i) (occ s (S i)) T (occ_closed s (S i)) (S i) (S i))
      with (a := Z.of_nat i) as (st' & a' & Hc & Hl); [lia..|done|lia|].
    exists h1, None, (Z.of_nat i), lab1, (S i), st', a'. auto.
  - destruct (canonize_spec s h1 lab1 k1 (occ s (S i)) T (occ_closed s (S i)) k1 (S i))
      with (n := n) (w := w) as (st' & a' & Hc & Hl); [lia..|done|done| |].
    { trans (sub s k1 i); [done|]. rewrite (sub_snoc s k1 i t) by done. by eexists. }
    exists h1, (Some n), (Z.of_nat (k1 + length w)), lab1, k1, st', a'. auto.
Qed.

Lemma phase_0 : phase 0 [new_root] {[root := []]} 0 (Some root) 0.
Proof.
  assert (Hlab : ∀ n w, ({[root := []]} : gmap nat jsstr) !! n = Some w → n = root ∧ w = []).
  { intros n w Hn%lookup_singleton_Some. by destruct Hn. }
  assert (Hocc : ∀ v c, ¬ occ s 0 (v ++ [c])).
  { intros v c (j & _ & Hj). rewrite length_app in Hj. cbn in Hj. lia. }
  split; try done.
  - split.
    + by rewrite lookup_singleton_eq.
    + by exists new_root.
    + intros n w [-> ->]%Hlab. by exists new_root.
    + intros n m w [-> _]%Hlab [-> _]%Hlab. done.
    + intros n w st key m [-> _]%Hlab [= <-]. done.
    + intros n w st c [-> ->]%Hlab [= <-]. split; [done|]. by intros Ho%(Hocc []).
    + intros n w c m pos L x d _ _ _ _ Ho. by apply Hocc in Ho.
    + intros n w c m pos L n' w' c' pos' L' E _.
      pose proof (e_from _ _ _ _ _ _ _ _ _ _ E) as [-> ->]%Hlab.
      by destruct (e_edge _ _ _ _ _ _ _ _ _ _ E) as (st & [= <-] & Hg).
  - intros n w [-> _]%Hlab. done.
  - split; [by exists new_root|]. intros n w [-> _]%Hlab. done.
  - intros j j' Hj Hj'. lia.
  - right. split; [done|]. exists root, []. split_and!; [done|by rewrite lookup_singleton_eq| |done|].
    + apply prefix_nil.
    + left. by rewrite sub_nil.
  - by left.
Qed.

Lemma construct_loop_spec n i h lab k st a :
  (i + n = length s)%nat → phase i h lab k st a →
  ∃ h' lab' k' st' a',
    construct_loop s (infinity_of s) n (Z.of_nat i) h st a = Some (h', st', a') ∧
    phase (length s) h' lab' k' st' a'.
Proof.
  revert i h lab k st a. induction n as [|n IH]; intros i h lab k st a Hn P.
  - replace i with (length s) in P by lia. by eexists _, lab, k, _, _.
  - destruct (phase_next i h lab k st a) as (h1 & st1 & a1 & lab' & k' & st' & a' & Hu & Hc & P'); [lia|done|].
    cbn [construct_loop]. rewrite Hu. cbn [mbind option_bind]. rewrite Hc. cbn [mbind option_bind].
    replace (Z.of_nat i + 1) with (Z.of_nat (S i)) by lia. apply (IH (S i) h1 lab' k'); [lia|done].
Qed.

(** *** No attribute twice *)

Definition keys_unique (h : heap) : Prop := Forall (λ st, NoDup (edges st).*1) h.

Lemma keys_alter f n h :
  (∀ st, NoDup (edges st).*1 → NoDup (edges (f st)).*1) → keys_unique h → keys_unique (alter f n h).
Proof.
  intros Hf Hh. apply Forall_lookup. intros q st Hq. destruct (decide (q = n)) as [->|].
  - rewrite list_lookup_alter_eq in Hq. destruct (h !! n) as [st0|] eqn:H0; [|done].
    injection Hq as <-. apply Hf. exact (Forall_lookup_1 _ _ _ _ Hh H0).
  - rewrite list_lookup_alter_ne in Hq by done. exact (Forall_lookup_1 _ _ _ _ Hh Hq).
Qed.

Lemma keys_set_edge key m n h : keys_unique h → keys_unique (alter (set_edge key m) n h).
Proof. apply keys_alter. intros st Hst. by apply mset_NoDup. Qed.

Lemma keys_split h n m sp l : keys_unique h → keys_unique (split_heap s h n m sp l).
Proof.
  intros Hh. apply Forall_app. split.
  - apply keys_alter; [done|]. by apply keys_set_edge.
  - apply Forall_singleton. cbn. apply NoDup_singleton.
Qed.

Lemma keys_test h st a e c h' r :
  _testAndSplit s h st a e c = Some (h', r) → keys_unique h → keys_unique h'.
Proof.
  unfold _testAndSplit. intros Ht Hh. destruct (a <? e).
  - destruct st as [n|]; [|done]. cbn [mbind option_bind] in Ht.
    destruct (edge_at _ _ _ _) as [m|]; [|done]. cbn [mbind option_bind] in Ht.
    destruct (h !! m) as [sp|]; [|done]. cbn [mbind option_bind] in Ht.
    destruct (_ ==s _); injection Ht as <- _; [done|by apply keys_split].
  - destruct st as [n|]; [|by injection Ht as <- _].
    cbn in Ht. destruct (h !! n); [|done]. by injection Ht as <- _.
Qed.

Lemma keys_update_loop f h i oldR st a b rs h' oldR' st' a' :
  update_loop s (infinity_of s) f h i oldR st a b rs = Some (h', oldR', st', a') →
  keys_unique h → keys_unique h'.
Proof.
  revert h oldR st a b rs. induction f as [|f IH]; intros h oldR st a b rs Hu Hh; [done|].
  cbn [update_loop] in Hu. destruct b; [by injection Hu as <- _|].
  destruct rs as [r|]; [|done]. cbn [mbind option_bind] in Hu.
  match type of Hu with context [_testAndSplit s ?h2] => set (h2' := h2) in * end.
  assert (Hh2 : keys_unique h2').
  { assert (keys_unique (alter (set_edge (key_at s i) (length h)) r h ++ [newState i (infinity_of s)])).
    { apply Forall_app. split; [by apply keys_set_edge|]. apply Forall_singleton. constructor. }
    unfold h2'. destruct (oldR =? root)%nat; [done|]. by apply keys_alter. }
  clearbody h2'. destruct st as [n|]; [|done]. cbn [mbind option_bind] in Hu.
  destruct (h2' !! n) as [sn|]; [|done]. cbn [mbind option_bind] in Hu.
  destruct (match suffix sn with Undefined => None | Suffix _ => _ end) as [[st1 a1]|]; [|done].
  cbn [mbind option_bind] in Hu.
  destruct (_testAndSplit s h2' st1 a1 i _) as [[h3 [b3 r3]]|] eqn:Ht; [|done].
  cbn [mbind option_bind] in Hu. by eapply IH, keys_test.
Qed.

Lemma keys_construct_loop n i h st a h' st' a' :
  construct_loop s (infinity_of s) n i h st a = Some (h', st', a') → keys_unique h → keys_unique h'.
Proof.
  revert i h st a. induction n as [|n IH]; intros i h st a Hc Hh; [by injection Hc as <- _|].
  cbn [construct_loop] in Hc. unfold _update in Hc.
  destruct (_testAndSplit s h st a i _) as [[h1 [b r]]|] eqn:Ht; [|done]. cbn [mbind option_bind] in Hc.
  destruct (update_loop _ _ _ _ _ _ _ _ _ _) as [[[[h2 oldR] st2] a2]|] eqn:Hu; [|done].
  cbn [mbind option_bind] in Hc.
  assert (Hh2 : keys_unique h2) by (eapply keys_update_loop; [done|by eapply keys_test]).
  destruct (_canonize _ _ _ _ _) as [[st3 a3]|]; [|done]. cbn [mbind option_bind] in Hc.
  eapply IH; [done|]. destruct (oldR =? root)%nat; [done|]. by apply keys_alter.
Qed.

(** The tree that is built: its words are those of the string, its leaves the
    suffixes before [k]; the suffix from [k] occurs at an earlier position. *)
Record suffix_tree (h : heap) (lab : gmap nat jsstr) (k : nat) : Prop := mkSuffixTree {
  f_k : (k <= length s)%nat;
  f_tree : tree_inv s h lab k (occ s (length s));
  f_branching : branching lab (occ s (length s)) None;
  f_fresh : fresh s (length s) k;
  f_repeated : k = length s ∨ ∃ j, (j < k)%nat ∧ at_pos s (sub s k (length s)) j;
  f_keys : keys_unique h
}.

Lemma construct_tree :
  ∃ h lab k, _construct s (infinity_of s) = Some h ∧ suffix_tree h lab k.
Proof.
  destruct (construct_loop_spec (length s) 0 [new_root] {[root := []]} 0 (Some root) 0) as
    (h & lab & k & st & a & Hc & P); [done|apply phase_0|].
  exists h, lab, k. unfold _construct. change (Z.of_nat 0) with 0 in Hc. rewrite Hc. split; [done|].
  destruct P. split; try done. apply keys_construct_loop in Hc; [done|].
  apply Forall_singleton. constructor.
Qed.
End Construct.
