(* ===== verification/SuffixTreeMatch.v ===== *)
(** * SuffixTreeMatch: what a search in the suffix tree finds

    [findMatches] of SuffixTree.v on the tree that SuffixTreeConstruct.v shows to
    be built: the walk along the pattern, the states below, and the strings that
    the positions found belong to. *)

From S2P Require Import Prelude SuffixTree SuffixTreeInv SuffixTreeWalk SuffixTreeSteps SuffixTreeBuild SuffixTreeConstruct.

Lemma substring_take (s : jsstr) (a b : nat) :
  (a <= b)%nat → substring s (Z.of_nat a) (Z.of_nat b) = take (b - a) (drop a s).
Proof.
  intros Hab. unfold substring, slen.
  replace (Z.max 0 (Z.min (Z.of_nat a) (Z.of_nat (length s)))) with (Z.of_nat (a `min` length s)) by lia.
  replace (Z.max 0 (Z.min (Z.of_nat b) (Z.of_nat (length s)))) with (Z.of_nat (b `min` length s)) by lia.
  rewrite Z.min_l, Z.max_r, Nat2Z.id by lia.
  destruct (decide (length s <= a)%nat).
  - by rewrite !drop_ge, !take_nil by lia.
  - replace (a `min` length s)%nat with a by lia. destruct (decide (length s <= b)%nat).
    + by rewrite !take_ge by (rewrite length_drop; lia).
    + f_equal. lia.
Qed.

(** The states that [_resultGather] goes on to. *)
Lemma elem_of_children st m :
  NoDup (edges st).*1 → m ∈ children st ↔ ∃ c, mget (edges st) [c] = Some m.
Proof.
  intros Hnd. unfold children. rewrite list_elem_of_In, in_map_iff.
  assert (Hd : ∀ c, is_digit c = true → In c [48; 49; 50; 51; 52; 53; 54; 55; 56; 57]).
  { intros c Hc. unfold is_digit in Hc. cbn. lia. }
  split.
  - intros ([key m'] & <- & [Hin Hl]%filter_In). cbn [snd fst] in Hl |- *.
    assert (In (key, m') (edges st)) as Hes.
    { apply in_app_iff in Hin as [(d & _ & [? _]%filter_In)%in_flat_map|[? _]%filter_In]; done. }
    apply list_elem_of_In in Hes. apply Nat.eqb_eq in Hl.
    destruct key as [|c [|]]; [done| |done]. exists c. by apply mget_NoDup.
  - intros [c Hc%mget_elem]. exists ([c], m). split; [done|]. apply filter_In. split; [|done].
    apply list_elem_of_In in Hc. apply in_app_iff. destruct (is_digit c) eqn:Edc.
    + left. apply in_flat_map. exists c. split; [by apply Hd|]. apply filter_In.
      split; [done|]. by apply jseq_true.
    + right. apply filter_In. split; [done|]. unfold is_digit_key. cbn. by rewrite Edc.
Qed.

Section Match.
Context {Item : Type}.
Variables (t : tree Item) (lab : gmap nat jsstr) (k : nat).
Abbreviation s := (_str t).
Abbreviation h := (_heap t).
Abbreviation N := (length s).
Hypothesis F : suffix_tree s h lab k.
Variable p : jsstr.

Abbreviation edge := (edge s h lab k).
Abbreviation O := (occ s N).

Lemma match_tree : tree_inv s h lab k O.
Proof. apply F. Qed.

Lemma match_closed : closed O.
Proof. apply occ_closed. Qed.

Lemma occ_at_pos v j : at_pos s v j → v ≠ [] → O v.
Proof. intros Hv Hn. exists j. split; [done|]. by apply at_length. Qed.

(** The word of a leaf is not the start of a longer word. *)
Lemma leaf_longest n w c m pos L v :
  edge n w c m pos L → lab !! m = None → O v → L `prefix_of` v → v = L.
Proof.
  intros E Hm (j & Hj & He) HL.
  destruct (e_state _ _ _ _ _ _ _ _ _ _ E) as (sp & _ & _ & [[Hl _]|(_ & HLd & _)]); [congruence|].
  pose proof (prefix_length _ _ HL). pose proof (e_pos _ _ _ _ _ _ _ _ _ _ E).
  pose proof (f_k _ _ _ _ F). assert (length L = N - pos)%nat as Hlen by (rewrite HLd; apply length_drop).
  assert (j = pos) as ->.
  { apply (fresh_same s N k pos j L); [apply F|done|lia|apply E|by eapply at_prefix|lia]. }
  symmetry. apply prefix_same_length; [done|lia].
Qed.

(** ** The walk along the pattern *)

(** The state that the walk ends at: below it are the words that start with [p]. *)
Definition locus (m : nat) (index : Z) : Prop :=
  ∃ n w c pos L sp, edge n w c m pos L ∧ w ++ [c] `prefix_of` p ∧ p `prefix_of` L ∧ h !! m = Some sp ∧
    index = Z.of_nat (length w) + state_length sp.

Lemma follow_edge n w c m pos L sp :
  edge n w c m pos L → w ++ [c] `prefix_of` p → h !! m = Some sp →
  let atl := Z.min (state_length sp) (slen p - Z.of_nat (length w)) in
  let same := substring s (start sp) (start sp + atl)
                ==s substring p (Z.of_nat (length w)) (Z.of_nat (length w) + atl) in
  if same then p `prefix_of` L ∧ Z.of_nat (length p) <= Z.of_nat (length w) + state_length sp ∨
               lab !! m = Some L ∧ L `prefix_of` p ∧ (length L < length p)%nat ∧
               state_length sp = Z.of_nat (length L - length w)
  else ¬ O p.
Proof.
  intros E Hw Hsp atl same.
  assert (Hc : s !! (pos + length w)%nat = Some c).
  { assert (at_pos s (w ++ [c]) pos) as [_ ?]%at_snoc; [|done]. eapply at_prefix; apply E. }
  destruct (edge_step s h lab k n w c m pos L (Z.of_nat (pos + length w)) E) as (_ & sp' & Hsp' & Hs & Hlen);
    [lia|by rewrite Nat2Z.id|]. assert (sp' = sp) as -> by congruence.
  pose proof (prefix_length _ _ Hw) as Hlw. rewrite length_app in Hlw. cbn in Hlw.
  pose proof (edge_longer s h lab k n w c m pos L E) as HL.
  pose proof (e_pos _ _ _ _ _ _ _ _ _ _ E) as Hpos. pose proof (f_k _ _ _ _ F) as Hk.
  assert (Hwp : at_pos s w pos).
  { eapply at_prefix; [|apply E]. trans (w ++ [c]); [by eexists|apply E]. }
  assert (Hpw : w `prefix_of` p) by (trans (w ++ [c]); [by eexists|done]).
  assert (Hl0 : 0 < state_length sp).
  { destruct Hlen as [[_ ->]|(_ & HLd & ->)]; [lia|].
    apply (f_equal length) in HLd. rewrite length_drop in HLd. lia. }
  (* the comparison, as one of words from the position *)
  set (A := Z.to_nat atl). assert (HA : atl = Z.of_nat A) by (unfold A, atl, slen; lia).
  assert (Hsame : same = true ↔ take (length w + A) (drop pos s) = take (length w + A) p).
  { unfold same. rewrite jseq_true, Hs, HA.
    replace (Z.of_nat (pos + length w) + Z.of_nat A) with (Z.of_nat (pos + length w + A)) by lia.
    replace (Z.of_nat (length w) + Z.of_nat A) with (Z.of_nat (length w + A)) by lia.
    rewrite !substring_take by lia.
    replace (pos + length w + A - (pos + length w))%nat with A by lia.
    replace (length w + A - length w)%nat with A by lia.
    rewrite <- drop_drop. destruct Hwp as [r1 ->], Hpw as [r2 ->].
    rewrite !drop_app_length, !take_app_add. split; [by intros ->|apply app_inv_head]. }
  assert (HpO : O p → L `prefix_of` p ∨ p `prefix_of` L).
  { intros Ho. by apply (edge_compare s h lab k O match_tree match_closed n w c m pos L). }
  assert (HpL : p `prefix_of` L → take (length w + A) (drop pos s) = take (length w + A) p).
  { intros Hp. assert (at_pos s p pos) as [r ->] by (eapply at_prefix; [done|apply E]).
    rewrite take_app_le; [done|]. unfold A, atl, slen. lia. }
  destruct Hlen as [[Hm Hlen]|(Hm & HLd & Hlen)].
  - (* a state *)
    destruct (decide (length p <= length L)%nat) as [Hle|Hgt].
    + assert (length w + A = length p)%nat as HAp by (unfold A, atl, slen; lia).
      rewrite HAp in *. rewrite (take_ge p) in * by lia.
      destruct same eqn:Es.
      * left. assert (at_pos s p pos) by (unfold at_pos; rewrite <- (proj1 Hsame eq_refl); apply prefix_take).
        split; [by apply (at_compare s _ _ pos); [|apply E|]|]. lia.
      * intros Ho. assert (p `prefix_of` L) as Hp.
        { destruct (HpO Ho) as [Hp|]; [|done]. by rewrite (prefix_same_length _ _ Hp). }
        apply HpL, Hsame in Hp. congruence.
    + assert (length w + A = length L)%nat as HAp by (unfold A, atl, slen; lia).
      rewrite HAp in *. rewrite <- (at_take s L pos) in * by apply E.
      destruct same eqn:Es.
      * right. split_and!; [done| |lia|done]. rewrite (proj1 Hsame eq_refl). apply prefix_take.
      * intros Ho. destruct (HpO Ho) as [Hp|Hp]; [|apply prefix_length in Hp; lia].
        assert (false = true); [|done]. apply Hsame. symmetry. by apply prefix_take_eq.
  - (* a leaf *)
    assert (length L = N - pos)%nat as HlL by (rewrite HLd; apply length_drop).
    destruct same eqn:Es.
    + left. pose proof (proj1 Hsame eq_refl) as Ht. rewrite <- HLd in Ht.
      assert (length w + A <= length L)%nat as HAL.
      { apply (f_equal length) in Ht. rewrite !length_take in Ht. unfold A, atl, slen in *. lia. }
      assert (length w + A = length p)%nat as HAp by (unfold A, atl, slen in *; lia).
      split; [|unfold slen in *; lia]. rewrite HAp, (take_ge p) in Ht by lia. rewrite <- Ht. apply prefix_take.
    + intros Ho. assert (p `prefix_of` L) as Hp.
      { destruct (HpO Ho) as [Hp|]; [|done]. by rewrite (leaf_longest n w c m pos L p). }
      apply HpL, Hsame in Hp. congruence.
Qed.

Lemma follow_spec f n w :
  lab !! n = Some w → w `prefix_of` p → (length w < length p)%nat → (length p - length w < f)%nat →
  (follow t f p n (Z.of_nat (length w)) = Some None ∧ ¬ O p) ∨
  ∃ m index, follow t f p n (Z.of_nat (length w)) = Some (Some (m, index)) ∧ locus m index.
Proof.
  revert n w. induction f as [|f IH]; intros n w Hn Hw Hl Hf; [lia|].
  destruct (t_states _ _ _ _ _ match_tree n w Hn) as [st Hst]. cbn [follow]. cbv zeta.
  rewrite (proj2 (Z.ltb_lt _ _)) by (unfold slen; lia). rewrite Hst. cbn [mbind option_bind].
  destruct (lookup_lt_is_Some_2 p (length w) Hl) as [c Hc].
  assert (key_at p (Z.of_nat (length w)) = [c]) as ->.
  { unfold key_at, charAt. by rewrite (proj2 (Z.ltb_ge _ _)), Nat2Z.id, Hc by lia. }
  assert (Hwc : w ++ [c] `prefix_of` p).
  { destruct Hw as [r ->]. rewrite lookup_app_r, Nat.sub_diag in Hc by done.
    destruct r as [|d r]; [done|]. injection Hc as ->. exists r. by rewrite <- (assoc_L (++)). }
  destruct (mget (edges st) [c]) as [m|] eqn:Hg.
  - destruct (t_keys _ _ _ _ _ match_tree n w st [c] m Hn Hst Hg) as (c' & pos & L & [= <-] & E).
    destruct (e_state _ _ _ _ _ _ _ _ _ _ E) as (sp & Hsp & _). rewrite Hsp. cbn [mbind option_bind].
    pose proof (follow_edge n w c m pos L sp E Hwc Hsp) as Hfe. cbv zeta in Hfe.
    destruct (_ ==s _); [|by left].
    destruct Hfe as [[Hp Hle]|(Hm & HL & HLl & Hlen)].
    + right. exists m, (Z.of_nat (length w) + state_length sp). split.
      * destruct f; [lia|]. cbn [follow]. cbv zeta. by rewrite (proj2 (Z.ltb_ge _ _)) by (unfold slen; lia).
      * by exists n, w, c, pos, L, sp.
    + pose proof (edge_longer s h lab k n w c m pos L E).
      rewrite Hlen. replace (Z.of_nat (length w) + Z.of_nat (length L - length w)) with (Z.of_nat (length L)) by lia.
      apply (IH m L); [done..|lia].
  - left. split; [done|]. intros Ho.
    assert (mhas (edges st) [c] = true) as Hm.
    { apply (t_edges _ _ _ _ _ match_tree n w st); [done..|]. eapply match_closed; done. }
    unfold mhas in Hm. by rewrite Hg in Hm.
Qed.

(** ** The states below *)

(** The results after the match at position [q]. *)
Definition note_at (acc : list Item * list Z) (q : nat) : list Item * list Z :=
  note_match t (slen p) acc (Z.of_nat q + slen p - 1).

(** An edge's word. *)
Lemma edge_word n w c m pos L n' w' c' pos' L' : edge n w c m pos L → edge n' w' c' m pos' L' → L = L'.
Proof.
  intros E E'. destruct (t_parent _ _ _ _ _ match_tree _ _ _ _ _ _ _ _ _ _ _ E E') as [<- <-].
  assert (w' = w) as -> by (pose proof (e_from _ _ _ _ _ _ _ _ _ _ E);
    pose proof (e_from _ _ _ _ _ _ _ _ _ _ E'); congruence).
  destruct (e_state _ _ _ _ _ _ _ _ _ _ E) as (sp & Hsp & Hs & He).
  destruct (e_state _ _ _ _ _ _ _ _ _ _ E') as (sp' & Hsp' & Hs' & He').
  assert (sp' = sp) as -> by congruence. assert (pos' = pos) as -> by lia.
  destruct He as [[? _]|(? & ? & _)], He' as [[? _]|(? & ? & _)]; congruence.
Qed.

(** A suffix that has a leaf and enters an edge goes to its end. *)
Lemma edge_at n w c m pos L j :
  edge n w c m pos L → w ++ [c] `prefix_of` sub s j N → (j < k)%nat → at_pos s L j.
Proof.
  intros E Hw Hj. pose proof (f_k _ _ _ _ F).
  assert (Hv : O (sub s j N)) by (apply occ_sub; lia).
  destruct (edge_compare s h lab k O match_tree match_closed n w c m pos L _ E Hw Hv) as [Hp|Hp].
  - eapply at_prefix; [exact Hp|apply sub_at].
  - assert (pos = j) as <-; [|apply E].
    apply (fresh_same s N k j pos (sub s j N)); [apply F|done|apply E|apply sub_at| |].
    + eapply at_prefix; [exact Hp|apply E].
    + rewrite length_sub by lia. lia.
Qed.

(** Where a suffix that has a leaf goes on below a state. *)
Lemma below_state m L j :
  lab !! m = Some L → m ≠ root → (j < k)%nat → at_pos s L j →
  ∃ c m' pos' L', edge m L c m' pos' L' ∧ at_pos s L' j.
Proof.
  intros Hm Hr Hj HL. pose proof (f_k _ _ _ _ F) as Hk.
  destruct (f_branching _ _ _ _ F m L Hm Hr) as (d & _ & _ & (j' & Hj' & He') & _); [done|].
  rewrite length_app in He'. cbn in He'. apply at_snoc in Hj' as [Hj' _].
  assert (Hlt : (j + length L < N)%nat).
  { destruct (decide (j + length L < N)%nat) as [|Hge]; [done|]. exfalso.
    assert (HjN : (j + length L <= N)%nat).
    { destruct L; [cbn; lia|]. by apply at_length. }
    apply (f_fresh _ _ _ _ F j j'); [lia|done|]. eapply at_prefix; [|exact Hj'].
    apply (at_compare s _ _ j); [apply sub_at|done|]. rewrite length_sub by lia. lia. }
  destruct (sub_next s L j N) as (c & Hc & HLc); [|lia|done|].
  { apply (at_compare s _ _ j); [done|apply sub_at|]. rewrite length_sub by lia. lia. }
  assert (Hv : O (sub s j N)) by (apply occ_sub; lia).
  destruct (edge_enter s h lab k O match_tree match_closed m L c _ Hm HLc Hv) as (m' & pos' & L' & E).
  exists c, m', pos', L'. split; [done|]. by apply (edge_at m L c m' pos' L').
Qed.

Lemma gather_spec f n w c m pos L acc :
  edge n w c m pos L → (N - length w < f)%nat →
  ∃ ps, _resultGather t f m acc (slen p) (Z.of_nat (length w) - slen p + 1)
        = Some (fold_left note_at ps acc) ∧
        (∀ q, q ∈ ps → (q < k)%nat ∧ at_pos s L q) ∧
        (∀ j, (j < k)%nat → at_pos s L j → j ∈ ps).
Proof.
  revert n w c m pos L acc. induction f as [|f IH]; intros n w c m pos L acc E Hf; [lia|].
  pose proof (edge_longer s h lab k n w c m pos L E) as HwL.
  assert (HLN : (pos + length L <= N)%nat).
  { apply at_length; [apply E|]. by destruct L; cbn in HwL; [lia|]. }
  destruct (e_state _ _ _ _ _ _ _ _ _ _ E) as (sp & Hsp & Hs & He).
  assert (Hnd : NoDup (edges sp).*1) by exact (Forall_lookup_1 _ _ _ _ (f_keys _ _ _ _ F) Hsp).
  cbn [_resultGather]. rewrite Hsp. cbn [mbind option_bind].
  replace (start sp - (Z.of_nat (length w) - slen p + 1)) with (Z.of_nat pos + slen p - 1) by lia.
  change (note_match t (slen p) acc (Z.of_nat pos + slen p - 1)) with (note_at acc pos).
  destruct He as [[Hm He]|(Hm & HLd & He & Hed)].
  - replace (Z.of_nat (length w) - slen p + 1 + state_length sp)
      with (Z.of_nat (length L) - slen p + 1) by (unfold state_length; lia).
    assert (Hch : ∀ m', m' ∈ children sp ↔ ∃ c' pos' L', edge m L c' m' pos' L').
    { intros m'. rewrite elem_of_children by done. split.
      - intros [c' Hg]. destruct (t_keys _ _ _ _ _ match_tree m L sp [c'] m' Hm Hsp Hg) as
          (c1 & pos' & L' & _ & E'). eauto.
      - intros (c' & pos' & L' & E'). destruct (e_edge _ _ _ _ _ _ _ _ _ _ E') as (sp' & Hsp' & Hg).
        exists c'. congruence. }
    assert (Hfold : ∀ ms acc0, (∀ m', m' ∈ ms → ∃ c' pos' L', edge m L c' m' pos' L') →
      ∃ ps, foldl (λ acc m', acc ← acc; _resultGather t f m' acc (slen p) (Z.of_nat (length L) - slen p + 1))
              (Some acc0) ms = Some (fold_left note_at ps acc0) ∧
            (∀ q, q ∈ ps → (q < k)%nat ∧ at_pos s L q) ∧
            (∀ j m' c' pos' L', m' ∈ ms → edge m L c' m' pos' L' → (j < k)%nat → at_pos s L' j → j ∈ ps)).
    { induction ms as [|m' ms IHms]; intros acc0 Hms.
      - exists []. split; [done|]. split; [by intros q ?%not_elem_of_nil|].
        by intros j m' c' pos' L' ?%not_elem_of_nil.
      - destruct (Hms m') as (c' & pos' & L' & E'); [by left|].
        destruct (IH m L c' m' pos' L' acc0 E') as (ps1 & Hg1 & Hq1 & Hj1); [lia|].
        destruct (IHms (fold_left note_at ps1 acc0)) as (ps2 & Hg2 & Hq2 & Hj2);
          [intros; apply Hms; by right|].
        exists (ps1 ++ ps2). cbn [foldl]. cbn [mbind option_bind]. rewrite Hg1, Hg2, fold_left_app.
        split; [done|]. split.
        + intros q [Hq|Hq]%elem_of_app; [|by apply Hq2]. destruct (Hq1 q Hq) as [Hk Ha]. split; [done|].
          eapply at_prefix; [|exact Ha]. trans (L ++ [c']); [by eexists|apply E'].
        + intros j m0 c0 pos0 L0 Hin E0 Hj Ha. apply elem_of_app.
          apply elem_of_cons in Hin as [->|Hin]; [left|right; by eapply Hj2].
          apply Hj1; [done|].
          by rewrite (edge_word _ _ _ _ _ _ _ _ _ _ _ E' E0). }
    destruct (Hfold (children sp) (note_at acc pos)) as (ps & Hg & Hq & Hj); [by intros m' ?%Hch|].
    exists (pos :: ps). split; [done|]. split.
    + intros q [->|Hin]%elem_of_cons; [split; apply E|by apply Hq].
    + intros j Hjk Ha. right.
      destruct (below_state m L j Hm) as (c' & m' & pos' & L' & E' & Ha'); [|done|done|].
      { intros ->. rewrite (t_root _ _ _ _ _ match_tree) in Hm. injection Hm as <-. cbn in HwL. lia. }
      apply (Hj j m' c' pos' L'); try done. apply Hch. eauto.
  - assert (children sp = []) as -> by (unfold children; by rewrite Hed).
    exists [pos]. split; [done|]. split.
    + intros q ->%list_elem_of_singleton. split; apply E.
    + intros j Hjk Ha. apply list_elem_of_singleton.
      assert (length L = N - pos)%nat as Hlen by (rewrite HLd; apply length_drop).
      apply (fresh_same s N k pos j L); [apply F|apply E|done|apply E|done|lia].
Qed.
End Match.
