(* ===== verification/SuffixTreeSearch.v ===== *)
(** * SuffixTreeSearch: the strings that a search finds

    The strings of a MultiSuffixTree and their positions in the string that the
    tree is of, the binary search among them, and what [findMatches] returns. *)

From S2P Require Import Prelude SuffixTree SuffixTreeInv SuffixTreeConstruct SuffixTreeMatch.

(** ** The positions of the strings *)

(** Where string [m] starts. *)
Definition offset (strings : list jsstr) (m : nat) : nat := length (concat (take m strings)).

Lemma offset_S strings m str : strings !! m = Some str → offset strings (S m) = (offset strings m + length str)%nat.
Proof.
  intros Hm. unfold offset. rewrite (take_S_r _ _ str) by done.
  by rewrite concat_app, length_app; cbn; rewrite app_nil_r.
Qed.

Lemma offset_mono strings m m' : (m <= m')%nat → (offset strings m <= offset strings m')%nat.
Proof.
  intros Hm. unfold offset. replace (take m' strings) with (take m strings ++ drop m (take m' strings)).
  - rewrite concat_app, length_app. lia.
  - replace (take m strings) with (take m (take m' strings)) by (rewrite take_take; f_equal; lia).
    apply take_drop.
Qed.

(** The string is there. *)
Lemma offset_at strings m str j :
  strings !! m = Some str → (j <= length str)%nat →
  ∃ r, drop (offset strings m + j) (concat strings) = drop j str ++ r.
Proof.
  intros Hm Hj. exists (concat (drop (S m) strings)).
  rewrite <- (take_drop_middle strings m str Hm) at 2.
  rewrite concat_app. unfold offset. rewrite <- drop_drop, drop_app_length. cbn [concat].
  by rewrite drop_app_le.
Qed.

(** A word within string [m]. *)
Lemma within strings m str v q :
  strings !! m = Some str → (offset strings m <= q)%nat → (q + length v <= offset strings m + length str)%nat →
  at_pos (concat strings) v q ↔ v `prefix_of` drop (q - offset strings m) str.
Proof.
  intros Hm Hq Hv. destruct (offset_at strings m str (q - offset strings m) Hm) as [r Hr]; [lia|].
  replace (offset strings m + (q - offset strings m))%nat with q in Hr by lia.
  unfold at_pos. rewrite Hr. split.
  - intros Hp. destruct (prefix_weak_total _ _ _ Hp (prefix_app_r _ _ r (reflexivity _))) as [|Hp']; [done|].
    rewrite (prefix_same_length _ _ Hp'); [done|]. rewrite length_drop. lia.
  - intros Hp. by apply prefix_app_r.
Qed.

Lemma offset_total strings : offset strings (length strings) = length (concat strings).
Proof. unfold offset. by rewrite take_ge. Qed.

(** Every position is in a string. *)
Lemma offset_find strings z :
  (z < length (concat strings))%nat →
  ∃ m str, strings !! m = Some str ∧ (offset strings m <= z < offset strings m + length str)%nat.
Proof.
  rewrite <- offset_total. induction (length strings) as [|n IH]; intros Hz; [by apply Nat.nlt_0_r in Hz|].
  destruct (decide (z < offset strings n)%nat) as [|Hn]; [by apply IH|].
  destruct (strings !! n) as [str|] eqn:Hs.
  - exists n, str. rewrite (offset_S _ _ _ Hs) in Hz. split; [done|lia].
  - exfalso. apply lookup_ge_None_1 in Hs.
    assert (offset strings (S n) = offset strings n) as He by (unfold offset; by rewrite !take_ge by lia). lia.
Qed.

Section Search.
Context {Item : Type}.

Fixpoint origins (base : nat) (l : list (jsstr * Item)) : list (origin Item) :=
  match l with
  | [] => []
  | (str, item) :: l =>
      mkOrigin (Z.of_nat base) (Z.of_nat (base + length str)) item :: origins (base + length str) l
  end.

Lemma add_strings_spec (l : list (jsstr * Item)) s0 offs :
  add_strings l s0 offs = (s0 ++ concat l.*1, offs ++ origins (length s0) l).
Proof.
  revert s0 offs. induction l as [|[str item] l IH]; intros s0 offs; cbn; [by rewrite !app_nil_r|].
  rewrite IH. unfold slen. rewrite length_app, <- !(assoc_L (++)). done.
Qed.

Lemma origins_lookup base (l : list (jsstr * Item)) m :
  origins base l !! m
  = (λ x, mkOrigin (Z.of_nat (base + offset l.*1 m)) (Z.of_nat (base + offset l.*1 m + length x.1)) x.2) <$> l !! m.
Proof.
  revert base m. induction l as [|[str item] l IH]; intros base [|m]; try done.
  - cbn. by rewrite Nat.add_0_r.
  - cbn [origins]. rewrite !lookup_cons, IH. unfold offset. cbn [fmap list_fmap take concat fst].
    destruct (l !! m) as [[str' item']|]; [|done]. cbn. rewrite length_app. do 2 f_equal; lia.
Qed.

(** ** The tree of some strings *)

(** What the constructor gives. *)
Record built (strings : list jsstr) (items : list Item) (t : tree Item) : Prop := mkBuilt {
  bt_length : length strings = length items;
  bt_str : _str t = concat strings;
  bt_num : _numItems t = Z.of_nat (length items);
  bt_offsets : _offsetsToItems t = origins 0 (zip strings items)
}.

Lemma construct_built strings (items : list Item) :
  length strings = length items →
  ∃ t lab k, MultiSuffixTree strings items = Some t ∧ built strings items t ∧
             suffix_tree (_str t) (_heap t) lab k.
Proof.
  intros Hl. unfold MultiSuffixTree. rewrite (proj2 (Nat.eqb_eq _ _) Hl), add_strings_spec. cbn [app].
  destruct (construct_tree (concat (zip strings items).*1)) as (h & lab & k & Hc & F). rewrite Hc.
  cbn [mbind option_bind length]. eexists _, lab, k. split; [done|]. split; [|exact F].
  split; [done| |done|done]. cbn. by rewrite fst_zip by lia.
Qed.

Section Built.
Variables (strings : list jsstr) (items : list Item) (t : tree Item).
Hypothesis B : built strings items t.

Lemma origin_lookup m o :
  _offsetsToItems t !! m = Some o ↔
  ∃ str item, strings !! m = Some str ∧ items !! m = Some item ∧
    o = mkOrigin (Z.of_nat (offset strings m)) (Z.of_nat (offset strings m + length str)) item.
Proof.
  rewrite (bt_offsets _ _ _ B), origins_lookup, fst_zip by (rewrite (bt_length _ _ _ B); lia).
  split.
  - destruct (zip strings items !! m) as [[str item]|] eqn:E; [|done]. cbn. intros [= <-].
    apply lookup_zip_with_Some in E as (? & ? & [= -> ->] & H1 & H2). eauto.
  - intros (str & item & H1 & H2 & ->). assert (zip strings items !! m = Some (str, item)) as ->; [|done].
    apply lookup_zip_with_Some. eauto.
Qed.

(** The string whose characters include position [z]. *)
Definition covers (o : origin Item) (z : Z) : Prop := o_start o <= z < o_end o.

Lemma covers_order m m' o o' z :
  _offsetsToItems t !! m = Some o → _offsetsToItems t !! m' = Some o' → covers o z → (m < m')%nat →
  z < o_start o'.
Proof.
  intros (str & item & Hs & _ & ->)%origin_lookup (str' & item' & Hs' & _ & ->)%origin_lookup [_ Hz] Hm.
  cbn in *. pose proof (offset_mono strings (S m) m' Hm) as Ho. rewrite (offset_S _ _ _ Hs) in Ho. lia.
Qed.

Lemma covers_order' m m' o o' z :
  _offsetsToItems t !! m = Some o → _offsetsToItems t !! m' = Some o' → covers o z → (m' < m)%nat →
  o_end o' <= z.
Proof.
  intros (str & item & Hs & _ & ->)%origin_lookup (str' & item' & Hs' & _ & ->)%origin_lookup [Hz _] Hm.
  cbn in *. pose proof (offset_mono strings (S m') m Hm) as Ho. rewrite (offset_S _ _ _ Hs') in Ho. lia.
Qed.

Lemma origins_length : length (_offsetsToItems t) = length strings.
Proof.
  rewrite (bt_offsets _ _ _ B). replace (length strings) with (length (zip strings items)).
  - generalize O. induction (zip strings items) as [|[str item] l IH]; intros b; [done|]. cbn. by rewrite IH.
  - rewrite length_zip. pose proof (bt_length _ _ _ B). lia.
Qed.

Lemma find_string_spec f low high z found m o :
  _offsetsToItems t !! m = Some o → covers o z →
  0 <= low → low <= Z.of_nat m <= high → high < Z.of_nat (length strings) → high - low < Z.of_nat f →
  find_string t f low high z found = Some o.
Proof.
  intros Hm Hz. revert low high found. induction f as [|f IH]; intros low high found H0 Hlh Hhl Hf; [lia|].
  cbn [find_string]. rewrite (proj2 (Z.ltb_ge _ _)) by lia.
  assert (Hd : 0 <= (high - low) / 2 <= high - low).
  { split; [apply Z.div_pos; lia|]. apply Z.div_le_upper_bound; lia. }
  set (mid := low + (high - low) / 2) in *. cbv zeta.
  destruct (lookup_lt_is_Some_2 (_offsetsToItems t) (Z.to_nat mid)) as [o' Ho'].
  { rewrite origins_length. lia. }
  rewrite Ho'. destruct (Z.ltb_spec 0 (o_start o' - z)) as [Hs|Hs].
  - assert (Z.of_nat m < mid).
    { destruct (Nat.lt_trichotomy m (Z.to_nat mid)) as [|[->|Hgt]]; [lia| |].
      - assert (o' = o) as -> by congruence. unfold covers in Hz. lia.
      - pose proof (covers_order' _ _ _ _ _ Hm Ho' Hz Hgt) as He.
        apply origin_lookup in Ho' as (? & ? & _ & _ & ->). cbn in *. lia. }
    apply IH; lia.
  - destruct (Z.leb_spec (o_end o' - z) 0) as [He|He].
    + assert (mid < Z.of_nat m).
      { destruct (Nat.lt_trichotomy m (Z.to_nat mid)) as [Hgt|[->|]]; [|idtac|lia].
        - pose proof (covers_order _ _ _ _ _ Hm Ho' Hz Hgt). lia.
        - assert (o' = o) as -> by congruence. unfold covers in Hz. lia. }
      apply IH; lia.
    + f_equal. destruct (Nat.lt_trichotomy m (Z.to_nat mid)) as [Hgt|[->|Hgt]]; [|congruence|].
      * pose proof (covers_order _ _ _ _ _ Hm Ho' Hz Hgt). lia.
      * pose proof (covers_order' _ _ _ _ _ Hm Ho' Hz Hgt). lia.
Qed.

Lemma search_string_spec z m o :
  _offsetsToItems t !! m = Some o → covers o z → search_string t z = Some o.
Proof.
  intros Hm Hz. unfold search_string. pose proof (lookup_lt_Some _ _ _ Hm) as Hl.
  rewrite origins_length in *. rewrite (bt_num _ _ _ B). pose proof (bt_length _ _ _ B).
  apply (find_string_spec _ _ _ _ _ m); try done; lia.
Qed.

Lemma search_string_some z :
  (z < length (_str t))%nat → ∃ m o, _offsetsToItems t !! m = Some o ∧ covers o (Z.of_nat z).
Proof.
  rewrite (bt_str _ _ _ B). intros Hz. destruct (offset_find strings z Hz) as (m & str & Hm & Hc).
  destruct (lookup_lt_is_Some_2 items m) as [item Hi].
  { rewrite <- (bt_length _ _ _ B). by eapply lookup_lt_Some. }
  eexists m, _. split; [apply origin_lookup; eauto|]. unfold covers. cbn. lia.
Qed.
End Built.
End Search.
