(* ===== verification/SuffixTreeFind.v ===== *)
(** * SuffixTreeFind: what the completion of contacts and tags finds

    The theorems on [MultiSuffixTree] and [findMatches] of SuffixTree.v: a search
    finds the strings with an occurrence of the pattern whose suffix is new, once
    each, and so all of them when the last character occurs nowhere else; a last
    string that is part of an earlier one is never found. *)

From S2P Require Import Prelude SuffixTree SuffixTreeInv SuffixTreeConstruct SuffixTreeMatch SuffixTreeSearch.

(** The suffix from [j] occurs at an earlier position too. *)
Definition repeated (s : jsstr) (j : nat) : Prop := ∃ j', (j' < j)%nat ∧ drop j s `prefix_of` drop j' s.

(** The suffixes that have a leaf are those that are not repeated. *)
Lemma leaf_repeated s h lab k j :
  suffix_tree s h lab k → (j < length s)%nat → (j < k)%nat ↔ ¬ repeated s j.
Proof.
  intros F Hj. assert (Hsub : ∀ j, sub s j (length s) = drop j s).
  { intros q. unfold sub. apply take_ge. rewrite length_drop. lia. }
  split.
  - intros Hjk (j' & Hlt & Hp). apply (f_fresh _ _ _ _ F j j'); [done..|]. by rewrite Hsub.
  - intros Hr. destruct (decide (j < k)%nat) as [|Hge]; [done|]. exfalso. apply Hr.
    destruct (f_repeated _ _ _ _ F) as [->|(j' & Hj' & Ha)]; [lia|].
    rewrite Hsub in Ha. exists (j' + (j - k))%nat. split; [lia|].
    replace j with (k + (j - k))%nat at 1 by lia. rewrite <- !drop_drop.
    destruct Ha as [r ->]. rewrite drop_app_le by (rewrite length_drop; lia). by apply prefix_app_r.
Qed.

Section Find.
Context {Item : Type}.
Variables (strings : list jsstr) (items : list Item) (t : tree Item).
Hypothesis B : built strings items t.
Variable p : jsstr.
Hypothesis Hp : p ≠ [].

Abbreviation s := (concat strings).

(** The pattern at [q] is within string [m]. *)
Definition inside (m q : nat) : Prop :=
  ∃ str, strings !! m = Some str ∧ (offset strings m <= q)%nat ∧
         (q + length p <= offset strings m + length str)%nat.

(** The results and [aPresence] are those of the strings [ms]. *)
Definition noted (ms : list nat) (acc : list Item * list Z) : Prop :=
  Forall2 (λ m r, items !! m = Some r) ms acc.1 ∧
  Forall2 (λ m z, z = Z.of_nat (offset strings m)) ms acc.2 ∧
  NoDup ms ∧ Forall (λ m, ∃ q, inside m q) ms.

Lemma length_p : (0 < length p)%nat.
Proof. destruct p; [done|cbn; lia]. Qed.

(** Strings that have characters start at different positions. *)
Lemma inside_start m q m' q' :
  inside m q → inside m' q' → offset strings m = offset strings m' → m = m'.
Proof.
  intros (str & Hs & H1 & H2) (str' & Hs' & H1' & H2') He. pose proof length_p.
  destruct (Nat.lt_trichotomy m m') as [Hlt|[|Hlt]]; [|done|].
  - pose proof (offset_mono strings (S m) m' Hlt) as Ho. rewrite (offset_S _ _ _ Hs) in Ho. lia.
  - pose proof (offset_mono strings (S m') m Hlt) as Ho. rewrite (offset_S _ _ _ Hs') in Ho. lia.
Qed.

Lemma inside_inj m m' q : inside m q → inside m' q → m = m'.
Proof.
  intros (str & Hs & H1 & H2) (str' & Hs' & H1' & H2'). pose proof length_p.
  destruct (Nat.lt_trichotomy m m') as [Hlt|[|Hlt]]; [|done|].
  - pose proof (offset_mono strings (S m) m' Hlt) as Ho. rewrite (offset_S _ _ _ Hs) in Ho. lia.
  - pose proof (offset_mono strings (S m') m Hlt) as Ho. rewrite (offset_S _ _ _ Hs') in Ho. lia.
Qed.

Lemma elem_of_presence ms acc m q :
  noted ms acc → inside m q → Z.of_nat (offset strings m) ∈ acc.2 ↔ m ∈ ms.
Proof.
  intros (_ & Hz & _ & Hin) Hmq. split.
  - intros Hz'. apply list_elem_of_lookup in Hz' as [i Hi].
    destruct (Forall2_lookup_r _ _ _ _ _ Hz Hi) as (m' & Hm' & He).
    destruct (Forall_lookup_1 _ _ _ _ Hin Hm') as [q' Hq'].
    assert (m = m') as ->; [|by eapply list_elem_of_lookup_2].
    apply (inside_start m q m' q'); [done..|lia].
  - intros Hm. apply list_elem_of_lookup in Hm as [i Hi].
    destruct (Forall2_lookup_l _ _ _ _ _ Hz Hi) as (z & Hz' & ->). by eapply list_elem_of_lookup_2.
Qed.

(** One match. *)
Lemma note_at_spec ms acc q :
  noted ms acc → at_pos s p q →
  ∃ ms', noted ms' (note_at t p acc q) ∧ ∀ m, m ∈ ms' ↔ m ∈ ms ∨ inside m q.
Proof.
  intros Hn Hq. pose proof length_p. pose proof (at_length _ _ _ Hq Hp) as HqN.
  unfold note_at, note_match.
  destruct (search_string_some strings items t B (q + length p - 1)) as (m & o & Ho & Hc).
  { rewrite (bt_str _ _ _ B). lia. }
  replace (Z.of_nat q + slen p - 1) with (Z.of_nat (q + length p - 1)) by (unfold slen; lia).
  rewrite (search_string_spec strings items t B _ _ _ Ho Hc).
  replace (Z.of_nat (q + length p - 1) - (slen p - 1)) with (Z.of_nat q) by (unfold slen; lia).
  apply (origin_lookup strings items t B) in Ho as (str & item & Hs & Hi & ->). unfold covers in Hc.
  cbn [o_start o_end o_item] in *.
  assert (Huniq : ∀ m', inside m' q → m' = m ∧ (offset strings m <= q)%nat).
  { intros m' (str' & Hs' & H1 & H2). assert (m' = m) as ->; [|done].
    destruct (Nat.lt_trichotomy m m') as [Hlt|[|Hlt]]; [|done|].
    - pose proof (offset_mono strings (S m) m' Hlt) as Hof. rewrite (offset_S _ _ _ Hs) in Hof. lia.
    - pose proof (offset_mono strings (S m') m Hlt) as Hof. rewrite (offset_S _ _ _ Hs') in Hof. lia. }
  destruct acc as [res pres]. destruct (Z.leb_spec (Z.of_nat (offset strings m)) (Z.of_nat q)) as [Hle|Hgt].
  - assert (Hin : inside m q) by (exists str; split_and!; [done|lia|lia]).
    case_bool_decide as Hpr; cbn [andb negb].
    + exists ms. split; [done|]. intros m'. split; [by left|]. intros [|Hm']; [done|].
      destruct (Huniq _ Hm') as [-> _]. by apply (elem_of_presence ms (res, pres) m q).
    + exists (ms ++ [m]). destruct Hn as (Hr & Hz & Hnd & Hall). split.
      * split_and!; cbn.
        -- apply Forall2_app; [done|]. by constructor.
        -- apply Forall2_app; [done|]. by constructor.
        -- apply NoDup_app. split_and!; [done| |apply NoDup_singleton].
           intros m' Hm' ->%list_elem_of_singleton. apply Hpr.
           by apply (elem_of_presence ms (res, pres) m q).
        -- apply Forall_app. split; [done|]. constructor; [by exists q|constructor].
      * intros m'. rewrite elem_of_app, list_elem_of_singleton. split; (intros [|Hm']; [by left|]).
        -- subst m'. by right.
        -- right. by apply Huniq.
  - exists ms. split; [done|]. intros m'. split; [by left|]. intros [|Hm']; [done|].
    destruct (Huniq _ Hm') as [_ Hle]. lia.
Qed.

Lemma note_fold_spec ps ms acc :
  noted ms acc → (∀ q, q ∈ ps → at_pos s p q) →
  ∃ ms', noted ms' (fold_left (note_at t p) ps acc) ∧
         ∀ m, m ∈ ms' ↔ m ∈ ms ∨ ∃ q, q ∈ ps ∧ inside m q.
Proof.
  revert ms acc. induction ps as [|q ps IH]; intros ms acc Hn Hps.
  - exists ms. split; [done|]. intros m. split; [by left|]. by intros [|(q & ?%not_elem_of_nil & _)].
  - destruct (note_at_spec ms acc q Hn) as (ms1 & Hn1 & Hm1); [apply Hps; by left|].
    destruct (IH ms1 _ Hn1) as (ms2 & Hn2 & Hm2); [intros; apply Hps; by right|].
    exists ms2. split; [done|]. intros m. rewrite Hm2, Hm1. split.
    + intros [[|Hin]|(q' & Hq' & Hin)]; [by left|right; exists q; split; [by left|done]|].
      right. exists q'. split; [by right|done].
    + intros [|(q' & [->|Hq']%elem_of_cons & Hin)]; [by do 2 left|by left; right|].
      right. by exists q'.
Qed.

(** What a search returns. *)
Lemma find_spec lab k :
  suffix_tree (_str t) (_heap t) lab k →
  ∃ ms res, findMatches t p = Some res ∧ Forall2 (λ m r, items !! m = Some r) ms res ∧ NoDup ms ∧
    ∀ m, m ∈ ms ↔ ∃ q, (q < k)%nat ∧ at_pos s p q ∧ inside m q.
Proof.
  intros F. pose proof length_p. pose proof (match_tree t lab k F) as T.
  pose proof (bt_str _ _ _ B) as Hs. unfold findMatches.
  destruct (follow_spec t lab k F p (S (length p)) root []) as [[Hf Hno]|(m & index & Hf & Hloc)];
    [apply T|apply prefix_nil|cbn; lia|cbn; lia| |]; cbn [length] in Hf; change (Z.of_nat 0) with 0 in Hf;
    rewrite Hf; cbn [mbind option_bind].
  - exists [], []. split_and!; [done|constructor|constructor|]. intros m.
    split; [by intros ?%not_elem_of_nil|]. intros (q & _ & Hq & _). exfalso. apply Hno.
    rewrite <- Hs in Hq. by apply (occ_at_pos t p q).
  - destruct Hloc as (n & w & c & pos & L & sp & E & Hwp & HpL & Hsp & ->). rewrite Hsp. cbn [mbind option_bind].
    replace (Z.of_nat (length w) + state_length sp - state_length sp - slen p + 1)
      with (Z.of_nat (length w) - slen p + 1) by lia.
    destruct (gather_spec t lab k F p (S (S (length (_str t)))) n w c m pos L ([], []) E)
      as (ps & Hg & Hq & Hj); [lia|]. rewrite Hg. cbn [mbind option_bind].
    destruct (note_fold_spec ps [] ([], [])) as (ms & (Hr & _ & Hnd & _) & Hms).
    { split_and!; constructor. }
    { intros q Hin. rewrite <- Hs. destruct (Hq q Hin) as [_ Ha]. by eapply at_prefix. }
    destruct (fold_left _ _ _) as [res pres]. exists ms, res. split_and!; [done..|].
    intros m'. rewrite Hms. split.
    + intros [?%not_elem_of_nil|(q & Hin & Hi)]; [done|]. destruct (Hq q Hin) as [Hk Ha].
      exists q. split_and!; [done| |done]. rewrite <- Hs. by eapply at_prefix.
    + intros (q & Hk & Ha & Hi). right. exists q. split; [|done]. apply Hj; [done|].
      apply (edge_at t lab k F n w c m pos L q E); [|done]. trans p; [done|].
      rewrite Hs. apply (at_compare s _ _ q); [done|apply sub_at|].
      pose proof (at_length _ _ _ Ha Hp). rewrite length_sub by lia. lia.
Qed.
End Find.

(** ** The theorems *)

Lemma includes_true str p : includes str p = true ↔ ∃ a b, str = a ++ p ++ b.
Proof.
  unfold includes. destruct (find_sub p str) as [n|] eqn:E.
  - split; [|done]. intros _. apply find_sub_Some in E as (a & b & E & _). eauto.
  - split; [done|]. intros (a & b & He). by apply find_sub_None with (a := a) (b := b) in E.
Qed.

Section Theorems.
Context {Item : Type}.

(** The results [res] are the items of the strings [ms], each string once. *)
Definition results_of (items : list Item) (ms : list nat) (res : list Item) : Prop :=
  Forall2 (λ m r, items !! m = Some r) ms res ∧ NoDup ms.

(** [p] is in [str] at [o]. *)
Definition at_offset (p str : jsstr) (o : nat) : Prop := p `prefix_of` drop o str.

Lemma inside_at strings p m q :
  p ≠ [] →
  at_pos (concat strings) p q ∧ inside strings p m q ↔
  ∃ str o, strings !! m = Some str ∧ at_offset p str o ∧ q = (offset strings m + o)%nat.
Proof.
  intros Hp. split.
  - intros [Ha (str & Hs & H1 & H2)]. exists str, (q - offset strings m)%nat. split_and!; [done| |lia].
    by apply (within strings m str p q).
  - intros (str & o & Hs & Ho & ->). pose proof (at_length str p o Ho Hp).
    assert (Hin : inside strings p m (offset strings m + o)) by (exists str; split_and!; [done|lia|lia]).
    split; [|done]. apply (within strings m str); [done|lia|lia|].
    by replace (offset strings m + o - offset strings m)%nat with o by lia.
Qed.

Lemma search_spec strings (items : list Item) p :
  length strings = length items → p ≠ [] →
  ∃ t ms res, MultiSuffixTree strings items = Some t ∧ findMatches t p = Some res ∧
    results_of items ms res ∧
    ∀ m, m ∈ ms ↔ ∃ str o, strings !! m = Some str ∧ at_offset p str o ∧
                           ¬ repeated (concat strings) (offset strings m + o).
Proof.
  intros Hl Hp. destruct (construct_built strings items Hl) as (t & lab & k & Ht & B & F).
  destruct (find_spec strings items t B p Hp lab k F) as (ms & res & Hf & Hr & Hnd & Hms).
  exists t, ms, res. split_and!; [done..|]. intros m. rewrite Hms.
  pose proof (bt_str _ _ _ B) as Hs. rewrite Hs in F. split.
  - intros (q & Hq & Ha & Hi). destruct (proj1 (inside_at strings p m q Hp) (conj Ha Hi)) as (str & o & Hm & Ho & ->).
    exists str, o. split_and!; [done..|]. apply (leaf_repeated _ _ _ _ _ F); [|done].
    pose proof (at_length _ _ _ Ha Hp). pose proof (length_p p Hp). lia.
  - intros (str & o & Hm & Ho & Hr'). exists (offset strings m + o)%nat.
    destruct (proj2 (inside_at strings p m (offset strings m + o) Hp)) as [Ha Hi]; [eauto|].
    split_and!; [|done..]. apply (leaf_repeated _ _ _ _ _ F); [|done].
    pose proof (at_length _ _ _ Ha Hp). pose proof (length_p p Hp). lia.
Qed.

(** C7. Refinement: the tree is built for any strings, the search ends, and what
    it returns are the items of the strings in which the pattern occurs at a
    place whose suffix, to the end of the last string, does not occur at an
    earlier place too; each string's item once. *)
Theorem findMatches_refines strings (items : list Item) p :
  length strings = length items → p ≠ [] →
  ∃ t ms res, MultiSuffixTree strings items = Some t ∧ findMatches t p = Some res ∧
    results_of items ms res ∧
    ∀ m, m ∈ ms ↔ ∃ str o, strings !! m = Some str ∧ at_offset p str o ∧
                           ¬ repeated (concat strings) (offset strings m + o).
Proof. apply search_spec. Qed.

(** When the last character of the last string occurs nowhere else, the
    search finds all: exactly the strings that include the pattern. *)
Theorem unique_end_finds_all strings (items : list Item) p s' c :
  length strings = length items → p ≠ [] → concat strings = s' ++ [c] → c ∉ s' →
  ∃ t ms res, MultiSuffixTree strings items = Some t ∧ findMatches t p = Some res ∧
    results_of items ms res ∧
    ∀ m, m ∈ ms ↔ ∃ str, strings !! m = Some str ∧ includes str p = true.
Proof.
  intros Hl Hp Hc Hcs. destruct (search_spec strings items p Hl Hp) as (t & ms & res & Ht & Hf & Hr & Hms).
  exists t, ms, res. split_and!; [done..|]. intros m. rewrite Hms.
  assert (Hnr : ∀ q, (q < length (concat strings))%nat → ¬ repeated (concat strings) q).
  { rewrite Hc, length_app. cbn. intros q Hq (j & Hj & [r Hpre]).
    assert (Hdq : drop q (s' ++ [c]) = drop q s' ++ [c]) by (apply drop_app_le; lia).
    assert (Hdj : drop j (s' ++ [c]) = drop j s' ++ [c]) by (apply drop_app_le; lia).
    rewrite Hdq, Hdj in Hpre. apply Hcs.
    rewrite <- (take_drop j s'). apply elem_of_app. right.
    destruct r as [|x r _] using rev_ind.
    - rewrite app_nil_r in Hpre. apply (f_equal length) in Hpre. rewrite !length_app, !length_drop in Hpre. lia.
    - rewrite (assoc_L (++)) in Hpre. apply app_inj_tail in Hpre as [-> _]. set_solver. }
  split.
  - intros (str & o & Hm & [r Ho] & _). exists str. split; [done|]. apply includes_true.
    exists (take o str), r. by rewrite <- Ho, take_drop.
  - intros (str & Hm & (a & b & ->)%includes_true). exists (a ++ p ++ b), (length a).
    assert (Ho : at_offset p (a ++ p ++ b) (length a)).
    { unfold at_offset. rewrite drop_app_length. by exists b. }
    split_and!; [done..|]. apply Hnr.
    destruct (proj2 (inside_at strings p m (offset strings m + length a) Hp)) as [Ha _]; [eauto|].
    pose proof (at_length _ _ _ Ha Hp). pose proof (length_p p Hp). lia.
Qed.

(** A last string that is part of an earlier string is never found, whatever
    the pattern: all its suffixes occur before, the tree has no leaf for them,
    and the source ends the string without a character of its own. *)
Theorem last_string_lost l str l0 a b (items : list Item) p :
  length (l ++ [str]) = length items → p ≠ [] → l !! l0 = Some (a ++ str ++ b) →
  ∃ t ms res, MultiSuffixTree (l ++ [str]) items = Some t ∧ findMatches t p = Some res ∧
    results_of items ms res ∧ length l ∉ ms.
Proof.
  intros Hl Hp H0. destruct (search_spec (l ++ [str]) items p Hl Hp) as (t & ms & res & Ht & Hf & Hr & Hms).
  exists t, ms, res. split_and!; [done..|]. rewrite Hms. intros (str' & o & Hm & Ho & Hnr). apply Hnr.
  rewrite list_lookup_middle in Hm by done. injection Hm as <-.
  pose proof (at_length str p o Ho Hp) as Hol. pose proof (length_p p Hp) as Hpl.
  pose proof (lookup_lt_Some _ _ _ H0) as Hl0.
  assert (H0' : (l ++ [str]) !! l0 = Some (a ++ str ++ b)) by by apply lookup_app_l_Some.
  assert (Hlast : (l ++ [str]) !! length l = Some str) by by rewrite list_lookup_middle.
  exists (offset (l ++ [str]) l0 + (length a + o))%nat. split.
  - pose proof (offset_mono (l ++ [str]) (S l0) (length l) Hl0) as Hof.
    rewrite (offset_S _ _ _ H0') in Hof. rewrite !length_app in Hof. lia.
  - destruct (offset_at _ _ _ (length a + o)%nat H0') as [r ->]; [rewrite !length_app; lia|].
    destruct (offset_at _ _ _ o Hlast) as [r' Hr']; [lia|].
    assert (r' = []) as ->.
    { apply (f_equal length) in Hr'. rewrite length_app, !length_drop, concat_app, length_app in Hr'.
      unfold offset in Hr'. rewrite take_app_length in Hr'. cbn [concat] in Hr'. rewrite app_nil_r in Hr'.
      destruct r'; [done|cbn in Hr'; lia]. }
    rewrite Hr', app_nil_r, <- drop_drop, drop_app_length, drop_app_le by lia.
    rewrite <- (assoc_L (++)). by eexists.
Qed.
End Theorems.

(** ** Samples *)

Definition sample_names : list jsstr := [js "abcabxabcd"; js "xaby"].

Lemma findMatches_refines_witness :
  ∃ t ms res, MultiSuffixTree sample_names [1; 2] = Some t ∧ findMatches t (js "ab") = Some res ∧
    results_of [1; 2] ms res ∧
    ∀ m, m ∈ ms ↔ ∃ str o, sample_names !! m = Some str ∧ at_offset (js "ab") str o ∧
                           ¬ repeated (concat sample_names) (offset sample_names m + o).
Proof. by apply (findMatches_refines sample_names [1; 2] (js "ab")). Defined.

Lemma unique_end_finds_all_witness :
  ∃ t ms res, MultiSuffixTree sample_names [1; 2] = Some t ∧ findMatches t (js "ab") = Some res ∧
    results_of [1; 2] ms res ∧
    ∀ m, m ∈ ms ↔ ∃ str, sample_names !! m = Some str ∧ includes str (js "ab") = true.
Proof.
  apply (unique_end_finds_all sample_names [1; 2] (js "ab") (js "abcabxabcdxab") 121); try done.
  vm_compute. set_solver.
Defined.

Lemma last_string_lost_witness :
  ∃ t ms res, MultiSuffixTree [js "work"; js "homework"; js "ome"] [1; 2; 3] = Some t ∧
    findMatches t (js "ome") = Some res ∧ results_of [1; 2; 3] ms res ∧ 2%nat ∉ ms.
Proof.
  by apply (last_string_lost [js "work"; js "homework"] (js "ome") 1 (js "h") (js "work") [1; 2; 3] (js "ome")).
Defined.

(** The last of three names is lost. *)
Lemma last_name_missed :
  (t ← MultiSuffixTree [js "work"; js "homework"; js "ome"] [1; 2; 3]; findMatches t (js "ome")) = Some [2].
Proof. reflexivity. Qed.
